(* ===== verification/_CoqProject ===== *)
-Q . S2P
Prelude.v
Binary64.v
TscClock.v
Latency.v
Fifo.v
SpscQueue.v
SpscConcurrent.v
SpscObserve.v
MpscQueue.v
HazardPointers.v
HazardConcurrent.v
PriceLadder.v
OrderBook.v
Matching.v
BookInvariant.v
Engine.v
BookSpec.v
OrderClients.v
OrderPool.v
BookBench.v
BookBenchSafety.v
BookBenchLogic.v
BookBenchCycles.v
BookBenchTrades.v
QueueBench.v
MpscBench.v
MicroBench.v
FixMessage.v
FixReference.v
FixValues.v
FixParser.v
FixPipeline.v
FixWorkload.v
XdpFilter.v
FixHardware.v
Umem.v
XskSocket.v
XskLifecycle.v
