(* ===== verification/Prelude.v ===== *)
(** * hft-engine: a verification development

    This library models the C++ and eBPF code of hft-engine and proves what makes it
    correct.  It is a shallow embedding: a C++ function is a Rocq function of the same
    name, a class is a record of its members under their names, an enum is an inductive
    type, threads are step relations.

    ** The program

    - 1_orderbook is a matching engine for one symbol.  [OrderBook] keeps two
      [FlatPriceLadder]s (sorted vectors of price levels), a pool of order records, a
      table from the low bits of an order id to a pool slot, and a free list of slots,
      which is an [SpscQueue].  [add_order] takes a slot, trades against the opposite
      ladder through [match_aggressive_buy] or [match_aggressive_sell] (each fill is
      handed to a callback) and rests the remainder; [cancel_order] gives the slot back.
      [SpscQueue] and [MpscQueue] are queues between threads; [HazardPointerDomain]
      defers deletions.
    - 2_network brings FIX messages to it: XDP programs choose the packets that go to
      user space, [XskSocket] receives them into the frames of a [Umem], [FixMessage]
      parses them, and bench_fix_pipeline.cpp hands the parsed orders to [add_order].

    ** The files and what they model

    - Prelude: [outcome], the result of code that can have undefined behaviour or never
      end; machine words ([u8], [u32], [u64] wrap, [i64_checked] faults); bounds-checked
      reads and writes; generic lemmas, the tactics [case_Z] and [solve_bounds],
      reachability.
    - Fifo: the interface of a bounded queue, the classes [FifoOps] and [FifoSpec]; the
      client [OrderBook] is written and proved against it.
    - SpscQueue (module Spsc): spsc_queue.hpp run by one thread, instance of the interface.
    - SpscConcurrent (SpscConc): the same header run by a producer and a consumer thread,
      one memory access per step, in the release/acquire model with stale reads.
      SpscObserve: [empty] and [size] called meanwhile, also by a third thread.
    - MpscQueue (Mpsc): mpsc_queue.hpp run by any number of producers and one consumer,
      with [new] and [delete]; the destructor.
    - HazardPointers (Hazard): hazard_pointers.hpp, each method run to its end.
      HazardConcurrent (HazardConc): its accesses interleaved, in the same weak model.
    - PriceLadder (Ladder): price_level.hpp, with [std::lower_bound]'s halving search.
    - OrderBook (Book): order.hpp, order_book.hpp, order_book.cpp: every method.
    - Matching, BookInvariant (BookInv), Engine, OrderPool (Pool): what these methods
      compute; no code is modelled there.  [Engine.call] and [Engine.run] are the
      programs a client can write with the two methods.
    - BookSpec (Market): an abstract order book, two maps from prices to quantities, and the
      proof that the engine refines it.  OrderClients (Clients): the clients for which the
      slot pool is sound.
    - Binary64 (B64): the double arithmetic of the sources, in the IEEE 754 arithmetic of
      the Standard Library.  TscClock (Clock): tsc_clock.hpp and tsc_clock.cpp, with the
      classes [Counter] and [HostClocks] that state what the counter and the system clock
      are relied on for.  Latency: the records of latencies and the percentiles that all
      benchmarks share.
    - BookBench: the ten order book workloads of bench_realistic.cpp, bench_orderbook.cpp
      and bench_profiling.cpp.  BookBenchSafety shows that they end; BookBenchLogic is a
      small logic for their loops, with which BookBenchCycles and BookBenchTrades show what
      they trade.
    - QueueBench: bench_spsc.cpp and the queue workload of bench_profiling.cpp, against the
      interface of Fifo.  MpscBench: bench_mpsc.cpp, its four producers as a step relation.
      MicroBench: the memory workloads of bench_profiling.cpp and bench_af_xdp.cpp.
    - FixMessage (Fix): fix_message.hpp and fix_message.cpp.  FixReference, FixValues and
      FixParser hold its reference and its properties.
    - FixPipeline (Pipeline) and FixWorkload (Workload): bench_fix_pipeline.cpp, the
      generator, one message, both benchmarks.
    - XdpFilter (Xdp): bpf/xdp_fix_redirect.c and ebpf/redirect.bpf.c.
    - FixHardware: 3_fpga/rtl/fix_parser.v, a parser in Verilog that the rest does not use,
      and its test bench.
    - Umem (UmemRegion), XskSocket (Xsk): umem.cpp and the batch loops of xsk_socket.cpp.
      XskLifecycle (XskLife): the rest of xsk_socket.cpp, with what it prints, throws,
      acquires and gives back.

    A member [x_] of the class is the field [x_] of the record.  A pointer or reference
    into a vector is the index of the element.  The order book's callback is the list of
    the results it was called with, and the time-stamp counter an arbitrary function of
    the number of readings: both live in [Book.world].  The book is parametric in the
    size of the pool ([max_orders], a power of two; the program's is [MAX_ORDERS]) and in
    the queue that holds its free list.

    ** What is shown

    - Matching: the loops compute [Matching.sweep], one pass over the levels in priority
      order (Matching.match_aggressive_is_sweep), with price priority and conservation of
      quantity; they fail to end exactly when [Matching.stalls], a consequence of the
      truncation of a 64-bit level total to 32 bits.
    - The ladder refines a finite map from prices to levels (upsert is insertion, the
      removal is deletion, find, best and worst are lookups).
    - The engine: [BookInv.book_ok] (ladders sorted, positive, not crossed; pool, table
      and free list well formed) is established by the constructor and preserved by every
      call; [add_order] is characterised on all its branches; whole programs of calls run
      safely, with the volume on the ladders accounted for; ids; spread.
    - The specification: [Market.market_step] says without loops what an order trades (at
      each price what is left after all better prices) and rests; every program of calls
      on the engine is a run of the market, with the same answers and trades
      (Market.engine_refines_market).
    - The slot pool, where the code departs from its comments: a slot dropped by the
      constructor, slots of resting orders never returned, slots returned twice, and
      cancelled quantity that still trades.  For clients that cancel only live orders no
      slot is shared (Clients.disciplined_clients_share_no_slot).
    - The queues: the sequential ring buffer is a bounded FIFO; the concurrent one is
      FIFO, bounded, free of data races and wait-free, and its size as the two threads see
      it errs on the safe side; the linked queue delivers in the
      order of the exchanges on its tail, never touches a deleted or unpublished node,
      and its destructor frees everything; a producer preempted half-way hides the items
      of the others.
    - The FIX parser equals a parser by fields for every buffer, never leaves the buffer
      and always ends; what valid, prices and checksums mean; the generator's messages
      are read back; handling one is [add_order].
    - The clock: a calibrated [tsc_to_ns] is exact up to 2^-49 and one nanosecond, and
      defined; an uncalibrated one gives back the ticks, and can overflow on a difference
      that wrapped.  Percentiles are order statistics.
    - The benchmarks run to the end: the FIX ones, those of the order book whatever is
      drawn, those of the queues with everything popped that was pushed, in order and,
      with four producers, under every schedule.  The trades of eight of the ten order book
      benchmarks are given exactly (those of the other two depend on the draws), and the
      iteration in which the sum of the cache benchmark overflows.  What reads the clock is
      proved for every counter and clock of [Clock.HostClocks]: a counter below 2^63 that
      does not go back, a run of less than 2^48 ticks, normalised times of a clock that is
      not set back, and one tick in 2^15 nanoseconds while [calibrate] measures.
    - The packet filters: their verdicts, bounds, and the missing byte swap.
    - The hardware parser: which outputs can change at all (two of six, unless [next_state],
      which reset leaves alone, powers up in the last state), and what the first field after
      a reset does to them.
    - Hazard pointers: every retired pointer is deleted once or still retired, a scan is
      wait-free, a slot whose store happens before the scan protects its pointer, and
      threads with ids of their own, which may release any index of their part of the
      table, never share a slot; a store that does not happen before the scan, a shared id,
      or a release past the part of its thread ends the protection.
    - Sockets: frames partition the mapping, batches and the receive loop account for
      every packet, with a clock that nothing calibrates, and a socket gives back what it acquired whatever fails.

    ** Bounds and fuel

    A loop is a [Fixpoint] on its own data or on fuel; running out of fuel is
    [Fault Diverges], never a result.  Theorems say that the fuel is enough.  The halving
    search takes the length of the vector; a matching loop one unit per level of the
    ladder (an iteration that neither ends nor erases a level is a stall, and for those
    the loop is shown not to end with any fuel); the parser one unit per byte of the
    buffer; scaling a price 4 units, since it multiplies at most four times;
    [std::to_string] 10 digits, enough for 32 bits; the destructors one unit per node.
    The drain loops of the benchmarks take one unit more than the queue can hold; the
    endless receive loop is observed for any number of iterations.
    Whole-program theorems bound the submitted quantity by 2^32, which keeps every level
    below the point where the loop can stall; for the benchmarks this becomes a bound on
    their iterations.

    ** What is not modelled

    - What the sources only call: libxdp, libbpf, sockets, [mmap], the clocks, the random
      generators and the benchmark harness (a number of iterations).  They are parameters.
    - [now_serialized], which nothing calls, and [bench_af_xdp_rx_zerocopy], a placeholder.
    - The tests and the build files.
    - In the concurrent models the atomics of one thread take effect in program order;
      what is weak is what a read may return.  Node identities of the linked queue are
      not reused.  The hazard slots of one thread id are written in the order of the steps,
      and the retired list is used by one thread, or under a lock.

    ** Plan

    In order: the unit tests as runs of the model; the hardware parser against the software
    parser on the fields it can decode; shorter proofs for the step invariants of the
    queues. *)
From Stdlib Require Export ZArith Lia.
From stdpp Require Export base tactics option numbers list gmap sorting strings.

#[global] Open Scope Z_scope.

(** ** Outcomes of C++ code

    A C++ operation returns a value, has undefined behaviour, or never returns.  *)
Inductive fault : Set :=
  | OutOfBounds       (* access outside an array or a buffer *)
  | SignedOverflow    (* signed integer overflow *)
  | Diverges          (* a loop that never exits *)
  | BadConversion.    (* a double converted to an integer that cannot hold it *)

Inductive outcome (A : Type) : Type :=
  | Ok (a : A)
  | Fault (e : fault).
Arguments Ok {A} _.
Arguments Fault {A} _.

#[export] Instance fault_eq_dec : EqDecision fault.
Proof. solve_decision. Defined.
#[export] Instance outcome_eq_dec `{EqDecision A} : EqDecision (outcome A).
Proof. solve_decision. Defined.

#[export] Instance Ok_inj {A} : Inj (=) (=) (@Ok A).
Proof. by intros ?? [= ->]. Qed.

#[export] Instance outcome_ret : MRet outcome := λ A a, Ok a.
#[export] Instance outcome_bind : MBind outcome := λ A B f m,
  match m with Ok a => f a | Fault e => Fault e end.
#[export] Instance outcome_fmap : FMap outcome := λ A B f m,
  match m with Ok a => Ok (f a) | Fault e => Fault e end.

Lemma bind_Ok {A B} (m : outcome A) (f : A → outcome B) b :
  m ≫= f = Ok b ↔ ∃ a, m = Ok a ∧ f a = Ok b.
Proof. destruct m; simpl; naive_solver. Qed.

Lemma bind_ret_l {A B} (a : A) (f : A → outcome B) : Ok a ≫= f = f a.
Proof. reflexivity. Qed.

(** ** Machine integers

    A [w]-bit unsigned integer is a [Z] in [0, 2^w); arithmetic wraps. *)
Definition wrap (w x : Z) : Z := x `mod` 2 ^ w.
Abbreviation u8 := (wrap 8).
Abbreviation u32 := (wrap 32).
Abbreviation u64 := (wrap 64).

(** Bits put side by side. *)
Lemma lor_shiftl_add w a b : 0 ≤ w → 0 ≤ b < 2 ^ w → Z.lor (Z.shiftl a w) b = a * 2 ^ w + b.
Proof.
  intros Hw Hb. rewrite <-Z.add_nocarry_lor; [by rewrite Z.shiftl_mul_pow2|].
  apply Z.bits_inj'. intros n Hn. rewrite Z.land_spec, Z.bits_0, Z.shiftl_spec by done.
  destruct (Z.ltb_spec n w); [by rewrite Z.testbit_neg_r by lia|].
  rewrite <-(Z.mod_small b (2 ^ w)), Z.mod_pow2_bits_high by lia. apply andb_false_r.
Qed.

(** Conversion of an unsigned 64-bit value to [int64_t], and back by [u64]. *)
Definition to_i64 (x : Z) : Z := (x + 2 ^ 63) `mod` 2 ^ 64 - 2 ^ 63.

Definition i64_min : Z := - 2 ^ 63.
Definition i64_max : Z := 2 ^ 63 - 1.

(** The result of a signed 64-bit operation: undefined when it does not fit. *)
Definition i64_checked (x : Z) : outcome Z :=
  if bool_decide (i64_min ≤ x ≤ i64_max) then Ok x else Fault SignedOverflow.

Definition i32_checked (x : Z) : outcome Z :=
  if bool_decide (- 2 ^ 31 ≤ x < 2 ^ 31) then Ok x else Fault SignedOverflow.

Lemma wrap_small w x : 0 ≤ x < 2 ^ w → wrap w x = x.
Proof. apply Z.mod_small. Qed.

Lemma wrap_bounds w x : 0 ≤ w → 0 ≤ wrap w x < 2 ^ w.
Proof. intros. apply Z.mod_pos_bound. lia. Qed.

Lemma wrap_wrap w x : 0 ≤ w → wrap w (wrap w x) = wrap w x.
Proof. intros. apply wrap_small, wrap_bounds. done. Qed.

(** Horner's rule may wrap at every step. *)
Lemma wrap_horner w n k x : wrap w (wrap w n * k + x) = wrap w (n * k + x).
Proof.
  unfold wrap. rewrite <-(Zplus_mod_idemp_l (_ * k)), Zmult_mod_idemp_l.
  by rewrite Zplus_mod_idemp_l.
Qed.

Lemma i64_checked_Ok x : i64_min ≤ x ≤ i64_max → i64_checked x = Ok x.
Proof. intros. unfold i64_checked. by rewrite bool_decide_eq_true_2. Qed.

Lemma i64_checked_overflow x :
  ¬ (i64_min ≤ x ≤ i64_max) → i64_checked x = Fault SignedOverflow.
Proof. intros. unfold i64_checked. by rewrite bool_decide_eq_false_2. Qed.

Lemma i32_checked_Ok x : - 2 ^ 31 ≤ x < 2 ^ 31 → i32_checked x = Ok x.
Proof. intros. unfold i32_checked. by rewrite bool_decide_eq_true_2. Qed.

Lemma i64_checked_bind {B} x (f : Z → outcome B) :
  i64_min ≤ x ≤ i64_max → i64_checked x ≫= f = f x.
Proof. intros. by rewrite i64_checked_Ok. Qed.

Lemma i32_checked_bind {B} x (f : Z → outcome B) :
  - 2 ^ 31 ≤ x < 2 ^ 31 → i32_checked x ≫= f = f x.
Proof. intros. by rewrite i32_checked_Ok. Qed.

Lemma i32_checked_overflow x : ¬ (- 2 ^ 31 ≤ x < 2 ^ 31) → i32_checked x = Fault SignedOverflow.
Proof. intros. unfold i32_checked. by rewrite bool_decide_eq_false_2. Qed.

(** ** Arrays

    Reads and writes of a C++ array, vector or buffer by an integer index; an
    index outside the array is a fault. *)
Definition aread {A} (l : list A) (i : Z) : outcome A :=
  if bool_decide (0 ≤ i) then
    match l !! Z.to_nat i with Some x => Ok x | None => Fault OutOfBounds end
  else Fault OutOfBounds.

Definition awrite {A} (l : list A) (i : Z) (x : A) : outcome (list A) :=
  if bool_decide (0 ≤ i < Z.of_nat (length l)) then Ok (<[Z.to_nat i := x]> l)
  else Fault OutOfBounds.

Lemma aread_Ok {A} (l : list A) i x :
  aread l i = Ok x ↔ 0 ≤ i ∧ l !! Z.to_nat i = Some x.
Proof. unfold aread. case_bool_decide; [destruct (l !! _)|]; naive_solver. Qed.

Lemma aread_nat {A} (l : list A) (n : nat) x :
  l !! n = Some x → aread l (Z.of_nat n) = Ok x.
Proof. intros. apply aread_Ok. rewrite Nat2Z.id. split; [lia | done]. Qed.

Lemma aread_in_bounds {A} (l : list A) i :
  0 ≤ i < Z.of_nat (length l) → ∃ x, aread l i = Ok x.
Proof.
  intros Hi. destruct (lookup_lt_is_Some_2 l (Z.to_nat i)) as [x Hx]; [lia|].
  exists x. apply aread_Ok. split; [lia | done].
Qed.

Lemma awrite_in_bounds {A} (l : list A) i x :
  0 ≤ i < Z.of_nat (length l) → awrite l i x = Ok (<[Z.to_nat i := x]> l).
Proof. intros. unfold awrite. by rewrite bool_decide_eq_true_2. Qed.

Lemma aread_middle {A} (pre : list A) x post i :
  i = Z.of_nat (length pre) → aread (pre ++ x :: post) i = Ok x.
Proof. intros ->. apply aread_nat. by rewrite list_lookup_middle. Qed.

(** The bytes of a string literal. *)
Definition ascii (s : string) : list Z :=
  (λ c, Z.of_N (Ascii.N_of_ascii c)) <$> String.list_ascii_of_string s.

(** ** Longest prefixes *)
Section While.
Context {A : Type} (f : A → bool).

Fixpoint take_while (l : list A) : list A :=
  match l with [] => [] | x :: l => if f x then x :: take_while l else [] end.
Fixpoint drop_while (l : list A) : list A :=
  match l with [] => [] | x :: l' => if f x then drop_while l' else l end.

(** A list that is empty or does not start with an element satisfying [f]. *)
Definition stops_at (l : list A) : Prop :=
  match l with [] => True | x :: _ => f x = false end.

Lemma take_drop_while l : take_while l ++ drop_while l = l.
Proof. induction l as [|x l IH]; simpl; [done|]. destruct (f x); simpl; congruence. Qed.

Lemma take_while_all l : Forall (λ x, f x = true) (take_while l).
Proof. induction l as [|x l IH]; simpl; [done|]. destruct (f x) eqn:?; by constructor. Qed.

Lemma drop_while_stops l : stops_at (drop_while l).
Proof. induction l as [|x l IH]; simpl; [done|]. by destruct (f x) eqn:?. Qed.

Lemma while_app xs l :
  Forall (λ x, f x = true) xs → stops_at l →
  take_while (xs ++ l) = xs ∧ drop_while (xs ++ l) = l.
Proof.
  intros Hxs Hl. induction Hxs as [|x xs Hx Hxs [IH1 IH2]]; simpl.
  - destruct l; simpl in *; [done|]. by rewrite Hl.
  - rewrite Hx. by rewrite IH1, IH2.
Qed.
End While.

(** ** Powers of two and masks

    The constraint [(c & (c - 1)) == 0] of a C++ [requires] clause says exactly
    that [c] is a power of two, and masking with [c - 1] is reduction modulo [c]. *)
Class PowerOfTwo (c : Z) : Prop := {
  pow2_pos : 0 < c;
  pow2_mask : Z.land c (c - 1) = 0
}.

Lemma pow2_log2 c `{!PowerOfTwo c} : c = 2 ^ Z.log2 c.
Proof.
  pose proof pow2_pos as Hc. pose proof pow2_mask as Hm.
  destruct (Z.log2_spec c Hc) as [Hlo Hhi].
  destruct (decide (c = 2 ^ Z.log2 c)) as [|Hne]; [done|exfalso].
  assert (Z.testbit (Z.land c (c - 1)) (Z.log2 c) = true) as Hb; last first.
  { by rewrite Hm, Z.bits_0 in Hb. }
  rewrite Z.land_spec, Z.bit_log2 by done. simpl.
  pose proof (Z.log2_nonneg c).
  assert (Z.log2 (c - 1) = Z.log2 c) as <-; [|apply Z.bit_log2; lia].
  apply Z.log2_unique; lia.
Qed.

Lemma land_mask c `{!PowerOfTwo c} x : Z.land x (c - 1) = x `mod` c.
Proof.
  pose proof (pow2_log2 c) as Hc.
  rewrite Hc at 2. rewrite <-Z.land_ones by apply Z.log2_nonneg.
  f_equal. rewrite Z.ones_equiv. rewrite <-Hc. lia.
Qed.

(** A power of two below [2^w] divides it: masks commute with [w]-bit wrap-around. *)
Lemma pow2_divides c w `{!PowerOfTwo c} : 0 ≤ w → c < 2 ^ w → (c | 2 ^ w).
Proof.
  intros Hw Hlt. pose proof pow2_pos as Hc. pose proof (pow2_log2 c) as Heq.
  pose proof (Z.log2_nonneg c). rewrite (Z.log2_lt_pow2 c w Hc) in Hlt.
  exists (2 ^ (w - Z.log2 c)). rewrite Heq at 2.
  rewrite <-Z.pow_add_r by lia. f_equal. lia.
Qed.

#[export] Instance pow2_pow (k : nat) : PowerOfTwo (2 ^ Z.of_nat k).
Proof.
  split; [by apply Z.pow_pos_nonneg; lia|].
  replace (2 ^ Z.of_nat k - 1) with (Z.ones (Z.of_nat k)) by (rewrite Z.ones_equiv; lia).
  rewrite Z.land_ones by lia. apply Z.mod_same. pose proof (Z.pow_pos_nonneg 2 (Z.of_nat k)). lia.
Qed.

(** ** Ring indices *)
Lemma mod_add_inj c t i j :
  0 < c → 0 ≤ i < c → 0 ≤ j < c → (t + i) `mod` c = (t + j) `mod` c → i = j.
Proof.
  intros Hc Hi Hj Heq.
  assert ((i - j) `mod` c = 0) as Hd.
  { replace (i - j) with ((t + i) - (t + j)) by lia.
    rewrite Zminus_mod, Heq, Z.sub_diag. apply Z.mod_0_l. lia. }
  apply Z.mod_divide in Hd as [q Hq]; [|lia].
  destruct (decide (q = 0)) as [->|]; [lia|].
  assert (q ≤ -1 ∨ 1 ≤ q) as [|] by lia; nia.
Qed.

Lemma mod_succ_idemp c t : (t `mod` c + 1) `mod` c = (t + 1) `mod` c.
Proof. apply Zplus_mod_idemp_l. Qed.

(** ** Reachability for step relations *)
Section Reachable.
Context {S : Type} (init : S → Prop) (step : S → S → Prop).

Inductive reachable : S → Prop :=
  | reachable_init s : init s → reachable s
  | reachable_step s s' : reachable s → step s s' → reachable s'.

(** The rule every invariant of a state machine below is proved with. *)
Lemma reachable_invariant (I : S → Prop) :
  (∀ s, init s → I s) → (∀ s s', I s → step s s' → I s') →
  ∀ s, reachable s → I s.
Proof. intros Hi Hs s Hr. induction Hr; eauto. Qed.
End Reachable.

(** ** Counting loops

    [for (i = first; i < first + n; ++i) body(i)] *)
Fixpoint for_loop {S : Type} (n : nat) (i : Z) (body : Z → S → outcome S) (s : S) : outcome S :=
  match n with
  | O => Ok s
  | S n => s' ← body i s; for_loop n (i + 1) body s'
  end.

(** An invariant that every iteration preserves holds when the loop ends, and it ends. *)
Lemma for_loop_invariant {S : Type} (I : Z → S → Prop) n i body s :
  I i s → (∀ j s, i ≤ j < i + Z.of_nat n → I j s → ∃ s', body j s = Ok s' ∧ I (j + 1) s') →
  ∃ s', for_loop n i body s = Ok s' ∧ I (i + Z.of_nat n) s'.
Proof.
  revert i s. induction n as [|n IH]; intros i s HI Hbody.
  { exists s. by rewrite Z.add_0_r. }
  destruct (Hbody i s ltac:(lia) HI) as (s1 & H1 & HI1). cbn [for_loop]. rewrite H1, bind_ret_l.
  destruct (IH (i + 1) s1 HI1) as (s2 & H2 & HI2); [intros j t Hj; apply Hbody; lia|].
  exists s2. split; [done|]. by replace (i + Z.of_nat (Datatypes.S n)) with (i + 1 + Z.of_nat n) by lia.
Qed.

Lemma for_loop_app {S : Type} n m i (body : Z → S → outcome S) s :
  for_loop (n + m) i body s = s' ← for_loop n i body s; for_loop m (i + Z.of_nat n) body s'.
Proof.
  revert i s. induction n as [|n IH]; intros i s.
  { cbn [for_loop Nat.add]. by rewrite bind_ret_l, Z.add_0_r. }
  cbn [for_loop Nat.add]. destruct (body i s) as [s1|]; [|done]. rewrite !bind_ret_l, IH.
  by replace (i + 1 + Z.of_nat n) with (i + Z.of_nat (Datatypes.S n)) by lia.
Qed.

(** A loop whose body faults after [n] iterations faults. *)
Lemma for_loop_faults {S : Type} (I : Z → S → Prop) n m i (body : Z → S → outcome S) s e :
  I i s → (n < m)%nat →
  (∀ j s, i ≤ j < i + Z.of_nat n → I j s → ∃ s', body j s = Ok s' ∧ I (j + 1) s') →
  (∀ s, I (i + Z.of_nat n) s → body (i + Z.of_nat n) s = Fault e) →
  for_loop m i body s = Fault e.
Proof.
  intros HI Hnm Hbody Hf. replace m with (n + Datatypes.S (m - n - 1))%nat by lia. rewrite for_loop_app.
  destruct (for_loop_invariant I n i body s HI Hbody) as (s' & -> & HI'). rewrite bind_ret_l.
  cbn [for_loop]. by rewrite (Hf s' HI').
Qed.

(** ** Automation

    [hft] collects the rewriting facts that evaluate the array and integer
    primitives; [solve_bounds] discharges range side conditions. *)
Create HintDb hft discriminated.
Create Rewrite HintDb hft.
#[export] Hint Resolve wrap_bounds : hft.
#[export] Hint Rewrite @bind_ret_l : hft.

Ltac solve_bounds :=
  unfold i64_min, i64_max in *; simpl in *; repeat split; try lia; auto with hft.

(** Case analysis on every Boolean integer comparison of the goal. *)
Ltac case_Z :=
  repeat match goal with
  | |- context [ (?a =? ?b)%Z ] => destruct (Z.eqb_spec a b)
  | |- context [ (?a <? ?b)%Z ] => destruct (Z.ltb_spec a b)
  | |- context [ (?a <=? ?b)%Z ] => destruct (Z.leb_spec a b)
  end.
