(* ===== verification/Binary64.v ===== *)
(** * Double-precision arithmetic

    The conversions and the division of [double] that the sources use, in the IEEE 754
    arithmetic of the Standard Library's [SpecFloat] (53 bits of precision, exponents up
    to 1024, rounding to nearest even), and how far they are from the exact results. *)
From Stdlib Require Import SpecFloat.
From S2P Require Import Prelude.

Module B64.

Definition double : Set := spec_float.

(** [static_cast<double>] of a [uint64_t]. *)
Definition of_u64 (x : Z) : double := binary_normalize 53 1024 x 0 false.

Definition div : double → double → double := SFdiv 53 1024.

Definition add : double → double → double := SFadd 53 1024.
Definition sub : double → double → double := SFsub 53 1024.
Definition mul : double → double → double := SFmul 53 1024.
Definition sqrt : double → double := SFsqrt 53 1024.

(** [x > 0.0] *)
Definition gt_zero (x : double) : bool := SFltb (S754_zero false) x.

(** [static_cast<uint64_t>] of a [double]: towards zero, undefined out of range. *)
Definition to_u64 (x : double) : outcome Z :=
  match x with
  | S754_zero _ => Ok 0
  | S754_finite s m e =>
      let t := Z.shiftl (Zpos m) e in
      if s then (if t =? 0 then Ok 0 else Fault BadConversion)
      else if t <? 2 ^ 64 then Ok t else Fault BadConversion
  | S754_infinity _ | S754_nan => Fault BadConversion
  end.

(** ** Binary digits *)
Lemma digits2_bounds p : 2 ^ (Zpos (digits2_pos p) - 1) ≤ Zpos p < 2 ^ Zpos (digits2_pos p).
Proof.
  induction p as [p IH|p IH|]; simpl digits2_pos; [| |done].
  all: rewrite Pos2Z.inj_succ; set (d := Zpos (digits2_pos p)) in *;
    replace (Z.succ d - 1) with (Z.succ (d - 1)) by lia;
    rewrite !Z.pow_succ_r by lia; lia.
Qed.

Lemma digits2_unique p d : 2 ^ (d - 1) ≤ Zpos p < 2 ^ d → Zpos (digits2_pos p) = d.
Proof.
  intros [Hlo Hhi]. pose proof (digits2_bounds p) as [Hlo' Hhi'].
  destruct (Z.lt_trichotomy (Zpos (digits2_pos p)) d) as [Hlt|[Heq|Hgt]]; [exfalso|done|exfalso].
  - assert (2 ^ Zpos (digits2_pos p) ≤ 2 ^ (d - 1)) by (apply Z.pow_le_mono_r; lia). lia.
  - destruct (Z.le_gt_cases 0 d) as [Hd|Hd].
    + assert (2 ^ d ≤ 2 ^ (Zpos (digits2_pos p) - 1)) by (apply Z.pow_le_mono_r; lia). lia.
    + rewrite (Z.pow_neg_r 2 d) in Hhi by lia. lia.
Qed.

(** ** Shifting right *)
Lemma shr_1_half r : 0 ≤ shr_m r → shr_m (shr_1 r) = shr_m r / 2.
Proof.
  destruct r as [m r s]. simpl. intros Hm. destruct m as [|[p|p|]|]; simpl; try done.
  all: Z.to_euclidean_division_equations; lia.
Qed.

Lemma iter_shr_1 p r :
  0 ≤ shr_m r → shr_m (SpecFloat.iter_pos shr_1 p r) = shr_m r / 2 ^ Zpos p ∧ 0 ≤ shr_m r / 2 ^ Zpos p.
Proof.
  revert r. induction p as [p IH|p IH|]; intros r Hr; cbn [SpecFloat.iter_pos].
  - assert (0 ≤ shr_m (shr_1 r)) as H1 by (rewrite shr_1_half by done; apply Z.div_pos; lia).
    destruct (IH (shr_1 r) H1) as [E1 P1].
    destruct (IH (SpecFloat.iter_pos shr_1 p (shr_1 r))) as [E2 P2]; [by rewrite E1|].
    rewrite E2, E1, shr_1_half, !Z.div_div by lia.
    replace (Zpos p~1) with (1 + Zpos p + Zpos p) by lia.
    rewrite !Z.pow_add_r, Z.pow_1_r by lia. split; [f_equal; lia|]. apply Z.div_pos; lia.
  - destruct (IH r Hr) as [E1 P1].
    destruct (IH (SpecFloat.iter_pos shr_1 p r)) as [E2 P2]; [by rewrite E1|].
    rewrite E2, E1, Z.div_div by lia.
    replace (Zpos p~0) with (Zpos p + Zpos p) by lia. rewrite Z.pow_add_r by lia.
    split; [done|]. apply Z.div_pos; lia.
  - split; [by apply shr_1_half|]. apply Z.div_pos; done.
Qed.

Lemma shr_spec r e n :
  0 ≤ shr_m r → 0 ≤ n →
  ∃ r', shr r e n = (r', e + n) ∧ shr_m r' = shr_m r / 2 ^ n.
Proof.
  intros Hr Hn. destruct n as [|n|n]; [| |lia].
  - exists r. by rewrite Z.add_0_r, Z.pow_0_r, Z.div_1_r.
  - exists (SpecFloat.iter_pos shr_1 n r). split; [done|]. by apply iter_shr_1.
Qed.

Lemma shr_nonpos r e n : n ≤ 0 → shr r e n = (r, e).
Proof. destruct n; [done|lia|done]. Qed.

Lemma record_of_loc m l : shr_m (shr_record_of_loc m l) = m.
Proof. by destruct l as [|[]]. Qed.

Lemma round_adjacent m l : round_nearest_even m l = m ∨ round_nearest_even m l = m + 1.
Proof. destruct l as [|[]]; simpl; try destruct (Z.even m); auto. Qed.

(** ** Rounding *)
Lemma fexp_normal x : -1021 ≤ x → fexp 53 1024 x = x - 53.
Proof. intros. unfold fexp, emin. lia. Qed.

(** What is discarded is less than one unit of the last place kept. *)
Lemma keep_top m k d :
  2 ^ (d - 1) ≤ m < 2 ^ d → 0 ≤ k ≤ d - 1 →
  2 ^ (d - 1 - k) ≤ m / 2 ^ k < 2 ^ (d - k) ∧
  m / 2 ^ k * 2 ^ k ≤ m < m / 2 ^ k * 2 ^ k + 2 ^ k.
Proof.
  intros Hm Hk. assert (0 < 2 ^ k) by lia.
  assert (2 ^ (d - 1) = 2 ^ (d - 1 - k) * 2 ^ k) as E1 by (rewrite <-Z.pow_add_r by lia; f_equal; lia).
  assert (2 ^ d = 2 ^ (d - k) * 2 ^ k) as E2 by (rewrite <-Z.pow_add_r by lia; f_equal; lia).
  pose proof (Z.div_mod m (2 ^ k) ltac:(lia)). pose proof (Z.mod_pos_bound m (2 ^ k) ltac:(lia)).
  split; [|lia]. split; [apply Z.div_le_lower_bound; lia|apply Z.div_lt_upper_bound; lia].
Qed.

(** The second normalisation only repairs a carry out of the mantissa. *)
Lemma carry_spec r e :
  2 ^ 52 ≤ r ≤ 2 ^ 53 → -900 ≤ e ≤ 900 →
  ∃ p k, shr_fexp 53 1024 r e loc_Exact = (Build_shr_record (Zpos p) false false, e + k) ∧
    0 ≤ k ≤ 1 ∧ 2 ^ 52 ≤ Zpos p < 2 ^ 53 ∧ Zpos p * 2 ^ k = r.
Proof.
  intros Hr He. unfold shr_fexp. destruct r as [|r|r]; [lia| |lia]. cbn [Zdigits2 shr_record_of_loc].
  destruct (decide (Zpos r = 2 ^ 53)) as [Heq|Hne].
  - exists (2 ^ 52)%positive, 1. injection Heq as ->. cbn [digits2_pos].
    rewrite fexp_normal by lia. replace (_ - 53 - e) with 1 by (simpl; lia). done.
  - exists r, 0. rewrite (digits2_unique r 53) by (simpl in *; lia).
    rewrite fexp_normal, shr_nonpos by lia. split_and!; try lia. f_equal. lia.
Qed.

Lemma normalise_spec mx ex l :
  53 ≤ Zpos (digits2_pos mx) → -1021 ≤ Zpos (digits2_pos mx) + ex →
  ∃ r, shr_fexp 53 1024 (Zpos mx) ex l = (r, ex + (Zpos (digits2_pos mx) - 53)) ∧
    shr_m r = Zpos mx / 2 ^ (Zpos (digits2_pos mx) - 53).
Proof.
  intros Hd He. unfold shr_fexp. cbn [Zdigits2]. rewrite fexp_normal by lia.
  replace (_ - ex) with (Zpos (digits2_pos mx) - 53) by lia.
  destruct (shr_spec (shr_record_of_loc (Zpos mx) l) ex (Zpos (digits2_pos mx) - 53))
    as (r & -> & Hr); [by rewrite record_of_loc|lia|].
  exists r. by rewrite Hr, record_of_loc.
Qed.

(** A positive number rounded to 53 bits: the mantissa is normal, and both the number
    and the result lie between two neighbours [F * 2^ex] and [(F + U) * 2^ex]. *)
Lemma round_spec mx ex l :
  53 ≤ Zpos (digits2_pos mx) → -800 ≤ Zpos (digits2_pos mx) + ex ≤ 800 →
  ∃ m e F U, binary_round_aux 53 1024 false (Zpos mx) ex l = S754_finite false m e ∧
    2 ^ 52 ≤ Zpos m < 2 ^ 53 ∧ 0 ≤ e - ex ≤ Zpos (digits2_pos mx) - 52 ∧
    0 < U ∧ 2 ^ 52 * U ≤ F ∧
    F ≤ Zpos m * 2 ^ (e - ex) ≤ F + U ∧ F ≤ Zpos mx < F + U.
Proof.
  intros Hd He. pose proof (digits2_bounds mx) as Hm.
  unfold binary_round_aux. destruct (normalise_spec mx ex l Hd ltac:(lia)) as (r & -> & ->).
  set (d := Zpos (digits2_pos mx)) in *.
  destruct (keep_top (Zpos mx) (d - 53) d Hm ltac:(lia)) as [Htop Hkeep].
  replace (d - 1 - (d - 53)) with 52 in Htop by lia. replace (d - (d - 53)) with 53 in Htop by lia.
  set (F := Zpos mx / 2 ^ (d - 53)) in *. set (U := 2 ^ (d - 53)) in *.
  assert (0 < U) as HU by (unfold U; lia).
  destruct (round_adjacent F (loc_of_shr_record r)) as [Hadj|Hadj]; rewrite Hadj;
    [destruct (carry_spec F (ex + (d - 53))) as (p & k & -> & Hk & Hp & Heq); [lia..|]
    |destruct (carry_spec (F + 1) (ex + (d - 53))) as (p & k & -> & Hk & Hp & Heq); [lia..|]].
  all: cbn [shr_m]; assert (ex + (d - 53) + k ≤ 1024 - 53) as ->%Z.leb_le by lia.
  all: exists p, (ex + (d - 53) + k), (F * U), U; split; [done|].
  all: assert (2 ^ (ex + (d - 53) + k - ex) = 2 ^ k * U) as ->
    by (unfold U; rewrite <-Z.pow_add_r by lia; f_equal; lia).
  all: rewrite Z.mul_assoc, Heq; split_and!; nia.
Qed.

(** ** Accuracy

    Values are counted in units of 2^-1100, so that every number here is an integer. *)
Definition units (m : positive) (e : Z) : Z := Zpos m * 2 ^ (e + 1100).
Abbreviation one := (2 ^ 1100).

(** Within one part in 2^52. *)
Definition near (a b : Z) : Prop := Z.abs (a - b) * 2 ^ 52 ≤ b.

Lemma near_scale a b c : 0 ≤ c → near a b → near (a * c) (b * c).
Proof. unfold near. intros Hc Hn. rewrite <-Z.mul_sub_distr_r, Z.abs_mul, (Z.abs_eq c) by done. nia. Qed.

Lemma between_near F U a b : 2 ^ 52 * U ≤ F → F ≤ a ≤ F + U → F ≤ b ≤ F + U → near a b.
Proof. unfold near. intros. nia. Qed.

Definition normal (f : double) (m : positive) (e : Z) (range : Z) : Prop :=
  f = S754_finite false m e ∧ 2 ^ 52 ≤ Zpos m < 2 ^ 53 ∧ - range ≤ e ≤ range.

Lemma iter_xO p k : Zpos (Pos.iter xO p k) = Zpos p * 2 ^ Zpos k.
Proof.
  induction k as [|k IH] using Pos.peano_ind; [simpl; lia|].
  rewrite Pos.iter_succ, Pos2Z.inj_xO, IH, Pos2Z.inj_succ, Z.pow_succ_r by lia. lia.
Qed.

Lemma align_spec p :
  Zpos (digits2_pos p) ≤ 64 →
  ∃ q ex, shl_align p 0 (fexp 53 1024 (Zpos (digits2_pos p) + 0)) = (q, ex) ∧
    53 ≤ Zpos (digits2_pos q) ∧ 1 ≤ Zpos (digits2_pos q) + ex ≤ 64 ∧ -52 ≤ ex ≤ 0 ∧
    Zpos q = Zpos p * 2 ^ (- ex).
Proof.
  intros Hd. pose proof (digits2_bounds p) as Hp. set (d := Zpos (digits2_pos p)) in *.
  rewrite fexp_normal by lia. unfold shl_align.
  destruct (d + 0 - 53 - 0) as [|k|k] eqn:Hk.
  - exists p, 0. fold d. split_and!; done || lia.
  - exists p, 0. fold d. split_and!; done || lia.
  - exists (Pos.iter xO p k), (d + 0 - 53). split; [done|].
    assert (Zpos k = 53 - d) as Hkd by lia.
    assert (Zpos (digits2_pos (Pos.iter xO p k)) = 53) as ->.
    { apply digits2_unique. rewrite iter_xO, Hkd. split.
      - replace (53 - 1) with (d - 1 + (53 - d)) by lia. rewrite Z.pow_add_r by lia. nia.
      - replace 53 with (d + (53 - d)) at 2 by lia. rewrite Z.pow_add_r by lia. nia. }
    split_and!; try lia. rewrite iter_xO. do 2 f_equal. lia.
Qed.

Lemma of_u64_spec x :
  0 < x < 2 ^ 64 → ∃ m e, normal (of_u64 x) m e 60 ∧ near (units m e) (x * one).
Proof.
  intros Hx. destruct x as [|p|p]; [lia| |lia]. unfold of_u64, binary_normalize, binary_round.
  assert (Zpos (digits2_pos p) ≤ 64) as Hd.
  { pose proof (digits2_bounds p) as [Hlo _].
    assert (2 ^ (Zpos (digits2_pos p) - 1) < 2 ^ 64) by lia.
    apply Z.pow_lt_mono_r_iff in H; lia. }
  destruct (align_spec p Hd) as (q & ex & -> & Hq & Hr & Hex & Heq).
  destruct (round_spec q ex loc_Exact Hq ltac:(lia))
    as (m & e & F & U & -> & Hm & He & HU & HF & HM & HX).
  exists m, e. split; [split_and!; done || lia|].
  apply (λ H, between_near F U _ (Zpos q) HF H ltac:(lia)) in HM.
  apply (near_scale _ _ (2 ^ (ex + 1100))) in HM; [|lia].
  rewrite <-Z.mul_assoc, <-Z.pow_add_r in HM by lia.
  replace (e - ex + (ex + 1100)) with (e + 1100) in HM by lia.
  rewrite Heq, <-Z.mul_assoc, <-Z.pow_add_r in HM by lia.
  by replace (- ex + (ex + 1100)) with 1100 in HM by lia.
Qed.

(** The quotient of two normal numbers: [r * y] is as close to [x] as one rounding. *)
Lemma quotient_digits m1 m2 q :
  2 ^ 52 ≤ Zpos m1 < 2 ^ 53 → 2 ^ 52 ≤ Zpos m2 < 2 ^ 53 → q = Zpos m1 * 2 ^ 53 / Zpos m2 →
  2 ^ 52 ≤ q < 2 ^ 54.
Proof.
  intros H1 H2 ->. split; [apply Z.div_le_lower_bound; nia|apply Z.div_lt_upper_bound; nia].
Qed.

Lemma div_core m1 e1 m2 e2 :
  2 ^ 52 ≤ Zpos m1 < 2 ^ 53 → 2 ^ 52 ≤ Zpos m2 < 2 ^ 53 → -900 ≤ e1 - e2 ≤ 900 →
  ∃ q l, SFdiv_core_binary 53 1024 (Zpos m1) e1 (Zpos m2) e2 = (Zpos q, e1 - e2 - 53, l) ∧
    Zpos q = Zpos m1 * 2 ^ 53 / Zpos m2.
Proof.
  intros H1 H2 He. unfold SFdiv_core_binary. cbn [Zdigits2].
  rewrite (digits2_unique m1 53), (digits2_unique m2 53) by (simpl; lia).
  rewrite fexp_normal by lia. replace (Z.min _ _) with (e1 - e2 - 53) by lia.
  replace (e1 - e2 - (e1 - e2 - 53)) with 53 by lia. cbv iota. rewrite Z.shiftl_mul_pow2 by lia.
  pose proof (quotient_digits m1 m2 _ H1 H2 eq_refl) as Hq.
  unfold Z.div in *. destruct (Z.div_eucl _ _) as [q r]. destruct q as [|q|q]; [lia| |lia].
  by exists q, (new_location (Zpos m2) r).
Qed.

Lemma div_spec x m1 e1 y m2 e2 n :
  normal x m1 e1 n → normal y m2 e2 n → n ≤ 200 →
  ∃ m e, normal (div x y) m e (2 * n + 60) ∧ near (units m e * units m2 e2) (units m1 e1 * one).
Proof.
  intros (-> & H1 & R1) (-> & H2 & R2) Hn. unfold div, SFdiv. cbn [xorb].
  destruct (div_core m1 e1 m2 e2 H1 H2 ltac:(lia)) as (q & l & -> & Hq).
  pose proof (quotient_digits _ _ _ H1 H2 Hq) as Hb. pose proof (digits2_bounds q) as Hd.
  assert (53 ≤ Zpos (digits2_pos q) ≤ 54) as Hdig.
  { split.
    - apply Z.lt_pred_le, (Z.pow_lt_mono_r_iff 2); lia.
    - apply Z.lt_succ_r, Z.lt_pred_lt_succ, (Z.pow_lt_mono_r_iff 2); lia. }
  destruct (round_spec q (e1 - e2 - 53) l) as (m & e & F & U & -> & Hm & He & HU & HF & HM & HX);
    [lia|lia|].
  exists m, e. split; [split_and!; done || lia|].
  assert (near (Zpos m * 2 ^ (e - (e1 - e2 - 53)) * Zpos m2) (Zpos m1 * 2 ^ 53)) as Hnear.
  { apply (between_near (F * Zpos m2) (U * Zpos m2)); [nia|nia|].
    pose proof (Z.div_mod (Zpos m1 * 2 ^ 53) (Zpos m2) ltac:(lia)) as Hdiv.
    pose proof (Z.mod_pos_bound (Zpos m1 * 2 ^ 53) (Zpos m2) ltac:(lia)). rewrite <-Hq in Hdiv. nia. }
  apply (near_scale _ _ (2 ^ (e1 - 53 + 2200))) in Hnear; [|lia].
  unfold units. replace (Zpos m1 * 2 ^ (e1 + 1100) * one) with (Zpos m1 * 2 ^ 53 * 2 ^ (e1 - 53 + 2200)).
  2:{ rewrite <-!Z.mul_assoc, <-!Z.pow_add_r by lia. do 2 f_equal. lia. }
  replace (Zpos m * 2 ^ (e + 1100) * (Zpos m2 * 2 ^ (e2 + 1100)))
    with (Zpos m * 2 ^ (e - (e1 - e2 - 53)) * Zpos m2 * 2 ^ (e1 - 53 + 2200)); [done|].
  rewrite <-(Z.mul_assoc _ (Zpos m2)), (Z.mul_comm (Zpos m2)).
  replace (e1 - 53 + 2200) with (e1 - e2 - 53 + 1100 + (e2 + 1100)) by lia.
  rewrite (Z.pow_add_r 2 (e1 - e2 - 53 + 1100)) by lia.
  replace (e + 1100) with (e - (e1 - e2 - 53) + (e1 - e2 - 53 + 1100)) by lia.
  rewrite (Z.pow_add_r 2 (e - (e1 - e2 - 53))) by lia. lia.
Qed.
End B64.
