(* ===== verification/TscClock.v ===== *)
(** * [TscClock]: 1_orderbook/include/tsc_clock.hpp and 1_orderbook/src/tsc_clock.cpp

    The time-stamp counter as a clock: [calibrate] measures ticks per nanosecond once, in
    double precision, [tsc_to_ns] divides by it.  The counter and the system clock are
    environment functions of the number of readings. *)
From S2P Require Import Prelude Binary64.

Module Clock.
Import B64.

Record timespec : Set := mkTimespec {
  tv_sec : Z;     (* time_t *)
  tv_nsec : Z     (* long *)
}.

(** The static member [ticks_per_ns_], and how often each clock was read. *)
Record clock : Type := mkClock {
  ticks_per_ns_ : double;
  tsc_reads : nat;
  clock_reads : nat
}.

(** [{1.0}] *)
Definition initial_ticks : double := of_u64 1.

Definition tsc_to_ns (ticks_per_ns : double) (tsc_delta : Z) : outcome Z :=
  if gt_zero ticks_per_ns then to_u64 (div (of_u64 tsc_delta) ticks_per_ns) else Ok 0.

Section Calibrate.
Context (rdtsc : nat → Z) (clock_gettime : nat → timespec).

Definition now (c : clock) : Z * clock :=
  (rdtsc (tsc_reads c), mkClock (ticks_per_ns_ c) (S (tsc_reads c)) (clock_reads c)).

Definition read_clock (c : clock) : timespec * clock :=
  (clock_gettime (clock_reads c), mkClock (ticks_per_ns_ c) (tsc_reads c) (S (clock_reads c))).

(** [ns_delta]: signed arithmetic on [time_t] and [long], converted to [uint64_t]. *)
Definition elapsed_ns (ts_start ts_end : timespec) : outcome Z :=
  secs ← i64_checked (tv_sec ts_end - tv_sec ts_start);
  secs_ns ← i64_checked (secs * 1000000000);
  nsecs ← i64_checked (tv_nsec ts_end - tv_nsec ts_start);
  total ← i64_checked (secs_ns + nsecs);
  Ok (u64 total).

(** The busy loop between the readings has no effect. *)
Definition calibrate (c : clock) : outcome clock :=
  let '(tsc_start, c) := now c in
  let '(ts_start, c) := read_clock c in
  let '(tsc_end, c) := now c in
  let '(ts_end, c) := read_clock c in
  let tsc_delta := u64 (tsc_end - tsc_start) in
  ns_delta ← elapsed_ns ts_start ts_end;
  if 0 <? ns_delta
  then Ok (mkClock (div (of_u64 tsc_delta) (of_u64 ns_delta)) (tsc_reads c) (clock_reads c))
  else Ok c.
End Calibrate.

(** *** The environment

    The time a [timespec] stands for, and a [timespec] as [clock_gettime] writes it (within
    136 years of the start of its clock). *)
Definition nanoseconds (ts : timespec) : Z := tv_sec ts * 1000000000 + tv_nsec ts.
Definition valid_timespec (ts : timespec) : Prop :=
  0 ≤ tv_sec ts < 2 ^ 32 ∧ 0 ≤ tv_nsec ts < 1000000000.

(** The time-stamp counter as it is documented: it counts up from reset and does not wrap in
    the lifetime of a machine. *)
Class Counter (rdtsc : nat → Z) : Prop := {
  counter_range k : 0 ≤ rdtsc k < 2 ^ 63;
  counter_monotone j k : (j ≤ k)%nat → rdtsc j ≤ rdtsc k
}.

(** The environment of a benchmark: the counter, [CLOCK_MONOTONIC], which is never set back, a
    run of less than 2^48 ticks (a day at 3 GHz), and a counter that ticks at least once in
    2^15 nanoseconds between the first two readings of both, those of [calibrate]: a
    counter of 1 GHz does, unless the thread is away for most of the time. *)
Class HostClocks (rdtsc : nat → Z) (clock_gettime : nat → timespec) : Prop := {
  #[global] host_counter :: Counter rdtsc;
  host_run k : rdtsc k - rdtsc 0%nat < 2 ^ 48;
  host_timespec k : valid_timespec (clock_gettime k);
  host_forward j k : (j ≤ k)%nat → nanoseconds (clock_gettime j) ≤ nanoseconds (clock_gettime k);
  host_rate : nanoseconds (clock_gettime 1%nat) - nanoseconds (clock_gettime 0%nat) ≤
                2 ^ 15 * (rdtsc 1%nat - rdtsc 0%nat)
}.

(** Differences of the counter below [bound] have a defined conversion. *)
Definition converts_below (bound : Z) (ticks : double) : Prop :=
  ∀ d, 0 ≤ d < bound → ∃ ns, tsc_to_ns ticks d = Ok ns ∧ 0 ≤ ns < 2 ^ 64.

(** ** Five roundings

    The measured ticks [x] and nanoseconds [y] and the difference [z] are rounded to [X],
    [Y] and [Z'], and so are the quotients [R] of [X] by [Y] and [W] of [Z'] by [R]. *)
Section Chain.
Context (P S x y z X Y Z' R W : Z).
Context (HP : 1 < P) (HS : 0 < S) (Hx : 0 < x) (Hy : 0 < y) (Hz : 0 < z).
Context (HX : 0 < X) (HY : 0 < Y) (HZ : 0 < Z') (HR : 0 < R) (HW : 0 < W).

Lemma mul_le a b c : 0 ≤ c → a ≤ b → c * a ≤ c * b.
Proof. intros. by apply Z.mul_le_mono_nonneg_l. Qed.

Lemma chain_upper :
  x * (P - 1) ≤ X * P → Y * P ≤ y * (P + 1) → Z' * P ≤ z * (P + 1) →
  X * S * (P - 1) ≤ R * Y * P → W * R * P ≤ Z' * S * (P + 1) →
  W * x * ((P - 1) * (P - 1) * P) ≤ z * y * ((P + 1) * (P + 1) * (P + 1)).
Proof using HP HS Hx Hy Hz HX HY HZ HR HW.
  intros H1 H2 H3 H4 H5. apply (Z.mul_le_mono_pos_l _ _ S HS).
  apply (mul_le _ _ (S * W * (P - 1) * P)) in H1; [|nia].
  apply (mul_le _ _ (W * P * P)) in H4; [|nia].
  apply (mul_le _ _ (P * P * Y)) in H5; [|nia].
  apply (mul_le _ _ (S * (P + 1) * (Z' * P))) in H2; [|nia].
  apply (mul_le _ _ (S * (P + 1) * (y * (P + 1)))) in H3; [|nia]. lia.
Qed.

Lemma chain_lower :
  X * P ≤ x * (P + 1) → y * (P - 1) ≤ Y * P → z * (P - 1) ≤ Z' * P →
  R * Y * P ≤ X * S * (P + 1) → Z' * S * (P - 1) ≤ W * R * P →
  z * y * ((P - 1) * (P - 1) * (P - 1)) ≤ W * x * ((P + 1) * (P + 1) * P).
Proof using HP HS Hx Hy Hz HX HY HZ HR HW.
  intros H1 H2 H3 H4 H5. apply (Z.mul_le_mono_pos_l _ _ S HS).
  apply (mul_le _ _ (S * W * (P + 1) * P)) in H1; [|nia].
  apply (mul_le _ _ (W * P * P)) in H4; [|nia].
  apply (mul_le _ _ (P * P * Y)) in H5; [|nia].
  apply (mul_le _ _ (S * (P - 1) * (Z' * P))) in H2; [|nia].
  apply (mul_le _ _ (S * (P - 1) * (y * (P - 1)))) in H3; [|nia]. lia.
Qed.
End Chain.

Lemma ratio_weaken a b c1 c2 e1 e2 :
  0 < c1 → 0 ≤ b → 0 ≤ e1 → a * c1 ≤ b * c2 → c2 * e1 ≤ c1 * e2 → a * e1 ≤ b * e2.
Proof. intros Hc Hb He Hab Hce. apply (Z.mul_le_mono_pos_r _ _ c1 Hc). nia. Qed.

Lemma ratio_weaken_below a b c1 c2 e1 e2 :
  0 < c1 → 0 ≤ b → 0 ≤ e1 → b * c2 ≤ a * c1 → c1 * e2 ≤ c2 * e1 → b * e2 ≤ a * e1.
Proof. intros Hc Hb He Hab Hce. apply (Z.mul_le_mono_pos_r _ _ c1 Hc). nia. Qed.

Lemma near_bounds a b : near a b → b * (2 ^ 52 - 1) ≤ a * 2 ^ 52 ≤ b * (2 ^ 52 + 1).
Proof. unfold near. lia. Qed.

Lemma units_pos m e : -1100 ≤ e → 0 < units m e.
Proof. unfold units. intros. lia. Qed.

(** The quotient before its conversion, to one part in 2^49. *)
Lemma ratio_accurate t n d ticks :
  0 < t < 2 ^ 64 → 0 < n < 2 ^ 64 → 0 < d < 2 ^ 64 → ticks = div (of_u64 t) (of_u64 n) →
  ∃ m e, gt_zero ticks = true ∧ normal (div (of_u64 d) ticks) m e 420 ∧
    let w := units m e in
    w * t * 2 ^ 49 ≤ d * n * one * (2 ^ 49 + 1) ∧ d * n * one * (2 ^ 49 - 1) ≤ w * t * 2 ^ 49.
Proof.
  intros Ht Hn Hd ->.
  destruct (of_u64_spec t Ht) as (mt & et & Nt & At). destruct (of_u64_spec n Hn) as (mn & en & Nn & An).
  destruct (of_u64_spec d Hd) as (md & ed & Nd & Ad).
  destruct (div_spec _ _ _ _ _ _ _ Nt Nn ltac:(lia)) as (mr & er & Nr & Ar).
  assert (normal (of_u64 d) md ed 180) as Nd' by (destruct Nd as (? & ? & ?); split_and!; done || lia).
  destruct (div_spec _ _ _ _ _ _ _ Nd' Nr ltac:(lia)) as (mw & ew & Nw & Aw).
  exists mw, ew. split; [by destruct Nr as (-> & _)|]. split; [exact Nw|].
  pose proof (units_pos mt et ltac:(destruct Nt; lia)) as Pt.
  pose proof (units_pos mn en ltac:(destruct Nn; lia)) as Pn.
  pose proof (units_pos md ed ltac:(destruct Nd; lia)) as Pd.
  pose proof (units_pos mr er ltac:(destruct Nr; lia)) as Pr.
  pose proof (units_pos mw ew ltac:(destruct Nw; lia)) as Pw.
  apply near_bounds in At, An, Ad, Ar, Aw. cbv zeta.
  assert (0 < one) as P1 by (apply Z.pow_pos_nonneg; lia).
  clear -Ht Hn Hd P1 Pt Pn Pd Pr Pw At An Ad Ar Aw.
  set (S := one) in *. clearbody S.
  pose proof (chain_upper (2 ^ 52) S (t * S) (n * S) (d * S) _ _ _ _ _ ltac:(lia) P1
    ltac:(nia) ltac:(nia) ltac:(nia) Pt Pn Pd Pr Pw (proj1 At) (proj2 An) (proj2 Ad) (proj1 Ar)
    (proj2 Aw)) as Hup.
  pose proof (chain_lower (2 ^ 52) S (t * S) (n * S) (d * S) _ _ _ _ _ ltac:(lia) P1
    ltac:(nia) ltac:(nia) ltac:(nia) Pt Pn Pd Pr Pw (proj2 At) (proj1 An) (proj1 Ad) (proj2 Ar)
    (proj1 Aw)) as Hlo.
  set (w := units mw ew) in *. clearbody w. split.
  - apply (ratio_weaken _ _ ((2 ^ 52 - 1) * (2 ^ 52 - 1) * 2 ^ 52)
             ((2 ^ 52 + 1) * (2 ^ 52 + 1) * (2 ^ 52 + 1))); [done|nia|done| |done].
    apply (Z.mul_le_mono_pos_r _ _ S P1). lia.
  - apply (ratio_weaken_below _ _ ((2 ^ 52 + 1) * (2 ^ 52 + 1) * 2 ^ 52)
             ((2 ^ 52 - 1) * (2 ^ 52 - 1) * (2 ^ 52 - 1))); [done|nia|done| |done].
    apply (Z.mul_le_mono_pos_r _ _ S P1). lia.
Qed.

(** ** The conversion *)
Lemma shiftl_units m e : -1100 ≤ e → Z.shiftl (Zpos m) e = units m e / one.
Proof.
  intros He. unfold units. destruct (Z.le_gt_cases 0 e) as [H0|H0].
  - rewrite Z.shiftl_mul_pow2, Z.pow_add_r, Z.mul_assoc by lia. symmetry. by apply Z.div_mul.
  - rewrite Z.shiftl_div_pow2 by lia.
    assert (one = 2 ^ (- e) * 2 ^ (e + 1100)) as -> by (rewrite <-Z.pow_add_r by lia; f_equal; lia).
    symmetry. apply Z.div_mul_cancel_r; apply Z.pow_nonzero; lia.
Qed.

(** The answer is within one nanosecond and one part in 2^49 of [d * n / t]. *)
Definition close_to (ns t n d : Z) : Prop :=
  0 ≤ ns ∧ ns * t * 2 ^ 49 ≤ d * n * (2 ^ 49 + 1) ∧ d * n * (2 ^ 49 - 1) < (ns + 1) * t * 2 ^ 49.

Lemma conversion_accurate t n d :
  0 < t < 2 ^ 64 → 0 < n < 2 ^ 64 → 0 ≤ d < 2 ^ 64 → d * n * (2 ^ 49 + 1) < 2 ^ 64 * t * 2 ^ 49 →
  ∃ ns, tsc_to_ns (div (of_u64 t) (of_u64 n)) d = Ok ns ∧ ns < 2 ^ 64 ∧ close_to ns t n d.
Proof.
  intros Ht Hn Hd Hfit. destruct (decide (d = 0)) as [->|Hd0].
  - destruct (ratio_accurate t n 1 _ Ht Hn ltac:(lia) eq_refl) as (m & e & Hg & _).
    exists 0. unfold tsc_to_ns. rewrite Hg. split; [|unfold close_to; lia].
    by destruct (div (of_u64 t) (of_u64 n)) as [[]|[]| |[] ? ?].
  - destruct (ratio_accurate t n d _ Ht Hn ltac:(lia) eq_refl)
      as (m & e & Hg & (Hw & Hm & He) & Hup & Hlo).
    exists (units m e / one). unfold tsc_to_ns. rewrite Hg, Hw. cbn [to_u64].
    rewrite shiftl_units by lia.
    pose proof (units_pos m e ltac:(lia)) as Hpos. assert (0 < one) as P1 by (apply Z.pow_pos_nonneg; lia).
    set (S := one) in *. set (w := units m e) in *. clearbody S w.
    assert (w / S * S ≤ w < (w / S + 1) * S) as [F1 F2].
    { pose proof (Z.div_mod w S ltac:(lia)). pose proof (Z.mod_pos_bound w S P1). lia. }
    pose proof (Z.div_pos w S ltac:(lia) P1) as H0. set (ns := w / S) in *. clearbody ns.
    assert (ns * t * 2 ^ 49 ≤ d * n * (2 ^ 49 + 1)) as H1.
    { apply (Z.mul_le_mono_pos_r _ _ S P1). apply (mul_le _ _ (t * 2 ^ 49)) in F1; lia. }
    assert (d * n * (2 ^ 49 - 1) < (ns + 1) * t * 2 ^ 49) as H2.
    { apply (Z.mul_lt_mono_pos_r S _ _ P1).
      apply (Z.mul_lt_mono_pos_l (t * 2 ^ 49)) in F2; lia. }
    assert (ns < 2 ^ 64) as H3 by nia. destruct (Z.ltb_spec ns (2 ^ 64)); [|lia].
    split; [done|]. split; [done|]. by split_and!.
Qed.

(** A measured rate of [t] ticks in [n] nanoseconds converts what a run can last. *)
Lemma rate_converts t n k :
  0 ≤ k ≤ 63 → 0 < t < 2 ^ 64 → 0 < n < 2 ^ 64 → n ≤ 2 ^ (63 - k) * t →
  converts_below (2 ^ k) (div (of_u64 t) (of_u64 n)).
Proof.
  intros Hk Ht Hn Hrate d Hd.
  assert (2 ^ k * 2 ^ (63 - k) = 2 ^ 63) as Hpow by (rewrite <-Z.pow_add_r by lia; f_equal; lia).
  assert (d * n ≤ 2 ^ 63 * t) as Hdn.
  { apply (Z.le_trans _ (2 ^ k * (2 ^ (63 - k) * t))); [|by rewrite Z.mul_assoc, Hpow].
    apply Z.mul_le_mono_nonneg; lia. }
  assert (d < 2 ^ 64) as Hd64 by (pose proof (Z.pow_le_mono_r 2 k 63); lia).
  destruct (conversion_accurate t n d Ht Hn) as (ns & -> & Hns & H0 & _); [lia| |by exists ns].
  clear -Ht Hdn. lia.
Qed.

(** Before a calibration, [tsc_to_ns] gives back the ticks. *)
Lemma initial_ticks_accurate d :
  0 ≤ d < 2 ^ 63 → ∃ ns, tsc_to_ns initial_ticks d = Ok ns ∧ ns < 2 ^ 64 ∧ close_to ns 1 1 d.
Proof.
  intros Hd. change initial_ticks with (div (of_u64 1) (of_u64 1)).
  apply conversion_accurate; lia.
Qed.

Lemma initial_ticks_convert : converts_below (2 ^ 63) initial_ticks.
Proof.
  intros d Hd. destruct (initial_ticks_accurate d Hd) as (ns & -> & ? & ? & _). by exists ns.
Qed.

Lemma nanoseconds_bounds ts : valid_timespec ts → 0 ≤ nanoseconds ts < 2 ^ 62.
Proof. intros [? ?]. unfold nanoseconds. lia. Qed.

(** No operation overflows, and the difference is exact. *)
Lemma elapsed_ns_exact ts_start ts_end :
  valid_timespec ts_start → valid_timespec ts_end → nanoseconds ts_start ≤ nanoseconds ts_end →
  elapsed_ns ts_start ts_end = Ok (nanoseconds ts_end - nanoseconds ts_start).
Proof.
  intros H1 H2 Hle. pose proof (nanoseconds_bounds _ H2). pose proof (nanoseconds_bounds _ H1).
  destruct H1 as [? ?], H2 as [? ?]. unfold elapsed_ns, nanoseconds in *.
  repeat rewrite i64_checked_bind by (unfold i64_min, i64_max; lia).
  rewrite wrap_small by lia. f_equal. lia.
Qed.

Section Facts.
Context (rdtsc : nat → Z) (clock_gettime : nat → timespec).

(** What [calibrate] measures from a state of the clocks. *)
Definition measured (c : clock) (t n : Z) : Prop :=
  let ts_start := clock_gettime (clock_reads c) in
  let ts_end := clock_gettime (S (clock_reads c)) in
  t = u64 (rdtsc (S (tsc_reads c)) - rdtsc (tsc_reads c)) ∧
  n = nanoseconds ts_end - nanoseconds ts_start ∧ valid_timespec ts_start ∧ valid_timespec ts_end.

Lemma calibrate_measured c t n :
  measured c t n → 0 < n →
  calibrate rdtsc clock_gettime c =
    Ok (mkClock (div (of_u64 t) (of_u64 n)) (S (S (tsc_reads c))) (S (S (clock_reads c)))).
Proof.
  intros (-> & -> & Hs & He) Hpos. unfold calibrate. cbn -[wrap elapsed_ns].
  rewrite elapsed_ns_exact by (done || lia). rewrite bind_ret_l. case_Z; [done|lia].
Qed.

Lemma measured_bounds c t n : measured c t n → 0 ≤ t < 2 ^ 64 ∧ n < 2 ^ 62.
Proof.
  intros (-> & -> & Hs & He). split; [by apply wrap_bounds|].
  pose proof (nanoseconds_bounds _ Hs). pose proof (nanoseconds_bounds _ He). lia.
Qed.

(** C13: after a calibration that saw [t] ticks in [n] nanoseconds, [tsc_to_ns d] is
    [d * n / t] to within one part in 2^49 and the nanosecond that truncation drops, for
    every difference whose result fits 64 bits: the five roundings of the two divisions
    add up to no more, and the conversion back to an integer is defined. *)
Theorem calibrated_clock_is_accurate c t n d (Hmeas : measured c t n) (Ht : 0 < t) (Hn : 0 < n)
    (Hd : 0 ≤ d < 2 ^ 64) (Hfit : d * n * (2 ^ 49 + 1) < 2 ^ 64 * t * 2 ^ 49) :
  ∃ c' ns, calibrate rdtsc clock_gettime c = Ok c' ∧ tsc_to_ns (ticks_per_ns_ c') d = Ok ns ∧
    close_to ns t n d.
Proof.
  pose proof (measured_bounds c t n Hmeas) as [Ht' Hn'].
  destruct (conversion_accurate t n d ltac:(lia) ltac:(lia) Hd Hfit) as (ns & Hns & _ & Hclose).
  do 2 eexists. split; [by apply calibrate_measured|done].
Qed.

(** Converting the ticks of the calibration run itself gives back its nanoseconds, or
    one less. *)
Lemma calibration_reads_back c t n (Hmeas : measured c t n) (Ht : 0 < t) (Hn : 0 < n < 2 ^ 49) :
  ∃ c' ns, calibrate rdtsc clock_gettime c = Ok c' ∧ tsc_to_ns (ticks_per_ns_ c') t = Ok ns ∧
    (ns = n ∨ ns = n - 1).
Proof.
  pose proof (measured_bounds c t n Hmeas) as [Ht' Hn'].
  destruct (conversion_accurate t n t ltac:(lia) ltac:(lia) Ht' ltac:(nia))
    as (ns & Hns & _ & H0 & Hup & Hlo).
  do 2 eexists. split; [apply calibrate_measured; [done|lia]|]. split; [done|].
  assert (ns * 2 ^ 49 ≤ n * (2 ^ 49 + 1)) by (apply (Z.mul_le_mono_pos_r _ _ t Ht); lia).
  assert (n * (2 ^ 49 - 1) < (ns + 1) * 2 ^ 49) by (apply (Z.mul_lt_mono_pos_r t _ _ Ht); lia).
  lia.
Qed.
End Facts.

(** ** What the environment gives the benchmarks *)
Section Host.
Context {rdtsc : nat → Z}.

(** A later reading less an earlier one, in 64 bits. *)
Lemma counter_elapsed `{!Counter rdtsc} j k :
  (j ≤ k)%nat → u64 (rdtsc k - rdtsc j) = rdtsc k - rdtsc j ∧ 0 ≤ rdtsc k - rdtsc j < 2 ^ 63.
Proof.
  intros Hjk. pose proof (counter_monotone j k Hjk).
  pose proof (counter_range j). pose proof (counter_range k). rewrite wrap_small; lia.
Qed.

Context {clock_gettime : nat → timespec} `{!HostClocks rdtsc clock_gettime}.

Lemma host_elapsed j k : (j ≤ k)%nat → 0 ≤ u64 (rdtsc k - rdtsc j) < 2 ^ 48.
Proof using All.
  intros Hjk. destruct (counter_elapsed j k Hjk) as [-> ?].
  pose proof (host_run k). pose proof (counter_monotone 0 j ltac:(lia)). lia.
Qed.

Lemma host_calibrates :
  ∃ ticks, converts_below (2 ^ 48) ticks ∧
    calibrate rdtsc clock_gettime (mkClock initial_ticks 0 0) = Ok (mkClock ticks 2 2).
Proof using All.
  pose proof (host_forward 0 1 ltac:(lia)) as Hfwd. pose proof host_rate as Hrate.
  pose proof (host_timespec 0) as H0. pose proof (host_timespec 1) as H1.
  destruct (counter_elapsed 0 1 ltac:(lia)) as [Ht Hbound].
  set (n := nanoseconds (clock_gettime 1%nat) - nanoseconds (clock_gettime 0%nat)) in *.
  destruct (Z.eq_dec n 0) as [Hn|Hn].
  - exists initial_ticks. split.
    { intros d Hd. apply initial_ticks_convert. lia. }
    unfold calibrate. cbn -[wrap elapsed_ns]. rewrite elapsed_ns_exact by done. fold n. by rewrite Hn.
  - assert (measured rdtsc clock_gettime (mkClock initial_ticks 0 0) (rdtsc 1%nat - rdtsc 0%nat) n)
      as Hmeas by by rewrite <-Ht.
    pose proof (measured_bounds _ _ _ _ _ Hmeas) as [_ Hn'].
    exists (div (of_u64 (rdtsc 1%nat - rdtsc 0%nat)) (of_u64 n)).
    split; [apply rate_converts; lia|]. apply (calibrate_measured _ _ _ _ _ Hmeas). lia.
Qed.
End Host.

(** Before the calibration, a difference that wrapped around, as when the counters of two
    cores disagree, has no defined conversion. *)
Lemma uncalibrated_clock_overflows : tsc_to_ns initial_ticks (2 ^ 64 - 1) = Fault BadConversion.
Proof. by vm_compute. Qed.

(** ** A counter of three ticks per nanosecond, read every millisecond for a second *)
Definition demo_rdtsc (k : nat) : Z := 3000000 * Z.min (Z.of_nat k) 900.
Definition demo_clock (k : nat) : timespec :=
  mkTimespec 7 (999000 + 1000000 * Z.min (Z.of_nat k) 900).
Definition demo_start : clock := mkClock initial_ticks 0 0.

Lemma demo_measured : measured demo_rdtsc demo_clock demo_start 3000000 1000000.
Proof. repeat split; by vm_compute. Qed.

Lemma demo_counter : Counter demo_rdtsc.
Proof. split; unfold demo_rdtsc; lia. Qed.

Lemma demo_host : HostClocks demo_rdtsc demo_clock.
Proof.
  split; [apply demo_counter|..]; unfold demo_rdtsc, demo_clock, valid_timespec, nanoseconds;
    cbn [tv_sec tv_nsec]; lia.
Qed.

Lemma calibrated_clock_is_accurate_witness :
  ∃ c' ns, calibrate demo_rdtsc demo_clock demo_start = Ok c' ∧
    tsc_to_ns (ticks_per_ns_ c') 4500 = Ok ns ∧ close_to ns 3000000 1000000 4500.
Proof.
  exact (calibrated_clock_is_accurate demo_rdtsc demo_clock demo_start 3000000 1000000 4500
           demo_measured eq_refl eq_refl ltac:(lia) eq_refl).
Defined.

Lemma calibration_reads_back_example :
  ∃ c' ns, calibrate demo_rdtsc demo_clock demo_start = Ok c' ∧
    tsc_to_ns (ticks_per_ns_ c') 3000000 = Ok ns ∧ (ns = 1000000 ∨ ns = 1000000 - 1).
Proof.
  exact (calibration_reads_back demo_rdtsc demo_clock demo_start 3000000 1000000
           demo_measured eq_refl ltac:(lia)).
Defined.
End Clock.
