(* ===== verification/Latency.v ===== *)
(** * The latency records of the benchmarks

    Every benchmark keeps the latency of its operations while the reserve of a vector
    lasts, sorts them and reports percentiles.  These are the parts they share; each
    benchmark's file says which of them it uses where. *)
From Stdlib Require Import Sorted SpecFloat.
From S2P Require Import Prelude Binary64 TscClock.

Module Latency.
Import Clock.

(** [if (latencies.size() < latencies.capacity()) latencies.push_back(ns)]; the capacity
    is the number reserved. *)
Definition keep_latency (capacity : Z) (latencies : list Z) (ns : Z) : list Z :=
  if Z.of_nat (length latencies) <? capacity then latencies ++ [ns] else latencies.

(** The latency between two readings of the counter, kept. *)
Definition record_latency (ticks : B64.double) (capacity tsc_start tsc_end : Z)
    (latencies : list Z) : outcome (list Z) :=
  ns ← tsc_to_ns ticks (u64 (tsc_end - tsc_start));
  Ok (keep_latency capacity latencies ns).

(** Benchmarks keep nanoseconds after a calibration, or plain differences of the counter. *)
Definition stopwatch : Type := option B64.double.

Definition record_elapsed (sw : stopwatch) (capacity tsc_start tsc_end : Z)
    (latencies : list Z) : outcome (list Z) :=
  match sw with
  | Some ticks => record_latency ticks capacity tsc_start tsc_end latencies
  | None => Ok (keep_latency capacity latencies (u64 (tsc_end - tsc_start)))
  end.

(** [std::sort(latencies.begin(), latencies.end())] *)
Definition sort (latencies : list Z) : list Z := merge_sort Z.le latencies.

(** [latencies[latencies.size() * num / den]], of the sorted vector *)
Definition percentile (sorted : list Z) (q : Z * Z) : outcome Z :=
  aread sorted (Z.of_nat (length sorted) * q.1 / q.2).

(** [latencies.back()] *)
Definition back (sorted : list Z) : outcome Z := aread sorted (Z.of_nat (length sorted) - 1).

Fixpoint percentiles (sorted : list Z) (qs : list (Z * Z)) : outcome (list Z) :=
  match qs with
  | [] => Ok []
  | q :: qs => x ← percentile sorted q; xs ← percentiles sorted qs; Ok (x :: xs)
  end.

(** The counters of a benchmark: the percentiles [qs], and the maximum if it reports it. *)
Definition counters (latencies : list Z) (qs : list (Z * Z)) (with_max : bool) : outcome (list Z) :=
  match latencies with
  | [] => Ok []
  | _ =>
      let sorted := sort latencies in
      xs ← percentiles sorted qs;
      if with_max then m ← back sorted; Ok (xs ++ [m]) else Ok xs
  end.

(** [std::accumulate(..., 0.0) / latencies.size()], and the standard deviation. *)
Definition mean (latencies : list Z) : B64.double :=
  B64.div (foldl (λ acc l, B64.add acc (B64.of_u64 l)) (SpecFloat.S754_zero false) latencies)
    (B64.of_u64 (Z.of_nat (length latencies))).

Definition stddev (latencies : list Z) : B64.double :=
  let m := mean latencies in
  let square l := let x := B64.sub (B64.of_u64 l) m in B64.mul x x in
  B64.sqrt (B64.div (foldl (λ acc l, B64.add acc (square l)) (SpecFloat.S754_zero false) latencies)
    (B64.of_u64 (Z.of_nat (length latencies)))).

(** ** Facts *)
Lemma keep_latency_bound capacity ls ns :
  Z.of_nat (length ls) ≤ capacity → Z.of_nat (length (keep_latency capacity ls ns)) ≤ capacity.
Proof. intros Hl. unfold keep_latency. case_Z; [rewrite length_app; simpl; lia|done]. Qed.

(** Keeping the time between two readings, the later one second, is defined. *)
Section Elapsed.
Context (rdtsc : nat → Z) (clock_gettime : nat → timespec) `{!HostClocks rdtsc clock_gettime}.

Lemma record_latency_keeps ticks capacity j k ls :
  converts_below (2 ^ 48) ticks → (j ≤ k)%nat →
  ∃ ns, record_latency ticks capacity (rdtsc j) (rdtsc k) ls = Ok (keep_latency capacity ls ns).
Proof using All.
  intros Hconv Hjk. unfold record_latency.
  destruct (Hconv _ (host_elapsed j k Hjk)) as (ns & -> & _). by exists ns.
Qed.

Lemma record_latency_ok ticks capacity j k ls :
  converts_below (2 ^ 48) ticks → (j ≤ k)%nat → Z.of_nat (length ls) ≤ capacity →
  ∃ ls', record_latency ticks capacity (rdtsc j) (rdtsc k) ls = Ok ls' ∧
    Z.of_nat (length ls') ≤ capacity.
Proof using All.
  intros Hconv Hjk Hl. destruct (record_latency_keeps ticks capacity j k ls Hconv Hjk) as [ns ->].
  eexists. split; [done|]. by apply keep_latency_bound.
Qed.

Definition steady_watch (sw : stopwatch) : Prop :=
  match sw with Some ticks => converts_below (2 ^ 48) ticks | None => True end.

Lemma record_elapsed_ok sw capacity j k ls :
  steady_watch sw → (j ≤ k)%nat → Z.of_nat (length ls) ≤ capacity →
  ∃ ls', record_elapsed sw capacity (rdtsc j) (rdtsc k) ls = Ok ls' ∧
    Z.of_nat (length ls') ≤ capacity.
Proof using All.
  destruct sw as [ticks|]; simpl; intros Hsw Hjk Hl; [by apply record_latency_ok|].
  eexists. split; [done|]. by apply keep_latency_bound.
Qed.
End Elapsed.

Lemma sort_length ls : length (sort ls) = length ls.
Proof. apply Permutation_length, merge_sort_Permutation. Qed.

Definition fraction (q : Z * Z) : Prop := 0 ≤ q.1 < q.2.

Lemma percentile_index n q : fraction q → 0 < n → 0 ≤ n * q.1 / q.2 < n.
Proof. intros [? ?] Hn. split; [apply Z.div_pos; nia|apply Z.div_lt_upper_bound; nia]. Qed.

Lemma percentile_ok ls q : fraction q → ls ≠ [] → ∃ x, percentile (sort ls) q = Ok x.
Proof.
  intros Hq Hls. unfold percentile. rewrite sort_length. apply aread_in_bounds. rewrite sort_length.
  apply percentile_index; [done|]. destruct ls; simpl; [done|lia].
Qed.

Lemma percentiles_ok ls qs :
  Forall fraction qs → ls ≠ [] → ∃ xs, percentiles (sort ls) qs = Ok xs.
Proof.
  intros Hqs Hls. induction Hqs as [|q qs Hq _ [xs IH]]; [by eexists|].
  destruct (percentile_ok ls q Hq Hls) as [x Hx]. exists (x :: xs). simpl. by rewrite Hx, IH.
Qed.

(** No counter is read outside the vector. *)
Lemma counters_ok ls qs m : Forall fraction qs → ∃ xs, counters ls qs m = Ok xs.
Proof.
  intros Hqs. unfold counters. destruct ls as [|l ls]; [by eexists|].
  destruct (percentiles_ok (l :: ls) qs Hqs) as [xs ->]; [done|]. rewrite bind_ret_l.
  destruct m; [|by eexists]. unfold back.
  destruct (aread_in_bounds (sort (l :: ls)) (Z.of_nat (length (sort (l :: ls))) - 1)) as [x ->];
    [rewrite sort_length; simpl; lia|by eexists].
Qed.

(** ** What a percentile is *)
Definition at_most (x : Z) (ls : list Z) : nat := length (List.filter (λ y, y <=? x) ls).
Definition at_least (x : Z) (ls : list Z) : nat := length (List.filter (λ y, x <=? y) ls).

Lemma count_Permutation (f : Z → bool) xs ys :
  xs ≡ₚ ys → length (List.filter f xs) = length (List.filter f ys).
Proof.
  induction 1 as [|x xs ys _ IH|x y xs|xs ys zs _ IH1 _ IH2]; simpl; [done| | |congruence].
  - destruct (f x); simpl; congruence.
  - by destruct (f x), (f y).
Qed.

Lemma filter_all (f : Z → bool) xs : Forall (λ x, f x = true) xs → List.filter f xs = xs.
Proof. induction 1 as [|x xs Hx _ IH]; simpl; [done|]. by rewrite Hx, IH. Qed.

Lemma sorted_before l pre x post :
  sort l = pre ++ x :: post → Forall (λ y, y <= x) pre ∧ Forall (λ y, x <= y) post.
Proof.
  intros Hs. pose proof (StronglySorted_merge_sort Z.le l) as Hsort.
  fold (sort l) in Hsort. rewrite Hs in Hsort. apply StronglySorted_app in Hsort as (Hlt & _ & Hpost).
  apply StronglySorted_inv in Hpost as [_ Hpost]. split; [|done].
  apply Forall_forall. intros y Hy. apply Hlt; [done|set_solver].
Qed.

(** A reported percentile is a latency that was measured, at least the stated share of
    the measurements are no longer than it, and the rest are no shorter. *)
Lemma percentile_is_order_statistic ls q (Hq : fraction q) (Hls : ls ≠ []) :
  let n := Z.of_nat (length ls) in
  ∃ x, percentile (sort ls) q = Ok x ∧ x ∈ ls ∧
    n * q.1 / q.2 < Z.of_nat (at_most x ls) ∧ n - n * q.1 / q.2 ≤ Z.of_nat (at_least x ls).
Proof.
  intros n. assert (0 < n) as Hn by (unfold n; destruct ls; simpl; [done|lia]).
  pose proof (percentile_index n q Hq Hn) as Hi.
  destruct (percentile_ok ls q Hq Hls) as [x Hx]. exists x. split; [done|].
  unfold percentile in Hx. rewrite sort_length in Hx. fold n in Hx.
  apply aread_Ok in Hx as [_ Hx]. pose proof (take_drop_middle _ _ _ Hx) as Hsplit.
  set (k := Z.to_nat (n * q.1 / q.2)) in *. symmetry in Hsplit.
  pose proof (sorted_before _ _ _ _ Hsplit) as [Hpre Hpost].
  pose proof (merge_sort_Permutation Z.le ls) as Hperm. fold (sort ls) in Hperm.
  split; [rewrite <-Hperm; by eapply list_elem_of_lookup_2|].
  unfold at_most, at_least. rewrite <-!(count_Permutation _ _ _ Hperm), Hsplit, !List.filter_app.
  rewrite !length_app. simpl. rewrite Z.leb_refl. simpl.
  assert (length (take k (sort ls)) = k) as Hk by (rewrite length_take, sort_length; lia).
  assert (length (drop (S k) (sort ls)) = (length ls - S k)%nat) as Hd by by rewrite length_drop, sort_length.
  rewrite (filter_all (λ y, y <=? x) (take k _)), (filter_all (λ y, x <=? y) (drop _ _)).
  - lia.
  - eapply Forall_impl; [exact Hpost|]. intros y. apply Z.leb_le.
  - eapply Forall_impl; [exact Hpre|]. intros y. apply Z.leb_le.
Qed.

Lemma percentile_is_order_statistic_example :
  ∃ x, percentile (sort [30; 10; 20]) (1, 2) = Ok x ∧ x ∈ [30; 10; 20] ∧
    3 * 1 / 2 < Z.of_nat (at_most x [30; 10; 20]) ∧
    3 - 3 * 1 / 2 ≤ Z.of_nat (at_least x [30; 10; 20]).
Proof.
  exact (percentile_is_order_statistic [30; 10; 20] (1, 2) ltac:(by split) ltac:(discriminate)).
Defined.
End Latency.
