(* ===== verification/Fifo.v ===== *)
(** * The interface of a bounded FIFO queue

    What a queue of the engine promises its client: [push] appends when there is
    room and refuses otherwise, [pop] takes the oldest element, and neither has
    undefined behaviour.  [SpscQueue] implements it; [OrderBook] is written and
    proved against it (its free list of order slots is such a queue). *)
From S2P Require Import Prelude.

Class FifoOps (T Q : Type) := {
  fifo_push : T → Q → outcome (bool * Q);
  fifo_pop : Q → outcome (option T * Q)
}.

(** [fifo_rep q l]: the queue [q] is well formed and holds [l], oldest first.
    [fifo_room] is the greatest number of elements it can hold. *)
Class FifoSpec (T Q : Type) `{FifoOps T Q} := {
  fifo_room : nat;
  fifo_rep : Q → list T → Prop;
  fifo_rep_bound q l : fifo_rep q l → (length l ≤ fifo_room)%nat;
  fifo_push_room q l x :
    fifo_rep q l → (length l < fifo_room)%nat →
    ∃ q', fifo_push x q = Ok (true, q') ∧ fifo_rep q' (l ++ [x]);
  fifo_push_full q l x :
    fifo_rep q l → length l = fifo_room → fifo_push x q = Ok (false, q);
  fifo_pop_cons q x l :
    fifo_rep q (x :: l) → ∃ q', fifo_pop q = Ok (Some x, q') ∧ fifo_rep q' l;
  fifo_pop_nil q : fifo_rep q [] → fifo_pop q = Ok (None, q)
}.

Section FifoFacts.
Context `{FifoSpec T Q}.

(** A push keeps the queue well formed whether or not there is room. *)
Lemma fifo_push_any q l x :
  fifo_rep q l →
  ∃ b q', fifo_push x q = Ok (b, q') ∧
    fifo_rep q' (if b then l ++ [x] else l) ∧
    (b = true ↔ (length l < fifo_room)%nat).
Proof.
  intros Hq. pose proof (fifo_rep_bound q l Hq) as Hlen.
  destruct (decide (length l = fifo_room)) as [Heq|].
  - exists false, q. rewrite (fifo_push_full q l x) by done.
    repeat split; [done|discriminate|lia].
  - destruct (fifo_push_room q l x Hq) as (q' & Hp & Hq'); [lia|].
    exists true, q'. repeat split; [done|done|lia].
Qed.

Lemma fifo_pop_any q l :
  fifo_rep q l →
  ∃ q', fifo_pop q = Ok (head l, q') ∧ fifo_rep q' (tail l).
Proof.
  intros Hq. destruct l as [|x l].
  - exists q. by rewrite (fifo_pop_nil q).
  - apply (fifo_pop_cons q x l Hq).
Qed.
End FifoFacts.
