(* ===== verification/SpscQueue.v ===== *)
(** * [SpscQueue]: the ring buffer of 1_orderbook/include/spsc_queue.hpp

    The methods as one thread runs them, with their indices, mask and array, and
    the refinement of the bounded FIFO interface of [Fifo].  The interleavings of
    a producer and a consumer thread are the subject of [SpscConcurrent]. *)
From S2P Require Import Prelude Fifo.

Module Spsc.

(** The two atomic indices and the array.  [std::array<T, Capacity>] is left
    uninitialised by the constructor: its contents are an argument. *)
Record SpscQueue (T : Type) : Type := mkSpsc {
  head_ : Z;
  tail_ : Z;
  data_ : list T
}.
Arguments mkSpsc {T} _ _ _.
Arguments head_ {T} _.
Arguments tail_ {T} _.
Arguments data_ {T} _.

(** The [requires] clause of the template, for a [std::size_t] capacity. *)
Class CapacityOk (Capacity : Z) : Prop := {
  cap_pow2 :: PowerOfTwo Capacity;
  cap_size_t : Capacity < 2 ^ 64
}.

Section Methods.
Context {T : Type} (Capacity : Z).

Definition mask_ : Z := Capacity - 1.

Definition SpscQueue_new (uninitialised : list T) : SpscQueue T :=
  mkSpsc 0 0 uninitialised.

Definition push (item : T) (q : SpscQueue T) : outcome (bool * SpscQueue T) :=
  let head := head_ q in
  let next := Z.land (u64 (head + 1)) mask_ in
  if next =? tail_ q then Ok (false, q)
  else
    data' ← awrite (data_ q) head item;
    Ok (true, mkSpsc next (tail_ q) data').

Definition pop (q : SpscQueue T) : outcome (option T * SpscQueue T) :=
  let tail := tail_ q in
  if tail =? head_ q then Ok (None, q)
  else
    item ← aread (data_ q) tail;
    Ok (Some item, mkSpsc (head_ q) (Z.land (u64 (tail + 1)) mask_) (data_ q)).

Definition empty (q : SpscQueue T) : bool := head_ q =? tail_ q.

Definition size (q : SpscQueue T) : Z :=
  Z.land (u64 (head_ q - tail_ q)) mask_.
End Methods.

(** ** The list a ring buffer represents *)
Section Representation.
Context {T : Type} (Capacity : Z) `{!CapacityOk Capacity}.
Implicit Types (q : SpscQueue T) (l : list T).

Record spsc_rep q l : Prop := {
  rep_array : Z.of_nat (length (data_ q)) = Capacity;
  rep_tail : 0 ≤ tail_ q < Capacity;
  rep_head : head_ q = (tail_ q + Z.of_nat (length l)) `mod` Capacity;
  rep_room : Z.of_nat (length l) < Capacity;
  rep_cells i x :
    l !! i = Some x →
    data_ q !! Z.to_nat ((tail_ q + Z.of_nat i) `mod` Capacity) = Some x
}.

Let Hpos : 0 < Capacity := pow2_pos.

Lemma spsc_next i :
  0 ≤ i < Capacity → Z.land (u64 (i + 1)) (mask_ Capacity) = (i + 1) `mod` Capacity.
Proof.
  intros Hi. pose proof cap_size_t. unfold mask_.
  rewrite wrap_small by lia. apply land_mask. apply _.
Qed.

Lemma rep_head_range q l : spsc_rep q l → 0 ≤ head_ q < Capacity.
Proof. intros Hq. rewrite (rep_head _ _ Hq). by apply Z.mod_pos_bound. Qed.

Lemma spsc_rep_new junk :
  Z.of_nat (length junk) = Capacity → spsc_rep (SpscQueue_new junk) [].
Proof.
  intros Hl. split; simpl; [done|lia| |lia|done].
  by rewrite Z.mod_small by lia.
Qed.

(** The slot one past the last element, where [push] advances [head_]. *)
Lemma rep_next q l :
  spsc_rep q l →
  Z.land (u64 (head_ q + 1)) (mask_ Capacity) =
    (tail_ q + (Z.of_nat (length l) + 1)) `mod` Capacity.
Proof.
  intros Hq. rewrite spsc_next by by eapply rep_head_range.
  rewrite (rep_head _ _ Hq), mod_succ_idemp. f_equal. lia.
Qed.

Lemma rep_tail_mod q l : spsc_rep q l → tail_ q = (tail_ q + 0) `mod` Capacity.
Proof. intros Hq. rewrite Z.add_0_r, Z.mod_small; [done|apply (rep_tail _ _ Hq)]. Qed.

Lemma push_full_iff q l :
  spsc_rep q l →
  (Z.land (u64 (head_ q + 1)) (mask_ Capacity) = tail_ q ↔
   Z.of_nat (length l) = Capacity - 1).
Proof.
  intros Hq. pose proof (rep_room _ _ Hq). rewrite (rep_next q l Hq). split.
  - intros Heq. destruct (decide (Z.of_nat (length l) = Capacity - 1)); [done|].
    rewrite (rep_tail_mod q l Hq) in Heq at 2.
    apply mod_add_inj in Heq; lia.
  - intros ->. replace (tail_ q + (Capacity - 1 + 1)) with (tail_ q + 1 * Capacity) by lia.
    rewrite Z_mod_plus_full. apply Z.mod_small, (rep_tail _ _ Hq).
Qed.

(** Writing the slot at [head_] leaves every element of the queue in place. *)
Lemma rep_write q l x :
  spsc_rep q l → Z.of_nat (length l) < Capacity - 1 →
  spsc_rep (mkSpsc ((tail_ q + (Z.of_nat (length l) + 1)) `mod` Capacity) (tail_ q)
                   (<[Z.to_nat (head_ q) := x]> (data_ q))) (l ++ [x]).
Proof.
  intros Hq Hlt. pose proof (rep_head_range _ _ Hq). pose proof (rep_array _ _ Hq).
  split; simpl; rewrite ?length_insert, ?length_app; simpl;
    [done|apply (rep_tail _ _ Hq)|f_equal; lia|lia|].
  intros i y. rewrite lookup_app_Some. intros [Hi|[Hle Hi]].
  - pose proof (lookup_lt_Some _ _ _ Hi).
    rewrite list_lookup_insert_ne; [by apply (rep_cells _ _ Hq)|].
    rewrite (rep_head _ _ Hq). intros Heq.
    apply Z2Nat.inj in Heq; try (apply Z.mod_pos_bound; lia).
    apply mod_add_inj in Heq; lia.
  - apply list_lookup_singleton_Some in Hi as [Hi <-].
    replace i with (length l) by lia. rewrite <-(rep_head _ _ Hq).
    apply list_lookup_insert_eq. lia.
Qed.

Lemma push_room q l x :
  spsc_rep q l → Z.of_nat (length l) < Capacity - 1 →
  ∃ q', push Capacity x q = Ok (true, q') ∧ spsc_rep q' (l ++ [x]).
Proof.
  intros Hq Hlt. eexists. split; [|by apply (rep_write q l x)].
  unfold push. pose proof (push_full_iff q l Hq).
  case_Z; [lia|]. pose proof (rep_head_range _ _ Hq). pose proof (rep_array _ _ Hq).
  rewrite awrite_in_bounds by lia. simpl. by rewrite (rep_next q l Hq).
Qed.

Lemma push_full q l x :
  spsc_rep q l → Z.of_nat (length l) = Capacity - 1 →
  push Capacity x q = Ok (false, q).
Proof.
  intros Hq Heq. unfold push. pose proof (push_full_iff q l Hq). case_Z; [done|lia].
Qed.

Lemma pop_empty_iff q l : spsc_rep q l → (tail_ q = head_ q ↔ l = []).
Proof.
  intros Hq. pose proof (rep_room _ _ Hq). rewrite (rep_head _ _ Hq).
  rewrite (rep_tail_mod q l Hq) at 1. split; [|intros ->; done].
  intros Heq. apply mod_add_inj in Heq; [|lia..]. by destruct l.
Qed.

Lemma pop_cons q x l :
  spsc_rep q (x :: l) →
  ∃ q', pop Capacity q = Ok (Some x, q') ∧ spsc_rep q' l.
Proof.
  intros Hq. pose proof (pop_empty_iff _ _ Hq) as He. unfold pop.
  case_Z; [by assert (x :: l = []) by tauto|].
  pose proof (rep_tail _ _ Hq) as Ht. pose proof (rep_room _ _ Hq) as Hr.
  simpl length in Hr.
  pose proof (rep_cells _ _ Hq 0%nat x eq_refl) as Hx.
  change (Z.of_nat 0) with 0 in Hx. rewrite <-(rep_tail_mod _ _ Hq) in Hx.
  assert (aread (data_ q) (tail_ q) = Ok x) as -> by (apply aread_Ok; naive_solver lia).
  simpl. rewrite spsc_next by done. eexists. split; [done|].
  split; simpl; [apply (rep_array _ _ Hq)|by apply Z.mod_pos_bound| |lia|].
  - rewrite (rep_head _ _ Hq), Zplus_mod_idemp_l. simpl length. f_equal. lia.
  - intros i y Hi. rewrite Zplus_mod_idemp_l.
    rewrite <-(rep_cells _ _ Hq (S i) y Hi). do 2 f_equal. f_equal. lia.
Qed.

Lemma pop_nil q : spsc_rep q [] → pop Capacity q = Ok (None, q).
Proof.
  intros Hq. pose proof (pop_empty_iff _ _ Hq). unfold pop. case_Z; [done|tauto].
Qed.

(** The mask makes the difference of the indices a remainder. *)
Lemma size_mod q : size Capacity q = (head_ q - tail_ q) `mod` Capacity.
Proof.
  unfold size. pose proof cap_size_t. unfold mask_. rewrite land_mask by apply _. unfold wrap.
  by rewrite Z.mod_mod_divide by (by apply pow2_divides; [apply _|lia|]).
Qed.

Lemma size_rep q l : spsc_rep q l → size Capacity q = Z.of_nat (length l).
Proof.
  intros Hq. pose proof (rep_room _ _ Hq). pose proof (rep_tail _ _ Hq).
  rewrite size_mod, (rep_head _ _ Hq), Zminus_mod_idemp_l. rewrite Z.mod_small; lia.
Qed.
End Representation.

(** ** The ring buffer implements the FIFO interface *)
Section Interface.
Context {T : Type} (Capacity : Z) `{!CapacityOk Capacity}.

#[export] Instance spsc_fifo_ops : FifoOps T (SpscQueue T) := {
  fifo_push := push Capacity;
  fifo_pop := pop Capacity
}.

#[export] Program Instance spsc_fifo_spec : FifoSpec T (SpscQueue T) := {
  fifo_room := Z.to_nat (Capacity - 1);
  fifo_rep := spsc_rep Capacity
}.
Next Obligation. intros q l Hq. pose proof (rep_room _ _ _ Hq). lia. Qed.
Next Obligation. intros q l x Hq Hlt. apply push_room; [done|done|lia]. Qed.
Next Obligation.
  intros q l x Hq Heq. pose proof (pow2_pos (c:=Capacity)). eapply push_full; [done|done|lia].
Qed.
Next Obligation. intros. by apply pop_cons. Qed.
Next Obligation. intros. by apply pop_nil. Qed.
End Interface.

(** ** Programs over one queue *)
Inductive op (T : Type) := Push (x : T) | Pop | Size | Empty.
Arguments Push {T} _.
Arguments Pop {T}.
Arguments Size {T}.
Arguments Empty {T}.

Inductive response (T : Type) :=
  | Pushed (ok : bool) | Popped (r : option T) | SizeIs (n : Z) | IsEmpty (b : bool).
Arguments Pushed {T} _.
Arguments Popped {T} _.
Arguments SizeIs {T} _.
Arguments IsEmpty {T} _.

Section Runs.
Context {T : Type} (Capacity : Z).

Definition run_op (o : op T) (q : SpscQueue T) : outcome (response T * SpscQueue T) :=
  match o with
  | Push x => '(b, q') ← push Capacity x q; Ok (Pushed b, q')
  | Pop => '(r, q') ← pop Capacity q; Ok (Popped r, q')
  | Size => Ok (SizeIs (size Capacity q), q)
  | Empty => Ok (IsEmpty (empty q), q)
  end.

Fixpoint run (os : list (op T)) (q : SpscQueue T) : outcome (list (response T) * SpscQueue T) :=
  match os with
  | [] => Ok ([], q)
  | o :: os =>
      '(r, q1) ← run_op o q;
      '(rs, q2) ← run os q1;
      Ok (r :: rs, q2)
  end.

(** The reference: a list that holds at most [Capacity - 1] elements. *)
Definition spec_op (o : op T) (l : list T) : response T * list T :=
  match o with
  | Push x =>
      if Z.of_nat (length l) <? Capacity - 1 then (Pushed true, l ++ [x])
      else (Pushed false, l)
  | Pop => (Popped (head l), tail l)
  | Size => (SizeIs (Z.of_nat (length l)), l)
  | Empty => (IsEmpty (bool_decide (l = [])), l)
  end.

Fixpoint spec_run (os : list (op T)) (l : list T) : list (response T) * list T :=
  match os with
  | [] => ([], l)
  | o :: os =>
      let '(r, l1) := spec_op o l in
      let '(rs, l2) := spec_run os l1 in (r :: rs, l2)
  end.
End Runs.

Section Refinement.
Context {T : Type} (Capacity : Z) `{!CapacityOk Capacity}.

Lemma run_op_refines (o : op T) q l :
  spsc_rep Capacity q l →
  ∃ q', run_op Capacity o q = Ok ((spec_op Capacity o l).1, q') ∧
    spsc_rep Capacity q' (spec_op Capacity o l).2.
Proof.
  intros Hq. pose proof (rep_room _ _ _ Hq). destruct o as [x| | |]; simpl.
  - case_Z.
    + destruct (push_room Capacity q l x Hq) as (q' & -> & ?); [lia|]. by eexists.
    + rewrite (push_full Capacity q l x) by (done || lia). by eexists.
  - destruct l as [|x l].
    + rewrite pop_nil by done. by eexists.
    + destruct (pop_cons Capacity q x l Hq) as (q' & -> & ?). by eexists.
  - eexists. split; [|done]. by rewrite (size_rep Capacity q l).
  - eexists. split; [|done]. do 3 f_equal. unfold empty.
    pose proof (pop_empty_iff _ _ _ Hq). case_bool_decide; case_Z; naive_solver.
Qed.

(** C28: a program of pushes, pops, size and emptiness tests run by one thread on a
    freshly constructed queue never touches memory outside the array, whatever
    the uninitialised array held, and every response is that of a FIFO list
    which holds at most [Capacity - 1] elements: one slot is always reserved. *)
Theorem spsc_queue_is_bounded_fifo (os : list (op T)) (junk : list T)
    (Hjunk : Z.of_nat (length junk) = Capacity) :
  ∃ q', run Capacity os (SpscQueue_new junk) = Ok ((spec_run Capacity os []).1, q') ∧
    spsc_rep Capacity q' (spec_run Capacity os []).2.
Proof.
  pose proof (spsc_rep_new Capacity junk Hjunk) as Hq.
  revert Hq. generalize (SpscQueue_new junk) (@nil T).
  induction os as [|o os IH]; intros q l Hq; simpl; [by eexists|].
  destruct (run_op_refines o q l Hq) as (q1 & -> & Hq1). simpl.
  destruct (spec_op Capacity o l) as [r l1]. simpl in *.
  destruct (IH q1 l1 Hq1) as (q2 & -> & Hq2). simpl.
  destruct (spec_run Capacity os l1) as [rs l2]. by eexists.
Qed.
End Refinement.

#[export] Instance capacity_ok_4 : CapacityOk 4.
Proof. split; [split; reflexivity|reflexivity]. Qed.

Lemma spsc_queue_is_bounded_fifo_witness :
  ∃ q' : SpscQueue Z,
    run 4 [Push 1; Push 2; Push 3; Push 4; Pop; Push 5; Size] (SpscQueue_new [0; 0; 0; 0]) =
      Ok ([Pushed true; Pushed true; Pushed true; Pushed false; Popped (Some 1);
           Pushed true; SizeIs 3], q') ∧
    spsc_rep 4 q' [2; 3; 5].
Proof.
  exact (spsc_queue_is_bounded_fifo 4
           [Push 1; Push 2; Push 3; Push 4; Pop; Push 5; Size] [0; 0; 0; 0] eq_refl).
Defined.

End Spsc.
