(* ===== verification/SpscConcurrent.v ===== *)
(** * [SpscQueue] under two threads

    One producer thread calling [push] and one consumer thread calling [pop],
    interleaved at the granularity of the memory accesses of
    1_orderbook/include/spsc_queue.hpp, in the C++ release/acquire model:
    - an atomic index is its modification order (the list of all values stored);
      an acquire load may read any store not older than the last one the thread
      has seen (its view), so it may be stale; a thread reads its own index with a
      relaxed load, which by coherence gives its own last store;
    - the array is not atomic: each cell records the epoch of the last write and of
      the last read, and an access is a data race when the conflicting access does
      not happen before it, i.e. when its epoch is not covered by the view. *)
From S2P Require Import Prelude SpscQueue.

Module SpscConc.
Import Spsc.

Section Model.
Context {T : Type} (Capacity : Z).

Record cell := mkCell { val : T; wr_epoch : nat; rd_epoch : nat }.

Record memory := mkMem {
  head_order : list Z;      (* modification order of head_ *)
  tail_order : list Z;      (* modification order of tail_ *)
  cells : list cell         (* data_ *)
}.

(** Program counters: what the thread has done of its current call. *)
Inductive prod_pc :=
  | PIdle
  | PLoaded (item : T) (head : Z)       (* head_ loaded, tail_ not yet *)
  | PWriting (item : T) (head : Z)      (* the test for room passed *)
  | PPublishing (item : T) (head : Z).  (* data_[head] written *)
Inductive cons_pc :=
  | CIdle
  | CLoaded (tail : Z)
  | CReading (tail : Z)
  | CPublishing (tail : Z) (item : T).

(** A thread's counter, its view of the other thread's index, and the items of
    its successful calls so far. *)
Record producer := mkProd { ppc : prod_pc; pview : nat; pushed : list T }.
Record consumer := mkCons { cpc : cons_pc; cview : nat; popped : list T }.

Record config := mkConf { mem : memory; prod : producer; cons : consumer; raced : bool }.

Definition next_index (i : Z) : Z := Z.land (u64 (i + 1)) (mask_ Capacity).

(** One memory access of [push]; the Boolean tells whether it is a data race. *)
Inductive prod_step : memory → producer → memory → producer → bool → Prop :=
  | p_load m v ps item head :
      last (head_order m) = Some head →
      prod_step m (mkProd PIdle v ps) m (mkProd (PLoaded item head) v ps) false
  | p_full m v ps item head j t :
      (v ≤ j)%nat → tail_order m !! j = Some t → next_index head = t →
      prod_step m (mkProd (PLoaded item head) v ps) m (mkProd PIdle j ps) false
  | p_room m v ps item head j t :
      (v ≤ j)%nat → tail_order m !! j = Some t → next_index head ≠ t →
      prod_step m (mkProd (PLoaded item head) v ps) m (mkProd (PWriting item head) j ps) false
  | p_write m v ps item head c :
      cells m !! Z.to_nat head = Some c →
      prod_step m (mkProd (PWriting item head) v ps)
        (mkMem (head_order m) (tail_order m)
           (<[Z.to_nat head := mkCell item (length (head_order m)) (rd_epoch c)]> (cells m)))
        (mkProd (PPublishing item head) v ps) (bool_decide (v < rd_epoch c)%nat)
  | p_publish m v ps item head :
      prod_step m (mkProd (PPublishing item head) v ps)
        (mkMem (head_order m ++ [next_index head]) (tail_order m) (cells m))
        (mkProd PIdle v (ps ++ [item])) false.

(** One memory access of [pop]. *)
Inductive cons_step : memory → consumer → memory → consumer → bool → Prop :=
  | c_load m v ps tail :
      last (tail_order m) = Some tail →
      cons_step m (mkCons CIdle v ps) m (mkCons (CLoaded tail) v ps) false
  | c_empty m v ps tail j h :
      (v ≤ j)%nat → head_order m !! j = Some h → tail = h →
      cons_step m (mkCons (CLoaded tail) v ps) m (mkCons CIdle j ps) false
  | c_some m v ps tail j h :
      (v ≤ j)%nat → head_order m !! j = Some h → tail ≠ h →
      cons_step m (mkCons (CLoaded tail) v ps) m (mkCons (CReading tail) j ps) false
  | c_read m v ps tail c :
      cells m !! Z.to_nat tail = Some c →
      cons_step m (mkCons (CReading tail) v ps)
        (mkMem (head_order m) (tail_order m)
           (<[Z.to_nat tail := mkCell (val c) (wr_epoch c) (length (tail_order m))]> (cells m)))
        (mkCons (CPublishing tail (val c)) v ps) (bool_decide (v < wr_epoch c)%nat)
  | c_publish m v ps tail item :
      cons_step m (mkCons (CPublishing tail item) v ps)
        (mkMem (head_order m) (tail_order m ++ [next_index tail]) (cells m))
        (mkCons CIdle v (ps ++ [item])) false.

Inductive step : config → config → Prop :=
  | step_prod m p m' p' k r r' :
      prod_step m p m' p' r → step (mkConf m p k r') (mkConf m' p' k (r || r'))
  | step_cons m p k m' k' r r' :
      cons_step m k m' k' r → step (mkConf m p k r') (mkConf m' p k' (r || r')).

(** The constructor: both indices 0, the array uninitialised, and everything
    done before the threads start. *)
Inductive initial : config → Prop :=
  | initial_intro junk :
      Z.of_nat (length junk) = Capacity →
      initial (mkConf (mkMem [0] [0] ((λ x, mkCell x 0 0) <$> junk))
                      (mkProd PIdle 0 []) (mkCons CIdle 0 []) false).
End Model.
Arguments mkCell {T} _ _ _.
Arguments mkMem {T} _ _ _.
Arguments mkProd {T} _ _ _.
Arguments mkCons {T} _ _ _.
Arguments mkConf {T} _ _ _ _.

(** ** The invariant *)
Section Invariant.
Context {T : Type} (Capacity : Z) `{!CapacityOk Capacity}.
Let Hpos : 0 < Capacity := pow2_pos (c:=Capacity).

(** The index of the [n]-th element ever pushed. *)
Definition slot (n : nat) : Z := Z.of_nat n `mod` Capacity.
Definition order (n : nat) : list Z := slot <$> seq 0 (S n).

Lemma slot_range n : 0 ≤ slot n < Capacity.
Proof. by apply Z.mod_pos_bound. Qed.

Lemma slot_inj n m :
  (n ≤ m)%nat → Z.of_nat m < Z.of_nat n + Capacity → slot n = slot m → n = m.
Proof.
  unfold slot. intros Hle Hlt Heq.
  replace (Z.of_nat m) with (Z.of_nat n + (Z.of_nat m - Z.of_nat n)) in Heq by lia.
  replace (Z.of_nat n) with (Z.of_nat n + 0) in Heq at 1 by lia.
  apply mod_add_inj in Heq; lia.
Qed.

Lemma slot_ne n m :
  (n < m)%nat → Z.of_nat m < Z.of_nat n + Capacity → Z.to_nat (slot n) ≠ Z.to_nat (slot m).
Proof.
  intros Hlt Hm Heq. pose proof (slot_range n). pose proof (slot_range m).
  assert (slot n = slot m) as Hs by lia. apply slot_inj in Hs; lia.
Qed.

Lemma next_index_slot n : next_index Capacity (slot n) = slot (S n).
Proof.
  unfold next_index. rewrite (spsc_next Capacity) by apply slot_range.
  unfold slot. rewrite mod_succ_idemp. f_equal. lia.
Qed.

Lemma order_snoc n : order n ++ [slot (S n)] = order (S n).
Proof. unfold order. rewrite (seq_S (S n)), fmap_app. done. Qed.

Lemma order_length n : length (order n) = S n.
Proof. unfold order. by rewrite length_fmap, length_seq. Qed.

Lemma order_last n : last (order n) = Some (slot n).
Proof.
  destruct n as [|n]; [done|]. rewrite <-order_snoc. apply last_snoc.
Qed.

Lemma order_lookup n j s : order n !! j = Some s ↔ (j ≤ n)%nat ∧ s = slot j.
Proof.
  unfold order. rewrite list_lookup_fmap. split.
  - destruct (seq 0 (S n) !! j) as [k|] eqn:Hk; [|done]. simpl. intros [= <-].
    apply lookup_seq in Hk as [-> ?]. split; [lia|done].
  - intros [Hj ->]. rewrite (proj2 (lookup_seq 0 (S n) j j)) by lia. done.
Qed.

(** The cell of the [n]-th element: its value, written at epoch [n + 1]. *)
Definition holds (cs : list (cell (T:=T))) (n : nat) (x : T) : Prop :=
  ∃ c, cs !! Z.to_nat (slot n) = Some c ∧ val c = x ∧ (wr_epoch c ≤ S n)%nat.

Definition read_epochs (cs : list (cell (T:=T))) (bound : nat) : Prop :=
  ∀ i c, cs !! i = Some c → rd_epoch c = 0%nat ∨
    ∃ m, i = Z.to_nat (slot m) ∧ rd_epoch c = S m ∧ (m < bound)%nat.

Definition prod_ok (cs : list cell) (v n : nat) (pc : prod_pc (T:=T)) : Prop :=
  match pc with
  | PIdle => True
  | PLoaded _ h => h = slot n
  | PWriting _ h => h = slot n ∧ Z.of_nat n + 1 < Z.of_nat v + Capacity
  | PPublishing x h =>
      h = slot n ∧ Z.of_nat n + 1 < Z.of_nat v + Capacity ∧ holds cs n x
  end.

Definition cons_ok (xs : list T) (v n : nat) (pc : cons_pc (T:=T)) : Prop :=
  match pc with
  | CIdle => True
  | CLoaded t => t = slot n
  | CReading t => t = slot n ∧ (n < v)%nat
  | CPublishing t x => t = slot n ∧ (n < v)%nat ∧ xs !! n = Some x
  end.

(** How many elements the consumer has read: one more than it has popped
    between the read and the store of [tail_]. *)
Definition reads (k : consumer (T:=T)) : nat :=
  match cpc k with CPublishing _ _ => S (length (popped k)) | _ => length (popped k) end.

Record inv (c : config (T:=T)) : Prop := {
  inv_head : head_order (mem c) = order (length (pushed (prod c)));
  inv_tail : tail_order (mem c) = order (length (popped (cons c)));
  inv_pview : (pview (prod c) ≤ length (popped (cons c)))%nat;
  inv_popped : (length (popped (cons c)) ≤ cview (cons c))%nat;
  inv_cview : (cview (cons c) ≤ length (pushed (prod c)))%nat;
  inv_room : Z.of_nat (length (pushed (prod c))) < Z.of_nat (pview (prod c)) + Capacity;
  inv_prefix : popped (cons c) = take (length (popped (cons c))) (pushed (prod c));
  inv_cells : Z.of_nat (length (cells (mem c))) = Capacity;
  inv_held n x : (length (popped (cons c)) ≤ n)%nat →
    pushed (prod c) !! n = Some x → holds (cells (mem c)) n x;
  inv_reads : read_epochs (cells (mem c)) (reads (cons c));
  inv_prod : prod_ok (cells (mem c)) (pview (prod c)) (length (pushed (prod c))) (ppc (prod c));
  inv_cons : cons_ok (pushed (prod c)) (cview (cons c)) (length (popped (cons c))) (cpc (cons c));
  inv_race : raced c = false
}.

Lemma inv_initial c : initial Capacity c → inv c.
Proof.
  destruct 1 as [junk Hj]. split; simpl; try done; [by rewrite length_fmap|].
  intros i c Hc. apply list_lookup_fmap_Some in Hc as (x & -> & _). by left.
Qed.

(** *** Frame lemmas for the cells *)
Lemma holds_write cs n m x c :
  (n < m)%nat → Z.of_nat m < Z.of_nat n + Capacity →
  holds cs n x → holds (<[Z.to_nat (slot m) := c]> cs) n x.
Proof.
  intros Hlt Hm (c' & Hc & Hx). exists c'. split; [|done].
  rewrite list_lookup_insert_ne; [done|]. apply not_eq_sym. by apply slot_ne.
Qed.

(** A read changes only the read epoch of its cell. *)
Lemma holds_read cs n x i c e :
  cs !! i = Some c → holds cs n x →
  holds (<[i := mkCell (val c) (wr_epoch c) e]> cs) n x.
Proof.
  intros Hi (c' & Hc & Hx & Hw). destruct (decide (i = Z.to_nat (slot n))) as [->|Hne].
  - simplify_eq. eexists. rewrite list_lookup_insert_eq; [done|].
    by eapply lookup_lt_Some.
  - exists c'. by rewrite list_lookup_insert_ne.
Qed.

Lemma read_epochs_write cs i c x e b :
  cs !! i = Some c → read_epochs cs b →
  read_epochs (<[i := mkCell x e (rd_epoch c)]> cs) b.
Proof.
  intros Hi Hr j d. rewrite list_lookup_insert_Some. intros [(<- & <- & _)|[_ Hd]].
  - exact (Hr _ c Hi).
  - exact (Hr _ d Hd).
Qed.

Lemma read_epochs_read cs n x w b :
  (n < b)%nat → read_epochs cs n →
  read_epochs (<[Z.to_nat (slot n) := mkCell x w (S n)]> cs) b.
Proof.
  intros Hb Hr j d. rewrite list_lookup_insert_Some.
  intros [(<- & <- & _)|[_ Hd]]; [right; exists n; done|].
  destruct (Hr j d Hd) as [|(m & ? & ? & ?)]; [by left|right; exists m; auto with lia].
Qed.

(** *** Preservation *)
Lemma inv_prod_step m p k m' p' r :
  prod_step Capacity m p m' p' r → inv (mkConf m p k false) →
  inv (mkConf m' p' k r).
Proof.
  destruct 1; intros [Hh Ht Hpv Hpc Hcv Hroom Hpre Hlen Hheld Hrd Hp Hc _]; simpl in *.
  - (* load head_ *)
    split; simpl; try done. rewrite Hh, order_last in H. by simplify_eq.
  - (* full *)
    rewrite Ht in H0. apply order_lookup in H0 as [Hj ->].
    split; simpl; try done; lia.
  - (* room *)
    rewrite Ht in H0. apply order_lookup in H0 as [Hj ->]. subst head.
    rewrite next_index_slot in H1.
    split; simpl; try done; [lia|]. split; [done|].
    destruct (decide (Z.of_nat (length ps) + 1 < Z.of_nat j + Capacity)) as [|Hn]; [done|].
    destruct H1. unfold slot.
    replace (Z.of_nat (S (length ps))) with (Z.of_nat j + 1 * Capacity) by lia.
    apply Z_mod_plus_full.
  - (* write *)
    destruct Hp as [-> Hfree].
    split; simpl; try done; rewrite ?length_insert; try done.
    + intros n x Hn Hx. pose proof (lookup_lt_Some _ _ _ Hx).
      apply holds_write; [done|lia|by apply Hheld].
    + by apply read_epochs_write.
    + repeat split; [done|]. eexists.
      rewrite list_lookup_insert_eq by (by eapply lookup_lt_Some).
      split; [done|]. simpl. rewrite Hh, order_length. done.
    + apply bool_decide_eq_false_2. intros Hrace.
      destruct (Hrd _ _ H) as [H0|(i & Hs & Hi & Hb)]; [lia|].
      assert (i < length ps)%nat as Hip.
      { destruct k as [[] ? ?]; unfold reads in Hb; simpl in *; lia. }
      apply (f_equal Z.of_nat) in Hs.
      assert (Z.of_nat i + Capacity ≤ Z.of_nat (length ps)); [|lia].
      destruct (decide (Z.of_nat (length ps) < Z.of_nat i + Capacity)); [|lia].
      exfalso. apply (slot_ne i (length ps)); [done|done|lia].
  - (* publish *)
    destruct Hp as (-> & Hfree & Hnew).
    rewrite next_index_slot, Hh, order_snoc.
    split; simpl; rewrite ?length_app; simpl; try done; rewrite ?Nat.add_1_r; try lia; try done.
    + by rewrite take_app_le by lia.
    + intros n x Hn [Hx|[Hle Hx]]%lookup_app_Some; [by apply Hheld|].
      apply list_lookup_singleton_Some in Hx as [? <-].
      by replace n with (length ps) by lia.
    + destruct k as [[]]; simpl in *; try done. destruct Hc as (? & ? & Hi).
      repeat split; try done. apply lookup_app_l_Some, Hi.
Qed.

Lemma inv_cons_step m p k m' k' r :
  cons_step Capacity m k m' k' r → inv (mkConf m p k false) →
  inv (mkConf m' p k' r).
Proof.
  destruct 1; intros [Hh Ht Hpv Hpc Hcv Hroom Hpre Hlen Hheld Hrd Hp Hc _]; simpl in *.
  - (* load tail_ *)
    split; simpl; try done. rewrite Ht, order_last in H. by simplify_eq.
  - (* empty *)
    rewrite Hh in H0. apply order_lookup in H0 as [Hj ->].
    split; simpl; try done; lia.
  - (* not empty *)
    rewrite Hh in H0. apply order_lookup in H0 as [Hj ->]. subst tail.
    split; simpl; try done; try lia. split; [done|].
    destruct (decide (length ps = j)) as [Heq|]; [by rewrite Heq in H1|lia].
  - (* read *)
    destruct Hc as [-> Hlt].
    destruct (lookup_lt_is_Some_2 (pushed p) (length ps)) as [x Hx]; [lia|].
    destruct (Hheld (length ps) x (le_n _) Hx) as (c' & Hc' & Hval & Hwr). simplify_eq.
    split; simpl; try done; rewrite ?length_insert; try done.
    + intros n y Hn Hy. apply holds_read; [done|by apply Hheld].
    + rewrite Ht, order_length. apply read_epochs_read; [unfold reads; simpl; lia|done].
    + destruct (ppc p); simpl in *; try done. destruct Hp as (? & ? & ?).
      repeat split; try done. by apply holds_read.
    + apply bool_decide_eq_false_2. lia.
  - (* publish *)
    destruct Hc as (-> & Hlt & Hi).
    rewrite next_index_slot, Ht, order_snoc.
    split; simpl; rewrite ?length_app; simpl; try done; rewrite ?Nat.add_1_r; try lia; try done.
    + rewrite Hpre at 1. symmetry. by apply take_S_r.
    + intros n x Hn Hx. apply Hheld; [lia|done].
    + unfold reads in *. simpl in *. by rewrite length_app, Nat.add_1_r.
Qed.

Lemma inv_step c c' : inv c → step Capacity c c' → inv c'.
Proof.
  intros Hc Hs. destruct Hs as [m p k m' p' r r' Hs|m p k m' k' r r' Hs];
    pose proof (inv_race _ Hc) as Hr; simpl in Hr; subst r'; rewrite orb_false_r;
    [by eapply inv_prod_step|by eapply inv_cons_step].
Qed.

Lemma reachable_inv c : reachable (initial Capacity) (step Capacity) c → inv c.
Proof. apply reachable_invariant; [apply inv_initial|apply inv_step]. Qed.
Lemma inv_prod_progress c :
  inv c → ppc (prod c) ≠ PIdle →
  ∃ m' p' r, prod_step Capacity (mem c) (prod c) m' p' r.
Proof.
  intros Hc Hpc. pose proof (inv_prod _ Hc) as Hp. pose proof (inv_pview _ Hc) as Hv.
  pose proof (inv_tail _ Hc) as Ht. pose proof (inv_cells _ Hc) as Hn.
  destruct c as [m [pc v ps] k rc]; simpl in *. destruct pc as [|x h|x h|x h]; [done|..].
  - destruct (decide (next_index Capacity h = slot (length (popped k)))).
    + do 3 eexists. eapply p_full; [exact Hv| |done]. rewrite Ht. by apply order_lookup.
    + do 3 eexists. eapply p_room; [exact Hv| |done]. rewrite Ht. by apply order_lookup.
  - destruct Hp as [-> _]. pose proof (slot_range (length ps)).
    destruct (lookup_lt_is_Some_2 (cells m) (Z.to_nat (slot (length ps)))) as [d Hd]; [lia|].
    do 3 eexists. by eapply p_write.
  - do 3 eexists. apply p_publish.
Qed.

Lemma inv_cons_progress c :
  inv c → cpc (cons c) ≠ CIdle →
  ∃ m' k' r, cons_step Capacity (mem c) (cons c) m' k' r.
Proof.
  intros Hc Hpc. pose proof (inv_cons _ Hc) as Hk. pose proof (inv_cview _ Hc) as Hv.
  pose proof (inv_head _ Hc) as Hh. pose proof (inv_cells _ Hc) as Hn.
  destruct c as [m p [pc v ps] rc]; simpl in *. destruct pc as [|t|t|t x]; [done|..].
  - destruct (decide (t = slot (length (pushed p)))).
    + do 3 eexists. eapply c_empty; [exact Hv| |done]. rewrite Hh. by apply order_lookup.
    + do 3 eexists. eapply c_some; [exact Hv| |done]. rewrite Hh. by apply order_lookup.
  - destruct Hk as [-> _]. pose proof (slot_range (length ps)).
    destruct (lookup_lt_is_Some_2 (cells m) (Z.to_nat (slot (length ps)))) as [d Hd]; [lia|].
    do 3 eexists. by eapply c_read.
  - do 3 eexists. apply c_publish.
Qed.

(** Accesses left in the current call. *)
Definition prod_rank (pc : prod_pc (T:=T)) : nat :=
  match pc with PIdle => 0 | PPublishing _ _ => 1 | PWriting _ _ => 2 | PLoaded _ _ => 3 end.
Definition cons_rank (pc : cons_pc (T:=T)) : nat :=
  match pc with CIdle => 0 | CPublishing _ _ => 1 | CReading _ => 2 | CLoaded _ => 3 end.

(** ** Properties of every interleaving *)

(** C6: in every interleaving of the two threads, with stale index loads allowed,
    the items returned by [pop] are exactly the first items accepted by [push],
    in order: nothing is lost, duplicated, reordered or read torn; and at most
    [Capacity - 1] items are in flight. *)
Theorem spsc_concurrent_fifo (c : config (T:=T))
    (Hc : reachable (initial Capacity) (step Capacity) c) :
  (∃ in_flight, pushed (prod c) = popped (cons c) ++ in_flight ∧
     Z.of_nat (length in_flight) ≤ Capacity - 1) ∧
  (∀ tail item, cpc (cons c) = CPublishing tail item →
     pushed (prod c) !! length (popped (cons c)) = Some item).
Proof.
  apply reachable_inv in Hc as [_ _ Hpv Hpc Hcv Hroom Hpre _ _ _ _ Hk _]. split.
  - exists (drop (length (popped (cons c))) (pushed (prod c))). split.
    + rewrite Hpre at 1. by rewrite take_drop.
    + rewrite length_drop. lia.
  - intros t x Heq. rewrite Heq in Hk. apply Hk.
Qed.

(** C23: no execution has a data race on the array: every write of [push] to a cell
    happens after the read of the cell's previous occupant, and every read of
    [pop] after the write of the element it returns, although the array is not
    atomic and only the two indices order the threads. *)
Theorem spsc_data_race_free (c : config (T:=T))
    (Hc : reachable (initial Capacity) (step Capacity) c) :
  raced c = false.
Proof. apply reachable_inv in Hc. apply (inv_race _ Hc). Qed.

(** C40: both operations are wait-free: a thread in the middle of a call always has
    its next access available whatever the other thread has done, and every
    access brings it closer to returning, at most three after the first. *)
Theorem spsc_wait_free (c : config (T:=T))
    (Hc : reachable (initial Capacity) (step Capacity) c) :
  (ppc (prod c) ≠ PIdle →
     (∃ m' p' r, prod_step Capacity (mem c) (prod c) m' p' r) ∧
     ∀ m' p' r, prod_step Capacity (mem c) (prod c) m' p' r →
       (prod_rank (ppc p') < prod_rank (ppc (prod c)) ≤ 3)%nat) ∧
  (cpc (cons c) ≠ CIdle →
     (∃ m' k' r, cons_step Capacity (mem c) (cons c) m' k' r) ∧
     ∀ m' k' r, cons_step Capacity (mem c) (cons c) m' k' r →
       (cons_rank (cpc k') < cons_rank (cpc (cons c)) ≤ 3)%nat).
Proof.
  apply reachable_inv in Hc. split; intros Hpc; split.
  - by apply inv_prod_progress.
  - intros m' p' r Hs. destruct Hs; simpl in *; [done|lia..].
  - by apply inv_cons_progress.
  - intros m' k' r Hs. destruct Hs; simpl in *; [done|lia..].
Qed.

(** ** A call that runs alone is the sequential method *)
Definition seq_state (m : memory (T:=T)) : SpscQueue T :=
  mkSpsc (default 0 (last (head_order m))) (default 0 (last (tail_order m)))
         (val <$> cells m).

Definition prod_run : relation (config (T:=T)) := rtc (λ c c',
  ∃ r, prod_step Capacity (mem c) (prod c) (mem c') (prod c') r ∧
       cons c' = cons c ∧ raced c' = (r || raced c)).

Lemma prod_run_step m p k rc m' p' r c :
  prod_step Capacity m p m' p' r → prod_run (mkConf m' p' k (r || rc)) c →
  prod_run (mkConf m p k rc) c.
Proof. intros Hs Hr. eapply rtc_l; [|exact Hr]. by exists r. Qed.

Lemma seq_state_inv c :
  inv c →
  head_ (seq_state (mem c)) = slot (length (pushed (prod c))) ∧
  tail_ (seq_state (mem c)) = slot (length (popped (cons c))).
Proof.
  intros Hc. unfold seq_state. simpl.
  by rewrite (inv_head _ Hc), (inv_tail _ Hc), !order_last.
Qed.

Lemma seq_write (m : memory (T:=T)) h x c :
  cells m !! Z.to_nat h = Some c → 0 ≤ h →
  awrite (val <$> cells m) h x =
    Ok (val <$> <[Z.to_nat h := mkCell x (length (head_order m)) (rd_epoch c)]> (cells m)).
Proof.
  intros Hc Hh. apply lookup_lt_Some in Hc. rewrite awrite_in_bounds.
  - by rewrite list_fmap_insert.
  - rewrite length_fmap. lia.
Qed.

(** A [push] whose accesses are not interleaved with the consumer's does what
    the sequential method does to the same memory: same answer, same indices,
    same array. *)
Lemma uninterrupted_push_is_sequential_push (c : config (T:=T)) (item : T)
    (Hc : reachable (initial Capacity) (step Capacity) c)
    (Hidle : ppc (prod c) = PIdle) :
  ∃ ok c', push Capacity item (seq_state (mem c)) = Ok (ok, seq_state (mem c')) ∧
    prod_run c c' ∧ ppc (prod c') = PIdle ∧
    pushed (prod c') = if ok then pushed (prod c) ++ [item] else pushed (prod c).
Proof.
  apply reachable_inv in Hc. pose proof (seq_state_inv c Hc) as [Hh Ht].
  destruct c as [m [pc v ps] k rc].
  cbn [mem prod cons ppc pview pushed raced] in *. subst pc.
  unfold push. rewrite Hh, Ht.
  set (P := length ps). set (C := length (popped k)).
  change (Z.land _ _) with (next_index Capacity (slot P)).
  pose proof (inv_pview _ Hc) as Hv. cbn in Hv.
  assert (tail_order m !! C = Some (slot C)) as HtC.
  { pose proof (inv_tail _ Hc) as Hto. cbn in Hto. rewrite Hto. by apply order_lookup. }
  assert (last (head_order m) = Some (slot P)) as HhP.
  { pose proof (inv_head _ Hc) as Hho. cbn in Hho. rewrite Hho. apply order_last. }
  destruct (Z.eqb_spec (next_index Capacity (slot P)) (slot C)) as [Heq|Hne].
  - exists false, (mkConf m (mkProd PIdle C ps) k rc). split; [done|].
    split; [|done].
    eapply prod_run_step; [by apply p_load with (item := item)|].
    eapply prod_run_step; [by eapply p_full with (j := C)|]. apply rtc_refl.
  - pose proof (inv_cells _ Hc) as Hn. cbn in Hn. pose proof (slot_range P) as HP.
    destruct (lookup_lt_is_Some_2 (cells m) (Z.to_nat (slot P))) as [d Hd]; [lia|].
    cbn [data_ seq_state]. rewrite (seq_write m _ _ _ Hd) by lia.
    exists true. eexists (mkConf (mkMem _ _ _) (mkProd PIdle C (ps ++ [item])) k _).
    split; [|split; [|done]].
    + cbn. unfold seq_state. cbn. rewrite last_snoc. cbn in Ht. by rewrite Ht.
    + eapply prod_run_step; [by apply p_load with (item := item)|].
      eapply prod_run_step; [by eapply p_room with (j := C)|].
      eapply prod_run_step; [by apply p_write|].
      eapply prod_run_step; [by apply p_publish|]. apply rtc_refl.
Qed.
End Invariant.

Lemma reachable_prod {T} Capacity (c : config (T:=T)) m' p' r :
  reachable (initial Capacity) (step Capacity) c →
  prod_step Capacity (mem c) (prod c) m' p' r →
  reachable (initial Capacity) (step Capacity) (mkConf m' p' (cons c) (r || raced c)).
Proof. intros Hc Hs. destruct c. eapply reachable_step; [exact Hc|by constructor]. Qed.

Lemma reachable_cons {T} Capacity (c : config (T:=T)) m' k' r :
  reachable (initial Capacity) (step Capacity) c →
  cons_step Capacity (mem c) (cons c) m' k' r →
  reachable (initial Capacity) (step Capacity) (mkConf m' (prod c) k' (r || raced c)).
Proof. intros Hc Hs. destruct c. eapply reachable_step; [exact Hc|by constructor]. Qed.

(** ** A run: the producer pushes 7, then the consumer has read it *)
Definition demo_memory : memory (T:=Z) :=
  mkMem [0; 1] [0] [mkCell 7 1 1; mkCell 0 0 0; mkCell 0 0 0; mkCell 0 0 0].
Definition demo_reading : config (T:=Z) :=
  mkConf demo_memory (mkProd PIdle 0 [7]) (mkCons (CPublishing 0 7) 1 []) false.

Lemma demo_reachable : reachable (initial 4) (step 4) demo_reading.
Proof.
  pose proof (reachable_init (initial 4) (step 4) _
                (initial_intro 4 [0; 0; 0; 0] eq_refl)) as H.
  eapply reachable_prod in H; [|apply p_load with (item := 7); reflexivity].
  eapply reachable_prod in H; [|eapply p_room with (j := 0%nat); [done|done|discriminate]].
  eapply reachable_prod in H; [|apply p_write; reflexivity].
  eapply reachable_prod in H; [|apply p_publish].
  eapply reachable_cons in H; [|apply c_load; reflexivity].
  eapply reachable_cons in H; [|eapply c_some with (j := 1%nat); [simpl; lia|done|discriminate]].
  eapply reachable_cons in H; [|apply c_read; reflexivity].
  exact H.
Qed.

Lemma spsc_concurrent_fifo_witness :
  (∃ in_flight, [7] = [] ++ in_flight ∧ Z.of_nat (length in_flight) ≤ 4 - 1) ∧
  (∀ tail item, cpc (cons demo_reading) = CPublishing tail item → [7] !! 0%nat = Some item).
Proof. exact (spsc_concurrent_fifo 4 demo_reading demo_reachable). Defined.

Lemma spsc_data_race_free_witness : raced demo_reading = false.
Proof. exact (spsc_data_race_free 4 demo_reading demo_reachable). Defined.

Lemma spsc_wait_free_witness :
  ∃ m' k' r, cons_step 4 demo_memory (cons demo_reading) m' k' r.
Proof.
  destruct (spsc_wait_free 4 demo_reading demo_reachable) as [_ H].
  apply H. discriminate.
Defined.

End SpscConc.
