(* ===== verification/SpscObserve.v ===== *)
(** * [empty] and [size] while two threads use the queue

    The two observers of 1_orderbook/include/spsc_queue.hpp, called by the producer, by the
    consumer or by a third thread while [push] and [pop] of SpscConcurrent go on.  A call
    loads [head_] and then [tail_], in two accesses; what the method makes of the two values
    is [size] and [empty] of SpscQueue. *)
From S2P Require Import Prelude SpscQueue SpscConcurrent.

Module SpscObserve.
Import Spsc SpscConc.

Section Model.
Context {T : Type} (Capacity : Z).

Inductive who := Producer | Consumer | Third.

(** The threads, the values of [head_] loaded by calls in progress, and the view of the
    third thread. *)
Record watched := mkWatched {
  conf : config (T:=T);
  pcall : option Z;
  ccall : option Z;
  tcall : option Z;
  tview : nat * nat
}.

(** What a call returns that has loaded [h] and [t]. *)
Definition size_of (h t : Z) : Z := size (T:=T) Capacity (mkSpsc h t []).
Definition empty_of (h t : Z) : bool := empty (T:=T) (mkSpsc h t []).

Definition answer : Type := who * Z * bool.
Definition answered (w : who) (h t : Z) : option answer := Some (w, size_of h t, empty_of h t).

Inductive wstep : watched → option answer → watched → Prop :=
  | w_push m p k m' p' r r' cc tc tv :
      prod_step Capacity m p m' p' r →
      wstep (mkWatched (mkConf m p k r') None cc tc tv) None
            (mkWatched (mkConf m' p' k (r || r')) None cc tc tv)
  | w_pop m p k m' k' r r' pc tc tv :
      cons_step Capacity m k m' k' r →
      wstep (mkWatched (mkConf m p k r') pc None tc tv) None
            (mkWatched (mkConf m' p k' (r || r')) pc None tc tv)
  (* The producer reads its own index, then a store of the consumer's. *)
  | w_producer_head m v ps k r h cc tc tv :
      last (head_order m) = Some h →
      wstep (mkWatched (mkConf m (mkProd PIdle v ps) k r) None cc tc tv) None
            (mkWatched (mkConf m (mkProd PIdle v ps) k r) (Some h) cc tc tv)
  | w_producer_tail m v ps k r h j t cc tc tv :
      (v ≤ j)%nat → tail_order m !! j = Some t →
      wstep (mkWatched (mkConf m (mkProd PIdle v ps) k r) (Some h) cc tc tv) (answered Producer h t)
            (mkWatched (mkConf m (mkProd PIdle j ps) k r) None cc tc tv)
  (* The consumer reads a store of the producer's index, then its own. *)
  | w_consumer_head m p v ps r j h pc tc tv :
      (v ≤ j)%nat → head_order m !! j = Some h →
      wstep (mkWatched (mkConf m p (mkCons CIdle v ps) r) pc None tc tv) None
            (mkWatched (mkConf m p (mkCons CIdle j ps) r) pc (Some h) tc tv)
  | w_consumer_tail m p v ps r h t pc tc tv :
      last (tail_order m) = Some t →
      wstep (mkWatched (mkConf m p (mkCons CIdle v ps) r) pc (Some h) tc tv) (answered Consumer h t)
            (mkWatched (mkConf m p (mkCons CIdle v ps) r) pc None tc tv)
  (* A third thread may read old stores of both. *)
  | w_third_head c pc cc vh vt j h :
      (vh ≤ j)%nat → head_order (mem c) !! j = Some h →
      wstep (mkWatched c pc cc None (vh, vt)) None (mkWatched c pc cc (Some h) (j, vt))
  | w_third_tail c pc cc vh vt h j t :
      (vt ≤ j)%nat → tail_order (mem c) !! j = Some t →
      wstep (mkWatched c pc cc (Some h) (vh, vt)) (answered Third h t) (mkWatched c pc cc None (vh, j)).

Definition wmove (w w' : watched) : Prop := ∃ a, wstep w a w'.

Inductive winitial : watched → Prop :=
  | winitial_intro c : initial Capacity c → winitial (mkWatched c None None None (0%nat, 0%nat)).
End Model.
Arguments mkWatched {T} _ _ _ _ _.

Section Facts.
Context {T : Type} (Capacity : Z) `{!CapacityOk Capacity}.
Let Hpos : 0 < Capacity := pow2_pos (c:=Capacity).
Implicit Type w : watched (T:=T).

Definition pushes w : nat := length (pushed (prod (conf w))).
Definition pops w : nat := length (popped (cons (conf w))).

(** The invariant of the two threads, and what their calls in progress have loaded. *)
Record winv w : Prop := {
  wi_inv : inv Capacity (conf w);
  wi_producer h : pcall w = Some h → ppc (prod (conf w)) = PIdle ∧ h = slot Capacity (pushes w);
  wi_consumer h : ccall w = Some h → cpc (cons (conf w)) = CIdle ∧ h = slot Capacity (cview (cons (conf w)))
}.

Lemma winv_initial w : winitial Capacity w → winv w.
Proof. intros [c Hc]. split; simpl; [by apply inv_initial|done..]. Qed.

Lemma winv_step w a w' : winv w → wstep Capacity w a w' → winv w'.
Proof.
  intros [Hi Hp Hc] Hstep. destruct Hstep as
    [m p k m' p' r r' cc tc tv Hs|m p k m' k' r r' pc tc tv Hs|m v ps k r h cc tc tv Hh
    |m v ps k r h j t cc tc tv Hj Ht|m p v ps r j h pc tc tv Hj Hh|m p v ps r h t pc tc tv Ht
    |c pc cc vh vt j h Hj Hh|c pc cc vh vt h j t Hj Ht]; unfold pushes in *; simpl in *.
  - split; simpl; [|done|done]. by eapply (inv_step Capacity); [exact Hi|apply step_prod].
  - split; simpl; [|done|done]. by eapply (inv_step Capacity); [exact Hi|apply step_cons].
  - split; simpl; [done| |done]. intros ? [= <-]. split; [done|].
    pose proof (inv_head _ _ Hi) as Hho. simpl in Hho. rewrite Hho, order_last in Hh. by simplify_eq.
  - destruct Hi. simpl in *. rewrite inv_tail0 in Ht. apply order_lookup in Ht as [Hjp ->].
    split; simpl; [split; simpl; try done; lia|done|done].
  - destruct Hi. simpl in *. rewrite inv_head0 in Hh. apply order_lookup in Hh as [Hjp ->].
    split; simpl; [split; simpl; try done; lia|done|by intros ? [= <-]].
  - by split.
  - by split.
  - by split.
Qed.

(** ** What the answers mean *)
Lemma size_slots a b :
  (b ≤ a)%nat → Z.of_nat a < Z.of_nat b + Capacity →
  size_of (T:=T) Capacity (slot Capacity a) (slot Capacity b) = Z.of_nat a - Z.of_nat b.
Proof.
  intros Hle Hlt. unfold size_of. rewrite (size_mod Capacity). simpl. unfold slot.
  rewrite <-Zminus_mod, Z.mod_small; lia.
Qed.

Lemma size_range h t : 0 ≤ size_of (T:=T) Capacity h t < Capacity.
Proof. unfold size_of. rewrite (size_mod Capacity). by apply Z.mod_pos_bound. Qed.

Lemma empty_size a b :
  empty_of (T:=T) (slot Capacity a) (slot Capacity b) =
    (size_of (T:=T) Capacity (slot Capacity a) (slot Capacity b) =? 0).
Proof.
  unfold empty_of, empty, size_of. rewrite (size_mod Capacity). simpl.
  pose proof (slot_range Capacity a). pose proof (slot_range Capacity b).
  destruct (Z.eqb_spec (slot Capacity a) (slot Capacity b)) as [->|Hne]; symmetry.
  - rewrite Z.sub_diag. by apply Z.eqb_eq.
  - apply Z.eqb_neq. intros Hmod%Z.mod_divide; [|lia]. destruct Hmod as [q Hq].
    assert (q = 0 ∨ 1 ≤ q ∨ q ≤ -1) as [->|[|]] by lia; nia.
Qed.

Lemma views_grow w a w' :
  winv w → wstep Capacity w a w' →
  (pview (prod (conf w)) ≤ pview (prod (conf w')))%nat ∧ (cview (cons (conf w)) ≤ cview (cons (conf w')))%nat.
Proof. intros Hi Hstep. destruct Hstep as [?????????? Hs|?????????? Hs| | | | | | ]; simpl; try lia;
  destruct Hs; simpl; lia. Qed.

Lemma later w w2 : winv w → rtc (wmove Capacity) w w2 → winv w2 ∧
  (pview (prod (conf w)) ≤ pview (prod (conf w2)))%nat ∧ (cview (cons (conf w)) ≤ cview (cons (conf w2)))%nat.
Proof.
  intros Hi Hrun. induction Hrun as [w|w w1 w2 [a Hs] _ IH]; [done|].
  pose proof (views_grow _ _ _ Hi Hs). destruct (IH (winv_step _ _ _ Hi Hs)) as (? & ? & ?). split; [done|lia].
Qed.

(** The next access of a [push] does not refuse its item, that of a [pop] does not find the
    queue empty. *)
Definition not_refused w : Prop := ∀ x h a w', ppc (prod (conf w)) = PLoaded x h →
  wstep Capacity w a w' → ppc (prod (conf w')) ≠ PIdle.
Definition not_empty w : Prop := ∀ t a w', cpc (cons (conf w)) = CLoaded t →
  wstep Capacity w a w' → cpc (cons (conf w')) ≠ CIdle.

Lemma room_not_refused w :
  winv w → Z.of_nat (pushes w) + 1 < Z.of_nat (pview (prod (conf w))) + Capacity → not_refused w.
Proof.
  intros [Hi _ _] Hroom x h a w' Hpc Hstep. destruct Hi as [Hh Ht Hpv Hpp Hcv _ _ _ _ _ Hp _ _].
  destruct Hstep as [m p k m' p' r r' cc tc tv Hs| | | | | | | ]; unfold pushes in *; simpl in *;
    try congruence.
  destruct Hs as [ |m v ps item head j t Hj Htj ?| | | ]; simplify_eq/=; try done.
  rewrite Ht in Htj. apply order_lookup in Htj as [Hjp Hfull]. rewrite next_index_slot in Hfull by done.
  symmetry in Hfull. apply (slot_inj Capacity) in Hfull; lia.
Qed.

Lemma items_not_empty w :
  winv w → (pops w < cview (cons (conf w)))%nat → not_empty w.
Proof.
  intros [Hi _ _] Hitems t a w' Hpc Hstep. destruct Hi as [Hh Ht Hpv Hpp Hcv Hroom _ _ _ _ _ Hc _].
  destruct Hstep as [ |m p k m' k' r r' pc tc tv Hs| | | | | | ]; unfold pops in *; simpl in *;
    try congruence.
  destruct Hs as [ |m v ps tail j h Hj Hhj ?| | | ]; simplify_eq/=; try done.
  rewrite Hh in Hhj. apply order_lookup in Hhj as [Hjp Hempty].
  apply (slot_inj Capacity) in Hempty; lia.
Qed.

(** C24: [size] and [empty] called while the queue is in use, with stale loads.  What the
    producer is told is never less than the elements in the queue, and if it is told there
    is room, its next push is not refused; what the consumer is told is never more, and if
    it is told of an element, its next pop finds one, whatever the other thread does in
    between.  The size told is always below the capacity, and zero exactly when the queue
    is said to be empty. *)
Theorem observers_are_conservative w (who' : who) (n : Z) (e : bool) w'
    (Hw : reachable (winitial Capacity) (wmove Capacity) w)
    (Hcall : wstep Capacity w (Some (who', n, e)) w') :
  0 ≤ n < Capacity ∧ (who' ≠ Third → e = (n =? 0)) ∧
  match who' with
  | Producer => Z.of_nat (pushes w) - Z.of_nat (pops w) ≤ n ∧
      (n < Capacity - 1 → ∀ w2, rtc (wmove Capacity) w' w2 → pushes w2 = pushes w → not_refused w2)
  | Consumer => n ≤ Z.of_nat (pushes w) - Z.of_nat (pops w) ∧
      (0 < n → ∀ w2, rtc (wmove Capacity) w' w2 → pops w2 = pops w → not_empty w2)
  | Third => True
  end.
Proof.
  assert (winv w) as Hi.
  { revert Hw. apply reachable_invariant; [apply winv_initial|]. intros s s' Hs [a Ha]. by eapply winv_step. }
  pose proof (winv_step _ _ _ Hi Hcall) as Hi'.
  remember (Some (who', n, e)) as a eqn:Ha.
  destruct Hcall as [ | | |m v ps k r h j t cc tc tv Hj Ht| |m p v ps r h t pc tc tv Ht| |]; try done;
    injection Ha as <- <- <-; (split; [apply size_range|]).
  - pose proof (proj2 (wi_producer _ Hi _ eq_refl)) as ->. pose proof (wi_inv _ Hi) as Hinv.
    destruct Hinv as [Hh Htl Hpv Hpp Hcv Hroom _ _ _ _ _ _ _].
    simpl in *. rewrite Htl in Ht. apply order_lookup in Ht as [Hjp ->].
    unfold pushes, pops in *. simpl in *. split; [intros _; apply empty_size|].
    rewrite size_slots by lia. split; [lia|].
    intros Hn w2 Hrun Hsame. destruct (later _ _ Hi' Hrun) as (Hi2 & Hv & _).
    apply room_not_refused; [done|]. unfold pushes. simpl in *. lia.
  - pose proof (proj2 (wi_consumer _ Hi _ eq_refl)) as ->. pose proof (wi_inv _ Hi) as Hinv.
    destruct Hinv as [Hh Htl Hpv Hpp Hcv Hroom _ _ _ _ _ _ _].
    simpl in *. rewrite Htl, order_last in Ht. injection Ht as <-.
    unfold pushes, pops in *. simpl in *. split; [intros _; apply empty_size|].
    rewrite size_slots by lia. split; [lia|].
    intros Hn w2 Hrun Hsame. destruct (later _ _ Hi' Hrun) as (Hi2 & _ & Hv).
    apply items_not_empty; [done|]. unfold pops. simpl in *. lia.
  - done.
Qed.
End Facts.

(** ** Concrete calls, on a queue of capacity 4 *)
Lemma watched_reachable (c : config (T:=Z)) :
  reachable (initial 4) (step 4) c →
  reachable (winitial 4) (wmove 4) (mkWatched c None None None (0%nat, 0%nat)).
Proof.
  intros Hc. induction Hc as [c Hc|c c' _ IH Hs]; [by apply reachable_init|].
  eapply reachable_step; [exact IH|]. destruct Hs; exists None; by constructor.
Qed.

Lemma watched_step (w w' : watched (T:=Z)) a :
  reachable (winitial 4) (wmove 4) w → wstep 4 w a w' → reachable (winitial 4) (wmove 4) w'.
Proof. intros Hw Hs. eapply reachable_step; [exact Hw|by exists a]. Qed.

(** One item pushed, none popped. *)
Definition one_cells (read : nat) : list (cell (T:=Z)) :=
  [mkCell 7 1 read; mkCell 0 0 0; mkCell 0 0 0; mkCell 0 0 0].
Definition one_item : config (T:=Z) :=
  mkConf (mkMem [0; 1] [0] (one_cells 0)) (mkProd PIdle 0 [7]) (mkCons CIdle 0 []) false.

Lemma one_item_reachable : reachable (initial 4) (step 4) one_item.
Proof.
  pose proof (reachable_init (initial 4) (step 4) _ (initial_intro 4 [0; 0; 0; 0] eq_refl)) as H.
  eapply reachable_prod in H; [|apply p_load with (item := 7); reflexivity].
  eapply reachable_prod in H; [|eapply p_room with (j := 0%nat); [done|done|discriminate]].
  eapply reachable_prod in H; [|apply p_write; reflexivity].
  eapply reachable_prod in H; [|apply p_publish]. exact H.
Qed.

(** The consumer is told of one element, and its next pop finds it. *)
Definition consumer_asks : watched (T:=Z) :=
  mkWatched (mkConf (mkMem [0; 1] [0] (one_cells 0)) (mkProd PIdle 0 [7]) (mkCons CIdle 1 []) false)
    None (Some 1) None (0%nat, 0%nat).

Definition consumer_told : watched (T:=Z) :=
  mkWatched (mkConf (mkMem [0; 1] [0] (one_cells 0)) (mkProd PIdle 0 [7]) (mkCons CIdle 1 []) false)
    None None None (0%nat, 0%nat).

Lemma consumer_asks_reachable : reachable (winitial 4) (wmove 4) consumer_asks.
Proof.
  eapply watched_step; [exact (watched_reachable one_item one_item_reachable)|].
  by apply (w_consumer_head _ _ _ 0 _ _ 1); [lia|].
Qed.

Lemma consumer_call : wstep 4 consumer_asks (Some (Consumer, 1, false)) consumer_told.
Proof. exact (w_consumer_tail 4 (mem one_item) (prod one_item) 1 [] false 1 0 None None (0%nat, 0%nat) eq_refl). Qed.

Lemma observers_are_conservative_witness :
  1 ≤ Z.of_nat (pushes consumer_asks) - Z.of_nat (pops consumer_asks) ∧
  ∀ w2, rtc (wmove 4) consumer_told w2 → pops w2 = pops consumer_asks → not_empty 4 w2.
Proof.
  destruct (observers_are_conservative 4 consumer_asks Consumer 1 false consumer_told
    consumer_asks_reachable consumer_call) as (_ & _ & Hle & Hfinds).
  split; [exact Hle|by apply Hfinds].
Defined.

(** A third thread that loads [head_], and [tail_] after the item has been popped, is told of
    three elements in a queue that is empty and never held two. *)
Lemma third_thread_is_told_nonsense :
  ∃ w w' : watched (T:=Z), reachable (winitial 4) (wmove 4) w ∧
    wstep 4 w (Some (Third, 3, false)) w' ∧ pushes w = 1%nat ∧ pops w = 1%nat.
Proof.
  pose proof (watched_reachable one_item one_item_reachable) as H.
  eapply watched_step in H; [|by apply (w_third_head 4 _ _ _ 0 0 0)].
  eapply watched_step in H; [|apply w_pop, c_load; reflexivity].
  eapply watched_step in H; [|by eapply w_pop, (c_some _ _ _ _ _ 1); [lia|..]].
  eapply watched_step in H; [|apply w_pop, c_read; reflexivity].
  eapply watched_step in H; [|apply w_pop, c_publish].
  eexists _, _. split; [exact H|]. split; [by apply (w_third_tail 4 _ _ _ _ 0 0 1 1); [lia|]|by split].
Qed.
End SpscObserve.
