(* ===== verification/MpscQueue.v ===== *)
(** * [MpscQueue]: the linked queue of 1_orderbook/include/mpsc_queue.hpp

    Any number of producer threads calling [push] and one consumer thread calling
    [pop], interleaved at the granularity of the accesses to shared memory.

    A node is known by an identity that is never used again, so that an access after
    [delete] is seen as one.  A thread's view is the set of the nodes whose
    construction happens before what the thread does next: an [acq_rel] exchange
    joins the view released by the previous exchange, an acquire load of [next] joins
    the view released by the store it reads from.  The acquire load may be stale: it
    may still read the null pointer after [next] was stored.  An access to a node
    that is deleted, or not in the view of the thread, is recorded as a fault. *)
From S2P Require Import Prelude.

Module Mpsc.

Section Model.
Context {T : Type} (initial_item : T).   (* [T()], the data of the stub *)

(** [Node], with the view released by the store to [next]. *)
Record node := mkNode { data : T; next : option nat; next_view : gset nat }.

(** What a producer has done of its call of [push]. *)
Inductive push_pc :=
  | PIdle
  | PNew (n : nat) (item : T)            (* the node is constructed *)
  | PSwapped (n prev : nat).             (* and exchanged into [tail_] *)
(** What the consumer has done of its call of [pop]. *)
Inductive pop_pc :=
  | CIdle
  | CHead (hd : nat)                     (* [head_] is loaded *)
  | CNext (hd nx : nat)                  (* [head->next] is loaded and not null *)
  | CData (hd nx : nat) (item : T)       (* [next->data] is copied *)
  | CStored (hd : nat) (item : T).       (* [head_] is stored; [head] not deleted yet *)

Record producer := mkProd { ppc : push_pc; pview : gset nat }.
Record consumer := mkCons { cpc : pop_pc; cview : gset nat }.

Record state := mkState {
  heap : gmap nat node;
  head_ : nat;
  tail_ : nat;
  tail_view : gset nat;
  producers : gmap nat producer;
  reader : consumer;
  fresh : nat;
  order : list (nat * T);    (* the nodes exchanged into [tail_], in that order *)
  popped : list T;           (* the items [pop] has returned *)
  faulty : bool
}.

Definition accessible (h : gmap nat node) (v : gset nat) (n : nat) : bool :=
  bool_decide (is_Some (h !! n) ∧ n ∈ v).

Definition link (n : nat) (v : gset nat) (nd : node) : node := mkNode (data nd) (Some n) v.

Inductive step : state → state → Prop :=
  | push_new h hd tl tv ps k f o pp e tid item v :
      ps !! tid = Some (mkProd PIdle v) →
      step (mkState h hd tl tv ps k f o pp e)
           (mkState (<[f := mkNode item None ∅]> h) hd tl tv
              (<[tid := mkProd (PNew f item) ({[f]} ∪ v)]> ps) k (S f) o pp e)
  | push_exchange h hd tl tv ps k f o pp e tid n item v :
      ps !! tid = Some (mkProd (PNew n item) v) →
      step (mkState h hd tl tv ps k f o pp e)
           (mkState h hd n (v ∪ tv) (<[tid := mkProd (PSwapped n tl) (v ∪ tv)]> ps) k f
              (o ++ [(n, item)]) pp e)
  | push_link h hd tl tv ps k f o pp e tid n prev v :
      ps !! tid = Some (mkProd (PSwapped n prev) v) →
      step (mkState h hd tl tv ps k f o pp e)
           (mkState (alter (link n v) prev h) hd tl tv (<[tid := mkProd PIdle v]> ps) k f o pp
              (negb (accessible h v prev) || e))
  | pop_load h hd tl tv ps v f o pp e :
      step (mkState h hd tl tv ps (mkCons CIdle v) f o pp e)
           (mkState h hd tl tv ps (mkCons (CHead hd) v) f o pp e)
  | pop_empty h hd tl tv ps l v f o pp e :
      step (mkState h hd tl tv ps (mkCons (CHead l) v) f o pp e)
           (mkState h hd tl tv ps (mkCons CIdle v) f o pp (negb (accessible h v l) || e))
  | pop_next h hd tl tv ps l v f o pp e nd n :
      h !! l = Some nd → next nd = Some n →
      step (mkState h hd tl tv ps (mkCons (CHead l) v) f o pp e)
           (mkState h hd tl tv ps (mkCons (CNext l n) (v ∪ next_view nd)) f o pp
              (negb (accessible h v l) || e))
  | pop_data h hd tl tv ps l n v f o pp e :
      step (mkState h hd tl tv ps (mkCons (CNext l n) v) f o pp e)
           (mkState h hd tl tv ps
              (mkCons (CData l n (match h !! n with Some nd => data nd | None => initial_item end)) v)
              f o pp (negb (accessible h v n) || e))
  | pop_store h hd tl tv ps l n x v f o pp e :
      step (mkState h hd tl tv ps (mkCons (CData l n x) v) f o pp e)
           (mkState h n tl tv ps (mkCons (CStored l x) v) f o pp e)
  | pop_delete h hd tl tv ps l x v f o pp e :
      step (mkState h hd tl tv ps (mkCons (CStored l x) v) f o pp e)
           (mkState (delete l h) hd tl tv ps (mkCons CIdle v) f o (pp ++ [x])
              (negb (accessible h v l) || e)).

(** The constructor: a stub, known to every thread. *)
Inductive initial : state → Prop :=
  | initial_intro ps :
      map_Forall (λ _ p, p = mkProd PIdle {[0%nat]}) ps →
      initial (mkState {[0%nat := mkNode initial_item None ∅]} 0 0 {[0%nat]} ps
                 (mkCons CIdle {[0%nat]}) 1 [] [] false).

(** The destructor, with the deletions it makes. *)
Fixpoint destroy (fuel : nat) (h : gmap nat node) (n : option nat) : outcome (gmap nat node) :=
  match n with
  | None => Ok h
  | Some l =>
      match fuel with
      | O => Fault Diverges
      | S fuel =>
          match h !! l with
          | None => Fault OutOfBounds
          | Some nd => destroy fuel (delete l h) (next nd)
          end
      end
  end.
End Model.
Arguments node : clear implicits.
Arguments push_pc : clear implicits.
Arguments pop_pc : clear implicits.
Arguments producer : clear implicits.
Arguments consumer : clear implicits.
Arguments state : clear implicits.

(** ** The invariant *)
Section Invariant.
Context {T : Type} (initial_item : T).
Abbreviation state := (state T).

(** The stub and the nodes exchanged so far: consecutive ones are linked, or a producer
    is about to link them. *)
Definition chain (s : state) : list nat := 0%nat :: (order s).*1.


Definition owns (p : producer T) (n : nat) : Prop :=
  match ppc p with PIdle => False | PNew m _ => m = n | PSwapped m _ => m = n end.

Definition producer_ok (s : state) (p : producer T) : Prop :=
  match ppc p with
  | PIdle => True
  | PNew n x => heap s !! n = Some (mkNode x None ∅) ∧ (n ∉ chain s) ∧ n ∈ pview p
  | PSwapped n prev =>
      n ∈ pview p ∧ prev ∈ pview p ∧
      ∃ j nd, chain s !! j = Some prev ∧ chain s !! S j = Some n ∧
        heap s !! prev = Some nd ∧ next nd = None
  end.

Definition node_ok (s : state) (j : nat) (n : nat) (nd : node T) : Prop :=
  (∀ i, j = S i → ∃ x, order s !! i = Some (n, x) ∧ data nd = x) ∧
  match next nd with
  | Some m => chain s !! S j = Some m ∧ m ∈ next_view nd
  | None => ∀ m, chain s !! S j = Some m →
      ∃ tid p, producers s !! tid = Some p ∧ ppc p = PSwapped m n
  end.

Definition reader_ok (s : state) : Prop :=
  let f := length (popped s) in
  match cpc (reader s) with
  | CIdle => chain s !! f = Some (head_ s) ∧ head_ s ∈ cview (reader s)
  | CHead hd => chain s !! f = Some (head_ s) ∧ hd = head_ s ∧ hd ∈ cview (reader s)
  | CNext hd n =>
      chain s !! f = Some (head_ s) ∧ hd = head_ s ∧ hd ∈ cview (reader s) ∧
      n ∈ cview (reader s) ∧ (∃ nd, heap s !! hd = Some nd ∧ next nd = Some n)
  | CData hd n x =>
      chain s !! f = Some (head_ s) ∧ hd = head_ s ∧ hd ∈ cview (reader s) ∧
      n ∈ cview (reader s) ∧ (∃ nd, heap s !! hd = Some nd ∧ next nd = Some n) ∧
      order s !! f = Some (n, x)
  | CStored hd x =>
      chain s !! f = Some hd ∧ hd ∈ cview (reader s) ∧ head_ s ∈ cview (reader s) ∧
      (∃ nd, heap s !! hd = Some nd ∧ next nd = Some (head_ s)) ∧
      order s !! f = Some (head_ s, x)
  end.

Record inv (s : state) : Prop := {
  inv_nodup : NoDup (chain s);
  inv_fresh n : n ∈ chain s ∨ is_Some (heap s !! n) → (n < fresh s)%nat;
  inv_live j n : (length (popped s) ≤ j)%nat → chain s !! j = Some n →
    ∃ nd, heap s !! n = Some nd ∧ node_ok s j n nd;
  inv_producers tid p : producers s !! tid = Some p → producer_ok s p;
  inv_owners tid tid' p p' n : producers s !! tid = Some p → producers s !! tid' = Some p' →
    owns p n → owns p' n → tid = tid';
  inv_heap n : is_Some (heap s !! n) →
    (∃ j, (length (popped s) ≤ j)%nat ∧ chain s !! j = Some n) ∨
    (∃ tid p x, producers s !! tid = Some p ∧ ppc p = PNew n x);
  inv_tail : last (chain s) = Some (tail_ s) ∧ tail_ s ∈ tail_view s;
  inv_reader : reader_ok s;
  inv_popped : popped s = take (length (popped s)) ((order s).*2);
  inv_count : (length (popped s) ≤ length (order s))%nat;
  inv_faultless : faulty s = false
}.
(** The fields of a state written out, and nothing else. *)
Ltac fields :=
  cbn [heap head_ tail_ tail_view producers reader fresh order popped faulty] in *.

Implicit Types (s : state) (h : gmap nat (node T)) (ps : gmap nat (producer T)).

Lemma queue_inv_initial s : initial initial_item s → inv s.
Proof.
  intros [ps Hps]. split; simpl; try done.
  - apply NoDup_singleton.
  - intros n [->%list_elem_of_singleton|[? [<- _]%lookup_singleton_Some]]; lia.
  - intros j n _ [-> <-]%list_lookup_singleton_Some. eexists.
    split; [by apply lookup_singleton_Some|]. split; [by intros ? [=]|]. by intros m ?.
  - intros tid p Hp. apply (map_Forall_lookup_1 _ _ _ _ Hps) in Hp as ->. done.
  - intros tid tid' p p' n Hp _. apply (map_Forall_lookup_1 _ _ _ _ Hps) in Hp as ->. done.
  - intros n [? [<- _]%lookup_singleton_Some]. left. by exists 0%nat.
Qed.

Lemma chain_bounds s j n : chain s !! j = Some n → (j ≤ length (order s))%nat.
Proof. intros Hj%lookup_lt_Some. unfold chain in Hj. simpl in Hj. rewrite length_fmap in Hj. lia. Qed.

(** The reader's node, and the node after it, are alive. *)
Lemma live_node s n :
  inv s → chain s !! length (popped s) = Some n → is_Some (heap s !! n).
Proof.
  intros Hs Hn. destruct (inv_live _ Hs (length (popped s)) n) as (nd & ? & _); [lia|done|].
  by exists nd.
Qed.

Lemma producer_swapped s tid n prev v :
  inv s → producers s !! tid = Some (mkProd (PSwapped n prev) v) →
  n ∈ v ∧ prev ∈ v ∧ ∃ j nd, chain s !! j = Some prev ∧ chain s !! S j = Some n ∧
    heap s !! prev = Some nd ∧ next nd = None ∧ (length (popped s) ≤ j)%nat.
Proof.
  intros Hs Hp. pose proof (inv_producers _ Hs _ _ Hp) as (Hn & Hprev & j & nd & Hj & HSj & Hh & Hnx).
  split; [done|]. split; [done|]. exists j, nd. split_and!; try done.
  destruct (inv_heap _ Hs prev ltac:(by exists nd)) as [(j' & ? & Hj')|(tid' & p' & x & Hp' & Hpc)].
  - assert (j = j') as ->; [|done]. by eapply NoDup_lookup; [apply inv_nodup| |].
  - pose proof (inv_producers _ Hs _ _ Hp') as Hok. unfold producer_ok in Hok. rewrite Hpc in Hok.
    destruct Hok as (_ & Hnin & _). destruct Hnin. by eapply list_elem_of_lookup_2.
Qed.

Lemma chain_app s s' ext : order s' = order s ++ ext → chain s' = chain s ++ ext.*1.
Proof. unfold chain. intros ->. by rewrite fmap_app. Qed.

(** A producer's step keeps linked nodes as they are and may append to the chain. *)
Lemma reader_ok_frame s s' ext :
  reader s' = reader s → head_ s' = head_ s → popped s' = popped s → order s' = order s ++ ext →
  (∀ n nd m, heap s !! n = Some nd → next nd = Some m → heap s' !! n = Some nd) →
  reader_ok s → reader_ok s'.
Proof.
  intros Hr Hhd Hp Ho Hh Hok. unfold reader_ok in *. rewrite Hr, Hhd, Hp, (chain_app _ _ _ Ho), Ho.
  assert (∀ j n, chain s !! j = Some n → (chain s ++ ext.*1) !! j = Some n) as Hc
    by (intros; by apply lookup_app_l_Some).
  assert (∀ j n, order s !! j = Some n → (order s ++ ext) !! j = Some n) as Hor
    by (intros; by apply lookup_app_l_Some).
  destruct (cpc (reader s)); naive_solver.
Qed.

(** *** Steps of a producer *)

(** A producer that has done something else is not the one that moves. *)
Lemma other_producer ps tid p0 p1 tid' p' :
  ps !! tid = Some p0 → ps !! tid' = Some p' → ppc p' ≠ ppc p0 → <[tid := p1]> ps !! tid' = Some p'.
Proof. intros Hp Hp' Hne. rewrite lookup_insert_ne; [done|]. intros ->. congruence. Qed.

(** A producer's node was allocated. *)
Lemma owned_old s tid p n :
  inv s → producers s !! tid = Some p → owns p n → (n < fresh s)%nat.
Proof.
  intros Hs Hp Ho. pose proof (inv_producers _ Hs _ _ Hp) as Hok. apply (inv_fresh _ Hs).
  unfold owns, producer_ok in *. destruct (ppc p) as [|m x|m prev]; [done|subst m|subst m].
  - destruct Hok as (Hh & _). right. by eexists.
  - destruct Hok as (_ & _ & j & nd & _ & Hj & _). left. by apply list_elem_of_lookup_2 in Hj.
Qed.

Lemma inv_push_new h hd tl tv ps k f o pp e tid item v :
  inv (mkState h hd tl tv ps k f o pp e) → ps !! tid = Some (mkProd PIdle v) →
  inv (mkState (<[f := mkNode item None ∅]> h) hd tl tv
         (<[tid := mkProd (PNew f item) ({[f]} ∪ v)]> ps) k (S f) o pp e).
Proof.
  intros Hs Hp. set (s := mkState h _ _ _ _ _ _ _ _ _) in *.
  assert (∀ n, is_Some (h !! n) → n ≠ f) as Hf.
  { intros n Hn ->. pose proof (inv_fresh _ Hs f ltac:(by right)). simpl in *. lia. }
  assert (∀ n nd, h !! n = Some nd → <[f := mkNode item None ∅]> h !! n = Some nd) as Hkeep.
  { intros n nd Hn. rewrite lookup_insert_ne; [done|]. intros ->. by eapply Hf; [by exists nd|]. }
  assert (f ∉ chain s) as Hfc.
  { intros Hin. pose proof (inv_fresh _ Hs f ltac:(by left)). simpl in *. lia. }
  split; simpl.
  - apply (inv_nodup _ Hs).
  - intros n [Hn|Hn]; [specialize (inv_fresh _ Hs n ltac:(by left)); simpl; lia|].
    destruct (decide (n = f)) as [->|]; [lia|]. rewrite lookup_insert_ne in Hn by done.
    specialize (inv_fresh _ Hs n ltac:(by right)). simpl. lia.
  - intros j n Hj Hn. destruct (inv_live _ Hs j n Hj Hn) as (nd & Hh & Hd & Hnx).
    exists nd. split; [by apply Hkeep|]. split; [done|]. destruct (next nd); [done|].
    intros m Hm. destruct (Hnx m Hm) as (tid' & p' & Hp' & Hpc). exists tid', p'.
    split; [|done]. by eapply other_producer; [..|rewrite Hpc].
  - intros tid' p' [[<- <-]|[Hne Hp']]%lookup_insert_Some.
    + split_and!; simpl; [by rewrite lookup_insert_eq|done|set_solver].
    + pose proof (inv_producers _ Hs _ _ Hp') as Hok. unfold producer_ok in *. destruct (ppc p'); [done| |].
      * destruct Hok as (? & ? & ?). split_and!; [by apply Hkeep|done|done].
      * destruct Hok as (? & ? & j & nd & ? & ? & ? & ?). split_and!; [done..|].
        exists j, nd. split_and!; [done|done|by apply Hkeep|done].
  - intros tid1 tid2 p1 p2 n H1 H2 Ho1 Ho2.
    assert (∀ t p, ps !! t = Some p → owns p n → n ≠ f) as Hold.
    { intros t p Ht Ho ->. pose proof (owned_old s t p f Hs Ht Ho). simpl in *. lia. }
    apply lookup_insert_Some in H1 as [[<- <-]|[? H1]], H2 as [[<- <-]|[? H2]]; [done|..].
    + unfold owns in Ho1. simpl in Ho1. by destruct (Hold _ _ H2 Ho2).
    + unfold owns in Ho2. simpl in Ho2. by destruct (Hold _ _ H1 Ho1).
    + by eapply (inv_owners _ Hs).
  - intros n Hn. destruct (decide (n = f)) as [->|].
    { right. exists tid. eexists _, item. by rewrite lookup_insert_eq. }
    rewrite lookup_insert_ne in Hn by done.
    destruct (inv_heap _ Hs n Hn) as [?|(tid' & p' & x & Hp' & Hpc)]; [by left|right].
    exists tid', p', x. split; [|done]. by eapply other_producer; [..|rewrite Hpc].
  - apply (inv_tail _ Hs).
  - apply (reader_ok_frame s _ []); simpl; try done; [by rewrite app_nil_r|by eauto|].
    apply (inv_reader _ Hs).
  - apply (inv_popped _ Hs).
  - apply (inv_count _ Hs).
  - apply (inv_faultless _ Hs).
Qed.
Lemma chain_snoc s n : (chain s ++ [n]) !! S (length (order s)) = Some n.
Proof.
  rewrite lookup_app_r by (unfold chain; simpl; rewrite length_fmap; lia).
  unfold chain. simpl. by rewrite length_fmap, Nat.sub_diag.
Qed.

Lemma chain_snoc_inv s j n m :
  (chain s ++ [n]) !! j = Some m →
  chain s !! j = Some m ∨ (j = S (length (order s)) ∧ m = n).
Proof.
  intros [Hj|[Hle Hj]]%lookup_app_Some; [by left|right].
  apply list_lookup_singleton_Some in Hj as [Hj <-].
  unfold chain in *. simpl in *. rewrite length_fmap in *. split; [lia|done].
Qed.

(** The last node exchanged is not linked to anything. *)
Lemma tail_unlinked s :
  inv s → chain s !! length (order s) = Some (tail_ s) ∧
  ∃ nd, heap s !! tail_ s = Some nd ∧ next nd = None.
Proof.
  intros Hs. pose proof (proj1 (inv_tail _ Hs)) as Hl. rewrite last_lookup in Hl.
  unfold chain in Hl. simpl in Hl. rewrite length_fmap in Hl. fold (chain s) in Hl.
  split; [done|]. destruct (inv_live _ Hs _ _ (inv_count _ Hs) Hl) as (nd & Hh & _ & Hnx).
  exists nd. split; [done|]. destruct (next nd) as [m|]; [|done].
  destruct Hnx as [Hm%chain_bounds _]. lia.
Qed.

(** The nodes of the queue after an exchange: those before it, and the new one. *)
Lemma exchange_live h hd tl tv ps k f o pp e tid n item v j m :
  let s := mkState h hd tl tv ps k f o pp e in
  let s' := mkState h hd n (v ∪ tv) (<[tid := mkProd (PSwapped n tl) (v ∪ tv)]> ps) k f
              (o ++ [(n, item)]) pp e in
  inv s → ps !! tid = Some (mkProd (PNew n item) v) → (length pp ≤ j)%nat → chain s' !! j = Some m →
  ∃ nd, h !! m = Some nd ∧ node_ok s' j m nd.
Proof.
  intros s s' Hs Hp Hj. assert (chain s' = chain s ++ [n]) as Hc by apply (chain_app s s' [(n, item)] eq_refl).
  pose proof (inv_producers _ Hs _ _ Hp) as (Hn & _ & _). destruct (tail_unlinked s Hs) as (Htl & _).
  rewrite Hc. intros [Hm|[-> ->]]%chain_snoc_inv.
  - destruct (inv_live _ Hs j m Hj Hm) as (nd & Hh & Hd & Hnx). exists nd. split; [done|]. split.
    { intros i ->. destruct (Hd i eq_refl) as (x & Hx & ?). exists x. split; [by apply lookup_app_l_Some|done]. }
    rewrite Hc. destruct (next nd) as [m'|].
    { destruct Hnx as [Hnx ?]. by rewrite (lookup_app_l_Some _ _ _ _ Hnx). }
    intros m' [Hm'|[Hlen ->]]%chain_snoc_inv.
    + destruct (Hnx m' Hm') as (t & p & Ht & Hpc). exists t, p. split; [|done].
      by eapply other_producer; [..|rewrite Hpc].
    + injection Hlen as ->. simpl in Htl. assert (m = tl) as -> by congruence.
      exists tid, (mkProd (PSwapped n tl) (v ∪ tv)). simpl. by rewrite lookup_insert_eq.
  - exists (mkNode item None ∅). split; [done|]. split.
    + intros i [= <-]. exists item. simpl. by rewrite lookup_app_r, Nat.sub_diag by lia.
    + cbn [next]. intros m Hm%chain_bounds. change (order s') with (o ++ [(n, item)]) in Hm.
      rewrite length_app in Hm. simpl in Hm. lia.
Qed.

Lemma inv_push_exchange h hd tl tv ps k f o pp e tid n item v :
  inv (mkState h hd tl tv ps k f o pp e) → ps !! tid = Some (mkProd (PNew n item) v) →
  inv (mkState h hd n (v ∪ tv) (<[tid := mkProd (PSwapped n tl) (v ∪ tv)]> ps) k f
         (o ++ [(n, item)]) pp e).
Proof.
  intros Hs Hp. set (s := mkState h _ _ _ _ _ _ _ _ _) in *. set (s' := mkState h _ _ _ _ _ _ _ _ _).
  assert (chain s' = chain s ++ [n]) as Hc by apply (chain_app s s' [(n, item)] eq_refl).
  pose proof (inv_producers _ Hs _ _ Hp) as (Hn & Hnc & Hnv). simpl in Hn, Hnv.
  destruct (tail_unlinked s Hs) as (Htl & ndt & Hht & Hnxt).
  assert (inv s'); [|done]. split; rewrite ?Hc; unfold s'; fields; fold s'.
  - apply NoDup_app. split; [apply (inv_nodup _ Hs)|]. split; [|apply NoDup_singleton].
    intros x Hx ->%list_elem_of_singleton. done.
  - intros m [[Hm| ->%list_elem_of_singleton]%elem_of_app|Hm]; apply (inv_fresh _ Hs);
      [by left|right; by eexists|by right].
  - intros j m Hj Hm. rewrite <-Hc in Hm. by apply (exchange_live h hd tl tv ps k f o pp e tid n item v j m).
  - intros t p [[<- <-]|[Hne Ht]]%lookup_insert_Some.
    + unfold producer_ok. cbn [ppc pview]. destruct (inv_tail _ Hs) as [_ Htv]. simpl in Htv.
      split; [set_solver|]. split; [set_solver|]. exists (length o), ndt. rewrite Hc.
      split; [by apply lookup_app_l_Some|]. split; [apply (chain_snoc s)|done].
    + pose proof (inv_producers _ Hs _ _ Ht) as Hok. unfold producer_ok in *. rewrite Hc.
      destruct (ppc p) as [|m x|m prev] eqn:Hpc; [done| |].
      * destruct Hok as (? & Hm & ?). split_and!; [done| |done].
        rewrite elem_of_app, list_elem_of_singleton. intros [?| ->]; [done|].
        apply Hne. apply (inv_owners _ Hs tid t _ p n Hp Ht); unfold owns; simpl; [done|by rewrite Hpc].
      * destruct Hok as (? & ? & j & nd & ? & ? & ? & ?). split_and!; [done..|].
        exists j, nd. split_and!; try done; by apply lookup_app_l_Some.
  - intros t1 t2 p1 p2 m H1 H2 Ho1 Ho2.
    assert (∀ t p, <[tid := mkProd (PSwapped n tl) (v ∪ tv)]> ps !! t = Some p → owns p m →
              ∃ p', ps !! t = Some p' ∧ owns p' m) as Hold.
    { intros t p [[<- <-]|[_ Ht]]%lookup_insert_Some Ho; [|by exists p].
      exists (mkProd (PNew n item) v). split; [done|]. exact Ho. }
    destruct (Hold _ _ H1 Ho1) as (q1 & ? & ?). destruct (Hold _ _ H2 Ho2) as (q2 & ? & ?).
    by eapply (inv_owners _ Hs).
  - intros m Hm. destruct (inv_heap _ Hs m Hm) as [(j & ? & Hj)|(t & p & x & Ht & Hpc)].
    + left. exists j. split; [done|]. by apply lookup_app_l_Some.
    + destruct (decide (t = tid)) as [->|].
      * simpl in Ht. rewrite Hp in Ht. injection Ht as <-. injection Hpc as -> ->. left.
        exists (S (length o)). split; [pose proof (inv_count _ Hs); simpl in *; lia|].
        apply (chain_snoc s).
      * right. exists t, p, x. by rewrite lookup_insert_ne.
  - split; [apply last_snoc|set_solver].
  - apply (reader_ok_frame s s' [(n, item)]); try done. apply (inv_reader _ Hs).
  - rewrite fmap_app, take_app_le; [apply (inv_popped _ Hs)|].
    rewrite length_fmap. apply (inv_count _ Hs).
  - rewrite length_app. pose proof (inv_count _ Hs). simpl in *. lia.
  - apply (inv_faultless _ Hs).
Qed.

Lemma inv_push_link h hd tl tv ps k f o pp e tid n prev v :
  inv (mkState h hd tl tv ps k f o pp e) → ps !! tid = Some (mkProd (PSwapped n prev) v) →
  inv (mkState (alter (link n v) prev h) hd tl tv (<[tid := mkProd PIdle v]> ps) k f o pp
         (negb (accessible h v prev) || e)).
Proof.
  intros Hs Hp. set (s := mkState h _ _ _ _ _ _ _ _ _) in *.
  destruct (producer_swapped s tid n prev v Hs Hp) as (Hnv & Hprev & j & nd & Hj & HSj & Hh & Hnx & Hle).
  assert (∀ t p m q, ps !! t = Some p → ppc p = PSwapped m q → q = prev → t = tid) as Hone.
  { intros t [pc w] m q Ht Hpc ->. simpl in Hpc. subst pc.
    destruct (producer_swapped s t m prev w Hs Ht) as (_ & _ & j' & ? & Hj' & HSj' & _).
    assert (j' = j) as -> by (by eapply NoDup_lookup; [apply (inv_nodup _ Hs)| |]).
    assert (m = n) as -> by congruence.
    by apply (inv_owners _ Hs t tid _ _ n Ht Hp). }
  split; simpl.
  - apply (inv_nodup _ Hs).
  - intros m Hm. apply (inv_fresh _ Hs). destruct Hm as [|Hm]; [by left|right].
    by rewrite lookup_alter_is_Some in Hm.
  - intros j' m Hj' Hm. destruct (inv_live _ Hs j' m Hj' Hm) as (nd' & Hh' & Hd & Hnx').
    destruct (decide (m = prev)) as [->|Hne].
    + assert (j' = j) as -> by (by eapply NoDup_lookup; [apply (inv_nodup _ Hs)| |]).
      exists (link n v nd'). simpl in Hh'. rewrite lookup_alter_eq, Hh'. split; [done|]. by split.
    + exists nd'. rewrite lookup_alter_ne by done. split; [done|]. split; [done|].
      destruct (next nd'); [done|]. intros m' Hm'.
      destruct (Hnx' m' Hm') as (t & p & Ht & Hpc). exists t, p. split; [|done].
      eapply other_producer; [done|done|]. rewrite Hpc. simpl. congruence.
  - intros t p [[<- <-]|[Hne Ht]]%lookup_insert_Some; [done|].
    pose proof (inv_producers _ Hs _ _ Ht) as Hok. unfold producer_ok in *.
    destruct (ppc p) as [|m x|m q] eqn:Hpc; [done| |].
    + destruct Hok as (? & Hm & ?). split_and!; [|done|done]. simpl.
      rewrite lookup_alter_ne; [done|]. intros ->. apply Hm. by eapply list_elem_of_lookup_2.
    + destruct Hok as (? & ? & j' & nd' & ? & ? & ? & ?). split_and!; [done..|].
      exists j', nd'. split_and!; try done. simpl. rewrite lookup_alter_ne; [done|]. intros <-.
      by apply Hne; symmetry; apply (Hone t p m prev).
  - intros t1 t2 p1 p2 m [[<- <-]|[? H1]]%lookup_insert_Some [[<- <-]|[? H2]]%lookup_insert_Some;
      try done. by eapply (inv_owners _ Hs).
  - intros m Hm. rewrite lookup_alter_is_Some in Hm.
    destruct (inv_heap _ Hs m Hm) as [?|(t & p & x & Ht & Hpc)]; [by left|right].
    exists t, p, x. split; [|done]. by eapply other_producer; [..|rewrite Hpc].
  - apply (inv_tail _ Hs).
  - apply (reader_ok_frame s _ []); simpl; try done; [by rewrite app_nil_r| |apply (inv_reader _ Hs)].
    intros m nd' m' Hm Hm'. rewrite lookup_alter_ne; [done|]. intros ->. simpl in Hh. congruence.
  - apply (inv_popped _ Hs).
  - apply (inv_count _ Hs).
  - pose proof (inv_faultless _ Hs) as He. simpl in He. rewrite He, orb_false_r. apply negb_false_iff, bool_decide_eq_true.
    split; [by exists nd|done].
Qed.
(** *** Steps of the consumer *)

(** A step that changes only the reader's own state and reads a node in its view. *)
Lemma inv_reader_step h hd hd' tl tv ps k k' f o pp e e' :
  inv (mkState h hd tl tv ps k f o pp e) →
  (e = false → e' = false) →
  reader_ok (mkState h hd' tl tv ps k' f o pp e') →
  inv (mkState h hd' tl tv ps k' f o pp e').
Proof.
  intros Hs He Hr. destruct Hs as [????????? ? Hf]. split; try done. by apply He.
Qed.

Lemma accessible_chain s v n :
  inv s → chain s !! length (popped s) = Some n → n ∈ v →
  negb (accessible (heap s) v n) || faulty s = false.
Proof.
  intros Hs Hn Hv. rewrite (inv_faultless _ Hs), orb_false_r.
  apply negb_false_iff, bool_decide_eq_true. split; [by eapply live_node|done].
Qed.

(** The node after the reader's is linked, hence alive and known to its reader. *)
Lemma next_live s hd n nd :
  inv s → chain s !! length (popped s) = Some hd → heap s !! hd = Some nd → next nd = Some n →
  n ∈ next_view nd ∧ chain s !! S (length (popped s)) = Some n ∧
  ∃ x nd', order s !! length (popped s) = Some (n, x) ∧ heap s !! n = Some nd' ∧ data nd' = x.
Proof.
  intros Hs Hhd Hh Hnx.
  destruct (inv_live _ Hs _ _ (le_n _) Hhd) as (nd1 & Hh1 & _ & Hnx1).
  assert (nd1 = nd) as -> by congruence. rewrite Hnx in Hnx1. destruct Hnx1 as [Hc Hv].
  split; [done|]. split; [done|].
  destruct (inv_live _ Hs (S (length (popped s))) n ltac:(lia) Hc) as (nd' & Hh' & Hd & _).
  destruct (Hd _ eq_refl) as (x & Hx & <-). by exists (data nd'), nd'.
Qed.

Lemma inv_pop_delete h hd tl tv ps l x v f o pp e :
  inv (mkState h hd tl tv ps (mkCons (CStored l x) v) f o pp e) →
  inv (mkState (delete l h) hd tl tv ps (mkCons CIdle v) f o (pp ++ [x])
         (negb (accessible h v l) || e)).
Proof.
  intros Hs. set (s := mkState h _ _ _ _ _ _ _ _ _) in *.
  pose proof (inv_reader _ Hs) as (Hl & Hlv & Hhdv & (nd & Hh & Hnx) & Ho).
  destruct (next_live s l hd nd Hs Hl Hh Hnx) as (_ & Hc & _).
  pose proof (inv_popped _ Hs) as Hpp. pose proof (accessible_chain s v l Hs Hl Hlv) as He.
  assert (∀ j n, chain s !! j = Some n → (length pp < j)%nat → n ≠ l) as Hne.
  { intros j n Hj Hlt ->. assert (j = length pp); [|lia].
    by eapply NoDup_lookup; [apply (inv_nodup _ Hs)| |]. }
  assert (length (pp ++ [x]) = S (length pp)) as Hlen by (rewrite length_app; simpl; lia).
  split; fields.
  - apply (inv_nodup _ Hs).
  - intros n Hn. apply (inv_fresh _ Hs). destruct Hn as [|[nd' [_ ?]%lookup_delete_Some]]; [by left|].
    right. by exists nd'.
  - intros j n Hj Hn. rewrite Hlen in Hj.
    destruct (inv_live _ Hs j n ltac:(simpl; lia) Hn) as (nd' & Hh' & ?).
    exists nd'. split; [|done]. apply lookup_delete_Some. split; [|done].
    apply not_eq_sym. eapply Hne; [done|lia].
  - intros t p Ht. pose proof (inv_producers _ Hs t p Ht) as Hok. unfold producer_ok in *.
    destruct (ppc p) as [|n y|n prev] eqn:Hpc; [done| |].
    + destruct Hok as (? & Hn & ?). split_and!; [|done|done]. apply lookup_delete_Some.
      split; [|done]. intros ->. apply Hn. by eapply list_elem_of_lookup_2.
    + destruct Hok as (? & ? & j & nd' & ? & ? & ? & ?). split_and!; [done..|].
      exists j, nd'. split_and!; try done. apply lookup_delete_Some.
      split; [|done]. intros ->. simpl in *. congruence.
  - apply (inv_owners _ Hs).
  - intros n [nd' [Hnl Hn]%lookup_delete_Some].
    destruct (inv_heap _ Hs n ltac:(by exists nd')) as [(j & Hj & Hcj)|?]; [left|by right].
    exists j. split; [|done]. rewrite Hlen. simpl in Hj.
    assert (j ≠ length pp); [|lia]. intros ->. simpl in Hl. congruence.
  - apply (inv_tail _ Hs).
  - unfold reader_ok. cbn [cpc reader popped head_ cview]. rewrite Hlen. done.
  - rewrite Hlen. simpl in Ho, Hpp.
    rewrite (take_S_r _ _ x), <-Hpp; [done|]. by rewrite list_lookup_fmap, Ho.
  - rewrite Hlen. apply lookup_lt_Some in Ho. simpl in Ho. lia.
  - exact He.
Qed.

Lemma queue_inv_step s s' : inv s → step initial_item s s' → inv s'.
Proof.
  intros Hs Hst. destruct Hst; try (pose proof (inv_reader _ Hs) as Hr; unfold reader_ok in Hr;
                                     cbn [cpc reader cview head_ popped] in Hr).
  - by apply inv_push_new.
  - by apply inv_push_exchange.
  - by apply inv_push_link.
  - eapply inv_reader_step; [exact Hs|done|]. unfold reader_ok. simpl. naive_solver.
  - destruct Hr as (Hc & -> & Hv). eapply inv_reader_step; [exact Hs| |done].
    intros _. exact (accessible_chain _ _ _ Hs Hc Hv).
  - destruct Hr as (Hc & -> & Hv).
    destruct (next_live _ _ _ _ Hs Hc H H0) as (Hnv & _).
    eapply inv_reader_step; [exact Hs| |].
    + intros _. exact (accessible_chain _ _ _ Hs Hc Hv).
    + unfold reader_ok. simpl. split_and!; [done|done|set_solver|set_solver|by exists nd].
  - destruct Hr as (Hc & -> & Hv & Hnv & nd & Hh & Hnx).
    destruct (next_live _ _ _ _ Hs Hc Hh Hnx) as (_ & Hc' & x & nd' & Ho & Hh' & Hd).
    simpl in Hh'. rewrite Hh', Hd. eapply inv_reader_step; [exact Hs| |].
    + intros ->. rewrite orb_false_r. apply negb_false_iff, bool_decide_eq_true.
      split; [by exists nd'|done].
    + unfold reader_ok. simpl. split_and!; [done..|by exists nd|done].
  - destruct Hr as (Hc & -> & Hv & Hnv & Hh & Ho). eapply inv_reader_step; [exact Hs|done|]. done.
  - by apply inv_pop_delete.
Qed.

Lemma queue_reachable_inv s : reachable (initial initial_item) (step initial_item) s → inv s.
Proof. apply reachable_invariant; [apply queue_inv_initial|apply queue_inv_step]. Qed.
Lemma destroy_chain (ns : list nat) fuel j h :
  NoDup ns →
  (∀ i n, (j ≤ i)%nat → ns !! i = Some n → ∃ nd, h !! n = Some nd ∧ next nd = ns !! S i) →
  (∀ n, is_Some (h !! n) → ∃ i, (j ≤ i)%nat ∧ ns !! i = Some n) →
  (length ns ≤ j + fuel)%nat →
  destroy fuel h (ns !! j) = Ok ∅.
Proof.
  intros Hnd. revert j h. induction fuel as [|fuel IH]; intros j h Hl Hd Hlen;
    destruct (ns !! j) as [n|] eqn:Hj; simpl.
  - apply lookup_lt_Some in Hj. lia.
  - f_equal. apply map_eq. intros n. rewrite lookup_empty. apply eq_None_not_Some.
    intros (i & Hi & Hn%lookup_lt_Some)%Hd. apply lookup_ge_None in Hj. lia.
  - destruct (Hl j n (le_n _) Hj) as (nd & -> & ->). apply IH; [| |lia].
    + intros i m Hi Hm. destruct (Hl i m ltac:(lia) Hm) as (nd' & ? & ?). exists nd'.
      split; [|done]. apply lookup_delete_Some. split; [|done]. intros <-.
      assert (i = j); [by eapply NoDup_lookup|lia].
    + intros m [nd' [Hne Hm]%lookup_delete_Some].
      destruct (Hd m ltac:(by exists nd')) as (i & Hi & Him). exists i. split; [|done].
      assert (i ≠ j); [|lia]. intros ->. congruence.
  - f_equal. apply map_eq. intros n. rewrite lookup_empty. apply eq_None_not_Some.
    intros (i & Hi & Hn%lookup_lt_Some)%Hd. apply lookup_ge_None in Hj. lia.
Qed.

(** When no push is under way the whole chain is linked. *)
Definition settled s : Prop := ∀ tid p n prev, producers s !! tid = Some p → ppc p ≠ PSwapped n prev.

Lemma settled_next s j n :
  inv s → settled s → (length (popped s) ≤ j)%nat → chain s !! j = Some n →
  ∃ nd, heap s !! n = Some nd ∧ next nd = chain s !! S j.
Proof.
  intros Hs Hset Hj Hn. destruct (inv_live _ Hs j n Hj Hn) as (nd & Hh & _ & Hnx).
  exists nd. split; [done|]. destruct (next nd) as [m|]; [by destruct Hnx|].
  destruct (chain s !! S j) as [m|]; [|done].
  destruct (Hnx m eq_refl) as (tid & p & Hp & Hpc). by destruct (Hset tid p m n Hp).
Qed.

(** ** Properties *)

(** C14: items come out exactly once and in the order of the exchanges on [tail_]: in
    every reachable state of any number of producers and one consumer, what [pop] has
    returned is a prefix of what was exchanged in. *)
Theorem mpsc_pops_in_exchange_order s
    (Hs : reachable (initial initial_item) (step initial_item) s) :
  popped s = take (length (popped s)) ((order s).*2) ∧
  (length (popped s) ≤ length (order s))%nat.
Proof. apply queue_reachable_inv in Hs. split; [apply (inv_popped _ Hs)|apply (inv_count _ Hs)]. Qed.

(** C15: no reachable state has accessed a deleted node, or a node whose construction
    does not happen before the access: deleting the old head at once is safe. *)
Theorem mpsc_memory_safe s (Hs : reachable (initial initial_item) (step initial_item) s) :
  faulty s = false.
Proof. by apply inv_faultless, queue_reachable_inv. Qed.

(** Once every call has returned, the destructor ends, touches only live nodes and
    deletes every node left, the current stub included. *)
Lemma mpsc_destructor_frees_all s
    (Hs : reachable (initial initial_item) (step initial_item) s)
    (Hidle : map_Forall (λ _ p, ppc p = PIdle) (producers s)) (Hreader : cpc (reader s) = CIdle) :
  destroy (S (length (order s))) (heap s) (Some (head_ s)) = Ok ∅.
Proof.
  apply queue_reachable_inv in Hs. pose proof (inv_reader _ Hs) as Hr. unfold reader_ok in Hr.
  rewrite Hreader in Hr. destruct Hr as [<- _].
  assert (settled s) as Hset.
  { intros tid p n prev Hp. by rewrite (map_Forall_lookup_1 _ _ _ _ Hidle Hp). }
  apply destroy_chain.
  - apply (inv_nodup _ Hs).
  - intros i n Hi Hn. by apply settled_next.
  - intros n Hn. destruct (inv_heap _ Hs n Hn) as [?|(tid & p & x & Hp & Hpc)]; [done|].
    by rewrite (map_Forall_lookup_1 _ _ _ _ Hidle Hp) in Hpc.
  - unfold chain. simpl. rewrite length_fmap. lia.
Qed.

(** With no push between its exchange and its link, a [pop] that has loaded [head_]
    while items are left finds, in the latest value of [head->next], the node of the
    next item in exchange order. *)
Lemma mpsc_pop_finds_item s hd
    (Hs : reachable (initial initial_item) (step initial_item) s) (Hset : settled s)
    (Hpc : cpc (reader s) = CHead hd) (Hleft : (length (popped s) < length (order s))%nat) :
  ∃ nd n x nd', heap s !! hd = Some nd ∧ next nd = Some n ∧
    order s !! length (popped s) = Some (n, x) ∧ heap s !! n = Some nd' ∧ data nd' = x.
Proof.
  apply queue_reachable_inv in Hs. pose proof (inv_reader _ Hs) as Hr. unfold reader_ok in Hr.
  rewrite Hpc in Hr. destruct Hr as (Hc & -> & _).
  destruct (settled_next s _ _ Hs Hset (le_n _) Hc) as (nd & Hh & Hnx).
  destruct (lookup_lt_is_Some_2 (order s) (length (popped s)) Hleft) as [[n x] Ho].
  assert (chain s !! S (length (popped s)) = Some n) as Hn.
  { unfold chain. simpl. by rewrite list_lookup_fmap, Ho. }
  rewrite Hn in Hnx. destruct (next_live s _ _ _ Hs Hc Hh Hnx) as (_ & _ & y & nd' & Hy & ? & ?).
  exists nd, n, y, nd'. rewrite Ho in Hy. split_and!; try done. congruence.
Qed.
End Invariant.

(** ** Two producers *)
Abbreviation demo_reachable := (reachable (initial 0) (step 0)).

Definition idle : producer Z := mkProd PIdle {[0%nat]}.
Definition known : consumer Z := mkCons CIdle {[0%nat]}.
Definition heap0 : gmap nat (node Z) := {[0%nat := mkNode 0 None ∅]}.
Definition threads0 : gmap nat (producer Z) := {[0%nat := idle; 1%nat := idle]}.

(** Producer 0 has constructed a node for item 7 and exchanged it into [tail_]. *)
Definition heap1 := <[1%nat := mkNode 7 None ∅]> heap0.
Definition view1 : gset nat := ({[1%nat]} ∪ {[0%nat]}) ∪ {[0%nat]}.
Definition threads1 :=
  <[0%nat := mkProd (PSwapped 1 0) view1]> (<[0%nat := mkProd (PNew 1 7) ({[1%nat]} ∪ {[0%nat]})]> threads0).
Definition swapped_state : state Z :=
  mkState heap1 0 1 view1 threads1 known 2 [(1%nat, 7)] [] false.

Lemma swapped_reachable : demo_reachable swapped_state.
Proof.
  eapply reachable_step; [eapply reachable_step|].
  - apply reachable_init. apply (initial_intro 0 threads0). intros i p Hp.
    unfold threads0 in Hp. apply lookup_insert_Some in Hp as [[_ <-]|[_ Hp]]; [done|].
    by apply lookup_singleton_Some in Hp as [_ <-].
  - by apply (push_new 0 heap0 0 0 {[0%nat]} threads0 known 1 [] [] false 0 7 {[0%nat]}).
  - by apply (push_exchange 0 _ 0 0 {[0%nat]} _ known 2 [] [] false 0 1 7).
Qed.

(** It links the node, and the consumer starts a [pop]. *)
Definition linked_state : state Z :=
  mkState (alter (link 1 view1) 0%nat heap1) 0 1 view1 (<[0%nat := mkProd PIdle view1]> threads1)
    known 2 [(1%nat, 7)] [] false.
Definition popping_state : state Z :=
  mkState (alter (link 1 view1) 0%nat heap1) 0 1 view1 (<[0%nat := mkProd PIdle view1]> threads1)
    (mkCons (CHead 0) {[0%nat]}) 2 [(1%nat, 7)] [] false.

Lemma linked_reachable : demo_reachable linked_state.
Proof.
  eapply reachable_step; [apply swapped_reachable|].
  exact (push_link 0 heap1 0 1 view1 threads1 known 2 [(1%nat, 7)] [] false 0 1 0 view1 eq_refl).
Qed.

Lemma popping_reachable : demo_reachable popping_state.
Proof. eapply reachable_step; [apply linked_reachable|]. apply pop_load. Qed.

Lemma linked_idle : map_Forall (λ _ p, ppc p = PIdle) (producers linked_state).
Proof.
  intros i p Hp. unfold linked_state, threads1, threads0 in Hp. cbn [producers] in Hp.
  repeat (apply lookup_insert_Some in Hp as [[? <-]|[? Hp]]; [done|]).
  by apply lookup_singleton_Some in Hp as [_ <-].
Qed.

Lemma popping_settled : settled popping_state.
Proof.
  intros tid p n prev Hp. change (producers popping_state) with (producers linked_state) in Hp.
  by rewrite (map_Forall_lookup_1 _ _ _ _ linked_idle Hp).
Qed.

Lemma mpsc_pops_in_exchange_order_witness :
  popped popping_state = take 0 [7] ∧ (0 ≤ 1)%nat.
Proof. exact (mpsc_pops_in_exchange_order 0 popping_state popping_reachable). Defined.

Lemma mpsc_memory_safe_witness : faulty popping_state = false.
Proof. exact (mpsc_memory_safe 0 popping_state popping_reachable). Defined.

Lemma mpsc_destructor_frees_all_example :
  destroy 2 (heap linked_state) (Some 0%nat) = Ok ∅.
Proof.
  exact (mpsc_destructor_frees_all 0 linked_state linked_reachable linked_idle eq_refl).
Defined.

Lemma mpsc_pop_finds_item_example :
  ∃ nd n x nd', heap popping_state !! 0%nat = Some nd ∧ next nd = Some n ∧
    Some (1%nat, 7) = Some (n, x) ∧ heap popping_state !! n = Some nd' ∧ data nd' = x.
Proof.
  exact (mpsc_pop_finds_item 0 popping_state 0 popping_reachable popping_settled eq_refl (le_n 1)).
Defined.

(** A second producer pushes item 8 while the first has not linked item 7. *)
Definition view2 : gset nat := ({[2%nat]} ∪ {[0%nat]}) ∪ view1.
Definition threads2 := <[1%nat := mkProd (PSwapped 2 1) view2]>
  (<[1%nat := mkProd (PNew 2 8) ({[2%nat]} ∪ {[0%nat]})]> threads1).
Definition stalled_state : state Z :=
  mkState (alter (link 2 view2) 1%nat (<[2%nat := mkNode 8 None ∅]> heap1)) 0 2 view2
    (<[1%nat := mkProd PIdle view2]> threads2) (mkCons (CHead 0) {[0%nat]}) 3
    [(1%nat, 7); (2%nat, 8)] [] false.

(** A push that is preempted between its exchange and its link hides every later
    item: there is a reachable state in which another producer's [push] has returned,
    nothing has been popped, and the [next] the consumer is about to load is null, so
    that [pop] answers that the queue is empty. *)
Lemma mpsc_stalled_push_hides_later_items :
  ∃ s, demo_reachable s ∧ (order s).*2 = [7; 8] ∧ popped s = [] ∧
    producers s !! 1%nat = Some (mkProd PIdle view2) ∧ cpc (reader s) = CHead (head_ s) ∧
    ∃ nd, heap s !! head_ s = Some nd ∧ next nd = None.
Proof.
  exists stalled_state. split; [|split_and!; try done; by eexists].
  eapply reachable_step; [eapply reachable_step; [eapply reachable_step;
    [eapply reachable_step; [apply swapped_reachable|]|]|]|].
  - by apply (push_new 0 heap1 0 1 view1 threads1 known 2 [(1%nat, 7)] [] false 1 8 {[0%nat]}).
  - by apply (push_exchange 0 _ 0 1 view1 _ known 3 [(1%nat, 7)] [] false 1 2 8).
  - by apply (push_link 0 _ 0 2 _ threads2 known 3 _ [] false 1 2 1 view2).
  - apply pop_load.
Qed.
End Mpsc.
