(* ===== verification/HazardPointers.v ===== *)
(** * [HazardPointerDomain]: 1_orderbook/include/hazard_pointers.hpp

    The methods, each run to its end before the next one starts: the source says
    of its retired list that it is not thread-safe.  A pointer is a positive
    identity, a slot holds a pointer or null, and [deleted] is the list of the
    [delete] expressions evaluated so far.  The interleaved accesses are in
    HazardConcurrent. *)
From S2P Require Import Prelude.

Module Hazard.

Definition RETIRED_THRESHOLD : nat := 2.
Definition MAX_HAZARD_PTRS : Z := 16.

Definition ptr : Set := positive.

Record HazardPointerDomain : Type := mkDomain {
  num_threads_ : Z;
  hazard_ptrs_ : list (option ptr);
  retired_ : list ptr;
  deleted : list ptr
}.

Definition HazardPointerDomain_new (num_threads : Z) : HazardPointerDomain :=
  mkDomain num_threads (replicate (Z.to_nat (num_threads * MAX_HAZARD_PTRS)) None) [] [].

Definition set_slots (d : HazardPointerDomain) hps : HazardPointerDomain :=
  mkDomain (num_threads_ d) hps (retired_ d) (deleted d).

(** [static thread_local int id]: computed from the hash of the thread's id the first
    time the thread calls any domain of the type, and kept for all of them. *)
Definition get_thread_id (hash id : Z) (d : HazardPointerDomain) : Z :=
  if id <? 0 then hash `mod` num_threads_ d else id.

(** The first null slot among the [n] ones from [i] on. *)
Fixpoint get_free_slot (n : nat) (i base : Z) (d : HazardPointerDomain) : outcome Z :=
  match n with
  | O => Ok (-1)
  | S n =>
      h ← aread (hazard_ptrs_ d) (base + i);
      match h with
      | None => Ok i
      | Some _ => get_free_slot n (i + 1) base d
      end
  end.

(** The methods take the thread's id, [get_thread_id] of the calling thread. *)
Definition acquire (thread_id : Z) (p : option ptr) (d : HazardPointerDomain)
    : outcome (Z * HazardPointerDomain) :=
  slot ← get_free_slot (Z.to_nat MAX_HAZARD_PTRS) 0 (thread_id * MAX_HAZARD_PTRS) d;
  if slot <? 0 then Ok (-1, d)
  else
    hps ← awrite (hazard_ptrs_ d) (thread_id * MAX_HAZARD_PTRS + slot) p;
    Ok (slot, set_slots d hps).

Definition release (thread_id slot : Z) (d : HazardPointerDomain) : outcome HazardPointerDomain :=
  if slot <? 0 then Ok d
  else
    hps ← awrite (hazard_ptrs_ d) (thread_id * MAX_HAZARD_PTRS + slot) None;
    Ok (set_slots d hps).

(** The inner loop of the scan, with its [break]. *)
Fixpoint is_hazardous (hps : list (option ptr)) (p : ptr) : bool :=
  match hps with
  | [] => false
  | h :: hps => if bool_decide (h = Some p) then true else is_hazardous hps p
  end.

(** The second loop: what is kept, and what is deleted. *)
Fixpoint reclaim (retired : list ptr) (flags : list bool) (kept gone : list ptr)
    : list ptr * list ptr :=
  match retired, flags with
  | p :: retired, true :: flags => reclaim retired flags (kept ++ [p]) gone
  | p :: retired, false :: flags => reclaim retired flags kept (gone ++ [p])
  | _, _ => (kept, gone)
  end.

Definition scan_and_reclaim (d : HazardPointerDomain) : HazardPointerDomain :=
  match retired_ d with
  | [] => d
  | _ =>
      let flags := is_hazardous (hazard_ptrs_ d) <$> retired_ d in
      let '(kept, gone) := reclaim (retired_ d) flags [] (deleted d) in
      mkDomain (num_threads_ d) (hazard_ptrs_ d) kept gone
  end.

Definition retire (p : option ptr) (d : HazardPointerDomain) : HazardPointerDomain :=
  match p with
  | None => d
  | Some p =>
      let d1 := mkDomain (num_threads_ d) (hazard_ptrs_ d) (retired_ d ++ [p]) (deleted d) in
      if (RETIRED_THRESHOLD <=? length (retired_ d1))%nat then scan_and_reclaim d1 else d1
  end.

(** The destructor deletes what is retired, protected or not. *)
Definition destroy (d : HazardPointerDomain) : list ptr := deleted d ++ retired_ d.

(** ** Programs of calls *)
Inductive call :=
  | Acquire (thread_id : Z) (p : option ptr)
  | Release (thread_id slot : Z)
  | Retire (p : option ptr)
  | Scan.

Definition perform (c : call) (d : HazardPointerDomain) : outcome HazardPointerDomain :=
  match c with
  | Acquire t p => '(_, d') ← acquire t p d; Ok d'
  | Release t s => release t s d
  | Retire p => Ok (retire p d)
  | Scan => Ok (scan_and_reclaim d)
  end.

Fixpoint run (cs : list call) (d : HazardPointerDomain) : outcome HazardPointerDomain :=
  match cs with
  | [] => Ok d
  | c :: cs => d' ← perform c d; run cs d'
  end.

(** Thread ids of the domain, and slots as [acquire] returns them. *)
Definition call_ok (n : Z) (c : call) : Prop :=
  match c with
  | Acquire t _ => 0 ≤ t < n
  | Release t s => 0 ≤ t < n ∧ -1 ≤ s < MAX_HAZARD_PTRS
  | _ => True
  end.

Definition retired_by (c : call) : option ptr := match c with Retire p => p | _ => None end.

(** ** Lemmas *)
Lemma is_hazardous_spec hps p : is_hazardous hps p = bool_decide (Some p ∈ hps).
Proof.
  induction hps as [|h hps IH]; simpl; [done|].
  destruct (decide (h = Some p)) as [->|Hne].
  - rewrite bool_decide_eq_true_2 by done. symmetry. apply bool_decide_eq_true. set_solver.
  - rewrite bool_decide_eq_false_2, IH by done. apply bool_decide_ext. set_solver.
Qed.

Lemma reclaim_spec (f : ptr → bool) ps kept gone :
  reclaim ps (f <$> ps) kept gone =
    (kept ++ List.filter f ps, gone ++ List.filter (λ p, negb (f p)) ps).
Proof.
  revert kept gone. induction ps as [|p ps IH]; intros kept gone; simpl; [by rewrite !app_nil_r|].
  destruct (f p); simpl; rewrite IH, <-app_assoc; done.
Qed.

Lemma filter_split (f : ptr → bool) ps :
  List.filter (λ p, negb (f p)) ps ++ List.filter f ps ≡ₚ ps.
Proof.
  induction ps as [|p ps IH]; simpl; [done|]. destruct (f p); simpl.
  - by rewrite <-Permutation_middle, IH.
  - by rewrite IH.
Qed.

Lemma scan_spec d :
  scan_and_reclaim d =
    mkDomain (num_threads_ d) (hazard_ptrs_ d)
      (List.filter (is_hazardous (hazard_ptrs_ d)) (retired_ d))
      (deleted d ++ List.filter (λ p, negb (is_hazardous (hazard_ptrs_ d) p)) (retired_ d)).
Proof.
  unfold scan_and_reclaim. destruct (retired_ d) as [|p ps] eqn:Hr.
  - simpl. rewrite app_nil_r. destruct d; simpl in *. by subst.
  - by rewrite reclaim_spec.
Qed.

Lemma scan_accounts d : destroy (scan_and_reclaim d) ≡ₚ destroy d.
Proof.
  rewrite scan_spec. unfold destroy. simpl. by rewrite <-app_assoc, filter_split.
Qed.

Lemma retire_accounts p d :
  hazard_ptrs_ (retire p d) = hazard_ptrs_ d ∧ destroy (retire p d) ≡ₚ destroy d ++ option_list p.
Proof.
  unfold retire. destruct p as [p|]; [|by rewrite app_nil_r].
  set (d1 := mkDomain _ _ (retired_ d ++ [p]) _).
  assert (destroy d1 = destroy d ++ [p]) as Hd1 by (unfold destroy; simpl; by rewrite app_assoc).
  destruct (RETIRED_THRESHOLD <=? length (retired_ d1))%nat; [|by rewrite Hd1].
  split; [by rewrite scan_spec|]. by rewrite scan_accounts, Hd1.
Qed.

Lemma get_free_slot_spec n i base d :
  0 ≤ base + i → base + i + Z.of_nat n ≤ Z.of_nat (length (hazard_ptrs_ d)) →
  ∃ s, get_free_slot n i base d = Ok s ∧
    (s = -1 ∧ (∀ j, i ≤ j < i + Z.of_nat n → ∃ p, aread (hazard_ptrs_ d) (base + j) = Ok (Some p)) ∨
     i ≤ s < i + Z.of_nat n ∧ aread (hazard_ptrs_ d) (base + s) = Ok None).
Proof.
  revert i. induction n as [|n IH]; intros i Hi Hn; simpl.
  - exists (-1). split; [done|]. left. split; [done|]. lia.
  - destruct (aread_in_bounds (hazard_ptrs_ d) (base + i)) as [h Hh]; [lia|]. rewrite Hh. simpl.
    destruct h as [p|]; [|exists i; split; [done|]; right; split; [lia|done]].
    destruct (IH (i + 1)) as (s & -> & Hs); [lia|lia|]. exists s. split; [done|].
    destruct Hs as [[-> Hall]|[? ?]]; [left|right; split; [lia|done]]. split; [done|].
    intros j Hj. destruct (decide (j = i)) as [->|]; [by exists p|]. apply Hall. lia.
Qed.

(** ** Properties *)

(** A scan deletes exactly the retired pointers no hazard slot holds, in the order
    they were retired, and keeps exactly the others; hazard slots do not change. *)
Lemma scan_reclaims_unprotected (d : HazardPointerDomain) :
  let protected p := bool_decide (Some p ∈ hazard_ptrs_ d) in
  scan_and_reclaim d =
    mkDomain (num_threads_ d) (hazard_ptrs_ d) (List.filter protected (retired_ d))
      (deleted d ++ List.filter (λ p, negb (protected p)) (retired_ d)).
Proof.
  intros protected. rewrite scan_spec. f_equal; [|f_equal];
    apply List.filter_ext; intros p; by rewrite is_hazardous_spec.
Qed.

(** On a domain for [n] threads, any program of calls with thread ids below [n] and
    slots as [acquire] returns them stays inside the slot table, and at its end each
    pointer retired has been deleted once or is still in the retired list, as many
    times as it was retired. *)
Lemma hazard_runs_account (n : Z) (cs : list call)
    (Hn : 0 < n) (Hcs : Forall (call_ok n) cs) :
  ∃ d, run cs (HazardPointerDomain_new n) = Ok d ∧
    deleted d ++ retired_ d ≡ₚ omap retired_by cs.
Proof.
  assert (∀ d, Z.of_nat (length (hazard_ptrs_ d)) = n * MAX_HAZARD_PTRS →
    ∃ d', run cs d = Ok d' ∧ destroy d' ≡ₚ destroy d ++ omap retired_by cs) as Hrun; last first.
  { destruct (Hrun (HazardPointerDomain_new n)) as (d & Hd & Hp); [|by exists d].
    simpl. rewrite length_replicate. unfold MAX_HAZARD_PTRS. lia. }
  unfold MAX_HAZARD_PTRS. induction Hcs as [|c cs Hc Hcs IH]; intros d Hlen.
  { exists d. simpl. by rewrite app_nil_r. }
  assert (∃ d1, perform c d = Ok d1 ∧ Z.of_nat (length (hazard_ptrs_ d1)) = n * 16 ∧
    destroy d1 ≡ₚ destroy d ++ option_list (retired_by c)) as (d1 & Hd1 & Hl1 & Hp1).
  { destruct c as [t p|t s|p|]; simpl in Hc |- *; unfold acquire, release, MAX_HAZARD_PTRS in *.
    - destruct (get_free_slot_spec 16 0 (t * 16) d) as (s & Hs & Hcase); [lia|lia|].
      change (Z.to_nat 16) with 16%nat. rewrite Hs. simpl.
      destruct (Z.ltb_spec s 0) as [|Hs0]; simpl.
      { exists d. rewrite app_nil_r. done. }
      destruct Hcase as [[-> _]|[Hrange _]]; [lia|]. simpl in Hrange.
      rewrite awrite_in_bounds by lia. simpl. eexists. split; [done|]. simpl.
      rewrite length_insert, app_nil_r. done.
    - destruct (Z.ltb_spec s 0); [exists d; by rewrite app_nil_r|].
      rewrite awrite_in_bounds by lia. simpl. eexists. split; [done|]. simpl.
      rewrite length_insert, app_nil_r. done.
    - destruct (retire_accounts p d) as [Hh Hp]. exists (retire p d). by rewrite Hh.
    - exists (scan_and_reclaim d). split; [done|].
      split; [by rewrite scan_spec|]. by rewrite scan_accounts, app_nil_r. }
  destruct (IH d1 Hl1) as (d' & Hd' & Hp'). exists d'. simpl. rewrite Hd1. simpl.
  split; [done|]. rewrite Hp', Hp1, <-app_assoc. by destruct (retired_by c).
Qed.

(** ** A concrete program: a protected pointer survives the scan *)
Definition demo_calls : list call :=
  [Acquire 0 (Some 5%positive); Retire (Some 5%positive); Retire (Some 6%positive);
   Release 0 0; Scan].

Lemma hazard_runs_account_example :
  ∃ d, run demo_calls (HazardPointerDomain_new 2) = Ok d ∧
    deleted d ++ retired_ d ≡ₚ [5%positive; 6%positive].
Proof. exact (hazard_runs_account 2 demo_calls ltac:(lia) ltac:(repeat constructor; lia)). Defined.
End Hazard.
