(* ===== verification/HazardConcurrent.v ===== *)
(** * [HazardPointerDomain] under several threads

    1_orderbook/include/hazard_pointers.hpp with any number of threads that call [acquire]
    and [release], the latter with any index inside the table, and one that calls [retire] and [scan_and_reclaim] (the retired list is a
    plain vector, which the source asks to lock), interleaved at the granularity of the
    accesses to the hazard slots, in the C++ release/acquire model:
    - a slot is its modification order; an acquire load may read any store not older than
      the last one the thread knows of (its view), so it may be stale;
    - a view may grow at any time, by the release stores a thread has read or by whatever
      synchronisation the clients have. *)
From stdpp Require Import functions.
From S2P Require Import Prelude HazardPointers.

Module HazardConc.
Import Hazard.

(** The modification order of a slot. *)
Abbreviation history := (list (option ptr)).

Section Model.
(** The pointers that clients protect, and the slots they release. *)
Context (client : option ptr → Prop) (releases : Z → Prop).

(** A thread of [acquire] and [release]: its id in the domain, what it has done of its
    call, its view, and the slots it was given and has not released since. *)
Inductive user_pc :=
  | UIdle
  | UScan (p : option ptr) (i : nat)      (* get_free_slot, slots below i are taken *)
  | UStore (p : option ptr) (i : nat).    (* slot i was null *)

Record user := mkUser {
  thread_id : nat;
  upc : user_pc;
  uview : nat → nat;
  held : list (nat * option ptr)
}.

Definition slot_of (thread_id i : nat) : nat := (thread_id * Z.to_nat MAX_HAZARD_PTRS + i)%nat.

Definition valid_view (slots : list history) (v : nat → nat) : Prop :=
  ∀ h hist, slots !! h = Some hist → (v h < length hist)%nat.

(** One access of [acquire] or [release] to a slot.  [release] stores to the slot it is given,
    whoever holds it; past the end of the table it is undefined, and has no step. *)
Inductive user_step (slots : list history) : user → list history → user → Prop :=
  | us_acquire t v hs p :
      client p → user_step slots (mkUser t UIdle v hs) slots (mkUser t (UScan p 0) v hs)
  | us_taken t v hs p i hist k q :
      (i < Z.to_nat MAX_HAZARD_PTRS)%nat → slots !! slot_of t i = Some hist →
      (v (slot_of t i) ≤ k)%nat → hist !! k = Some (Some q) →
      user_step slots (mkUser t (UScan p i) v hs) slots
        (mkUser t (UScan p (S i)) (<[slot_of t i := k]> v) hs)
  | us_free t v hs p i hist k :
      (i < Z.to_nat MAX_HAZARD_PTRS)%nat → slots !! slot_of t i = Some hist →
      (v (slot_of t i) ≤ k)%nat → hist !! k = Some None →
      user_step slots (mkUser t (UScan p i) v hs) slots
        (mkUser t (UStore p i) (<[slot_of t i := k]> v) hs)
  | us_full t v hs p :
      user_step slots (mkUser t (UScan p (Z.to_nat MAX_HAZARD_PTRS)) v hs) slots (mkUser t UIdle v hs)
  | us_store t v hs p i hist :
      slots !! slot_of t i = Some hist →
      user_step slots (mkUser t (UStore p i) v hs) (<[slot_of t i := hist ++ [p]]> slots)
        (mkUser t UIdle (<[slot_of t i := length hist]> v) ((i, p) :: hs))
  | us_release_none t v hs slot :
      releases slot → slot < 0 → user_step slots (mkUser t UIdle v hs) slots (mkUser t UIdle v hs)
  | us_release t v hs slot hist :
      releases slot → 0 ≤ slot → slots !! slot_of t (Z.to_nat slot) = Some hist →
      user_step slots (mkUser t UIdle v hs) (<[slot_of t (Z.to_nat slot) := hist ++ [None]]> slots)
        (mkUser t UIdle (<[slot_of t (Z.to_nat slot) := length hist]> v)
           (filter (λ e, e.1 ≠ Z.to_nat slot) hs))
  | us_sync t pc v v' hs :
      (∀ h, v h ≤ v' h)%nat → valid_view slots v' →
      user_step slots (mkUser t pc v hs) slots (mkUser t pc v' hs).

(** The thread of [retire] and [scan_and_reclaim]; [asked] is what it was asked to retire. *)
Inductive reclaimer_pc :=
  | RIdle
  | RScan (flags : list bool) (j : nat).   (* the pointer after the flags against slot j *)

Record reclaimer := mkReclaimer {
  rpc : reclaimer_pc;
  rview : nat → nat;
  retired_ : list ptr;
  deleted : list ptr;
  asked : list ptr
}.

Definition after_push (retired : list ptr) : reclaimer_pc :=
  if (RETIRED_THRESHOLD <=? length retired)%nat then RScan [] 0 else RIdle.

Inductive reclaimer_step (slots : list history) : reclaimer → reclaimer → Prop :=
  | rs_retire v ps ds asked p :
      reclaimer_step slots (mkReclaimer RIdle v ps ds asked)
        (mkReclaimer (after_push (ps ++ [p])) v (ps ++ [p]) ds (asked ++ [p]))
  | rs_scan v ps ds asked :
      ps ≠ [] → reclaimer_step slots (mkReclaimer RIdle v ps ds asked) (mkReclaimer (RScan [] 0) v ps ds asked)
  | rs_hit v ps ds asked flags j p hist k :
      ps !! length flags = Some p → slots !! j = Some hist → (v j ≤ k)%nat → hist !! k = Some (Some p) →
      reclaimer_step slots (mkReclaimer (RScan flags j) v ps ds asked)
        (mkReclaimer (RScan (flags ++ [true]) 0) (<[j := k]> v) ps ds asked)
  | rs_miss v ps ds asked flags j p hist k q :
      ps !! length flags = Some p → slots !! j = Some hist → (v j ≤ k)%nat → hist !! k = Some q → q ≠ Some p →
      reclaimer_step slots (mkReclaimer (RScan flags j) v ps ds asked)
        (mkReclaimer (RScan flags (S j)) (<[j := k]> v) ps ds asked)
  | rs_clear v ps ds asked flags p :
      ps !! length flags = Some p →
      reclaimer_step slots (mkReclaimer (RScan flags (length slots)) v ps ds asked)
        (mkReclaimer (RScan (flags ++ [false]) 0) v ps ds asked)
  | rs_reclaim v ps ds asked flags kept gone :
      length flags = length ps → reclaim ps flags [] ds = (kept, gone) →
      reclaimer_step slots (mkReclaimer (RScan flags 0) v ps ds asked)
        (mkReclaimer RIdle v kept gone asked)
  | rs_sync pc v v' ps ds asked :
      (∀ h, v h ≤ v' h)%nat → valid_view slots v' →
      reclaimer_step slots (mkReclaimer pc v ps ds asked) (mkReclaimer pc v' ps ds asked).

Record state := mkState {
  slots : list history;
  users : gmap nat user;
  owner : reclaimer
}.

Inductive step : state → state → Prop :=
  | step_user s n u slots' u' :
      users s !! n = Some u → user_step (slots s) u slots' u' →
      step s (mkState slots' (<[n := u']> (users s)) (owner s))
  | step_reclaimer s r' :
      reclaimer_step (slots s) (owner s) r' → step s (mkState (slots s) (users s) r').

(** A domain for [n] threads, before any call. *)
Record initial (n : nat) (s : state) : Prop := {
  in_slots : slots s = replicate (n * Z.to_nat MAX_HAZARD_PTRS) [None];
  in_users t u : users s !! t = Some u →
    (thread_id u < n)%nat ∧ upc u = UIdle ∧ (∀ h, uview u h = 0%nat) ∧ held u = [];
  in_owner : owner s = mkReclaimer RIdle (λ _, 0%nat) [] [] []
}.
End Model.

Section Facts.
Context (client : option ptr → Prop) (releases : Z → Prop).
Abbreviation step := (step client releases).
Abbreviation user_step := (user_step client releases).

(** ** A slot that is stored and not written again protects its pointer *)

(** What a user does to the slots: nothing, or one store at the end of one history. *)
Lemma user_step_slots ss u ss' u' :
  user_step ss u ss' u' →
  ss' = ss ∨ ∃ h hist p, ss !! h = Some hist ∧ ss' = <[h := hist ++ [p]]> ss.
Proof. destruct 1; try by left. all: right; by eexists _, _, _. Qed.

(** The second loop of the scan, for any flags. *)
Lemma reclaim_flags ps flags kept gone kept' gone' :
  length flags = length ps → reclaim ps flags kept gone = (kept', gone') →
  kept' ++ gone' ≡ₚ kept ++ gone ++ ps ∧
  ∀ p, p ∈ gone' → p ∈ gone ∨ ∃ i, ps !! i = Some p ∧ flags !! i = Some false.
Proof.
  revert flags kept gone. induction ps as [|q ps IH]; intros [|f flags] kept gone Hlen; simplify_eq/=.
  { intros [= <- <-]. split; [by rewrite app_nil_r|]. by left. }
  destruct f; intros Hr; apply IH in Hr as [Hperm Hin]; try lia.
  - split; [rewrite Hperm, <-app_assoc; simpl; by rewrite (Permutation_middle gone)|].
    intros p Hp. destruct (Hin p Hp) as [|(i & ? & ?)]; [by left|]. right. by exists (S i).
  - split; [by rewrite Hperm, <-app_assoc|].
    intros p Hp. destruct (Hin p Hp) as [[| ->%list_elem_of_singleton]%elem_of_app|(i & ? & ?)];
      [by left|right; by exists 0%nat|right; by exists (S i)].
Qed.

(** [hist] is the history of slot [h], the reclaimer knows its last store, of [p], and a scan
    in progress has not passed over it. *)
Record protects (h : nat) (hist : history) (p : ptr) (s : state) : Prop := {
  pr_slot : slots s !! h = Some hist;
  pr_last : last hist = Some (Some p);
  pr_view : (length hist ≤ S (rview (owner s) h))%nat;
  pr_deleted : p ∉ deleted (owner s);
  pr_flags flags j i : rpc (owner s) = RScan flags j →
    retired_ (owner s) !! i = Some p → (i < length flags)%nat → flags !! i = Some true;
  pr_scan flags j : rpc (owner s) = RScan flags j →
    retired_ (owner s) !! length flags = Some p → (j ≤ h)%nat
}.

Lemma known_read (hist : history) p k q v :
  last hist = Some (Some p) → (length hist ≤ S v)%nat → (v ≤ k)%nat → hist !! k = Some q → q = Some p.
Proof.
  rewrite last_lookup. intros Hl Hv Hk Hq. pose proof (lookup_lt_Some _ _ _ Hq).
  assert (k = pred (length hist)) as -> by lia. by simplify_eq.
Qed.

Lemma view_raised (v : nat → nat) j k h n :
  (n ≤ S (v h))%nat → (v j ≤ k)%nat → (n ≤ S (<[j := k]> v h))%nat.
Proof.
  intros. destruct (decide (j = h)) as [->|]; [rewrite fn_lookup_insert; lia|by rewrite fn_lookup_insert_ne].
Qed.

Lemma reclaimer_protects h hist p s r' :
  protects h hist p s → reclaimer_step (slots s) (owner s) r' → protects h hist p (mkState (slots s) (users s) r').
Proof.
  intros [Hs Hl Hv Hd Hf Hj] Hstep. destruct s as [ss us r]. simpl in *.
  destruct Hstep as [v ps ds asked p'|v ps ds asked Hne|v ps ds asked flags j p' hist' k Hp' Hh' Hk Hread
    |v ps ds asked flags j p' hist' k q Hp' Hh' Hk Hread Hq|v ps ds asked flags p' Hp'
    |v ps ds asked flags kept gone Hlen Hr|pc v v' ps ds asked Hmon Hvalid]; simpl in *.
  - split; simpl; try done; unfold after_push; intros; case_match; simplify_eq/=; lia.
  - split; simpl; try done; intros; simplify_eq/=; lia.
  - split; simpl; try done; [by apply view_raised|intros; simplify_eq|intros; simplify_eq; lia].
    destruct (decide (i = length flags)) as [->|]; [by apply list_lookup_middle|].
    rewrite length_app in *. simpl in *. rewrite lookup_app_l by lia. eapply Hf; [done|done|lia].
  - split; simpl; try done; [by apply view_raised|intros; simplify_eq; by eapply Hf|].
    intros ? ? [= <- <-] Hp. pose proof (Hj flags j eq_refl Hp). simplify_eq.
    destruct (decide (j = h)) as [->|]; [|lia]. simplify_eq. destruct Hq. by eapply known_read.
  - split; simpl; try done; [intros; simplify_eq|intros; simplify_eq; lia].
    destruct (decide (i = length flags)) as [->|].
    { simplify_eq. pose proof (Hj _ _ eq_refl Hp'). apply lookup_lt_Some in Hs. lia. }
    rewrite length_app in *. simpl in *. rewrite lookup_app_l by lia. eapply Hf; [done|done|lia].
  - split; simpl; try done. intros Hin. destruct (reclaim_flags _ _ _ _ _ _ Hlen Hr) as [_ Hgone].
    destruct (Hgone p Hin) as [|(i & Hi & Hfi)]; [done|].
    pose proof (lookup_lt_Some _ _ _ Hi). rewrite (Hf flags 0%nat i eq_refl Hi) in Hfi by lia. done.
  - split; simpl; try done; [specialize (Hmon h); lia|..]; done.
Qed.

Lemma slot_kept (ss : list history) h hist h' hist' q :
  ss !! h = Some hist → ss !! h' = Some hist' →
  <[h' := hist' ++ [q]]> ss !! h = Some hist ∨ h' = h ∧ hist' = hist ∧
    <[h' := hist' ++ [q]]> ss !! h = Some (hist ++ [q]).
Proof.
  intros Hs Hs'. destruct (decide (h' = h)) as [->|]; [right|left; by rewrite list_lookup_insert_ne].
  simplify_eq. split_and!; [done..|]. apply list_lookup_insert_eq. by eapply lookup_lt_Some.
Qed.

(** Histories only grow: one that has changed stays different. *)
Definition beyond (h : nat) (hist : history) (s : state) : Prop :=
  ∃ hist', slots s !! h = Some hist' ∧ (length hist < length hist')%nat.

Lemma step_protects h hist p s s' :
  protects h hist p s → step s s' → protects h hist p s' ∨ beyond h hist s'.
Proof.
  intros Hp Hstep. destruct Hstep as [s n u ss' u' Hu Hus|s r' Hr]; [|left; by apply reclaimer_protects].
  destruct Hp as [Hs Hl Hv Hd Hf Hj].
  apply user_step_slots in Hus as [->|(h' & hist' & q & Hh' & ->)]; [left; by split|].
  destruct (slot_kept _ _ _ _ _ q Hs Hh') as [Hk|(-> & -> & Hk)]; [left; by split|right].
  eexists. split; [exact Hk|]. rewrite length_app. simpl. lia.
Qed.

Lemma step_beyond h hist s s' : beyond h hist s → step s s' → beyond h hist s'.
Proof.
  intros (hist' & Hs & Hlt) Hstep. destruct Hstep as [s n u ss' u' Hu Hus|s r' Hr]; [|by exists hist'].
  apply user_step_slots in Hus as [->|(h' & hist2 & q & Hh' & ->)]; [by exists hist'|].
  destruct (slot_kept _ _ _ _ _ q Hs Hh') as [Hk|(-> & -> & Hk)]; eexists; (split; [exact Hk|]); [done|].
  rewrite length_app. simpl. lia.
Qed.

(** C18: a pointer whose hazard slot was stored before the reclaimer's call in the sense of
    happens-before is not deleted while the slot keeps it: in whatever way the threads are
    interleaved, however stale their loads, and whatever is retired and scanned meanwhile. *)
Theorem hazard_slot_protects (s s' : state) (h : nat) (hist : history) (p : ptr)
    (Hidle : rpc (owner s) = RIdle) (Hslot : slots s !! h = Some hist) (Hlast : last hist = Some (Some p))
    (Hknown : (length hist ≤ S (rview (owner s) h))%nat) (Hfresh : p ∉ deleted (owner s))
    (Hrun : rtc step s s') (Hkept : slots s' !! h = Some hist) :
  p ∉ deleted (owner s').
Proof.
  assert (protects h hist p s) as Hp by (split; try done; by rewrite Hidle).
  clear Hidle Hslot Hlast Hknown Hfresh.
  assert (protects h hist p s' ∨ beyond h hist s') as [Hp'|(hist' & Hs' & Hlt)]; [|apply Hp'|].
  - clear Hkept. assert (protects h hist p s ∨ beyond h hist s) as Hs by by left. clear Hp.
    induction Hrun as [|s1 s2 s3 H12 _ IH]; [done|]. apply IH.
    destruct Hs; [by eapply step_protects|right; by eapply step_beyond].
  - rewrite Hs' in Hkept. injection Hkept as ->. lia.
Qed.

(** ** Slots of threads with ids of their own *)
Section Exclusive.
Context (n : nat) (Hclient : ∀ p, client p → p ≠ None).
Context (Hreleases : ∀ slot, releases slot → slot < MAX_HAZARD_PTRS).

(** A thread alone in its part of the table knows every store there; what it holds is in
    its slots, each pointer in one. *)
Record user_ok (ss : list history) (u : user) : Prop := {
  uo_id : (thread_id u < n)%nat;
  uo_view i : (i < 16)%nat →
    ∃ hist, ss !! slot_of (thread_id u) i = Some hist ∧ length hist = S (uview u (slot_of (thread_id u) i));
  uo_held i p : (i, p) ∈ held u → (i < 16)%nat ∧ p ≠ None ∧
    ∃ hist, ss !! slot_of (thread_id u) i = Some hist ∧ last hist = Some p;
  uo_nodup : NoDup (held u).*1;
  uo_pc : match upc u with
          | UIdle => True
          | UScan p i => client p
          | UStore p i => client p ∧ (i < 16)%nat ∧
              ∃ hist, ss !! slot_of (thread_id u) i = Some hist ∧ last hist = Some None
          end
}.

Lemma slot_of_inj t i t' i' : (i < 16)%nat → (i' < 16)%nat → slot_of t i = slot_of t' i' → t = t' ∧ i = i'.
Proof. unfold slot_of, MAX_HAZARD_PTRS. lia. Qed.

(** A load of an own slot gives its last store. *)
Lemma own_read ss u i hist k q :
  user_ok ss u → (i < 16)%nat → ss !! slot_of (thread_id u) i = Some hist →
  (uview u (slot_of (thread_id u) i) ≤ k)%nat → hist !! k = Some q →
  last hist = Some q ∧ k = uview u (slot_of (thread_id u) i).
Proof.
  intros Hu Hi Hs Hk Hq. destruct (uo_view _ _ Hu i Hi) as (hist' & Hs' & Hlen). simplify_eq.
  pose proof (lookup_lt_Some _ _ _ Hq). assert (k = uview u (slot_of (thread_id u) i)) as -> by lia.
  split; [|done]. rewrite last_lookup, Hlen. done.
Qed.

(** The thread's own store, and those of the others. *)
Lemma own_store ss u i hist q hs :
  user_ok ss u → (i < 16)%nat → ss !! slot_of (thread_id u) i = Some hist →
  NoDup hs.*1 → (∀ j p, (j, p) ∈ hs → (j, p) ∈ held u ∧ j ≠ i ∨ j = i ∧ p = q ∧ q ≠ None) →
  user_ok (<[slot_of (thread_id u) i := hist ++ [q]]> ss)
    (mkUser (thread_id u) UIdle (<[slot_of (thread_id u) i := length hist]> (uview u)) hs).
Proof.
  intros Hu Hi Hs Hnd Hhs. pose proof (lookup_lt_Some _ _ _ Hs) as Hlt. split; simpl; try done; [apply Hu|..].
  - intros j Hj. destruct (decide (j = i)) as [->|Hne].
    + exists (hist ++ [q]). rewrite list_lookup_insert_eq, length_app, fn_lookup_insert by done. simpl.
      split; [done|lia].
    + assert (slot_of (thread_id u) i ≠ slot_of (thread_id u) j) as Hns
        by (intros He; apply slot_of_inj in He as [_ ?]; congruence || lia).
      rewrite list_lookup_insert_ne, fn_lookup_insert_ne by done. by apply Hu.
  - intros j p [[Hin Hne]|(-> & -> & Hq)]%Hhs.
    + destruct (uo_held _ _ Hu j p Hin) as (Hj & Hp & hist' & Hs' & Hl). split_and!; [done..|].
      exists hist'. rewrite list_lookup_insert_ne; [done|].
      intros He. apply slot_of_inj in He as [_ ?]; congruence || lia.
    + split_and!; [done..|]. exists (hist ++ [q]). rewrite list_lookup_insert_eq by done.
      split; [done|apply last_snoc].
Qed.

Lemma other_store ss u t i hist q :
  user_ok ss u → (i < 16)%nat → t ≠ thread_id u → user_ok (<[slot_of t i := hist ++ [q]]> ss) u.
Proof.
  intros [Hid Hv Hh Hnd Hpc] Hi Hne.
  assert (∀ j, (j < 16)%nat → <[slot_of t i := hist ++ [q]]> ss !! slot_of (thread_id u) j =
    ss !! slot_of (thread_id u) j) as Hsame.
  { intros j Hj. apply list_lookup_insert_ne. intros He. by apply slot_of_inj in He as [? _]. }
  split; try done.
  - intros j Hj. rewrite Hsame by done. by apply Hv.
  - intros j p Hin. destruct (Hh j p Hin) as (? & ? & ?). by rewrite Hsame.
  - destruct (upc u); try done. destruct Hpc as (? & ? & ?). by rewrite Hsame.
Qed.

Lemma reread (v : nat → nat) h x : <[h := v h]> v x = v x.
Proof. destruct (decide (h = x)) as [->|]; [by rewrite fn_lookup_insert|by rewrite fn_lookup_insert_ne]. Qed.

Lemma user_step_ok ss u ss' u' :
  user_ok ss u → user_step ss u ss' u' →
  thread_id u' = thread_id u ∧ user_ok ss' u' ∧
  ∀ w, user_ok ss w → thread_id w ≠ thread_id u → user_ok ss' w.
Proof.
  intros Hu Hstep. pose proof Hu as [Hid Hv Hh Hnd Hpc].
  destruct Hstep as [t v hs p Hp|t v hs p i hist k q Hi Hs Hk Hq|t v hs p i hist k Hi Hs Hk Hq|t v hs p
    |t v hs p i hist Hs|t v hs slot Hrel Hneg|t v hs slot hist Hrel Hge Hs|t pc v v' hs Hmon Hvalid]; simpl in *.
  - split_and!; [done|by split|done].
  - destruct (own_read _ _ _ _ _ _ Hu Hi Hs Hk Hq) as [_ ->]. split_and!; [done| |done].
    split; try done. intros j. simpl. rewrite reread. apply Hv.
  - destruct (own_read _ _ _ _ _ _ Hu Hi Hs Hk Hq) as [Hl ->]. split_and!; [done| |done].
    split; try done; [intros j; simpl; rewrite reread; apply Hv|].
    split_and!; [done..|]. by exists hist.
  - split_and!; [done|by split|done].
  - destruct Hpc as (Hp%Hclient & Hi & hist' & Hs' & Hl). simplify_eq.
    assert (i ∉ hs.*1) as Hnew.
    { intros ([j q] & -> & Hin)%list_elem_of_fmap. destruct (Hh j q Hin) as (_ & Hq & hist2 & Hs'' & Hl').
      simpl in *. congruence. }
    split_and!; [done| |].
    + apply (own_store _ _ _ _ _ _ Hu Hi Hs); [by constructor|].
      intros j q [[= -> ->]|Hin]%elem_of_cons; [by right|left]. split; [done|].
      intros ->. destruct Hnew. apply list_elem_of_fmap. by exists (i, q).
    + intros w Hw Hne. by apply other_store.
  - split_and!; [done|by split|done].
  - assert (Z.to_nat slot < 16)%nat as Hi by (specialize (Hreleases _ Hrel); unfold MAX_HAZARD_PTRS in *; lia).
    split_and!; [done| |].
    + apply (own_store _ _ _ _ _ _ Hu Hi Hs).
      * eapply sublist_NoDup; [exact Hnd|]. apply fmap_sublist, sublist_filter.
      * intros j q [Hne Hin]%list_elem_of_filter. left. by split.
    + intros w Hw Hne. by apply other_store.
  - split_and!; [done| |done]. split; try done. intros i Hi. destruct (Hv i Hi) as (hist & Hs & Hlen).
    exists hist. split; [done|]. pose proof (Hmon (slot_of t i)). pose proof (Hvalid _ _ Hs). simpl. lia.
Qed.

Record users_ok (s : state) : Prop := {
  us_ok t u : users s !! t = Some u → user_ok (slots s) u;
  us_distinct t t' u u' : users s !! t = Some u → users s !! t' = Some u' → thread_id u = thread_id u' → t = t'
}.

Lemma step_users_ok s s' : users_ok s → step s s' → users_ok s'.
Proof.
  intros [Hok Hd] Hstep. destruct Hstep as [s m u ss' u' Hu Hus|]; [|by split].
  destruct (user_step_ok _ _ _ _ (Hok m u Hu) Hus) as (Hid & Hu' & Hothers).
  split; simpl.
  - intros t w [[<- <-]|[Hne Hw]]%lookup_insert_Some; [done|]. apply Hothers; [by eapply Hok|].
    intros He. by destruct Hne; eapply Hd.
  - intros t t' w w' [[<- <-]|[Hne Hw]]%lookup_insert_Some [[<- <-]|[Hne' Hw']]%lookup_insert_Some; [done|..];
      rewrite ?Hid; by apply Hd.
Qed.

Lemma initial_users_ok s :
  initial n s → (∀ t t' u u', users s !! t = Some u → users s !! t' = Some u' →
    thread_id u = thread_id u' → t = t') → users_ok s.
Proof.
  intros [Hs Hu _] Hd. split; [|done]. intros t u Htu. destruct (Hu t u Htu) as (Hid & Hpc & Hv & Hh).
  split; [done| |by rewrite Hh; intros ? ? ?%elem_of_nil|rewrite Hh; constructor|by rewrite Hpc].
  intros i Hi. exists [None]. rewrite Hs, Hv. split; [|done]. apply lookup_replicate_2.
  unfold slot_of, MAX_HAZARD_PTRS. lia.
Qed.

(** C19: when every thread has an id of its own, protects no null pointer and releases no
    index of [MAX_HAZARD_PTRS] or more, what a thread has acquired and not released since
    stays in the slots it was told, each pointer in a slot of its own, whatever the other
    threads and the reclaimer do, and whichever slots are released twice or without having
    been acquired. *)
Theorem acquired_slots_are_exclusive (s0 s : state) (t : nat) (u : user)
    (Hinit : initial n s0)
    (Hids : ∀ t t' u u', users s0 !! t = Some u → users s0 !! t' = Some u' → thread_id u = thread_id u' → t = t')
    (Hrun : rtc step s0 s) (Hu : users s !! t = Some u) :
  NoDup (held u).*1 ∧ ∀ i p, (i, p) ∈ held u →
    ∃ hist, slots s !! slot_of (thread_id u) i = Some hist ∧ last hist = Some p.
Proof using Hclient Hreleases.
  assert (users_ok s) as [Hok _].
  { pose proof (initial_users_ok s0 Hinit Hids) as Hs. clear Hinit Hids Hu.
    induction Hrun as [|s1 s2 s3 H12 _ IH]; [done|]. by eapply IH, step_users_ok. }
  destruct (Hok t u Hu) as [_ _ Hh Hnd _]. split; [done|]. intros i p Hin. by destruct (Hh i p Hin) as (_ & _ & ?).
Qed.
End Exclusive.

(** ** The reclaimer *)
Record reclaimer_ok (s : state) : Prop := {
  ro_view : valid_view (slots s) (rview (owner s));
  ro_account : deleted (owner s) ++ retired_ (owner s) ≡ₚ asked (owner s);
  ro_scan flags j : rpc (owner s) = RScan flags j →
    (length flags ≤ length (retired_ (owner s)))%nat ∧ (j ≤ length (slots s))%nat ∧
    (length flags = length (retired_ (owner s)) → j = 0%nat)
}.

(** What is left of a scan: a comparison for each slot and pointer, and the end of each loop. *)
Definition work (s : state) : nat :=
  match rpc (owner s) with
  | RIdle => 0
  | RScan flags j =>
      S ((length (retired_ (owner s)) - length flags) * S (length (slots s)) + (length (slots s) - j))
  end.

Lemma valid_raised ss v j k hist :
  valid_view ss v → ss !! j = Some hist → (k < length hist)%nat → valid_view ss (<[j := k]> v).
Proof.
  intros Hv Hj Hk h hist' Hh. destruct (decide (j = h)) as [->|].
  - rewrite fn_lookup_insert. by simplify_eq.
  - rewrite fn_lookup_insert_ne by done. by apply Hv.
Qed.

Lemma reclaimer_step_ok s r' :
  reclaimer_ok s → reclaimer_step (slots s) (owner s) r' →
  let s' := mkState (slots s) (users s) r' in
  reclaimer_ok s' ∧ (rpc (owner s) ≠ RIdle → rpc r' = rpc (owner s) ∨ (work s' < work s)%nat).
Proof.
  destruct s as [ss us r]. unfold work. intros [Hv Ha Hs] Hstep. simpl in *.
  destruct Hstep as [v ps ds asked p|v ps ds asked Hne|v ps ds asked flags j p hist k Hp Hh Hk Hread
    |v ps ds asked flags j p hist k q Hp Hh Hk Hread Hq|v ps ds asked flags p Hp
    |v ps ds asked flags kept gone Hlen Hr|pc v v' ps ds asked Hmon Hvalid]; simpl in *.
  - split; [|done]. split; simpl; [done|by rewrite app_assoc, Ha|].
    unfold after_push. intros flags j. case_match; [|done]. intros [= <- <-]. simpl. lia.
  - split; [|done]. split; simpl; [done..|]. intros ? ? [= <- <-]. simpl. lia.
  - destruct (Hs flags j eq_refl) as (Hf & Hj & _). pose proof (lookup_lt_Some _ _ _ Hp).
    pose proof (lookup_lt_Some _ _ _ Hread). pose proof (lookup_lt_Some _ _ _ Hh).
    rewrite length_app. simpl. split; [split; simpl; [by eapply valid_raised|done|]|right; nia].
    intros ? ? [= <- <-]. rewrite length_app. simpl. lia.
  - destruct (Hs flags j eq_refl) as (Hf & Hj & _). pose proof (lookup_lt_Some _ _ _ Hp).
    pose proof (lookup_lt_Some _ _ _ Hread). pose proof (lookup_lt_Some _ _ _ Hh).
    split; [split; simpl; [by eapply valid_raised|done|]|right; lia].
    intros ? ? [= <- <-]. lia.
  - destruct (Hs flags (length ss) eq_refl) as (Hf & Hj & _). pose proof (lookup_lt_Some _ _ _ Hp).
    rewrite length_app. simpl. split; [split; simpl; [done..|]|right; nia].
    intros ? ? [= <- <-]. rewrite length_app. simpl. lia.
  - destruct (reclaim_flags _ _ _ _ _ _ Hlen Hr) as [Hperm _].
    split; [split; simpl; [done| |done]|right; lia]. by rewrite (Permutation_app_comm gone), Hperm.
  - split; [|by left]. by split.
Qed.

Lemma step_reclaimer_ok s s' : reclaimer_ok s → step s s' → reclaimer_ok s'.
Proof.
  intros Hok Hstep. destruct Hstep as [s m u ss' u' Hu Hus|s r' Hr]; [|by apply reclaimer_step_ok].
  destruct Hok as [Hv Ha Hs]. apply user_step_slots in Hus as [->|(h & hist & p & Hh & ->)]; [by split|].
  split; simpl; [|done|by rewrite length_insert].
  intros j hist'. rewrite list_lookup_insert_Some. intros [(-> & <- & _)|[_ Hj]]; [|by apply Hv].
  rewrite length_app. simpl. specialize (Hv _ _ Hh). lia.
Qed.

Lemma initial_reclaimer_ok n s : initial n s → reclaimer_ok s.
Proof.
  intros [Hs _ Ho]. split; rewrite Ho; simpl; [|done|done].
  intros h hist. rewrite Hs. intros [-> _]%lookup_replicate. simpl. lia.
Qed.

Lemma scan_enabled s :
  reclaimer_ok s → rpc (owner s) ≠ RIdle →
  ∃ r', reclaimer_step (slots s) (owner s) r' ∧ rpc r' ≠ rpc (owner s).
Proof.
  destruct s as [ss us [[|flags j] v ps ds asked]]; [done|]. intros [Hv _ Hs] _. simpl in *.
  destruct (Hs flags j eq_refl) as (Hf & Hj & Hend).
  destruct (decide (length flags = length ps)) as [Heq|Hne].
  { rewrite (Hend Heq). destruct (reclaim ps flags [] ds) as [kept gone] eqn:Hr.
    eexists. split; [by eapply rs_reclaim|done]. }
  destruct (lookup_lt_is_Some_2 ps (length flags)) as [p Hp]; [lia|].
  destruct (decide (j = length ss)) as [->|].
  { eexists. split; [by eapply rs_clear|]. simpl. intros [= Hl _]. apply (f_equal length) in Hl.
    rewrite length_app in Hl. simpl in Hl. lia. }
  destruct (lookup_lt_is_Some_2 ss j) as [hist Hh]; [lia|].
  destruct (lookup_lt_is_Some_2 hist (v j)) as [q Hq]; [by eapply Hv|].
  destruct (decide (q = Some p)) as [->|]; eexists.
  - split; [by eapply rs_hit|]. simpl. intros [= Hl _]. apply (f_equal length) in Hl.
    rewrite length_app in Hl. simpl in Hl. lia.
  - split; [by eapply rs_miss|]. simpl. intros [=]. lia.
Qed.

(** C20: in every reachable state each pointer the reclaimer was asked to retire has been
    deleted once or is still retired, as many times as it was asked; and its scan is
    wait-free: the reclaimer can always go on, and each of its own accesses, whatever it
    reads, leaves less to do, with at most one access per retired pointer and slot. *)
Theorem hazard_reclaims_once (n : nat) (s0 s : state) (Hinit : initial n s0) (Hrun : rtc step s0 s) :
  deleted (owner s) ++ retired_ (owner s) ≡ₚ asked (owner s) ∧
  (rpc (owner s) ≠ RIdle →
    (∃ r', reclaimer_step (slots s) (owner s) r' ∧ rpc r' ≠ rpc (owner s)) ∧
    (∀ r', reclaimer_step (slots s) (owner s) r' →
      rpc r' = rpc (owner s) ∨ (work (mkState (slots s) (users s) r') < work s)%nat) ∧
    (work s ≤ S (S (length (retired_ (owner s))) * S (length (slots s))))%nat).
Proof.
  assert (reclaimer_ok s) as Hok.
  { pose proof (initial_reclaimer_ok n s0 Hinit) as Hs. clear Hinit.
    induction Hrun as [|s1 s2 s3 H12 _ IH]; [done|]. by eapply IH, step_reclaimer_ok. }
  split; [apply Hok|]. intros Hpc. split_and!; [by apply scan_enabled| |].
  - intros r' Hr. by apply (reclaimer_step_ok s r' Hok Hr).
  - unfold work. destruct (rpc (owner s)); nia.
Qed.
End Facts.

(** ** Where protection ends *)
Section Runs.
Definition not_null (p : option ptr) : Prop := p ≠ None.
Definition own_part (slot : Z) : Prop := slot < MAX_HAZARD_PTRS.
Abbreviation step := (step not_null own_part).

(** An index past a thread's part of the table, which [release] does not refuse, takes the
    protection of the next thread away. *)
Lemma release_past_own_part (releases : Z → Prop) ss v hist hs q :
  releases 16 → ss !! slot_of 1 0 = Some (hist ++ [q]) →
  ∃ ss' u', user_step not_null releases ss (mkUser 0 UIdle v hs) ss' u' ∧
    ss' !! slot_of 1 0 = Some (hist ++ [q; None]).
Proof.
  intros Hrel Hs. do 2 eexists. split; [by apply (us_release _ _ _ _ _ _ 16 (hist ++ [q]))|].
  rewrite <-app_assoc. apply list_lookup_insert_eq. by eapply lookup_lt_Some.
Qed.

(** A domain for one thread id, and threads that have it. *)
Definition fresh_user : user := mkUser 0 UIdle (λ _, 0%nat) [].
Definition one_id (us : gmap nat user) : state :=
  mkState (replicate 16 [None]) us (mkReclaimer RIdle (λ _, 0%nat) [] [] []).

Lemma one_id_initial us : (∀ t u, us !! t = Some u → u = fresh_user) → initial 1 (one_id us).
Proof. intros Hus. split; [done| |done]. intros t u ->%Hus. simpl. by split_and!; [lia|..]. Qed.

(** The three accesses of an [acquire] that finds the first slot null. *)
Lemma acquire_first p v hs hist k ss :
  p ≠ None → ss !! 0%nat = Some hist → (v 0 ≤ k)%nat → hist !! k = Some None →
  rtc (λ x y, user_step not_null own_part x.1 x.2 y.1 y.2) (ss, mkUser 0 UIdle v hs) (ss, mkUser 0 (UStore p 0) (<[0 := k]> v) hs)%nat.
Proof.
  intros Hp Hs Hv Hk. apply (rtc_l _ _ (ss, mkUser 0 (UScan p 0) v hs)); [by apply us_acquire|].
  apply rtc_once. simpl. apply (us_free _ _ _ 0 _ _ _ 0 hist); [unfold MAX_HAZARD_PTRS; lia|done..].
Qed.

Lemma users_run s t x y :
  rtc (λ x y, user_step not_null own_part x.1 x.2 y.1 y.2) x y → slots s = x.1 → users s !! t = Some x.2 →
  rtc step s (mkState y.1 (<[t := y.2]> (users s)) (owner s)).
Proof.
  intros Hrun. revert s. induction Hrun as [x|x y z Hxy _ IH]; intros s Hs Hu.
  - rewrite insert_id by done. rewrite <-Hs. by destruct s.
  - eapply rtc_l; [apply (step_user _ _ s t x.2 y.1 y.2 Hu); by rewrite Hs|].
    specialize (IH (mkState y.1 (<[t := y.2]> (users s)) (owner s)) eq_refl).
    simpl in IH. rewrite lookup_insert_eq, insert_insert_eq in IH. by apply IH.
Qed.

Definition five : option ptr := Some 5%positive.
Definition six : option ptr := Some 6%positive.

(** One thread has acquired the first slot for 5. *)
Definition holding : user := mkUser 0 UIdle (<[0 := 1]> (<[0 := 0]> (λ _, 0)))%nat [(0%nat, five)].
Definition protecting (r : reclaimer) : state :=
  mkState ([None; five] :: replicate 15 [None]) {[ 0%nat := holding ]} r.

Lemma protecting_reachable :
  rtc step (one_id {[ 0%nat := fresh_user ]}) (protecting (mkReclaimer RIdle (λ _, 0%nat) [] [] [])).
Proof.
  assert (rtc (λ x y, user_step not_null own_part x.1 x.2 y.1 y.2) (replicate 16 [None], fresh_user)
    ([None; five] :: replicate 15 [None], holding)) as Hrun.
  { etrans; [by apply (acquire_first five _ _ [None] 0)|].
    apply rtc_once. exact (us_store not_null own_part (replicate 16 [None]) 0 _ [] five 0 [None] eq_refl). }
  pose proof (users_run (one_id {[ 0%nat := fresh_user ]}) 0 _ _ Hrun eq_refl eq_refl) as Hs.
  simpl in Hs. by rewrite insert_singleton_eq in Hs.
Qed.

(** Loads that miss every store: a comparison with all the slots. *)
Lemma stale_misses ss ps ds asked flags p v j :
  (∀ h hist, ss !! h = Some hist → hist !! 0%nat = Some None) → ps !! length flags = Some p →
  (∀ h, v h = 0%nat) → (j ≤ length ss)%nat →
  ∃ v', (∀ h, v' h = 0%nat) ∧
    rtc (reclaimer_step ss) (mkReclaimer (RScan flags j) v ps ds asked)
      (mkReclaimer (RScan (flags ++ [false]) 0) v' ps ds asked).
Proof.
  intros Hss Hp Hv Hj. remember (length ss - j)%nat as d eqn:Hd. revert v j Hv Hj Hd.
  induction d as [|d IH]; intros v j Hv Hj Hd.
  - assert (j = length ss) as -> by lia. exists v. split; [done|]. apply rtc_once. by eapply rs_clear.
  - destruct (lookup_lt_is_Some_2 ss j) as [hist Hh]; [lia|].
    destruct (IH (<[j := 0%nat]> v) (S j)) as (v' & Hv' & Hrun); [|lia|lia|].
    { intros h. destruct (decide (j = h)) as [->|]; [by rewrite fn_lookup_insert|by rewrite fn_lookup_insert_ne]. }
    exists v'. split; [done|]. eapply rtc_l; [|exact Hrun].
    eapply rs_miss; [done|done|by rewrite Hv; apply Nat.le_0_l|by eapply Hss|done].
Qed.

Lemma reclaimer_run ss us r r' :
  rtc (reclaimer_step ss) r r' → rtc step (mkState ss us r) (mkState ss us r').
Proof. intros Hrun. induction Hrun; [done|]. eapply rtc_l; [|done]. by apply (step_reclaimer _ _ (mkState ss us x)). Qed.

(** Acquire and release are not enough: the thread has its pointer in a hazard slot since
    before [retire] was called and still has it, and the scan, reading older stores, deletes
    the pointer all the same. *)
Lemma stale_scan_deletes_protected :
  ∃ s0 s, initial 1 s0 ∧ rtc step s0 s ∧
    (∃ u, users s !! 0%nat = Some u ∧ (0%nat, five) ∈ held u) ∧
    slots s !! 0%nat = Some [None; five] ∧ 5%positive ∈ deleted (owner s).
Proof.
  set (ss := [None; five] :: replicate 15 [None]).
  assert (∀ h hist, ss !! h = Some hist → hist !! 0%nat = Some None) as Hss.
  { intros [|h] hist; [by intros [= <-]|]. by intros [-> _]%(lookup_replicate 15). }
  destruct (stale_misses ss [5; 6]%positive [] [5; 6]%positive [] 5%positive (λ _, 0%nat) 0 Hss)
    as (v1 & Hv1 & Hrun1); [done|done|simpl; lia|].
  destruct (stale_misses ss [5; 6]%positive [] [5; 6]%positive [false] 6%positive v1 0 Hss)
    as (v2 & Hv2 & Hrun2); [done|done|simpl; lia|].
  exists (one_id {[ 0%nat := fresh_user ]}).
  exists (protecting (mkReclaimer RIdle v2 [] [5; 6]%positive [5; 6]%positive)).
  split; [apply one_id_initial; by intros t u [_ <-]%lookup_singleton_Some|].
  split; [|split; [exists holding; split; [done|by left]|split; [done|by left]]].
  etrans; [exact protecting_reachable|]. apply reclaimer_run.
  eapply rtc_l; [apply rs_retire|]. eapply rtc_l; [apply rs_retire|]. cbn.
  etrans; [exact Hrun1|]. etrans; [exact Hrun2|]. apply rtc_once. by apply rs_reclaim.
Qed.

(** Two threads whose ids collide modulo the number of threads find the same slot free, and
    the second store takes the protection of the first away. *)
Lemma shared_id_shares_slot :
  ∃ s0 s, initial 1 s0 ∧ rtc step s0 s ∧
    (∃ u, users s !! 0%nat = Some u ∧ held u = [(0%nat, five)]) ∧
    (∃ u, users s !! 1%nat = Some u ∧ held u = [(0%nat, six)]) ∧
    slots s !! 0%nat = Some [None; five; six].
Proof.
  set (ss := replicate 16 [None] : list history).
  set (found p := mkUser 0 (UStore p 0) (<[0 := 0]> (λ _, 0))%nat []).
  assert (∀ p, p ≠ None → rtc (λ x y, user_step not_null own_part x.1 x.2 y.1 y.2) (ss, fresh_user) (ss, found p)) as Hfind.
  { intros p Hp. by apply (acquire_first p _ _ [None] 0). }
  set (us := <[0%nat := fresh_user]> {[ 1%nat := fresh_user ]} : gmap nat user).
  exists (one_id us).
  pose proof (users_run (one_id us) 0 _ _ (Hfind five ltac:(done)) eq_refl eq_refl) as H1.
  pose proof (users_run (mkState ss (<[0%nat := found five]> us) (owner (one_id us))) 1 _ _
    (Hfind six ltac:(done)) eq_refl eq_refl) as H2.
  eexists. split; [|split; [etrans; [exact H1|]; etrans; [exact H2|]|]].
  - apply one_id_initial. intros t u [[_ <-]|[_ [_ <-]%lookup_singleton_Some]]%lookup_insert_Some; done.
  - eapply rtc_l; [eapply (step_user _ _ _ 0 (found five)); [done|by apply (us_store _ _ _ 0 _ _ _ 0 [None])]|].
    eapply rtc_l; [eapply (step_user _ _ _ 1 (found six)); [done|by apply (us_store _ _ _ 0 _ _ _ 0 [None; five])]|].
    done.
  - split_and!; [by eexists..|done].
Qed.

(** ** Concrete runs of the theorems *)

(** The reclaimer knows the store of 5, and scans for 5 and 6. *)
Definition informed : nat → nat := (<[0 := 1]> (λ _, 0))%nat.

Lemma informed_run :
  rtc step (protecting (mkReclaimer RIdle informed [] [] []))
    (protecting (mkReclaimer (RScan [true] 0) (<[0%nat := 1%nat]> informed) [5; 6]%positive [] [5; 6]%positive)).
Proof.
  apply reclaimer_run. eapply rtc_l; [apply rs_retire|]. eapply rtc_l; [apply rs_retire|]. cbn.
  apply rtc_once. by apply (rs_hit _ _ _ _ _ [] 0 5%positive [None; five] 1%nat).
Qed.
End Runs.

Lemma hazard_slot_protects_witness :
  5%positive ∉ deleted (owner (protecting
    (mkReclaimer (RScan [true] 0) (<[0%nat := 1%nat]> informed) [5; 6]%positive [] [5; 6]%positive))).
Proof.
  exact (hazard_slot_protects not_null own_part (protecting (mkReclaimer RIdle informed [] [] [])) _ 0 [None; five]
    5%positive eq_refl eq_refl eq_refl (le_n 2) (not_elem_of_nil 5%positive) informed_run eq_refl).
Defined.

Lemma acquired_slots_are_exclusive_witness :
  NoDup (held holding).*1 ∧ ∀ i p, (i, p) ∈ held holding →
    ∃ hist, slots (protecting (mkReclaimer RIdle (λ _, 0%nat) [] [] [])) !! slot_of (thread_id holding) i = Some hist ∧
      last hist = Some p.
Proof.
  refine (acquired_slots_are_exclusive not_null own_part 1 (λ p Hp, Hp) (λ slot Hs, Hs) (one_id {[ 0%nat := fresh_user ]}) _ 0 holding
    _ _ protecting_reachable eq_refl).
  - apply one_id_initial. by intros t u [_ <-]%lookup_singleton_Some.
  - simpl. by intros t t' u u' [<- _]%lookup_singleton_Some [<- _]%lookup_singleton_Some.
Defined.

Lemma hazard_reclaims_once_witness :
  [] ++ [5; 6]%positive ≡ₚ [5; 6]%positive ∧
  ∃ s r', slots s = [None; five] :: replicate 15 [None] ∧ rpc (owner s) = RScan [] 0 ∧
    reclaimer_step (slots s) (owner s) r' ∧ rpc r' ≠ RScan [] 0.
Proof.
  set (s := protecting (mkReclaimer (RScan [] 0) (λ _, 0%nat) [5; 6]%positive [] [5; 6]%positive)).
  assert (rtc (HazardConc.step not_null own_part) (one_id {[ 0%nat := fresh_user ]}) s) as Hrun.
  { etrans; [exact protecting_reachable|]. apply reclaimer_run.
    eapply rtc_l; [apply (rs_retire _ _ _ _ _ 5%positive)|]. apply rtc_once.
    apply (rs_retire _ _ [5%positive] _ [5%positive] 6%positive). }
  destruct (hazard_reclaims_once not_null own_part 1 (one_id {[ 0%nat := fresh_user ]}) s
    ltac:(apply one_id_initial; by intros t u [_ <-]%lookup_singleton_Some) Hrun) as [Ha Hscan].
  split; [exact Ha|]. destruct (Hscan ltac:(discriminate)) as [(r' & Hr & Hne) _].
  by exists s, r'.
Defined.
End HazardConc.
