(* ===== verification/PriceLadder.v ===== *)
(** * [FlatPriceLadder]: the sorted vector of 1_orderbook/include/price_level.hpp

    The levels of one side of the book, kept in increasing price order and searched
    by [std::lower_bound].  A pointer or reference into the vector is the index of
    the element.  The operations refine a finite map from prices to levels. *)
From S2P Require Import Prelude.

Module Ladder.

Record PriceLevel : Type := mkLevel {
  price_ticks : Z;       (* int64_t *)
  total_quantity : Z;    (* uint64_t *)
  order_count : Z;       (* uint32_t *)
  padding : Z            (* uint32_t *)
}.

#[export] Instance PriceLevel_eq_dec : EqDecision PriceLevel.
Proof. solve_decision. Defined.

(** [levels_] *)
Record FlatPriceLadder : Type := mkLadder { levels_ : list PriceLevel }.

Definition FlatPriceLadder_new : FlatPriceLadder := mkLadder [].

(** ** [std::lower_bound] with the comparator [l.price_ticks < p]

    The library's halving search over [len] elements from [first]. *)
Fixpoint lower_bound_loop (fuel : nat) (ls : list PriceLevel) (p : Z) (first len : nat)
    : outcome nat :=
  if (len =? 0)%nat then Ok first
  else match fuel with
       | O => Fault Diverges
       | S fuel =>
           let half := Nat.div2 len in
           let middle := (first + half)%nat in
           l ← aread ls (Z.of_nat middle);
           if price_ticks l <? p
           then lower_bound_loop fuel ls p (S middle) (len - half - 1)
           else lower_bound_loop fuel ls p first half
       end.

Definition lower_bound (ls : list PriceLevel) (p : Z) : outcome nat :=
  lower_bound_loop (length ls) ls p 0 (length ls).

(** [it != levels_.end() && it->price_ticks == price_ticks] *)
Definition at_price (ls : list PriceLevel) (it : nat) (p : Z) : option PriceLevel :=
  match ls !! it with
  | Some l => if price_ticks l =? p then Some l else None
  | None => None
  end.

Definition find (lad : FlatPriceLadder) (p : Z) : outcome (option nat) :=
  it ← lower_bound (levels_ lad) p;
  Ok (match at_price (levels_ lad) it p with Some _ => Some it | None => None end).

(** [vector::insert] before the iterator [it] and [vector::erase]. *)
Definition vector_insert (ls : list PriceLevel) (it : nat) (l : PriceLevel) : list PriceLevel :=
  take it ls ++ l :: drop it ls.
Definition vector_erase (ls : list PriceLevel) (it : nat) : list PriceLevel :=
  take it ls ++ drop (S it) ls.

Definition upsert (lad : FlatPriceLadder) (p qty_delta : Z) : outcome (FlatPriceLadder * nat) :=
  it ← lower_bound (levels_ lad) p;
  match at_price (levels_ lad) it p with
  | Some l =>
      let l' := mkLevel (price_ticks l) (u64 (total_quantity l + qty_delta))
                        (u32 (order_count l + 1)) (padding l) in
      Ok (mkLadder (<[it := l']> (levels_ lad)), it)
  | None => Ok (mkLadder (vector_insert (levels_ lad) it (mkLevel p qty_delta 1 0)), it)
  end.

Definition remove_if_empty (lad : FlatPriceLadder) (p : Z) : outcome FlatPriceLadder :=
  it ← lower_bound (levels_ lad) p;
  match at_price (levels_ lad) it p with
  | Some l =>
      if total_quantity l =? 0 then Ok (mkLadder (vector_erase (levels_ lad) it)) else Ok lad
  | None => Ok lad
  end.

(** [&levels_.back()] and [&levels_.front()], or [nullptr]. *)
Definition best (lad : FlatPriceLadder) : option nat :=
  match levels_ lad with [] => None | ls => Some (pred (length ls)) end.
Definition worst (lad : FlatPriceLadder) : option nat :=
  match levels_ lad with [] => None | _ => Some 0%nat end.

Definition size (lad : FlatPriceLadder) : nat := length (levels_ lad).
Definition empty (lad : FlatPriceLadder) : bool := (size lad =? 0)%nat.

(** ** The search finds the partition point *)

(** [lower_bound] needs no more than a vector split in levels below [p] and levels
    not below it. *)
Lemma lower_bound_loop_spec ls p k fuel first len :
  (∀ i l, ls !! i = Some l → (price_ticks l < p ↔ (i < k)%nat)) →
  (first ≤ k ≤ first + len)%nat → (first + len ≤ length ls)%nat → (len ≤ fuel)%nat →
  lower_bound_loop fuel ls p first len = Ok k.
Proof.
  intros Hpart. revert first len.
  induction fuel as [|fuel IH]; intros first len Hk Hlen Hfuel; simpl.
  - destruct (Nat.eqb_spec len 0); [f_equal; lia|lia].
  - destruct (Nat.eqb_spec len 0); [f_equal; lia|].
    pose proof (Nat.div2_odd len) as Hodd.
    assert (Nat.b2n (Nat.odd len) ≤ 1)%nat by (destruct (Nat.odd len); simpl; lia).
    destruct (lookup_lt_is_Some_2 ls (first + Nat.div2 len)) as [l Hl]; [lia|].
    rewrite (aread_nat _ _ l Hl). simpl.
    pose proof (Hpart _ _ Hl) as Hiff. case_Z; apply IH; lia.
Qed.

Definition below (p : Z) : list PriceLevel → Prop := Forall (λ l, price_ticks l < p).
Definition above (p : Z) : list PriceLevel → Prop := Forall (λ l, p < price_ticks l).
Definition not_below (p : Z) : list PriceLevel → Prop := Forall (λ l, p ≤ price_ticks l).

Lemma lower_bound_split pre post p :
  below p pre → not_below p post → lower_bound (pre ++ post) p = Ok (length pre).
Proof.
  intros Hpre Hpost. apply lower_bound_loop_spec; [|rewrite length_app; lia..].
  intros i l [Hi|[Hi Hl]]%lookup_app_Some.
  - pose proof (lookup_lt_Some _ _ _ Hi). apply (Forall_lookup_1 _ _ _ _ Hpre) in Hi. lia.
  - apply (Forall_lookup_1 _ _ _ _ Hpost) in Hl. lia.
Qed.

(** ** Sorted ladders *)
Definition sorted : list PriceLevel → Prop :=
  StronglySorted (λ a b, price_ticks a < price_ticks b).

#[export] Instance sorted_dec ls : Decision (sorted ls).
Proof. unfold sorted. apply _. Defined.

Lemma sorted_app pre post :
  sorted (pre ++ post) ↔
  sorted pre ∧ sorted post ∧
  (∀ a b, a ∈ pre → b ∈ post → price_ticks a < price_ticks b).
Proof.
  unfold sorted. rewrite StronglySorted_app. tauto.
Qed.

Lemma sorted_mid pre l post :
  sorted (pre ++ l :: post) ↔
  sorted pre ∧ sorted post ∧ below (price_ticks l) pre ∧ above (price_ticks l) post ∧
  (∀ a b, a ∈ pre → b ∈ post → price_ticks a < price_ticks b).
Proof.
  rewrite sorted_app. unfold sorted at 2, below, above. rewrite !Forall_forall. split.
  - intros (? & [? Hp]%StronglySorted_inv & Hlt). rewrite Forall_forall in Hp.
    repeat split; [done|done| |done|]; intros; apply Hlt; set_solver.
  - intros (? & ? & Hb & Ha & Hlt). repeat split; [done| |].
    + constructor; [done|]. by apply Forall_forall.
    + intros a b Hin [->|]%elem_of_cons; auto.
Qed.

(** Changing a level without changing its price keeps the order. *)
Lemma sorted_replace pre l l' post :
  price_ticks l' = price_ticks l → sorted (pre ++ l :: post) → sorted (pre ++ l' :: post).
Proof. rewrite !sorted_mid. by intros ->. Qed.

Lemma sorted_remove pre l post : sorted (pre ++ l :: post) → sorted (pre ++ post).
Proof. rewrite sorted_mid, sorted_app. naive_solver. Qed.

Lemma above_not_below p ls : above p ls → not_below p ls.
Proof. intros H. eapply Forall_impl; [exact H|]. simpl. lia. Qed.

(** A price is either the price of one level or falls between two. *)
Lemma sorted_split ls p :
  sorted ls →
  (∃ pre l post, ls = pre ++ l :: post ∧ price_ticks l = p) ∨
  (∃ pre post, ls = pre ++ post ∧ below p pre ∧ above p post).
Proof.
  unfold sorted, below, above. induction 1 as [|x ls Hs IH Hall].
  - right. exists [], []. done.
  - destruct (Z.lt_trichotomy (price_ticks x) p) as [Hlt|[Heq|Hgt]].
    + destruct IH as [(pre & l & post & -> & Hp)|(pre & post & -> & Hb & Ha)].
      * left. by exists (x :: pre), l, post.
      * right. exists (x :: pre), post. repeat split; [by constructor|done].
    + left. by exists [], x, ls.
    + right. exists [], (x :: ls). repeat split; [done|]. constructor; [done|].
      eapply Forall_impl; [exact Hall|]. simpl. lia.
Qed.

(** ** The operations on a split ladder *)
Lemma at_price_mid pre l post :
  at_price (pre ++ l :: post) (length pre) (price_ticks l) = Some l.
Proof. unfold at_price. rewrite list_lookup_middle by done. by rewrite Z.eqb_refl. Qed.

Lemma at_price_absent pre post p :
  above p post → at_price (pre ++ post) (length pre) p = None.
Proof.
  intros Ha. unfold at_price. rewrite lookup_app_r, Nat.sub_diag by done.
  destruct post as [|l post]; [done|]. simpl. inversion_clear Ha. case_Z; [lia|done].
Qed.

Lemma lower_bound_mid pre l post :
  sorted (pre ++ l :: post) → lower_bound (pre ++ l :: post) (price_ticks l) = Ok (length pre).
Proof.
  intros (_ & _ & Hb & Ha & _)%sorted_mid. apply lower_bound_split; [done|].
  constructor; [lia|by apply above_not_below].
Qed.

Lemma lower_bound_absent pre post p :
  below p pre → above p post → lower_bound (pre ++ post) p = Ok (length pre).
Proof. intros. apply lower_bound_split; [done|by apply above_not_below]. Qed.

Lemma find_mid pre l post :
  sorted (pre ++ l :: post) →
  find (mkLadder (pre ++ l :: post)) (price_ticks l) = Ok (Some (length pre)).
Proof. intros Hs. unfold find. simpl. rewrite lower_bound_mid by done. simpl. by rewrite at_price_mid. Qed.

Lemma find_absent pre post p :
  below p pre → above p post → find (mkLadder (pre ++ post)) p = Ok None.
Proof.
  intros. unfold find. simpl. rewrite lower_bound_absent by done. simpl.
  by rewrite at_price_absent.
Qed.

Definition bump (l : PriceLevel) (q : Z) : PriceLevel :=
  mkLevel (price_ticks l) (u64 (total_quantity l + q)) (u32 (order_count l + 1)) (padding l).

Lemma upsert_mid pre l post q :
  sorted (pre ++ l :: post) →
  upsert (mkLadder (pre ++ l :: post)) (price_ticks l) q =
    Ok (mkLadder (pre ++ bump l q :: post), length pre).
Proof.
  intros Hs. unfold upsert. simpl. rewrite lower_bound_mid by done. simpl.
  rewrite at_price_mid. do 3 f_equal. rewrite insert_app_r_alt, Nat.sub_diag by done. done.
Qed.

Lemma upsert_absent pre post p q :
  below p pre → above p post →
  upsert (mkLadder (pre ++ post)) p q =
    Ok (mkLadder (pre ++ mkLevel p q 1 0 :: post), length pre).
Proof.
  intros. unfold upsert. simpl. rewrite lower_bound_absent by done. simpl.
  rewrite at_price_absent by done. unfold vector_insert.
  by rewrite take_app_length, drop_app_length.
Qed.

Lemma remove_if_empty_mid pre l post :
  sorted (pre ++ l :: post) →
  remove_if_empty (mkLadder (pre ++ l :: post)) (price_ticks l) =
    Ok (mkLadder (if total_quantity l =? 0 then pre ++ post else pre ++ l :: post)).
Proof.
  intros Hs. unfold remove_if_empty. simpl. rewrite lower_bound_mid by done. simpl.
  rewrite at_price_mid. case_Z; [|done]. unfold vector_erase.
  rewrite take_app_length. do 3 f_equal.
  replace (S (length pre)) with (length (pre ++ [l])) by (rewrite length_app; simpl; lia).
  rewrite (assoc app pre [l] post). apply drop_app_length.
Qed.

Lemma remove_if_empty_absent pre post p :
  below p pre → above p post →
  remove_if_empty (mkLadder (pre ++ post)) p = Ok (mkLadder (pre ++ post)).
Proof.
  intros. unfold remove_if_empty. simpl. rewrite lower_bound_absent by done. simpl.
  by rewrite at_price_absent.
Qed.

(** ** The finite map a ladder represents *)
Definition entry (l : PriceLevel) : Z * (Z * Z) :=
  (price_ticks l, (total_quantity l, order_count l)).

Definition ladder_map (ls : list PriceLevel) : gmap Z (Z * Z) := list_to_map (entry <$> ls).

(** A linear count of the levels below a price: the reference for the search. *)
Fixpoint count_below (p : Z) (ls : list PriceLevel) : nat :=
  match ls with
  | [] => 0
  | l :: ls => if price_ticks l <? p then S (count_below p ls) else count_below p ls
  end.

Lemma count_below_split pre post p :
  below p pre → not_below p post → count_below p (pre ++ post) = length pre.
Proof.
  unfold below, not_below. induction 1 as [|l pre Hl Hb IH]; intros Hpost; simpl.
  - induction Hpost as [|l post Hl Hp IH]; simpl; [done|]. case_Z; [lia|done].
  - case_Z; [|lia]. by rewrite IH.
Qed.

Lemma ladder_map_absent ls p :
  Forall (λ l, price_ticks l ≠ p) ls → ladder_map ls !! p = None.
Proof.
  intros Hne. apply not_elem_of_list_to_map_1. rewrite <-list_fmap_compose.
  intros (l & -> & Hl)%list_elem_of_fmap. rewrite Forall_forall in Hne. by apply (Hne l).
Qed.

Lemma below_ne p ls : below p ls → Forall (λ l, price_ticks l ≠ p) ls.
Proof. intros H. eapply Forall_impl; [exact H|]. simpl. lia. Qed.
Lemma above_ne p ls : above p ls → Forall (λ l, price_ticks l ≠ p) ls.
Proof. intros H. eapply Forall_impl; [exact H|]. simpl. lia. Qed.

Lemma ladder_map_split_absent pre post p :
  below p pre → above p post → ladder_map (pre ++ post) !! p = None.
Proof.
  intros ??. apply ladder_map_absent, Forall_app. auto using below_ne, above_ne.
Qed.

Lemma ladder_map_mid pre l post :
  below (price_ticks l) pre →
  ladder_map (pre ++ l :: post) =
    <[price_ticks l := (total_quantity l, order_count l)]> (ladder_map (pre ++ post)).
Proof.
  intros Hb. unfold ladder_map. rewrite !fmap_app, !list_to_map_app. simpl.
  symmetry. apply insert_union_r. by apply ladder_map_absent, below_ne.
Qed.

Lemma ladder_map_mid_lookup pre l post :
  below (price_ticks l) pre →
  ladder_map (pre ++ l :: post) !! price_ticks l = Some (total_quantity l, order_count l).
Proof. intros. rewrite ladder_map_mid by done. apply lookup_insert_eq. Qed.

Lemma ladder_map_elem ls l :
  sorted ls → l ∈ ls → ladder_map ls !! price_ticks l = Some (total_quantity l, order_count l).
Proof.
  intros Hs (pre & post & ->)%list_elem_of_split.
  apply sorted_mid in Hs as (_ & _ & Hb & _). by apply ladder_map_mid_lookup.
Qed.

(** ** Correctness of the operations *)

(** On a sorted vector, the halving search of [std::lower_bound] terminates, never
    reads outside the vector and returns the number of levels priced below [p],
    as a linear scan would. *)
Lemma lower_bound_counts_below ls p (Hs : sorted ls) :
  lower_bound ls p = Ok (count_below p ls).
Proof.
  destruct (sorted_split ls p Hs) as [(pre & l & post & -> & <-)|(pre & post & -> & Hb & Ha)].
  - rewrite lower_bound_mid by done. apply sorted_mid in Hs as (_ & _ & Hb & Ha & _).
    rewrite count_below_split; [done|done|].
    constructor; [lia|by apply above_not_below].
  - rewrite lower_bound_absent by done.
    rewrite count_below_split; [done|done|by apply above_not_below].
Qed.

(** C26: [upsert] on a sorted ladder keeps it sorted, adds the quantity (modulo 2^64)
    and one order (modulo 2^32) to the level of the price, or creates that level
    with one order, changes no other level, and returns the level of the price. *)
Theorem upsert_refines_map_insert ls p q (Hs : sorted ls) :
  ∃ ls' it l, upsert (mkLadder ls) p q = Ok (mkLadder ls', it) ∧
    sorted ls' ∧ ls' !! it = Some l ∧ price_ticks l = p ∧
    ladder_map ls' =
      <[p := match ladder_map ls !! p with
             | Some (t, n) => (u64 (t + q), u32 (n + 1))
             | None => (q, 1)
             end]> (ladder_map ls).
Proof.
  destruct (sorted_split ls p Hs) as [(pre & l & post & -> & <-)|(pre & post & -> & Hb & Ha)].
  - rewrite upsert_mid by done. do 3 eexists. split; [done|].
    split; [by eapply sorted_replace; [|exact Hs]|].
    rewrite list_lookup_middle by done. repeat split.
    apply sorted_mid in Hs as (_ & _ & Hb & _).
    rewrite ladder_map_mid_lookup, (ladder_map_mid pre (bump l q)), (ladder_map_mid pre l) by done.
    by rewrite insert_insert_eq.
  - rewrite upsert_absent by done. do 3 eexists. split; [done|].
    rewrite ladder_map_split_absent, list_lookup_middle, ladder_map_mid by done.
    repeat split. apply sorted_mid. apply sorted_app in Hs as (? & ? & ?). done.
Qed.

(** C27: [remove_if_empty] on a sorted ladder keeps it sorted and deletes the level of
    the price exactly when its quantity is zero; every other level stays. *)
Theorem remove_if_empty_refines_map_delete ls p (Hs : sorted ls) :
  ∃ ls', remove_if_empty (mkLadder ls) p = Ok (mkLadder ls') ∧ sorted ls' ∧
    ladder_map ls' =
      match ladder_map ls !! p with
      | Some (t, _) => if t =? 0 then delete p (ladder_map ls) else ladder_map ls
      | None => ladder_map ls
      end.
Proof.
  destruct (sorted_split ls p Hs) as [(pre & l & post & -> & <-)|(pre & post & -> & Hb & Ha)].
  - rewrite remove_if_empty_mid by done. eexists. split; [done|].
    pose proof Hs as (_ & _ & Hb & Ha & _)%sorted_mid.
    rewrite ladder_map_mid_lookup by done. case_Z; [|done].
    split; [by eapply sorted_remove|].
    rewrite ladder_map_mid, delete_insert_id by (done || by apply ladder_map_split_absent). done.
  - rewrite remove_if_empty_absent, ladder_map_split_absent by done. by eexists.
Qed.

(** On a sorted ladder [find] returns the level of the price when the map has one
    and [nullptr] otherwise, [best] the level of the greatest price, [worst] that
    of the least, and both are [nullptr] only for the empty ladder. *)
Lemma ladder_queries_refine_map ls p (Hs : sorted ls) :
  (∃ r, find (mkLadder ls) p = Ok r ∧
    match r with
    | Some it => ∃ l, ls !! it = Some l ∧ price_ticks l = p ∧
        ladder_map ls !! p = Some (total_quantity l, order_count l)
    | None => ladder_map ls !! p = None
    end) ∧
  match best (mkLadder ls), worst (mkLadder ls) with
  | Some b, Some w => ∃ lb lw, ls !! b = Some lb ∧ ls !! w = Some lw ∧
      ∀ k v, ladder_map ls !! k = Some v → price_ticks lw ≤ k ≤ price_ticks lb
  | None, None => ladder_map ls = ∅
  | _, _ => False
  end.
Proof.
  split.
  - destruct (sorted_split ls p Hs) as [(pre & l & post & -> & <-)|(pre & post & -> & Hb & Ha)].
    + rewrite find_mid by done. eexists. split; [done|]. exists l.
      apply sorted_mid in Hs as (_ & _ & Hb & _).
      by rewrite list_lookup_middle, ladder_map_mid_lookup.
    + rewrite find_absent by done. eexists. split; [done|]. by apply ladder_map_split_absent.
  - destruct ls as [|w ls]; [done|]. unfold best, worst. simpl.
    destruct (lookup_lt_is_Some_2 (w :: ls) (length ls)) as [b Hb]; [simpl; lia|].
    exists b, w. repeat split; [done|..];
      apply elem_of_list_to_map_2, list_elem_of_fmap in H as (l & [= -> ->] & Hl).
    + apply StronglySorted_inv in Hs as [_ Hw]. rewrite Forall_forall in Hw.
      apply elem_of_cons in Hl as [->|Hl]; [lia|]. specialize (Hw l Hl). lia.
    + pose proof (take_drop_middle _ _ _ Hb) as Heq.
      rewrite drop_ge in Heq by (simpl; lia). rewrite <-Heq in Hs, Hl.
      apply sorted_mid in Hs as (_ & _ & Hbl & _).
      apply elem_of_app in Hl as [Hl| ->%list_elem_of_singleton]; [|lia].
      apply (proj1 (Forall_forall _ _) Hbl) in Hl. simpl in Hl. lia.
Qed.

(** ** A two-level ladder *)
Definition demo_levels : list PriceLevel := [mkLevel 9500 100 1 0; mkLevel 10000 40 2 0].

Lemma demo_sorted : sorted demo_levels.
Proof. repeat constructor. Qed.

Lemma upsert_refines_map_insert_witness :
  ∃ ls' it l, upsert (mkLadder demo_levels) 10000 60 = Ok (mkLadder ls', it) ∧
    sorted ls' ∧ ls' !! it = Some l ∧ price_ticks l = 10000 ∧
    ladder_map ls' = <[10000 := (100, 3)]> (ladder_map demo_levels).
Proof. exact (upsert_refines_map_insert demo_levels 10000 60 demo_sorted). Defined.

Lemma remove_if_empty_refines_map_delete_witness :
  ∃ ls', remove_if_empty (mkLadder (mkLevel 9000 0 1 0 :: demo_levels)) 9000 =
      Ok (mkLadder ls') ∧ sorted ls' ∧
    ladder_map ls' = delete 9000 (ladder_map (mkLevel 9000 0 1 0 :: demo_levels)).
Proof.
  exact (remove_if_empty_refines_map_delete (mkLevel 9000 0 1 0 :: demo_levels) 9000
           ltac:(repeat constructor)).
Defined.

Lemma ladder_queries_refine_map_example :
  ∃ r, find (mkLadder demo_levels) 9500 = Ok r ∧
    match r with
    | Some it => ∃ l, demo_levels !! it = Some l ∧ price_ticks l = 9500 ∧
        ladder_map demo_levels !! 9500 = Some (total_quantity l, order_count l)
    | None => ladder_map demo_levels !! 9500 = None
    end.
Proof. exact (proj1 (ladder_queries_refine_map demo_levels 9500 demo_sorted)). Defined.
End Ladder.
