(* ===== verification/OrderBook.v ===== *)
(** * [OrderBook]: the matching engine of 1_orderbook/src/order_book.cpp

    The state and the operations of the order book.  The free list of order slots is
    any queue with the [Fifo] interface (the engine's is a [SpscQueue]), the size
    of the pool is a parameter (the engine's is [MAX_ORDERS]), and the time-stamp
    counter is an environment function. *)
From S2P Require Import Prelude Fifo SpscQueue PriceLadder.

Module Book.
Import Ladder.

(** 1_orderbook/include/order.hpp; the padding bytes carry no data. *)
Inductive Side : Set := Buy | Sell.
Inductive OrderType : Set := Limit | Market | Cancel.

Record Order : Type := mkOrder {
  order_id : Z;            (* uint64_t *)
  timestamp_tsc : Z;       (* uint64_t *)
  order_price_ticks : Z;   (* int64_t *)
  quantity : Z;            (* uint32_t *)
  filled_qty : Z;          (* uint32_t *)
  symbol_id : Z;           (* uint32_t *)
  side : Side;
  type : OrderType
}.

Record MatchResult : Type := mkMatch {
  aggressor_id : Z;
  resting_id : Z;
  match_price_ticks : Z;
  match_quantity : Z;
  match_timestamp_tsc : Z
}.

#[export] Instance Side_eq_dec : EqDecision Side.
Proof. solve_decision. Defined.
#[export] Instance OrderType_eq_dec : EqDecision OrderType.
Proof. solve_decision. Defined.
#[export] Instance Order_eq_dec : EqDecision Order.
Proof. solve_decision. Defined.
#[export] Instance MatchResult_eq_dec : EqDecision MatchResult.
Proof. solve_decision. Defined.

(** A value-initialised [Order]: all bytes zero. *)
Definition Order_zero : Order := mkOrder 0 0 0 0 0 0 Buy Limit.

Definition MAX_ORDERS : Z := Z.shiftl 1 20.

(** What the book exchanges with its environment: how many times the time-stamp
    counter was read, and the matches handed to the callback, in call order. *)
Record world : Type := mkWorld { tsc_reads : nat; reported : list MatchResult }.

Record OrderBook (Q : Type) : Type := mkBook {
  symbol_id_ : Z;
  bids_ : FlatPriceLadder;
  asks_ : FlatPriceLadder;
  order_pool_ : list Order;
  free_list_ : Q;
  order_id_to_slot_ : list Z;
  next_order_id_ : Z
}.
Arguments mkBook {Q} _ _ _ _ _ _ _.
Arguments symbol_id_ {Q} _.
Arguments bids_ {Q} _.
Arguments asks_ {Q} _.
Arguments order_pool_ {Q} _.
Arguments free_list_ {Q} _.
Arguments order_id_to_slot_ {Q} _.
Arguments next_order_id_ {Q} _.

Section Setters.
Context {Q : Type} (ob : OrderBook Q).
Definition set_bids x := mkBook (symbol_id_ ob) x (asks_ ob) (order_pool_ ob)
  (free_list_ ob) (order_id_to_slot_ ob) (next_order_id_ ob).
Definition set_asks x := mkBook (symbol_id_ ob) (bids_ ob) x (order_pool_ ob)
  (free_list_ ob) (order_id_to_slot_ ob) (next_order_id_ ob).
Definition set_pool x := mkBook (symbol_id_ ob) (bids_ ob) (asks_ ob) x
  (free_list_ ob) (order_id_to_slot_ ob) (next_order_id_ ob).
Definition set_free (x : Q) := mkBook (symbol_id_ ob) (bids_ ob) (asks_ ob) (order_pool_ ob)
  x (order_id_to_slot_ ob) (next_order_id_ ob).
Definition set_slots x := mkBook (symbol_id_ ob) (bids_ ob) (asks_ ob) (order_pool_ ob)
  (free_list_ ob) x (next_order_id_ ob).
Definition set_next_id x := mkBook (symbol_id_ ob) (bids_ ob) (asks_ ob) (order_pool_ ob)
  (free_list_ ob) (order_id_to_slot_ ob) x.
End Setters.

Definition set_total (l : PriceLevel) (t : Z) : PriceLevel :=
  mkLevel (price_ticks l) t (order_count l) (padding l).

Definition set_quantity (o : Order) (q : Z) : Order :=
  mkOrder (order_id o) (timestamp_tsc o) (order_price_ticks o) q (filled_qty o)
          (symbol_id o) (side o) (type o).

(** Reading and writing a level through a pointer into the ladder. *)
Definition deref (lad : FlatPriceLadder) (it : nat) : outcome PriceLevel :=
  aread (levels_ lad) (Z.of_nat it).
Definition store (lad : FlatPriceLadder) (it : nat) (l : PriceLevel) : FlatPriceLadder :=
  mkLadder (<[it := l]> (levels_ lad)).

Section Engine.
Context {Q : Type} `{FifoOps Z Q} (max_orders : Z) (rdtsc : nat → Z).

Definition TscClock_now (w : world) : Z * world :=
  (rdtsc (tsc_reads w), mkWorld (S (tsc_reads w)) (reported w)).

Definition on_match_ (m : MatchResult) (w : world) : world :=
  mkWorld (tsc_reads w) (reported w ++ [m]).

(** [fuel] bounds the iterations: running out of it is the loop not ending. *)
Fixpoint match_aggressive_buy (fuel : nat) (quantity price : Z)
    (asks : FlatPriceLadder) (w : world) : outcome (Z * FlatPriceLadder * world) :=
  if negb (0 <? quantity) then Ok (quantity, asks, w)
  else match worst asks with
  | None => Ok (quantity, asks, w)
  | Some ask =>
      l ← deref asks ask;
      if price <? price_ticks l then Ok (quantity, asks, w)
      else match fuel with
      | O => Fault Diverges
      | S fuel =>
          let fill_qty := Z.min quantity (u32 (total_quantity l)) in
          let '(now, w1) := TscClock_now w in
          let w2 := on_match_ (mkMatch 0 0 (price_ticks l) fill_qty now) w1 in
          let quantity' := u32 (quantity - fill_qty) in
          let asks1 := store asks ask (set_total l (u64 (total_quantity l - fill_qty))) in
          asks2 ← remove_if_empty asks1 (price_ticks l);
          match_aggressive_buy fuel quantity' price asks2 w2
      end
  end.

Fixpoint match_aggressive_sell (fuel : nat) (quantity price : Z)
    (bids : FlatPriceLadder) (w : world) : outcome (Z * FlatPriceLadder * world) :=
  if negb (0 <? quantity) then Ok (quantity, bids, w)
  else match best bids with
  | None => Ok (quantity, bids, w)
  | Some bid =>
      l ← deref bids bid;
      if price_ticks l <? price then Ok (quantity, bids, w)
      else match fuel with
      | O => Fault Diverges
      | S fuel =>
          let fill_qty := Z.min quantity (u32 (total_quantity l)) in
          let '(now, w1) := TscClock_now w in
          let w2 := on_match_ (mkMatch 0 0 (price_ticks l) fill_qty now) w1 in
          let quantity' := u32 (quantity - fill_qty) in
          let bids1 := store bids bid (set_total l (u64 (total_quantity l - fill_qty))) in
          bids2 ← remove_if_empty bids1 (price_ticks l);
          match_aggressive_sell fuel quantity' price bids2 w2
      end
  end.

Definition cancel_order (id : Z) (ob : OrderBook Q) : outcome (bool * OrderBook Q) :=
  slot ← aread (order_id_to_slot_ ob) (Z.land id (max_orders - 1));
  if max_orders <=? slot then Ok (false, ob)
  else
    order ← aread (order_pool_ ob) slot;
    if negb (order_id order =? id) then Ok (false, ob)
    else
      ob1 ← match side order with
            | Buy => bids' ← remove_if_empty (bids_ ob) (order_price_ticks order);
                     Ok (set_bids ob bids')
            | Sell => asks' ← remove_if_empty (asks_ ob) (order_price_ticks order);
                      Ok (set_asks ob asks')
            end;
      '(_, free') ← fifo_push slot (free_list_ ob1);
      Ok (true, set_free ob1 free').

(** The two calls to the matching loops.  As many iterations as there are levels
    are enough: see [match_aggressive_exact]. *)
Definition match_immediately (s : Side) (quantity price : Z) (ob : OrderBook Q) (w : world)
    : outcome (Z * OrderBook Q * world) :=
  match s with
  | Buy =>
      '(r, asks', w') ← match_aggressive_buy (size (asks_ ob)) quantity price (asks_ ob) w;
      Ok (u32 r, set_asks ob asks', w')
  | Sell =>
      '(r, bids', w') ← match_aggressive_sell (size (bids_ ob)) quantity price (bids_ ob) w;
      Ok (u32 r, set_bids ob bids', w')
  end.

(** The part of [add_order] below its test for [Cancel]. *)
Definition execute_order (s : Side) (price quantity : Z) (t : OrderType) (id : Z)
    (ob : OrderBook Q) (w0 : world) : outcome (Z * OrderBook Q * world) :=
  '(slot_opt, free1) ← fifo_pop (free_list_ ob);
  let ob1 := set_free ob free1 in
  match slot_opt with
  | None => Ok (0, ob1, w0)
  | Some slot =>
      let '(now, w1) := TscClock_now w0 in
      pool1 ← awrite (order_pool_ ob1) slot
                (mkOrder id now price quantity 0 (symbol_id_ ob1) s t);
      slots1 ← awrite (order_id_to_slot_ ob1) (Z.land id (max_orders - 1)) slot;
      let ob2 := set_slots (set_pool ob1 pool1) slots1 in
      '(remaining, ob3, w2) ← match_immediately s quantity price ob2 w1;
      if remaining =? 0 then
        '(_, free2) ← fifo_push slot (free_list_ ob3);
        Ok (id, set_free ob3 free2, w2)
      else
        order ← aread (order_pool_ ob3) slot;
        pool2 ← awrite (order_pool_ ob3) slot (set_quantity order remaining);
        let ob4 := set_pool ob3 pool2 in
        match s with
        | Buy => '(bids', _) ← upsert (bids_ ob4) price remaining;
                 Ok (id, set_bids ob4 bids', w2)
        | Sell => '(asks', _) ← upsert (asks_ ob4) price remaining;
                  Ok (id, set_asks ob4 asks', w2)
        end
  end.

Definition add_order (s : Side) (price quantity : Z) (t : OrderType)
    (ob0 : OrderBook Q) (w0 : world) : outcome (Z * OrderBook Q * world) :=
  let id := next_order_id_ ob0 in
  let ob := set_next_id ob0 (u64 (id + 1)) in
  match t with
  | Cancel =>
      '(_, ob1) ← cancel_order (u64 price) ob;
      Ok (id, ob1, w0)
  | _ => execute_order s price quantity t id ob w0
  end.

(** The constructor: [n] slots from [i] on are pushed to the free list, the result
    of each push ignored. *)
Fixpoint init_free_list (n : nat) (i : Z) (q : Q) : outcome Q :=
  match n with
  | O => Ok q
  | S n => '(_, q') ← fifo_push i q; init_free_list n (i + 1) q'
  end.

Definition OrderBook_new (symbol : Z) (free0 : Q) : outcome (OrderBook Q) :=
  free ← init_free_list (Z.to_nat max_orders) 0 free0;
  Ok (mkBook symbol FlatPriceLadder_new FlatPriceLadder_new
        (replicate (Z.to_nat max_orders) Order_zero) free
        (replicate (Z.to_nat max_orders) 0xFFFFFFFF) 1).

Definition best_bid (ob : OrderBook Q) : option PriceLevel :=
  it ← best (bids_ ob); levels_ (bids_ ob) !! it.
Definition best_ask (ob : OrderBook Q) : option PriceLevel :=
  it ← worst (asks_ ob); levels_ (asks_ ob) !! it.

Definition spread_ticks (ob : OrderBook Q) : outcome Z :=
  match best_bid ob, best_ask ob with
  | Some bid, Some ask => i64_checked (price_ticks ask - price_ticks bid)
  | _, _ => Ok i64_max
  end.

Definition total_orders (ob : OrderBook Q) : Z := u64 (next_order_id_ ob - 1).
End Engine.

End Book.
