(* ===== verification/Matching.v ===== *)
(** * The matching loops

    [sweep] is the reference: one structural pass over the levels in priority order,
    with unbounded quantities.  The two loops of order_book.cpp, which mutate a level
    through a pointer, search the ladder again to erase it and truncate a 64-bit
    total to 32 bits, compute exactly [sweep], or never end when [stalls]. *)
From S2P Require Import Prelude PriceLadder OrderBook.

Module Matching.
Import Ladder Book.

(** ** The reference *)
Section Sweep.
Variable crosses : Z → bool.   (* does a level at this price trade with the order? *)

(** Quantity left, levels left, fills (price and quantity) in order. *)
Fixpoint sweep (q : Z) (ls : list PriceLevel) : Z * list PriceLevel * list (Z * Z) :=
  match ls with
  | [] => (q, [], [])
  | l :: rest =>
      if (q =? 0) || negb (crosses (price_ticks l)) then (q, ls, [])
      else if q <? total_quantity l then
        (0, set_total l (total_quantity l - q) :: rest, [(price_ticks l, q)])
      else
        let '(q', ls', fs) := sweep (q - total_quantity l) rest in
        (q', ls', (price_ticks l, total_quantity l) :: fs)
  end.

(** A level whose 64-bit total does not fit 32 bits stops the loop for ever when
    the order asks for more than its low 32 bits. *)
Fixpoint stalls (q : Z) (ls : list PriceLevel) : bool :=
  match ls with
  | [] => false
  | l :: rest =>
      if (q =? 0) || negb (crosses (price_ticks l)) then false
      else if total_quantity l <? 2 ^ 32 then
        if q <? total_quantity l then false else stalls (q - total_quantity l) rest
      else u32 (total_quantity l) <? q
  end.
End Sweep.

Definition sum (xs : list Z) : Z := foldr Z.add 0 xs.
Definition volume (ls : list PriceLevel) : Z := sum (total_quantity <$> ls).
Definition traded (fs : list (Z * Z)) : Z := sum (fs.*2).

(** The quantity an order may trade: the levels it crosses, best first. *)
Fixpoint liquidity (crosses : Z → bool) (ls : list PriceLevel) : Z :=
  match ls with
  | [] => 0
  | l :: rest => if crosses (price_ticks l) then total_quantity l + liquidity crosses rest else 0
  end.

Definition positive : list PriceLevel → Prop :=
  Forall (λ l, 0 < total_quantity l < 2 ^ 64).

Lemma sum_app xs ys : sum (xs ++ ys) = sum xs + sum ys.
Proof. unfold sum. induction xs; simpl; lia. Qed.

Lemma sum_nonneg xs : Forall (λ x, 0 ≤ x) xs → 0 ≤ sum xs.
Proof. induction 1 as [|x xs Hx _ IH]; [done|]. change (sum (x :: xs)) with (x + sum xs). lia. Qed.

Lemma volume_app xs ys : volume (xs ++ ys) = volume xs + volume ys.
Proof. unfold volume. by rewrite fmap_app, sum_app. Qed.

Lemma volume_cons l ls : volume (l :: ls) = total_quantity l + volume ls.
Proof. done. Qed.

Lemma volume_reverse ls : volume (reverse ls) = volume ls.
Proof.
  induction ls as [|l ls IH]; [done|]. rewrite reverse_cons, volume_app, IH.
  rewrite !volume_cons. change (volume []) with 0. lia.
Qed.

Lemma volume_nonneg ls : positive ls → 0 ≤ volume ls.
Proof. induction 1; [done|]. rewrite volume_cons. simpl in *. lia. Qed.

Lemma traded_cons p q fs : traded ((p, q) :: fs) = q + traded fs.
Proof. done. Qed.

(** A small case analysis repeated by every lemma on [sweep]. *)
Ltac sweep_cases :=
  repeat match goal with
  | |- context [ if (?q =? 0) || negb ?b then _ else _ ] =>
      let Hb := fresh "Hcross" in
      destruct (Z.eqb_spec q 0); simpl; [|destruct b eqn:Hb; simpl]
  | |- context [ if ?a <? ?b then _ else _ ] => destruct (Z.ltb_spec a b)
  end.

(** ** Properties of the reference *)
Section SweepFacts.
Variable crosses : Z → bool.
Abbreviation sweep := (sweep crosses).

(** Nothing is created or destroyed. *)
Lemma sweep_conserves q ls q' ls' fs :
  sweep q ls = (q', ls', fs) → q = q' + traded fs ∧ volume ls = volume ls' + traded fs.
Proof.
  revert q q' ls' fs. induction ls as [|l rest IH]; intros q q' ls' fs; simpl.
  - intros [= <- <- <-]. cbn. lia.
  - sweep_cases; try (intros [= <- <- <-]; rewrite ?volume_cons; cbn; lia).
    destruct (sweep _ rest) as [[q1 ls1] fs1] eqn:Hs. intros [= <- <- <-].
    apply IH in Hs. rewrite volume_cons, traded_cons. lia.
Qed.

(** The fills, and the levels left: what is filled is a prefix of the crossing
    levels, each at its own price and for its whole quantity, except the last,
    which may be partial; the order trades as much as it can. *)
Lemma sweep_fills q ls q' ls' fs :
  0 ≤ q → positive ls → sweep q ls = (q', ls', fs) →
  0 ≤ q' ≤ q ∧ traded fs = Z.min q (liquidity crosses ls) ∧
  Forall (λ f, crosses f.1 = true ∧ 0 < f.2) fs ∧
  fs.*1 = take (length fs) (price_ticks <$> ls) ∧
  positive ls' ∧ (length ls' ≤ length ls)%nat.
Proof.
  intros Hq Hpos. revert q q' ls' fs Hq.
  induction Hpos as [|l rest Hl Hpos IH]; intros q q' ls' fs Hq; simpl.
  - intros [= <- <- <-]. cbn. repeat split; (lia || constructor).
  - assert (0 ≤ liquidity crosses rest) as Hliq.
    { clear IH. induction Hpos; simpl; [lia|]. case_match; lia. }
    sweep_cases.
    + intros [= <- <- <-]. cbn. destruct (crosses _); repeat split;
        (lia || done || by constructor).
    + intros [= <- <- <-]. cbn. repeat split; try (lia || done); repeat constructor; simpl; try done; lia.
    + destruct (sweep _ rest) as [[q1 ls1] fs1] eqn:Hs. intros [= <- <- <-].
      apply IH in Hs as (? & Ht & ? & Hp & ? & ?); [|lia]. rewrite traded_cons. simpl in *.
      split_and!; [lia|lia|lia|by constructor; [simpl; naive_solver|]|by f_equal|done|lia].
    + intros [= <- <- <-]. cbn. repeat split; (lia || done || by constructor).
Qed.

(** An order that is not filled has exhausted the levels it crosses. *)
Lemma sweep_uncrosses q ls q' ls' fs :
  sweep q ls = (q', ls', fs) → q' ≠ 0 →
  match ls' with [] => True | l :: _ => crosses (price_ticks l) = false end.
Proof.
  revert q q' ls' fs. induction ls as [|l rest IH]; intros q q' ls' fs; simpl.
  - by intros [= <- <- <-].
  - sweep_cases; try (by intros [= <- <- <-]).
    destruct (sweep _ rest) as [[q1 ls1] fs1] eqn:Hs. intros [= <- <- <-]. by eapply IH.
Qed.

(** The levels left are the last levels of the ladder, the first of them possibly
    reduced: prices keep their order. *)
Lemma sweep_suffix q ls q' ls' fs :
  sweep q ls = (q', ls', fs) →
  ∃ n, price_ticks <$> ls' = drop n (price_ticks <$> ls) ∧
    (∀ i l', ls' !! S i = Some l' → ls !! (n + S i)%nat = Some l').
Proof.
  revert q q' ls' fs. induction ls as [|l rest IH]; intros q q' ls' fs; simpl.
  - intros [= <- <- <-]. by exists 0%nat.
  - sweep_cases; try (intros [= <- <- <-]; by exists 0%nat).
    destruct (sweep _ rest) as [[q1 ls1] fs1] eqn:Hs. intros [= <- <- <-].
    apply IH in Hs as (k & Hp & Hi). by exists (S k).
Qed.
End SweepFacts.

Lemma stalls_bounded crosses q ls :
  positive ls → Forall (λ l, total_quantity l < 2 ^ 32) ls → stalls crosses q ls = false.
Proof.
  intros Hpos Hb. revert q. induction Hb as [|l rest Hl Hb IH]; intros q; simpl; [done|].
  inversion_clear Hpos. sweep_cases; try done; [|lia]. by apply IH.
Qed.

(** ** A loop that mutates the best level

    What the buy loop and the sell loop have in common: [mk] lays the levels, given
    in priority order, out in the vector, [ok] is its sortedness. *)
Section Loop.
Variables (rdtsc : nat → Z) (crosses : Z → bool).
Variables (mk : list PriceLevel → FlatPriceLadder) (ok : list PriceLevel → Prop).
Variable loop : nat → Z → FlatPriceLadder → world → outcome (Z * FlatPriceLadder * world).

(** One fill: the counter is read and the callback called. *)
Definition report (w : world) (f : Z * Z) : world :=
  mkWorld (S (tsc_reads w))
    (reported w ++ [mkMatch 0 0 f.1 f.2 (rdtsc (tsc_reads w))]).

Definition report_all (fs : list (Z * Z)) (w : world) : world := foldl report w fs.

Definition stops (q : Z) (ls : list PriceLevel) : Prop :=
  q = 0 ∨ match ls with [] => True | l :: _ => crosses (price_ticks l) = false end.

Definition reduced (l : PriceLevel) (f : Z) (rest : list PriceLevel) : list PriceLevel :=
  if total_quantity l - f =? 0 then rest
  else set_total l (total_quantity l - f) :: rest.

Hypothesis loop_stops : ∀ fuel q ls w,
  ok ls → 0 ≤ q → stops q ls → loop fuel q (mk ls) w = Ok (q, mk ls, w).
Hypothesis loop_out_of_fuel : ∀ q l rest w,
  ok (l :: rest) → 0 < q → crosses (price_ticks l) = true →
  loop 0 q (mk (l :: rest)) w = Fault Diverges.
Hypothesis loop_continues : ∀ fuel q l rest w,
  ok (l :: rest) → 0 < q < 2 ^ 32 → 0 < total_quantity l < 2 ^ 64 →
  crosses (price_ticks l) = true →
  let f := Z.min q (u32 (total_quantity l)) in
  loop (S fuel) q (mk (l :: rest)) w =
    loop fuel (q - f) (mk (reduced l f rest)) (report w (price_ticks l, f)).
Hypothesis ok_tail : ∀ l rest, ok (l :: rest) → ok rest.
Hypothesis ok_set : ∀ l t rest, ok (l :: rest) → ok (set_total l t :: rest).

Lemma loop_computes_sweep ls fuel q w :
  ok ls → positive ls → 0 ≤ q < 2 ^ 32 → (length ls ≤ fuel)%nat →
  stalls crosses q ls = false →
  loop fuel q (mk ls) w =
    let '(q', ls', fs) := sweep crosses q ls in Ok (q', mk ls', report_all fs w).
Proof.
  intros Hok Hpos. revert fuel q w Hok.
  induction Hpos as [|l rest Hl Hpos IH]; intros fuel q w Hok Hq Hfuel; simpl.
  { intros _. rewrite loop_stops; [done|done|lia|by right]. }
  sweep_cases; try (intros _; rewrite loop_stops; [done|done|lia|unfold stops; tauto]).
  all: destruct fuel as [|fuel]; simpl in Hfuel; [lia|].
  all: rewrite loop_continues by (done || lia).
  - (* partial fill of a 32-bit total *)
    intros _. rewrite (wrap_small 32), Z.min_l by lia. unfold reduced. case_Z; [lia|].
    rewrite loop_stops; [by rewrite Z.sub_diag|by eapply ok_set|lia|left; lia].
  - (* the level is consumed *)
    intros Hst. rewrite (wrap_small 32), Z.min_r by lia. unfold reduced. case_Z; [|lia].
    rewrite IH by (done || lia || by eapply ok_tail).
    by destruct (sweep crosses _ rest) as [[??]?].
  - (* partial fill of a larger total *)
    intros Hle%Z.ltb_ge. rewrite Z.min_l by lia. unfold reduced. case_Z; [lia|].
    rewrite loop_stops; [by rewrite Z.sub_diag|by eapply ok_set|lia|left; lia].
  - lia.
Qed.

(** Once the low half of the best total is zero, the loop fills nothing for ever. *)
Lemma loop_stuck fuel l rest q w :
  ok (l :: rest) → 0 < q < 2 ^ 32 → 0 < total_quantity l < 2 ^ 64 →
  crosses (price_ticks l) = true → u32 (total_quantity l) = 0 →
  loop fuel q (mk (l :: rest)) w = Fault Diverges.
Proof.
  intros Hok Hq Hl Hc Hz. revert w.
  induction fuel as [|fuel IH]; intros w; [apply loop_out_of_fuel; (done || lia)|].
  rewrite loop_continues by done. rewrite Hz, Z.min_r by lia. unfold reduced.
  rewrite !Z.sub_0_r. case_Z; [lia|]. destruct l. apply IH.
Qed.

Lemma loop_diverges_on_stall ls fuel q w :
  ok ls → positive ls → 0 ≤ q < 2 ^ 32 → stalls crosses q ls = true →
  loop fuel q (mk ls) w = Fault Diverges.
Proof.
  intros Hok Hpos. revert fuel q w Hok.
  induction Hpos as [|l rest Hl Hpos IH]; intros fuel q w Hok Hq; simpl; [done|].
  sweep_cases; try done; intros Hst.
  all: destruct fuel as [|fuel]; [apply loop_out_of_fuel; (done || lia)|].
  all: rewrite loop_continues by (done || lia).
  - rewrite (wrap_small 32), Z.min_r by lia. unfold reduced. case_Z; [|lia].
    apply IH; [by eapply ok_tail|lia|done].
  - apply Z.ltb_lt in Hst. pose proof (wrap_bounds 32 (total_quantity l) ltac:(done)).
    rewrite Z.min_r by lia. unfold reduced. case_Z; [lia|].
    apply loop_stuck; simpl; [by eapply ok_set|lia|lia|done|].
    unfold wrap. rewrite Zminus_mod_idemp_r, Z.sub_diag. done.
Qed.
End Loop.

(** ** The two loops of the engine *)

(** [crosses s p x]: an incoming order on side [s] with limit [p] trades with a
    resting level at price [x]. *)
Definition crosses (s : Side) (p x : Z) : bool :=
  match s with Buy => negb (p <? x) | Sell => negb (x <? p) end.

(** The ladder an order on side [s] trades with: asks from the lowest price, bids
    from the highest. *)
Definition priority (s : Side) (lad : FlatPriceLadder) : list PriceLevel :=
  match s with Buy => levels_ lad | Sell => reverse (levels_ lad) end.
Definition lay_out (s : Side) (ls : list PriceLevel) : FlatPriceLadder :=
  match s with Buy => mkLadder ls | Sell => mkLadder (reverse ls) end.

Lemma lay_out_priority s lad : lay_out s (priority s lad) = lad.
Proof. destruct lad, s; simpl; [done|]. by rewrite reverse_involutive. Qed.

Lemma priority_lay_out s ls : priority s (lay_out s ls) = ls.
Proof. destruct s; simpl; [done|]. apply reverse_involutive. Qed.

Section Engine.
Variable rdtsc : nat → Z.

Definition match_aggressive (s : Side) :=
  match s with
  | Buy => match_aggressive_buy rdtsc
  | Sell => match_aggressive_sell rdtsc
  end.

Definition in_order (s : Side) (ls : list PriceLevel) : Prop := sorted (levels_ (lay_out s ls)).

Lemma fill_wraps q l :
  0 < q < 2 ^ 32 → 0 < total_quantity l < 2 ^ 64 →
  let f := Z.min q (u32 (total_quantity l)) in
  u32 (q - f) = q - f ∧ u64 (total_quantity l - f) = total_quantity l - f.
Proof.
  intros Hq Hl f. pose proof (wrap_bounds 32 (total_quantity l) ltac:(done)).
  assert (u32 (total_quantity l) ≤ total_quantity l) by (apply Z.mod_le; lia).
  split; apply wrap_small; lia.
Qed.

(** The best level of either side, the pointer to it, and the rest. *)
Lemma lay_out_sell l rest : lay_out Sell (l :: rest) = mkLadder (reverse rest ++ [l]).
Proof. simpl. by rewrite reverse_cons. Qed.

Lemma best_snoc ls l : best (mkLadder (ls ++ [l])) = Some (length ls).
Proof.
  unfold best. destruct ls as [|x ls]; simpl; [done|].
  rewrite length_app. simpl. f_equal. lia.
Qed.

Lemma deref_mid pre l post : deref (mkLadder (pre ++ l :: post)) (length pre) = Ok l.
Proof. unfold deref. simpl. apply aread_nat. by apply list_lookup_middle. Qed.

Lemma store_mid pre l l' post :
  store (mkLadder (pre ++ l :: post)) (length pre) l' = mkLadder (pre ++ l' :: post).
Proof. unfold store. simpl. by rewrite insert_app_r_alt, Nat.sub_diag. Qed.

Lemma match_stops s fuel q p ls w :
  0 ≤ q → stops (crosses s p) q ls →
  match_aggressive s fuel q p (lay_out s ls) w = Ok (q, lay_out s ls, w).
Proof.
  intros Hq [->|Hst]; [by destruct s, fuel|].
  destruct ls as [|l rest]; [by destruct s, fuel; simpl; case_match|].
  unfold crosses in Hst. destruct s; apply negb_false_iff in Hst.
  - destruct fuel; simpl; rewrite Hst; by destruct (negb _).
  - rewrite lay_out_sell. destruct fuel; simpl; rewrite best_snoc, deref_mid; simpl;
      rewrite Hst; by destruct (negb _).
Qed.

Lemma match_out_of_fuel s q p l rest w :
  0 < q → crosses s p (price_ticks l) = true →
  match_aggressive s 0 q p (lay_out s (l :: rest)) w = Fault Diverges.
Proof.
  intros Hq Hc. apply Z.ltb_lt in Hq.
  unfold crosses in Hc. destruct s; apply negb_true_iff in Hc.
  - simpl. by rewrite Hq, Hc.
  - rewrite lay_out_sell. simpl. rewrite Hq, best_snoc, deref_mid. simpl. by rewrite Hc.
Qed.

(** The mutated level is searched again, and erased when it is empty. *)
Lemma remove_reduced s l f rest :
  in_order s (l :: rest) →
  remove_if_empty (lay_out s (set_total l (total_quantity l - f) :: rest)) (price_ticks l) =
    Ok (lay_out s (reduced l f rest)).
Proof.
  unfold in_order, reduced. intros Hs. destruct s; simpl in Hs.
  - apply (sorted_replace [] l (set_total l (total_quantity l - f))) in Hs; [|done].
    pose proof (remove_if_empty_mid [] _ _ Hs) as Hr. simpl in Hr. simpl.
    rewrite Hr. by case_match.
  - rewrite reverse_cons in Hs.
    apply (sorted_replace _ l (set_total l (total_quantity l - f))) in Hs; [|done].
    pose proof (remove_if_empty_mid _ _ _ Hs) as Hr. rewrite lay_out_sell.
    simpl in Hr. rewrite Hr. rewrite app_nil_r. case_match; [done|]. by rewrite lay_out_sell.
Qed.

Lemma match_continues s fuel q p l rest w :
  in_order s (l :: rest) → 0 < q < 2 ^ 32 → 0 < total_quantity l < 2 ^ 64 →
  crosses s p (price_ticks l) = true →
  let f := Z.min q (u32 (total_quantity l)) in
  match_aggressive s (S fuel) q p (lay_out s (l :: rest)) w =
    match_aggressive s fuel (q - f) p (lay_out s (reduced l f rest))
      (report rdtsc w (price_ticks l, f)).
Proof.
  intros Hs Hq Hl Hc f. destruct (fill_wraps q l Hq Hl) as [Hq' Hl'].
  pose proof (remove_reduced s l f rest Hs) as Hr.
  assert ((0 <? q) = true) as Hq0 by (apply Z.ltb_lt; lia).
  unfold crosses in Hc. destruct s; apply negb_true_iff in Hc.
  - pose proof (deref_mid [] l rest) as Hd. pose proof (store_mid [] l) as Hst.
    simpl in Hr, Hd, Hst. cbn -[reduced remove_if_empty deref store set_total].
    rewrite Hq0, Hd. cbn -[reduced remove_if_empty store set_total]. rewrite Hc.
    rewrite Hq', Hl'. fold f. by rewrite Hst, Hr.
  - rewrite lay_out_sell in *. cbn -[reduced remove_if_empty lay_out set_total].
    rewrite Hq0, best_snoc. cbn -[reduced remove_if_empty lay_out set_total].
    rewrite deref_mid. cbn -[reduced remove_if_empty lay_out set_total]. rewrite Hc.
    rewrite Hq', Hl'. fold f. by rewrite store_mid, Hr.
Qed.

Lemma in_order_tail s l rest : in_order s (l :: rest) → in_order s rest.
Proof.
  unfold in_order. destruct s; simpl.
  - intros Hs. by apply (sorted_remove []) in Hs.
  - rewrite reverse_cons. intros Hs. apply sorted_remove in Hs. by rewrite app_nil_r in Hs.
Qed.

Lemma in_order_set s l t rest : in_order s (l :: rest) → in_order s (set_total l t :: rest).
Proof.
  unfold in_order. destruct s; simpl.
  - intros Hs. by apply (sorted_replace [] l).
  - rewrite !reverse_cons. intros Hs. by eapply sorted_replace; [|exact Hs].
Qed.

Lemma sweep_in_order s p q ls q' ls' fs :
  in_order s ls → sweep (crosses s p) q ls = (q', ls', fs) → in_order s ls'.
Proof.
  revert q q' ls' fs. induction ls as [|l rest IH]; intros q q' ls' fs Hs; simpl.
  - by intros [= <- <- <-].
  - sweep_cases; try (intros [= <- <- <-]; eauto using in_order_set).
    destruct (sweep _ _ rest) as [[q1 ls1] fs1] eqn:Hsw. intros [= <- <- <-].
    eapply IH; [by eapply in_order_tail|exact Hsw].
Qed.

Lemma sweep_prices s p q ls q' ls' fs l' :
  sweep (crosses s p) q ls = (q', ls', fs) → l' ∈ ls' →
  ∃ l, l ∈ ls ∧ price_ticks l = price_ticks l'.
Proof.
  intros Hsw Hl. apply sweep_suffix in Hsw as (k & Hp & _).
  assert (price_ticks l' ∈ price_ticks <$> ls) as Hin.
  { apply (subseteq_drop k). rewrite <-Hp. by apply list_elem_of_fmap_2. }
  apply list_elem_of_fmap in Hin as (l & ? & ?). by exists l.
Qed.

(** When the best level is out of reach, so is every level. *)
Lemma head_blocks s p ls :
  in_order s ls →
  match ls with [] => True | l :: _ => crosses s p (price_ticks l) = false end →
  ∀ l, l ∈ ls → crosses s p (price_ticks l) = false.
Proof.
  unfold in_order. destruct ls as [|b rest]; [set_solver|].
  intros Hs Hb l [->|Hl]%elem_of_cons; [done|].
  destruct s; simpl in *; apply negb_false_iff; apply negb_false_iff in Hb.
  - apply (sorted_mid []) in Hs as (_ & _ & _ & Ha & _).
    apply (proj1 (Forall_forall _ _) Ha) in Hl. simpl in Hl. lia.
  - rewrite reverse_cons in Hs. apply sorted_mid in Hs as (_ & _ & Ha & _).
    apply elem_of_reverse in Hl. apply (proj1 (Forall_forall _ _) Ha) in Hl.
    simpl in Hl. lia.
Qed.

Lemma report_all_app fs w :
  reported (report_all rdtsc fs w) = reported w ++
    imap (λ i f, mkMatch 0 0 f.1 f.2 (rdtsc (tsc_reads w + i))) fs.
Proof.
  unfold report_all. revert w. induction fs as [|f fs IH]; intros w; simpl.
  - by rewrite app_nil_r.
  - rewrite IH. simpl. rewrite <-app_assoc. simpl. rewrite Nat.add_0_r. do 2 f_equal.
    apply imap_ext. intros. simpl. do 2 f_equal. lia.
Qed.

Lemma report_all_reads fs w : tsc_reads (report_all rdtsc fs w) = (tsc_reads w + length fs)%nat.
Proof.
  unfold report_all. revert w. induction fs as [|f fs IH]; intros w; simpl; [lia|].
  rewrite IH. simpl. lia.
Qed.

Lemma match_computes_sweep s p ls fuel q w :
  in_order s ls → positive ls → 0 ≤ q < 2 ^ 32 → (length ls ≤ fuel)%nat →
  stalls (crosses s p) q ls = false →
  match_aggressive s fuel q p (lay_out s ls) w =
    let '(q', ls', fs) := sweep (crosses s p) q ls in
    Ok (q', lay_out s ls', report_all rdtsc fs w).
Proof.
  apply (loop_computes_sweep rdtsc (crosses s p) (lay_out s) (in_order s)
           (λ fuel q lad w, match_aggressive s fuel q p lad w));
    auto using match_stops, match_out_of_fuel, match_continues, in_order_set.
  apply in_order_tail.
Qed.

Lemma match_diverges_on_stall s p ls fuel q w :
  in_order s ls → positive ls → 0 ≤ q < 2 ^ 32 → stalls (crosses s p) q ls = true →
  match_aggressive s fuel q p (lay_out s ls) w = Fault Diverges.
Proof.
  apply (loop_diverges_on_stall rdtsc (crosses s p) (lay_out s) (in_order s)
           (λ fuel q lad w, match_aggressive s fuel q p lad w));
    auto using match_out_of_fuel, match_continues, in_order_set.
  apply in_order_tail.
Qed.
End Engine.

(** ** Properties of the matching loops *)
Section Properties.
Context (rdtsc : nat → Z) (s : Side) (p q : Z) (lad : FlatPriceLadder) (w : world).
Context (Hsorted : sorted (levels_ lad)) (Hpos : positive (levels_ lad)).
Context (Hq : 0 ≤ q < 2 ^ 32).

Let Hord : in_order s (priority s lad).
Proof. unfold in_order. by rewrite lay_out_priority. Qed.
Let Hpri : positive (priority s lad).
Proof. destruct s; simpl; [done|]. unfold positive. by rewrite Forall_reverse. Qed.
Let Hsize : (length (priority s lad) ≤ size lad)%nat.
Proof. destruct s; simpl; unfold size; rewrite ?length_reverse; done. Qed.

Lemma match_ladder_computes :
  stalls (crosses s p) q (priority s lad) = false →
  match_aggressive rdtsc s (size lad) q p lad w =
    let '(q', ls', fs) := sweep (crosses s p) q (priority s lad) in
    Ok (q', lay_out s ls', report_all rdtsc fs w).
Proof.
  intros Hst. pose proof (match_computes_sweep rdtsc s p (priority s lad) (size lad) q w) as Hm.
  rewrite lay_out_priority in Hm. by apply Hm.
Qed.

(** C4: the loops of [match_aggressive_buy] and [match_aggressive_sell] end after at
    most one iteration per level and compute what one pass over the levels in
    priority order computes (quantity left, ladder left, fills reported with the
    clock read before each callback), unless a level to be traded holds 2^32 or
    more and the order asks for more than its low 32 bits. *)
Theorem match_aggressive_is_sweep
    (Hst : stalls (crosses s p) q (priority s lad) = false) :
  match_aggressive rdtsc s (size lad) q p lad w =
    let '(q', ls', fs) := sweep (crosses s p) q (priority s lad) in
    Ok (q', lay_out s ls', report_all rdtsc fs w).
Proof.
  by apply match_ladder_computes.
Qed.

(** C25: in that remaining case the loop never ends, however many iterations it is
    given: the truncation [static_cast<uint32_t>(total_quantity)] yields a fill of
    zero, which changes nothing. *)
Theorem match_aggressive_diverges_iff_stalls :
  stalls (crosses s p) q (priority s lad) = true ↔
  ∀ fuel, match_aggressive rdtsc s fuel q p lad w = Fault Diverges.
Proof.
  split.
  - intros Hst fuel.
    pose proof (match_diverges_on_stall rdtsc s p (priority s lad) fuel q w) as Hm.
    rewrite lay_out_priority in Hm. by apply Hm.
  - intros Hdiv. destruct (stalls _ _ _) eqn:Hst; [done|exfalso].
    specialize (Hdiv (size lad)). rewrite match_ladder_computes in Hdiv by done.
    by destruct (sweep _ _ _) as [[??]?].
Qed.

(** A matching run trades as much as the order and the crossing levels allow,
    and quantity is conserved: what the order loses, the ladder loses and the
    callback is told. *)
Lemma match_aggressive_conserves
    (Hst : stalls (crosses s p) q (priority s lad) = false) :
  ∃ r lad' w' ms, match_aggressive rdtsc s (size lad) q p lad w = Ok (r, lad', w') ∧
    reported w' = reported w ++ ms ∧
    q = r + sum (match_quantity <$> ms) ∧
    volume (levels_ lad) = volume (levels_ lad') + sum (match_quantity <$> ms) ∧
    r = Z.max 0 (q - liquidity (crosses s p) (priority s lad)).
Proof.
  rewrite match_ladder_computes by done.
  destruct (sweep _ _ _) as [[q' ls'] fs] eqn:Hsw.
  pose proof (sweep_conserves _ _ _ _ _ _ Hsw) as [Hc Hv].
  destruct (sweep_fills _ _ _ _ _ _ (proj1 Hq) Hpri Hsw) as (Hq' & Ht & _).
  do 4 eexists. split; [done|]. split; [apply report_all_app|].
  assert (match_quantity <$> imap (λ i f, mkMatch 0 0 f.1 f.2 (rdtsc (tsc_reads w + i))) fs
            = fs.*2) as -> by (rewrite fmap_imap; apply imap_const).
  fold (traded fs). split; [done|]. split; [|lia].
  destruct s; simpl in *; [done|]. rewrite volume_reverse in *. lia.
Qed.

(** C21: fills are reported best price first, at the price of the resting level, never
    beyond the limit of the order, and an order with quantity left has exhausted
    every level it crosses. *)
Theorem match_aggressive_price_priority
    (Hst : stalls (crosses s p) q (priority s lad) = false) :
  ∃ r lad' w' ms, match_aggressive rdtsc s (size lad) q p lad w = Ok (r, lad', w') ∧
    reported w' = reported w ++ ms ∧
    (match_price_ticks <$> ms) = take (length ms) (price_ticks <$> priority s lad) ∧
    Forall (λ m, crosses s p (match_price_ticks m) = true ∧ 0 < match_quantity m) ms ∧
    sorted (levels_ lad') ∧ positive (levels_ lad') ∧
    (r ≠ 0 → ∀ l, l ∈ levels_ lad' → crosses s p (price_ticks l) = false).
Proof.
  rewrite match_ladder_computes by done.
  destruct (sweep _ _ _) as [[q' ls'] fs] eqn:Hsw.
  destruct (sweep_fills _ _ _ _ _ _ (proj1 Hq) Hpri Hsw) as (Hq' & Ht & Hf & Hp & Hpos' & _).
  pose proof (sweep_in_order _ _ _ _ _ _ _ Hord Hsw) as Hord'.
  do 4 eexists. split; [done|]. split; [apply report_all_app|].
  rewrite length_imap, fmap_imap, <-Hp. split; [apply imap_const|].
  split; [apply Forall_forall; intros m (i & f & -> & Hi)%elem_of_lookup_imap;
          by apply (Forall_lookup_1 _ _ _ _ Hf Hi)|].
  split; [done|]. split.
  - destruct s; simpl; [done|]. unfold positive. by rewrite Forall_reverse.
  - intros Hr l Hl. apply (head_blocks s p ls'); [done|by eapply sweep_uncrosses|].
    destruct s; simpl in Hl; [done|by apply elem_of_reverse].
Qed.
End Properties.

(** ** Concrete runs *)
Definition demo_bids : FlatPriceLadder :=
  mkLadder [mkLevel 9000 100 1 0; mkLevel 9500 100 1 0; mkLevel 10000 100 1 0].
(** Two orders of 2^31 at one price: a level of 2^32. *)
Definition full_word_asks : FlatPriceLadder := mkLadder [mkLevel 10000 (2 ^ 32) 2 0].

Lemma demo_bids_ok : sorted (levels_ demo_bids) ∧ positive (levels_ demo_bids).
Proof. split; repeat constructor. Qed.
Lemma full_word_asks_ok : sorted (levels_ full_word_asks) ∧ positive (levels_ full_word_asks).
Proof. split; repeat constructor. Qed.

Lemma match_aggressive_is_sweep_witness :
  match_aggressive Z.of_nat Sell 3 250 8500 demo_bids (mkWorld 0 []) =
    Ok (0, mkLadder [mkLevel 9000 50 1 0],
        mkWorld 3 [mkMatch 0 0 10000 100 0; mkMatch 0 0 9500 100 1; mkMatch 0 0 9000 50 2]).
Proof.
  exact (match_aggressive_is_sweep Z.of_nat Sell 8500 250 demo_bids (mkWorld 0 [])
           (proj1 demo_bids_ok) (proj2 demo_bids_ok) ltac:(lia) eq_refl).
Defined.

Lemma match_aggressive_diverges_iff_stalls_witness :
  stalls (crosses Buy 10000) 1 (priority Buy full_word_asks) = true ↔
  ∀ fuel, match_aggressive Z.of_nat Buy fuel 1 10000 full_word_asks (mkWorld 0 []) =
    Fault Diverges.
Proof.
  exact (match_aggressive_diverges_iff_stalls Z.of_nat Buy 10000 1 full_word_asks
           (mkWorld 0 []) (proj1 full_word_asks_ok) (proj2 full_word_asks_ok) ltac:(lia)).
Defined.

Lemma match_aggressive_conserves_example :
  ∃ r lad' w' ms, match_aggressive Z.of_nat Sell 3 350 8500 demo_bids (mkWorld 0 []) =
      Ok (r, lad', w') ∧ reported w' = [] ++ ms ∧
    350 = r + sum (match_quantity <$> ms) ∧
    300 = volume (levels_ lad') + sum (match_quantity <$> ms) ∧ r = 50.
Proof.
  exact (match_aggressive_conserves Z.of_nat Sell 8500 350 demo_bids (mkWorld 0 [])
           (proj1 demo_bids_ok) (proj2 demo_bids_ok) ltac:(lia) eq_refl).
Defined.

Lemma match_aggressive_price_priority_witness :
  ∃ r lad' w' ms, match_aggressive Z.of_nat Sell 3 250 8500 demo_bids (mkWorld 0 []) =
      Ok (r, lad', w') ∧ reported w' = [] ++ ms ∧
    (match_price_ticks <$> ms) = take (length ms) [10000; 9500; 9000] ∧
    Forall (λ m, crosses Sell 8500 (match_price_ticks m) = true ∧ 0 < match_quantity m) ms ∧
    sorted (levels_ lad') ∧ positive (levels_ lad') ∧
    (r ≠ 0 → ∀ l, l ∈ levels_ lad' → crosses Sell 8500 (price_ticks l) = false).
Proof.
  exact (match_aggressive_price_priority Z.of_nat Sell 8500 250 demo_bids (mkWorld 0 [])
           (proj1 demo_bids_ok) (proj2 demo_bids_ok) ltac:(lia) eq_refl).
Defined.
End Matching.
