(* ===== verification/BookInvariant.v ===== *)
(** * The order book between calls

    The invariant of a book (ladders sorted, positive and not crossed, pool and slot
    map of the right size, free list well formed), its preservation by every
    operation, and what the operations do on every branch. *)
From S2P Require Import Prelude Fifo SpscQueue PriceLadder OrderBook Matching.

Module BookInv.
Import Ladder Book Matching.

Section Sides.
Context {Q : Type}.

(** The ladder an order on side [s] rests on, and the one it trades with. *)
Definition own (s : Side) (ob : OrderBook Q) : FlatPriceLadder :=
  match s with Buy => bids_ ob | Sell => asks_ ob end.
Definition opposite (s : Side) (ob : OrderBook Q) : FlatPriceLadder :=
  match s with Buy => asks_ ob | Sell => bids_ ob end.
Definition set_own (s : Side) (ob : OrderBook Q) lad : OrderBook Q :=
  match s with Buy => set_bids ob lad | Sell => set_asks ob lad end.
Definition set_opposite (s : Side) (ob : OrderBook Q) lad : OrderBook Q :=
  match s with Buy => set_asks ob lad | Sell => set_bids ob lad end.

Definition book_volume (ob : OrderBook Q) : Z :=
  volume (levels_ (bids_ ob)) + volume (levels_ (asks_ ob)).
End Sides.

(** Resting quantities are positive and prices on the two sides do not meet. *)
Record sides_ok (bids asks : FlatPriceLadder) : Prop := {
  bids_sorted : sorted (levels_ bids);
  asks_sorted : sorted (levels_ asks);
  bids_positive : positive (levels_ bids);
  asks_positive : positive (levels_ asks);
  uncrossed b a : b ∈ levels_ bids → a ∈ levels_ asks → price_ticks b < price_ticks a
}.

Section Invariant.
Context {Q : Type} `{FifoSpec Z Q} (max_orders : Z) (rdtsc : nat → Z).

(** [book_ok ob free]: the book is well formed and its free list holds [free]. *)
Record book_ok (ob : OrderBook Q) (free : list Z) : Prop := {
  ok_sides : sides_ok (bids_ ob) (asks_ ob);
  ok_pool : Z.of_nat (length (order_pool_ ob)) = max_orders;
  ok_slots : Z.of_nat (length (order_id_to_slot_ ob)) = max_orders;
  ok_slot_values i slot : order_id_to_slot_ ob !! i = Some slot → 0 ≤ slot;
  ok_free : fifo_rep (free_list_ ob) free;
  ok_free_values : Forall (λ slot, 0 ≤ slot < max_orders) free
}.

Lemma own_sorted s ob : sides_ok (bids_ ob) (asks_ ob) → sorted (levels_ (own (Q:=Q) s ob)).
Proof. destruct s; apply bids_sorted || apply asks_sorted. Qed.
Lemma opposite_sorted s ob :
  sides_ok (bids_ ob) (asks_ ob) → sorted (levels_ (opposite (Q:=Q) s ob)).
Proof. destruct s; apply bids_sorted || apply asks_sorted. Qed.
Lemma own_positive s ob : sides_ok (bids_ ob) (asks_ ob) → positive (levels_ (own (Q:=Q) s ob)).
Proof. destruct s; apply bids_positive || apply asks_positive. Qed.
Lemma opposite_positive s ob :
  sides_ok (bids_ ob) (asks_ ob) → positive (levels_ (opposite (Q:=Q) s ob)).
Proof. destruct s; apply bids_positive || apply asks_positive. Qed.

(** Sides are symmetric: a level of one side is beyond the other's prices. *)
Lemma own_uncrossed s ob x y :
  sides_ok (bids_ ob) (asks_ ob) →
  x ∈ levels_ (own (Q:=Q) s ob) → y ∈ levels_ (opposite s ob) →
  crosses s (price_ticks x) (price_ticks y) = false.
Proof.
  intros Hok Hx Hy.
  destruct s; simpl in *; apply negb_false_iff, Z.ltb_lt; by eapply uncrossed.
Qed.

Lemma sides_intro s ob :
  sorted (levels_ (own (Q:=Q) s ob)) → positive (levels_ (own s ob)) →
  sorted (levels_ (opposite s ob)) → positive (levels_ (opposite s ob)) →
  (∀ x y, x ∈ levels_ (own s ob) → y ∈ levels_ (opposite s ob) →
     crosses s (price_ticks x) (price_ticks y) = false) →
  sides_ok (bids_ ob) (asks_ ob).
Proof.
  intros ???? Hc. destruct s; simpl in *; split; try done; intros b a Hb Ha.
  - specialize (Hc b a Hb Ha). apply negb_false_iff, Z.ltb_lt in Hc. done.
  - specialize (Hc a b Ha Hb). apply negb_false_iff, Z.ltb_lt in Hc. done.
Qed.

(** *** Resting the remainder of an order *)
Lemma upsert_rests ls p q :
  sorted ls → positive ls → 0 < q < 2 ^ 32 → volume ls + q < 2 ^ 64 →
  ∃ ls' it, upsert (mkLadder ls) p q = Ok (mkLadder ls', it) ∧
    sorted ls' ∧ positive ls' ∧ volume ls' = volume ls + q ∧
    (∀ l', l' ∈ ls' → price_ticks l' = p ∨ l' ∈ ls) ∧
    ladder_map ls' = <[p := match ladder_map ls !! p with
                            | Some (t, n) => (t + q, u32 (n + 1))
                            | None => (q, 1)
                            end]> (ladder_map ls).
Proof.
  intros Hs Hpos Hq Hv.
  destruct (sorted_split ls p Hs) as [(pre & l & post & -> & <-)|(pre & post & -> & Hb & Ha)].
  - apply Forall_app in Hpos as [Hpre [Hl Hpost]%Forall_cons].
    pose proof (volume_nonneg _ Hpre). pose proof (volume_nonneg _ Hpost).
    rewrite volume_app, volume_cons in Hv.
    assert (bump l q = mkLevel (price_ticks l) (total_quantity l + q)
                         (u32 (order_count l + 1)) (padding l)) as Hbump.
    { unfold bump. by rewrite wrap_small by lia. }
    rewrite upsert_mid, Hbump by done. do 2 eexists. split; [done|].
    split; [by eapply sorted_replace; [|exact Hs]|].
    split; [apply Forall_app; split; [done|constructor; [simpl; lia|done]]|].
    split; [rewrite !volume_app, !volume_cons; simpl; lia|].
    split; [set_solver|].
    pose proof Hs as (_ & _ & Hb & _)%sorted_mid.
    rewrite ladder_map_mid_lookup, (ladder_map_mid pre l) by done.
    rewrite ladder_map_mid by done. simpl. by rewrite insert_insert_eq.
  - rewrite upsert_absent by done. do 2 eexists. split; [done|].
    apply Forall_app in Hpos as [Hpre Hpost].
    split; [apply sorted_mid; apply sorted_app in Hs as (? & ? & ?); done|].
    split; [apply Forall_app; split; [done|constructor; [simpl; lia|done]]|].
    split; [rewrite !volume_app, !volume_cons; simpl; lia|].
    split; [set_solver|].
    rewrite ladder_map_split_absent, ladder_map_mid by done. done.
Qed.

(** *** Cancelling: in a book without empty levels nothing is removed *)
Lemma remove_if_empty_positive ls p :
  sorted ls → positive ls → remove_if_empty (mkLadder ls) p = Ok (mkLadder ls).
Proof.
  intros Hs Hpos.
  destruct (sorted_split ls p Hs) as [(pre & l & post & -> & <-)|(pre & post & -> & Hb & Ha)].
  - rewrite remove_if_empty_mid by done. apply Forall_app in Hpos as [_ [Hl _]%Forall_cons].
    case_Z; [lia|done].
  - by apply remove_if_empty_absent.
Qed.

Context `{!PowerOfTwo max_orders}.

Lemma slot_index_range id : 0 ≤ Z.land id (max_orders - 1) < max_orders.
Proof. rewrite land_mask by done. apply Z.mod_pos_bound, (pow2_pos (c:=max_orders)). Qed.

(** The slot [cancel_order] finds for an order id. *)
Definition cancel_target (id : Z) (ob : OrderBook Q) : option Z :=
  match order_id_to_slot_ ob !! Z.to_nat (Z.land id (max_orders - 1)) with
  | None => None
  | Some slot =>
      if max_orders <=? slot then None
      else match order_pool_ ob !! Z.to_nat slot with
           | Some o => if order_id o =? id then Some slot else None
           | None => None
           end
  end.

Lemma set_bids_same (ob : OrderBook Q) : set_bids ob (bids_ ob) = ob.
Proof. by destruct ob. Qed.
Lemma set_asks_same (ob : OrderBook Q) : set_asks ob (asks_ ob) = ob.
Proof. by destruct ob. Qed.

Lemma remove_if_empty_noop (lad : FlatPriceLadder) p :
  sorted (levels_ lad) → positive (levels_ lad) → remove_if_empty lad p = Ok lad.
Proof. destruct lad. apply remove_if_empty_positive. Qed.

(** [cancel_order] finds the slot or changes nothing; the ladders never change. *)
Lemma cancel_order_exact id ob free :
  book_ok ob free →
  match cancel_target id ob with
  | None => cancel_order max_orders id ob = Ok (false, ob)
  | Some slot => 0 ≤ slot < max_orders ∧
      ∃ (pushed : bool) free', cancel_order max_orders id ob = Ok (true, set_free ob free') ∧
        fifo_rep free' (if pushed then free ++ [slot] else free) ∧
        (pushed = true ↔ (length free < fifo_room)%nat)
  end.
Proof.
  intros [Hsd Hpool Hslots Hval Hfree Hfv]. pose proof (slot_index_range id) as Hr.
  unfold cancel_target, cancel_order.
  destruct (lookup_lt_is_Some_2 (order_id_to_slot_ ob)
              (Z.to_nat (Z.land id (max_orders - 1)))) as [slot Hslot]; [lia|].
  rewrite (proj2 (aread_Ok _ _ _) (conj (proj1 Hr) Hslot)), Hslot. simpl.
  pose proof (Hval _ _ Hslot) as Hs0. destruct (Z.leb_spec max_orders slot); [done|].
  destruct (lookup_lt_is_Some_2 (order_pool_ ob) (Z.to_nat slot)) as [o Ho]; [lia|].
  rewrite (proj2 (aread_Ok _ _ _) (conj Hs0 Ho)), Ho. simpl.
  destruct (order_id o =? id); simpl; [|done]. split; [lia|].
  rewrite !remove_if_empty_noop
    by eauto using bids_sorted, asks_sorted, bids_positive, asks_positive.
  destruct (fifo_push_any _ _ slot Hfree) as (b & free' & Hp & Hrep & Hb).
  exists b, free'. split; [|done].
  destruct (side o); simpl; by rewrite ?set_bids_same, ?set_asks_same, Hp.
Qed.

Lemma set_free_ok ob free free' q :
  book_ok ob free → fifo_rep q free' → Forall (λ slot, 0 ≤ slot < max_orders) free' →
  book_ok (set_free ob q) free'.
Proof. intros [] ??. by split. Qed.

Lemma cancel_order_ok id ob free :
  book_ok ob free →
  ∃ b ob' free', cancel_order max_orders id ob = Ok (b, ob') ∧ book_ok ob' free' ∧
    bids_ ob' = bids_ ob ∧ asks_ ob' = asks_ ob ∧ next_order_id_ ob' = next_order_id_ ob.
Proof.
  intros Hok. pose proof (cancel_order_exact id ob free Hok) as Hc.
  destruct (cancel_target id ob) as [slot|]; [|by exists false, ob, free].
  destruct Hc as (Hslot & b & free' & -> & Hrep & _).
  do 3 eexists. split; [done|]. split; [|done].
  eapply set_free_ok; [exact Hok|exact Hrep|].
  pose proof (ok_free_values _ _ Hok). destruct b; [|done].
  apply Forall_app. split; [done|by constructor].
Qed.

(** *** [add_order] *)
Lemma match_immediately_eq s q p (ob : OrderBook Q) w :
  match_immediately rdtsc s q p ob w =
    '(r, lad, w') ← match_aggressive rdtsc s (size (opposite s ob)) q p (opposite s ob) w;
    Ok (u32 r, set_opposite s ob lad, w').
Proof. by destruct s. Qed.

Lemma sides_after_match s p q ob q' ls' fs :
  sides_ok (bids_ ob) (asks_ ob) → 0 ≤ q →
  sweep (crosses s p) q (priority s (opposite (Q:=Q) s ob)) = (q', ls', fs) →
  sides_ok (bids_ (set_opposite s ob (lay_out s ls'))) (asks_ (set_opposite s ob (lay_out s ls'))).
Proof.
  intros Hok Hq Hsw.
  assert (in_order s (priority s (opposite s ob))) as Hord.
  { unfold in_order. rewrite lay_out_priority. by apply opposite_sorted. }
  assert (positive (priority s (opposite s ob))) as Hpos.
  { apply opposite_positive with (s := s) in Hok as Hp.
    destruct s; simpl in *; [done|]. unfold positive. by rewrite Forall_reverse. }
  destruct (sweep_fills _ _ _ _ _ _ Hq Hpos Hsw) as (_ & _ & _ & _ & Hpos' & _).
  pose proof (sweep_in_order _ _ _ _ _ _ _ Hord Hsw) as Hord'.
  apply (sides_intro s).
  - pose proof (own_sorted s ob Hok). by destruct s.
  - pose proof (own_positive s ob Hok). by destruct s.
  - by destruct s.
  - destruct s; simpl; [done|]. unfold positive. by rewrite Forall_reverse.
  - intros x y Hx Hy.
    assert (x ∈ levels_ (own s ob)) as Hx' by by destruct s.
    assert (y ∈ ls') as Hy' by (destruct s; simpl in Hy; [done|by apply elem_of_reverse]).
    destruct (sweep_prices _ _ _ _ _ _ _ _ Hsw Hy') as (l & Hl & <-).
    apply own_uncrossed with (ob := ob); [done|done|].
    destruct s; simpl in *; [done|by apply elem_of_reverse].
Qed.

Lemma sides_after_rest s p ob own' :
  sides_ok (bids_ ob) (asks_ ob) →
  (∀ y, y ∈ levels_ (opposite (Q:=Q) s ob) → crosses s p (price_ticks y) = false) →
  sorted own' → positive own' →
  (∀ l, l ∈ own' → price_ticks l = p ∨ l ∈ levels_ (own s ob)) →
  sides_ok (bids_ (set_own s ob (mkLadder own'))) (asks_ (set_own s ob (mkLadder own'))).
Proof.
  intros Hok Hfar Hs Hpos Hin. apply (sides_intro s).
  - by destruct s.
  - by destruct s.
  - pose proof (opposite_sorted s ob Hok). by destruct s.
  - pose proof (opposite_positive s ob Hok). by destruct s.
  - intros x y Hx Hy.
    assert (x ∈ own') as Hx' by by destruct s.
    assert (y ∈ levels_ (opposite s ob)) as Hy' by by destruct s.
    destruct (Hin x Hx') as [->|Hold]; [by apply Hfar|by eapply own_uncrossed].
Qed.

(** The book [execute_order] leaves, with its free list. *)
Record executed (s : Side) (p q : Z) (t : OrderType) (id : Z) (now slot : Z)
    (ob ob' : OrderBook Q) (q' : Z) (ls' : list PriceLevel) : Prop := {
  ex_opposite : opposite s ob' = lay_out s ls';
  ex_own : ladder_map (levels_ (own s ob')) =
    if q' =? 0 then ladder_map (levels_ (own s ob))
    else <[p := match ladder_map (levels_ (own s ob)) !! p with
                | Some (tot, n) => (tot + q', u32 (n + 1))
                | None => (q', 1)
                end]> (ladder_map (levels_ (own s ob)));
  ex_own_volume : volume (levels_ (own s ob')) = volume (levels_ (own s ob)) + q';
  ex_pool : order_pool_ ob' =
    <[Z.to_nat slot := mkOrder id now p (if q' =? 0 then q else q') 0 (symbol_id_ ob) s t]>
      (order_pool_ ob);
  ex_slots : order_id_to_slot_ ob' =
    <[Z.to_nat (Z.land id (max_orders - 1)) := slot]> (order_id_to_slot_ ob);
  ex_next : next_order_id_ ob' = next_order_id_ ob
}.

(** The bookkeeping before matching: the slot is taken and the order recorded. *)
Lemma record_order ob slot free id o q0 :
  book_ok ob (slot :: free) → fifo_rep q0 free →
  let ob2 := set_slots (set_pool (set_free ob q0) (<[Z.to_nat slot := o]> (order_pool_ ob)))
               (<[Z.to_nat (Z.land id (max_orders - 1)) := slot]> (order_id_to_slot_ ob)) in
  awrite (order_pool_ ob) slot o = Ok (order_pool_ ob2) ∧
  awrite (order_id_to_slot_ ob) (Z.land id (max_orders - 1)) slot = Ok (order_id_to_slot_ ob2) ∧
  book_ok ob2 free.
Proof.
  intros [Hsd Hpool Hslots Hval Hfree Hfv] Hq0. simpl.
  apply Forall_cons in Hfv as [Hslot Hfv]. pose proof (slot_index_range id).
  rewrite !awrite_in_bounds by lia. do 2 (split; [done|]).
  split; simpl; rewrite ?length_insert; try done.
  intros i x [(_ & <- & _)|[_ Hx]]%list_lookup_insert_Some; [lia|by eapply Hval].
Qed.

(** What comes after matching, with [r] left of an order in [slot]. *)
Definition finish_order (s : Side) (p r id slot : Z) (ob3 : OrderBook Q) (w2 : world)
    : outcome (Z * OrderBook Q * world) :=
  if r =? 0 then
    '(_, free2) ← fifo_push slot (free_list_ ob3);
    Ok (id, set_free ob3 free2, w2)
  else
    order ← aread (order_pool_ ob3) slot;
    pool2 ← awrite (order_pool_ ob3) slot (set_quantity order r);
    '(lad, _) ← upsert (own s (set_pool ob3 pool2)) p r;
    Ok (id, set_own s (set_pool ob3 pool2) lad, w2).

Lemma execute_order_unfold s p q t id ob w slot q0 :
  fifo_pop (free_list_ ob) = Ok (Some slot, q0) →
  execute_order max_orders rdtsc s p q t id ob w =
    pool1 ← awrite (order_pool_ ob) slot
              (mkOrder id (rdtsc (tsc_reads w)) p q 0 (symbol_id_ ob) s t);
    slots1 ← awrite (order_id_to_slot_ ob) (Z.land id (max_orders - 1)) slot;
    let ob2 := set_slots (set_pool (set_free ob q0) pool1) slots1 in
    '(r, lad, w2) ← match_aggressive rdtsc s (size (opposite s ob2)) q p (opposite s ob2)
                      (mkWorld (S (tsc_reads w)) (reported w));
    finish_order s p (u32 r) id slot (set_opposite s ob2 lad) w2.
Proof.
  intros Hpop. unfold execute_order. rewrite Hpop. simpl.
  destruct (awrite (order_pool_ ob) _ _) as [pool1|]; simpl; [|done].
  destruct (awrite (order_id_to_slot_ ob) _ _) as [slots1|]; simpl; [|done].
  rewrite match_immediately_eq. destruct (match_aggressive _ _ _ _ _ _ _) as [[[r lad] w2]|];
    simpl; [|done]. unfold finish_order. destruct s; simpl.
  all: case_match; [done|].
  all: destruct (aread _ _) as [o|]; simpl; [|done].
  all: by destruct (awrite _ _ _).
Qed.

Lemma finish_filled s p id slot ob3 free w2 :
  book_ok ob3 free → 0 ≤ slot < max_orders → (length free < fifo_room)%nat →
  ∃ free2, finish_order s p 0 id slot ob3 w2 = Ok (id, set_free ob3 free2, w2) ∧
    book_ok (set_free ob3 free2) (free ++ [slot]).
Proof.
  intros Hok Hslot Hroom. unfold finish_order. simpl.
  destruct (fifo_push_room _ _ slot (ok_free _ _ Hok) Hroom) as (q1 & -> & Hq1).
  exists q1. split; [done|]. eapply set_free_ok; [exact Hok|done|].
  apply Forall_app. split; [apply (ok_free_values _ _ Hok)|by constructor].
Qed.

Lemma finish_rests s p r id slot ob3 free w2 o :
  book_ok ob3 free → 0 < r < 2 ^ 32 → order_pool_ ob3 !! Z.to_nat slot = Some o →
  0 ≤ slot → volume (levels_ (own s ob3)) + r < 2 ^ 64 →
  (∀ y, y ∈ levels_ (opposite s ob3) → crosses s p (price_ticks y) = false) →
  ∃ own' ob', finish_order s p r id slot ob3 w2 = Ok (id, ob', w2) ∧ book_ok ob' free ∧
    ob' = set_own s (set_pool ob3 (<[Z.to_nat slot := set_quantity o r]> (order_pool_ ob3)))
            (mkLadder own') ∧
    volume own' = volume (levels_ (own s ob3)) + r ∧
    ladder_map own' = <[p := match ladder_map (levels_ (own s ob3)) !! p with
                             | Some (tot, n) => (tot + r, u32 (n + 1))
                             | None => (r, 1)
                             end]> (ladder_map (levels_ (own s ob3))).
Proof.
  intros Hok Hr Ho Hslot Hv Hfar. pose proof (ok_sides _ _ Hok) as Hsd.
  destruct (upsert_rests (levels_ (own s ob3)) p r (own_sorted s _ Hsd)
              (own_positive s _ Hsd) Hr Hv)
    as (own' & it & Hup & Hs & Hpos & Hvol & Hin & Hmap).
  pose proof (lookup_lt_Some _ _ _ Ho) as Hlt.
  unfold finish_order. case_Z; [lia|].
  rewrite (proj2 (aread_Ok _ _ _) (conj Hslot Ho)). simpl.
  rewrite awrite_in_bounds by lia. simpl.
  assert (∀ pool, own s (set_pool ob3 pool) = mkLadder (levels_ (own s ob3))) as ->.
  { intros. destruct s; simpl; [by destruct (bids_ ob3)|by destruct (asks_ ob3)]. }
  rewrite Hup. simpl. do 2 eexists. split; [done|]. split; [|done].
  destruct Hok as [_ Hpool Hslots Hval Hfree Hfv].
  pose proof (sides_after_rest s p ob3 own' Hsd Hfar Hs Hpos Hin).
  destruct s; split; simpl; rewrite ?length_insert; done.
Qed.

Lemma sides_set_opposite_ok s ob lad free :
  book_ok ob free →
  sides_ok (bids_ (set_opposite s ob lad)) (asks_ (set_opposite s ob lad)) →
  book_ok (set_opposite s ob lad) free.
Proof. intros [] ?. by destruct s; split. Qed.

(** The book between matching and the rest of [execute_order]. *)
Definition matched (s : Side) (o : Order) (id slot : Z) (ob : OrderBook Q) (q0 : Q) (ls : list PriceLevel)
    : OrderBook Q :=
  set_opposite s
    (set_slots (set_pool (set_free ob q0) (<[Z.to_nat slot := o]> (order_pool_ ob)))
       (<[Z.to_nat (Z.land id (max_orders - 1)) := slot]> (order_id_to_slot_ ob)))
    (lay_out s ls).

Lemma execute_matches s p q t id ob slot free w q0 :
  book_ok ob (slot :: free) → fifo_pop (free_list_ ob) = Ok (Some slot, q0) → fifo_rep q0 free →
  0 ≤ q < 2 ^ 32 → stalls (crosses s p) q (priority s (opposite s ob)) = false →
  let '(q', ls', fs) := sweep (crosses s p) q (priority s (opposite s ob)) in
  let o := mkOrder id (rdtsc (tsc_reads w)) p q 0 (symbol_id_ ob) s t in
  let ob3 := matched s o id slot ob q0 ls' in
  execute_order max_orders rdtsc s p q t id ob w =
    finish_order s p q' id slot ob3 (report_all rdtsc fs (mkWorld (S (tsc_reads w)) (reported w))) ∧
  book_ok ob3 free ∧ 0 ≤ q' ≤ q ∧
  (q' ≠ 0 → ∀ y, y ∈ ls' → crosses s p (price_ticks y) = false).
Proof.
  intros Hok Hpop Hq0 Hq Hst. set (o := mkOrder _ _ _ _ _ _ _ _).
  destruct (record_order ob slot free id o q0 Hok Hq0) as (Hw1 & Hw2 & Hok2).
  rewrite (execute_order_unfold _ _ _ _ _ _ _ _ _ Hpop). fold o. rewrite Hw1. simpl. rewrite Hw2. simpl.
  set (ob2 := set_slots _ _) in *.
  assert (opposite s ob2 = opposite s ob) as Hopp by by destruct s.
  pose proof (ok_sides _ _ Hok2) as Hsd2.
  rewrite Hopp, match_ladder_computes;
    [|by rewrite <-Hopp; apply opposite_sorted|by rewrite <-Hopp; apply opposite_positive|done|done].
  assert (positive (priority s (opposite s ob))) as Hpri.
  { rewrite <-Hopp. pose proof (opposite_positive s ob2 Hsd2).
    destruct s; simpl in *; [done|]. unfold positive. by rewrite Forall_reverse. }
  destruct (sweep _ _ _) as [[q' ls'] fs] eqn:Hsw. simpl.
  pose proof (sweep_conserves _ _ _ _ _ _ Hsw) as [Hc _].
  destruct (sweep_fills _ _ _ _ _ _ (proj1 Hq) Hpri Hsw) as (Hq' & Ht & _).
  rewrite (wrap_small 32 q') by lia. split; [done|]. split; [|split; [lia|]].
  - apply (sides_set_opposite_ok s ob2 _ free Hok2). rewrite <-Hopp in Hsw.
    exact (sides_after_match s p q ob2 q' ls' fs Hsd2 (proj1 Hq) Hsw).
  - intros Hne y. apply (head_blocks s p ls'); [|by eapply sweep_uncrosses].
    eapply sweep_in_order; [|exact Hsw].
    unfold in_order. rewrite lay_out_priority, <-Hopp. by apply opposite_sorted.
Qed.

Lemma execute_order_exact s p q t id ob slot free w :
  book_ok ob (slot :: free) → 0 ≤ q < 2 ^ 32 → volume (levels_ (own s ob)) + q < 2 ^ 64 →
  stalls (crosses s p) q (priority s (opposite s ob)) = false →
  let '(q', ls', fs) := sweep (crosses s p) q (priority s (opposite s ob)) in
  ∃ ob', execute_order max_orders rdtsc s p q t id ob w =
      Ok (id, ob', report_all rdtsc fs (mkWorld (S (tsc_reads w)) (reported w))) ∧
    book_ok ob' (if q' =? 0 then free ++ [slot] else free) ∧
    executed s p q t id (rdtsc (tsc_reads w)) slot ob ob' q' ls'.
Proof.
  intros Hok Hq Hv Hst.
  pose proof (fifo_rep_bound _ _ (ok_free _ _ Hok)) as Hroom. simpl in Hroom.
  destruct (fifo_pop_cons _ _ _ (ok_free _ _ Hok)) as (q0 & Hpop & Hq0).
  pose proof (execute_matches s p q t id ob slot free w q0 Hok Hpop Hq0 Hq Hst) as Hm.
  destruct (sweep _ _ _) as [[q' ls'] fs]. set (o := mkOrder _ _ _ _ _ _ _ _) in *.
  destruct Hm as (-> & Hok3 & Hq' & Hblock). set (ob3 := matched _ _ _ _ _ _ _) in *.
  assert (own s ob3 = own s ob) as Hown3 by by destruct s.
  assert (opposite s ob3 = lay_out s ls') as Hopp3 by by destruct s.
  assert (order_pool_ ob3 = <[Z.to_nat slot := o]> (order_pool_ ob)) as Hpool3 by by destruct s.
  pose proof (ok_pool _ _ Hok) as Hlen.
  pose proof (Forall_inv (ok_free_values _ _ Hok)) as Hslot. simpl in Hslot.
  destruct (Z.eqb_spec q' 0) as [->|Hne].
  - destruct (finish_filled s p id slot ob3 free
                (report_all rdtsc fs (mkWorld (S (tsc_reads w)) (reported w))) Hok3)
      as (free2 & -> & Hok4); [done|lia|].
    eexists. split; [done|]. split; [done|].
    destruct s; split; simpl; rewrite ?Z.add_0_r; done.
  - destruct (finish_rests s p q' id slot ob3 free
                (report_all rdtsc fs (mkWorld (S (tsc_reads w)) (reported w))) o Hok3)
      as (own' & ob' & -> & Hok4 & -> & Hvol & Hmap); [lia| |lia|rewrite Hown3; lia| |].
    + rewrite Hpool3. apply list_lookup_insert_eq. lia.
    + rewrite Hopp3. intros y Hy. apply Hblock; [done|].
      destruct s; simpl in Hy; [done|by apply elem_of_reverse].
    + eexists. split; [done|]. split; [done|].
      rewrite Hpool3, list_insert_insert_eq. rewrite Hown3 in Hvol, Hmap.
      assert ((q' =? 0) = false) as Hf by by apply Z.eqb_neq.
      destruct s; split; simpl; rewrite ?Hf; done.
Qed.

Lemma set_next_id_ok ob free n : book_ok ob free → book_ok (set_next_id ob n) free.
Proof. intros []. by split. Qed.

Lemma execute_order_exhausted s p q t id ob w :
  book_ok ob [] → ∃ q0, fifo_rep q0 [] ∧
    execute_order max_orders rdtsc s p q t id ob w = Ok (0, set_free ob q0, w).
Proof.
  intros Hok. exists (free_list_ ob). split; [apply (ok_free _ _ Hok)|].
  unfold execute_order. by rewrite (fifo_pop_nil _ (ok_free _ _ Hok)).
Qed.

(** An order that is not a cancellation, in a book with a free slot. *)
Lemma add_order_exact s p q t ob slot free w :
  book_ok ob (slot :: free) → t ≠ Cancel → 0 ≤ q < 2 ^ 32 →
  volume (levels_ (own s ob)) + q < 2 ^ 64 →
  stalls (crosses s p) q (priority s (opposite s ob)) = false →
  let id := next_order_id_ ob in
  let '(q', ls', fs) := sweep (crosses s p) q (priority s (opposite s ob)) in
  ∃ ob', add_order max_orders rdtsc s p q t ob w =
      Ok (id, ob', report_all rdtsc fs (mkWorld (S (tsc_reads w)) (reported w))) ∧
    book_ok ob' (if q' =? 0 then free ++ [slot] else free) ∧
    executed s p q t id (rdtsc (tsc_reads w)) slot (set_next_id ob (u64 (id + 1))) ob' q' ls'.
Proof.
  intros Hok Ht Hq Hv Hst id. pose proof (set_next_id_ok _ _ (u64 (id + 1)) Hok) as Hok1.
  assert (opposite s (set_next_id ob (u64 (id + 1))) = opposite s ob) as Ho by by destruct s.
  assert (own s (set_next_id ob (u64 (id + 1))) = own s ob) as Hw by by destruct s.
  pose proof (execute_order_exact s p q t id _ slot free w Hok1 Hq) as Hex.
  rewrite Ho, Hw in Hex. specialize (Hex Hv Hst).
  destruct (sweep _ _ _) as [[q' ls'] fs]. destruct Hex as (ob' & Hx & ? & ?).
  exists ob'. split; [|done]. unfold add_order. fold id. by destruct t.
Qed.

(** ** Books that cannot stall *)
Lemma small_total l ls : positive ls → l ∈ ls → total_quantity l ≤ volume ls.
Proof.
  induction 1 as [|x ls Hx Hpos IH]; [set_solver|].
  rewrite volume_cons. pose proof (volume_nonneg _ Hpos).
  intros [->|Hl]%elem_of_cons; [lia|]. specialize (IH Hl). lia.
Qed.

Lemma priority_positive s ob :
  sides_ok (bids_ ob) (asks_ ob) → positive (priority s (opposite (Q:=Q) s ob)).
Proof.
  intros Hok. pose proof (opposite_positive s ob Hok). destruct s; simpl in *; [done|].
  unfold positive. by rewrite Forall_reverse.
Qed.

Lemma priority_volume s (ob : OrderBook Q) :
  volume (priority s (opposite s ob)) = volume (levels_ (opposite s ob)).
Proof. destruct s; simpl; [done|]. apply volume_reverse. Qed.

Lemma book_volume_sides s ob :
  book_volume ob = volume (levels_ (own (Q:=Q) s ob)) + volume (levels_ (opposite s ob)).
Proof. unfold book_volume. destruct s; simpl; lia. Qed.

Lemma side_volumes_nonneg s ob :
  sides_ok (bids_ ob) (asks_ ob) →
  0 ≤ volume (levels_ (own (Q:=Q) s ob)) ∧ 0 ≤ volume (levels_ (opposite s ob)).
Proof.
  intros Hok. split; apply volume_nonneg; [by apply own_positive|by apply opposite_positive].
Qed.

Lemma small_book_never_stalls s p q ob :
  sides_ok (bids_ ob) (asks_ ob) → book_volume (Q:=Q) ob < 2 ^ 32 →
  stalls (crosses s p) q (priority s (opposite s ob)) = false.
Proof.
  intros Hok Hv. pose proof (priority_positive s ob Hok) as Hpos.
  destruct (side_volumes_nonneg s ob Hok) as [Ho _].
  rewrite (book_volume_sides s), <-priority_volume in Hv.
  apply stalls_bounded; [done|]. apply Forall_forall. intros l Hl.
  apply small_total in Hl; [lia|done].
Qed.

(** An order adds its remainder to one side and takes its fills from the other. *)
Lemma executed_volume s p q t id now slot ob ob' q' ls' fs :
  executed s p q t id now slot ob ob' q' ls' →
  sweep (crosses s p) q (priority s (opposite s ob)) = (q', ls', fs) →
  book_volume ob' = book_volume ob + q - 2 * traded fs.
Proof.
  intros Hx Hsw. apply sweep_conserves in Hsw as [Hc Hv]. rewrite priority_volume in Hv.
  rewrite (book_volume_sides s ob'), (book_volume_sides s ob).
  rewrite (ex_own_volume _ _ _ _ _ _ _ _ _ _ _ Hx).
  assert (volume (levels_ (opposite s ob')) = volume ls'); [|lia].
  rewrite (ex_opposite _ _ _ _ _ _ _ _ _ _ _ Hx). destruct s; simpl; [done|].
  apply volume_reverse.
Qed.

(** What a call did to the environment and to the total volume. *)
Definition accounted (v q v' : Z) (w w' : world) : Prop :=
  (tsc_reads w ≤ tsc_reads w')%nat ∧
  ∃ ms, reported w' = reported w ++ ms ∧ Forall (λ m, 0 < match_quantity m) ms ∧
    v' + 2 * sum (match_quantity <$> ms) ≤ v + q.

Lemma accounted_none v q w : 0 ≤ q → accounted v q v w w.
Proof.
  intros. split; [done|]. exists []. rewrite app_nil_r. repeat split; [by constructor|simpl; lia].
Qed.

Lemma report_quantities fs w :
  match_quantity <$> imap (λ i f, mkMatch 0 0 f.1 f.2 (rdtsc (tsc_reads w + i))) fs = fs.*2.
Proof. rewrite fmap_imap. apply imap_const. Qed.

Lemma execute_order_small s p q t id ob free w :
  book_ok ob free → 0 ≤ q < 2 ^ 32 → book_volume ob + q < 2 ^ 32 →
  ∃ r ob' free' w', execute_order max_orders rdtsc s p q t id ob w = Ok (r, ob', w') ∧
    book_ok ob' free' ∧ accounted (book_volume ob) q (book_volume ob') w w'.
Proof.
  intros Hok Hq Hv. pose proof (ok_sides _ _ Hok) as Hsd.
  destruct (side_volumes_nonneg s ob Hsd) as [Ho Hp].
  pose proof (book_volume_sides s ob) as Hsum.
  destruct free as [|slot free].
  { destruct (execute_order_exhausted s p q t id ob w Hok) as (q0 & Hq0 & ->).
    do 4 eexists. split; [done|].
    split; [by eapply set_free_ok; [exact Hok|exact Hq0|constructor]|].
    apply accounted_none. lia. }
  pose proof (execute_order_exact s p q t id ob slot free w Hok Hq ltac:(lia)
                (small_book_never_stalls s p q ob Hsd ltac:(lia))) as Hex.
  destruct (sweep _ _ _) as [[q' ls'] fs] eqn:Hsw.
  destruct Hex as (ob' & -> & Hok' & Hx).
  destruct (sweep_fills _ _ _ _ _ _ (proj1 Hq) (priority_positive s ob Hsd) Hsw)
    as (_ & _ & Hf & _).
  do 4 eexists. split; [done|]. split; [exact Hok'|].
  split; [rewrite report_all_reads; simpl; lia|]. eexists.
  split; [exact (report_all_app rdtsc fs (mkWorld (S (tsc_reads w)) (reported w)))|]. split.
  - apply Forall_forall. intros m (i & f & -> & Hi)%elem_of_lookup_imap.
    by apply (Forall_lookup_1 _ _ _ _ Hf Hi).
  - rewrite report_quantities. fold (traded fs).
    rewrite (executed_volume _ _ _ _ _ _ _ _ _ _ _ _ Hx Hsw). lia.
Qed.

Lemma add_order_small s p q t ob free w :
  book_ok ob free → 0 ≤ q < 2 ^ 32 → book_volume ob + q < 2 ^ 32 →
  ∃ r ob' free' w', add_order max_orders rdtsc s p q t ob w = Ok (r, ob', w') ∧
    book_ok ob' free' ∧ accounted (book_volume ob) q (book_volume ob') w w'.
Proof.
  intros Hok Hq Hv.
  apply (set_next_id_ok _ _ (u64 (next_order_id_ ob + 1))) in Hok.
  unfold add_order. destruct t; [exact (execute_order_small s p q _ _ _ free w Hok Hq Hv)..|].
  destruct (cancel_order_ok (u64 p) _ _ Hok) as (b & ob' & free' & -> & Hok' & Hb & Ha & _).
  do 4 eexists. split; [done|]. split; [done|].
  assert (book_volume ob' = book_volume ob) as ->.
  { unfold book_volume. by rewrite Hb, Ha. }
  apply accounted_none. lia.
Qed.
End Invariant.
End BookInv.
