(* ===== verification/Engine.v ===== *)
(** * Programs of calls to the order book

    What every operation of [OrderBook] promises its caller, and what holds of any
    sequence of calls on a freshly constructed book. *)
From S2P Require Import Prelude Fifo SpscQueue PriceLadder OrderBook Matching BookInvariant.

Module Engine.
Import Spsc Ladder Book Matching BookInv.

(** ** Programs *)
Inductive request : Type :=
  | AddReq (s : Side) (price quantity : Z) (t : OrderType)
  | CancelReq (id : Z).

Definition request_quantity (r : request) : Z :=
  match r with AddReq _ _ q _ => q | CancelReq _ => 0 end.

(** The quantities are [uint32_t]. *)
Definition valid_request (r : request) : Prop := 0 ≤ request_quantity r < 2 ^ 32.

Definition submitted (rs : list request) : Z := sum (request_quantity <$> rs).

Definition initial_world : world := mkWorld 0 [].

Section Programs.
Context {Q : Type} `{FifoOps Z Q} (max_orders : Z) (rdtsc : nat → Z).

(** The answer of a call: an order id, or 1 and 0 for the Boolean of a cancellation. *)
Definition call (r : request) (ob : OrderBook Q) (w : world)
    : outcome (Z * OrderBook Q * world) :=
  match r with
  | AddReq s p q t => add_order max_orders rdtsc s p q t ob w
  | CancelReq id =>
      '(b, ob') ← cancel_order max_orders id ob;
      Ok (if b : bool then 1 else 0, ob', w)
  end.

Fixpoint run (rs : list request) (ob : OrderBook Q) (w : world)
    : outcome (list Z * OrderBook Q * world) :=
  match rs with
  | [] => Ok ([], ob, w)
  | r :: rs =>
      '(a, ob1, w1) ← call r ob w;
      '(rest, ob2, w2) ← run rs ob1 w1;
      Ok (a :: rest, ob2, w2)
  end.

Lemma run_cons_Ok r rs ob w a ob1 w1 rest ob2 w2 :
  call r ob w = Ok (a, ob1, w1) → run rs ob1 w1 = Ok (rest, ob2, w2) →
  run (r :: rs) ob w = Ok (a :: rest, ob2, w2).
Proof. intros Hc Hr. cbn [run]. rewrite Hc. simpl. by rewrite Hr. Qed.
End Programs.

Section Facts.
Context {Q : Type} `{FifoSpec Z Q} (max_orders : Z) (rdtsc : nat → Z).
Context `{!PowerOfTwo max_orders}.

(** The free list after the constructor: the pushes that fit. *)
Lemma init_free_list_spec n i q l :
  fifo_rep q l →
  ∃ q', init_free_list n i q = Ok q' ∧ fifo_rep q' (take fifo_room (l ++ seqZ i (Z.of_nat n))).
Proof.
  clear rdtsc. revert i q l. induction n as [|n IH]; intros i q l Hq; simpl.
  - exists q. rewrite app_nil_r, take_ge by (by eapply fifo_rep_bound). done.
  - destruct (fifo_push_any q l i Hq) as (b & q1 & -> & Hq1 & Hb). simpl.
    destruct (IH (i + 1) q1 _ Hq1) as (q' & -> & Hq'). exists q'. split; [done|].
    rewrite seqZ_cons by lia.
    replace (Z.succ i) with (i + 1) by lia.
    replace (Z.pred (Z.of_nat (S n))) with (Z.of_nat n) by lia.
    destruct b; [by rewrite <-app_assoc in Hq'|].
    pose proof (fifo_rep_bound q l Hq).
    assert (length l = fifo_room) as Hfull by (destruct (decide (length l < fifo_room)%nat); naive_solver lia).
    rewrite take_app_le in Hq' |- * by lia. done.
Qed.

Lemma new_book_ok symbol free0 :
  fifo_rep free0 [] →
  ∃ ob, OrderBook_new max_orders symbol free0 = Ok ob ∧
    book_ok max_orders ob (take fifo_room (seqZ 0 max_orders)) ∧
    bids_ ob = mkLadder [] ∧ asks_ ob = mkLadder [] ∧ next_order_id_ ob = 1.
Proof.
  intros Hq. pose proof (pow2_pos (c:=max_orders)) as Hpos.
  destruct (init_free_list_spec (Z.to_nat max_orders) 0 free0 [] Hq) as (q' & Hi & Hq').
  rewrite Z2Nat.id in Hq' by lia. unfold OrderBook_new. rewrite Hi. simpl.
  eexists. split; [done|]. split; [|done].
  split; simpl; rewrite ?length_replicate; [|lia|lia| |done|].
  - split; simpl; try constructor; set_solver.
  - intros i slot Hs. apply lookup_replicate in Hs as [-> _]. done.
  - apply Forall_take, Forall_forall. intros slot Hs%elem_of_seqZ. lia.
Qed.

Lemma call_small r ob free w :
  book_ok max_orders ob free → valid_request r → book_volume ob + request_quantity r < 2 ^ 32 →
  ∃ a ob' free' w', call max_orders rdtsc r ob w = Ok (a, ob', w') ∧
    book_ok max_orders ob' free' ∧
    accounted (book_volume ob) (request_quantity r) (book_volume ob') w w'.
Proof.
  intros Hok Hr Hv. destruct r as [s p q t|id]; simpl in *.
  - by apply (add_order_small max_orders rdtsc s p q t ob free w).
  - destruct (cancel_order_ok max_orders id ob free Hok) as (b & ob' & free' & -> & Hok' & Hb & Ha & _).
    do 4 eexists. split; [done|]. split; [done|].
    assert (book_volume ob' = book_volume ob) as -> by (unfold book_volume; by rewrite Hb, Ha).
    by apply accounted_none.
Qed.

Lemma book_volume_nonneg (ob : OrderBook Q) free : book_ok max_orders ob free → 0 ≤ book_volume ob.
Proof.
  intros Hok. pose proof (side_volumes_nonneg Buy ob (ok_sides _ _ _ Hok)) as [? ?].
  rewrite (book_volume_sides Buy). lia.
Qed.

Lemma positive_sum ms : Forall (λ m, 0 < match_quantity m) ms → 0 ≤ sum (match_quantity <$> ms).
Proof. intros Hms. apply sum_nonneg, Forall_fmap. eapply Forall_impl; [exact Hms|]. intros m. apply Z.lt_le_incl. Qed.

Lemma run_small rs ob free w :
  book_ok max_orders ob free → Forall valid_request rs →
  book_volume ob + submitted rs < 2 ^ 32 →
  ∃ answers ob' free' w', run max_orders rdtsc rs ob w = Ok (answers, ob', w') ∧
    book_ok max_orders ob' free' ∧
    accounted (book_volume ob) (submitted rs) (book_volume ob') w w'.
Proof.
  intros Hok Hrs. revert ob free w Hok.
  induction Hrs as [|r rs Hr Hrs IH]; intros ob free w Hok Hv.
  - do 4 eexists. split; [done|]. split; [done|]. by apply accounted_none.
  - assert (0 ≤ submitted rs) as Hs0.
    { apply sum_nonneg, Forall_fmap. eapply Forall_impl; [exact Hrs|]. intros x. apply proj1. }
    change (submitted (r :: rs)) with (request_quantity r + submitted rs) in *.
    destruct (call_small r ob free w Hok Hr ltac:(lia))
      as (a & ob1 & free1 & w1 & Hc & Hok1 & Ht1 & ms1 & Hms1 & Hp1 & Ha1).
    pose proof (positive_sum _ Hp1).
    destruct (IH ob1 free1 w1 Hok1 ltac:(lia))
      as (answers & ob2 & free2 & w2 & Hr2 & Hok2 & Ht2 & ms2 & Hms2 & Hp2 & Ha2).
    do 4 eexists. simpl. rewrite Hc. simpl. rewrite Hr2. split; [done|]. split; [done|].
    split; [lia|].
    exists (ms1 ++ ms2). rewrite Hms2, Hms1, app_assoc, fmap_app, sum_app.
    split; [done|]. split; [by apply Forall_app|lia].
Qed.

(** ** Order ids *)
Definition is_add (r : request) : bool :=
  match r with AddReq _ _ _ _ => true | CancelReq _ => false end.
Definition adds (rs : list request) : Z := Z.of_nat (length (List.filter is_add rs)).

Lemma cancel_next_id id (ob : OrderBook Q) b ob' :
  cancel_order max_orders id ob = Ok (b, ob') → next_order_id_ ob' = next_order_id_ ob.
Proof.
  unfold cancel_order. intros (slot & _ & Hc)%bind_Ok. case_match; [by simplify_eq|].
  apply bind_Ok in Hc as (o & _ & Hc). case_match; [by simplify_eq|].
  apply bind_Ok in Hc as (ob1 & Hside & ([b' free'] & _ & [= <- <-])%bind_Ok). simpl.
  destruct (side o); apply bind_Ok in Hside as (lad & _ & [= <-]); done.
Qed.

Lemma execute_next_id s p q t id (ob : OrderBook Q) w a ob' w' :
  execute_order max_orders rdtsc s p q t id ob w = Ok (a, ob', w') →
  next_order_id_ ob' = next_order_id_ ob ∧ (a = 0 ∨ a = id).
Proof.
  unfold execute_order. intros ([[slot|] free1] & _ & Hx)%bind_Ok; [|naive_solver].
  simpl in Hx. apply bind_Ok in Hx as (pool1 & _ & (slots1 & _ & Hx)%bind_Ok).
  apply bind_Ok in Hx as ([[r ob3] w2] & Hm & Hx).
  assert (next_order_id_ ob3 = next_order_id_ ob) as <-.
  { destruct s; simpl in Hm; apply bind_Ok in Hm as ([[??]?] & _ & [= _ <- _]); done. }
  case_match.
  - apply bind_Ok in Hx as ([??] & _ & [= <- <- _]). auto.
  - apply bind_Ok in Hx as (o & _ & (pool2 & _ & Hx)%bind_Ok).
    destruct s; apply bind_Ok in Hx as ([??] & _ & [= <- <- _]); auto.
Qed.

Lemma call_next_id r ob w a ob' w' :
  call max_orders rdtsc r ob w = Ok (a, ob', w') →
  next_order_id_ ob' =
    (if is_add r then u64 (next_order_id_ ob + 1) else next_order_id_ ob) ∧
  (if is_add r then a = 0 ∨ a = next_order_id_ ob else a = 0 ∨ a = 1).
Proof.
  destruct r as [s p q t|id]; simpl.
  - unfold add_order. destruct t.
    1,2: intros Hx%execute_next_id; simpl in Hx; naive_solver.
    intros ([b ob1] & Hc%cancel_next_id & [= <- <- _])%bind_Ok. auto.
  - intros ([b ob1] & Hc%cancel_next_id & [= <- <- _])%bind_Ok. destruct b; auto.
Qed.

(** The answer expected of each call: an addition is told 0 or the next number. *)
Fixpoint numbered (n : Z) (rs : list request) (answers : list Z) : Prop :=
  match rs, answers with
  | [], [] => True
  | r :: rs, a :: answers =>
      if is_add r then (a = 0 ∨ a = n) ∧ numbered (n + 1) rs answers
      else (a = 0 ∨ a = 1) ∧ numbered n rs answers
  | _, _ => False
  end.

Lemma adds_cons r rs : adds (r :: rs) = (if is_add r then 1 else 0) + adds rs.
Proof. unfold adds. simpl. destruct (is_add r); simpl; lia. Qed.

Lemma run_numbered rs ob w answers ob' w' :
  run max_orders rdtsc rs ob w = Ok (answers, ob', w') →
  0 ≤ next_order_id_ ob → next_order_id_ ob + adds rs < 2 ^ 64 →
  numbered (next_order_id_ ob) rs answers ∧
  next_order_id_ ob' = next_order_id_ ob + adds rs.
Proof.
  revert ob w answers. induction rs as [|r rs IH]; intros ob w answers; simpl.
  - intros [= <- <- <-] ??. change (adds []) with 0. split; [done|lia].
  - intros ([[a ob1] w1] & Hc%call_next_id & Hr)%bind_Ok Hn Hlt.
    apply bind_Ok in Hr as ([[rest ob2] w2] & Hr & [= <- <- <-]).
    rewrite adds_cons in Hlt |- *. destruct Hc as [Hnext Ha].
    assert (0 ≤ adds rs) by (unfold adds; lia).
    assert (next_order_id_ ob1 = next_order_id_ ob + if is_add r then 1 else 0) as Heq.
    { rewrite Hnext. destruct (is_add r); [apply wrap_small|]; lia. }
    destruct (IH ob1 w1 rest Hr ltac:(destruct (is_add r); lia) ltac:(lia)) as [Hnum ->].
    rewrite Heq in Hnum |- *. split; [|lia].
    destruct (is_add r); simpl; [done|]. by rewrite Z.add_0_r in Hnum.
Qed.

(** ** Properties *)

(** C1: any program of [add_order] and [cancel_order] calls on a freshly constructed
    book whose total submitted quantity fits 32 bits runs to completion: no loop
    diverges and no array is left.  Afterwards both ladders are sorted, hold no
    empty level and are not crossed, and what is resting plus twice what was
    traded does not exceed what was submitted. *)
Theorem engine_runs_safely (rs : list request) (symbol : Z) (free0 : Q)
    (Hfree : fifo_rep free0 []) (Hvalid : Forall valid_request rs)
    (Hsmall : submitted rs < 2 ^ 32) :
  ∃ ob0 answers ob w, OrderBook_new max_orders symbol free0 = Ok ob0 ∧
    run max_orders rdtsc rs ob0 initial_world = Ok (answers, ob, w) ∧
    sides_ok (bids_ ob) (asks_ ob) ∧
    book_volume ob + 2 * sum (match_quantity <$> reported w) ≤ submitted rs.
Proof.
  destruct (new_book_ok symbol free0 Hfree) as (ob0 & Hnew & Hok & Hb & Ha & _).
  assert (book_volume ob0 = 0) as Hv0 by (unfold book_volume; by rewrite Hb, Ha).
  destruct (run_small rs ob0 _ initial_world Hok Hvalid ltac:(lia))
    as (answers & ob & free & w & Hrun & Hok' & _ & ms & Hms & _ & Hacc).
  exists ob0, answers, ob, w. split; [done|]. split; [done|].
  split; [apply (ok_sides _ _ _ Hok')|]. rewrite Hms. simpl. lia.
Qed.

(** The ids [add_order] returns are 1, 2, 3, ... in call order, a 0 standing for an
    order turned away, so no two orders share an id; [total_orders] counts every
    call of [add_order], the rejected orders and the cancel requests included. *)
Lemma order_ids_are_sequential (rs : list request) (symbol : Z) (free0 : Q)
    (Hfree : fifo_rep free0 []) (Hvalid : Forall valid_request rs)
    (Hsmall : submitted rs < 2 ^ 32) (Hcount : adds rs < 2 ^ 64 - 1) :
  ∃ ob0 answers ob w, OrderBook_new max_orders symbol free0 = Ok ob0 ∧
    run max_orders rdtsc rs ob0 initial_world = Ok (answers, ob, w) ∧
    numbered 1 rs answers ∧ total_orders ob = adds rs.
Proof.
  destruct (new_book_ok symbol free0 Hfree) as (ob0 & Hnew & Hok & Hb & Ha & Hn).
  assert (book_volume ob0 = 0) as Hv0 by (unfold book_volume; by rewrite Hb, Ha).
  destruct (run_small rs ob0 _ initial_world Hok Hvalid ltac:(lia))
    as (answers & ob & free & w & Hrun & _).
  exists ob0, answers, ob, w. do 2 (split; [done|]).
  destruct (run_numbered _ _ _ _ _ _ Hrun ltac:(lia) ltac:(lia)) as [Hnum Hnext].
  rewrite Hn in Hnum, Hnext. split; [done|]. unfold total_orders.
  rewrite Hnext, wrap_small; unfold adds in *; lia.
Qed.

(** C3: an order that is not a cancellation takes the oldest free slot and the next
    id, is recorded under both, trades with the opposite side as one pass over its
    levels would, and what is left of it rests on its own side at its own price,
    added to the level of that price.  [Limit] and [Market] are not told apart. *)
Theorem add_order_executes s p q t ob slot free w
    (Hok : book_ok max_orders ob (slot :: free)) (Ht : t ≠ Cancel) (Hq : 0 ≤ q < 2 ^ 32)
    (Hv : volume (levels_ (own s ob)) + q < 2 ^ 64)
    (Hst : stalls (crosses s p) q (priority s (opposite s ob)) = false) :
  let id := next_order_id_ ob in
  let '(q', ls', fs) := sweep (crosses s p) q (priority s (opposite s ob)) in
  ∃ ob', add_order max_orders rdtsc s p q t ob w =
      Ok (id, ob', report_all rdtsc fs (mkWorld (S (tsc_reads w)) (reported w))) ∧
    book_ok max_orders ob' (if q' =? 0 then free ++ [slot] else free) ∧
    executed max_orders s p q t id (rdtsc (tsc_reads w)) slot
      (set_next_id ob (u64 (id + 1))) ob' q' ls'.
Proof.
  by apply add_order_exact.
Qed.

(** C37: with an empty free list an order is turned away: nothing trades, nothing
    rests and the answer is 0, but its id is used up. *)
Theorem add_order_pool_exhausted s p q t ob w
    (Hok : book_ok max_orders ob []) (Ht : t ≠ Cancel) :
  add_order max_orders rdtsc s p q t ob w =
    Ok (0, set_next_id ob (u64 (next_order_id_ ob + 1)), w).
Proof.
  unfold add_order, execute_order. simpl. rewrite (fifo_pop_nil _ (ok_free _ _ _ Hok)).
  by destruct t.
Qed.

(** C36: cancelling never changes what can be traded: [cancel_order] answers [true]
    exactly when the slot of the id still holds that id, and then only the free
    list changes; an order sent after the cancellation is matched against the
    same levels, the cancelled quantity included, and gets the same fills. *)
Theorem cancelled_quantity_stays_tradable id ob free (Hok : book_ok max_orders ob free) :
  ∃ b ob', cancel_order max_orders id ob = Ok (b, ob') ∧
    (b = true ↔ is_Some (cancel_target max_orders id ob)) ∧
    bids_ ob' = bids_ ob ∧ asks_ ob' = asks_ ob ∧
    ∀ s p q w, (match_immediately rdtsc s q p ob' w ≫= λ x, Ok (x.1.1, x.2)) =
               (match_immediately rdtsc s q p ob w ≫= λ x, Ok (x.1.1, x.2)).
Proof.
  pose proof (cancel_order_exact max_orders id ob free Hok) as Hc.
  assert (∀ free', ∀ s p q w,
    (match_immediately rdtsc s q p (set_free ob free') w ≫= λ x, Ok (x.1.1, x.2)) =
    (match_immediately rdtsc s q p ob w ≫= λ x, Ok (x.1.1, x.2))) as Hm.
  { intros. destruct s; simpl; by destruct (_ : outcome (Z * FlatPriceLadder * world))
      as [[[??]?]|]. }
  destruct (cancel_target max_orders id ob) as [slot|].
  - destruct Hc as (_ & pushed & free' & -> & _). do 2 eexists. split; [done|].
    split; [by split|]. split_and!; [done|done|]. apply Hm.
  - do 2 eexists. split; [exact Hc|]. split; [split; [done|by intros []]|]. done.
Qed.

(** ** The spread *)
Lemma last_level (ls : list PriceLevel) :
  match last ls with Some l => ∃ pre, ls = pre ++ [l] | None => ls = [] end.
Proof.
  destruct (last ls) as [l|] eqn:Hl; [by apply last_Some in Hl|by apply last_None in Hl].
Qed.

Lemma best_bid_last (ob : OrderBook Q) : best_bid ob = last (levels_ (bids_ ob)).
Proof.
  unfold best_bid, best. rewrite last_lookup.
  by destruct (levels_ (bids_ ob)).
Qed.

Lemma best_ask_head (ob : OrderBook Q) : best_ask ob = head (levels_ (asks_ ob)).
Proof. unfold best_ask, worst. by destruct (levels_ (asks_ ob)). Qed.

(** In a well-formed book [spread_ticks] is the least distance from a resting bid
    to a resting ask, which is positive and attained; it is [INT64_MAX] when a
    side is empty, and the subtraction overflows exactly when that distance does
    not fit an [int64_t]. *)
Lemma spread_is_least_distance ob free (Hok : book_ok max_orders ob free) :
  match levels_ (bids_ ob), levels_ (asks_ ob) with
  | [], _ | _, [] => spread_ticks ob = Ok i64_max
  | _, _ => ∃ b a, b ∈ levels_ (bids_ ob) ∧ a ∈ levels_ (asks_ ob) ∧
      spread_ticks ob = i64_checked (price_ticks a - price_ticks b) ∧
      0 < price_ticks a - price_ticks b ∧
      ∀ b' a', b' ∈ levels_ (bids_ ob) → a' ∈ levels_ (asks_ ob) →
        price_ticks a - price_ticks b ≤ price_ticks a' - price_ticks b'
  end.
Proof.
  destruct (ok_sides _ _ _ Hok) as [Hbs Has _ _ Hun]. unfold spread_ticks.
  rewrite best_bid_last, best_ask_head.
  pose proof (last_level (levels_ (bids_ ob))) as Hlast.
  destruct (last (levels_ (bids_ ob))) as [b|]; [destruct Hlast as [pre Hb]|by rewrite Hlast].
  rewrite Hb in *. destruct (levels_ (asks_ ob)) as [|a post]; [by destruct pre|].
  destruct (pre ++ [b]) as [|x xs] eqn:Hpre; [by destruct pre|]. rewrite <-Hpre in *.
  exists b, a. split; [set_solver|]. split; [set_solver|]. split; [done|].
  split; [pose proof (Hun b a ltac:(set_solver) ltac:(set_solver)); lia|].
  intros b' a' Hb' Ha'.
  apply sorted_mid in Hbs as (_ & _ & Hbelow & _).
  apply (sorted_mid []) in Has as (_ & _ & _ & Habove & _).
  assert (price_ticks b' ≤ price_ticks b).
  { apply elem_of_app in Hb' as [Hb'| ->%list_elem_of_singleton]; [|lia].
    apply (proj1 (Forall_forall _ _) Hbelow) in Hb'. simpl in Hb'. lia. }
  assert (price_ticks a ≤ price_ticks a'); [|lia].
  apply elem_of_cons in Ha' as [->|Ha']; [lia|].
  apply (proj1 (Forall_forall _ _) Habove) in Ha'. simpl in Ha'. lia.
Qed.
End Facts.

(** ** Concrete runs, with a pool of four slots *)
Definition demo_queue : SpscQueue Z := SpscQueue_new [0; 0; 0; 0].

Lemma demo_queue_ok : fifo_rep (FifoSpec:=spsc_fifo_spec 4) demo_queue [].
Proof. by apply (spsc_rep_new 4). Qed.

Definition demo_requests : list request :=
  [AddReq Sell 10100 50 Limit; AddReq Buy 10000 80 Limit; CancelReq 1;
   AddReq Buy 10200 60 Market; AddReq Sell 0 0 Cancel].

Lemma demo_requests_valid : Forall valid_request demo_requests.
Proof. by repeat constructor. Qed.

Lemma engine_runs_safely_witness :
  ∃ ob0 answers ob w,
    OrderBook_new (H:=spsc_fifo_ops 4) 4 7 demo_queue = Ok ob0 ∧
    run (H:=spsc_fifo_ops 4) 4 Z.of_nat demo_requests ob0 initial_world = Ok (answers, ob, w) ∧
    sides_ok (bids_ ob) (asks_ ob) ∧
    book_volume ob + 2 * sum (match_quantity <$> reported w) ≤ 190.
Proof.
  exact (engine_runs_safely (H0:=spsc_fifo_spec 4) 4 Z.of_nat demo_requests 7 demo_queue
           demo_queue_ok demo_requests_valid eq_refl).
Defined.

Lemma order_ids_example :
  ∃ ob0 answers ob w,
    OrderBook_new (H:=spsc_fifo_ops 4) 4 7 demo_queue = Ok ob0 ∧
    run (H:=spsc_fifo_ops 4) 4 Z.of_nat demo_requests ob0 initial_world = Ok (answers, ob, w) ∧
    numbered 1 demo_requests answers ∧ total_orders ob = 4.
Proof.
  exact (order_ids_are_sequential (H0:=spsc_fifo_spec 4) 4 Z.of_nat demo_requests 7 demo_queue
           demo_queue_ok demo_requests_valid eq_refl eq_refl).
Defined.

(** Two resting asks and a bid; slots 0, 1 and 2 are taken by orders 1, 2 and 3, and the
    free list holds [free]. *)
Definition demo_book (q : SpscQueue Z) : OrderBook (SpscQueue Z) :=
  mkBook 7 (mkLadder [mkLevel 9900 30 1 0])
    (mkLadder [mkLevel 10000 5 1 0; mkLevel 10100 20 1 0])
    [mkOrder 1 0 10000 5 0 7 Sell Limit; mkOrder 2 1 10100 20 0 7 Sell Limit;
     mkOrder 3 2 9900 30 0 7 Buy Limit; Order_zero]
    q [0xFFFFFFFF; 0; 1; 2] 4.

Lemma demo_book_ok q free :
  spsc_rep 4 q free → Forall (λ slot, 0 ≤ slot < 4) free →
  book_ok (H0:=spsc_fifo_spec 4) 4 (demo_book q) free.
Proof.
  intros Hq Hf. split; try done.
  - split; [repeat constructor..|]. simpl. intros b a. set_unfold. naive_solver lia.
  - intros i slot Hi. by do 4 (destruct i; [by injection Hi as <-|]).
Qed.

(** One free slot, slot 3, or none. *)
Definition one_free : SpscQueue Z := mkSpsc 1 0 [3; 0; 0; 0].

Lemma one_free_ok : spsc_rep 4 one_free [3].
Proof.
  split; try done. intros i x. destruct i; [by intros [= <-]|done].
Qed.

Lemma add_order_executes_witness :
  ∃ ob', add_order (H:=spsc_fifo_ops 4) 4 Z.of_nat Buy 10050 8 Limit (demo_book one_free)
      (mkWorld 0 []) = Ok (4, ob', mkWorld 2 [mkMatch 0 0 10000 5 1]) ∧
    book_ok (H0:=spsc_fifo_spec 4) 4 ob' [] ∧
    executed 4 Buy 10050 8 Limit 4 0 3 (set_next_id (demo_book one_free) 5) ob' 3
      [mkLevel 10100 20 1 0].
Proof.
  exact (add_order_executes (H0:=spsc_fifo_spec 4) 4 Z.of_nat Buy 10050 8 Limit
           (demo_book one_free) 3 [] (mkWorld 0 [])
           (demo_book_ok _ _ one_free_ok ltac:(repeat constructor; lia))
           ltac:(discriminate) ltac:(lia) ltac:(reflexivity) ltac:(reflexivity)).
Defined.

Lemma add_order_pool_exhausted_witness :
  add_order (H:=spsc_fifo_ops 4) 4 Z.of_nat Buy 10050 8 Limit (demo_book demo_queue)
    (mkWorld 0 []) = Ok (0, set_next_id (demo_book demo_queue) 5, mkWorld 0 []).
Proof.
  exact (add_order_pool_exhausted (H0:=spsc_fifo_spec 4) 4 Z.of_nat Buy 10050 8 Limit
           (demo_book demo_queue) (mkWorld 0 [])
           (demo_book_ok _ _ demo_queue_ok ltac:(constructor)) ltac:(discriminate)).
Defined.

(** Order 1 is cancelled, and its 5 units still trade. *)
Lemma cancelled_quantity_stays_tradable_witness :
  ∃ b ob', cancel_order (H:=spsc_fifo_ops 4) 4 1 (demo_book one_free) = Ok (b, ob') ∧
    (b = true ↔ is_Some (Some 0)) ∧
    bids_ ob' = bids_ (demo_book one_free) ∧ asks_ ob' = asks_ (demo_book one_free) ∧
    ∀ s p q w, (match_immediately Z.of_nat s q p ob' w ≫= λ x, Ok (x.1.1, x.2)) =
      (match_immediately Z.of_nat s q p (demo_book one_free) w ≫= λ x, Ok (x.1.1, x.2)).
Proof.
  exact (cancelled_quantity_stays_tradable (H0:=spsc_fifo_spec 4) 4 Z.of_nat 1
           (demo_book one_free) [3]
           (demo_book_ok _ _ one_free_ok ltac:(repeat constructor; lia))).
Defined.

Lemma spread_is_least_distance_example :
  ∃ b a, b ∈ [mkLevel 9900 30 1 0] ∧ a ∈ [mkLevel 10000 5 1 0; mkLevel 10100 20 1 0] ∧
    spread_ticks (demo_book demo_queue) = i64_checked (price_ticks a - price_ticks b) ∧
    0 < price_ticks a - price_ticks b ∧
    ∀ b' a', b' ∈ [mkLevel 9900 30 1 0] → a' ∈ [mkLevel 10000 5 1 0; mkLevel 10100 20 1 0] →
      price_ticks a - price_ticks b ≤ price_ticks a' - price_ticks b'.
Proof.
  exact (spread_is_least_distance (H0:=spsc_fifo_spec 4) 4 (demo_book demo_queue) []
           (demo_book_ok _ _ demo_queue_ok ltac:(constructor))).
Defined.
End Engine.
