(* ===== verification/BookSpec.v ===== *)
(** * An abstract order book, and the engine as its refinement

    The market as its user sees it: two finite maps from prices to quantities.  What an
    order trades is said without any loop: each price it crosses gives what is left of
    the order after all better prices.  Every program of calls on the engine of
    [OrderBook] is a run of this market, with the same answers and the same trades. *)
From S2P Require Import Prelude Fifo SpscQueue PriceLadder OrderBook Matching BookInvariant Engine.

Module Market.
Import Spsc Ladder Book Matching BookInv Engine.

(** ** The market *)
Record market := mkMarket {
  bids : gmap Z Z;            (* price to resting quantity *)
  asks : gmap Z Z;
  accepted : gset Z;          (* the ids of the orders taken *)
  next_id : Z;
  room : nat                  (* orders that can still be taken *)
}.

(** [better s x y]: an order on side [s] prefers the price [x] to [y]. *)
Definition better (s : Side) (x y : Z) : bool :=
  match s with Buy => x <? y | Sell => y <? x end.

(** The quantity at the prices that satisfy [P]. *)
Definition quantity_at (P : Z → bool) (m : gmap Z Z) : Z :=
  sum ((λ e, if P e.1 then e.2 else 0) <$> map_to_list m).

(** What an order of [q] on side [s] with limit [p] takes at price [x]. *)
Definition allocation (s : Side) (p q : Z) (m : gmap Z Z) (x : Z) : Z :=
  if crosses s p x
  then Z.max 0 (Z.min (default 0 (m !! x)) (q - quantity_at (λ y, better s y x) m))
  else 0.

Definition unfilled (s : Side) (p q : Z) (m : gmap Z Z) : Z :=
  Z.max 0 (q - quantity_at (crosses s p) m).

Definition after_trades (s : Side) (p q : Z) (m : gmap Z Z) : gmap Z Z :=
  map_imap (λ x t, let r := t - allocation s p q m x in if r =? 0 then None else Some r) m.

(** The trades of an order: one for each price it takes from, best price first. *)
Definition trades_of (s : Side) (p q : Z) (m : gmap Z Z) (fs : list (Z * Z)) : Prop :=
  StronglySorted (λ f g, better s f.1 g.1 = true) fs ∧
  ∀ x f, (x, f) ∈ fs ↔ f = allocation s p q m x ∧ 0 < f.

Definition resting (p r : Z) (m : gmap Z Z) : gmap Z Z :=
  if r =? 0 then m else <[p := default 0 (m !! p) + r]> m.

Definition opposite_of (s : Side) (m : market) : gmap Z Z :=
  match s with Buy => asks m | Sell => bids m end.

(** An order taken by the market. *)
Definition take_order (s : Side) (p q : Z) (m : market) : market :=
  let r := unfilled s p q (opposite_of s m) in
  let room' := if r =? 0 then room m else pred (room m) in
  let accepted' := {[next_id m]} ∪ accepted m in
  match s with
  | Buy => mkMarket (resting p r (bids m)) (after_trades s p q (asks m)) accepted' (next_id m + 1) room'
  | Sell => mkMarket (after_trades s p q (bids m)) (resting p r (asks m)) accepted' (next_id m + 1) room'
  end.

(** One call: the request, the answer and the trades it causes. *)
Inductive market_step : market → request → Z → list (Z * Z) → market → Prop :=
  | MTake s p q t m fs :
      t ≠ Cancel → (0 < room m)%nat → trades_of s p q (opposite_of s m) fs →
      market_step m (AddReq s p q t) (next_id m) fs (take_order s p q m)
  | MTurnAway s p q t m :
      t ≠ Cancel → room m = 0%nat →
      market_step m (AddReq s p q t) 0 []
        (mkMarket (bids m) (asks m) (accepted m) (next_id m + 1) 0)
  | MCancel id (found : bool) m room' :
      (found = true → id ∈ accepted m) → (room m ≤ room' ≤ room m + (if found then 1 else 0))%nat →
      market_step m (CancelReq id) (if found then 1 else 0) []
        (mkMarket (bids m) (asks m) (accepted m) (next_id m) room')
  | MCancelType s p q (found : bool) m room' :
      (found = true → u64 p ∈ accepted m) →
      (room m ≤ room' ≤ room m + (if found then 1 else 0))%nat →
      market_step m (AddReq s p q Cancel) (next_id m) []
        (mkMarket (bids m) (asks m) (accepted m) (next_id m + 1) room').

Inductive market_run : market → list request → list Z → list (Z * Z) → market → Prop :=
  | MDone m : market_run m [] [] [] m
  | MStep m r a fs m1 rs answers trades m2 :
      market_step m r a fs m1 → market_run m1 rs answers trades m2 →
      market_run m (r :: rs) (a :: answers) (fs ++ trades) m2.

(** ** Quantities by price *)
Definition quantities (ls : list PriceLevel) : gmap Z Z := fst <$> ladder_map ls.

Lemma quantities_cons l ls :
  quantities (l :: ls) = <[price_ticks l := total_quantity l]> (quantities ls).
Proof. unfold quantities, ladder_map. simpl. by rewrite fmap_insert. Qed.

Lemma quantities_Some ls x t :
  quantities ls !! x = Some t → ∃ l, l ∈ ls ∧ price_ticks l = x ∧ total_quantity l = t.
Proof.
  unfold quantities. rewrite lookup_fmap_Some. intros ([t' n] & <- & Hx).
  apply elem_of_list_to_map_2, list_elem_of_fmap in Hx as (l & [= -> -> ->] & Hl). by exists l.
Qed.

Lemma sum_Permutation xs ys : xs ≡ₚ ys → sum xs = sum ys.
Proof. unfold sum. induction 1; simpl; lia. Qed.

Lemma quantity_at_insert P m x t :
  m !! x = None → quantity_at P (<[x := t]> m) = (if P x then t else 0) + quantity_at P m.
Proof.
  intros Hx. unfold quantity_at.
  rewrite (sum_Permutation _ _ (fmap_Permutation _ _ _ (map_to_list_insert m x t Hx))). done.
Qed.

Lemma quantity_at_nonneg P m : (∀ x t, m !! x = Some t → 0 < t) → 0 ≤ quantity_at P m.
Proof.
  intros Hm. apply sum_nonneg, Forall_fmap, Forall_forall. intros [x t] Hx%elem_of_map_to_list.
  apply Hm in Hx. simpl. case_match; lia.
Qed.

Lemma quantity_at_none P m : (∀ x t, m !! x = Some t → P x = false) → quantity_at P m = 0.
Proof.
  unfold quantity_at. intros Hm.
  assert (Forall (λ e, e = 0) ((λ e : Z * Z, if P e.1 then e.2 else 0) <$> map_to_list m)) as Hall.
  { apply Forall_fmap, Forall_forall. intros [x t] Hx%elem_of_map_to_list. simpl.
    by rewrite (Hm _ _ Hx). }
  unfold sum. induction Hall; simpl; lia.
Qed.

Lemma quantity_at_ext P P' m :
  (∀ x t, m !! x = Some t → P x = P' x) → quantity_at P m = quantity_at P' m.
Proof.
  intros Hm. unfold quantity_at. f_equal. apply list_fmap_ext. intros i [x t] Hx. simpl.
  apply list_elem_of_lookup_2, elem_of_map_to_list in Hx. by rewrite (Hm _ _ Hx).
Qed.

(** ** A ladder in priority order *)
Lemma in_order_head s l rest :
  in_order s (l :: rest) → ∀ x t, quantities rest !! x = Some t → better s (price_ticks l) x = true.
Proof.
  unfold in_order. intros Hs x t (k & Hk & <- & _)%quantities_Some.
  destruct s; simpl in *; apply Z.ltb_lt.
  - apply (sorted_mid []) in Hs as (_ & _ & _ & Ha & _).
    by apply (proj1 (Forall_forall _ _) Ha) in Hk.
  - rewrite reverse_cons in Hs. apply sorted_mid in Hs as (_ & _ & Ha & _).
    apply elem_of_reverse in Hk. by apply (proj1 (Forall_forall _ _) Ha) in Hk.
Qed.

Lemma better_irrefl s x : better s x x = false.
Proof. destruct s; simpl; case_Z; done || lia. Qed.
Lemma better_asym s x y : better s x y = true → better s y x = false.
Proof. destruct s; simpl; case_Z; done || lia. Qed.

Section Head.
Context (s : Side) (p : Z) (l : PriceLevel) (rest : list PriceLevel).
Context (Hord : in_order s (l :: rest)) (Hpos : positive (l :: rest)).
Abbreviation x0 := (price_ticks l).
Abbreviation t0 := (total_quantity l).
Abbreviation m := (quantities rest).

Lemma head_absent : m !! x0 = None.
Proof.
  destruct (m !! x0) as [t|] eqn:Hx; [|done].
  apply (in_order_head s l rest Hord) in Hx. by rewrite better_irrefl in Hx.
Qed.

Lemma rest_positive x t : m !! x = Some t → 0 < t.
Proof.
  intros (k & Hk & _ & <-)%quantities_Some. inversion_clear Hpos as [|?? _ Hr].
  apply (proj1 (Forall_forall _ _) Hr) in Hk. simpl in Hk. lia.
Qed.

(** The best price is served first, the others after it. *)
Lemma allocation_head q :
  allocation s p q (quantities (l :: rest)) x0 =
    if crosses s p x0 then Z.max 0 (Z.min t0 q) else 0.
Proof.
  unfold allocation. rewrite quantities_cons, lookup_insert_eq, quantity_at_insert by apply head_absent.
  rewrite better_irrefl, quantity_at_none; [by rewrite Z.sub_0_r|].
  intros x t Hx%(in_order_head s l rest Hord). by apply better_asym.
Qed.

Lemma allocation_rest q x :
  x ≠ x0 → allocation s p q (quantities (l :: rest)) x = allocation s p (q - t0) m x.
Proof.
  intros Hne. unfold allocation. destruct (crosses s p x); [|done].
  rewrite quantities_cons, lookup_insert_ne by done.
  destruct (m !! x) as [t|] eqn:Hx; simpl; [|lia].
  rewrite quantity_at_insert by apply head_absent.
  rewrite (in_order_head s l rest Hord x t Hx). f_equal. f_equal. lia.
Qed.

Lemma unfilled_cons q :
  crosses s p x0 = true → unfilled s p q (quantities (l :: rest)) = unfilled s p (q - t0) m.
Proof.
  intros Hc. unfold unfilled. rewrite quantities_cons, quantity_at_insert, Hc by apply head_absent. lia.
Qed.
End Head.

(** An order without quantity, or beyond the market, takes nothing. *)
Lemma allocation_zero s p q m x :
  (∀ y t, m !! y = Some t → 0 < t) → q ≤ 0 → allocation s p q m x = 0.
Proof.
  intros Hm Hq. unfold allocation. case_match; [|done].
  pose proof (quantity_at_nonneg (λ y, better s y x) m Hm). lia.
Qed.

Lemma quantities_positive ls x t : positive ls → quantities ls !! x = Some t → 0 < t.
Proof.
  intros Hpos (k & Hk & _ & <-)%quantities_Some.
  apply (proj1 (Forall_forall _ _) Hpos) in Hk. simpl in Hk. lia.
Qed.

Lemma after_trades_lookup s p q m x :
  after_trades s p q m !! x =
    t ← m !! x; let r := t - allocation s p q m x in if r =? 0 then None else Some r.
Proof. unfold after_trades. apply map_lookup_imap. Qed.

Lemma no_trades s p q ls :
  positive ls → (∀ x, allocation s p q (quantities ls) x = 0) →
  quantities ls = after_trades s p q (quantities ls) ∧ trades_of s p q (quantities ls) [].
Proof.
  intros Hpos Hz. split.
  - apply map_eq. intros x. rewrite after_trades_lookup, Hz.
    destruct (quantities ls !! x) as [t|] eqn:Hx; simpl; [|done].
    pose proof (quantities_positive ls x t Hpos Hx). rewrite Z.sub_0_r. case_Z; [lia|done].
  - split; [constructor|]. intros x f. rewrite Hz. split; [by intros ?%not_elem_of_nil|lia].
Qed.

(** The levels left and the trades of one more level. *)
Lemma after_trades_cons s p q l rest v :
  in_order s (l :: rest) →
  v = total_quantity l - allocation s p q (quantities (l :: rest)) (price_ticks l) →
  after_trades s p q (quantities (l :: rest)) =
    (if v =? 0 then id else <[price_ticks l := v]>)
      (after_trades s p (q - total_quantity l) (quantities rest)).
Proof.
  intros Hord Hv. pose proof (head_absent s l rest Hord) as Ha. apply map_eq. intros x.
  rewrite after_trades_lookup. destruct (decide (x = price_ticks l)) as [->|Hne].
  - assert (quantities (l :: rest) !! price_ticks l = Some (total_quantity l)) as ->
      by (rewrite quantities_cons; apply lookup_insert_eq).
    cbn [mbind option_bind]. cbv zeta. rewrite <-Hv. destruct (v =? 0); simpl.
    + by rewrite after_trades_lookup, Ha.
    + by rewrite lookup_insert_eq.
  - rewrite (allocation_rest s p l rest Hord q x Hne), quantities_cons, lookup_insert_ne by done.
    destruct (v =? 0); simpl; rewrite ?lookup_insert_ne by done; by rewrite after_trades_lookup.
Qed.

Lemma trades_cons s p q l rest fs f0 :
  in_order s (l :: rest) → allocation s p q (quantities (l :: rest)) (price_ticks l) = f0 →
  0 < f0 → trades_of s p (q - total_quantity l) (quantities rest) fs →
  trades_of s p q (quantities (l :: rest)) ((price_ticks l, f0) :: fs).
Proof.
  intros Hord Hf0 Hpos [Hsort Hin]. pose proof (head_absent s l rest Hord) as Ha.
  assert (∀ x f, (x, f) ∈ fs → is_Some (quantities rest !! x)) as Hdom.
  { intros x f [-> Hf]%Hin. unfold allocation in Hf. case_match; [|lia].
    destruct (quantities rest !! x); [done|simpl in Hf; lia]. }
  split.
  - constructor; [done|]. apply Forall_forall. intros [x f] Hx. simpl.
    destruct (Hdom x f Hx) as [t Ht]. by eapply in_order_head.
  - intros x f. rewrite elem_of_cons. destruct (decide (x = price_ticks l)) as [->|Hne].
    + rewrite Hf0. split; [|naive_solver]. intros [[= ->]|Hx]; [done|].
      destruct (Hdom _ _ Hx). congruence.
    + rewrite (allocation_rest s p l rest Hord q x Hne), <-Hin. naive_solver.
Qed.

(** The pass over the levels does what the market says. *)
Lemma sweep_allocates s p q ls q' ls' fs :
  in_order s ls → positive ls → 0 ≤ q → sweep (crosses s p) q ls = (q', ls', fs) →
  q' = unfilled s p q (quantities ls) ∧
  quantities ls' = after_trades s p q (quantities ls) ∧
  trades_of s p q (quantities ls) fs.
Proof.
  intros Hord Hpos. revert q q' ls' fs Hord. induction Hpos as [|l rest Hl Hpos IH];
    intros q q' ls' fs Hord Hq; simpl.
  { intros [= <- <- <-]. assert (∀ x, quantities [] !! x = None) as Hnil by done.
    split; [unfold unfilled; rewrite quantity_at_none; [lia|]; intros x t; by rewrite Hnil|].
    apply no_trades; [constructor|]. intros x. unfold allocation. case_match; [|done].
    rewrite Hnil. simpl. lia. }
  assert (positive (l :: rest)) as Hpos' by by constructor.
  pose proof (allocation_head s p l rest Hord q) as Hhead.
  sweep_cases.
  - intros [= <- <- <-]. split.
    + unfold unfilled. pose proof (quantity_at_nonneg (crosses s p) (quantities (l :: rest))
        (λ x t, quantities_positive _ x t Hpos')). lia.
    + apply no_trades; [done|]. intros x. apply allocation_zero; [|lia].
      intros y t. by apply quantities_positive.
  - intros [= <- <- <-]. rewrite ?Hcross in Hhead; cbv iota in Hhead.
    split; [rewrite (unfilled_cons s p l rest Hord q Hcross); unfold unfilled;
      pose proof (quantity_at_nonneg (crosses s p) (quantities rest)
        (λ x t, quantities_positive _ x t Hpos)); lia|].
    destruct (no_trades s p (q - total_quantity l) rest Hpos) as [Hq' Htr].
    { intros x. apply allocation_zero; [|lia]. intros y t. by apply quantities_positive. }
    split; [|by apply trades_cons; [done|lia|lia|]].
    rewrite (after_trades_cons s p q l rest (total_quantity l - q) Hord), <-Hq' by lia.
    rewrite quantities_cons. simpl. case_Z; [lia|done].
  - destruct (sweep _ _ rest) as [[q1 ls1] fs1] eqn:Hs. intros [= <- <- <-].
    rewrite ?Hcross in Hhead; cbv iota in Hhead.
    destruct (IH (q - total_quantity l) _ _ _ (in_order_tail _ _ _ Hord) ltac:(lia) Hs) as (-> & Hm & Htr).
    split; [by rewrite (unfilled_cons s p l rest Hord q Hcross)|].
    split; [|by apply trades_cons; [done|lia|lia|]].
    rewrite (after_trades_cons s p q l rest 0 Hord) by lia. done.
  - intros [= <- <- <-].
    assert (∀ y t, quantities (l :: rest) !! y = Some t → crosses s p y = false) as Hno.
    { intros y t (k & Hk & <- & _)%quantities_Some. by apply (head_blocks s p (l :: rest)). }
    split; [unfold unfilled; rewrite quantity_at_none by done; lia|].
    apply no_trades; [done|]. intros x. unfold allocation. case_match eqn:Hx; [|done].
    destruct (quantities (l :: rest) !! x) as [t|] eqn:Ht; simpl; [|lia].
    by rewrite (Hno x t Ht) in Hx.
Qed.

(** ** The engine represents a market *)
Definition trades (w : world) : list (Z * Z) :=
  (λ k, (match_price_ticks k, match_quantity k)) <$> reported w.

Lemma trades_report_all rdtsc fs w : trades (report_all rdtsc fs w) = trades w ++ fs.
Proof.
  unfold report_all. revert w. induction fs as [|[x f] fs IH]; intros w; simpl.
  - by rewrite app_nil_r.
  - rewrite IH. unfold trades. simpl. by rewrite fmap_app, <-app_assoc.
Qed.

Lemma quantities_lay_out s ls :
  in_order s ls → quantities (levels_ (lay_out s ls)) = quantities ls.
Proof.
  unfold in_order. destruct s; simpl; [done|]. intros Hs. unfold quantities, ladder_map. f_equal.
  apply list_to_map_proper; [|by rewrite reverse_Permutation].
  rewrite <-list_fmap_compose. change (fst ∘ entry) with price_ticks.
  induction Hs as [|x xs Hs IH Hx]; simpl; constructor; [|done].
  intros (y & Hy & Hin)%list_elem_of_fmap. rewrite Forall_forall in Hx. specialize (Hx y Hin). lia.
Qed.

Section Refinement.
Context {Q : Type} `{FifoSpec Z Q} (max_orders : Z) (rdtsc : nat → Z).
Context `{!PowerOfTwo max_orders}.

Record represents (ob : OrderBook Q) (free : list Z) (m : market) : Prop := {
  rep_ok : book_ok max_orders ob free;
  rep_bids : quantities (levels_ (bids_ ob)) = bids m;
  rep_asks : quantities (levels_ (asks_ ob)) = asks m;
  rep_next : next_order_id_ ob = next_id m;
  rep_room : length free = room m;
  rep_accepted i slot o :
    order_id_to_slot_ ob !! i = Some slot → slot < max_orders →
    order_pool_ ob !! Z.to_nat slot = Some o → order_id o ∈ accepted m
}.

Lemma rep_opposite s ob free m :
  represents ob free m → quantities (priority s (opposite s ob)) = opposite_of s m.
Proof.
  intros Hrep. pose proof (opposite_sorted s ob (ok_sides _ _ _ (rep_ok _ _ _ Hrep))) as Hs.
  pose proof (quantities_lay_out s (priority s (opposite s ob))) as Hl.
  unfold in_order in Hl. rewrite lay_out_priority in Hl. rewrite <-(Hl Hs).
  destruct s; [apply (rep_asks _ _ _ Hrep)|apply (rep_bids _ _ _ Hrep)].
Qed.

(** The order just recorded is the only new one a later cancellation can find. *)
Lemma accepted_after s p q t id now slot (ob ob' : OrderBook Q) q' ls' m :
  executed max_orders s p q t id now slot ob ob' q' ls' → 0 ≤ slot < max_orders →
  (∀ i x o, order_id_to_slot_ ob !! i = Some x → x < max_orders →
     order_pool_ ob !! Z.to_nat x = Some o → order_id o ∈ accepted m) →
  ∀ i x o, order_id_to_slot_ ob' !! i = Some x → x < max_orders →
    order_pool_ ob' !! Z.to_nat x = Some o → order_id o ∈ ({[id]} ∪ accepted m : gset Z).
Proof.
  intros Hx Hslot Hacc i x o. rewrite (ex_slots _ _ _ _ _ _ _ _ _ _ _ _ Hx).
  rewrite (ex_pool _ _ _ _ _ _ _ _ _ _ _ _ Hx). intros Hi Hlt Ho.
  apply list_lookup_insert_Some in Ho as [(_ & <- & _)|[Hne Ho]]; simpl; [set_solver|].
  apply list_lookup_insert_Some in Hi as [(_ & <- & _)|[_ Hi]]; [done|].
  pose proof (Hacc i x o Hi Hlt Ho). set_solver.
Qed.

Lemma cancel_refines id ob free m :
  represents ob free m →
  ∃ (found : bool) ob' free' room', cancel_order max_orders id ob = Ok (found, ob') ∧
    (found = true → id ∈ accepted m) ∧
    (room m ≤ room' ≤ room m + (if found then 1 else 0))%nat ∧
    book_volume ob' = book_volume ob ∧
    represents ob' free' (mkMarket (bids m) (asks m) (accepted m) (next_id m) room').
Proof.
  intros [Hok Hb Ha Hn Hr Hacc].
  pose proof (cancel_order_exact max_orders id ob free Hok) as Hc.
  destruct (cancel_target max_orders id ob) as [slot|] eqn:Ht.
  - destruct Hc as (Hslot & pushed & free' & Hc & Hfree & _).
    exists true, (set_free ob free'), (if pushed then free ++ [slot] else free),
      (length (if pushed then free ++ [slot] else free)).
    split; [done|]. split.
    { intros _. clear Hfree. unfold cancel_target in Ht. repeat case_match; simplify_eq.
      match goal with Hid : (_ =? id) = true |- _ => apply Z.eqb_eq in Hid as <- end.
      by eapply Hacc; [eassumption|lia|eassumption]. }
    split; [destruct pushed; rewrite ?length_app; simpl; lia|]. split; [done|].
    split; try done. eapply set_free_ok; [exact Hok|exact Hfree|].
    pose proof (ok_free_values _ _ _ Hok). destruct pushed; [|done].
    apply Forall_app. split; [done|by constructor].
  - exists false, ob, free, (room m). do 2 (split; [done|]). split; [lia|].
    split; [done|]. by split.
Qed.

Lemma own_after_order s p q t id now slot (ob : OrderBook Q) n ob' q' ls' :
  executed max_orders s p q t id now slot (set_next_id ob n) ob' q' ls' →
  quantities (levels_ (own s ob')) = resting p q' (quantities (levels_ (own s ob))).
Proof.
  intros Hdone. unfold quantities, resting. rewrite (ex_own _ _ _ _ _ _ _ _ _ _ _ _ Hdone).
  replace (own s (set_next_id ob _)) with (own s ob) by by destruct s.
  case_Z; [done|]. rewrite fmap_insert, lookup_fmap.
  by destruct (ladder_map (levels_ (own s ob)) !! p) as [[tot n']|].
Qed.

Lemma take_refines s p q t ob slot free m w :
  represents ob (slot :: free) m → t ≠ Cancel → 0 ≤ q < 2 ^ 32 →
  book_volume ob + q < 2 ^ 32 → 0 ≤ next_id m → next_id m + 1 < 2 ^ 64 →
  ∃ ob' free' w' fs, add_order max_orders rdtsc s p q t ob w = Ok (next_id m, ob', w') ∧
    market_step m (AddReq s p q t) (next_id m) fs (take_order s p q m) ∧
    represents ob' free' (take_order s p q m) ∧ trades w' = trades w ++ fs.
Proof.
  intros Hrep Ht Hq Hv Hn0 Hn1. pose proof Hrep as [Hok Hb Ha Hn Hr Hacc].
  pose proof (ok_sides _ _ _ Hok) as Hsd.
  destruct (side_volumes_nonneg s ob Hsd) as [_ Hp]. rewrite (book_volume_sides s) in Hv.
  pose proof (add_order_exact max_orders rdtsc s p q t ob slot free w Hok Ht Hq ltac:(lia)
    (small_book_never_stalls max_orders s p q ob Hsd ltac:(rewrite (book_volume_sides s); lia))) as Hex.
  cbv zeta in Hex. rewrite Hn in Hex.
  destruct (sweep _ _ _) as [[q' ls'] fs] eqn:Hsw. destruct Hex as (ob' & Hx & Hok' & Hdone).
  assert (in_order s (priority s (opposite s ob))) as Hord.
  { unfold in_order. rewrite lay_out_priority. by apply opposite_sorted. }
  destruct (sweep_allocates s p q _ _ _ _ Hord (priority_positive s ob Hsd) (proj1 Hq) Hsw)
    as (Hq' & Hleft & Htr). rewrite (rep_opposite s ob _ m Hrep) in Hq', Hleft, Htr.
  do 4 eexists. split; [exact Hx|].
  split; [constructor; [done|rewrite <-Hr; simpl; lia|exact Htr]|].
  split; [|by rewrite trades_report_all].
  assert (quantities (levels_ (opposite s ob')) = after_trades s p q (opposite_of s m)) as Hopp.
  { rewrite (ex_opposite _ _ _ _ _ _ _ _ _ _ _ _ Hdone), quantities_lay_out; [done|].
    by eapply sweep_in_order. }
  pose proof (own_after_order _ _ _ _ _ _ _ _ _ _ _ _ Hdone) as Hown.
  pose proof (accepted_after _ _ _ _ _ _ _ _ _ _ _ m Hdone
                (Forall_inv (ok_free_values _ _ _ Hok)) Hacc) as Hacc'.
  pose proof (ex_next _ _ _ _ _ _ _ _ _ _ _ _ Hdone) as Hnext. simpl in Hnext.
  rewrite wrap_small in Hnext by lia.
  assert (length (if q' =? 0 then free ++ [slot] else free) =
          if q' =? 0 then room m else pred (room m)) as Hroom.
  { rewrite <-Hr. case_Z; rewrite ?length_app; simpl; lia. }
  rewrite Hq' in Hown, Hroom. destruct s; (split; simpl in *; [exact Hok'|..]);
    rewrite ?Hown, ?Ha, ?Hb; subst; done.
Qed.

Lemma turn_away_refines s p q t ob m w :
  represents ob [] m → t ≠ Cancel → 0 ≤ next_id m → next_id m + 1 < 2 ^ 64 →
  ∃ ob' m', add_order max_orders rdtsc s p q t ob w = Ok (0, ob', w) ∧
    market_step m (AddReq s p q t) 0 [] m' ∧ represents ob' [] m' ∧ next_id m' = next_id m + 1.
Proof.
  intros [Hok Hb Ha Hn Hr Hacc] Ht Hn0 Hn1. do 2 eexists. split.
  { unfold add_order, execute_order. simpl. rewrite (fifo_pop_nil _ (ok_free _ _ _ Hok)).
    by destruct t. }
  split; [by apply MTurnAway|]. split; [|done].
  split; simpl; try done; [by apply (set_next_id_ok max_orders ob [])|].
  rewrite Hn. apply wrap_small. lia.
Qed.

Lemma cancel_type_refines s p q ob free m w :
  represents ob free m → 0 ≤ next_id m → next_id m + 1 < 2 ^ 64 →
  ∃ ob' free' m', add_order max_orders rdtsc s p q Cancel ob w = Ok (next_id m, ob', w) ∧
    market_step m (AddReq s p q Cancel) (next_id m) [] m' ∧ represents ob' free' m' ∧
    next_id m' = next_id m + 1.
Proof.
  intros [Hok Hb Ha Hn Hr Hacc] Hn0 Hn1.
  assert (represents (set_next_id ob (u64 (next_order_id_ ob + 1))) free
    (mkMarket (bids m) (asks m) (accepted m) (next_id m + 1) (room m))) as Hrep.
  { split; simpl; try done; [by apply set_next_id_ok|]. rewrite Hn. apply wrap_small. lia. }
  destruct (cancel_refines (u64 p) _ _ _ Hrep) as (found & ob' & free' & room' & Hc & Hf & Hroom & _ & Hrep').
  do 3 eexists. unfold add_order. rewrite Hc. simpl. rewrite Hn. split; [done|].
  split; [by eapply MCancelType|]. done.
Qed.

Lemma call_refines r ob free m w :
  represents ob free m → valid_request r → book_volume ob + request_quantity r < 2 ^ 32 →
  0 ≤ next_id m → next_id m + (if is_add r then 1 else 0) < 2 ^ 64 →
  ∃ a ob' free' w' fs m', call max_orders rdtsc r ob w = Ok (a, ob', w') ∧
    market_step m r a fs m' ∧ represents ob' free' m' ∧ trades w' = trades w ++ fs ∧
    next_id m' = next_id m + (if is_add r then 1 else 0) ∧
    book_volume ob' ≤ book_volume ob + request_quantity r.
Proof.
  intros Hrep Hr Hv Hn0 Hn1.
  destruct (call_small max_orders rdtsc r ob free w (rep_ok _ _ _ Hrep) Hr Hv)
    as (a & ob' & free' & w' & Hcall & _ & _ & ms & _ & Hms & Hacc).
  apply positive_sum in Hms.
  enough (∃ free' fs m', market_step m r a fs m' ∧ represents ob' free' m' ∧
    trades w' = trades w ++ fs ∧ next_id m' = next_id m + (if is_add r then 1 else 0))
    as (f & fs & m' & ? & ? & ? & ?).
  { exists a, ob', f, w', fs, m'. split_and!; try done. lia. }
  clear Hacc. destruct r as [s p q t|id]; simpl in *.
  - destruct (decide (t = Cancel)) as [->|Ht].
    + destruct (cancel_type_refines s p q ob free m w Hrep Hn0 Hn1)
        as (? & f & m' & Heq & ? & ? & ?). rewrite Heq in Hcall. simplify_eq. exists f, [], m'. by rewrite app_nil_r.
    + destruct free as [|slot free].
      * destruct (turn_away_refines s p q t ob m w Hrep Ht Hn0 Hn1) as (? & m' & Heq & ? & ? & ?).
        rewrite Heq in Hcall. simplify_eq. exists [], [], m'. by rewrite app_nil_r.
      * destruct (take_refines s p q t ob slot free m w Hrep Ht Hr Hv Hn0 Hn1)
          as (? & f & ? & fs & Heq & ? & ? & ?). rewrite Heq in Hcall. simplify_eq.
        exists f, fs, (take_order s p q m). split_and!; try done. by destruct s.
  - destruct (cancel_refines id ob free m Hrep) as (found & ? & f & room' & Hc & Hf & Hroom & _ & Hrep').
    rewrite Hc in Hcall. simpl in Hcall. simplify_eq. exists f, [], (mkMarket (bids m) (asks m)
      (accepted m) (next_id m) room'). rewrite app_nil_r, Z.add_0_r. split; [by apply MCancel|done].
Qed.

Lemma run_refines rs ob free m w :
  represents ob free m → Forall valid_request rs → book_volume ob + submitted rs < 2 ^ 32 →
  0 ≤ next_id m → next_id m + adds rs < 2 ^ 64 →
  ∃ answers ob' free' w' fs m', run max_orders rdtsc rs ob w = Ok (answers, ob', w') ∧
    market_run m rs answers fs m' ∧ represents ob' free' m' ∧ trades w' = trades w ++ fs.
Proof.
  intros Hrep Hrs. revert ob free m w Hrep.
  induction Hrs as [|r rs Hr Hrs IH]; intros ob free m w Hrep Hv Hn0 Hn1.
  { exists [], ob, free, w, [], m. rewrite app_nil_r. split_and!; [done|constructor|done|done]. }
  assert (0 ≤ submitted rs) as Hs0.
  { apply sum_nonneg, Forall_fmap. eapply Forall_impl; [exact Hrs|]. intros x. apply proj1. }
  assert (0 ≤ adds rs) as Ha0 by (unfold adds; lia).
  change (submitted (r :: rs)) with (request_quantity r + submitted rs) in Hv.
  rewrite adds_cons in Hn1.
  destruct (call_refines r ob free m w Hrep Hr ltac:(lia) Hn0 ltac:(lia))
    as (a & ob1 & free1 & w1 & fs1 & m1 & Hc & Hstep & Hrep1 & Ht1 & Hn & Hv1).
  destruct (IH ob1 free1 m1 w1 Hrep1 ltac:(lia))
    as (answers & ob2 & free2 & w2 & fs2 & m2 & Hrun & Hsteps & Hrep2 & Ht2);
    [destruct (is_add r); lia..|].
  exists (a :: answers), ob2, free2, w2, (fs1 ++ fs2), m2.
  split; [by eapply run_cons_Ok|]. split; [by eapply MStep|]. split; [done|].
  by rewrite Ht2, Ht1, app_assoc.
Qed.

Definition open_market : market := mkMarket ∅ ∅ ∅ 1 (fifo_room `min` Z.to_nat max_orders).

Lemma new_book_represents symbol (free0 : Q) :
  fifo_rep free0 [] → max_orders < 2 ^ 32 →
  ∃ ob free, OrderBook_new max_orders symbol free0 = Ok ob ∧ represents ob free open_market ∧
    book_volume ob = 0.
Proof.
  intros Hfree Hsize.
  destruct (new_book_ok max_orders symbol free0 Hfree) as (ob & Hnew & Hok & Hb & Ha & Hn).
  exists ob, (take fifo_room (seqZ 0 max_orders)). split; [done|].
  split; [|unfold book_volume; by rewrite Hb, Ha].
  split; rewrite ?Hb, ?Ha; try done.
  - by rewrite length_take, length_seqZ.
  - intros i slot o Hslot Hlt _. exfalso. unfold OrderBook_new in Hnew.
    apply bind_Ok in Hnew as (q & _ & [= <-]). apply lookup_replicate in Hslot as [-> _].
    lia.
Qed.

(** C2: the engine refines the market: every program of calls on a new book whose total
    quantity fits 32 bits is a run of the market from empty sides, with the same
    answers and the same trades in the same order, and the ladders it leaves are the
    market's two maps.  So an order trades at each price it crosses what is left of it
    after all better prices, and rests the remainder at its own. *)
Theorem engine_refines_market (rs : list request) (symbol : Z) (free0 : Q)
    (Hfree : fifo_rep free0 []) (Hsize : max_orders < 2 ^ 32) (Hvalid : Forall valid_request rs)
    (Hsmall : submitted rs < 2 ^ 32) (Hcount : adds rs < 2 ^ 64 - 1) :
  ∃ ob0 answers ob w m, OrderBook_new max_orders symbol free0 = Ok ob0 ∧
    run max_orders rdtsc rs ob0 initial_world = Ok (answers, ob, w) ∧
    market_run open_market rs answers (trades w) m ∧
    quantities (levels_ (bids_ ob)) = bids m ∧ quantities (levels_ (asks_ ob)) = asks m.
Proof.
  destruct (new_book_represents symbol free0 Hfree Hsize) as (ob0 & free & Hnew & Hrep & Hv).
  destruct (run_refines rs ob0 free open_market initial_world Hrep Hvalid)
    as (answers & ob & free' & w & fs & m & Hrun & Hm & Hrep' & Ht); [lia|simpl; lia|simpl; lia|].
  exists ob0, answers, ob, w, m. rewrite Ht. split_and!; try done.
  - apply (rep_bids _ _ _ Hrep').
  - apply (rep_asks _ _ _ Hrep').
Qed.
End Refinement.

(** The trades of an order are determined by the market. *)
Lemma better_sorted_NoDup s (fs : list (Z * Z)) :
  StronglySorted (λ f g, better s f.1 g.1 = true) fs → NoDup fs.
Proof.
  induction 1 as [|x xs Hs IH Hx]; constructor; [|done]. intros Hin.
  rewrite Forall_forall in Hx. specialize (Hx x Hin). by rewrite better_irrefl in Hx.
Qed.

Lemma trades_of_unique s p q m fs fs' :
  trades_of s p q m fs → trades_of s p q m fs' → fs = fs'.
Proof.
  intros [Hs Hin] [Hs' Hin'].
  eapply (StronglySorted_unique_strong (λ f g, better s f.1 g.1 = true)); [|done|done|].
  - intros [x f] [y g] _ _ Hxy Hyx. simpl in *. by rewrite (better_asym s x y Hxy) in Hyx.
  - apply NoDup_Permutation.
    + by eapply better_sorted_NoDup.
    + by eapply better_sorted_NoDup.
    + intros [x f]. by rewrite Hin, Hin'.
Qed.

(** *** The trades, computed

    So the market can be run: sort the prices that get something. *)
Definition no_worse (s : Side) (f g : Z * Z) : Prop :=
  match s with Buy => f.1 ≤ g.1 | Sell => g.1 ≤ f.1 end.

#[export] Instance no_worse_dec s f g : Decision (no_worse s f g).
Proof. destruct s; simpl; apply _. Defined.
#[export] Instance no_worse_total s : Total (no_worse s).
Proof. intros f g. destruct s; simpl; lia. Qed.
#[export] Instance no_worse_trans s : Transitive (no_worse s).
Proof. intros f g h. destruct s; simpl; lia. Qed.

Definition allocated (s : Side) (p q : Z) (m : gmap Z Z) : list (Z * Z) :=
  omap (λ e, let f := allocation s p q m e.1 in if 0 <? f then Some (e.1, f) else None)
    (map_to_list m).

Definition trade_list (s : Side) (p q : Z) (m : gmap Z Z) : list (Z * Z) :=
  merge_sort (no_worse s) (allocated s p q m).

Lemma elem_of_allocated s p q m x f :
  (x, f) ∈ allocated s p q m ↔ f = allocation s p q m x ∧ 0 < f.
Proof.
  unfold allocated. rewrite list_elem_of_omap. split.
  - intros ([y t] & Hy & Hf). simpl in Hf. case_match; [|done]. simplify_eq. lia.
  - intros [-> Hpos]. destruct (m !! x) as [t|] eqn:Ht.
    + exists (x, t). split; [by apply elem_of_map_to_list|]. simpl. case_Z; [done|lia].
    + unfold allocation in Hpos. rewrite Ht in Hpos. simpl in Hpos. case_match; lia.
Qed.

Lemma allocated_keys_NoDup s p q m : NoDup (allocated s p q m).*1.
Proof.
  unfold allocated. pose proof (NoDup_fst_map_to_list m) as Hnd.
  induction (map_to_list m) as [|[x t] es IH]; simpl in *; [constructor|].
  apply NoDup_cons in Hnd as [Hx Hnd].
  destruct (0 <? allocation s p q m x); [|by apply IH].
  simpl. constructor; [|by apply IH]. contradict Hx.
  apply list_elem_of_fmap in Hx as ([y f] & Hxy & Hy). simpl in Hxy. subst y.
  apply list_elem_of_omap in Hy as ([z u] & Hz & Hf). simpl in Hf. case_match; [|done].
  injection Hf as Hzx _. subst z. apply list_elem_of_fmap. by exists (x, u).
Qed.

Lemma strictly_sorted s fs :
  NoDup fs.*1 → StronglySorted (no_worse s) fs → StronglySorted (λ f g, better s f.1 g.1 = true) fs.
Proof.
  intros Hnd Hs. induction Hs as [|f fs Hs IH Hf]; constructor.
  - apply IH. by apply NoDup_cons in Hnd as [_ ?].
  - simpl in Hnd. apply NoDup_cons in Hnd as [Hx _]. rewrite Forall_forall in *. intros g Hg.
    specialize (Hf g Hg). assert (f.1 ≠ g.1) as Hne.
    { contradict Hx. rewrite Hx. by apply list_elem_of_fmap_2. }
    destruct s; simpl in *; lia.
Qed.

(** The specification of the trades has exactly one solution, the list computed. *)
Lemma trades_of_iff s p q m fs : trades_of s p q m fs ↔ fs = trade_list s p q m.
Proof.
  assert (trades_of s p q m (trade_list s p q m)) as Ht.
  { unfold trade_list. split.
    - apply strictly_sorted; [|apply (StronglySorted_merge_sort _)].
      rewrite (fmap_Permutation _ _ _ (merge_sort_Permutation _ _)). apply allocated_keys_NoDup.
    - intros x f. rewrite merge_sort_Permutation. apply elem_of_allocated. }
  split; [|by intros ->]. intros Hfs. by apply (trades_of_unique s p q m).
Qed.

(** An order that crosses nothing. *)
Lemma uncrossed_trade_list s p q m :
  (∀ x t, m !! x = Some t → crosses s p x = false) → trade_list s p q m = [].
Proof.
  intros Hm. symmetry. apply trades_of_iff. split; [constructor|]. intros x f.
  split; [by intros ?%elem_of_nil|]. intros [-> Hf]. unfold allocation in Hf.
  destruct (crosses s p x) eqn:Hx; [|lia].
  destruct (m !! x) as [t|] eqn:Ht; simpl in Hf; [by rewrite (Hm x t Ht) in Hx|lia].
Qed.

Lemma uncrossed_unfilled s p q m :
  0 ≤ q → (∀ x t, m !! x = Some t → crosses s p x = false) → unfilled s p q m = q.
Proof. intros Hq Hm. unfold unfilled. rewrite quantity_at_none by done. lia. Qed.

Lemma uncrossed_after_trades s p q m :
  (∀ x t, m !! x = Some t → 0 < t) → (∀ x t, m !! x = Some t → crosses s p x = false) →
  after_trades s p q m = m.
Proof.
  intros Hpos Hm. apply map_eq. intros x. rewrite after_trades_lookup.
  destruct (m !! x) as [t|] eqn:Ht; [|done]. simpl. unfold allocation. rewrite (Hm x t Ht).
  specialize (Hpos x t Ht). case_Z; [lia|]. by rewrite Z.sub_0_r.
Qed.

(** ** A concrete run *)
Lemma engine_refines_market_witness :
  ∃ ob0 answers ob w m, OrderBook_new (H:=spsc_fifo_ops 4) 4 7 demo_queue = Ok ob0 ∧
    run (H:=spsc_fifo_ops 4) 4 Z.of_nat demo_requests ob0 initial_world = Ok (answers, ob, w) ∧
    market_run (open_market (H:=spsc_fifo_ops 4) (H0:=spsc_fifo_spec 4) 4) demo_requests answers (trades w) m ∧
    quantities (levels_ (bids_ ob)) = bids m ∧ quantities (levels_ (asks_ ob)) = asks m.
Proof.
  exact (engine_refines_market (H0:=spsc_fifo_spec 4) 4 Z.of_nat demo_requests 7 demo_queue
           demo_queue_ok ltac:(lia) ltac:(repeat constructor; simpl; lia) ltac:(by vm_compute)
           ltac:(by vm_compute)).
Defined.
End Market.
