(* ===== verification/OrderClients.v ===== *)
(** * Clients that cancel only live orders

    The slot pool of [OrderBook] protects itself neither against cancelling an order
    twice nor against cancelling one that was filled when it was sent (see
    [OrderPool]).  Here are the clients that do neither: for them the pool is sound, no
    slot is ever free and in use, or in use twice, and the record of a live order is
    its own. *)
From S2P Require Import Prelude Fifo SpscQueue PriceLadder OrderBook Matching BookInvariant Engine.

Module Clients.
Import Spsc Ladder Book Matching BookInv Engine.

(** ** Disciplined clients *)

(** What the callback was told between two moments. *)
Definition traded_between (w w' : world) : Z :=
  sum (match_quantity <$> drop (length (reported w)) (reported w')).

(** The id a request cancels. *)
Definition cancels (r : request) : option Z :=
  match r with
  | AddReq _ p _ Cancel => Some (u64 p)
  | AddReq _ _ _ _ => None
  | CancelReq id => Some id
  end.

(** The live orders: accepted, not filled by the time [add_order] returned, and not
    cancelled since.  A client can keep this set from the answers and the callback. *)
Definition live_after (live : gset Z) (r : request) (answer traded : Z) : gset Z :=
  match r with
  | AddReq _ p _ Cancel => live ∖ {[u64 p]}
  | AddReq _ _ q _ => if negb (answer =? 0) && (traded <? q) then {[answer]} ∪ live else live
  | CancelReq id => live ∖ {[id]}
  end.

Section Clients.
Context {Q : Type} `{FifoOps Z Q} (max_orders : Z) (rdtsc : nat → Z).

Inductive client_run : gset Z → OrderBook Q → world → list request →
    gset Z → OrderBook Q → world → Prop :=
  | ClientDone live ob w : client_run live ob w [] live ob w
  | ClientCall live ob w r a ob1 w1 rs live' ob' w' :
      (∀ id, cancels r = Some id → id ∈ live) →
      call max_orders rdtsc r ob w = Ok (a, ob1, w1) →
      client_run (live_after live r a (traded_between w w1)) ob1 w1 rs live' ob' w' →
      client_run live ob w (r :: rs) live' ob' w'.
End Clients.

Section Facts.
Context {Q : Type} `{FifoSpec Z Q} (max_orders : Z) (rdtsc : nat → Z).
Context `{!PowerOfTwo max_orders}.

(** [held] maps each live order to its slot. *)
Record pool_inv (ob : OrderBook Q) (free : list Z) (held : gmap Z Z) : Prop := {
  pi_ok : book_ok max_orders ob free;
  pi_nodup : NoDup (free ++ (map_to_list held).*2);
  pi_held id slot : held !! id = Some slot →
    0 < id ∧ 0 ≤ slot < max_orders ∧
    ∃ o, order_pool_ ob !! Z.to_nat slot = Some o ∧ order_id o = id;
  pi_ids i o : order_pool_ ob !! i = Some o → 0 ≤ order_id o < next_order_id_ ob;
  pi_unique i j o o' :
    order_pool_ ob !! i = Some o → order_pool_ ob !! j = Some o' →
    order_id o = order_id o' → order_id o ≠ 0 → i = j
}.

Lemma held_not_free ob slot free held id :
  pool_inv ob (slot :: free) held → held !! id ≠ Some slot.
Proof.
  intros Hinv Hid. pose proof (pi_nodup _ _ _ Hinv) as [Hn _]%NoDup_cons.
  apply Hn, elem_of_app. right. apply list_elem_of_fmap.
  exists (id, slot). split; [done|]. by apply elem_of_map_to_list.
Qed.

(** Recording a new order in the slot taken from the free list. *)
Lemma record_keeps_ids (ob ob' : OrderBook Q) slot free held o :
  pool_inv ob (slot :: free) held → order_id o = next_order_id_ ob → 0 < next_order_id_ ob →
  order_pool_ ob' = <[Z.to_nat slot := o]> (order_pool_ ob) →
  next_order_id_ ob' = next_order_id_ ob + 1 →
  (∀ i x, order_pool_ ob' !! i = Some x → 0 ≤ order_id x < next_order_id_ ob') ∧
  (∀ i j x x', order_pool_ ob' !! i = Some x → order_pool_ ob' !! j = Some x' →
     order_id x = order_id x' → order_id x ≠ 0 → i = j) ∧
  (∀ id s, held !! id = Some s → 0 < id ∧ 0 ≤ s < max_orders ∧
     ∃ x, order_pool_ ob' !! Z.to_nat s = Some x ∧ order_id x = id).
Proof.
  intros Hinv Ho Hpos Hpool Hnext.
  pose proof (Forall_inv (ok_free_values _ _ _ (pi_ok _ _ _ Hinv))) as Hslot. simpl in Hslot.
  rewrite Hpool, Hnext. split_and!.
  - intros i x [(_ & <- & _)|[_ Hx]]%list_lookup_insert_Some; [lia|].
    apply (pi_ids _ _ _ Hinv) in Hx. lia.
  - intros i j x x' [(<- & <- & _)|[Hi Hx]]%list_lookup_insert_Some
      [(<- & <- & _)|[Hj Hx']]%list_lookup_insert_Some Heq Hne; [done|..].
    + apply (pi_ids _ _ _ Hinv) in Hx'. lia.
    + apply (pi_ids _ _ _ Hinv) in Hx. lia.
    + by apply (pi_unique _ _ _ Hinv i j x x').
  - intros id s Hs. pose proof (pi_held _ _ _ Hinv id s Hs) as (Hid & Hr & x & Hx & Hxid).
    split_and!; [done|lia|lia|]. exists x. split; [|done].
    assert (s ≠ slot) by (intros ->; by eapply held_not_free).
    rewrite list_lookup_insert_ne by lia. done.
Qed.

Lemma traded_report fs w :
  traded_between w (report_all rdtsc fs (mkWorld (S (tsc_reads w)) (reported w))) = traded fs.
Proof.
  unfold traded_between. rewrite report_all_app. simpl. rewrite drop_app_length.
  rewrite fmap_imap. unfold traded. f_equal. apply imap_const.
Qed.

Lemma held_add ob slot free held id :
  pool_inv ob (slot :: free) held → next_order_id_ ob ≤ id →
  NoDup (free ++ (map_to_list (<[id := slot]> held)).*2).
Proof.
  intros Hinv Hid. assert (held !! id = None) as Hnone.
  { destruct (held !! id) as [s|] eqn:Hs; [|done].
    destruct (pi_held _ _ _ Hinv id s Hs) as (_ & _ & o & Ho & <-).
    apply (pi_ids _ _ _ Hinv) in Ho. lia. }
  rewrite map_to_list_insert by done. simpl.
  eapply NoDup_Permutation_proper; [|apply (pi_nodup _ _ _ Hinv)].
  symmetry. apply Permutation_middle.
Qed.

Lemma add_keeps_pool s p q t ob slot free held w :
  pool_inv ob (slot :: free) held → t ≠ Cancel → 0 ≤ q < 2 ^ 32 →
  book_volume ob + q < 2 ^ 32 → 0 < next_order_id_ ob → next_order_id_ ob + 1 < 2 ^ 64 →
  ∃ a ob' w' free' held', add_order max_orders rdtsc s p q t ob w = Ok (a, ob', w') ∧
    pool_inv ob' free' held' ∧
    dom held' = live_after (dom held) (AddReq s p q t) a (traded_between w w').
Proof.
  intros Hinv Ht Hq Hv Hn0 Hn1. pose proof (pi_ok _ _ _ Hinv) as Hok.
  pose proof (ok_sides _ _ _ Hok) as Hsd.
  destruct (side_volumes_nonneg s ob Hsd) as [_ Hp]. rewrite (book_volume_sides s) in Hv.
  pose proof (add_order_exact max_orders rdtsc s p q t ob slot free w Hok Ht Hq ltac:(lia)
    (small_book_never_stalls max_orders s p q ob Hsd ltac:(rewrite (book_volume_sides s); lia))) as Hex.
  cbv zeta in Hex. destruct (sweep _ _ _) as [[q' ls'] fs] eqn:Hsw.
  destruct Hex as (ob' & Hx & Hok' & Hdone).
  destruct (sweep_fills _ _ _ _ _ _ (proj1 Hq) (priority_positive s ob Hsd) Hsw) as (Hq' & _).
  apply sweep_conserves in Hsw as [Hc _].
  pose proof (ex_next _ _ _ _ _ _ _ _ _ _ _ _ Hdone) as Hnext. simpl in Hnext.
  rewrite wrap_small in Hnext by lia.
  destruct ((λ Ho, record_keeps_ids ob ob' slot free held _ Hinv Ho Hn0
              (ex_pool _ _ _ _ _ _ _ _ _ _ _ _ Hdone) Hnext) eq_refl) as (Hids & Huniq & Hheld).
  pose proof (Forall_inv (ok_free_values _ _ _ Hok)) as Hslot. simpl in Hslot.
  eexists _, ob', _, _, (if q' =? 0 then held else <[next_order_id_ ob := slot]> held).
  split; [exact Hx|]. rewrite traded_report. split.
  - split; [exact Hok'| | |exact Hids|exact Huniq].
    + case_Z; [|by eapply held_add; [exact Hinv|lia]].
      eapply NoDup_Permutation_proper; [|apply (pi_nodup _ _ _ Hinv)].
      rewrite <-app_assoc. symmetry. apply Permutation_middle.
    + intros id x. case_Z; [apply Hheld|].
      intros [[<- <-]|[_ Hid]]%lookup_insert_Some; [|by apply Hheld].
      split_and!; [lia|lia|lia|]. rewrite (ex_pool _ _ _ _ _ _ _ _ _ _ _ _ Hdone).
      eexists. split; [apply list_lookup_insert_eq|done].
      pose proof (ok_pool _ _ _ Hok). simpl. lia.
  - replace (live_after (dom held) (AddReq s p q t) (next_order_id_ ob) (traded fs))
      with (if negb (next_order_id_ ob =? 0) && (traded fs <? q)
            then {[next_order_id_ ob]} ∪ dom held else dom held) by by destruct t.
    case_Z; simpl; try lia; [done|]. by rewrite dom_insert_L.
Qed.

Lemma turn_away_keeps_pool s p q t ob held w :
  pool_inv ob [] held → t ≠ Cancel → 0 < next_order_id_ ob → next_order_id_ ob + 1 < 2 ^ 64 →
  ∃ ob', add_order max_orders rdtsc s p q t ob w = Ok (0, ob', w) ∧ pool_inv ob' [] held ∧
    dom held = live_after (dom held) (AddReq s p q t) 0 (traded_between w w).
Proof.
  intros [Hok Hnd Hheld Hids Huniq] Ht Hn0 Hn1. eexists. split.
  { unfold add_order, execute_order. simpl. rewrite (fifo_pop_nil _ (ok_free _ _ _ Hok)).
    by destruct t. }
  split; [|by destruct t]. split; simpl; try done; [by apply (set_next_id_ok max_orders ob [])|].
  intros i o Ho%Hids. rewrite wrap_small; lia.
Qed.

Lemma held_delete free (held : gmap Z Z) id slot :
  held !! id = Some slot → NoDup (free ++ (map_to_list held).*2) →
  NoDup ((free ++ [slot]) ++ (map_to_list (delete id held)).*2).
Proof.
  intros Hid. rewrite <-(map_to_list_delete held id slot Hid). simpl. by rewrite <-app_assoc.
Qed.

(** Cancelling a live order returns its own slot, or nothing. *)
Lemma cancel_keeps_pool id ob free held :
  pool_inv ob free held → id ∈ dom held →
  ∃ b ob' free', cancel_order max_orders id ob = Ok (b, ob') ∧
    pool_inv ob' free' (delete id held) ∧ next_order_id_ ob' = next_order_id_ ob.
Proof.
  intros Hinv [slot Hid]%elem_of_dom. pose proof Hinv as [Hok Hnd Hheld Hids Huniq].
  destruct (Hheld id slot Hid) as (Hid0 & Hr & o & Ho & Hoid).
  assert (∀ ob' free', book_ok max_orders ob' free' → order_pool_ ob' = order_pool_ ob →
    next_order_id_ ob' = next_order_id_ ob → NoDup (free' ++ (map_to_list (delete id held)).*2) →
    pool_inv ob' free' (delete id held)) as Hrest.
  { intros ob' free' Hok' Hp Hn Hnd'. split; rewrite ?Hp, ?Hn; try done.
    intros id' s' [_ Hs]%lookup_delete_Some. by apply Hheld. }
  pose proof (held_delete free held id slot Hid Hnd) as Hnd'.
  assert (NoDup (free ++ (map_to_list (delete id held)).*2)) as Hnd0.
  { rewrite <-app_assoc in Hnd'. apply NoDup_app in Hnd' as (? & ? & [? ?]%NoDup_app).
    apply NoDup_app. split_and!; [done| |naive_solver]. set_solver. }
  pose proof (cancel_order_exact max_orders id ob free Hok) as Hc.
  destruct (cancel_target max_orders id ob) as [slot'|] eqn:Ht;
    [|exists false, ob, free; split; [done|split; [by apply Hrest|done]]].
  destruct Hc as (Hslot' & pushed & q' & Hc & Hfree & _).
  assert (slot' = slot) as ->.
  { clear Hc Hfree. unfold cancel_target in Ht. repeat case_match; simplify_eq.
    match goal with E : (_ =? _) = true |- _ => apply Z.eqb_eq in E end.
    assert (Z.to_nat slot' = Z.to_nat slot) by (eapply Huniq; [eassumption..|lia|lia]). lia. }
  exists true, (set_free ob q'), (if pushed then free ++ [slot] else free).
  split; [done|]. split; [|done]. apply Hrest; [|done|done|by destruct pushed].
  eapply set_free_ok; [exact Hok|exact Hfree|].
  pose proof (ok_free_values _ _ _ Hok). destruct pushed; [|done].
  apply Forall_app. split; [done|by constructor].
Qed.

Lemma call_keeps_pool r a ob ob' free held w w' :
  pool_inv ob free held → valid_request r → book_volume ob + request_quantity r < 2 ^ 32 →
  0 < next_order_id_ ob → next_order_id_ ob + (if is_add r then 1 else 0) < 2 ^ 64 →
  (∀ id, cancels r = Some id → id ∈ dom held) →
  call max_orders rdtsc r ob w = Ok (a, ob', w') →
  ∃ free' held', pool_inv ob' free' held' ∧
    dom held' = live_after (dom held) r a (traded_between w w').
Proof.
  intros Hinv Hr Hv Hn0 Hn1 Hlive Hcall.
  destruct r as [s p q t|id]; simpl in Hr, Hv, Hn1, Hcall.
  - destruct (decide (t = Cancel)) as [->|Ht].
    + assert (pool_inv (set_next_id ob (u64 (next_order_id_ ob + 1))) free held) as Hinv'.
      { destruct Hinv as [Hok Hnd Hheld Hids Huniq].
        split; simpl; try done; [by apply set_next_id_ok|].
        intros i o Ho%Hids. rewrite wrap_small; lia. }
      destruct (cancel_keeps_pool (u64 p) _ _ _ Hinv' (Hlive _ eq_refl))
        as (b & ob1 & free' & Hc & Hinv1 & _).
      unfold add_order in Hcall. rewrite Hc in Hcall. simpl in Hcall. simplify_eq.
      exists free', (delete (u64 p) held). split; [done|]. by rewrite dom_delete_L.
    + destruct free as [|slot free].
      * destruct (turn_away_keeps_pool s p q t ob held w Hinv Ht Hn0 Hn1) as (ob1 & Heq & ? & ?).
        rewrite Heq in Hcall. simplify_eq. by exists [], held.
      * destruct (add_keeps_pool s p q t ob slot free held w Hinv Ht Hr Hv Hn0 Hn1)
          as (? & ? & ? & free' & held' & Heq & ? & ?).
        rewrite Heq in Hcall. simplify_eq. by exists free', held'.
  - destruct (cancel_keeps_pool id _ _ _ Hinv (Hlive _ eq_refl)) as (b & ob1 & free' & Hc & Hinv1 & _).
    rewrite Hc in Hcall. simpl in Hcall. simplify_eq.
    exists free', (delete id held). split; [done|]. by rewrite dom_delete_L.
Qed.

Lemma client_run_keeps_pool live ob w rs live' ob' w' free held :
  client_run max_orders rdtsc live ob w rs live' ob' w' →
  pool_inv ob free held → dom held = live → Forall valid_request rs →
  book_volume ob + submitted rs < 2 ^ 32 → 0 < next_order_id_ ob →
  next_order_id_ ob + adds rs < 2 ^ 64 →
  ∃ free' held', pool_inv ob' free' held' ∧ dom held' = live'.
Proof.
  intros Hrun. revert free held.
  induction Hrun as [live ob w|live ob w r a ob1 w1 rs live' ob' w' Hlive Hcall Hrun IH];
    intros free held Hinv Hdom Hvalid Hv Hn0 Hn1; [by exists free, held|].
  apply Forall_cons in Hvalid as [Hr Hvalid]. rewrite adds_cons in Hn1.
  change (submitted (r :: rs)) with (request_quantity r + submitted rs) in Hv.
  assert (0 ≤ submitted rs) as Hs0.
  { apply sum_nonneg, Forall_fmap. eapply Forall_impl; [exact Hvalid|]. intros x. apply proj1. }
  assert (0 ≤ adds rs) as Ha0 by (unfold adds; lia).
  destruct (call_small max_orders rdtsc r ob free w (pi_ok _ _ _ Hinv) Hr ltac:(lia))
    as (? & ? & ? & ? & Heq & _ & _ & ms & _ & Hms & Hacc).
  apply positive_sum in Hms. subst live. rewrite Hcall in Heq. injection Heq as <- <- <-.
  destruct (call_keeps_pool r a ob ob1 free held w w1 Hinv Hr ltac:(lia) Hn0 ltac:(lia) Hlive Hcall)
    as (free1 & held1 & Hinv1 & Hdom1).
  apply call_next_id in Hcall as [Hnext _].
  assert (next_order_id_ ob1 = next_order_id_ ob + if is_add r then 1 else 0) as Hn.
  { rewrite Hnext. destruct (is_add r); [apply wrap_small|]; lia. }
  apply (IH free1 held1 Hinv1 Hdom1 Hvalid); [lia|destruct (is_add r); lia|lia].
Qed.

Lemma new_book_pool symbol free0 ob :
  fifo_rep free0 [] → OrderBook_new max_orders symbol free0 = Ok ob →
  pool_inv ob (take fifo_room (seqZ 0 max_orders)) ∅ ∧ book_volume ob = 0 ∧ next_order_id_ ob = 1.
Proof.
  intros Hfree Hnew.
  destruct (new_book_ok max_orders symbol free0 Hfree) as (ob' & Hnew' & Hok & Hb & Ha & Hn).
  rewrite Hnew in Hnew'. simplify_eq.
  split; [|split; [unfold book_volume; by rewrite Hb, Ha|done]].
  assert (order_pool_ ob' = replicate (Z.to_nat max_orders) Order_zero) as Hp.
  { unfold OrderBook_new in Hnew. by apply bind_Ok in Hnew as (q & _ & [= <-]). }
  split; [done| | | |].
  - rewrite map_to_list_empty, app_nil_r. eapply sublist_NoDup; [apply NoDup_seqZ|apply sublist_take].
  - intros id slot. by rewrite lookup_empty.
  - rewrite Hp, Hn. by intros i o [-> _]%lookup_replicate.
  - rewrite Hp. by intros i j o o' [-> _]%lookup_replicate.
Qed.

(** C8: for clients that cancel only live orders (accepted, not filled when they were
    sent, not cancelled before), whatever else they do, the pool is sound: every live
    order has a slot, the slots of live orders and the free slots are all different,
    and the record in the slot of a live order is still that order's. *)
Theorem disciplined_clients_share_no_slot (rs : list request) (symbol : Z) (free0 : Q)
    (ob0 ob : OrderBook Q) (w : world) (live : gset Z)
    (Hfree : fifo_rep free0 []) (Hnew : OrderBook_new max_orders symbol free0 = Ok ob0)
    (Hrun : client_run max_orders rdtsc ∅ ob0 initial_world rs live ob w)
    (Hvalid : Forall valid_request rs) (Hsmall : submitted rs < 2 ^ 32)
    (Hcount : adds rs < 2 ^ 64 - 1) :
  ∃ free (slot_of : gmap Z Z), fifo_rep (free_list_ ob) free ∧ dom slot_of = live ∧
    NoDup (free ++ (map_to_list slot_of).*2) ∧
    ∀ id slot, slot_of !! id = Some slot →
      ∃ o, order_pool_ ob !! Z.to_nat slot = Some o ∧ order_id o = id.
Proof.
  destruct (new_book_pool symbol free0 ob0 Hfree Hnew) as (Hinv & Hv & Hn).
  destruct (client_run_keeps_pool _ _ _ _ _ _ _ _ _ Hrun Hinv) as (free & held & Hinv' & Hdom);
    [done|done|lia|lia|lia|].
  exists free, held. split; [apply (ok_free _ _ _ (pi_ok _ _ _ Hinv'))|].
  split; [done|]. split; [apply (pi_nodup _ _ _ Hinv')|].
  intros id slot Hid. by apply (pi_held _ _ _ Hinv').
Qed.
End Facts.

(** ** A concrete client: two orders rest, the first is cancelled, a third trades with the
    quantity it left behind and rests, the second is cancelled *)
Definition demo_client : list request :=
  [AddReq Sell 10100 50 Limit; AddReq Buy 10000 80 Limit; CancelReq 1;
   AddReq Buy 10200 60 Market; CancelReq 2].

Lemma demo_client_run :
  ∃ ob0 ob w, OrderBook_new (H:=spsc_fifo_ops 4) 4 7 demo_queue = Ok ob0 ∧
    client_run (H:=spsc_fifo_ops 4) 4 Z.of_nat ∅ ob0 initial_world demo_client {[3]} ob w.
Proof.
  do 3 eexists. split; [vm_compute; reflexivity|]. unfold demo_client.
  repeat (eapply ClientCall;
    [intros id; simpl; intros [= <-]; apply (bool_decide_unpack _); by vm_compute
    |vm_compute; reflexivity|]).
  match goal with |- client_run _ _ ?live _ _ _ _ _ _ =>
    replace live with ({[3]} : gset Z) by (by vm_compute) end.
  apply ClientDone.
Qed.

Lemma disciplined_clients_share_no_slot_witness :
  ∃ ob free (slot_of : gmap Z Z),
    fifo_rep (FifoSpec:=spsc_fifo_spec 4) (free_list_ ob) free ∧ dom slot_of = {[3]} ∧
    NoDup (free ++ (map_to_list slot_of).*2) ∧
    ∀ id slot, slot_of !! id = Some slot →
      ∃ o, order_pool_ ob !! Z.to_nat slot = Some o ∧ order_id o = id.
Proof.
  destruct demo_client_run as (ob0 & ob & w & Hnew & Hrun). exists ob.
  exact (disciplined_clients_share_no_slot (H0:=spsc_fifo_spec 4) 4 Z.of_nat demo_client 7
           demo_queue ob0 ob w {[3]} demo_queue_ok Hnew Hrun ltac:(by repeat constructor)
           eq_refl eq_refl).
Defined.
End Clients.
