(* ===== verification/OrderPool.v ===== *)
(** * The slot pool of the order book

    Which slots the free list of [OrderBook] holds over its life: what the constructor
    puts there, what [add_order] and [cancel_order] take and give back, and how
    slots get lost or handed out twice. *)
From S2P Require Import Prelude Fifo SpscQueue PriceLadder OrderBook Matching BookInvariant Engine.

Module Pool.
Import Spsc Ladder Book Matching BookInv Engine.

#[export] Instance capacity_ok_MAX_ORDERS : CapacityOk MAX_ORDERS.
Proof. split; [split; reflexivity|reflexivity]. Qed.

Section Facts.
Context {Q : Type} `{FifoSpec Z Q} (max_orders : Z) (rdtsc : nat → Z).
Context `{!PowerOfTwo max_orders}.
Implicit Types (ob : OrderBook Q) (free : list Z).

(** An order on an empty side rests untouched; one that meets an equal quantity at
    its price is filled and leaves the opposite side empty. *)
Definition flat (ob : OrderBook Q) : Prop := bids_ ob = mkLadder [] ∧ asks_ ob = mkLadder [].

Lemma ladder_map_singleton ls p v :
  sorted ls → ladder_map ls = {[p := v]} →
  ∃ l, ls = [l] ∧ price_ticks l = p ∧ (total_quantity l, order_count l) = v.
Proof.
  intros Hs Hm.
  destruct (sorted_split ls p Hs) as [(pre & l & post & -> & <-)|(pre & post & -> & Hb & Ha)].
  - pose proof Hs as (_ & _ & Hb & Ha & _)%sorted_mid. exists l.
    pose proof (ladder_map_mid_lookup pre l post Hb) as Hl.
    rewrite Hm, lookup_singleton_eq in Hl. injection Hl as Hv.
    assert (∀ x, x ∈ pre ++ l :: post → price_ticks x = price_ticks l) as Hall.
    { intros x Hx. apply ladder_map_elem in Hx; [|done]. rewrite Hm in Hx.
      apply lookup_singleton_Some in Hx as [? _]. done. }
    assert (pre = []) as ->.
    { destruct pre as [|x pre]; [done|]. apply Forall_inv in Hb. simpl in Hb.
      specialize (Hall x ltac:(set_solver)). lia. }
    assert (post = []) as ->.
    { destruct post as [|x post]; [done|]. apply Forall_inv in Ha. simpl in Ha.
      specialize (Hall x ltac:(set_solver)). lia. }
    done.
  - pose proof (ladder_map_split_absent _ _ _ Hb Ha) as Hn.
    by rewrite Hm, lookup_singleton_eq in Hn.
Qed.

Lemma flat_volume ob s : flat ob → volume (levels_ (own s ob)) = 0 ∧ opposite s ob = mkLadder [].
Proof. intros [Hb Ha]. destruct s; simpl; rewrite ?Hb, ?Ha; done. Qed.

(** An order on an empty book rests and keeps its slot. *)
Lemma add_to_flat s p q t ob slot free w :
  book_ok max_orders ob (slot :: free) → flat ob → t ≠ Cancel → 0 < q < 2 ^ 32 →
  ∃ a ob' w', add_order max_orders rdtsc s p q t ob w = Ok (a, ob', w') ∧
    book_ok max_orders ob' free ∧ opposite s ob' = mkLadder [] ∧ reported w' = reported w ∧
    ∃ l, own s ob' = mkLadder [l] ∧ price_ticks l = p ∧ total_quantity l = q.
Proof.
  intros Hok Hflat Ht Hq. destruct (flat_volume ob s Hflat) as [Hv Hopp].
  assert (ladder_map (levels_ (own s ob)) = ∅) as Hempty.
  { destruct Hflat as [Hb Ha], s; simpl; by rewrite ?Hb, ?Ha. }
  assert (priority s (opposite s ob) = []) as Hp by (rewrite Hopp; by destruct s).
  pose proof (add_order_exact max_orders rdtsc s p q t ob slot free w Hok Ht ltac:(lia)) as Hex.
  rewrite Hp, Hv in Hex. destruct (Hex ltac:(lia) eq_refl) as (ob' & Hx & Hok' & Hdone).
  do 3 eexists. split; [exact Hx|].
  revert Hok' Hdone. case_Z; [lia|]. intros Hok' Hdone. split; [done|].
  split; [rewrite (ex_opposite _ _ _ _ _ _ _ _ _ _ _ _ Hdone); by destruct s|].
  split; [done|].
  pose proof (ex_own _ _ _ _ _ _ _ _ _ _ _ _ Hdone) as Hmap.
  replace (own s (set_next_id ob _)) with (own s ob) in Hmap by by destruct s.
  rewrite Hempty in Hmap. revert Hmap. case_Z; [lia|]. rewrite lookup_empty, insert_empty.
  intros (l & Hl & ? & [= ? ?])%ladder_map_singleton; [|by apply own_sorted, (ok_sides _ _ _ Hok')].
  exists l. split_and!; [|done..]. rewrite <-Hl. by destruct (own s ob').
Qed.

Lemma ladder_map_empty ls : sorted ls → ladder_map ls = ∅ → ls = [].
Proof.
  intros Hs Hm. destruct ls as [|l ls]; [done|].
  pose proof (ladder_map_elem (l :: ls) l Hs ltac:(set_solver)) as Hl.
  by rewrite Hm, lookup_empty in Hl.
Qed.

(** The order that fills it gives its own slot back, and only that one. *)
Lemma add_meets_one s p q t ob slot free w l :
  book_ok max_orders ob (slot :: free) → own s ob = mkLadder [] →
  opposite s ob = mkLadder [l] → price_ticks l = p → total_quantity l = q →
  t ≠ Cancel → 0 < q < 2 ^ 32 →
  ∃ a ob' w' m, add_order max_orders rdtsc s p q t ob w = Ok (a, ob', w') ∧
    book_ok max_orders ob' (free ++ [slot]) ∧ flat ob' ∧
    reported w' = reported w ++ [m] ∧ match_quantity m = q.
Proof.
  intros Hok Hown Hopp Hlp Hlq Ht Hq.
  assert (priority s (opposite s ob) = [l]) as Hp by (rewrite Hopp; by destruct s).
  pose proof (add_order_exact max_orders rdtsc s p q t ob slot free w Hok Ht ltac:(lia)) as Hex.
  assert (crosses s p p = true) as Hc by (destruct s; simpl; case_Z; done || lia).
  rewrite Hp, Hown in Hex. simpl in Hex. rewrite Hlp, Hlq, Hc, Z.ltb_irrefl in Hex.
  rewrite Z.sub_diag in Hex. destruct (Z.eqb_spec q 0); [lia|].
  destruct (Z.ltb_spec q (2 ^ 32)); [|lia]. simpl in Hex.
  destruct (Hex ltac:(cbn; lia) eq_refl) as (ob' & Hx & Hok' & Hdone).
  do 4 eexists. split; [exact Hx|].
  split; [done|]. split; [|by split].
  pose proof (ex_own _ _ _ _ _ _ _ _ _ _ _ _ Hdone) as Hmap. simpl in Hmap.
  replace (own s (set_next_id ob _)) with (own s ob) in Hmap by by destruct s.
  rewrite Hown in Hmap. apply ladder_map_empty in Hmap;
    [|by apply own_sorted, (ok_sides _ _ _ Hok')].
  pose proof (ex_opposite _ _ _ _ _ _ _ _ _ _ _ _ Hdone) as Hopp'.
  unfold flat. destruct s, (bids_ ob') as [bs] eqn:?, (asks_ ob') as [as_] eqn:?;
    simpl in *; rewrite ?Heqf, ?Heqf0 in *; simpl in *; subst; done.
Qed.

(** [n] times: a maker rests and is then filled by a taker. *)
Definition maker_taker (p q : Z) (n : nat) : list request :=
  concat (replicate n [AddReq Sell p q Limit; AddReq Buy p q Limit]).

Lemma maker_taker_run p q n ob free w :
  book_ok max_orders ob free → flat ob → 0 < q < 2 ^ 32 → (n < length free)%nat →
  ∃ answers ob' free' w', run max_orders rdtsc (maker_taker p q n) ob w = Ok (answers, ob', w') ∧
    book_ok max_orders ob' free' ∧ flat ob' ∧ length free' = (length free - n)%nat ∧
    ∃ ms, reported w' = reported w ++ ms ∧ (match_quantity <$> ms) = replicate n q.
Proof.
  intros Hok Hflat Hq. revert ob free w Hok Hflat.
  induction n as [|n IH]; intros ob free w Hok Hflat Hn.
  { do 4 eexists. split; [done|]. do 2 (split; [done|]). split; [lia|].
    exists []. by rewrite app_nil_r. }
  destruct free as [|s1 [|s2 free]]; simpl in Hn; [lia|lia|].
  destruct (add_to_flat Sell p q Limit ob s1 (s2 :: free) w Hok Hflat ltac:(done) Hq)
    as (a1 & ob1 & w1 & H1 & Hok1 & Hb1 & Hw1 & l & Ha1 & Hlp & Hlq).
  destruct (add_meets_one Buy p q Limit ob1 s2 free w1 l Hok1 Hb1 Ha1 Hlp Hlq ltac:(done) Hq)
    as (a2 & ob2 & w2 & m & H2 & Hok2 & Hflat2 & Hm & Hmq).
  destruct (IH ob2 _ w2 Hok2 Hflat2) as (answers & ob' & free' & w' & Hr & ? & ? & Hl & ms & Hms & Hq').
  { rewrite length_app. simpl. lia. }
  do 4 eexists. split.
  { eapply (run_cons_Ok _ _ (AddReq Sell p q Limit) (AddReq Buy p q Limit :: maker_taker p q n));
      [exact H1|]. by eapply (run_cons_Ok _ _ (AddReq Buy p q Limit)); [exact H2|]. }
  do 2 (split; [done|]). rewrite length_app in Hl. simpl in Hl. split; [simpl; lia|].
  exists (m :: ms). rewrite Hms, Hm, Hw1, <-app_assoc, fmap_cons, Hmq, Hq'. done.
Qed.
(** ** Properties *)

(** The constructor means to put every slot in the free list, but the queue holds
    one element less than its capacity and the result of [push] is ignored: slot
    [max_orders - 1] is never in the free list and is never used. *)
Lemma constructor_drops_last_slot (symbol : Z) (free0 : Q)
    (Hfree : fifo_rep free0 []) (Hroom : Z.of_nat fifo_room = max_orders - 1) :
  ∃ ob, OrderBook_new max_orders symbol free0 = Ok ob ∧
    fifo_rep (free_list_ ob) (seqZ 0 (max_orders - 1)) ∧
    length (order_pool_ ob) = S fifo_room.
Proof.
  destruct (new_book_ok max_orders symbol free0 Hfree) as (ob & Hnew & Hok & _).
  exists ob. split; [done|]. split.
  - pose proof (ok_free _ _ _ Hok) as Hq.
    replace (seqZ 0 max_orders) with (seqZ 0 (max_orders - 1) ++ [max_orders - 1]) in Hq.
    + rewrite take_app_le, take_ge in Hq by (rewrite length_seqZ; lia). done.
    + replace max_orders with (max_orders - 1 + 1) at 3 by lia.
      by rewrite seqZ_app by lia.
  - pose proof (ok_pool _ _ _ Hok). lia.
Qed.

(** C9: the slot of a resting order is not given back when a later order fills it:
    after [n] rounds in which a maker rests and a taker fills it exactly, on a new book,
    every round has traded its quantity and nothing rests on either side, and yet [n]
    slots are gone from the free list ([n] is less than the room of the free list, which
    is at most the pool). *)
Theorem filled_makers_leak_slots (p q symbol : Z) (free0 : Q) (n : nat)
    (Hfree : fifo_rep free0 []) (Hroom : Z.of_nat fifo_room ≤ max_orders)
    (Hq : 0 < q < 2 ^ 32) (Hn : (n < fifo_room)%nat) :
  ∃ ob0 answers ob w free, OrderBook_new max_orders symbol free0 = Ok ob0 ∧
    run max_orders rdtsc (maker_taker p q n) ob0 initial_world = Ok (answers, ob, w) ∧
    flat ob ∧ match_quantity <$> reported w = replicate n q ∧
    fifo_rep (free_list_ ob) free ∧ length free = (fifo_room - n)%nat.
Proof.
  destruct (new_book_ok max_orders symbol free0 Hfree) as (ob0 & Hnew & Hok & Hb & Ha & _).
  assert (length (take fifo_room (seqZ 0 max_orders)) = fifo_room) as Hlen.
  { rewrite length_take, length_seqZ. lia. }
  destruct (maker_taker_run p q n ob0 _ initial_world Hok (conj Hb Ha) Hq ltac:(lia))
    as (answers & ob & free & w & Hr & Hok' & Hflat & Hl & ms & Hms & Hqs).
  exists ob0, answers, ob, w, free. rewrite Hms. rewrite Hlen in Hl.
  split_and!; [done|done|done|done|apply (ok_free _ _ _ Hok')|done].
Qed.

(** *** Cancelling twice *)
Lemma cancel_pushes id ob free slot :
  book_ok max_orders ob free → cancel_target max_orders id ob = Some slot →
  (length free < fifo_room)%nat →
  ∃ ob', cancel_order max_orders id ob = Ok (true, ob') ∧ book_ok max_orders ob' (free ++ [slot]) ∧
    cancel_target max_orders id ob' = Some slot.
Proof.
  intros Hok Ht Hroom. pose proof (cancel_order_exact max_orders id ob free Hok) as Hc.
  rewrite Ht in Hc. destruct Hc as (Hslot & b & free' & Hc & Hrep & Hb).
  assert (b = true) as -> by by apply Hb.
  exists (set_free ob free'). split; [done|]. split; [|done].
  eapply set_free_ok; [exact Hok|done|].
  apply Forall_app. split; [apply (ok_free_values _ _ _ Hok)|by constructor].
Qed.

(** A cancelled order can be cancelled again: both calls answer [true], and
    both give the slot back, so the free list holds it twice. *)
Lemma double_cancel_frees_twice id ob free slot
    (Hok : book_ok max_orders ob free) (Hlive : cancel_target max_orders id ob = Some slot)
    (Hroom : (S (length free) < fifo_room)%nat) :
  ∃ ob1 ob2, cancel_order max_orders id ob = Ok (true, ob1) ∧
    cancel_order max_orders id ob1 = Ok (true, ob2) ∧
    book_ok max_orders ob2 (free ++ [slot; slot]).
Proof.
  destruct (cancel_pushes id ob free slot Hok Hlive ltac:(lia)) as (ob1 & H1 & Hok1 & Ht1).
  destruct (cancel_pushes id ob1 _ slot Hok1 Ht1) as (ob2 & H2 & Hok2 & _).
  { rewrite length_app. simpl. lia. }
  exists ob1, ob2. by rewrite <-app_assoc in Hok2.
Qed.

(** The slot an order was recorded in is the one [cancel_order] finds. *)
Lemma executed_target s p q t id now slot ob ob' q' ls' :
  executed max_orders s p q t id now slot ob ob' q' ls' →
  Z.of_nat (length (order_pool_ ob)) = max_orders →
  Z.of_nat (length (order_id_to_slot_ ob)) = max_orders →
  0 ≤ slot < max_orders → cancel_target max_orders id ob' = Some slot.
Proof.
  intros Hx Hp Hs Hslot. unfold cancel_target.
  pose proof (slot_index_range max_orders id).
  rewrite (ex_slots _ _ _ _ _ _ _ _ _ _ _ _ Hx), list_lookup_insert_eq by lia.
  case_Z; [lia|].
  rewrite (ex_pool _ _ _ _ _ _ _ _ _ _ _ _ Hx), list_lookup_insert_eq by lia. simpl.
  case_Z; [done|lia].
Qed.

(** An order that was filled at once can still be cancelled: its slot, already
    back in the free list, is given back a second time. *)
Lemma cancel_after_fill_frees_twice s p q t ob slot free w
    (Hok : book_ok max_orders ob (slot :: free)) (Ht : t ≠ Cancel) (Hq : 0 ≤ q < 2 ^ 32)
    (Hv : volume (levels_ (own s ob)) + q < 2 ^ 64)
    (Hst : stalls (crosses s p) q (priority s (opposite s ob)) = false)
    (Hfilled : q ≤ liquidity (crosses s p) (priority s (opposite s ob)))
    (Hroom : (S (length free) < fifo_room)%nat) :
  ∃ id ob1 w1 ob2, add_order max_orders rdtsc s p q t ob w = Ok (id, ob1, w1) ∧
    cancel_order max_orders id ob1 = Ok (true, ob2) ∧
    book_ok max_orders ob2 (free ++ [slot; slot]).
Proof.
  pose proof (add_order_exact max_orders rdtsc s p q t ob slot free w Hok Ht Hq Hv Hst) as Hex.
  cbv zeta in Hex. destruct (sweep _ _ _) as [[q' ls'] fs] eqn:Hsw.
  destruct Hex as (ob1 & Hx & Hok1 & Hdone).
  destruct (sweep_fills _ _ _ _ _ _ (proj1 Hq) (priority_positive s ob (ok_sides _ _ _ Hok)) Hsw)
    as (? & Htr & _).
  pose proof (sweep_conserves _ _ _ _ _ _ Hsw) as [? _].
  assert (q' = 0) as -> by lia. simpl in Hok1.
  pose proof (Forall_inv (ok_free_values _ _ _ Hok)) as Hslot. simpl in Hslot.
  pose proof (executed_target _ _ _ _ _ _ _ _ _ _ _ Hdone (ok_pool _ _ _ Hok)
                (ok_slots _ _ _ Hok) Hslot) as Htarget.
  destruct (cancel_pushes _ _ _ _ Hok1 Htarget) as (ob2 & Hc & Hok2 & _).
  { rewrite length_app. simpl. lia. }
  do 4 eexists. split; [exact Hx|].
  split; [exact Hc|]. by rewrite <-app_assoc in Hok2.
Qed.
End Facts.
(** ** Concrete runs *)

(** At the engine's own size. *)
Lemma constructor_drops_last_slot_example :
  ∃ ob, OrderBook_new (H:=spsc_fifo_ops MAX_ORDERS) MAX_ORDERS 7
      (SpscQueue_new (replicate (Z.to_nat MAX_ORDERS) 0)) = Ok ob ∧
    spsc_rep MAX_ORDERS (free_list_ ob) (seqZ 0 (MAX_ORDERS - 1)) ∧
    length (order_pool_ ob) = S (Z.to_nat (MAX_ORDERS - 1)).
Proof.
  refine (constructor_drops_last_slot (H0:=spsc_fifo_spec MAX_ORDERS) MAX_ORDERS 7
            (SpscQueue_new (replicate (Z.to_nat MAX_ORDERS) 0)) _ _).
  - apply (spsc_rep_new MAX_ORDERS). rewrite length_replicate. apply Z2Nat.id. done.
  - apply Z2Nat.id. done.
Defined.

Lemma filled_makers_leak_slots_witness :
  ∃ ob0 answers ob w free, OrderBook_new (H:=spsc_fifo_ops 4) 4 7 demo_queue = Ok ob0 ∧
    run (H:=spsc_fifo_ops 4) 4 Z.of_nat (maker_taker 10000 5 2) ob0 initial_world =
      Ok (answers, ob, w) ∧
    flat ob ∧ match_quantity <$> reported w = [5; 5] ∧
    spsc_rep 4 (free_list_ ob) free ∧ length free = 1%nat.
Proof.
  exact (filled_makers_leak_slots (H0:=spsc_fifo_spec 4) 4 Z.of_nat 10000 5 7 demo_queue 2
           demo_queue_ok ltac:(discriminate) ltac:(lia) (le_n 3)).
Defined.

Lemma double_cancel_frees_twice_example :
  ∃ ob1 ob2, cancel_order (H:=spsc_fifo_ops 4) 4 1 (demo_book one_free) = Ok (true, ob1) ∧
    cancel_order (H:=spsc_fifo_ops 4) 4 1 ob1 = Ok (true, ob2) ∧
    book_ok (H0:=spsc_fifo_spec 4) 4 ob2 [3; 0; 0].
Proof.
  exact (double_cancel_frees_twice (H0:=spsc_fifo_spec 4) 4 1 (demo_book one_free) [3] 0
           (demo_book_ok _ _ one_free_ok ltac:(repeat constructor; lia)) eq_refl (le_n 3)).
Defined.

Lemma cancel_after_fill_example :
  ∃ id ob1 w1 ob2,
    add_order (H:=spsc_fifo_ops 4) 4 Z.of_nat Buy 10000 5 Limit (demo_book one_free)
      (mkWorld 0 []) = Ok (id, ob1, w1) ∧
    cancel_order (H:=spsc_fifo_ops 4) 4 id ob1 = Ok (true, ob2) ∧
    book_ok (H0:=spsc_fifo_spec 4) 4 ob2 [3; 3].
Proof.
  exact (cancel_after_fill_frees_twice (H0:=spsc_fifo_spec 4) 4 Z.of_nat Buy 10000 5 Limit
           (demo_book one_free) 3 [] (mkWorld 0 [])
           (demo_book_ok _ _ one_free_ok ltac:(repeat constructor; lia)) ltac:(discriminate)
           ltac:(lia) ltac:(reflexivity) ltac:(reflexivity) ltac:(by vm_compute)
           (le_S _ _ (le_n 2))).
Defined.
End Pool.
