(* ===== verification/BookBench.v ===== *)
(** * The benchmarks of the order book

    The workloads of bench_orderbook.cpp and bench_realistic.cpp and the order-book
    workloads of bench_profiling.cpp in 1_orderbook/bench, each with its latencies and the
    percentiles it reports.  The random draws are environment functions; the callbacks
    only count, so what they were told is the trace of [world]. *)
From S2P Require Import Prelude Binary64 TscClock Latency Fifo SpscQueue PriceLadder OrderBook.

Module BookBench.
Import Book Latency.

Section Bench.
Context {Q : Type} `{FifoOps Z Q} (max_orders : Z).
Context (rdtsc : nat → Z) (clock_gettime : nat → Clock.timespec).

Record bench := mkBench {
  book : OrderBook Q;
  order_ids : list Z;
  latencies : list Z;
  draws : nat;               (* draws from the distributions so far *)
  env : world
}.

(** A new book, and the stopwatch after [TscClock::calibrate()]. *)
Definition start (free0 : Q) : outcome (bench * stopwatch) :=
  ob ← OrderBook_new max_orders 1 free0;
  c ← Clock.calibrate rdtsc clock_gettime (Clock.mkClock Clock.initial_ticks 0 0);
  Ok (mkBench ob [] [] 0 (mkWorld (Clock.tsc_reads c) []), Some (Clock.ticks_per_ns_ c)).

(** Without a calibration, for latencies in cycles. *)
Definition start_cycles (free0 : Q) : outcome (bench * stopwatch) :=
  ob ← OrderBook_new max_orders 1 free0;
  Ok (mkBench ob [] [] 0 (mkWorld 0 []), None).

Definition submit (s : Side) (price qty : Z) (c : bench) : outcome (Z * bench) :=
  '(oid, ob, w) ← add_order max_orders rdtsc s price qty Limit (book c) (env c);
  Ok (oid, mkBench ob (order_ids c) (latencies c) (draws c) w).

Definition add (s : Side) (price qty : Z) (c : bench) : outcome bench :=
  '(_, c') ← submit s price qty c; Ok c'.

(** An operation between two readings of the counter. *)
Definition timed (sw : stopwatch) (capacity : Z) (op : bench → outcome bench) (c : bench)
    : outcome bench :=
  let '(tsc_start, w1) := TscClock_now rdtsc (env c) in
  c1 ← op (mkBench (book c) (order_ids c) (latencies c) (draws c) w1);
  let '(tsc_end, w2) := TscClock_now rdtsc (env c1) in
  ls ← record_elapsed sw capacity tsc_start tsc_end (latencies c1);
  Ok (mkBench (book c1) (order_ids c1) ls (draws c1) w2).

(** A draw of a price and a quantity, and an order with them. *)
Definition draw_add (s : Side) (price qty : nat → Z) (c : bench) : outcome bench :=
  add s (price (draws c)) (qty (draws c))
    (mkBench (book c) (order_ids c) (latencies c) (S (draws c)) (env c)).

(** As [draw_add], remembering the id of an accepted order. *)
Definition draw_remember (s : Side) (price qty : nat → Z) (c : bench) : outcome bench :=
  '(oid, c') ← submit s (price (draws c)) (qty (draws c))
                 (mkBench (book c) (order_ids c) (latencies c) (S (draws c)) (env c));
  Ok (mkBench (book c') (if 0 <? oid then order_ids c' ++ [oid] else order_ids c')
        (latencies c') (draws c') (env c')).

(** [ob.cancel_order(order_ids.back()); order_ids.pop_back();] *)
Definition cancel_last (c : bench) : outcome bench :=
  match last (order_ids c) with
  | None => Ok c
  | Some oid =>
      '(_, ob) ← cancel_order max_orders oid (book c);
      Ok (mkBench ob (take (length (order_ids c) - 1) (order_ids c)) (latencies c) (draws c) (env c))
  end.

Definition report (qs : list (Z * Z)) (with_max : bool) (c : bench) : outcome (bench * list Z) :=
  xs ← counters (latencies c) qs with_max; Ok (c, xs).

(** *** bench_realistic.cpp *)
Definition realistic_deep_ladder_insert (k : nat) (free0 : Q) : outcome (bench * list Z) :=
  '(c, sw) ← start free0;
  c ← for_loop 500 0 (λ i c, c ← add Buy (10000 - i) 100 c; add Sell (10001 + i) 100 c) c;
  c ← for_loop k 0 (λ _, timed sw 10000 (add Buy 9900 50)) c;
  report [(1, 2); (95, 100); (99, 100); (999, 1000)] false c.

Definition realistic_multi_level_match (k : nat) (free0 : Q) : outcome (bench * list Z) :=
  '(c, sw) ← start free0;
  c ← for_loop 20 0 (λ i c, c ← add Buy (10000 - i * 10) 100 c; add Sell (10001 + i * 10) 100 c) c;
  c ← for_loop k 0 (λ _, timed sw 10000 (add Sell 9500 1500)) c;
  report [(1, 2); (95, 100); (99, 100)] false c.

(** [price_dist] draws from 9950 to 10050 and [qty_dist] from 10 to 100. *)
Definition realistic_order_churn (price_dist qty_dist : nat → Z) (k : nat) (free0 : Q)
    : outcome (bench * list Z) :=
  '(c, sw) ← start free0;
  c ← for_loop k 0 (λ _ c,
    c ← for_loop 10 0 (λ i, timed sw 100000
          (draw_remember (if Z.rem i 2 =? 0 then Buy else Sell) price_dist qty_dist)) c;
    for_loop 5 0 (λ _ c,
      match order_ids c with [] => Ok c | _ => timed sw 100000 cancel_last c end) c) c;
  report [(1, 2); (95, 100); (99, 100); (999, 1000)] false c.

Definition realistic_market_order_worst_case (k : nat) (free0 : Q) : outcome (bench * list Z) :=
  '(c, sw) ← start free0;
  c ← for_loop k 0 (λ _ c,
    c ← for_loop 100 0 (λ i, add Sell (10001 + i) 100) c;
    timed sw 1000 (add Buy 10500 10000) c) c;
  report [(1, 2); (99, 100)] true c.

(** *** bench_orderbook.cpp *)

(** [price_dist] draws from 5000 to 15000 and [qty_dist] from 10 to 1000. *)
Definition orderbook_add_order_no_match (price_dist qty_dist : nat → Z) (k : nat) (free0 : Q)
    : outcome (bench * list Z) :=
  '(c, sw) ← start free0;
  c ← for_loop k 0 (λ _, timed sw 100000 (draw_add Buy price_dist qty_dist)) c;
  report [(1, 2); (95, 100); (99, 100); (999, 1000)] false c.

Definition orderbook_with_matching (k : nat) (free0 : Q) : outcome (bench * list Z) :=
  '(c, sw) ← start free0;
  c ← for_loop 50 0 (λ i c, c ← add Buy (10000 - i * 10) 100 c; add Sell (10100 + i * 10) 100 c) c;
  c ← for_loop k 0 (λ _, timed sw 100000 (add Sell 9500 100)) c;
  report [(1, 2); (95, 100); (99, 100)] false c.

Definition orderbook_sequential_adds (k : nat) (free0 : Q) : outcome (bench * list Z) :=
  '(c, sw) ← start free0;
  c ← for_loop k 0 (λ _, for_loop 1000 0 (λ i,
        timed sw 1000000 (add (if Z.rem i 2 =? 0 then Buy else Sell) (10000 + i) 100))) c;
  report [(1, 2); (99, 100); (9999, 10000)] true c.

(** *** bench_profiling.cpp *)

(** [rand] draws from [std::rand()]. *)
Definition profile_orderbook_add_scaling (rand : nat → Z) (num_levels : nat) (k : nat) (free0 : Q)
    : outcome (bench * list Z) :=
  '(c, sw) ← start_cycles free0;
  c ← for_loop num_levels 0
        (λ i c, c ← add Buy (10000 - i) 100 c; add Sell (10001 + i) 100 c) c;
  c ← for_loop k 0 (λ _, timed sw 10000
        (draw_add Buy (λ n, 9900 + Z.rem (rand n) 100) (λ _, 50))) c;
  report [(1, 2); (99, 100)] false c.

Definition profile_orderbook_match_scaling (cross_levels : nat) (k : nat) (free0 : Q)
    : outcome (bench * list Z) :=
  let populate := for_loop (cross_levels + 10) 0 (λ i, add Buy (10000 - i) 100) in
  '(c, sw) ← start_cycles free0;
  c ← populate c;
  c ← for_loop k 0 (λ _ c,
    c ← timed sw 1000
          (add Sell (10000 - Z.of_nat cross_levels) (100 * Z.of_nat cross_levels)) c;
    populate c) c;
  report [(1, 2); (99, 100)] true c.

(** [action_dist] draws from 0 to 99, [gen] any 32-bit number, [price_dist] from 9900 to
    10100 and [qty_dist] from 10 to 1000. *)
Definition profile_realistic_workload_mix (action_dist gen price_dist qty_dist : nat → Z) (k : nat)
    (free0 : Q) : outcome (bench * list Z * option (B64.double * B64.double)) :=
  '(c, sw) ← start_cycles free0;
  c ← for_loop k 0 (λ i c,
    let action := action_dist (Z.to_nat i) in
    timed sw 100000 (λ c,
      if action <? 70 then
        draw_remember (if Z.land (gen (draws c)) 1 =? 0 then Sell else Buy) price_dist qty_dist c
      else if action <? 90 then
        match order_ids c with [] => Ok c | _ => cancel_last c end
      else Ok c) c) c;
  '(c, xs) ← report [(1, 2); (95, 100); (99, 100); (999, 1000)] true c;
  Ok (c, xs, match latencies c with [] => None | ls => Some (mean (sort ls), stddev (sort ls)) end).
End Bench.
Arguments bench : clear implicits.
End BookBench.
