(* ===== verification/BookBenchSafety.v ===== *)
(** * The benchmarks of the order book run to completion

    Whatever is drawn, as long as the quantities a benchmark submits fit 32 bits: no loop
    diverges, no array is left, and the book stays well formed. *)
From S2P Require Import Prelude TscClock Latency Fifo SpscQueue PriceLadder OrderBook Matching BookInvariant Engine BookBench.

Module BookBenchSafety.
Import Book Matching BookInv Engine Latency BookBench.

Section Facts.
Context {Q : Type} `{FifoSpec Z Q} (max_orders : Z) `{!PowerOfTwo max_orders}.
Context (rdtsc : nat → Z) (clock_gettime : nat → Clock.timespec).
Context {Hhost : Clock.HostClocks rdtsc clock_gettime}.

(** The book is well formed, at most [v] was submitted, and the latencies fit. *)
Record bench_ok (cap v : Z) (c : bench Q) : Prop := {
  bo_book : ∃ free, book_ok max_orders (book c) free;
  bo_volume : book_volume (book c) + 2 * sum (match_quantity <$> reported (env c)) ≤ v;
  bo_traded : 0 ≤ sum (match_quantity <$> reported (env c));
  bo_latencies : Z.of_nat (length (latencies c)) ≤ cap
}.

(** How often the counter was read. *)
Definition readings (c : bench Q) : nat := tsc_reads (env c).

Definition keeps (cap q : Z) (op : bench Q → outcome (bench Q)) : Prop :=
  ∀ v c, bench_ok cap v c → v + q < 2 ^ 32 →
    ∃ c', op c = Ok c' ∧ bench_ok cap (v + q) c' ∧ (readings c ≤ readings c')%nat.

Lemma bench_ok_weaken cap v v' c : bench_ok cap v c → v ≤ v' → bench_ok cap v' c.
Proof. intros [] ?. split; try done. lia. Qed.

Lemma submit_ok s p q cap v c :
  0 ≤ q → bench_ok cap v c → v + q < 2 ^ 32 →
  ∃ a c', submit max_orders rdtsc s p q c = Ok (a, c') ∧ bench_ok cap (v + q) c' ∧
    (readings c ≤ readings c')%nat ∧ order_ids c' = order_ids c.
Proof.
  intros Hq [(free & Hok) Hv Ht Hl] Hlt. unfold submit.
  pose proof (book_volume_nonneg max_orders _ _ Hok).
  destruct (add_order_small max_orders rdtsc s p q Limit (book c) free (env c) Hok ltac:(lia)
              ltac:(lia)) as (a & ob & free' & w & -> & Hok' & Hread & ms & Hms & Hpos & Hacc).
  apply positive_sum in Hpos. rewrite bind_ret_l. do 2 eexists. split; [done|].
  split; [|by split].
  split; simpl; [by exists free'| |..]; rewrite ?Hms, ?fmap_app, ?sum_app; lia.
Qed.

Lemma add_keeps s p q cap : 0 ≤ q → keeps cap q (add max_orders rdtsc s p q).
Proof.
  intros Hq v c Hc Hlt. destruct (submit_ok s p q cap v c Hq Hc Hlt) as (a & c' & Hs & Hok & Hread & _).
  exists c'. unfold add. rewrite Hs. done.
Qed.

Lemma seq_keeps cap q1 q2 f g :
  0 ≤ q2 → keeps cap q1 f → keeps cap q2 g → keeps cap (q1 + q2) (λ c, c' ← f c; g c').
Proof.
  intros Hq2 Hf Hg v c Hc Hlt. destruct (Hf v c Hc ltac:(lia)) as (c1 & -> & H1 & R1).
  rewrite bind_ret_l. destruct (Hg _ c1 H1 ltac:(lia)) as (c2 & -> & H2 & R2). exists c2.
  rewrite Z.add_assoc. split_and!; [done|done|lia].
Qed.

Lemma timed_keeps sw cap q op :
  steady_watch sw → keeps cap q op → keeps cap q (timed rdtsc sw cap op).
Proof.
  intros Hsw Hop v c [Hb Hv Ht Hl] Hlt. unfold timed, TscClock_now.
  destruct (Hop v (mkBench (book c) (order_ids c) (latencies c) (draws c)
    (mkWorld (S (tsc_reads (env c))) (reported (env c))))) as (c1 & -> & [Hb1 Hv1 Ht1 Hl1] & Hread);
    [by split|done|].
  unfold readings in *. simpl in Hread. rewrite bind_ret_l. cbv beta iota.
  destruct (record_elapsed_ok rdtsc clock_gettime sw cap (tsc_reads (env c)) (tsc_reads (env c1))
              (latencies c1) Hsw ltac:(lia) Hl1) as (ls & -> & Hls).
  rewrite bind_ret_l. eexists. split; [done|]. split; [by split|]. simpl. lia.
Qed.

Lemma for_keeps cap q n i body :
  0 ≤ q → (∀ j, keeps cap q (body j)) → keeps cap (q * Z.of_nat n) (for_loop n i body).
Proof.
  intros Hq Hbody v c Hc Hlt.
  destruct (for_loop_invariant (λ j c', bench_ok cap (v + q * (j - i)) c' ∧
    (readings c ≤ readings c')%nat) n i body c) as (c' & Hc' & Hok' & Hread).
  - by replace (v + q * (i - i)) with v by lia.
  - intros j s Hj [Hs Hr]. destruct (Hbody j _ s Hs ltac:(nia)) as (s' & Hs' & Hok' & Hr').
    exists s'. split; [done|]. split; [|lia].
    by replace (v + q * (j + 1 - i)) with (v + q * (j - i) + q) by lia.
  - exists c'. split; [done|]. split; [|done]. by replace (i + Z.of_nat n - i) with (Z.of_nat n) in Hok' by lia.
Qed.

Lemma redraw_ok cap v c : bench_ok cap v c →
  bench_ok cap v (mkBench (book c) (order_ids c) (latencies c) (S (draws c)) (env c)).
Proof. intros []. by split. Qed.

(** Draws within the bounds of a distribution. *)
Definition drawn_from (lo hi : Z) (dist : nat → Z) : Prop := ∀ n, lo ≤ dist n ≤ hi.

Lemma draw_add_keeps s price qty lo hi cap :
  drawn_from lo hi qty → 0 ≤ lo → keeps cap hi (draw_add max_orders rdtsc s price qty).
Proof.
  intros Hqty Hlo v c Hc Hlt. pose proof (Hqty (draws c)).
  destruct (add_keeps s (price (draws c)) (qty (draws c)) cap ltac:(lia) v _ (redraw_ok _ _ _ Hc)
              ltac:(lia)) as (c' & Hc' & Hok & Hread).
  exists c'. split; [done|]. split; [eapply bench_ok_weaken; [exact Hok|lia]|done].
Qed.

Lemma draw_remember_keeps s price qty lo hi cap :
  drawn_from lo hi qty → 0 ≤ lo → keeps cap hi (draw_remember max_orders rdtsc s price qty).
Proof.
  intros Hqty Hlo v c Hc Hlt. pose proof (Hqty (draws c)).
  destruct (submit_ok s (price (draws c)) (qty (draws c)) cap v _ ltac:(lia) (redraw_ok _ _ _ Hc)
              ltac:(lia)) as (a & c' & Hs & Hok & Hread & _).
  unfold draw_remember. rewrite Hs, bind_ret_l. eexists. split; [done|].
  eapply (bench_ok_weaken _ _ (v + hi)) in Hok; [|lia]. destruct Hok. split; [by split|done].
Qed.

Lemma cancel_last_keeps cap : keeps cap 0 (cancel_last max_orders).
Proof.
  intros v c Hc Hlt. rewrite Z.add_0_r. unfold cancel_last.
  destruct (last (order_ids c)) as [oid|]; [|by exists c].
  destruct Hc as [(free & Hok) Hv Ht Hl].
  destruct (cancel_order_ok max_orders oid (book c) free Hok) as (b & ob & free' & -> & Hok' & Hb & Ha & _).
  rewrite bind_ret_l. eexists. split; [done|]. split; [|done].
  split; simpl; [by exists free'| |done|done]. unfold book_volume in *. by rewrite Hb, Ha.
Qed.

Lemma start_ok free0 cap :
  fifo_rep free0 [] → 0 ≤ cap →
  ∃ c sw, start max_orders rdtsc clock_gettime free0 = Ok (c, sw) ∧ steady_watch sw ∧
    bench_ok cap 0 c.
Proof.
  intros Hfree Hcap. destruct (new_book_ok max_orders 1 free0 Hfree) as (ob & Hnew & Hok & Hb & Ha & _).
  destruct Clock.host_calibrates as (ticks & Hconv & Hcal).
  unfold start. rewrite Hnew, bind_ret_l, Hcal, bind_ret_l.
  do 2 eexists. split; [done|]. split; [done|].
  split; simpl; [by eexists| |done|lia]. unfold book_volume. by rewrite Hb, Ha.
Qed.

Lemma start_cycles_ok free0 cap :
  fifo_rep free0 [] → 0 ≤ cap →
  ∃ c sw, start_cycles max_orders free0 = Ok (c, sw) ∧ steady_watch sw ∧ bench_ok cap 0 c.
Proof.
  intros Hfree Hcap. destruct (new_book_ok max_orders 1 free0 Hfree) as (ob & Hnew & Hok & Hb & Ha & _).
  unfold start_cycles. rewrite Hnew, bind_ret_l.
  do 2 eexists. split; [done|]. split; [done|].
  split; simpl; [by eexists| |done|lia]. unfold book_volume. by rewrite Hb, Ha.
Qed.

(** ** The workloads *)
Lemma finish_ok cap q op qs m c0 :
  bench_ok cap 0 c0 → keeps cap q op → q < 2 ^ 32 → Forall fraction qs →
  ∃ c xs, (c ← op c0; report qs m c) = Ok (c, xs) ∧ bench_ok cap q c.
Proof.
  intros Hc Hop Hq Hqs. destruct (Hop 0 c0 Hc Hq) as (c & -> & Hok & _).
  rewrite bind_ret_l.
  destruct (counters_ok (latencies c) qs m Hqs) as [xs Hxs]. exists c, xs.
  unfold report. by rewrite Hxs.
Qed.

Lemma finish2_ok cap q1 q2 f g qs m c0 :
  bench_ok cap 0 c0 → keeps cap q1 f → keeps cap q2 g → 0 ≤ q2 → q1 + q2 < 2 ^ 32 →
  Forall fraction qs →
  ∃ c xs, (c ← f c0; c ← g c; report qs m c) = Ok (c, xs) ∧ bench_ok cap (q1 + q2) c.
Proof.
  intros Hc Hf Hg Hq2 Hq Hqs.
  destruct (finish_ok cap (q1 + q2) (λ c, c' ← f c; g c') qs m c0 Hc) as (c & xs & Hr & Hok);
    [by apply seq_keeps|done|done|].
  exists c, xs. split; [|done]. revert Hr. by destruct (f c0).
Qed.

Lemma populate_keeps cap n (pb ps : Z → Z) q i :
  0 ≤ q → keeps cap ((q + q) * Z.of_nat n)
    (for_loop n i (λ i c, c ← add max_orders rdtsc Buy (pb i) q c; add max_orders rdtsc Sell (ps i) q c)).
Proof. intros Hq. apply for_keeps; [lia|]. intros j. by apply seq_keeps; [|apply add_keeps..]. Qed.

Lemma timed_loop_keeps sw cap q n i op :
  steady_watch sw → 0 ≤ q → keeps cap q op →
  keeps cap (q * Z.of_nat n) (for_loop n i (λ _, timed rdtsc sw cap op)).
Proof. intros. apply for_keeps; [done|]. intros. by apply timed_keeps. Qed.
End Facts.

(** The benchmarks, with the draws of the random ones. *)
Inductive workload : Type :=
  | DeepLadderInsert | MultiLevelMatch | MarketOrderWorstCase
  | OrderChurn (price qty : nat → Z)
  | AddOrderNoMatch (price qty : nat → Z)
  | WithMatching | SequentialAdds
  | AddScaling (rand : nat → Z) (num_levels : nat)
  | MatchScaling (cross_levels : nat)
  | WorkloadMix (action gen price qty : nat → Z).

Definition draws_ok (b : workload) : Prop :=
  match b with
  | OrderChurn _ qty => drawn_from 10 100 qty
  | AddOrderNoMatch _ qty | WorkloadMix _ _ _ qty => drawn_from 10 1000 qty
  | _ => True
  end.

(** [latencies.reserve(...)] *)
Definition reserve (b : workload) : Z :=
  match b with
  | DeepLadderInsert | MultiLevelMatch | AddScaling _ _ => 10000
  | MarketOrderWorstCase | MatchScaling _ => 1000
  | SequentialAdds => 1000000
  | OrderChurn _ _ | AddOrderNoMatch _ _ | WithMatching | WorkloadMix _ _ _ _ => 100000
  end.

(** The most a benchmark submits in [k] iterations. *)
Definition submits (b : workload) (k : Z) : Z :=
  match b with
  | DeepLadderInsert => 100000 + 50 * k
  | MultiLevelMatch => 4000 + 1500 * k
  | MarketOrderWorstCase => 20000 * k
  | OrderChurn _ _ => 1000 * k
  | AddOrderNoMatch _ _ | WorkloadMix _ _ _ _ => 1000 * k
  | WithMatching => 10000 + 100 * k
  | SequentialAdds => 100000 * k
  | AddScaling _ n => 200 * Z.of_nat n + 50 * k
  | MatchScaling n => 100 * Z.of_nat (n + 10) + (100 * Z.of_nat n + 100 * Z.of_nat (n + 10)) * k
  end.

Section Run.
Context {Q : Type} `{FifoOps Z Q} (max_orders : Z).
Context (rdtsc : nat → Z) (clock_gettime : nat → Clock.timespec).

Definition run_workload (b : workload) (k : nat) (free0 : Q) : outcome (bench Q * list Z) :=
  match b with
  | DeepLadderInsert => realistic_deep_ladder_insert max_orders rdtsc clock_gettime k free0
  | MultiLevelMatch => realistic_multi_level_match max_orders rdtsc clock_gettime k free0
  | MarketOrderWorstCase => realistic_market_order_worst_case max_orders rdtsc clock_gettime k free0
  | OrderChurn p q => realistic_order_churn max_orders rdtsc clock_gettime p q k free0
  | AddOrderNoMatch p q => orderbook_add_order_no_match max_orders rdtsc clock_gettime p q k free0
  | WithMatching => orderbook_with_matching max_orders rdtsc clock_gettime k free0
  | SequentialAdds => orderbook_sequential_adds max_orders rdtsc clock_gettime k free0
  | AddScaling r n => profile_orderbook_add_scaling max_orders rdtsc r n k free0
  | MatchScaling n => profile_orderbook_match_scaling max_orders rdtsc n k free0
  | WorkloadMix a g p q =>
      '(c, xs, _) ← profile_realistic_workload_mix max_orders rdtsc a g p q k free0; Ok (c, xs)
  end.
End Run.

Section Safety.
Context {Q : Type} `{FifoSpec Z Q} (max_orders : Z) `{!PowerOfTwo max_orders}.
Context (rdtsc : nat → Z) (clock_gettime : nat → Clock.timespec).
Context {Hhost : Clock.HostClocks rdtsc clock_gettime}.

Abbreviation completes b k free0 :=
  (∃ c xs, run_workload max_orders rdtsc clock_gettime b k free0 = Ok (c, xs) ∧
    bench_ok max_orders (reserve b) (submits b (Z.of_nat k)) c).

Ltac calibrated cap :=
  match goal with Hf : fifo_rep ?f [] |- _ =>
    let c := fresh "c" in let sw := fresh "sw" in
    destruct (start_ok max_orders rdtsc clock_gettime f cap Hf ltac:(lia)) as (c & sw & Hs & Hsw & Hc);
    cbn [run_workload]
  end.

Ltac finished := repeat (constructor; [split; simpl; lia|]); constructor.

Lemma deep_ladder_completes k free0 :
  fifo_rep free0 [] → submits DeepLadderInsert (Z.of_nat k) < 2 ^ 32 →
  completes DeepLadderInsert k free0.
Proof.
  simpl. intros Hf Hk. calibrated 10000. unfold realistic_deep_ladder_insert. rewrite Hs, bind_ret_l.
  apply finish2_ok; [done|by apply (populate_keeps _ _ _ 500 _ _ 100)|
    by apply (timed_loop_keeps max_orders rdtsc clock_gettime); [|lia|apply add_keeps]|lia|lia|finished].
Qed.

Lemma multi_level_completes k free0 :
  fifo_rep free0 [] → submits MultiLevelMatch (Z.of_nat k) < 2 ^ 32 →
  completes MultiLevelMatch k free0.
Proof.
  simpl. intros Hf Hk. calibrated 10000. unfold realistic_multi_level_match. rewrite Hs, bind_ret_l.
  apply finish2_ok; [done|by apply (populate_keeps _ _ _ 20 _ _ 100)|
    by apply (timed_loop_keeps max_orders rdtsc clock_gettime); [|lia|apply add_keeps]|lia|lia|finished].
Qed.

Lemma with_matching_completes k free0 :
  fifo_rep free0 [] → submits WithMatching (Z.of_nat k) < 2 ^ 32 → completes WithMatching k free0.
Proof.
  simpl. intros Hf Hk. calibrated 100000. unfold orderbook_with_matching. rewrite Hs, bind_ret_l.
  apply finish2_ok; [done|by apply (populate_keeps _ _ _ 50 _ _ 100)|
    by apply (timed_loop_keeps max_orders rdtsc clock_gettime); [|lia|apply add_keeps]|lia|lia|finished].
Qed.

Lemma worst_case_completes k free0 :
  fifo_rep free0 [] → submits MarketOrderWorstCase (Z.of_nat k) < 2 ^ 32 →
  completes MarketOrderWorstCase k free0.
Proof.
  simpl. intros Hf Hk. calibrated 1000. unfold realistic_market_order_worst_case. rewrite Hs, bind_ret_l.
  apply (finish_ok _ _ (20000 * Z.of_nat k)); [done| |lia|finished].
  apply for_keeps; [lia|]. intros _. apply (seq_keeps _ _ (100 * Z.of_nat 100) 10000); [lia| |].
  - apply for_keeps; [lia|]. intros. by apply add_keeps.
  - apply (timed_keeps max_orders rdtsc clock_gettime); [done|]. by apply add_keeps.
Qed.

Lemma churn_completes price qty k free0 :
  fifo_rep free0 [] → drawn_from 10 100 qty → submits (OrderChurn price qty) (Z.of_nat k) < 2 ^ 32 →
  completes (OrderChurn price qty) k free0.
Proof.
  simpl. intros Hf Hqty Hk. calibrated 100000. unfold realistic_order_churn. rewrite Hs, bind_ret_l.
  apply (finish_ok _ _ (1000 * Z.of_nat k)); [done| |lia|finished].
  apply for_keeps; [lia|]. intros _.
  apply (seq_keeps _ _ (100 * Z.of_nat 10) (0 * Z.of_nat 5)); [lia| |].
  - apply for_keeps; [lia|]. intros. apply (timed_keeps max_orders rdtsc clock_gettime); [done|]. by apply (draw_remember_keeps _ _ _ _ _ 10 100).
  - apply for_keeps; [lia|]. intros _ v c' Hc' Hv. destruct (order_ids c') eqn:Ho.
    + exists c'. by rewrite Z.add_0_r.
    + by apply (timed_keeps max_orders rdtsc clock_gettime _ _ _ _ Hsw (cancel_last_keeps _ _)).
Qed.

Lemma no_match_completes price qty k free0 :
  fifo_rep free0 [] → drawn_from 10 1000 qty → submits (AddOrderNoMatch price qty) (Z.of_nat k) < 2 ^ 32 →
  completes (AddOrderNoMatch price qty) k free0.
Proof.
  simpl. intros Hf Hqty Hk. calibrated 100000. unfold orderbook_add_order_no_match. rewrite Hs, bind_ret_l.
  apply (finish_ok _ _ (1000 * Z.of_nat k)); [done| |lia|finished].
  apply (timed_loop_keeps max_orders rdtsc clock_gettime); [done|lia|]. by apply (draw_add_keeps _ _ _ _ _ 10 1000).
Qed.

Lemma sequential_completes k free0 :
  fifo_rep free0 [] → submits SequentialAdds (Z.of_nat k) < 2 ^ 32 → completes SequentialAdds k free0.
Proof.
  simpl. intros Hf Hk. calibrated 1000000. unfold orderbook_sequential_adds. rewrite Hs, bind_ret_l.
  apply (finish_ok _ _ (100000 * Z.of_nat k)); [done| |lia|finished].
  apply for_keeps; [lia|]. intros _. apply (for_keeps _ _ 100 1000); [lia|]. intros.
  apply (timed_keeps max_orders rdtsc clock_gettime); [done|]. by apply add_keeps.
Qed.

Ltac in_cycles cap :=
  match goal with Hf : fifo_rep ?f [] |- _ =>
    destruct (start_cycles_ok max_orders f cap Hf ltac:(lia)) as (c & sw & Hs & Hsw & Hc);
    cbn [run_workload]
  end.

Lemma add_scaling_completes rand n k free0 :
  fifo_rep free0 [] → submits (AddScaling rand n) (Z.of_nat k) < 2 ^ 32 →
  completes (AddScaling rand n) k free0.
Proof.
  simpl. intros Hf Hk. in_cycles 10000. unfold profile_orderbook_add_scaling. rewrite Hs, bind_ret_l.
  apply finish2_ok; [done|by apply (populate_keeps _ _ _ n _ _ 100)| |lia|lia|finished].
  apply (timed_loop_keeps max_orders rdtsc clock_gettime); [done|lia|]. by apply (draw_add_keeps _ _ _ _ _ 50 50).
Qed.

Lemma match_scaling_completes n k free0 :
  fifo_rep free0 [] → submits (MatchScaling n) (Z.of_nat k) < 2 ^ 32 →
  completes (MatchScaling n) k free0.
Proof.
  simpl. intros Hf Hk. in_cycles 1000. unfold profile_orderbook_match_scaling. rewrite Hs, bind_ret_l.
  assert (keeps max_orders 1000 (100 * Z.of_nat (n + 10))
    (for_loop (n + 10) 0 (λ i, add max_orders rdtsc Buy (10000 - i) 100))) as Hpop.
  { apply for_keeps; [lia|]. intros. by apply add_keeps. }
  apply finish2_ok; [done|exact Hpop| |lia|lia|finished].
  apply for_keeps; [lia|]. intros _. apply seq_keeps; [lia| |exact Hpop].
  apply (timed_keeps max_orders rdtsc clock_gettime); [done|]. apply (add_keeps max_orders). lia.
Qed.

Lemma unpair_ok {B} (P : bench Q → Prop) (st : outcome (bench Q)) rep (f : bench Q → list Z → B) :
  (∃ c xs, (c ← st; rep c) = Ok (c, xs) ∧ P c) →
  ∃ c xs, ('(c, xs, _) ← (c ← st; '(c, xs) ← rep c; Ok (c, xs, f c xs)); Ok (c, xs)) = Ok (c, xs) ∧ P c.
Proof.
  intros (c & xs & Hr & HP). exists c, xs. split; [|done]. destruct st as [c0|]; [|done].
  simpl in *. by rewrite Hr.
Qed.

Lemma mix_completes action gen price qty k free0 :
  fifo_rep free0 [] → drawn_from 10 1000 qty →
  submits (WorkloadMix action gen price qty) (Z.of_nat k) < 2 ^ 32 →
  completes (WorkloadMix action gen price qty) k free0.
Proof.
  simpl. intros Hf Hqty Hk. in_cycles 100000. unfold profile_realistic_workload_mix. rewrite Hs, bind_ret_l.
  apply (unpair_ok _ _ (report _ _)), (finish_ok _ _ (1000 * Z.of_nat k)); [done| |lia|finished].
  apply for_keeps; [lia|]. intros i. apply (timed_keeps max_orders rdtsc clock_gettime); [done|]. intros v c' Hc' Hv.
  assert (∃ c'', cancel_last max_orders c' = Ok c'' ∧
    bench_ok max_orders 100000 (v + 1000) c'' ∧ (readings c' ≤ readings c'')%nat) as Hcan.
  { destruct (cancel_last_keeps max_orders 100000 v c' Hc' ltac:(lia)) as (c'' & ? & Hok & Hread).
    exists c''. split; [done|]. split; [|done]. eapply bench_ok_weaken; [exact Hok|lia]. }
  assert (bench_ok max_orders 100000 (v + 1000) c') as Hsame by (eapply bench_ok_weaken; [exact Hc'|lia]).
  destruct (action (Z.to_nat i) <? 70); [by apply (draw_remember_keeps _ _ _ _ _ 10 1000)|].
  destruct (action (Z.to_nat i) <? 90); [|by exists c'].
  destruct (order_ids c'); [by exists c'|done].
Qed.

(** C11: every benchmark of the order book runs to completion, whatever it draws within the
    bounds of its distributions, as long as what it submits fits 32 bits for every
    counter and clock as documented ([Clock.HostClocks]: a counter below 2^63 that never
    goes back, in a run of less than 2^48 ticks; a clock of normalised times that is never
    set back; one tick in 2^15 nanoseconds while [calibrate] measures): no matching loop
    diverges, no array is left, [calibrate] measures a rate with which every elapsed time
    has a defined conversion, and every percentile is read inside the latencies.
    Afterwards the ladders are sorted, positive and not crossed, what rests plus twice what
    traded is at most what was submitted, and the latencies fit their reserve. *)
Theorem book_benchmarks_run_safely (b : workload) (k : nat) (free0 : Q)
    (Hfree : fifo_rep free0 []) (Hdraws : draws_ok b) (Hsmall : submits b (Z.of_nat k) < 2 ^ 32) :
  ∃ c xs, run_workload max_orders rdtsc clock_gettime b k free0 = Ok (c, xs) ∧
    sides_ok (bids_ (book c)) (asks_ (book c)) ∧
    book_volume (book c) + 2 * sum (match_quantity <$> reported (env c)) ≤ submits b (Z.of_nat k) ∧
    Z.of_nat (length (latencies c)) ≤ reserve b.
Proof.
  assert (∃ c xs, run_workload max_orders rdtsc clock_gettime b k free0 = Ok (c, xs) ∧
    bench_ok max_orders (reserve b) (submits b (Z.of_nat k)) c) as (c & xs & Hr & [(free & Hok) Hv _ Hl]).
  { destruct b; [by apply deep_ladder_completes|by apply multi_level_completes
      |by apply worst_case_completes|by apply churn_completes|by apply no_match_completes
      |by apply with_matching_completes|by apply sequential_completes
      |by apply add_scaling_completes|by apply match_scaling_completes|by apply mix_completes]. }
  exists c, xs. split; [done|]. split; [apply (ok_sides _ _ _ Hok)|done].
Qed.
End Safety.

#[local] Existing Instance Clock.demo_host.

(** A thousand iterations of the churn, with a pool of four slots. *)
Import Spsc.
Definition demo_churn : workload :=
  OrderChurn (λ n, 9950 + Z.of_nat n `mod` 101) (λ n, 10 + Z.of_nat n `mod` 91).

Lemma demo_churn_draws : draws_ok demo_churn.
Proof. intros n. pose proof (Z.mod_pos_bound (Z.of_nat n) 91). simpl. lia. Qed.

Lemma book_benchmarks_run_safely_witness :
  ∃ c xs, run_workload (H:=spsc_fifo_ops 4) 4 Clock.demo_rdtsc Clock.demo_clock demo_churn 1000
      demo_queue = Ok (c, xs) ∧
    sides_ok (bids_ (book c)) (asks_ (book c)) ∧
    book_volume (book c) + 2 * sum (match_quantity <$> reported (env c)) ≤ 1000000 ∧
    Z.of_nat (length (latencies c)) ≤ 100000.
Proof.
  exact (book_benchmarks_run_safely (H0:=spsc_fifo_spec 4) 4 Clock.demo_rdtsc Clock.demo_clock
           demo_churn 1000 demo_queue demo_queue_ok demo_churn_draws eq_refl).
Defined.
End BookBenchSafety.
