(* ===== verification/BookBenchLogic.v ===== *)
(** * A logic for the loops of the order book benchmarks

    Steps of a benchmark that cannot fail, with assertions about the market its book
    represents and the trades so far, and what an order does to a market whose best
    level is known. *)
From S2P Require Import Prelude TscClock Latency Fifo PriceLadder OrderBook Matching BookInvariant Engine BookSpec BookBench BookBenchSafety.

Module BookBenchLogic.
Import Book Matching BookInv Engine Market Latency BookBench BookBenchSafety.

(** ** A logic of benchmark steps

    Assertions speak about the market the book represents and the trades so far. *)
Definition assertion : Type := market → list (Z * Z) → Prop.

Definition own_of (s : Side) (m : market) : gmap Z Z :=
  match s with Buy => bids m | Sell => asks m end.

Section Logic.
Context {Q : Type} `{FifoSpec Z Q} (max_orders : Z) `{!PowerOfTwo max_orders}.
Context (rdtsc : nat → Z) (clock_gettime : nat → Clock.timespec).
Context {Hhost : Clock.HostClocks rdtsc clock_gettime}.

(** The slots of a new book. *)
Definition slots : nat := fifo_room `min` Z.to_nat max_orders.

Record shows (cap v : Z) (c : bench Q) (m : market) (fs : list (Z * Z)) : Prop := {
  sh_ok : bench_ok max_orders cap v c;
  sh_rep : ∃ free, represents max_orders (book c) free m;
  sh_next : 1 ≤ next_id m ≤ v + 1;
  sh_trades : trades (env c) = fs
}.

(** From a state that satisfies [J], [op] submits at most [q] and ends in one that
    satisfies [J']. *)
Definition moves (cap q : Z) (op : bench Q → outcome (bench Q)) (J J' : assertion) : Prop :=
  ∀ v c m fs, shows cap v c m fs → J m fs → v + q < 2 ^ 32 →
    ∃ c' m' fs', op c = Ok c' ∧ shows cap (v + q) c' m' fs' ∧ J' m' fs' ∧
      (readings c ≤ readings c')%nat.

Lemma moves_add s p q cap J J' :
  1 ≤ q →
  (∀ m fs, J m fs → (∀ x t, opposite_of s m !! x = Some t → 0 < t) →
    (0 < room m)%nat ∧ J' (take_order s p q m) (fs ++ trade_list s p q (opposite_of s m))) →
  moves cap q (add max_orders rdtsc s p q) J J'.
Proof.
  intros Hq HJ v c m fs [Hc (free & Hrep) Hn Ht] Hm Hv.
  assert (∀ x t, opposite_of s m !! x = Some t → 0 < t) as Hpos.
  { intros x t. rewrite <-(rep_opposite max_orders s _ _ _ Hrep). apply quantities_positive.
    apply priority_positive, (ok_sides _ _ _ (rep_ok _ _ _ _ Hrep)). }
  destruct (HJ m fs Hm Hpos) as [Hroom HJ'].
  destruct (submit_ok max_orders rdtsc s p q cap v c ltac:(lia) Hc Hv) as (a & c' & Hs & Hok & Hread & _).
  destruct free as [|slot free]; [apply rep_room in Hrep; simpl in Hrep; lia|].
  destruct Hc as [_ Hvol Htr _].
  destruct (take_refines max_orders rdtsc s p q Limit (book c) slot free m (env c) Hrep
    ltac:(done) ltac:(lia) ltac:(lia) ltac:(lia) ltac:(lia))
    as (ob' & free' & w' & gs & Hadd & Hstep & Hrep' & Htrades).
  unfold submit in Hs. rewrite Hadd, bind_ret_l in Hs. injection Hs as <- <-.
  assert (gs = trade_list s p q (opposite_of s m)) as ->.
  { apply trades_of_iff. inversion Hstep; subst; [done|lia]. }
  unfold add, submit. rewrite Hadd, !bind_ret_l. do 3 eexists. split; [done|]. split; [|split; [exact HJ'|exact Hread]].
  split; [done|by eexists| |by rewrite <-Ht].
  destruct s; simpl; lia.
Qed.

Lemma moves_seq cap q1 q2 f g J1 J2 J3 :
  0 ≤ q2 → moves cap q1 f J1 J2 → moves cap q2 g J2 J3 →
  moves cap (q1 + q2) (λ c, c' ← f c; g c') J1 J3.
Proof.
  intros Hq2 Hf Hg v c m fs Hc HJ Hv.
  destruct (Hf v c m fs Hc HJ ltac:(lia)) as (c1 & m1 & fs1 & -> & H1 & HJ1 & R1).
  rewrite bind_ret_l. rewrite Z.add_assoc in *.
  destruct (Hg _ c1 m1 fs1 H1 HJ1 Hv) as (c2 & m2 & fs2 & H2 & H3 & H4 & R2).
  exists c2, m2, fs2. split_and!; [done..|lia].
Qed.

Lemma moves_for cap q n body (J : nat → assertion) i k :
  0 ≤ q → (∀ j, (k ≤ j < k + n)%nat → moves cap q (body (i + Z.of_nat (j - k))) (J j) (J (S j))) →
  moves cap (q * Z.of_nat n) (for_loop n i body) (J k) (J (k + n)%nat).
Proof.
  intros Hq. revert i k. induction n as [|n IH]; intros i k Hbody v c m fs Hc HJ Hv.
  { exists c, m, fs. rewrite Z.mul_0_r, Z.add_0_r, Nat.add_0_r. done. }
  cbn [for_loop].
  destruct (Hbody k ltac:(lia) v c m fs Hc HJ ltac:(lia)) as (c1 & m1 & fs1 & Hb & H1 & HJ1 & R1).
  replace (i + Z.of_nat (k - k)) with i in Hb by lia. rewrite Hb, bind_ret_l.
  destruct (IH (i + 1) (S k)) with (v := v + q) (c := c1) (m := m1) (fs := fs1)
    as (c2 & m2 & fs2 & H2 & Hs2 & HJ2 & R2); [|done|done|lia|].
  { intros j Hj. specialize (Hbody j ltac:(lia)).
    by replace (i + 1 + Z.of_nat (j - S k)) with (i + Z.of_nat (j - k)) by lia. }
  exists c2, m2, fs2. split; [done|].
  replace (v + q * Z.of_nat (S n)) with (v + q + q * Z.of_nat n) by lia.
  replace (k + S n)%nat with (S k + n)%nat by lia. split_and!; [done..|lia].
Qed.

Lemma shows_env cap v c m fs w ls :
  shows cap v c m fs → reported w = reported (env c) → Z.of_nat (length ls) ≤ cap →
  shows cap v (mkBench (book c) (order_ids c) ls (draws c) w) m fs.
Proof.
  intros [[Hb Hv Ht Hl] Hrep Hn Htr] Hw Hls.
  split; [|done..|]; [split; simpl; rewrite ?Hw; done|]. unfold trades in *. simpl. by rewrite Hw.
Qed.

Lemma moves_timed sw cap q op J J' :
  steady_watch sw → moves cap q op J J' → moves cap q (timed rdtsc sw cap op) J J'.
Proof.
  intros Hsw Hop v c m fs Hc HJ Hv. unfold timed, TscClock_now.
  destruct (Hop v (mkBench (book c) (order_ids c) (latencies c) (draws c)
      (mkWorld (S (tsc_reads (env c))) (reported (env c)))) m fs)
    as (c1 & m1 & fs1 & -> & Hs1 & HJ1 & Hread); [|done|done|].
  { apply shows_env; [done|done|]. apply (bo_latencies _ _ _ _ (sh_ok _ _ _ _ _ Hc)). }
  unfold readings in *. simpl in Hread. rewrite bind_ret_l. cbv beta iota.
  destruct (record_elapsed_ok rdtsc clock_gettime sw cap (tsc_reads (env c)) (tsc_reads (env c1))
              (latencies c1) Hsw ltac:(lia) (bo_latencies _ _ _ _ (sh_ok _ _ _ _ _ Hs1)))
    as (ls & -> & Hls).
  rewrite bind_ret_l. do 3 eexists. split; [done|].
  split; [by apply shows_env|]. split; [exact HJ1|]. simpl. lia.
Qed.

Lemma moves_draw_add s price qty lo hi cap J J' :
  drawn_from lo hi qty → 1 ≤ lo →
  (∀ n q, lo ≤ q ≤ hi → moves cap q (add max_orders rdtsc s (price n) q) J J') →
  moves cap hi (draw_add max_orders rdtsc s price qty) J J'.
Proof.
  intros Hqty Hlo Hadd v c m fs Hc HJ Hv. pose proof (Hqty (draws c)) as Hd.
  destruct (Hadd (draws c) (qty (draws c)) Hd v
    (mkBench (book c) (order_ids c) (latencies c) (S (draws c)) (env c)) m fs)
    as (c' & m' & fs' & Ha & [Hok Hrep Hn Ht] & HJ' & Hread); [|done|lia|].
  { destruct Hc as [Hok Hrep Hn Ht]. split; [by apply redraw_ok|done..]. }
  exists c', m', fs'. split; [done|]. split; [|by split].
  split; [eapply bench_ok_weaken; [exact Hok|lia]|done|lia|done].
Qed.

Lemma moves_weaken cap q op (J1 J2 J3 J4 : assertion) :
  moves cap q op J2 J3 → (∀ m fs, J1 m fs → J2 m fs) → (∀ m fs, J3 m fs → J4 m fs) →
  moves cap q op J1 J4.
Proof.
  intros Hop H12 H34 v c m fs Hc HJ Hv.
  destruct (Hop v c m fs Hc (H12 _ _ HJ) Hv) as (c' & m' & fs' & H1 & H2 & H3 & H4).
  exists c', m', fs'. auto.
Qed.

(** An order that crosses nothing rests at its price. *)
Definition uncrossed (s : Side) (p : Z) (m : gmap Z Z) : Prop :=
  ∀ x t, m !! x = Some t → crosses s p x = false.

Lemma moves_rest s p q cap (J J' : assertion) :
  1 ≤ q →
  (∀ m fs, J m fs → uncrossed s p (opposite_of s m) ∧ (0 < room m)%nat ∧
    ∀ m', own_of s m' = <[p := default 0 (own_of s m !! p) + q]> (own_of s m) →
      opposite_of s m' = opposite_of s m → S (room m') = room m → J' m' fs) →
  moves cap q (add max_orders rdtsc s p q) J J'.
Proof.
  intros Hq HJ. apply moves_add; [done|]. intros m fs Hm Hpos.
  destruct (HJ m fs Hm) as (Hun & Hroom & HJ'). split; [done|].
  rewrite uncrossed_trade_list, app_nil_r by done.
  assert (unfilled s p q (opposite_of s m) = q) as Hr by (apply uncrossed_unfilled; [lia|done]).
  assert (after_trades s p q (opposite_of s m) = opposite_of s m) as Ha
    by by apply uncrossed_after_trades.
  assert (resting p q (own_of s m) = <[p := default 0 (own_of s m !! p) + q]> (own_of s m)) as Hrest.
  { unfold resting. destruct (Z.eqb_spec q 0); [lia|done]. }
  apply HJ'; unfold take_order; rewrite Hr.
  - by destruct s.
  - by destruct s.
  - destruct (Z.eqb_spec q 0); [lia|]. destruct s; simpl; lia.
Qed.

(** An order that is filled leaves its own side alone. *)
Lemma moves_fill s p q cap (J J' : assertion) :
  1 ≤ q →
  (∀ m fs, J m fs → (0 < room m)%nat ∧ unfilled s p q (opposite_of s m) = 0 ∧
    ∀ m', own_of s m' = own_of s m → opposite_of s m' = after_trades s p q (opposite_of s m) →
      room m' = room m → J' m' (fs ++ trade_list s p q (opposite_of s m))) →
  moves cap q (add max_orders rdtsc s p q) J J'.
Proof.
  intros Hq HJ. apply moves_add; [done|]. intros m fs Hm _.
  destruct (HJ m fs Hm) as (Hroom & Hun & HJ'). split; [done|].
  apply HJ'; unfold take_order; rewrite Hun; by destruct s.
Qed.

Lemma start_shows free0 cap :
  fifo_rep free0 [] → 0 ≤ cap → max_orders < 2 ^ 32 →
  ∃ c sw, start max_orders rdtsc clock_gettime free0 = Ok (c, sw) ∧ steady_watch sw ∧
    shows cap 0 c (open_market max_orders) [].
Proof.
  intros Hfree Hcap Hsize.
  destruct (start_ok max_orders rdtsc clock_gettime free0 cap Hfree Hcap) as (c & sw & Hs & Hsw & Hok).
  exists c, sw. split; [done|]. split; [done|].
  destruct (new_book_represents max_orders 1 free0 Hfree Hsize) as (ob & free & Hnew & Hrep & _).
  unfold start in Hs. rewrite Hnew, bind_ret_l in Hs.
  apply bind_Ok in Hs as (k & _ & Hs). injection Hs as <- <-.
  split; [done|by exists free|simpl; lia|done].
Qed.

Lemma start_cycles_shows free0 cap :
  fifo_rep free0 [] → 0 ≤ cap → max_orders < 2 ^ 32 →
  ∃ c sw, start_cycles max_orders free0 = Ok (c, sw) ∧ steady_watch sw ∧
    shows cap 0 c (open_market max_orders) [].
Proof.
  intros Hfree Hcap Hsize.
  destruct (start_cycles_ok max_orders free0 cap Hfree Hcap) as (c & sw & Hs & Hsw & Hok).
  exists c, sw. split; [done|]. split; [done|].
  destruct (new_book_represents max_orders 1 free0 Hfree Hsize) as (ob & free & Hnew & Hrep & _).
  unfold start_cycles in Hs. rewrite Hnew, bind_ret_l in Hs. injection Hs as <- <-.
  split; [done|by exists free|simpl; lia|done].
Qed.
End Logic.

(** ** Levels taken one by one *)
Definition all_positive (m : gmap Z Z) : Prop := ∀ x t, m !! x = Some t → 0 < t.

(** An order without quantity. *)
Lemma nothing_asked s p m :
  all_positive m →
  trade_list s p 0 m = [] ∧ after_trades s p 0 m = m ∧ unfilled s p 0 m = 0.
Proof.
  intros Hpos. split; [|split].
  - symmetry. apply trades_of_iff. split; [constructor|]. intros x f.
    rewrite allocation_zero by done. split; [by intros ?%elem_of_nil|lia].
  - apply map_eq. intros x. rewrite after_trades_lookup, allocation_zero by done.
    destruct (m !! x) as [t|] eqn:Hx; simpl; [|done]. specialize (Hpos x t Hx).
    rewrite Z.sub_0_r. case_Z; [lia|done].
  - unfold unfilled. pose proof (quantity_at_nonneg (crosses s p) m Hpos). lia.
Qed.

Section BestLevel.
Context (s : Side) (p x t : Z) (m : gmap Z Z).
Context (Hbest : ∀ y u, m !! y = Some u → better s x y = true).
Context (Ht : 0 < t) (Hcross : crosses s p x = true).

Lemma best_absent : m !! x = None.
Proof using Hbest.
  destruct (m !! x) as [u|] eqn:Hx; [|done]. apply Hbest in Hx. by rewrite better_irrefl in Hx.
Qed.

Lemma allocation_best q : t ≤ q → allocation s p q (<[x := t]> m) x = t.
Proof using Hbest Ht Hcross.
  intros Hq. unfold allocation. rewrite Hcross, lookup_insert_eq, quantity_at_insert by apply best_absent.
  rewrite better_irrefl, quantity_at_none; [simpl; lia|].
  intros y u Hy%Hbest. by apply better_asym.
Qed.

Lemma allocation_behind q y :
  y ≠ x → allocation s p q (<[x := t]> m) y = allocation s p (q - t) m y.
Proof using Hbest.
  intros Hne. unfold allocation. destruct (crosses s p y); [|done].
  rewrite lookup_insert_ne by done. destruct (m !! y) as [u|] eqn:Hy; simpl; [|lia].
  rewrite quantity_at_insert, (Hbest y u Hy) by apply best_absent. f_equal. f_equal. lia.
Qed.

(** The best level is taken whole, and the rest of the order goes on behind it. *)
Lemma best_level_first q :
  t ≤ q →
  trade_list s p q (<[x := t]> m) = (x, t) :: trade_list s p (q - t) m ∧
  after_trades s p q (<[x := t]> m) = after_trades s p (q - t) m ∧
  unfilled s p q (<[x := t]> m) = unfilled s p (q - t) m.
Proof using Hbest Ht Hcross.
  intros Hq. pose proof (allocation_best q Hq) as Hx. split; [|split].
  - symmetry. apply trades_of_iff.
    destruct (proj2 (trades_of_iff s p (q - t) m _) eq_refl) as [Hsort Hin].
    assert (∀ y f, (y, f) ∈ trade_list s p (q - t) m → is_Some (m !! y)) as Hdom.
    { intros y f [-> Hf]%Hin. unfold allocation in Hf. destruct (crosses s p y); [|lia].
      destruct (m !! y); [done|simpl in Hf; lia]. }
    split.
    + constructor; [done|]. apply Forall_forall. intros [y f] Hy.
      destruct (Hdom y f Hy) as [u Hu]. by apply (Hbest y u).
    + intros y f. rewrite elem_of_cons. destruct (decide (y = x)) as [->|Hne].
      * rewrite Hx. split; [|naive_solver]. intros [[= ->]|Hy]; [done|].
        destruct (Hdom x f Hy) as [u Hu]. by rewrite best_absent in Hu.
      * rewrite allocation_behind, <-Hin by done. naive_solver.
  - apply map_eq. intros y. rewrite !after_trades_lookup. destruct (decide (y = x)) as [->|Hne].
    + rewrite lookup_insert_eq, best_absent. simpl. rewrite Hx, Z.sub_diag. done.
    + by rewrite lookup_insert_ne, allocation_behind by done.
  - unfold unfilled. rewrite quantity_at_insert, Hcross by apply best_absent. lia.
Qed.
End BestLevel.
End BookBenchLogic.
