(* ===== verification/BookBenchCycles.v ===== *)
(** * Two benchmarks that come back to where they were

    An iteration of the sequential additions leaves one more bid and one more ask than it
    found, an iteration of the match-scaling benchmark ten deeper levels: what they trade
    is the same each time. *)
From S2P Require Import Prelude TscClock Latency Fifo PriceLadder OrderBook Matching BookInvariant Engine BookSpec BookBench BookBenchSafety BookBenchLogic.

Module BookBenchCycles.
Import Book Matching BookInv Engine Market Latency BookBench BookBenchSafety BookBenchLogic.

(** The same trades in every iteration. *)
Fixpoint each_time (k : nat) (fs : list (Z * Z)) : list (Z * Z) :=
  match k with O => [] | S k => each_time k fs ++ fs end.

(** ** A thousand orders of a rising price, buys and sells in turn *)

(** The first [n] trades of an iteration: every buy but the first takes the sell before it. *)
Definition pair_fills (n : nat) : list (Z * Z) := (λ j, (10001 + 2 * j, 100)) <$> seqZ 0 (Z.of_nat n).

Lemma pair_fills_S n : pair_fills (S n) = pair_fills n ++ [(10001 + 2 * Z.of_nat n, 100)].
Proof.
  unfold pair_fills. replace (Z.of_nat (S n)) with (Z.of_nat n + 1) by lia.
  by rewrite seqZ_app, fmap_app by lia.
Qed.

(** What [k] iterations have left at a price. *)
Definition left_at (x : Z) (k : nat) : gmap Z Z :=
  match k with O => ∅ | S _ => {[x := 100 * Z.of_nat k]} end.

Lemma left_at_Some x k y t : left_at x k !! y = Some t → y = x ∧ 0 < t.
Proof. destruct k; simpl; [done|]. intros [<- <-]%lookup_singleton_Some. lia. Qed.

Lemma left_at_add x k : <[x := default 0 (left_at x k !! x) + 100]> (left_at x k) = left_at x (S k).
Proof.
  destruct k as [|k]; cbn [left_at]; [by rewrite lookup_empty|].
  rewrite lookup_singleton_eq, insert_singleton_eq. simpl.
  by replace (100 * Z.of_nat (S k) + 100) with (100 * Z.of_nat (S (S k))) by lia.
Qed.

(** ** Selling into the top levels of a ladder *)

(** The first levels of the ladder, [n] of them, from the best. *)
Definition top_fills (n : nat) : list (Z * Z) := (λ j, (10000 - j, 100)) <$> seqZ 0 (Z.of_nat n).

(** The bids while [i] orders of the [k]-th refill are laid: [n] levels of 100 down from
    10000, and ten below that have grown with every refill before. *)
Definition refilled (n k i : nat) (x : Z) : option Z :=
  let j := 10000 - x in
  if j <? 0 then None
  else if j <? Z.of_nat n then if j <? Z.of_nat i then Some 100 else None
  else if j <? Z.of_nat (n + 10) then
    let grown := if j <? Z.of_nat i then S k else k in
    match grown with O => None | S _ => Some (100 * Z.of_nat grown) end
  else None.

(** The ladder with its best levels gone down to the [j]-th. *)
Definition from_level (j : Z) (f : Z → option Z) (x : Z) : option Z :=
  if x <=? 10000 - j then f x else None.

Ltac ladder_cases :=
  case_Z; try (exfalso; lia); try done;
  try match goal with |- context [match ?k with O => _ | S _ => _ end] => destruct k end;
  try done; try (f_equal; lia); try (intros [= <-]; lia); try lia.

Lemma top_levels n k d m :
  (d ≤ n)%nat → (∀ x, m !! x = from_level (Z.of_nat (n - d)) (refilled n k (n + 10)) x) →
  trade_list Sell (10000 - Z.of_nat n) (100 * Z.of_nat d) m =
    ((λ j, (10000 - j, 100)) <$> seqZ (Z.of_nat (n - d)) (Z.of_nat d)) ∧
  (∀ x, after_trades Sell (10000 - Z.of_nat n) (100 * Z.of_nat d) m !! x = refilled n (S k) 0 x) ∧
  unfilled Sell (10000 - Z.of_nat n) (100 * Z.of_nat d) m = 0.
Proof.
  revert m. induction d as [|d IH]; intros m Hd Hm.
  - assert (all_positive m) as Hpos.
    { intros x t. rewrite Hm. unfold from_level, refilled. ladder_cases. }
    destruct (nothing_asked Sell (10000 - Z.of_nat n) m Hpos) as (Ht & Ha & Hu).
    rewrite Z.mul_0_r. split; [done|]. split; [|done]. intros x. rewrite Ha, Hm.
    unfold from_level, refilled. ladder_cases.
  - set (x0 := 10000 - Z.of_nat (n - S d)). set (m' := delete x0 m).
    assert (m !! x0 = Some 100) as Hx0.
    { rewrite Hm. unfold from_level, refilled, x0. ladder_cases. }
    assert (∀ y, m' !! y = from_level (Z.of_nat (n - d)) (refilled n k (n + 10)) y) as Hm'.
    { intros y. unfold m'. destruct (decide (y = x0)) as [->|Hne].
      - rewrite lookup_delete_eq. unfold from_level, x0. ladder_cases.
      - rewrite lookup_delete_ne, Hm by done. unfold from_level, x0 in *. ladder_cases. }
    destruct (IH m' ltac:(lia) Hm') as (Ht & Ha & Hu).
    assert (m = <[x0 := 100]> m') as Heq by (unfold m'; by rewrite insert_delete_id).
    rewrite Heq. clearbody m'. clear Heq Hm Hx0.
    destruct (best_level_first Sell (10000 - Z.of_nat n) x0 100 m') with (q := 100 * Z.of_nat (S d))
      as (Ht' & Ha' & Hu').
    + intros y u. rewrite Hm'. unfold from_level, x0. simpl. ladder_cases.
    + lia.
    + unfold x0. simpl. ladder_cases.
    + lia.
    + replace (100 * Z.of_nat (S d) - 100) with (100 * Z.of_nat d) in * by lia.
      rewrite Ht', Ha', Hu', Ht. split; [|done].
      replace (Z.of_nat (S d)) with (1 + Z.of_nat d) by lia. rewrite seqZ_app by lia. simpl.
      unfold x0. f_equal. f_equal. f_equal. lia.
Qed.

Section Cycles.
Context {Q : Type} `{FifoSpec Z Q} (max_orders : Z) {Hpow : PowerOfTwo max_orders}.
Context (rdtsc : nat → Z) (clock_gettime : nat → Clock.timespec).
Context {Hhost : Clock.HostClocks rdtsc clock_gettime}.

Abbreviation moves := (moves max_orders).
Abbreviation place := (add max_orders rdtsc).
Abbreviation slots := (slots max_orders).

(** *** The sequential additions *)

(** Before an iteration; after a buy, which has taken the [h]-th sell; after a sell. *)
Definition fresh (k : nat) : assertion := λ m fs,
  bids m = left_at 10000 k ∧ asks m = left_at 10999 k ∧ (room m + 501 * k = slots)%nat ∧
  fs = each_time k (pair_fills 499).
Definition bought (k h : nat) : assertion := λ m fs,
  bids m = left_at 10000 (S k) ∧ asks m = left_at 10999 k ∧
  (room m + (501 * k + (h + 1)) = slots)%nat ∧ fs = each_time k (pair_fills 499) ++ pair_fills h.
Definition sold (k h : nat) : assertion := λ m fs,
  let x := 10001 + 2 * Z.of_nat h in
  bids m = left_at 10000 (S k) ∧
  asks m = <[x := default 0 (left_at 10999 k !! x) + 100]> (left_at 10999 k) ∧
  (room m + (501 * k + (h + 2)) = slots)%nat ∧ fs = each_time k (pair_fills 499) ++ pair_fills h.

Definition in_pairs (k i : nat) : assertion :=
  match i with
  | O => fresh k
  | S j => if Nat.even j then bought k (j / 2) else sold k (j / 2)
  end.

Lemma first_buy k cap :
  (501 * k < slots)%nat → moves cap 100 (place Buy 10000 100) (fresh k) (bought k 0).
Proof using Hpow Hhost.
  intros Hroom. apply (moves_rest max_orders rdtsc); [done|]. intros m fs (Hb & Ha & Hr & ->).
  split; [|split; [lia|]].
  - intros x t Hx. simpl in Hx. rewrite Ha in Hx. by apply left_at_Some in Hx as [-> _].
  - simpl. intros m' Hb' Ha' Hr'. rewrite Hb, left_at_add in Hb'.
    split_and!; [done|congruence|lia|by rewrite app_nil_r].
Qed.

Lemma sell_rests k h cap :
  (501 * k + (h + 1) < slots)%nat →
  moves cap 100 (place Sell (10001 + 2 * Z.of_nat h) 100) (bought k h) (sold k h).
Proof using Hpow Hhost.
  intros Hroom. apply (moves_rest max_orders rdtsc); [done|]. intros m fs (Hb & Ha & Hr & ->).
  split; [|split; [lia|]].
  - intros x t Hx. cbn [opposite_of] in Hx. rewrite Hb in Hx. apply left_at_Some in Hx as [-> _].
    simpl. case_Z; [done|lia].
  - cbn [own_of opposite_of]. intros m' Ha' Hb' Hr'. rewrite Ha in Ha'.
    split_and!; [congruence|done|lia|done].
Qed.

Lemma buy_takes k h cap :
  (501 * k + (h + 2) < slots)%nat → (h < 499)%nat →
  moves cap 100 (place Buy (10002 + 2 * Z.of_nat h) 100) (sold k h) (bought k (S h)).
Proof using Hpow Hhost.
  intros Hroom Hh. apply (moves_fill max_orders rdtsc); [done|]. intros m fs (Hb & Ha & Hr & ->).
  cbn [own_of opposite_of]. set (x := 10001 + 2 * Z.of_nat h) in *. set (p := 10002 + 2 * Z.of_nat h).
  assert (left_at 10999 k !! x = None) as Hx.
  { destruct (_ !! _) eqn:Hx; [|done]. apply left_at_Some in Hx as [? _]. unfold x in *. lia. }
  rewrite Hx in Ha. change (default 0 None + 100) with 100 in Ha. rewrite Ha.
  destruct (best_level_first Buy p x 100 (left_at 10999 k)) with (q := 100) as (Ht & Haf & Hu).
  - intros y u Hy. apply left_at_Some in Hy as [-> _]. simpl. unfold x. case_Z; [done|lia].
  - done.
  - simpl. unfold x, p. case_Z; [lia|done].
  - done.
  - destruct (nothing_asked Buy p (left_at 10999 k)) as (Ht0 & Ha0 & Hu0).
    { intros y u Hy. by apply left_at_Some in Hy as [_ ?]. }
    change (100 - 100) with 0 in *. rewrite Ht, Haf, Hu, Ht0, Ha0, Hu0.
    split; [lia|]. split; [done|]. intros m' Hb' Ha' Hr'.
    split_and!; [congruence|done|lia|]. by rewrite (pair_fills_S h), app_assoc.
Qed.

Lemma pairs_step sw k i :
  steady_watch sw → (501 * S k < slots)%nat → (i < 1000)%nat →
  moves 1000000 100
    (timed rdtsc sw 1000000
      (place (if Z.rem (Z.of_nat i) 2 =? 0 then Buy else Sell) (10000 + Z.of_nat i) 100))
    (in_pairs k i) (in_pairs k (S i)).
Proof using Hpow Hhost.
  intros Hsw Hroom Hi. apply (moves_timed max_orders rdtsc clock_gettime); [done|].
  rewrite Z.rem_mod_nonneg by lia.
  destruct i as [|j]; [apply first_buy; lia|].
  pose proof (Nat.div_mod j 2 ltac:(lia)) as Hj. cbn [in_pairs]. rewrite Nat.even_succ, <-Nat.negb_even.
  destruct (Nat.even j) eqn:He; cbn [negb].
  - apply Nat.even_spec in He as [h ->]. rewrite Nat.mul_comm, Nat.div_mul by lia.
    replace (S (h * 2) / 2)%nat with h by (apply (Nat.div_unique _ _ _ 1); lia).
    rewrite <-(Zmod_unique (Z.of_nat (S (h * 2))) 2 (Z.of_nat h) 1) by lia.
    replace (10000 + Z.of_nat (S (h * 2))) with (10001 + 2 * Z.of_nat h) by lia.
    apply sell_rests. lia.
  - rewrite <-Nat.negb_odd in He. apply negb_false_iff, Nat.odd_spec in He as [h ->].
    replace ((2 * h + 1) / 2)%nat with h by (apply (Nat.div_unique _ _ _ 1); lia).
    replace (S (2 * h + 1) / 2)%nat with (S h) by (apply (Nat.div_unique _ _ _ 0); lia).
    rewrite <-(Zmod_unique (Z.of_nat (S (2 * h + 1))) 2 (Z.of_nat (S h)) 0) by lia.
    replace (10000 + Z.of_nat (S (2 * h + 1))) with (10002 + 2 * Z.of_nat h) by lia.
    apply buy_takes; lia.
Qed.

Lemma pairs_loop sw k :
  steady_watch sw → (501 * k < slots)%nat →
  moves 1000000 (100000 * Z.of_nat k)
    (for_loop k 0 (λ _, for_loop 1000 0 (λ i,
       timed rdtsc sw 1000000 (place (if Z.rem i 2 =? 0 then Buy else Sell) (10000 + i) 100))))
    (fresh 0) (fresh k).
Proof using Hpow Hhost.
  intros Hsw Hroom. apply (moves_for _ _ 100000 k _ fresh 0 0); [done|]. intros j Hj.
  eapply moves_weaken; [apply (moves_for _ _ 100 1000 _ (in_pairs j) 0 0); [done|]|done|].
  - intros i Hi. rewrite Z.add_0_l, Nat.sub_0_r. apply pairs_step; [done|lia|lia].
  - intros m fs (Hb & Ha & Hr & ->). change (999 / 2)%nat with 499%nat in *.
    change (10001 + 2 * Z.of_nat 499) with 10999 in Ha. rewrite left_at_add in Ha.
    split_and!; [done|done|lia|done].
Qed.

(** *** Match scaling *)
Definition refilling (n k i : nat) : assertion := λ m fs,
  (∀ x, bids m !! x = refilled n k i x) ∧ asks m = ∅ ∧
  (room m + ((n + 10) * k + i) = slots)%nat ∧ fs = each_time k (top_fills n).

Lemma refill n k cap :
  ((n + 10) * S k ≤ slots)%nat →
  moves cap (100 * Z.of_nat (n + 10)) (for_loop (n + 10) 0 (λ i, place Buy (10000 - i) 100))
    (refilling n k 0) (refilling n k (n + 10)).
Proof using Hpow Hhost.
  intros Hroom. apply (moves_for _ _ 100 (n + 10) _ (refilling n k) 0 0); [done|]. intros i Hi.
  rewrite Z.add_0_l, Nat.sub_0_r.
  apply (moves_rest max_orders rdtsc); [done|]. intros m fs (Hb & Ha & Hr & ->).
  split; [intros x t; simpl; by rewrite Ha|]. split; [lia|].
  cbn [own_of opposite_of]. intros m' Hb' Ha' Hr'. split_and!; [|congruence|lia|done].
  intros x. rewrite Hb', Hb. destruct (decide (x = 10000 - Z.of_nat i)) as [->|Hne].
  - rewrite lookup_insert_eq. unfold refilled. case_Z; try (exfalso; lia); [done|].
    destruct k; simpl; f_equal; lia.
  - rewrite lookup_insert_ne, Hb by done. unfold refilled. case_Z; done || lia.
Qed.

Lemma sell_top n k cap :
  (0 < n)%nat → ((n + 10) * S k < slots)%nat →
  moves cap (100 * Z.of_nat n) (place Sell (10000 - Z.of_nat n) (100 * Z.of_nat n))
    (refilling n k (n + 10)) (refilling n (S k) 0).
Proof using Hpow Hhost.
  intros Hn Hroom. apply (moves_fill max_orders rdtsc); [lia|]. intros m fs (Hb & Ha & Hr & ->).
  cbn [own_of opposite_of].
  destruct (top_levels n k n (bids m)) as (Ht & Haf & Hu); [done| |].
  { intros x. rewrite Hb, Nat.sub_diag. unfold from_level, refilled. case_Z; done || lia. }
  split; [lia|]. split; [done|]. intros m' Ha' Hb' Hr'.
  split_and!; [intros x; by rewrite Hb', Haf|congruence|lia|].
  rewrite Ht, Nat.sub_diag. done.
Qed.

Lemma scaling_loop sw n k :
  steady_watch sw → (0 < n)%nat → ((n + 10) * S k < slots)%nat →
  moves 1000 ((100 * Z.of_nat n + 100 * Z.of_nat (n + 10)) * Z.of_nat k)
    (for_loop k 0 (λ _ c,
      c ← timed rdtsc sw 1000 (place Sell (10000 - Z.of_nat n) (100 * Z.of_nat n)) c;
      for_loop (n + 10) 0 (λ i, place Buy (10000 - i) 100) c))
    (refilling n 0 (n + 10)) (refilling n k (n + 10)).
Proof using Hpow Hhost.
  intros Hsw Hn Hroom.
  apply (moves_for _ _ _ k _ (λ j, refilling n j (n + 10)) 0 0); [lia|]. intros j Hj.
  apply (moves_seq _ _ _ _ _ _ _ (refilling n (S j) 0)); [lia| |apply refill; nia].
  apply (moves_timed max_orders rdtsc clock_gettime); [done|]. apply sell_top; [done|nia].
Qed.

(** A new book is at the start of both. *)
Lemma fresh_start : fresh 0 (open_market max_orders) [].
Proof using. split_and!; [done|done|apply Nat.add_0_r|done]. Qed.

Lemma refilling_start n : refilling n 0 0 (open_market max_orders) [].
Proof using.
  split_and!; [|done| |done].
  - intros x. simpl. rewrite lookup_empty. unfold refilled. case_Z; done || lia.
  - rewrite Nat.mul_0_r. apply Nat.add_0_r.
Qed.
End Cycles.
End BookBenchCycles.
