(* ===== verification/BookBenchTrades.v ===== *)
(** * What the benchmarks of the order book trade

    Some benchmarks say in their comments what the order they measure will match.  Run on
    the abstract market, their loops have closed forms: exactly which trades happen, and how
    many slots of the pool are gone at the end. *)
From S2P Require Import Prelude TscClock Latency Fifo SpscQueue PriceLadder OrderBook Matching BookInvariant Engine BookSpec BookBench BookBenchSafety BookBenchLogic BookBenchCycles.

Module BookBenchTrades.
Import Book Matching BookInv Engine Market Latency BookBench BookBenchSafety BookBenchLogic BookBenchCycles.

(** ** Ladders laid out by a loop *)
Fixpoint stack (price : Z → Z) (n : nat) : gmap Z Z :=
  match n with O => ∅ | S n => <[price (Z.of_nat n) := 100]> (stack price n) end.

Lemma stack_lookup price n x t :
  stack price n !! x = Some t → ∃ j, 0 ≤ j < Z.of_nat n ∧ x = price j.
Proof.
  induction n as [|n IH]; simpl; [done|].
  intros [[<- _]|[_ Hx]]%lookup_insert_Some; [exists (Z.of_nat n); split; [lia|done]|].
  destruct (IH Hx) as (j & ? & ?). exists j. split; [lia|done].
Qed.

Lemma stack_fresh price n :
  (∀ i j, price i = price j → i = j) → stack price n !! price (Z.of_nat n) = None.
Proof.
  intros Hinj. destruct (_ !! _) eqn:Hx; [|done].
  apply stack_lookup in Hx as (j & ? & Hj%Hinj). lia.
Qed.

Section Workloads.
Context {Q : Type} `{FifoSpec Z Q} (max_orders : Z) {Hpow : PowerOfTwo max_orders}.
Context (rdtsc : nat → Z) (clock_gettime : nat → Clock.timespec).
Context {Hhost : Clock.HostClocks rdtsc clock_gettime}.

Abbreviation moves := (moves max_orders).
Abbreviation slots := (BookBenchLogic.slots max_orders).
Abbreviation place := (add max_orders rdtsc).

(** Two stacks of resting orders, and no trade yet. *)
Definition laid (pb ps : Z → Z) (nb ns : nat) : assertion := λ m fs,
  bids m = stack pb nb ∧ asks m = stack ps ns ∧ (room m + (nb + ns) = slots)%nat ∧ fs = [].

Section Populate.
Context (pb ps : Z → Z) (cap : Z).
Context (Hpb : ∀ i j, pb i = pb j → i = j) (Hps : ∀ i j, ps i = ps j → i = j).

Lemma lay_sell nb ns :
  (∀ i, 0 ≤ i → pb i < ps (Z.of_nat ns)) → (nb + ns < slots)%nat →
  moves cap 100 (place Sell (ps (Z.of_nat ns)) 100) (laid pb ps nb ns) (laid pb ps nb (S ns)).
Proof using Hps Hpow.
  intros Hlt Hroom. apply (moves_rest max_orders rdtsc); [done|]. intros m fs (Hb & Ha & Hr & ->).
  split; [|split; [lia|]].
  - intros x t Hx. simpl in Hx. rewrite Hb in Hx. apply stack_lookup in Hx as (j & Hj & ->).
    simpl. specialize (Hlt j ltac:(lia)). lia.
  - simpl. intros m' Ha' Hb' Hr'. rewrite Ha, stack_fresh in Ha' by done.
    split_and!; [congruence|by rewrite Ha'|lia|done].
Qed.

Lemma lay_buy nb ns :
  (∀ j, 0 ≤ j → pb (Z.of_nat nb) < ps j) → (nb + ns < slots)%nat →
  moves cap 100 (place Buy (pb (Z.of_nat nb)) 100) (laid pb ps nb ns) (laid pb ps (S nb) ns).
Proof using Hpb Hpow.
  intros Hlt Hroom. apply (moves_rest max_orders rdtsc); [done|]. intros m fs (Hb & Ha & Hr & ->).
  split; [|split; [lia|]].
  - intros x t Hx. simpl in Hx. rewrite Ha in Hx. apply stack_lookup in Hx as (j & Hj & ->).
    simpl. specialize (Hlt j ltac:(lia)). lia.
  - simpl. intros m' Hb' Ha' Hr'. rewrite Hb, stack_fresh in Hb' by done.
    split_and!; [done|congruence|lia|done].
Qed.

Lemma populate_lays n :
  (∀ i j, 0 ≤ i → 0 ≤ j → pb i < ps j) → (n + n ≤ slots)%nat →
  moves cap (200 * Z.of_nat n)
    (for_loop n 0 (λ i c, c ← place Buy (pb i) 100 c; place Sell (ps i) 100 c))
    (laid pb ps 0 0) (laid pb ps n n).
Proof using Hpb Hps Hpow.
  intros Hlt Hroom. apply (moves_for _ _ 200 n _ (λ j, laid pb ps j j) 0 0); [done|].
  intros j Hj. rewrite Z.add_0_l, Nat.sub_0_r.
  apply (moves_seq _ _ 100 100 _ _ _ (laid pb ps (S j) j)); [done|apply lay_buy|apply lay_sell];
    intros; try apply Hlt; lia.
Qed.
End Populate.

(** *** Buying below every ask *)
Definition quiet (price : nat → Z) (used : nat) : assertion := λ m fs,
  (∀ n x t, asks m !! x = Some t → price n < x) ∧ (room m + used = slots)%nat ∧ fs = [].

Lemma quiet_buy price n q cap used :
  1 ≤ q → (used < slots)%nat →
  moves cap q (place Buy (price n) q) (quiet price used) (quiet price (S used)).
Proof using Hpow.
  intros Hq Hroom. apply (moves_rest max_orders rdtsc); [done|]. intros m fs (Ha & Hr & ->).
  split; [|split; [lia|]].
  - intros x t Hx. specialize (Ha n x t Hx). simpl. lia.
  - simpl. intros m' _ Ha' Hr'. split_and!; [by rewrite Ha'|lia|done].
Qed.

Lemma quiet_loop sw price cap q k used op :
  0 ≤ q → steady_watch sw → (used + k ≤ slots)%nat →
  (∀ u, (u < slots)%nat → moves cap q op (quiet price u) (quiet price (S u))) →
  moves cap (q * Z.of_nat k) (for_loop k 0 (λ _, timed rdtsc sw cap op))
    (quiet price used) (quiet price (used + k)).
Proof using Hhost.
  intros Hq Hsw Hroom Hop.
  replace (quiet price used) with (quiet price (used + 0)) by by rewrite Nat.add_0_r.
  apply (moves_for _ _ q k _ (λ j, quiet price (used + j)) 0 0); [done|].
  intros j Hj. rewrite Nat.add_succ_r. apply (moves_timed max_orders rdtsc clock_gettime); [done|]. apply Hop. lia.
Qed.

(** *** Selling into the bids, level by level *)

(** The order of each iteration trades the fills [F (S i)] adds to [F i] with the bids
    [B i], and [U] counts the slots used. *)
Section Sells.
Context (p q : Z) (B : nat → gmap Z Z) (F : nat → list (Z * Z)) (U : nat → nat).

Definition selling (i : nat) : assertion := λ m fs,
  bids m = B i ∧ (room m + U i = slots)%nat ∧ fs = F i.

Definition sells (i : nat) : Prop :=
  F (S i) = F i ++ trade_list Sell p q (B i) ∧ B (S i) = after_trades Sell p q (B i) ∧
  U (S i) = if unfilled Sell p q (B i) =? 0 then U i else S (U i).

Lemma sell_loop sw cap k :
  1 ≤ q → steady_watch sw → (∀ i, sells i) → (∀ i, (i < k)%nat → (U i < slots)%nat) →
  moves cap (q * Z.of_nat k) (for_loop k 0 (λ _, timed rdtsc sw cap (place Sell p q)))
    (selling 0) (selling k).
Proof using Hhost Hpow.
  intros Hq Hsw Hsells Hroom. apply (moves_for _ _ q k _ selling 0 0); [lia|].
  intros j Hj. apply (moves_timed max_orders rdtsc clock_gettime); [done|]. apply (moves_add max_orders rdtsc); [done|].
  intros m fs (Hb & Hr & ->) _. specialize (Hroom j ltac:(lia)).
  destruct (Hsells j) as (HF & HB & HU). split; [lia|]. unfold selling, take_order. simpl.
  rewrite Hb, HF, HB, HU. split_and!; [done| |done]. case_Z; lia.
Qed.
End Sells.
End Workloads.

(** *** The multi-level match: fifteen levels, then five, then none *)
Definition level_fills (n : nat) : list (Z * Z) := (λ i, (10000 - i * 10, 100)) <$> seqZ 0 (Z.of_nat n).

Definition multi_bids (i : nat) : gmap Z Z :=
  match i with
  | O => stack (λ i, 10000 - i * 10) 20
  | 1%nat => after_trades Sell 9500 1500 (stack (λ i, 10000 - i * 10) 20)
  | _ => ∅
  end.
Definition multi_fills (i : nat) : list (Z * Z) :=
  match i with O => [] | 1%nat => level_fills 15 | _ => level_fills 20 end.
Definition multi_slots (i : nat) : nat := 40 + (i - 1).

Lemma multi_sells i : sells 9500 1500 multi_bids multi_fills multi_slots i.
Proof.
  unfold sells. destruct i as [|[|i]]; [by vm_compute..|].
  cbn [multi_bids multi_fills]. unfold multi_slots. split; [by vm_compute|]. split; [by vm_compute|].
  change (unfilled Sell 9500 1500 ∅ =? 0) with false. cbv iota. lia.
Qed.

(** *** The matching benchmark: one level in each of the first fifty iterations *)
Definition matching_bids (i : nat) : gmap Z Z := stack (λ j, 9510 + j * 10) (50 - i).
Definition matching_fills (i : nat) : list (Z * Z) := take i (level_fills 50).
Definition matching_slots (i : nat) : nat := 100 + (i - 50).

Lemma matching_sells i : sells 9500 100 matching_bids matching_fills matching_slots i.
Proof.
  destruct (decide (i < 50)%nat) as [Hi|Hi].
  - assert (Forall (λ i, sells 9500 100 matching_bids matching_fills matching_slots i) (seq 0 50)) as Hall.
    { unfold sells. apply (bool_decide_unpack _). by vm_compute. }
    rewrite Forall_forall in Hall. apply Hall, elem_of_seq. lia.
  - unfold sells, matching_bids, matching_fills, matching_slots.
    replace (50 - S i)%nat with 0%nat by lia. replace (50 - i)%nat with 0%nat by lia. cbn [stack].
    assert (length (level_fills 50) = 50%nat) as Hl by by vm_compute.
    rewrite !(take_ge (level_fills 50)) by lia. split; [by vm_compute|]. split; [by vm_compute|].
    change (unfilled Sell 9500 100 ∅ =? 0) with false. cbv iota. lia.
Qed.

Lemma matching_start : stack (λ i, 10000 - i * 10) 50 = matching_bids 0.
Proof. by vm_compute. Qed.

(** *** The market order that crosses the whole book *)
Definition worst_asks (i : nat) : gmap Z Z := stack (λ j, 10001 + j) i.
Definition worst_fills : list (Z * Z) := (λ i, (10001 + i, 100)) <$> seqZ 0 100.

Lemma worst_sweep :
  trade_list Buy 10500 10000 (worst_asks 100) = worst_fills ∧
  after_trades Buy 10500 10000 (worst_asks 100) = ∅ ∧
  unfilled Buy 10500 10000 (worst_asks 100) = 0.
Proof. split_and!; by vm_compute. Qed.

(** ** The benchmarks with a closed form

    All but the two whose prices are drawn on both sides of the book.  The harness registers
    the match-scaling benchmark for one level and more. *)
Definition settled (b : workload) : Prop :=
  match b with
  | DeepLadderInsert | MultiLevelMatch | MarketOrderWorstCase | AddOrderNoMatch _ _
  | WithMatching | SequentialAdds | AddScaling _ _ => True
  | MatchScaling n => (0 < n)%nat
  | OrderChurn _ _ | WorkloadMix _ _ _ _ => False
  end.

Definition expected_trades (b : workload) (k : nat) : list (Z * Z) :=
  match b with
  | MultiLevelMatch => multi_fills k
  | WithMatching => matching_fills k
  | MarketOrderWorstCase => each_time k worst_fills
  | SequentialAdds => each_time k (pair_fills 499)
  | MatchScaling n => each_time k (top_fills n)
  | _ => []
  end.

Definition slots_used (b : workload) (k : nat) : nat :=
  match b with
  | DeepLadderInsert => 500 + 500 + k
  | MultiLevelMatch => multi_slots k
  | MarketOrderWorstCase => 100 * k
  | WithMatching => matching_slots k
  | SequentialAdds => 501 * k
  | AddScaling _ n => n + n + k
  | MatchScaling n => (n + 10) * S k
  | _ => k
  end.

Section Main.
Context {Q : Type} `{FifoSpec Z Q} (max_orders : Z) {Hpow : PowerOfTwo max_orders}.
Context (rdtsc : nat → Z) (clock_gettime : nat → Clock.timespec).
Context {Hhost : Clock.HostClocks rdtsc clock_gettime} (Hsize : max_orders < 2 ^ 32).

Abbreviation moves := (moves max_orders).
Abbreviation place := (add max_orders rdtsc).
Abbreviation slots := (BookBenchLogic.slots max_orders).

(** One iteration of the worst case. *)
Definition worst (i : nat) : assertion := λ m fs,
  bids m = ∅ ∧ asks m = ∅ ∧ (room m + 100 * i = slots)%nat ∧ fs = each_time i worst_fills.

Definition worst_filling (i j : nat) : assertion := λ m fs,
  bids m = ∅ ∧ asks m = worst_asks j ∧ (room m + (100 * i + j) = slots)%nat ∧
  fs = each_time i worst_fills.

Lemma worst_iteration sw i :
  steady_watch sw → (100 * S i < slots)%nat →
  moves 1000 20000
    (λ c, c ← for_loop 100 0 (λ i, place Sell (10001 + i) 100) c;
          timed rdtsc sw 1000 (place Buy 10500 10000) c) (worst i) (worst (S i)).
Proof using Hhost Hpow.
  intros Hsw Hroom.
  apply (moves_seq _ _ 10000 10000 _ _ _ (worst_filling i 100)); [done| |apply (moves_timed max_orders rdtsc clock_gettime); [done|]].
  - eapply moves_weaken; [|..|by intros m fs Hm; exact Hm].
    + apply (moves_for _ _ 100 100 _ (worst_filling i) 0 0); [done|]. intros j Hj.
      rewrite Z.add_0_l, Nat.sub_0_r.
      apply (moves_rest max_orders rdtsc); [done|]. intros m fs (Hb & Ha & Hr & ->).
      split; [intros x t; simpl; by rewrite Hb|]. split; [lia|].
      simpl. intros m' Ha' Hb' Hr'. split_and!; [congruence| |lia|done].
      rewrite Ha', Ha. unfold worst_asks. rewrite (stack_fresh (λ j, 10001 + j)) by lia. done.
    + intros m fs (Hb & Ha & Hr & ->). split_and!; [done|done|lia|done].
  - destruct worst_sweep as (Htrades & Hafter & Hfull).
    apply (moves_fill max_orders rdtsc); [done|]. intros m fs (Hb & Ha & Hr & ->).
    simpl. rewrite Ha, Htrades, Hafter, Hfull. split; [lia|]. split; [done|].
    intros m' Hb' Ha' Hr'. split_and!; [congruence|done|lia|done].
Qed.

Lemma worst_loop sw k :
  steady_watch sw → (100 * k < slots)%nat →
  moves 1000 (20000 * Z.of_nat k)
    (for_loop k 0 (λ _ c, c ← for_loop 100 0 (λ i, place Sell (10001 + i) 100) c;
          timed rdtsc sw 1000 (place Buy 10500 10000) c)) (worst 0) (worst k).
Proof using Hhost Hpow.
  intros Hsw Hroom. apply (moves_for _ _ 20000 k _ worst 0 0); [done|]. intros j Hj.
  apply worst_iteration; [done|lia].
Qed.

(** What is left at the end. *)
Definition ends (e : list (Z * Z)) (used : nat) (c : bench Q) : Prop :=
  trades (env c) = e ∧
  ∃ free, fifo_rep (free_list_ (book c)) free ∧ (length free + used = slots)%nat.

Lemma shows_ends cap v c m e used :
  shows max_orders cap v c m e → (room m + used = slots)%nat → ends e used c.
Proof using.
  intros [_ (free & Hrep) _ Ht] Hr. split; [done|]. exists free.
  split; [apply (ok_free _ _ _ (rep_ok _ _ _ _ Hrep))|]. by rewrite (rep_room _ _ _ _ Hrep).
Qed.

Lemma finish_moves cap q op (J J' : assertion) qs wm c0 e used :
  shows max_orders cap 0 c0 (open_market max_orders) [] → J (open_market max_orders) [] →
  moves cap q op J J' → (∀ m fs, J' m fs → (room m + used = slots)%nat ∧ fs = e) →
  q < 2 ^ 32 → Forall fraction qs →
  ∃ c xs, (c ← op c0; report qs wm c) = Ok (c, xs) ∧ ends e used c.
Proof using.
  intros Hc HJ Hop Hend Hq Hqs.
  destruct (Hop 0 c0 _ [] Hc HJ Hq) as (c & m & fs & -> & Hsh & HJ' & _). rewrite bind_ret_l.
  destruct (counters_ok (latencies c) qs wm Hqs) as [xs Hxs]. exists c, xs.
  unfold report. rewrite Hxs, bind_ret_l. split; [done|].
  destruct (Hend m fs HJ') as [Hr ->]. by eapply shows_ends.
Qed.

Lemma finish2_moves cap q1 q2 f g (J1 J2 J2' J3 : assertion) qs wm c0 e used :
  shows max_orders cap 0 c0 (open_market max_orders) [] → J1 (open_market max_orders) [] →
  moves cap q1 f J1 J2 → (∀ m fs, J2 m fs → J2' m fs) → moves cap q2 g J2' J3 →
  (∀ m fs, J3 m fs → (room m + used = slots)%nat ∧ fs = e) →
  0 ≤ q2 → q1 + q2 < 2 ^ 32 → Forall fraction qs →
  ∃ c xs, (c ← f c0; c ← g c; report qs wm c) = Ok (c, xs) ∧ ends e used c.
Proof using.
  intros Hc HJ Hf H2 Hg Hend Hq2 Hq Hqs.
  destruct (finish_moves cap (q1 + q2) (λ c, c' ← f c; g c') J1 J3 qs wm c0 e used)
    as (c & xs & Hr & Hok); try done.
  - apply (moves_seq _ _ _ _ _ _ _ J2); [done|done|]. by eapply moves_weaken.
  - exists c, xs. split; [|done]. revert Hr. by destruct (f c0).
Qed.


Abbreviation trades_as b k free0 :=
  (∃ c xs, run_workload max_orders rdtsc clock_gettime b k free0 = Ok (c, xs) ∧
    ends (expected_trades b k) (slots_used b k) c).

Lemma laid_open pb ps : laid max_orders pb ps 0 0 (open_market max_orders) [].
Proof using. by split_and!. Qed.

(** Ladders around 10000 keep the asks above every price that is bought at. *)
Lemma laid_quiet price n m fs :
  (∀ i, price i ≤ 10000) →
  laid max_orders (λ i, 10000 - i) (λ i, 10001 + i) n n m fs →
  quiet max_orders price (n + n) m fs.
Proof using.
  intros Hp (_ & Ha & Hr & ->). split_and!; [|done|done]. intros i x t Hx. rewrite Ha in Hx.
  apply stack_lookup in Hx as (j & ? & ->). specialize (Hp i). lia.
Qed.

Ltac calibrated cap :=
  match goal with Hf : fifo_rep ?f [] |- _ =>
    let c := fresh "c" in let sw := fresh "sw" in
    destruct (start_shows max_orders rdtsc clock_gettime f cap Hf ltac:(lia) Hsize)
      as (c & sw & Hs & Hsw & Hc);
    cbn [run_workload]
  end.

Ltac finished := repeat (constructor; [split; simpl; lia|]); constructor.

(** A ladder is laid out, then nothing but buying below it. *)
Lemma quiet_trades price op n k c0 sw qs wm :
  shows max_orders 10000 0 c0 (open_market max_orders) [] → steady_watch sw →
  (∀ i, price i ≤ 10000) →
  (∀ u, (u < slots)%nat → moves 10000 50 op (quiet max_orders price u) (quiet max_orders price (S u))) →
  200 * Z.of_nat n + 50 * Z.of_nat k < 2 ^ 32 → (n + n + k < slots)%nat → Forall fraction qs →
  ∃ c xs, (c ← for_loop n 0 (λ i c, c ← place Buy (10000 - i) 100 c; place Sell (10001 + i) 100 c) c0;
           c ← for_loop k 0 (λ _, timed rdtsc sw 10000 op) c; report qs wm c) = Ok (c, xs) ∧
    ends [] (n + n + k) c.
Proof using Hhost Hpow.
  intros Hc Hsw Hp Hop Hq Hr Hqs.
  eapply (finish2_moves 10000 (200 * Z.of_nat n) (50 * Z.of_nat k));
    [exact Hc|apply laid_open|
     apply (populate_lays _ _ (λ i, 10000 - i) (λ i, 10001 + i)); intros; lia| | | |lia|lia|done].
  - intros m fs. by apply (laid_quiet price).
  - apply (quiet_loop max_orders rdtsc clock_gettime _ price _ _ _ (n + n)); [lia|done|lia|done].
  - intros m fs (_ & ? & ->). done.
Qed.

Lemma deep_ladder_trades k free0 :
  fifo_rep free0 [] → submits DeepLadderInsert (Z.of_nat k) < 2 ^ 32 → (500 + 500 + k < slots)%nat →
  trades_as DeepLadderInsert k free0.
Proof using Hhost Hpow Hsize.
  cbn [submits]. intros Hf Hk Hr. calibrated 10000. unfold realistic_deep_ladder_insert.
  rewrite Hs, bind_ret_l.
  apply (quiet_trades (λ _, 9900)); [done|done|lia| |lia|exact Hr|finished].
  intros u Hu. by apply (quiet_buy max_orders rdtsc (λ _, 9900) 0).
Qed.

Lemma add_scaling_trades rand n k free0 :
  fifo_rep free0 [] → submits (AddScaling rand n) (Z.of_nat k) < 2 ^ 32 → (n + n + k < slots)%nat →
  trades_as (AddScaling rand n) k free0.
Proof using Hhost Hpow Hsize.
  cbn [submits]. intros Hf Hk Hr.
  destruct (start_cycles_shows max_orders free0 10000 Hf ltac:(lia) Hsize) as (c & sw & Hs & Hsw & Hc).
  cbn [run_workload]. unfold profile_orderbook_add_scaling. rewrite Hs, bind_ret_l.
  set (price i := 9900 + Z.rem (rand i) 100).
  apply (quiet_trades price); [done|done| | |lia|exact Hr|finished].
  { intros i. pose proof (Z.rem_bound_abs (rand i) 100 ltac:(lia)). unfold price. lia. }
  intros u Hu. apply (moves_draw_add _ _ _ _ _ 50 50); [done|lia|]. intros i q Hq.
  apply (quiet_buy max_orders rdtsc); [lia|done].
Qed.

Lemma no_match_trades price qty k free0 :
  fifo_rep free0 [] → drawn_from 10 1000 qty → submits (AddOrderNoMatch price qty) (Z.of_nat k) < 2 ^ 32 →
  (k < slots)%nat → trades_as (AddOrderNoMatch price qty) k free0.
Proof using Hhost Hpow Hsize.
  simpl. intros Hf Hqty Hk Hr. calibrated 100000. unfold orderbook_add_order_no_match.
  rewrite Hs, bind_ret_l.
  eapply (finish_moves 100000 (1000 * Z.of_nat k)); [exact Hc| | | |lia|finished].
  2:{ apply (quiet_loop max_orders rdtsc clock_gettime _ price _ _ _ 0); [lia|done|lia|]. intros u Hu.
      apply (moves_draw_add _ _ _ _ _ 10 1000); [done|lia|]. intros i q Hq. apply (quiet_buy max_orders rdtsc); [lia|done]. }
  - split_and!; [done|apply Nat.add_0_r|done].
  - intros m fs (_ & ? & ->). done.
Qed.

Lemma multi_level_trades k free0 :
  fifo_rep free0 [] → submits MultiLevelMatch (Z.of_nat k) < 2 ^ 32 → (multi_slots k < slots)%nat →
  trades_as MultiLevelMatch k free0.
Proof using Hhost Hpow Hsize.
  simpl. unfold multi_slots. intros Hf Hk Hr. calibrated 10000. unfold realistic_multi_level_match.
  rewrite Hs, bind_ret_l.
  eapply (finish2_moves 10000 (200 * Z.of_nat 20) (1500 * Z.of_nat k));
    [exact Hc|apply laid_open|
     apply (populate_lays _ _ (λ i, 10000 - i * 10) (λ i, 10001 + i * 10)); intros; lia| | | |lia|lia|finished].
  2:{ apply (sell_loop max_orders rdtsc clock_gettime 9500 1500 multi_bids multi_fills multi_slots); [lia|done|apply multi_sells|].
      unfold multi_slots. lia. }
  - intros m fs (Hb & _ & Hr' & ->). split_and!; [done|done|done].
  - intros m fs (_ & ? & ->). done.
Qed.

Lemma with_matching_trades k free0 :
  fifo_rep free0 [] → submits WithMatching (Z.of_nat k) < 2 ^ 32 → (matching_slots k < slots)%nat →
  trades_as WithMatching k free0.
Proof using Hhost Hpow Hsize.
  simpl. unfold matching_slots. intros Hf Hk Hr. calibrated 100000. unfold orderbook_with_matching.
  rewrite Hs, bind_ret_l.
  eapply (finish2_moves 100000 (200 * Z.of_nat 50) (100 * Z.of_nat k));
    [exact Hc|apply laid_open|
     apply (populate_lays _ _ (λ i, 10000 - i * 10) (λ i, 10100 + i * 10)); intros; lia| | | |lia|lia|finished].
  2:{ apply (sell_loop max_orders rdtsc clock_gettime 9500 100 matching_bids matching_fills matching_slots);
        [lia|done|apply matching_sells|]. unfold matching_slots. lia. }
  - intros m fs (Hb & _ & Hr' & ->). split_and!; [by rewrite <-matching_start|done|done].
  - intros m fs (_ & ? & ->). done.
Qed.

Lemma worst_case_trades k free0 :
  fifo_rep free0 [] → submits MarketOrderWorstCase (Z.of_nat k) < 2 ^ 32 → (100 * k < slots)%nat →
  trades_as MarketOrderWorstCase k free0.
Proof using Hhost Hpow Hsize.
  cbn [submits]. intros Hf Hk Hr. calibrated 1000. unfold realistic_market_order_worst_case.
  rewrite Hs, bind_ret_l.
  eapply (finish_moves 1000 (20000 * Z.of_nat k)); [exact Hc| |by apply worst_loop| |lia|finished].
  - split_and!; [done|done|apply Nat.add_0_r|done].
  - intros m fs (_ & _ & ? & ->). done.
Qed.

Lemma sequential_trades k free0 :
  fifo_rep free0 [] → submits SequentialAdds (Z.of_nat k) < 2 ^ 32 → (501 * k < slots)%nat →
  trades_as SequentialAdds k free0.
Proof using Hhost Hpow Hsize.
  cbn [submits]. intros Hf Hk Hr. calibrated 1000000. unfold orderbook_sequential_adds.
  rewrite Hs, bind_ret_l.
  eapply (finish_moves 1000000 (100000 * Z.of_nat k));
    [exact Hc|apply (fresh_start max_orders)|by apply (pairs_loop max_orders rdtsc clock_gettime)| |lia|finished].
  intros m fs (_ & _ & ? & ->). done.
Qed.

Lemma match_scaling_trades n k free0 :
  fifo_rep free0 [] → (0 < n)%nat → submits (MatchScaling n) (Z.of_nat k) < 2 ^ 32 →
  ((n + 10) * S k < slots)%nat → trades_as (MatchScaling n) k free0.
Proof using Hhost Hpow Hsize.
  cbn [submits]. intros Hf Hn Hk Hr.
  destruct (start_cycles_shows max_orders free0 1000 Hf ltac:(lia) Hsize) as (c & sw & Hs & Hsw & Hc).
  cbn [run_workload]. unfold profile_orderbook_match_scaling. rewrite Hs, bind_ret_l.
  eapply (finish2_moves 1000 (100 * Z.of_nat (n + 10))
    ((100 * Z.of_nat n + 100 * Z.of_nat (n + 10)) * Z.of_nat k));
    [exact Hc|apply (refilling_start max_orders n)
    |apply (refill max_orders rdtsc clock_gettime); nia|intros m fs Hm; exact Hm
    |by apply (scaling_loop max_orders rdtsc clock_gettime)| |lia|lia|finished].
  intros m fs (_ & _ & Hr' & ->). cbn [slots_used]. split; [lia|done].
Qed.

(** C12: what eight of the ten benchmarks of the order book trade, exactly: all but the order
    churn and the workload mix, whose trades depend on the draws.  The conditions: what is
    submitted stays below 2^32 ([submits]), the pool has a slot for every order that rests
    ([slots_used]) and is smaller than 2^32, drawn quantities are within their bounds, the
    match scaling is for at least one level, and the counter and the clock are those
    of [Clock.HostClocks].  Then the insertions into the deep ladder and the additions
    without a match trade nothing; the worst case trades its hundred levels in every
    iteration, best price first, and empties the book; the sequential additions trade 499
    pairs and the match scaling its levels in every iteration; the multi-level match takes
    fifteen levels only in its first iteration, five in its second and none after, and the
    matching benchmark trades in its first fifty of 100000.  The slots of resting orders
    are never given back, not even to an empty book: the worst case uses up a hundred in
    every iteration. *)
Theorem benchmarks_trade_exactly (b : workload) (k : nat) (free0 : Q)
    (Hfree : fifo_rep free0 []) (Hsettled : settled b) (Hdraws : draws_ok b)
    (Hsmall : submits b (Z.of_nat k) < 2 ^ 32) (Hroom : (slots_used b k < slots)%nat) :
  ∃ c xs free, run_workload max_orders rdtsc clock_gettime b k free0 = Ok (c, xs) ∧
    trades (env c) = expected_trades b k ∧
    fifo_rep (free_list_ (book c)) free ∧ (length free + slots_used b k = slots)%nat.
Proof using Hhost Hpow Hsize.
  cut (∃ c xs, run_workload max_orders rdtsc clock_gettime b k free0 = Ok (c, xs) ∧
    ends (expected_trades b k) (slots_used b k) c).
  { intros (c & xs & Hr & Ht & free & Hf & Hl). by exists c, xs, free. }
  destruct b; try done; simpl in Hroom.
  - by apply deep_ladder_trades.
  - by apply multi_level_trades.
  - by apply worst_case_trades.
  - by apply no_match_trades.
  - by apply with_matching_trades.
  - by apply sequential_trades.
  - by apply add_scaling_trades.
  - by apply match_scaling_trades.
Qed.
End Main.

(** Two hundred iterations of the matching benchmark, with 1023 slots: fifty trades, and 250
    slots used. *)
Import Spsc.
#[local] Existing Instance Clock.demo_host.
#[local] Instance wide_capacity : CapacityOk 1024.
Proof. by repeat split. Qed.
Definition wide_queue : SpscQueue Z := SpscQueue_new (replicate 1024 0).

Lemma wide_queue_ok : spsc_rep 1024 wide_queue [].
Proof. by apply (spsc_rep_new 1024). Qed.

Lemma benchmarks_trade_exactly_witness :
  ∃ c xs free, run_workload (H:=spsc_fifo_ops 1024) 1024 Clock.demo_rdtsc Clock.demo_clock
      WithMatching 200 wide_queue = Ok (c, xs) ∧
    trades (env c) = level_fills 50 ∧
    spsc_rep 1024 (free_list_ (book c)) free ∧ (length free + 250 = 1023)%nat.
Proof.
  exact (benchmarks_trade_exactly (H0:=spsc_fifo_spec 1024) 1024 Clock.demo_rdtsc Clock.demo_clock
           eq_refl WithMatching 200 wide_queue wide_queue_ok I I eq_refl
           (proj1 (Nat.ltb_lt 250 1023) eq_refl)).
Defined.
End BookBenchTrades.
