(* ===== verification/QueueBench.v ===== *)
(** * The benchmarks of the queues

    1_orderbook/bench/bench_spsc.cpp and the queue workload of bench_profiling.cpp, against
    the interface of a bounded queue; [mpsc_single_producer] and [mpsc_multi_producer] of
    bench_mpsc.cpp are in MpscBench.  What the benchmarks pop they throw away; the model
    keeps it, to state what it is. *)
From S2P Require Import Prelude Binary64 TscClock Latency Fifo SpscQueue.

Module QueueBench.
Import Latency.

Section Bench.
Context {Q : Type} `{FifoOps Z Q}.
Context (rdtsc : nat → Z) (clock_gettime : nat → Clock.timespec).

(** The queue and the locals of a benchmark. *)
Record qbench := mkQBench {
  queue : Q;
  latencies : list Z;
  ops : Z;                   (* uint64_t *)
  seen : list Z;             (* what was popped, in order *)
  reads : nat                (* of the time-stamp counter *)
}.

(** [while (q.pop()) {}] *)
Fixpoint drain (fuel : nat) (c : qbench) : outcome qbench :=
  match fuel with
  | O => Fault Diverges
  | S fuel =>
      '(val, q) ← fifo_pop (queue c);
      match val with
      | None => Ok (mkQBench q (latencies c) (ops c) (seen c) (reads c))
      | Some x => drain fuel (mkQBench q (latencies c) (ops c) (seen c ++ [x]) (reads c))
      end
  end.

Definition spsc_push_pop_ping_pong (k : nat) (q0 : Q) : outcome (qbench * list Z) :=
  clk ← Clock.calibrate rdtsc clock_gettime (Clock.mkClock Clock.initial_ticks 0 0);
  c ← for_loop k 0 (λ _ c,
        let tsc_start := rdtsc (reads c) in
        '(_, q1) ← fifo_push tsc_start (queue c);
        '(val, q2) ← fifo_pop q1;
        let tsc_end := rdtsc (S (reads c)) in
        ls ← match val with
             | Some _ => record_latency (Clock.ticks_per_ns_ clk) 100000 tsc_start tsc_end (latencies c)
             | None => Ok (latencies c)
             end;
        Ok (mkQBench q2 ls (ops c) (seen c ++ option_list val) (S (S (reads c)))))
      (mkQBench q0 [] 0 [] (Clock.tsc_reads clk));
  xs ← percentiles (sort (latencies c)) [(1, 2); (95, 100); (99, 100); (999, 1000)];
  Ok (c, xs).

(** Without timing; the fuel of the drain is more than a queue of [capacity] can hold. *)
Definition spsc_throughput_push_only (capacity k : nat) (q0 : Q) : outcome qbench :=
  for_loop k 0 (λ _ c,
    c ← for_loop (Z.to_nat 10000) 0 (λ i c,
          '(_, q) ← fifo_push i (queue c);
          Ok (mkQBench q (latencies c) (ops c) (seen c) (reads c))) c;
    drain (S capacity) c) (mkQBench q0 [] 0 [] 0).

Definition spsc_throughput_sustained (capacity k : nat) (q0 : Q) : outcome (qbench * list Z) :=
  clk ← Clock.calibrate rdtsc clock_gettime (Clock.mkClock Clock.initial_ticks 0 0);
  c ← for_loop k 0 (λ _ c,
        c ← for_loop 1000 0 (λ i c,
              let tsc_start := rdtsc (reads c) in
              '(_, q) ← fifo_push i (queue c);
              let tsc_end := rdtsc (S (reads c)) in
              ls ← record_latency (Clock.ticks_per_ns_ clk) 1000000 tsc_start tsc_end (latencies c);
              Ok (mkQBench q ls (u64 (ops c + 1)) (seen c) (S (S (reads c))))) c;
        drain (S capacity) c)
      (mkQBench q0 [] 0 [] (Clock.tsc_reads clk));
  xs ← counters (latencies c) [(1, 2); (99, 100)] true;
  Ok (c, xs).

(** In cycles; the throughput counter is [ops]. *)
Definition profile_spsc_throughput (k : nat) (q0 : Q) : outcome (qbench * list Z) :=
  c ← for_loop k 0 (λ _, for_loop 100 0 (λ i c,
        let tsc_start := rdtsc (reads c) in
        '(_, q1) ← fifo_push i (queue c);
        '(val, q2) ← fifo_pop q1;
        let tsc_end := rdtsc (S (reads c)) in
        Ok (mkQBench q2 (keep_latency 100000 (latencies c) (u64 (tsc_end - tsc_start)))
              (u64 (ops c + 1)) (seen c ++ option_list val) (S (S (reads c))))))
      (mkQBench q0 [] 0 [] 0);
  xs ← counters (latencies c) [(1, 2); (95, 100); (99, 100); (999, 1000)] true;
  Ok (c, xs).
End Bench.
Arguments qbench : clear implicits.

Section Facts.
Context {Q : Type} `{FifoSpec Z Q}.
Context (rdtsc : nat → Z) (clock_gettime : nat → Clock.timespec).

(** [k] times the items [0 .. n - 1]. *)
Fixpoint rounds (n : Z) (k : nat) : list Z :=
  match k with O => [] | S k => rounds n k ++ seqZ 0 n end.

Lemma seqZ_snoc (i : Z) : 0 ≤ i → seqZ 0 (i + 1) = seqZ 0 i ++ [i].
Proof. intros. rewrite seqZ_app by lia. by rewrite Z.add_0_l. Qed.

Lemma drain_pops_all fuel (c : qbench Q) l :
  fifo_rep (queue c) l → (length l < fuel)%nat →
  ∃ q, drain fuel c = Ok (mkQBench q (latencies c) (ops c) (seen c ++ l) (reads c)) ∧ fifo_rep q [].
Proof.
  revert c l. induction fuel as [|fuel IH]; intros c l Hq Hl; [lia|]. cbn [drain].
  destruct l as [|x l].
  - rewrite (fifo_pop_nil _ Hq), bind_ret_l. exists (queue c). by rewrite app_nil_r.
  - destruct (fifo_pop_cons _ _ _ Hq) as (q & -> & Hq'). rewrite bind_ret_l. simpl in Hl.
    destruct (IH (mkQBench q (latencies c) (ops c) (seen c ++ [x]) (reads c)) l Hq' ltac:(lia))
      as (q' & -> & Hq''). exists q'. simpl. by rewrite <-app_assoc.
Qed.

(** A push and a pop on an empty queue give back the item. *)
Lemma push_pop (q : Q) x :
  fifo_rep q [] → (0 < fifo_room)%nat →
  ∃ q1 q2, fifo_push x q = Ok (true, q1) ∧ fifo_pop q1 = Ok (Some x, q2) ∧ fifo_rep q2 [].
Proof.
  intros Hq Hroom. destruct (fifo_push_room q [] x Hq Hroom) as (q1 & H1 & Hq1).
  destruct (fifo_pop_cons q1 x [] Hq1) as (q2 & H2 & Hq2). eauto 10.
Qed.

(** Between rounds: the queue is empty, [s] was popped and [o] operations were counted. *)
Record between (cap : Z) (s : list Z) (o : Z) (c : qbench Q) : Prop := {
  bt_empty : fifo_rep (queue c) [];
  bt_seen : seen c = s;
  bt_ops : ops c = o;
  bt_latencies : Z.of_nat (length (latencies c)) ≤ cap
}.

(** Rounds that push [n] items and then drain the queue. *)
Lemma push_then_drain cap push (n o : Z) count capacity k (c0 : qbench Q) :
  0 ≤ n ≤ Z.of_nat fifo_room → n ≤ Z.of_nat capacity → between cap [] 0 c0 →
  (∀ i c l, 0 ≤ i < n → fifo_rep (queue c) l → (length l < fifo_room)%nat →
    Z.of_nat (length (latencies c)) ≤ cap → 0 ≤ ops c → ops c + count < 2 ^ 64 →
    ∃ q ls r, push i c = Ok (mkQBench q ls (ops c + count) (seen c) r) ∧ fifo_rep q (l ++ [i]) ∧
      Z.of_nat (length ls) ≤ cap) →
  0 ≤ count ≤ 1 → n * Z.of_nat k < 2 ^ 64 →
  ∃ c, for_loop k 0 (λ _ c, c ← for_loop (Z.to_nat n) 0 push c; drain (S capacity) c) c0 = Ok c ∧
    between cap (rounds n k) (count * n * Z.of_nat k) c.
Proof.
  intros Hn Hcap H0k Hpush Hc Hk.
  destruct (for_loop_invariant (λ j, between cap (rounds n (Z.to_nat j)) (count * n * j)) k 0
    (λ _ c, c ← for_loop (Z.to_nat n) 0 push c; drain (S capacity) c) c0)
    as (c & Hr & Hb).
  - by rewrite Z.mul_0_r.
  - intros j c Hj [He Hs Ho Hl].
    destruct (for_loop_invariant (λ i c, fifo_rep (queue c) (seqZ 0 i) ∧
        seen c = rounds n (Z.to_nat j) ∧ ops c = count * n * j + count * i ∧
        Z.of_nat (length (latencies c)) ≤ cap) (Z.to_nat n) 0 push c)
      as (c1 & -> & Hq & Hs1 & Ho1 & Hl1).
    + split_and!; [done|done|lia|done].
    + intros i c2 Hi (Hq2 & Hs2 & Ho2 & Hl2).
      assert (n * (j + 1) ≤ n * Z.of_nat k) by (apply Z.mul_le_mono_nonneg_l; lia).
      assert (0 ≤ n * j) by (apply Z.mul_nonneg_nonneg; lia).
      assert (0 ≤ ops c2 ∧ ops c2 + count < 2 ^ 64) as [Hlo Hhi].
      { rewrite Ho2. assert (count = 0 ∨ count = 1) as [-> | ->] by lia; lia. }
      destruct (Hpush i c2 _ ltac:(lia) Hq2) as (q & ls & r & -> & Hq3 & Hl3);
        [rewrite length_seqZ; lia|done|done|done|].
      eexists. split; [done|]. simpl. rewrite seqZ_snoc by lia.
      split_and!; [done|done|lia|done].
    + rewrite Z2Nat.id, Z.add_0_l in * by lia. rewrite bind_ret_l.
      destruct (drain_pops_all (S capacity) c1 _ Hq) as (q & -> & Hq'); [rewrite length_seqZ; lia|].
      eexists. split; [done|]. replace (Z.to_nat (j + 1)) with (S (Z.to_nat j)) by lia.
      split; simpl; [done|by rewrite Hs1|lia|done].
  - exists c. rewrite Z.add_0_l, Nat2Z.id in Hb. done.
Qed.

(** The readings of the counter the ping-pong sends through the queue. *)
Definition stamps (k : nat) : list Z := (λ i, rdtsc (2 + 2 * i)%nat) <$> seq 0 k.

Lemma stamps_S k : stamps (S k) = stamps k ++ [rdtsc (2 + 2 * k)%nat].
Proof. unfold stamps. by rewrite seq_S, fmap_app. Qed.

Section Calibrated.
Context {Hhost : Clock.HostClocks rdtsc clock_gettime} (q0 : Q).
Context (Hq0 : fifo_rep q0 []) (Hroom : 10000 ≤ Z.of_nat fifo_room).

Lemma ping_pong_returns k :
  (0 < k)%nat →
  ∃ c xs, spsc_push_pop_ping_pong rdtsc clock_gettime k q0 = Ok (c, xs) ∧
    fifo_rep (queue c) [] ∧ seen c = stamps k ∧
    Z.of_nat (length (latencies c)) = Z.min (Z.of_nat k) 100000.
Proof using Hhost Hq0 Hroom.
  intros Hk. destruct Clock.host_calibrates as (ticks & Hticks & Hclk).
  unfold spsc_push_pop_ping_pong. rewrite Hclk, bind_ret_l. cbn [Clock.ticks_per_ns_ Clock.tsc_reads].
  match goal with |- context [for_loop k 0 ?b ?c0] =>
    destruct (for_loop_invariant (λ j (c : qbench Q), fifo_rep (queue c) [] ∧
      seen c = stamps (Z.to_nat j) ∧ reads c = (2 + 2 * Z.to_nat j)%nat ∧
      Z.of_nat (length (latencies c)) = Z.min j 100000) k 0 b c0) as (c & -> & Hq & Hs & _ & Hl)
  end.
  - by split_and!.
  - intros j c Hj (Hq & Hs & Hr & Hl).
    destruct (push_pop (queue c) (rdtsc (reads c)) Hq ltac:(lia)) as (q1 & q2 & -> & H2 & Hq2).
    rewrite bind_ret_l, H2, bind_ret_l.
    destruct (record_latency_keeps rdtsc clock_gettime ticks 100000 (reads c) (S (reads c))
                (latencies c) Hticks ltac:(lia)) as [ns ->]. rewrite !bind_ret_l.
    eexists. split; [done|]. simpl.
    replace (Z.to_nat (j + 1)) with (S (Z.to_nat j)) by lia.
    rewrite stamps_S, Hs, Hr. split_and!; [done|done|lia|].
    unfold keep_latency. case_Z; [rewrite length_app; simpl|]; lia.
  - rewrite Z.add_0_l, ?Nat2Z.id in *. rewrite bind_ret_l.
    destruct (percentiles_ok (latencies c) [(1, 2); (95, 100); (99, 100); (999, 1000)])
      as [xs ->]; [repeat (constructor; [split; simpl; lia|]); constructor| |].
    { intros Hnil. rewrite Hnil in Hl. simpl in Hl. lia. }
    exists c, xs. done.
Qed.

Lemma push_only_returns capacity k :
  10000 ≤ Z.of_nat capacity → 10000 * Z.of_nat k < 2 ^ 64 →
  ∃ c, spsc_throughput_push_only capacity k q0 = Ok c ∧ fifo_rep (queue c) [] ∧
    seen c = rounds 10000 k.
Proof using Hq0 Hroom.
  intros Hcap Hk. unfold spsc_throughput_push_only.
  destruct (push_then_drain 0 (λ i (c : qbench Q),
      '(_, q) ← fifo_push i (queue c); Ok (mkQBench q (latencies c) (ops c) (seen c) (reads c)))
    10000 0 0 capacity k (mkQBench q0 [] 0 [] 0)) as (c & -> & [Hq Hs _ _]); try lia.
  - by split.
  - intros i c l _ Hq Hl Hls _ _. destruct (fifo_push_room _ _ i Hq Hl) as (q & -> & Hq').
    rewrite bind_ret_l, Z.add_0_r. by exists q, (latencies c), (reads c).
  - by exists c.
Qed.

Lemma sustained_returns capacity k :
  1000 ≤ Z.of_nat capacity → 1000 * Z.of_nat k < 2 ^ 64 →
  ∃ c xs, spsc_throughput_sustained rdtsc clock_gettime capacity k q0 = Ok (c, xs) ∧
    fifo_rep (queue c) [] ∧ seen c = rounds 1000 k ∧ ops c = 1000 * Z.of_nat k.
Proof using Hhost Hq0 Hroom.
  intros Hcap Hk. destruct Clock.host_calibrates as (ticks & Hticks & Hclk).
  unfold spsc_throughput_sustained. rewrite Hclk, bind_ret_l. cbn [Clock.ticks_per_ns_ Clock.tsc_reads].
  match goal with |- context [for_loop 1000 0 ?push] =>
    destruct (push_then_drain 1000000 push 1000 1 1 capacity k (mkQBench q0 [] 0 [] 2))
      as (c & Hc & [Hq Hs Ho _]); try lia
  end.
  - by split.
  - intros i c l _ Hq Hl Hls Ho Hlt. destruct (fifo_push_room _ _ i Hq Hl) as (q & -> & Hq').
    rewrite bind_ret_l.
    destruct (record_latency_ok rdtsc clock_gettime ticks 1000000 (reads c) (S (reads c)) _ Hticks ltac:(lia) Hls)
      as (ls & -> & Hls'). rewrite bind_ret_l, wrap_small by lia. eauto 10.
  - change (Z.to_nat 1000) with 1000%nat in Hc. rewrite Hc, bind_ret_l.
    destruct (counters_ok (latencies c) [(1, 2); (99, 100)] true) as [xs ->];
      [repeat (constructor; [split; simpl; lia|]); constructor|].
    exists c, xs. split_and!; [done|done|done|lia].
Qed.

Lemma profile_returns k :
  100 * Z.of_nat k < 2 ^ 64 →
  ∃ c xs, profile_spsc_throughput rdtsc k q0 = Ok (c, xs) ∧ fifo_rep (queue c) [] ∧
    seen c = rounds 100 k ∧ ops c = 100 * Z.of_nat k.
Proof using Hq0 Hroom.
  intros Hk. unfold profile_spsc_throughput.
  match goal with |- context [for_loop k 0 ?b ?c0] =>
    destruct (for_loop_invariant (λ j (c : qbench Q), fifo_rep (queue c) [] ∧
      seen c = rounds 100 (Z.to_nat j) ∧ ops c = 100 * j) k 0 b c0) as (c & -> & Hq & Hs & Ho)
  end.
  - by split_and!.
  - intros j c Hj (Hq & Hs & Ho).
    match goal with |- context [for_loop 100 0 ?b c] =>
      destruct (for_loop_invariant (λ i (c : qbench Q), fifo_rep (queue c) [] ∧
        seen c = rounds 100 (Z.to_nat j) ++ seqZ 0 i ∧ ops c = 100 * j + i) 100 0 b c)
        as (c1 & -> & Hq1 & Hs1 & Ho1)
    end.
    + rewrite app_nil_r. split_and!; [done|done|lia].
    + intros i c2 Hi (Hq2 & Hs2 & Ho2).
      destruct (push_pop (queue c2) i Hq2 ltac:(lia)) as (q1 & q2 & -> & H2 & Hq3).
      rewrite bind_ret_l, H2, bind_ret_l. eexists. split; [done|]. simpl.
      rewrite seqZ_snoc, Hs2, Ho2, wrap_small, app_assoc by lia. split_and!; [done|done|lia].
    + exists c1. split; [done|]. replace (Z.to_nat (j + 1)) with (S (Z.to_nat j)) by lia.
      split_and!; [done|done|lia].
  - rewrite Z.add_0_l, ?Nat2Z.id in *. rewrite bind_ret_l.
    destruct (counters_ok (latencies c) [(1, 2); (95, 100); (99, 100); (999, 1000)] true)
      as [xs ->]; [repeat (constructor; [split; simpl; lia|]); constructor|].
    exists c, xs. done.
Qed.

(** The queue benchmarks pop what they push, in order, and nothing is refused: the
    ping-pong gets every time stamp back and reads its percentiles inside the latencies,
    the throughput loops drain in every iteration the 10000, 1000 and 100 items it pushed,
    each drain ends, the queue is empty at the end and the operations are counted exactly. *)
Lemma queue_benchmarks_pop_what_they_push (capacity k : nat)
    (Hcap : 10000 ≤ Z.of_nat capacity) (Hpos : (0 < k)%nat) (Hk : 10000 * Z.of_nat k < 2 ^ 64) :
  (∃ c xs, spsc_push_pop_ping_pong rdtsc clock_gettime k q0 = Ok (c, xs) ∧
    fifo_rep (queue c) [] ∧ seen c = stamps k ∧
    Z.of_nat (length (latencies c)) = Z.min (Z.of_nat k) 100000) ∧
  (∃ c, spsc_throughput_push_only capacity k q0 = Ok c ∧ fifo_rep (queue c) [] ∧
    seen c = rounds 10000 k) ∧
  (∃ c xs, spsc_throughput_sustained rdtsc clock_gettime capacity k q0 = Ok (c, xs) ∧
    fifo_rep (queue c) [] ∧ seen c = rounds 1000 k ∧ ops c = 1000 * Z.of_nat k) ∧
  (∃ c xs, profile_spsc_throughput rdtsc k q0 = Ok (c, xs) ∧
    fifo_rep (queue c) [] ∧ seen c = rounds 100 k ∧ ops c = 100 * Z.of_nat k).
Proof using Hhost Hq0 Hroom.
  split_and!; [by apply ping_pong_returns|by apply push_only_returns
    |apply sustained_returns; lia|apply profile_returns; lia].
Qed.

(** Without an iteration the ping-pong reads a percentile of no latencies. *)
Lemma ping_pong_needs_an_iteration :
  spsc_push_pop_ping_pong rdtsc clock_gettime 0 q0 = Fault OutOfBounds.
Proof using Hhost.
  destruct Clock.host_calibrates as (ticks & _ & Hclk). unfold spsc_push_pop_ping_pong. by rewrite Hclk.
Qed.
End Calibrated.
End Facts.

(** The queue of the push-only benchmark, which holds 65535 items. *)
Import Spsc.
#[local] Existing Instance Clock.demo_host.
#[local] Instance bench_capacity : CapacityOk 65536.
Proof. by repeat split. Qed.
Definition bench_queue : SpscQueue Z := SpscQueue_new (replicate (Z.to_nat 65536) 0).

Lemma bench_queue_ok : spsc_rep 65536 bench_queue [].
Proof. apply (spsc_rep_new 65536). rewrite length_replicate. by apply Z2Nat.id. Qed.

Lemma queue_benchmarks_pop_what_they_push_example :
  ∃ c, spsc_throughput_push_only (H:=spsc_fifo_ops 65536) (Z.to_nat 65536) 50 bench_queue = Ok c ∧
    spsc_rep 65536 (queue c) [] ∧ seen c = rounds 10000 50.
Proof.
  refine (proj1 (proj2 (queue_benchmarks_pop_what_they_push (H0:=spsc_fifo_spec 65536)
    Clock.demo_rdtsc Clock.demo_clock bench_queue bench_queue_ok _ (Z.to_nat 65536) 50 _ _ _)));
    [by vm_compute|by vm_compute|lia|done].
Defined.
End QueueBench.
