(* ===== verification/MpscBench.v ===== *)
(** * The benchmarks of the linked queue: 1_orderbook/bench/bench_mpsc.cpp

    One thread that pushes and pops, and four threads that push before the main thread pops,
    as runs of the model of [MpscQueue].  The main thread has joined the producers when it
    pops, so its loads are not stale: a call that is not interleaved is a function. *)
From S2P Require Import Prelude MpscQueue.

Module MpscBench.
Import Mpsc.

Section Calls.
Context {T : Type} (initial_item : T).

(** [push] by one thread without interruption. *)
Definition push_now (tid : nat) (x : T) (s : state T) : state T :=
  match producers s !! tid with
  | None => s
  | Some p =>
      let n := fresh s in
      let prev := tail_ s in
      let v := ({[n]} ∪ pview p) ∪ tail_view s in
      let h := <[n := mkNode x None ∅]> (heap s) in
      mkState (alter (link n v) prev h) (head_ s) n v (<[tid := mkProd PIdle v]> (producers s))
        (reader s) (S n) (order s ++ [(n, x)]) (popped s) (negb (accessible h v prev) || faulty s)
  end.

(** [pop] without interruption. *)
Definition pop_now (s : state T) : option T * state T :=
  let l := head_ s in
  let v := cview (reader s) in
  let e := negb (accessible (heap s) v l) || faulty s in
  match heap s !! l ≫= next with
  | None =>
      (None, mkState (heap s) l (tail_ s) (tail_view s) (producers s) (mkCons CIdle v) (fresh s)
               (order s) (popped s) e)
  | Some n =>
      let v' := v ∪ match heap s !! l with Some nd => next_view nd | None => ∅ end in
      let x := match heap s !! n with Some nd => data nd | None => initial_item end in
      (Some x, mkState (delete l (heap s)) n (tail_ s) (tail_view s) (producers s) (mkCons CIdle v')
                 (fresh s) (order s) (popped s ++ [x])
                 (negb (accessible (heap s) v' l) || (negb (accessible (heap s) v' n) || e)))
  end.

(** [while (q.pop()) { ... }], with what the body does to a counter. *)
Fixpoint drain (body : Z → outcome Z) (fuel : nat) (count : Z) (s : state T) : outcome (Z * state T) :=
  match fuel with
  | O => Fault Diverges
  | S fuel =>
      match pop_now s with
      | (None, s') => Ok (count, s')
      | (Some _, s') => count' ← body count; drain body fuel count' s'
      end
  end.
End Calls.

(** One thread that pushes and pops; it does not use the number of its pops. *)
Definition mpsc_single_producer (k : nat) (s0 : state Z) : outcome (state Z) :=
  for_loop k 0 (λ _ s,
    s ← for_loop 1000 0 (λ i s, Ok (push_now 0 i s)) s;
    '(_, s) ← drain 0 (λ c, Ok (c + 1)) (S (length (order s))) 0 s; Ok s) s0.

(** What is left to push for each of the four threads of an iteration. *)
Definition tasks : gmap nat (list Z) :=
  list_to_map ((λ t, (t, (λ i, Z.of_nat t * 10000 + i) <$> seqZ 0 250)) <$> seq 0 4).

(** A step of a producer; it calls [push] with its next item. *)
Inductive produce : state Z * gmap nat (list Z) → state Z * gmap nat (list Z) → Prop :=
  | produce_new q q' todo tid p p' n x xs :
      step 0 q q' → producers q !! tid = Some p → producers q' !! tid = Some p' →
      ppc p = PIdle → ppc p' = PNew n x → todo !! tid = Some (x :: xs) →
      produce (q, todo) (q', <[tid := xs]> todo)
  | produce_rest q q' todo tid p p' :
      step 0 q q' → producers q !! tid = Some p → producers q' !! tid = Some p' →
      ppc p ≠ PIdle → p' ≠ p → produce (q, todo) (q', todo).

(** Every thread has returned. *)
Definition joined (x : state Z * gmap nat (list Z)) : Prop :=
  map_Forall (λ _ p, ppc p = PIdle) (producers x.1) ∧ map_Forall (λ _ xs, xs = []) x.2.

(** The iterations of the four producers, with the count of each; [count] is an [int]. *)
Inductive mpsc_multi_producer : nat → state Z → list Z → state Z → Prop :=
  | multi_done s : mpsc_multi_producer 0 s [] s
  | multi_iteration k s s1 todo1 count s2 counts s3 :
      rtc produce (s, tasks) (s1, todo1) → joined (s1, todo1) →
      drain 0 (λ c, i32_checked (c + 1)) (S (length (order s1))) 0 s1 = Ok (count, s2) →
      mpsc_multi_producer k s2 counts s3 →
      mpsc_multi_producer (S k) s (count :: counts) s3.

(** ** Calls that are not interleaved *)
Section Runs.
Context {T : Type} (initial_item : T).
Implicit Type s : state T.
Abbreviation step := (step initial_item).

Lemma inv_run s s' : inv s → rtc step s s' → inv s'.
Proof. intros Hs Hr. induction Hr as [|s s1 s' Hstep Hr IH]; [done|]. by apply IH, (queue_inv_step initial_item s). Qed.

Lemma push_now_run tid x s v :
  producers s !! tid = Some (mkProd PIdle v) → rtc step s (push_now tid x s).
Proof.
  intros Hp. unfold push_now. rewrite Hp. destruct s as [h hd tl tv ps k f o pp e]. simpl in *.
  eapply rtc_l; [by apply push_new|]. eapply rtc_l; [apply push_exchange, lookup_insert_eq|].
  rewrite insert_insert_eq. eapply rtc_l; [apply push_link, lookup_insert_eq|].
  rewrite insert_insert_eq. reflexivity.
Qed.

Definition all_idle s : Prop :=
  map_Forall (λ _ p, ppc p = PIdle) (producers s) ∧ cpc (reader s) = CIdle.

Lemma all_idle_settled s : all_idle s → settled s.
Proof. intros [Hidle _] tid p n prev Hp. by rewrite (map_Forall_lookup_1 _ _ _ _ Hidle Hp). Qed.

(** A [pop] with no call under way returns the next item, or finds the queue empty. *)
Lemma pop_now_spec s :
  inv s → all_idle s →
  ∃ s', pop_now initial_item s = ((order s).*2 !! length (popped s), s') ∧ rtc step s s' ∧
    all_idle s' ∧ producers s' = producers s ∧ order s' = order s ∧
    popped s' = popped s ++ option_list ((order s).*2 !! length (popped s)).
Proof.
  intros Hs Hidle. pose proof (all_idle_settled s Hidle) as Hset. destruct Hidle as [Hps Hr].
  pose proof (inv_reader _ Hs) as Hrd. unfold reader_ok in Hrd. rewrite Hr in Hrd.
  destruct Hrd as [Hhd _].
  destruct (settled_next s _ _ Hs Hset (le_n _) Hhd) as (nd & Hh & Hnx).
  assert (chain s !! S (length (popped s)) = (order s).*1 !! length (popped s)) as Hc by done.
  rewrite Hc, (list_lookup_fmap fst) in Hnx. clear Hc.
  unfold pop_now. rewrite Hh. simpl. rewrite (list_lookup_fmap snd).
  destruct (order s !! length (popped s)) as [[n x]|] eqn:Ho; simpl in *; rewrite Hnx.
  - destruct (next_live s _ _ _ Hs Hhd Hh Hnx) as (_ & _ & y & nd' & Ho' & Hn & Hd).
    rewrite Ho in Ho'. injection Ho' as <-. rewrite Hn, Hd. eexists. split; [done|].
    split; [|split; [done|done]].
    destruct s as [h hd tl tv ps [c v] f o pp e]. simpl in *. subst c.
    eapply rtc_l; [apply pop_load|]. eapply rtc_l; [by eapply pop_next|].
    eapply rtc_l; [apply pop_data|]. rewrite Hn, Hd. eapply rtc_l; [apply pop_store|].
    apply rtc_once, pop_delete.
  - eexists. split; [done|]. rewrite app_nil_r. split; [|done].
    destruct s as [h hd tl tv ps [c v] f o pp e]. simpl in *. subst c.
    eapply rtc_l; [apply pop_load|]. apply rtc_once, pop_empty.
Qed.

(** The loop ends, and takes every item that is left. *)
Lemma drain_spec body (P : Z → Prop) fuel count s :
  inv s → all_idle s → P count →
  (∀ c, P c → c < count + Z.of_nat (length (order s) - length (popped s)) → body c = Ok (c + 1) ∧ P (c + 1)) →
  (length (order s) - length (popped s) < fuel)%nat →
  ∃ s', drain initial_item body fuel count s =
      Ok (count + Z.of_nat (length (order s) - length (popped s)), s') ∧
    rtc step s s' ∧ all_idle s' ∧ producers s' = producers s ∧ order s' = order s ∧
    popped s' = (order s).*2.
Proof.
  revert count s. induction fuel as [|fuel IH]; intros count s Hs Hidle HP Hbody Hf; [lia|].
  pose proof (inv_popped _ Hs) as Hpop. pose proof (inv_count _ Hs) as Hcount.
  destruct (pop_now_spec s Hs Hidle) as (s1 & Hnow & Hrun & Hidle1 & Hps & Ho & Hpp).
  cbn [drain]. rewrite Hnow. destruct ((order s).*2 !! length (popped s)) as [x|] eqn:Hx.
  - pose proof (lookup_lt_Some _ _ _ Hx) as Hlt. rewrite length_fmap in Hlt.
    destruct (Hbody count HP ltac:(lia)) as [-> HP']. rewrite bind_ret_l.
    assert (length (popped s1) = S (length (popped s))) as Hl by (rewrite Hpp, length_app; simpl; lia).
    destruct (IH (count + 1) s1 (inv_run _ _ Hs Hrun) Hidle1 HP') as (s' & Hd & Hrun' & Hi' & Hps' & Ho' & Hpp').
    { intros c Hc Hlt'. apply Hbody; [done|]. rewrite Ho, Hl in Hlt'. lia. }
    { rewrite Ho, Hl. lia. }
    exists s'. rewrite Hd, Ho, Hl. split; [do 2 f_equal; lia|].
    split; [by etrans|]. rewrite <-Hps, <-Ho. done.
  - apply lookup_ge_None in Hx. rewrite length_fmap in Hx.
    exists s1. replace (length (order s) - length (popped s))%nat with 0%nat by lia.
    rewrite Z.add_0_r. split; [done|]. split_and!; [done|done|done|done|].
    rewrite Hpp. simpl. rewrite app_nil_r, Hpop. apply take_ge. rewrite length_fmap. lia.
Qed.
End Runs.

(** ** The producers of an iteration *)
Section Feeding.
Implicit Types (q : state Z) (todo : gmap nat (list Z)).

(** The thread that pushes an item. *)
Definition owner (x : Z) : nat := Z.to_nat (x / 10000).
Definition of_thread (tid : nat) (xs : list Z) : list Z := List.filter (λ x, Nat.eqb (owner x) tid) xs.

(** The item of a [push] that is not exchanged in yet. *)
Definition in_flight (p : producer Z) : list Z :=
  match ppc p with PNew _ x => [x] | _ => [] end.

(** What one step of a producer changes. *)
Lemma producer_step q q' tid p p' :
  step 0 q q' → producers q !! tid = Some p → producers q' !! tid = Some p' → p' ≠ p →
  popped q' = popped q ∧ reader q' = reader q ∧
  producers q' = <[tid := p']> (producers q) ∧
  ((∃ n x, ppc p = PIdle ∧ ppc p' = PNew n x ∧ order q' = order q) ∨
   (∃ n x prev, ppc p = PNew n x ∧ ppc p' = PSwapped n prev ∧ order q' = order q ++ [(n, x)]) ∨
   (∃ n prev, ppc p = PSwapped n prev ∧ ppc p' = PIdle ∧ order q' = order q)).
Proof.
  intros Hstep Hp Hp' Hne.
  destruct Hstep; cbn [producers popped reader order] in *; try congruence;
    match goal with H : ?ps !! ?t = Some (mkProd _ _) |- _ => rename t into tid'; rename H into Hps end;
    (destruct (decide (tid = tid')) as [<-|Hd]; [|rewrite lookup_insert_ne in Hp' by done; congruence]);
    rewrite lookup_insert_eq in Hp'; injection Hp' as <-;
    rewrite Hp in Hps; injection Hps as ->; (split_and!; [done|done|done|]).
  - left. by eexists _, _.
  - right. left. by eexists _, _, _.
  - right. right. by eexists _, _.
Qed.

(** Before and between the steps: [done_] was pushed by each thread in earlier iterations. *)
Record feeding (items : nat → list Z) (before : list Z) (q : state Z) (todo : gmap nat (list Z)) : Prop := {
  fd_inv : inv q;
  fd_reader : cpc (reader q) = CIdle;
  fd_popped : popped q = before;
  fd_threads tid : (tid < 4)%nat ↔ is_Some (producers q !! tid);
  fd_todo tid p : producers q !! tid = Some p →
    ∃ xs, todo !! tid = Some xs ∧ of_thread tid ((order q).*2) ++ in_flight p ++ xs = items tid;
  fd_items tid : Forall (λ x, owner x = tid) (items tid);
  fd_owners : Forall (λ x, (owner x < 4)%nat) ((order q).*2);
  fd_only tid xs : todo !! tid = Some xs → (tid < 4)%nat
}.

Lemma of_thread_app tid xs ys : of_thread tid (xs ++ ys) = of_thread tid xs ++ of_thread tid ys.
Proof. apply List.filter_app. Qed.

Lemma of_thread_one tid x : of_thread tid [x] = if decide (owner x = tid) then [x] else [].
Proof.
  unfold of_thread. simpl. destruct (Nat.eqb_spec (owner x) tid); by destruct (decide _).
Qed.

Lemma feeding_insert items before q q' todo todo' tid p p' :
  feeding items before q todo → step 0 q q' → producers q !! tid = Some p →
  producers q' !! tid = Some p' → p' ≠ p →
  (∀ xs, todo !! tid = Some xs →
    of_thread tid ((order q).*2) ++ in_flight p ++ xs = items tid →
    ∃ xs', todo' = <[tid := xs']> todo ∧
      of_thread tid ((order q').*2) ++ in_flight p' ++ xs' = items tid) →
  feeding items before q' todo'.
Proof.
  intros [Hi Hr Hpp Hth Htodo Hit Hown Honly] Hstep Hp Hp' Hne Hnew.
  destruct (producer_step q q' tid p p' Hstep Hp Hp' Hne) as (Hpp' & Hr' & Hps & Hcase).
  destruct (Htodo tid p Hp) as (xs & Hxs & Heq).
  destruct (Hnew xs Hxs Heq) as (xs' & -> & Heq').
  assert (∃ ext, order q' = order q ++ ext ∧ Forall (λ e, owner e.2 = tid) ext) as (ext & Ho & Hext).
  { destruct Hcase as [(n & x & _ & _ & Ho)|[(n & x & prev & Hpc & _ & Ho)|(n & prev & _ & _ & Ho)]].
    - exists []. by rewrite app_nil_r.
    - exists [(n, x)]. split; [done|]. constructor; [|done]. specialize (Hit tid).
      rewrite <-Heq in Hit. apply Forall_app in Hit as [_ Hit]. unfold in_flight in Hit.
      rewrite Hpc in Hit. by inversion Hit.
    - exists []. by rewrite app_nil_r. }
  split.
  - by apply (queue_inv_step 0 q).
  - by rewrite Hr'.
  - by rewrite Hpp'.
  - intros t. rewrite Hth, Hps, lookup_insert_is_Some. destruct (decide (tid = t)) as [<-|]; [|naive_solver].
    split; [by left|by eexists].
  - intros t p1. rewrite Hps. intros [[<- <-]|[Hd Ht]]%lookup_insert_Some.
    + exists xs'. by rewrite lookup_insert_eq.
    + destruct (Htodo t p1 Ht) as (ys & Hys & Heqt). exists ys. rewrite lookup_insert_ne by done.
      split; [done|]. rewrite Ho, fmap_app, of_thread_app.
      assert (of_thread t ext.*2 = []) as ->; [|by rewrite app_nil_r].
      clear -Hext Hd. unfold of_thread. induction Hext as [|e ext He _ IH]; simpl; [done|].
      destruct (Nat.eqb_spec (owner e.2) t); [congruence|done].
  - done.
  - rewrite Ho, fmap_app. apply Forall_app. split; [done|]. apply Forall_fmap.
    eapply Forall_impl; [exact Hext|]. intros e He. simpl. rewrite He. apply Hth. by eexists.
  - intros t ys [[<- _]|[_ Ht]]%lookup_insert_Some; [apply Hth; by eexists|by eapply Honly].
Qed.

Lemma feeding_step items before x y :
  feeding items before x.1 x.2 → produce x y → feeding items before y.1 y.2.
Proof.
  intros Hf Hstep. destruct Hstep as [q q' todo tid p p' n x xs Hs Hp Hp' Hi Hn Ht
                                     |q q' todo tid p p' Hs Hp Hp' Hi Hne]; simpl in *.
  - assert (p' ≠ p) as Hne by congruence.
    eapply feeding_insert; [exact Hf|exact Hs|exact Hp|exact Hp'|done|].
    intros xs1 Hxs Heq. exists xs. split; [done|]. rewrite Ht in Hxs. injection Hxs as <-.
    destruct (producer_step q q' tid p p' Hs Hp Hp' Hne) as (_ & _ & _ & Hcase).
    unfold in_flight in *. rewrite Hi, Hn in *. simpl in *.
    destruct Hcase as [(? & ? & _ & _ & ->)|[(? & ? & ? & ? & _)|(? & ? & ? & _)]]; done.
  - eapply feeding_insert; [exact Hf|exact Hs|exact Hp|exact Hp'|done|].
    intros xs Hxs Heq. exists xs. split; [by rewrite insert_id|].
    destruct (producer_step q q' tid p p' Hs Hp Hp' Hne) as (_ & _ & _ & Hcase).
    unfold in_flight in *.
    destruct Hcase as [(? & ? & ? & _)|[(m & x & prev & Hpc & Hpc' & Ho)|(m & prev & Hpc & Hpc' & Ho)]];
      [done| |]; rewrite Hpc, Hpc' in *; rewrite Ho; [|done].
    rewrite fmap_app, of_thread_app. change ([(m, x)].*2) with [x]. rewrite of_thread_one.
    assert (owner x = tid) as Hx.
    { pose proof (fd_items _ _ _ _ Hf tid) as Hit. rewrite <-Heq in Hit.
      apply Forall_app in Hit as [_ Hit]. by inversion Hit. }
    destruct (decide (owner x = tid)); [|done]. by rewrite <-app_assoc.
Qed.
(** A thread that has not finished has a step. *)
Lemma idle_can_push q tid p x :
  producers q !! tid = Some p → ppc p = PIdle →
  ∃ q' p', step 0 q q' ∧ producers q' !! tid = Some p' ∧ ppc p' = PNew (fresh q) x.
Proof.
  intros Hp Hi. destruct p as [c v]. simpl in Hi. subst c. destruct q as [h hd tl tv ps k f o pp e].
  do 2 eexists. split; [by eapply (push_new 0 _ _ _ _ _ _ _ _ _ _ tid x)|].
  split; [apply lookup_insert_eq|done].
Qed.

Lemma busy_can_step q tid p :
  producers q !! tid = Some p → ppc p ≠ PIdle →
  ∃ q' p', step 0 q q' ∧ producers q' !! tid = Some p' ∧ p' ≠ p.
Proof.
  intros Hp Hi. destruct p as [[|n x|n prev] v]; [done| |]; destruct q as [h hd tl tv ps k f o pp e].
  - do 2 eexists. split; [by eapply push_exchange|]. split; [apply lookup_insert_eq|done].
  - do 2 eexists. split; [by eapply push_link|]. split; [apply lookup_insert_eq|done].
Qed.

#[local] Instance pc_idle_dec (p : producer Z) : Decision (ppc p = PIdle).
Proof. destruct (ppc p); (by left) || by right. Defined.

(** Unless every thread has returned, one of them has a step. *)
Lemma feeding_progress items before x :
  feeding items before x.1 x.2 → joined x ∨ ∃ y, produce x y.
Proof.
  destruct x as [q todo]. cbn [fst snd]. intros Hf.
  destruct (decide (map_Forall (λ _ p, ppc p = PIdle) (producers q))) as [Hidle|Hbusy].
  - destruct (decide (map_Forall (λ _ xs, xs = []) todo)) as [Hdone|Hleft]; [by left|right].
    apply map_not_Forall in Hleft as (tid & xs & Htid & Hxs); [|apply _].
    destruct xs as [|x xs]; [done|].
    destruct (proj1 (fd_threads _ _ _ _ Hf tid) (fd_only _ _ _ _ Hf _ _ Htid)) as [p Hp].
    pose proof (map_Forall_lookup_1 _ _ _ _ Hidle Hp) as Hi.
    destruct (idle_can_push q tid p x Hp Hi) as (q' & p' & Hs & Hp' & Hn).
    eexists. by eapply produce_new.
  - right. apply map_not_Forall in Hbusy as (tid & p & Hp & Hi); [|apply _].
    destruct (busy_can_step q tid p Hp Hi) as (q' & p' & Hs & Hp' & Hne).
    eexists. by eapply produce_rest.
Qed.

(** The steps a thread has left. *)
Definition work_of (x : state Z * gmap nat (list Z)) (tid : nat) : nat :=
  3 * length (default [] (x.2 !! tid)) +
  match ppc <$> producers x.1 !! tid with
  | Some (PNew _ _) => 2
  | Some (PSwapped _ _) => 1
  | _ => 0
  end.
Definition work (x : state Z * gmap nat (list Z)) : nat := sum_list_with (work_of x) (seq 0 4).

Lemma sum_list_with_lt (f g : nat → nat) l x :
  (∀ y, y ≠ x → f y = g y) → (f x < g x)%nat → x ∈ l → (sum_list_with f l < sum_list_with g l)%nat.
Proof.
  intros Hother Hx. assert (∀ l, sum_list_with f l ≤ sum_list_with g l)%nat as Hle.
  { induction l0 as [|y l0 IH]; simpl; [lia|]. destruct (decide (y = x)) as [->|Hd]; [lia|].
    rewrite (Hother y Hd). lia. }
  induction l as [|y l IH]; [by intros ?%elem_of_nil|]. intros [->|Hin]%elem_of_cons; simpl.
  - specialize (Hle l). lia.
  - specialize (IH Hin). destruct (decide (y = x)) as [->|Hd]; [lia|]. rewrite (Hother y Hd). lia.
Qed.

Lemma produce_works items before x y :
  feeding items before x.1 x.2 → produce x y → (work y < work x)%nat.
Proof.
  intros Hf Hstep. destruct Hstep as [q q' todo tid p p' n x xs Hs Hp Hp' Hi Hn Ht
                                     |q q' todo tid p p' Hs Hp Hp' Hi Hne]; simpl in *;
    unfold work; (apply (sum_list_with_lt _ _ _ tid);
      [|unfold work_of; simpl; rewrite Hp, Hp'; simpl|
       apply elem_of_seq; assert (tid < 4)%nat by (apply (fd_threads _ _ _ _ Hf); by eexists); lia]).
  - assert (p' ≠ p) as Hne by congruence.
    destruct (producer_step q q' tid p p' Hs Hp Hp' Hne) as (_ & _ & Hps & _).
    intros t Ht'. unfold work_of. simpl. by rewrite Hps, !lookup_insert_ne by done.
  - rewrite lookup_insert_eq, Ht, Hi, Hn. simpl. lia.
  - destruct (producer_step q q' tid p p' Hs Hp Hp' Hne) as (_ & _ & Hps & _).
    intros t Ht'. unfold work_of. simpl. by rewrite Hps, lookup_insert_ne by done.
  - destruct (producer_step q q' tid p p' Hs Hp Hp' Hne) as (_ & _ & _ & Hcase).
    destruct Hcase as [(? & ? & ? & _)|[(m & x & prev & -> & -> & _)|(m & prev & -> & -> & _)]];
      [done|lia|lia].
Qed.

Lemma feeding_terminates items before x : feeding items before x.1 x.2 → sn produce x.
Proof.
  remember (work x) as n eqn:Hn. revert x Hn. induction (lt_wf n) as [n _ IH]. intros x -> Hf.
  constructor. intros y Hy. eapply IH; [by eapply produce_works|done|].
  by eapply feeding_step.
Qed.

(** *** Whole iterations *)
Definition task (tid : nat) : list Z := (λ i, Z.of_nat tid * 10000 + i) <$> seqZ 0 250.

Lemma tasks_lookup tid xs : tasks !! tid = Some xs ↔ (tid < 4)%nat ∧ xs = task tid.
Proof.
  unfold tasks. rewrite <-elem_of_list_to_map.
  - rewrite list_elem_of_fmap. split.
    + intros (t & [= -> ->] & Ht%elem_of_seq). split; [lia|done].
    + intros [Ht ->]. exists tid. split; [done|]. apply elem_of_seq. lia.
  - rewrite <-list_fmap_compose. apply (NoDup_fmap_2 _), NoDup_seq.
Qed.

Lemma task_owners tid : Forall (λ x, owner x = tid) (task tid).
Proof.
  apply Forall_fmap, Forall_forall. intros i Hi%elem_of_seqZ. unfold owner. simpl.
  rewrite Z.div_add_l by lia. rewrite Z.div_small by lia. lia.
Qed.

Fixpoint repeated (k : nat) (xs : list Z) : list Z :=
  match k with O => [] | S k => repeated k xs ++ xs end.

(** Between the iterations, [k] of which are done. *)
Record settled_after (k : nat) (s : state Z) : Prop := {
  sa_inv : inv s;
  sa_idle : all_idle s;
  sa_threads tid : (tid < 4)%nat ↔ is_Some (producers s !! tid);
  sa_popped : popped s = (order s).*2;
  sa_items tid : (tid < 4)%nat → of_thread tid ((order s).*2) = repeated k (task tid);
  sa_owners : Forall (λ x, (owner x < 4)%nat) ((order s).*2)
}.

Lemma iteration_feeds k s :
  settled_after k s → feeding (λ t, if decide (t < 4)%nat then repeated (S k) (task t) else []) (popped s) s tasks.
Proof.
  intros [Hi [Hps Hr] Hth Hpp Hit Hown]. split; try done.
  - intros tid p Hp. assert (tid < 4)%nat as Ht by (apply Hth; by eexists).
    exists (task tid). split; [by apply tasks_lookup|]. rewrite decide_True by done.
    unfold in_flight. rewrite (map_Forall_lookup_1 _ _ _ _ Hps Hp), Hit by done. done.
  - intros tid. destruct (decide (tid < 4)%nat); [|constructor].
    induction (S k) as [|j IH]; simpl; [constructor|]. apply Forall_app. split; [done|apply task_owners].
  - by intros tid xs [? _]%tasks_lookup.
Qed.

Lemma feeding_run items before x y :
  feeding items before x.1 x.2 → rtc produce x y → feeding items before y.1 y.2.
Proof. intros Hf Hr. induction Hr as [|x z y Hs _ IH]; [done|]. by apply IH, (feeding_step _ _ x). Qed.

Lemma length_by_owner xs :
  Forall (λ x, (owner x < 4)%nat) xs → length xs = sum_list_with (λ t, length (of_thread t xs)) (seq 0 4).
Proof.
  induction 1 as [|x xs Hx _ IH]; [done|]. change (x :: xs) with ([x] ++ xs).
  cbn [sum_list_with seq] in *. rewrite length_app, IH.
  rewrite !of_thread_app, !length_app, !of_thread_one. simpl.
  repeat case_decide; simpl; lia.
Qed.

Lemma task_length tid : length (task tid) = 250%nat.
Proof. unfold task. by rewrite length_fmap, length_seqZ. Qed.

Lemma order_pushed_length k s :
  (∀ tid, (tid < 4)%nat → of_thread tid ((order s).*2) = repeated k (task tid)) →
  Forall (λ x, (owner x < 4)%nat) ((order s).*2) → length (order s) = (1000 * k)%nat.
Proof.
  intros Hit Hown. rewrite <-(length_fmap snd), (length_by_owner _ Hown). cbn [sum_list_with seq].
  assert (∀ j t, length (repeated j (task t)) = 250 * j)%nat as Hl.
  { intros j t. induction j as [|j IH]; simpl; [done|]. rewrite length_app, task_length, IH. lia. }
  rewrite !Hit, !Hl by lia. lia.
Qed.

Lemma iteration_ends k s s1 todo1 :
  settled_after k s → rtc produce (s, tasks) (s1, todo1) → joined (s1, todo1) →
  ∃ s2, drain 0 (λ c, i32_checked (c + 1)) (S (length (order s1))) 0 s1 = Ok (1000, s2) ∧
    settled_after (S k) s2.
Proof.
  intros Hs Hrun [Hidle Htodo]. cbn [fst snd] in *.
  pose proof (feeding_run _ _ (s, tasks) (s1, todo1) (iteration_feeds k s Hs) Hrun)
    as [Hi1 Hr1 Hpp1 Hth1 Htodo1 _ Hown1 Honly1]. cbn [fst snd] in *.
  assert (∀ tid, (tid < 4)%nat → of_thread tid ((order s1).*2) = repeated (S k) (task tid)) as Hit.
  { intros tid Ht. destruct (proj1 (Hth1 tid) Ht) as [p Hp].
    destruct (Htodo1 tid p Hp) as (xs & Hxs & Heq). rewrite decide_True in Heq by done.
    rewrite (map_Forall_lookup_1 _ _ _ _ Htodo Hxs) in Heq. unfold in_flight in Heq.
    rewrite (map_Forall_lookup_1 _ _ _ _ Hidle Hp) in Heq. by rewrite !app_nil_r in Heq. }
  pose proof (order_pushed_length _ _ Hit Hown1) as Hl1.
  pose proof (order_pushed_length _ _ (sa_items _ _ Hs) (sa_owners _ _ Hs)) as Hl0.
  assert (length (popped s1) = (1000 * k)%nat) as Hlp.
  { by rewrite Hpp1, (sa_popped _ _ Hs), length_fmap. }
  destruct (drain_spec 0 (λ c, i32_checked (c + 1)) (λ c, 0 ≤ c) (S (length (order s1))) 0 s1 Hi1
    (conj Hidle Hr1) ltac:(done)) as (s2 & Hd & Hrun2 & Hidle2 & Hps2 & Ho2 & Hpp2).
  { intros c Hc Hlt. rewrite Hl1, Hlp in Hlt. rewrite i32_checked_Ok by lia. split; [done|lia]. }
  { lia. }
  exists s2. rewrite Hd. split; [do 2 f_equal; lia|].
  split; rewrite ?Ho2, ?Hps2; try done. by eapply inv_run.
Qed.

Lemma initial_settled s0 :
  initial 0 s0 → (∀ tid, (tid < 4)%nat ↔ is_Some (producers s0 !! tid)) → settled_after 0 s0.
Proof.
  intros H0 Hth. split; try done.
  - by apply (queue_inv_initial 0).
  - destruct H0 as [ps Hps]. split; [|done]. eapply map_Forall_impl; [exact Hps|]. by intros ? ? ->.
  - by destruct H0.
  - by destruct H0.
  - destruct H0. constructor.
Qed.

Lemma schedule_exists items before x :
  feeding items before x.1 x.2 → ∃ y, rtc produce x y ∧ joined y.
Proof.
  intros Hf. pose proof (feeding_terminates _ _ x Hf) as Hsn. revert Hf.
  induction Hsn as [x _ IH]. intros Hf.
  destruct (feeding_progress _ _ x Hf) as [Hj|[y Hy]]; [by exists x|].
  destruct (IH y Hy (feeding_step _ _ x y Hf Hy)) as (z & Hr & Hj).
  exists z. split; [by eapply rtc_l|done].
Qed.

(** Any number of iterations can be run. *)
Lemma iterations_exist j k s :
  settled_after j s → ∃ counts s', mpsc_multi_producer k s counts s'.
Proof.
  revert j s. induction k as [|k IH]; intros j s Hs; [do 2 eexists; constructor|].
  destruct (schedule_exists _ _ (s, tasks) (iteration_feeds j s Hs)) as ([s1 todo1] & Hr & Hj).
  destruct (iteration_ends j s s1 todo1 Hs Hr Hj) as (s2 & Hd & Hs2).
  destruct (IH (S j) s2 Hs2) as (counts & s3 & Hrest).
  do 2 eexists. by eapply multi_iteration.
Qed.

Lemma iterations_settle k s counts s' j :
  settled_after j s → mpsc_multi_producer k s counts s' →
  counts = replicate k 1000 ∧ settled_after (j + k) s'.
Proof.
  intros Hs Hr. revert j Hs. induction Hr as [s|k s s1 todo1 count s2 counts s3 Hrun Hj Hd _ IH]; intros j Hs.
  { by rewrite Nat.add_0_r. }
  destruct (iteration_ends j s s1 todo1 Hs Hrun Hj) as (s2' & Hd' & Hs2).
  rewrite Hd' in Hd. injection Hd as <- <-. destruct (IH (S j) Hs2) as [-> Hs3].
  split; [done|]. by rewrite Nat.add_succ_r.
Qed.
End Feeding.

(** ** Properties *)

(** C16: however the four producers are scheduled, every iteration pops all its 1000 items:
    nothing is lost or repeated, the items of each producer come out in the order it
    pushed them, the queue is empty at the end and no access was to a deleted node. *)
Theorem multi_producers_lose_nothing k s0 counts s
    (Hinit : initial 0 s0) (Hthreads : ∀ tid, (tid < 4)%nat ↔ is_Some (producers s0 !! tid))
    (Hrun : mpsc_multi_producer k s0 counts s) :
  counts = replicate k 1000 ∧ popped s = (order s).*2 ∧ faulty s = false ∧
  ∀ tid, (tid < 4)%nat → of_thread tid (popped s) = repeated k (task tid).
Proof.
  destruct (iterations_settle k s0 counts s 0 (initial_settled s0 Hinit Hthreads) Hrun)
    as [-> [Hi _ _ Hpp Hit _]].
  split_and!; [done|done|apply (inv_faultless _ Hi)|]. intros tid Ht. rewrite Hpp. by apply Hit.
Qed.

(** C17: an iteration ends under every schedule: no schedule of the producers is infinite,
    one that cannot go on has all four threads finished, and then the drain returns. *)
Theorem multi_producers_always_finish k s0 counts s
    (Hinit : initial 0 s0) (Hthreads : ∀ tid, (tid < 4)%nat ↔ is_Some (producers s0 !! tid))
    (Hrun : mpsc_multi_producer k s0 counts s) :
  sn produce (s, tasks) ∧
  ∀ x, rtc produce (s, tasks) x → nf produce x →
    joined x ∧ ∃ s', drain 0 (λ c, i32_checked (c + 1)) (S (length (order x.1))) 0 x.1 = Ok (1000, s').
Proof.
  destruct (iterations_settle k s0 counts s 0 (initial_settled s0 Hinit Hthreads) Hrun) as [_ Hs].
  pose proof (iteration_feeds _ _ Hs) as Hf. split; [by eapply (feeding_terminates _ _ (s, tasks))|].
  intros [s1 todo1] Hr Hnf.
  destruct (feeding_progress _ _ _ (feeding_run _ _ (s, tasks) _ Hf Hr)) as [Hj|Hstep]; [|done].
  split; [done|]. destruct (iteration_ends _ s s1 todo1 Hs Hr Hj) as (s2 & Hd & _). by exists s2.
Qed.

(** A single thread: what it pushes it pops, in every iteration. *)
Lemma single_producer_drains k s0 :
  initial 0 s0 → is_Some (producers s0 !! 0%nat) →
  ∃ s, mpsc_single_producer k s0 = Ok s ∧ popped s = repeated k (seqZ 0 1000) ∧
    popped s = (order s).*2 ∧ faulty s = false.
Proof.
  intros H0 Hp0.
  set (good (s : state Z) := inv s ∧ all_idle s ∧ is_Some (producers s !! 0%nat)).
  destruct (for_loop_invariant (λ j s, good s ∧ popped s = repeated (Z.to_nat j) (seqZ 0 1000) ∧
      popped s = (order s).*2) k 0
    (λ _ s, s ← for_loop 1000 0 (λ i s, Ok (push_now 0 i s)) s;
            '(_, s) ← drain 0 (λ c, Ok (c + 1)) (S (length (order s))) 0 s; Ok s) s0)
    as (s & Hs & (Hi & _) & Hpp & Ho).
  - split; [|by destruct H0]. split; [by apply (queue_inv_initial 0)|]. split; [|done].
    destruct H0 as [ps Hps]. split; [|done]. eapply map_Forall_impl; [exact Hps|]. by intros ? ? ->.
  - intros j s Hj ((Hi & Hidle & Hp) & Hpp & Ho).
    destruct (for_loop_invariant (λ i t, good t ∧ popped t = popped s ∧
        (order t).*2 = (order s).*2 ++ seqZ 0 i) 1000 0 (λ i t, Ok (push_now 0 i t)) s)
      as (t & -> & (Hi1 & Hidle1 & Hp1) & Hpp1 & Ho1).
    + by rewrite app_nil_r.
    + intros i t Hi' ((Hit & [Hps Hr] & [p Hpt]) & Hppt & Hot). eexists. split; [done|].
      pose proof (map_Forall_lookup_1 _ _ _ _ Hps Hpt) as Hpc. destruct p as [c v]. simpl in Hpc. subst c.
      pose proof (inv_run 0 t _ Hit (push_now_run 0 0 i t v Hpt)) as Hinv.
      unfold good, push_now in *. rewrite Hpt in *. cbn [popped order producers reader] in *.
      rewrite fmap_app, Hot, seqZ_app by lia. split; [|by rewrite <-app_assoc].
      split; [done|]. split; [|rewrite lookup_insert_eq; by eexists].
      split; [|done]. by apply map_Forall_insert_2.
    + rewrite bind_ret_l.
      destruct (drain_spec 0 (λ c, Ok (c + 1)) (λ _, True) (S (length (order t))) 0 t Hi1 Hidle1 I)
        as (t' & -> & Hrun & Hidle2 & Hps2 & Ho2 & Hpp2); [done|lia|].
      rewrite bind_ret_l. exists t'. split; [done|].
      replace (Z.to_nat (j + 1)) with (S (Z.to_nat j)) by lia. cbn [repeated].
      split; [split; [by eapply inv_run|by rewrite Hps2]|].
      rewrite Hpp2, Ho2, <-Hpp. split; [|done]. by rewrite Ho1, Ho.
  - exists s. rewrite Z.add_0_l, Nat2Z.id in Hpp.
    split_and!; [done|done|done|apply (inv_faultless _ Hi)].
Qed.

(** ** Three iterations from a queue of four threads *)
Definition four_threads : gmap nat (producer Z) :=
  list_to_map ((λ t, (t, mkProd PIdle {[0%nat]})) <$> seq 0 4).
Definition start_state : state Z :=
  mkState {[0%nat := mkNode 0 None ∅]} 0 0 {[0%nat]} four_threads (mkCons CIdle {[0%nat]}) 1 [] [] false.

Lemma start_initial : initial 0 start_state.
Proof.
  constructor. intros t p Hp. apply elem_of_list_to_map_2, list_elem_of_fmap in Hp as (? & [= _ ->] & _).
  done.
Qed.

Lemma start_threads tid : (tid < 4)%nat ↔ is_Some (producers start_state !! tid).
Proof.
  split.
  - intros Ht. destruct tid as [|[|[|[|tid]]]]; [by eexists..|lia].
  - intros [p Hp]. apply elem_of_list_to_map_2, list_elem_of_fmap in Hp as (? & [= <- _] & Hin).
    apply elem_of_seq in Hin. lia.
Qed.

Lemma multi_producers_lose_nothing_witness :
  ∃ counts s, counts = replicate 3 1000 ∧ popped s = (order s).*2 ∧ faulty s = false ∧
    ∀ tid, (tid < 4)%nat → of_thread tid (popped s) = repeated 3 (task tid).
Proof.
  destruct (iterations_exist 0 3 start_state (initial_settled _ start_initial start_threads))
    as (counts & s & Hrun).
  exists counts, s.
  exact (multi_producers_lose_nothing 3 start_state counts s start_initial start_threads Hrun).
Defined.

Lemma multi_producers_always_finish_witness :
  sn produce (start_state, tasks) ∧
  ∀ x, rtc produce (start_state, tasks) x → nf produce x →
    joined x ∧ ∃ s', drain 0 (λ c, i32_checked (c + 1)) (S (length (order x.1))) 0 x.1 = Ok (1000, s').
Proof.
  exact (multi_producers_always_finish 0 start_state [] start_state start_initial start_threads
           (multi_done _)).
Defined.
End MpscBench.
