(* ===== verification/MicroBench.v ===== *)
(** * The small benchmarks

    The memory and branch benchmarks of 1_orderbook/bench/bench_profiling.cpp, and the
    benchmarks of 2_network/bench/bench_af_xdp.cpp: the socket baseline, the simulated
    system call and the stand-in for the parser.  The socket calls and the random draws are
    environment functions. *)
From S2P Require Import Prelude Binary64 TscClock Latency.

Module MicroBench.
Import Latency.

(** ** bench_profiling.cpp: sums over memory *)
Section Memory.
Context (rdtsc : nat → Z).

(** A sum, a position, and the counter written at the end of every iteration. *)
Record mbench := mkMBench {
  sum : Z;
  idx : Z;
  counter : option B64.double;
  reads : nat
}.

(** An iteration: [body] between two readings, then the counter, a function of the cycles. *)
Definition measured (body : Z * Z → outcome (Z * Z)) (per : B64.double → B64.double) (c : mbench)
    : outcome mbench :=
  let tsc_start := rdtsc (reads c) in
  '(s, i) ← body (sum c, idx c);
  let tsc_end := rdtsc (S (reads c)) in
  Ok (mkMBench s i (Some (per (B64.of_u64 (u64 (tsc_end - tsc_start))))) (S (S (reads c)))).

Definition cache_line_size : Z := 64.
Definition array_size : Z := 10000 * cache_line_size.
Definition bytes : list Z := replicate (Z.to_nat array_size) 42.

Definition profile_memory_bandwidth (k : nat) : outcome mbench :=
  for_loop k 0 (λ _, measured
    (for_loop (Z.to_nat (array_size / cache_line_size)) 0 (λ j '(s, i),
       x ← aread bytes (j * cache_line_size); Ok (u64 (s + x), i)))
    (λ cycles, B64.div cycles (B64.div (B64.of_u64 array_size) (B64.of_u64 1024))))
    (mkMBench 0 0 None 0).

(** [data[i] = (i + 1) % array_size]; [sum] is a [volatile int]. *)
Definition links : list Z := (λ i, Z.rem (i + 1) 1000000) <$> seqZ 0 1000000.

Definition profile_cache_miss_latency (k : nat) : outcome mbench :=
  for_loop k 0 (λ _, measured
    (for_loop 1000 0 (λ _ '(s, i),
       i' ← aread links i; s' ← i32_checked (s + i'); Ok (s', i')))
    (λ cycles, B64.div cycles (B64.of_u64 1000)))
    (mkMBench 0 0 None 0).

(** [for (const auto& v : values) if (v >= 128) sum += v;] *)
Fixpoint sum_high (values : list Z) (s : Z) : outcome Z :=
  match values with
  | [] => Ok s
  | v :: values => s' ← (if 128 <=? v then i32_checked (s + v) else Ok s); sum_high values s'
  end.

(** [dis] draws from 0 to 255. *)
Definition branch_values (dis : nat → Z) : list Z := dis <$> seq 0 (Z.to_nat 10000).

Definition profile_branch_prediction (dis : nat → Z) (k : nat) : outcome mbench :=
  for_loop k 0 (λ _, measured
    (λ '(s, i), s' ← sum_high (branch_values dis) s; Ok (s', i))
    (λ cycles, B64.div cycles (B64.of_u64 (Z.of_nat (length (branch_values dis))))))
    (mkMBench 0 0 None 0).
End Memory.

(** ** bench_af_xdp.cpp *)
Section Network.
Context (rdtsc : nat → Z) (clock_gettime : nat → Clock.timespec).
(** What the calls return: a file descriptor, a status, the length of the [n]-th datagram. *)
Context (socket bind : Z) (recvfrom : nat → Z).

Record nbench := mkNBench {
  latencies : list Z;
  opened : list Z;          (* descriptors returned by [socket] *)
  closed : list Z;          (* the calls of [close] *)
  skipped : bool;           (* [SkipWithError] *)
  counters_ : list Z
}.

Definition bench_socket_rx_baseline (k : nat) : outcome nbench :=
  let sock := socket in
  if sock <? 0 then Ok (mkNBench [] [] [] true [])
  else if bind <? 0 then Ok (mkNBench [] [sock] [sock] true [])
  else
    clk ← Clock.calibrate rdtsc clock_gettime (Clock.mkClock Clock.initial_ticks 0 0);
    '(ls, _) ← for_loop k 0 (λ i '(ls, r),
      let tsc_start := rdtsc r in
      let n := recvfrom (Z.to_nat i) in
      let tsc_end := rdtsc (S r) in
      ls' ← (if 0 <? n then record_latency (Clock.ticks_per_ns_ clk) 10000 tsc_start tsc_end ls
             else Ok ls);
      Ok (ls', S (S r))) ([], Clock.tsc_reads clk);
    xs ← counters ls [(1, 2); (95, 100); (99, 100)] false;
    Ok (mkNBench ls [sock] [sock] false xs).

(** The loop that stands for a system call; its counters include a tenth of the median. *)
Definition bench_kernel_vs_userspace_overhead (k : nat) : outcome (list Z * list Z) :=
  clk ← Clock.calibrate rdtsc clock_gettime (Clock.mkClock Clock.initial_ticks 0 0);
  '(ls, _) ← for_loop k 0 (λ _ '(ls, r),
    let tsc_start := rdtsc r in
    _ ← for_loop 3000 0 (λ i dummy, i32_checked (dummy + i)) 0;
    let tsc_end := rdtsc (S r) in
    ls' ← record_latency (Clock.ticks_per_ns_ clk) 10000 tsc_start tsc_end ls;
    Ok (ls', S (S r))) ([], Clock.tsc_reads clk);
  match ls with
  | [] => Ok (ls, [])
  | _ =>
      p50 ← percentile (sort ls) (1, 2);
      p99 ← percentile (sort ls) (99, 100);
      Ok (ls, [p50; p99; p50 / 10])
  end.

Definition mock_message : list Z :=
  ascii "8=FIX.4.4|9=100|35=D|49=SENDER|56=TARGET|34=1|52=20240101-12:00:00|55=EUR/USD|54=1|38=1000000|40=2|44=1.0950|".

(** The parser is not called: [parsed.valid = std::strlen(fix_msg) > 0]. *)
Definition bench_fix_parse_latency (k : nat) : outcome (list Z * bool * list Z) :=
  clk ← Clock.calibrate rdtsc clock_gettime (Clock.mkClock Clock.initial_ticks 0 0);
  '(ls, v, _) ← for_loop k 0 (λ _ '(ls, _, r),
    let tsc_start := rdtsc r in
    let valid := 0 <? Z.of_nat (length mock_message) in
    let tsc_end := rdtsc (S r) in
    ls' ← record_latency (Clock.ticks_per_ns_ clk) 10000 tsc_start tsc_end ls;
    Ok (ls', valid, S (S r))) ([], false, Clock.tsc_reads clk);
  xs ← counters ls [(1, 2); (99, 100)] false;
  Ok (ls, v, xs).
End Network.

(** ** The sums *)
Section MemoryFacts.
Context (rdtsc : nat → Z).

Lemma bytes_lookup i : 0 ≤ i < array_size → aread bytes i = Ok 42.
Proof.
  intros Hi. apply aread_Ok. split; [lia|]. apply lookup_replicate. split; [done|]. lia.
Qed.

Lemma lines_count : Z.of_nat (Z.to_nat (array_size / cache_line_size)) = 10000.
Proof. by rewrite Z2Nat.id. Qed.

(** The bandwidth benchmark stays in its array, and its sum is exact modulo 2^64. *)
Lemma memory_bandwidth_sums k :
  ∃ c, profile_memory_bandwidth rdtsc k = Ok c ∧ sum c = u64 (420000 * Z.of_nat k).
Proof.
  unfold profile_memory_bandwidth.
  match goal with |- context [for_loop k 0 ?b ?c0] =>
    destruct (for_loop_invariant (λ j c, sum c = u64 (420000 * j)) k 0 b c0) as (c & Hc & Hs)
  end; [done| |exists c; by rewrite Z.add_0_l in Hs].
  intros j c _ Hs. unfold measured.
  match goal with |- context [for_loop ?n 0 ?b (sum c, idx c)] =>
    destruct (for_loop_invariant (λ l x, x.1 = u64 (420000 * j + 42 * l)) n 0 b (sum c, idx c))
      as ([s' i'] & -> & Hs')
  end.
  - simpl. by rewrite Z.add_0_r.
  - intros l [s i] Hl Hx. rewrite lines_count in Hl. simpl in Hx.
    rewrite bytes_lookup, bind_ret_l by (unfold array_size, cache_line_size; lia).
    eexists. split; [done|]. simpl. rewrite Hx. unfold wrap. rewrite Zplus_mod_idemp_l. f_equal. lia.
  - rewrite bind_ret_l. eexists. split; [done|]. rewrite lines_count in Hs'. cbn [sum fst] in *.
    rewrite Hs'. f_equal. lia.
Qed.

Lemma links_lookup i : 0 ≤ i < 1000000 → aread links i = Ok ((i + 1) `mod` 1000000).
Proof.
  intros Hi. apply aread_Ok. split; [lia|]. unfold links.
  rewrite list_lookup_fmap, lookup_seqZ_lt by lia. cbn [fmap option_fmap option_map].
  rewrite Z2Nat.id, Z.add_0_l, Z.rem_mod_nonneg by lia. done.
Qed.

(** Before the overflow the position is the number of steps [n] and the sum is triangular. *)
Definition followed (n : Z) (x : Z * Z) : Prop := 2 * x.1 = n * (n + 1) ∧ x.2 = n.

Abbreviation follow := (λ (_ : Z) (x : Z * Z), let '(s, i) := x in
  i' ← aread links i; s' ← i32_checked (s + i'); Ok (s', i')).

Lemma follow_step n j x :
  0 ≤ n < 65535 → followed n x → ∃ x', follow j x = Ok x' ∧ followed (n + 1) x'.
Proof.
  intros Hn [Hs Hi]. destruct x as [s i]. simpl in *. subst i.
  rewrite links_lookup, bind_ret_l, Z.mod_small by lia.
  rewrite i32_checked_Ok, bind_ret_l by nia. eexists. split; [done|]. split; simpl; lia.
Qed.

Lemma follow_overflows j x : followed 65535 x → follow j x = Fault SignedOverflow.
Proof.
  intros [Hs Hi]. destruct x as [s i]. simpl in *. subst i.
  rewrite links_lookup, bind_ret_l, Z.mod_small by lia. rewrite i32_checked_overflow by lia. done.
Qed.

Lemma follow_thousand m c :
  0 ≤ m < 65 → followed (1000 * m) (sum c, idx c) →
  ∃ x, for_loop 1000 0 follow (sum c, idx c) = Ok x ∧ followed (1000 * (m + 1)) x.
Proof.
  intros Hm Hc. destruct (for_loop_invariant (λ j x, followed (1000 * m + j) x) 1000 0 follow (sum c, idx c))
    as (x & Hx & Hf).
  - by rewrite Z.add_0_r.
  - intros j x Hj Hx. destruct (follow_step (1000 * m + j) j x ltac:(lia) Hx) as (x' & ? & ?).
    exists x'. by rewrite Z.add_assoc.
  - exists x. split; [done|]. by replace (1000 * (m + 1)) with (1000 * m + (0 + Z.of_nat 1000)) by lia.
Qed.

Lemma follow_last c :
  followed 65000 (sum c, idx c) → for_loop 1000 0 follow (sum c, idx c) = Fault SignedOverflow.
Proof.
  intros Hc. apply (for_loop_faults (λ j x, followed (65000 + j) x) 535); [by rewrite Z.add_0_r|lia| |].
  - intros j x Hj Hx. destruct (follow_step (65000 + j) j x ltac:(lia) Hx) as (x' & ? & ?).
    exists x'. by rewrite Z.add_assoc.
  - intros x Hx. by apply (follow_overflows 0).
Qed.

(** The cache-miss benchmark has defined behaviour for 65 iterations and no more: in the
    66th the signed sum of the positions it visits overflows. *)
Lemma cache_miss_benchmark_overflows (k : nat) :
  match profile_cache_miss_latency rdtsc k with
  | Ok c => (k ≤ 65)%nat ∧ sum c = 500 * Z.of_nat k * (1000 * Z.of_nat k + 1)
  | Fault e => (66 ≤ k)%nat ∧ e = SignedOverflow
  end.
Proof.
  unfold profile_cache_miss_latency. set (body := λ _ : Z, measured _ _ _).
  assert (∀ j c, 0 ≤ j < 65 → followed (1000 * j) (sum c, idx c) →
    ∃ c', body j c = Ok c' ∧ followed (1000 * (j + 1)) (sum c', idx c')) as Hbody.
  { intros j c Hj Hc. unfold body, measured.
    destruct (follow_thousand j c Hj Hc) as ([s i] & -> & Hf). rewrite bind_ret_l.
    eexists. split; [done|exact Hf]. }
  destruct (decide (k ≤ 65)%nat) as [Hk|Hk].
  - destruct (for_loop_invariant (λ j c, followed (1000 * j) (sum c, idx c)) k 0 body (mkMBench 0 0 None 0))
      as (c & -> & [Hs _]); [done|intros j c Hj; apply Hbody; lia|].
    split; [done|]. simpl in Hs. lia.
  - rewrite (for_loop_faults (λ j c, followed (1000 * j) (sum c, idx c)) 65 k 0 body (mkMBench 0 0 None 0) SignedOverflow);
      [split; [lia|done]|done|lia|intros j c Hj; apply Hbody; lia|].
    intros c Hc. unfold body, measured. by rewrite (follow_last c Hc).
Qed.

(** The sum of the taken branches of one pass. *)
Definition high (values : list Z) : Z := foldr (λ v acc, (if 128 <=? v then v else 0) + acc) 0 values.

Lemma sum_high_spec values s :
  Forall (λ v, 0 ≤ v) values → 0 ≤ s < 2 ^ 31 →
  sum_high values s = if s + high values <? 2 ^ 31 then Ok (s + high values) else Fault SignedOverflow.
Proof.
  intros Hv. revert s. induction Hv as [|v values Hv Hvs IH]; intros s Hs; simpl.
  { rewrite Z.add_0_r. case_Z; [done|lia]. }
  assert (0 ≤ high values) as Hh.
  { clear IH. induction Hvs as [|w ws Hw _ IH]; simpl; [done|]. case_Z; lia. }
  destruct (Z.leb_spec 128 v).
  - destruct (decide (s + v < 2 ^ 31)) as [Hlt|Hge].
    + rewrite i32_checked_Ok, bind_ret_l, IH by lia. by rewrite Z.add_assoc.
    + rewrite i32_checked_overflow by lia. simpl. case_Z; [lia|done].
  - by rewrite bind_ret_l, IH by lia.
Qed.

(** The branch benchmark has defined behaviour exactly as long as its signed sum fits. *)
Lemma branch_benchmark_overflows dis k :
  (∀ n, 0 ≤ dis n ≤ 255) →
  match profile_branch_prediction rdtsc dis k with
  | Ok c => sum c = high (branch_values dis) * Z.of_nat k ∧ sum c < 2 ^ 31
  | Fault e => 2 ^ 31 ≤ high (branch_values dis) * Z.of_nat k ∧ e = SignedOverflow
  end.
Proof.
  intros Hdis.
  assert (Forall (λ v, 0 ≤ v) (branch_values dis)) as Hv.
  { apply Forall_fmap, Forall_forall. intros n _. apply Hdis. }
  set (h := high (branch_values dis)).
  assert (0 ≤ h) as Hh.
  { unfold h. clear h. induction Hv as [|w ws Hw _ IH]; simpl; [done|]. case_Z; lia. }
  unfold profile_branch_prediction. set (body := λ _ : Z, measured _ _ _).
  assert (∀ j c, 0 ≤ j → sum c = h * j → h * j < 2 ^ 31 →
    if h * (j + 1) <? 2 ^ 31 then ∃ c', body j c = Ok c' ∧ sum c' = h * (j + 1)
    else body j c = Fault SignedOverflow) as Hbody.
  { intros j c Hj Hc Hlt. unfold body, measured. rewrite sum_high_spec by (done || lia). fold h.
    rewrite Hc. replace (h * j + h) with (h * (j + 1)) by lia.
    case_Z; [|done]. rewrite !bind_ret_l. eexists. split; [done|]. done. }
  induction k as [|k IH]; [simpl; lia|].
  replace (S k) with (k + 1)%nat by lia. rewrite for_loop_app.
  destruct (for_loop k 0 body (mkMBench 0 0 None 0)) as [c|e].
  - destruct IH as [Hs Hlt]. rewrite bind_ret_l. cbn [for_loop].
    specialize (Hbody (Z.of_nat k) c ltac:(lia) Hs ltac:(lia)).
    rewrite Z.add_0_l. replace (Z.of_nat (k + 1)) with (Z.of_nat k + 1) by lia.
    destruct (Z.ltb_spec (h * (Z.of_nat k + 1)) (2 ^ 31)).
    + destruct Hbody as (c' & -> & Hs'). rewrite bind_ret_l, Hs'. done.
    + by rewrite Hbody.
  - destruct IH as [Hlt ->]. simpl. split; [nia|done].
Qed.
End MemoryFacts.

(** ** The network benchmarks return *)
Section NetworkFacts.
Context (rdtsc : nat → Z) (clock_gettime : nat → Clock.timespec).
Context {Hhost : Clock.HostClocks rdtsc clock_gettime}.

Lemma record_latency_counts ticks cap r ls n :
  Clock.converts_below (2 ^ 48) ticks → Z.of_nat (length ls) = Z.min n cap →
  ∃ ls', record_latency ticks cap (rdtsc r) (rdtsc (S r)) ls = Ok ls' ∧
    Z.of_nat (length ls') = Z.min (n + 1) cap.
Proof using Hhost.
  intros Hticks Hl.
  destruct (record_latency_keeps rdtsc clock_gettime ticks cap r (S r) ls Hticks ltac:(lia)) as [ns ->].
  eexists. split; [done|]. unfold keep_latency. case_Z; [rewrite length_app; simpl|]; lia.
Qed.

(** The datagrams among the first [k] calls of [recvfrom]. *)
Definition received (recvfrom : nat → Z) (k : nat) : Z :=
  Z.of_nat (length (List.filter (λ i, 0 <? recvfrom i) (seq 0 k))).

Lemma received_S recvfrom k :
  received recvfrom (S k) = received recvfrom k + (if 0 <? recvfrom k then 1 else 0).
Proof using.
  unfold received. rewrite seq_S, List.filter_app, length_app. simpl. case_Z; simpl; lia.
Qed.

(** The simulated system call does not overflow. *)
Lemma dummy_fits : ∃ d, for_loop 3000 0 (λ i dummy, i32_checked (dummy + i)) 0 = Ok d.
Proof using.
  destruct (for_loop_invariant (λ j d, 0 ≤ d ≤ 3000 * j) 3000 0 (λ i dummy, i32_checked (dummy + i)) 0)
    as (d & -> & _); [lia| |by eexists].
  intros j d Hj Hd. rewrite i32_checked_Ok by lia. eexists. split; [done|lia].
Qed.

Lemma socket_baseline_returns socket bind recvfrom k :
  ∃ b, bench_socket_rx_baseline rdtsc clock_gettime socket bind recvfrom k = Ok b ∧
    closed b = opened b ∧ skipped b = ((socket <? 0) || (bind <? 0))%bool ∧
    (skipped b = false → Z.of_nat (length (latencies b)) = Z.min (received recvfrom k) 10000).
Proof using Hhost.
  unfold bench_socket_rx_baseline. destruct (socket <? 0); [by eexists|].
  destruct (bind <? 0); [by eexists|]. destruct Clock.host_calibrates as (ticks & Hticks & Hclk).
  rewrite Hclk, bind_ret_l. cbn [Clock.ticks_per_ns_ Clock.tsc_reads].
  match goal with |- context [for_loop k 0 ?b ?s0] =>
    destruct (for_loop_invariant (λ j (s : list Z * nat),
      Z.of_nat (length s.1) = Z.min (received recvfrom (Z.to_nat j)) 10000) k 0 b s0)
      as ([ls r] & -> & Hl)
  end.
  - done.
  - intros j [ls r] Hj Hl. simpl in Hl. replace (Z.to_nat (j + 1)) with (S (Z.to_nat j)) by lia.
    rewrite received_S. destruct (0 <? recvfrom (Z.to_nat j)).
    + destruct (record_latency_counts ticks 10000 r ls _ Hticks Hl) as (ls' & -> & Hl').
      rewrite bind_ret_l. by eexists.
    + rewrite bind_ret_l, Z.add_0_r. by eexists.
  - rewrite bind_ret_l. rewrite Z.add_0_l, Nat2Z.id in Hl.
    destruct (counters_ok ls [(1, 2); (95, 100); (99, 100)] false) as [xs ->];
      [repeat (constructor; [split; simpl; lia|]); constructor|].
    rewrite bind_ret_l. by eexists.
Qed.

Lemma overhead_returns k :
  ∃ ls xs, bench_kernel_vs_userspace_overhead rdtsc clock_gettime k = Ok (ls, xs) ∧
    Z.of_nat (length ls) = Z.min (Z.of_nat k) 10000.
Proof using Hhost.
  unfold bench_kernel_vs_userspace_overhead. destruct Clock.host_calibrates as (ticks & Hticks & Hclk).
  rewrite Hclk, bind_ret_l. cbn [Clock.ticks_per_ns_ Clock.tsc_reads]. destruct dummy_fits as [d Hd].
  match goal with |- context [for_loop k 0 ?b ?s0] =>
    destruct (for_loop_invariant (λ j (s : list Z * nat), Z.of_nat (length s.1) = Z.min j 10000) k 0 b s0)
      as ([ls r] & -> & Hl)
  end.
  - done.
  - intros j [ls r] Hj Hl. simpl in Hl. rewrite Hd, bind_ret_l. clear Hd.
    destruct (record_latency_counts ticks 10000 r ls _ Hticks Hl) as (ls' & -> & Hl').
    rewrite bind_ret_l. by eexists.
  - clear Hd. rewrite bind_ret_l. rewrite Z.add_0_l in Hl. destruct ls as [|l ls]; [by do 2 eexists|].
    destruct (percentile_ok (l :: ls) (1, 2)) as [p50 ->]; [split; simpl; lia|done|].
    destruct (percentile_ok (l :: ls) (99, 100)) as [p99 ->]; [split; simpl; lia|done|].
    rewrite !bind_ret_l. by do 2 eexists.
Qed.

Lemma parse_latency_returns k :
  ∃ ls v xs, bench_fix_parse_latency rdtsc clock_gettime k = Ok (ls, v, xs) ∧
    Z.of_nat (length ls) = Z.min (Z.of_nat k) 10000 ∧ v = (0 <? Z.of_nat k).
Proof using Hhost.
  unfold bench_fix_parse_latency. destruct Clock.host_calibrates as (ticks & Hticks & Hclk).
  rewrite Hclk, bind_ret_l. cbn [Clock.ticks_per_ns_ Clock.tsc_reads].
  match goal with |- context [for_loop k 0 ?b ?s0] =>
    destruct (for_loop_invariant (λ j (s : list Z * bool * nat),
      Z.of_nat (length s.1.1) = Z.min j 10000 ∧ s.1.2 = (0 <? j)) k 0 b s0)
      as ([[ls v] r] & -> & Hl & Hv)
  end.
  - done.
  - intros j [[ls v] r] Hj [Hl Hv]. simpl in Hl.
    destruct (record_latency_counts ticks 10000 r ls _ Hticks Hl) as (ls' & -> & Hl').
    rewrite bind_ret_l. eexists. split; [done|]. split; [done|].
    change (true = (0 <? j + 1)). symmetry. apply Z.ltb_lt. lia.
  - rewrite bind_ret_l. rewrite Z.add_0_l in *.
    destruct (counters_ok ls [(1, 2); (99, 100)] false) as [xs ->];
      [repeat (constructor; [split; simpl; lia|]); constructor|].
    rewrite bind_ret_l. by exists ls, v, xs.
Qed.

(** The benchmarks of bench_af_xdp.cpp return whatever the system calls answer: the
    socket is closed exactly when it was opened, a failure skips the benchmark, a latency is
    kept for every datagram received while the reserve lasts, the simulated system call does
    not overflow, and every percentile is read inside the latencies. *)
Lemma network_benchmarks_return socket bind recvfrom k :
  (∃ b, bench_socket_rx_baseline rdtsc clock_gettime socket bind recvfrom k = Ok b ∧
    closed b = opened b ∧ skipped b = ((socket <? 0) || (bind <? 0))%bool ∧
    (skipped b = false → Z.of_nat (length (latencies b)) = Z.min (received recvfrom k) 10000)) ∧
  (∃ ls xs, bench_kernel_vs_userspace_overhead rdtsc clock_gettime k = Ok (ls, xs) ∧
    Z.of_nat (length ls) = Z.min (Z.of_nat k) 10000) ∧
  (∃ ls v xs, bench_fix_parse_latency rdtsc clock_gettime k = Ok (ls, v, xs) ∧
    Z.of_nat (length ls) = Z.min (Z.of_nat k) 10000 ∧ v = (0 <? Z.of_nat k)).
Proof using Hhost.
  split_and!; [apply socket_baseline_returns|apply overhead_returns|apply parse_latency_returns].
Qed.
End NetworkFacts.

(** A thousand polls of which every third finds a datagram. *)
#[local] Existing Instance Clock.demo_host.
Lemma network_benchmarks_return_example :
  ∃ b, bench_socket_rx_baseline Clock.demo_rdtsc Clock.demo_clock 5 0
      (λ i, if (i mod 3 =? 0)%nat then 64 else -1) 1000 = Ok b ∧
    closed b = opened b ∧ skipped b = false ∧
    (skipped b = false → Z.of_nat (length (latencies b)) = 334).
Proof.
  exact (proj1 (network_benchmarks_return Clock.demo_rdtsc Clock.demo_clock 5 0
           (λ i, if (i mod 3 =? 0)%nat then 64 else -1) 1000)).
Defined.
End MicroBench.
