(* ===== verification/FixMessage.v ===== *)
(** * The FIX parser of 2_network/src/fix_message.cpp

    [parse] and [verify_checksum] over a byte buffer, as they scan it: positions are
    [size_t] indices, every byte is read through the buffer's bounds, and a value is
    a view (offset and length) into the buffer.  The reference is a parser over the
    list of fields one obtains by splitting the buffer at the SOH bytes. *)
From S2P Require Import Prelude.

Module Fix.

(** Bytes are integers in [0, 256). *)
Definition is_byte (c : Z) : Prop := 0 ≤ c < 256.

Definition SOH : Z := 1.

(** [enum class MsgType : uint8_t]: any byte can be cast to it. *)
Definition MsgType : Set := Z.
Definition NewOrderSingle : MsgType := 68.
Definition OrderCancelReq : MsgType := 70.
Definition ExecutionReport : MsgType := 56.
Definition Unknown : MsgType := 0.

(** A [std::string_view]; [None] is the null pointer of a default one. *)
Record string_view : Set := mkView { view_data : option Z; view_size : Z }.

(** [V] is what stands for a piece of text: a view in the program, the text itself
    in the reference. *)
Record FixMessage (V : Type) : Type := mkFix {
  msg_type : MsgType;
  cl_ord_id : V;
  symbol : V;
  side : Z;          (* uint8_t *)
  order_qty : Z;     (* uint32_t *)
  price_ticks : Z;   (* int64_t *)
  ord_type : Z;      (* uint8_t *)
  checksum : Z;      (* uint8_t *)
  valid : bool
}.
Arguments mkFix {V} _ _ _ _ _ _ _ _ _.
Arguments msg_type {V} _.
Arguments cl_ord_id {V} _.
Arguments symbol {V} _.
Arguments side {V} _.
Arguments order_qty {V} _.
Arguments price_ticks {V} _.
Arguments ord_type {V} _.
Arguments checksum {V} _.
Arguments valid {V} _.

(** The default member initialisers. *)
Definition FixMessage_new {V} (no_text : V) : FixMessage V :=
  mkFix Unknown no_text no_text 0 0 0 0 0 false.

(** [char] is signed: bytes from 128 on are negative. *)
Definition char_of (c : Z) : Z := if c <? 128 then c else c - 256.

Definition is_digit (c : Z) : bool := (48 <=? c) && (c <=? 57).
Definition ascii_to_digit (c : Z) : Z := if is_digit c then c - 48 else 255.

(** ** Decoding of values *)

(** [msg.order_qty * 10 + (c - '0')] for every character. *)
Definition parse_qty (value : list Z) : Z :=
  foldl (λ q c, u32 (q * 10 + (char_of c - 48))) 0 value.

(** The [for] loop of the price: digits read, decimal places counted. *)
Fixpoint price_loop (value : list Z) (price_int decimal_places : Z) (in_decimal : bool)
    : outcome (Z * Z) :=
  match value with
  | [] => Ok (price_int, decimal_places)
  | c :: value =>
      if c =? 46 then price_loop value price_int decimal_places true
      else if is_digit c then
        p10 ← i64_checked (price_int * 10);
        p ← i64_checked (p10 + (c - 48));
        d ← (if in_decimal then i32_checked (decimal_places + 1) else Ok decimal_places);
        price_loop value p d in_decimal
      else price_loop value price_int decimal_places in_decimal
  end.

(** [while (decimal_places < 4) price_int *= 10]: at most four iterations, since
    [decimal_places] starts at zero or above. *)
Fixpoint price_scale (fuel : nat) (price_int decimal_places : Z) : outcome Z :=
  if negb (decimal_places <? 4) then Ok price_int
  else match fuel with
       | O => Fault Diverges
       | S fuel =>
           p ← i64_checked (price_int * 10);
           d ← i32_checked (decimal_places + 1);
           price_scale fuel p d
       end.

Definition parse_price (value : list Z) : outcome Z :=
  '(price_int, decimal_places) ← price_loop value 0 0 false;
  price_scale 4 price_int decimal_places.

(** ** Dispatch on the tag *)
Section Dispatch.
Context {V : Type}.
Implicit Type m : FixMessage V.

Definition set_msg_type m x := mkFix x (cl_ord_id m) (symbol m) (side m) (order_qty m)
  (price_ticks m) (ord_type m) (checksum m) (valid m).
Definition set_cl_ord_id m x := mkFix (msg_type m) x (symbol m) (side m) (order_qty m)
  (price_ticks m) (ord_type m) (checksum m) (valid m).
Definition set_symbol m x := mkFix (msg_type m) (cl_ord_id m) x (side m) (order_qty m)
  (price_ticks m) (ord_type m) (checksum m) (valid m).
Definition set_side m x := mkFix (msg_type m) (cl_ord_id m) (symbol m) x (order_qty m)
  (price_ticks m) (ord_type m) (checksum m) (valid m).
Definition set_order_qty m x := mkFix (msg_type m) (cl_ord_id m) (symbol m) (side m) x
  (price_ticks m) (ord_type m) (checksum m) (valid m).
Definition set_price_ticks m x := mkFix (msg_type m) (cl_ord_id m) (symbol m) (side m)
  (order_qty m) x (ord_type m) (checksum m) (valid m).
Definition set_ord_type m x := mkFix (msg_type m) (cl_ord_id m) (symbol m) (side m)
  (order_qty m) (price_ticks m) x (checksum m) (valid m).
Definition set_checksum m x := mkFix (msg_type m) (cl_ord_id m) (symbol m) (side m)
  (order_qty m) (price_ticks m) (ord_type m) x (valid m).
Definition set_valid m x := mkFix (msg_type m) (cl_ord_id m) (symbol m) (side m)
  (order_qty m) (price_ticks m) (ord_type m) (checksum m) x.

(** The [switch]: [value] is the view stored, [text] the bytes it covers. *)
Definition dispatch (tag : Z) (value : V) (text : list Z) m : outcome (FixMessage V) :=
  if tag =? 35 then
    Ok (match text with [c] => set_msg_type m c | _ => m end)
  else if tag =? 11 then Ok (set_cl_ord_id m value)
  else if tag =? 55 then Ok (set_symbol m value)
  else if tag =? 54 then
    Ok (match text with c :: _ => set_side m (u8 (char_of c - 48)) | [] => m end)
  else if tag =? 38 then Ok (set_order_qty m (parse_qty text))
  else if tag =? 44 then p ← parse_price text; Ok (set_price_ticks m p)
  else if tag =? 40 then
    Ok (match text with c :: _ => set_ord_type m (u8 (char_of c - 48)) | [] => m end)
  else if tag =? 10 then
    Ok (match text with
        | c :: d :: _ => set_checksum m (u8 (ascii_to_digit c * 10 + ascii_to_digit d))
        | _ => m
        end)
  else Ok m.

(** [msg.valid = (msg.msg_type != MsgType::Unknown)] *)
Definition finish m : FixMessage V := set_valid m (negb (msg_type m =? Unknown)).
End Dispatch.

(** ** Scanning *)

(** Each loop gets [len] as fuel: it advances [pos] towards [len]. *)
Fixpoint scan_tag (fuel : nat) (buf : list Z) (len pos tag : Z) : outcome (Z * Z) :=
  if negb (pos <? len) then Ok (tag, pos)
  else
    c ← aread buf pos;
    if negb (is_digit c) then Ok (tag, pos)
    else match fuel with
         | O => Fault Diverges
         | S fuel => scan_tag fuel buf len (u64 (pos + 1)) (u32 (tag * 10 + ascii_to_digit c))
         end.

Fixpoint scan_value (fuel : nat) (buf : list Z) (len pos : Z) : outcome Z :=
  if negb (pos <? len) then Ok pos
  else
    c ← aread buf pos;
    if c =? SOH then Ok pos
    else match fuel with
         | O => Fault Diverges
         | S fuel => scan_value fuel buf len (u64 (pos + 1))
         end.

(** The bytes under a view; reading one outside the buffer is a fault. *)
Definition view_text (buf : list Z) (v : string_view) : outcome (list Z) :=
  match view_data v with
  | None => Ok []
  | Some off =>
      if bool_decide (0 ≤ off ∧ 0 ≤ view_size v ∧ off + view_size v ≤ Z.of_nat (length buf))
      then Ok (take (Z.to_nat (view_size v)) (drop (Z.to_nat off) buf))
      else Fault OutOfBounds
  end.

Fixpoint parse_loop (fuel : nat) (buf : list Z) (len pos : Z) (msg : FixMessage string_view)
    : outcome (FixMessage string_view) :=
  if negb (pos <? len) then Ok (finish msg)
  else match fuel with
  | O => Fault Diverges
  | S fuel =>
      '(tag, pos1) ← scan_tag (Z.to_nat len) buf len pos 0;
      malformed ← (if len <=? pos1 then Ok true
                   else c ← aread buf pos1; Ok (negb (c =? 61)));
      if malformed : bool then Ok msg
      else
        let val_start := u64 (pos1 + 1) in
        val_end ← scan_value (Z.to_nat len) buf len val_start;
        let value := mkView (Some val_start) (val_end - val_start) in
        text ← view_text buf value;
        msg' ← dispatch tag value text msg;
        if len <=? val_end then Ok (finish msg')
        else parse_loop fuel buf len (u64 (val_end + 1)) msg'
  end.

(** [buf] is [None] for the null pointer. *)
Definition parse (buf : option (list Z)) (len : Z) : outcome (FixMessage string_view) :=
  let msg := FixMessage_new (mkView None 0) in
  match buf with
  | None => Ok msg
  | Some buf => if len =? 0 then Ok msg else parse_loop (Z.to_nat len) buf len 0 msg
  end.

(** ** The checksum *)
Fixpoint last_soh (fuel : nat) (buf : list Z) (checksum_pos : Z) : outcome Z :=
  if negb (0 <? checksum_pos) then Ok checksum_pos
  else
    c ← aread buf checksum_pos;
    if c =? SOH then Ok checksum_pos
    else match fuel with
         | O => Fault Diverges
         | S fuel => last_soh fuel buf (checksum_pos - 1)
         end.

(** [n] bytes from [i] on are added to [sum]. *)
Fixpoint sum_bytes (n : nat) (buf : list Z) (i sum : Z) : outcome Z :=
  match n with
  | O => Ok sum
  | S n => c ← aread buf i; sum_bytes n buf (i + 1) (u8 (sum + c))
  end.

Definition verify_checksum (buf : option (list Z)) (len : Z) : outcome bool :=
  match buf with
  | None => Ok false
  | Some buf =>
      if len <? 10 then Ok false
      else
        checksum_pos ← last_soh (Z.to_nat len) buf (len - 1);
        sum ← sum_bytes (Z.to_nat checksum_pos) buf 0 0;
        if checksum_pos <? 4 then Ok false
        else
          let start := checksum_pos - 3 in
          c0 ← aread buf start;
          c1 ← aread buf (start + 1);
          c2 ← aread buf (start + 2);
          let stored := u8 ((ascii_to_digit c0 * 100 + ascii_to_digit c1 * 10 +
                             ascii_to_digit c2) `mod` 256) in
          Ok (sum =? stored)
  end.

End Fix.
