(* ===== verification/FixReference.v ===== *)
(** * The reference for the FIX parser

    A message is the list of the fields between its SOH bytes; each is a decimal
    tag, an equals sign and a value.  The scanning loops of [FixMessage] compute the
    same message as one pass over that list, never leave the buffer and always end. *)
From S2P Require Import Prelude FixMessage.

Module FixRef.
Import Fix.

(** ** Fields *)

(** The pieces terminated by SOH, and a last unterminated one if it is not empty. *)
Fixpoint split_soh (l : list Z) : list (list Z) :=
  match l with
  | [] => []
  | c :: l =>
      if c =? SOH then [] :: split_soh l
      else match split_soh l with [] => [[c]] | f :: fs => (c :: f) :: fs end
  end.

Definition decimal_from (n : Z) (ds : list Z) : Z := foldl (λ n c, n * 10 + (c - 48)) n ds.
Definition decimal (ds : list Z) : Z := decimal_from 0 ds.

Definition field_tag (f : list Z) : Z := u32 (decimal (take_while is_digit f)).
Definition field_value (f : list Z) : option (list Z) :=
  match drop_while is_digit f with
  | c :: v => if c =? 61 then Some v else None
  | [] => None
  end.

(** A field without an equals sign after its digits ends the message, which then
    stays invalid. *)
Fixpoint reference (fs : list (list Z)) (m : FixMessage (list Z)) : outcome (FixMessage (list Z)) :=
  match fs with
  | [] => Ok (finish m)
  | f :: fs =>
      match field_value f with
      | None => Ok m
      | Some v => m' ← dispatch (field_tag f) v v m; reference fs m'
      end
  end.

Definition reference_parse (bytes : list Z) : outcome (FixMessage (list Z)) :=
  match bytes with
  | [] => Ok (FixMessage_new [])
  | _ => reference (split_soh bytes) (FixMessage_new [])
  end.

(** ** Views and texts *)
Definition view_bytes (buf : list Z) (v : string_view) : list Z :=
  match view_data v with
  | None => []
  | Some off => take (Z.to_nat (view_size v)) (drop (Z.to_nat off) buf)
  end.

Definition read_views (buf : list Z) (m : FixMessage string_view) : FixMessage (list Z) :=
  mkFix (msg_type m) (view_bytes buf (cl_ord_id m)) (view_bytes buf (symbol m)) (side m)
        (order_qty m) (price_ticks m) (ord_type m) (checksum m) (valid m).

Lemma dispatch_read buf tag value text m :
  view_bytes buf value = text →
  dispatch tag text text (read_views buf m) = read_views buf <$> dispatch tag value text m.
Proof.
  intros Hv. unfold dispatch. case_Z; simpl; try done.
  - by destruct text as [|? []].
  - unfold read_views. simpl. by rewrite Hv.
  - unfold read_views. simpl. by rewrite Hv.
  - by destruct text.
  - by destruct (parse_price text).
  - by destruct text.
  - by destruct text as [|? []].
Qed.

(** ** The scanning loops *)
Definition not_soh (c : Z) : bool := negb (c =? SOH).

Lemma split_soh_unfold l :
  l ≠ [] →
  split_soh l = take_while not_soh l :: split_soh (tail (drop_while not_soh l)).
Proof.
  induction l as [|c l IH]; [done|]. intros _. simpl. unfold not_soh at 1 3.
  destruct (Z.eqb_spec c SOH); simpl; [done|].
  destruct l as [|d l]; [done|]. by rewrite IH.
Qed.

Lemma split_soh_field f rest :
  Forall (λ c, c ≠ SOH) f → split_soh (f ++ SOH :: rest) = f :: split_soh rest.
Proof.
  intros Hf. rewrite split_soh_unfold by by destruct f.
  destruct (while_app not_soh f (SOH :: rest)) as [-> ->]; [|done|done].
  eapply Forall_impl; [exact Hf|]. intros c Hc. unfold not_soh. by case_Z.
Qed.

(** Wrapping at every digit or once at the end is the same. *)
Lemma decimal_wraps n ds :
  foldl (λ t c, u32 (t * 10 + (c - 48))) (u32 n) ds = u32 (decimal_from n ds).
Proof.
  unfold decimal_from. revert n. induction ds as [|c ds IH]; intros n; simpl; [done|].
  by rewrite <-IH, wrap_horner.
Qed.

Section Scan.
Context (buf : list Z) (len : Z).
Hypothesis Hlen : len = Z.of_nat (length buf).
Hypothesis Hsize_t : len < 2 ^ 64.

Lemma scan_tag_spec ds pre rest fuel n :
  buf = pre ++ ds ++ rest → Forall (λ c, is_digit c = true) ds → stops_at is_digit rest →
  (length ds ≤ fuel)%nat →
  scan_tag fuel buf len (Z.of_nat (length pre)) (u32 n) =
    Ok (u32 (decimal_from n ds), Z.of_nat (length (pre ++ ds))).
Proof.
  intros Hbuf Hds Hrest. revert pre fuel n Hbuf.
  induction Hds as [|c ds Hc Hds IH]; intros pre fuel n Hbuf Hfuel; simpl in *.
  - rewrite app_nil_r. destruct rest as [|c rest].
    + destruct fuel; simpl; case_Z; rewrite Hlen, Hbuf, length_app in *; simpl in *; done || lia.
    + simpl in Hrest.
      destruct fuel; simpl; (case_Z; [simpl|done]);
        rewrite Hbuf, (aread_middle pre) by done; simpl; by rewrite Hrest.
  - destruct fuel as [|fuel]; [lia|]. simpl.
    assert (Z.of_nat (length pre) < len) by (rewrite Hlen, Hbuf, length_app; simpl; lia).
    case_Z; [|lia]. simpl. rewrite Hbuf at 1. rewrite aread_middle by done. simpl.
    rewrite Hc. simpl. rewrite wrap_small by lia.
    replace (Z.of_nat (length pre) + 1) with (Z.of_nat (length (pre ++ [c])))
      by (rewrite length_app; simpl; lia).
    replace (u32 (u32 n * 10 + ascii_to_digit c)) with (u32 (n * 10 + (c - 48))).
    + rewrite IH; [|by rewrite <-app_assoc|lia]. by rewrite <-app_assoc.
    + unfold ascii_to_digit. by rewrite Hc, wrap_horner.
Qed.

Lemma scan_value_spec v pre rest fuel :
  buf = pre ++ v ++ rest → Forall (λ c, not_soh c = true) v → stops_at not_soh rest →
  (length v ≤ fuel)%nat →
  scan_value fuel buf len (Z.of_nat (length pre)) = Ok (Z.of_nat (length (pre ++ v))).
Proof.
  intros Hbuf Hv Hrest. revert pre fuel Hbuf.
  induction Hv as [|c v Hc Hv IH]; intros pre fuel Hbuf Hfuel; simpl in *.
  - rewrite app_nil_r. destruct rest as [|c rest].
    + destruct fuel; simpl; case_Z; rewrite Hlen, Hbuf, length_app in *; simpl in *; done || lia.
    + simpl in Hrest. apply negb_false_iff in Hrest.
      destruct fuel; simpl; (case_match; [done|]);
        rewrite Hbuf, (aread_middle pre) by done; simpl; by rewrite Hrest.
  - destruct fuel as [|fuel]; [lia|]. simpl.
    assert (Z.of_nat (length pre) < len) by (rewrite Hlen, Hbuf, length_app; simpl; lia).
    case_match eqn:Hp; [apply negb_true_iff, Z.ltb_ge in Hp; lia|].
    rewrite Hbuf at 1. rewrite aread_middle by done. simpl.
    apply negb_true_iff in Hc. rewrite Hc, wrap_small by lia.
    replace (Z.of_nat (length pre) + 1) with (Z.of_nat (length (pre ++ [c])))
      by (rewrite length_app; simpl; lia).
    rewrite IH; [|by rewrite <-app_assoc|lia]. by rewrite <-app_assoc.
Qed.

Lemma view_text_spec v pre rest :
  buf = pre ++ v ++ rest →
  let value := mkView (Some (Z.of_nat (length pre)))
                 (Z.of_nat (length (pre ++ v)) - Z.of_nat (length pre)) in
  view_text buf value = Ok v ∧ view_bytes buf value = v.
Proof.
  intros Hbuf value. unfold view_text, view_bytes. simpl.
  rewrite length_app, Nat2Z.inj_add, Z.add_simpl_l, !Nat2Z.id.
  assert (take (length v) (drop (length pre) buf) = v) as Heq.
  { by rewrite Hbuf, drop_app_length, take_app_length. }
  rewrite bool_decide_eq_true_2; [by rewrite Heq|].
  rewrite Hbuf, !length_app. lia.
Qed.
(** One field of the buffer: the digits of its tag, and how it goes on. *)
Lemma field_split l :
  ∃ f tl, l = f ++ tl ∧ Forall (λ c, not_soh c = true) f ∧ stops_at not_soh tl ∧
    (l ≠ [] → split_soh l = f :: split_soh (tail tl)).
Proof.
  exists (take_while not_soh l), (drop_while not_soh l). rewrite take_drop_while.
  split_and!; [done|apply take_while_all|apply drop_while_stops|apply split_soh_unfold].
Qed.

Lemma tag_stops f tl :
  stops_at is_digit f → stops_at not_soh tl → stops_at is_digit (f ++ tl).
Proof.
  destruct f; [|done]. simpl. intros _. destruct tl as [|c tl]; simpl; [done|].
  intros Hc. apply negb_false_iff, Z.eqb_eq in Hc. by subst.
Qed.

(** The test [pos >= len || buf[pos] != '='] after the tag. *)
Lemma equals_test pre f tl :
  buf = pre ++ f ++ tl → stops_at not_soh tl →
  (if len <=? Z.of_nat (length pre) then Ok true
   else c ← aread buf (Z.of_nat (length pre)); Ok (negb (c =? 61))) =
  Ok (match f with c :: _ => negb (c =? 61) | [] => true end).
Proof.
  intros Hbuf Htl. destruct f as [|c f]; simpl in Hbuf.
  - destruct tl as [|c tl].
    + case_Z; [done|]. rewrite Hlen, Hbuf, length_app in *. simpl in *. lia.
    + case_Z; [done|]. rewrite Hbuf, aread_middle by done. simpl in *.
      apply negb_false_iff, Z.eqb_eq in Htl. by subst.
  - destruct (Z.leb_spec len (Z.of_nat (length pre)));
      [rewrite Hlen, Hbuf, length_app in *; simpl in *; lia|].
    by rewrite Hbuf, aread_middle.
Qed.

Lemma parse_loop_end fuel pre m :
  buf = pre ++ [] → read_views buf <$> parse_loop fuel buf len (Z.of_nat (length pre)) m =
    reference (split_soh []) (read_views buf m).
Proof.
  intros Hbuf. destruct fuel; simpl; (case_match eqn:Hp; [done|]);
    apply negb_false_iff, Z.ltb_lt in Hp; rewrite Hlen, Hbuf, app_nil_r in Hp; lia.
Qed.

(** One turn of the loop reads one field. *)
Lemma parse_loop_field fuel pre f tl m :
  buf = pre ++ f ++ tl → Forall (λ c, not_soh c = true) f → stops_at not_soh tl → f ++ tl ≠ [] →
  ∃ value, (∀ v, field_value f = Some v → view_bytes buf value = v) ∧
    parse_loop (S fuel) buf len (Z.of_nat (length pre)) m =
      match field_value f with
      | None => Ok m
      | Some v =>
          m' ← dispatch (field_tag f) value v m;
          if len <=? Z.of_nat (length (pre ++ f)) then Ok (finish m')
          else parse_loop fuel buf len (u64 (Z.of_nat (length (pre ++ f)) + 1)) m'
      end.
Proof.
  intros Hbuf Hf Htl Hne. cbn [parse_loop].
  assert (Z.of_nat (length pre) < len) as Hlt.
  { rewrite Hlen, Hbuf, !length_app. destruct f, tl; simpl; done || lia. }
  destruct (Z.ltb_spec (Z.of_nat (length pre)) len); [|lia]. simpl negb. cbv iota.
  set (ds := take_while is_digit f). set (f' := drop_while is_digit f).
  assert (f = ds ++ f') as Hfd by (unfold ds, f'; by rewrite take_drop_while).
  assert (buf = pre ++ ds ++ (f' ++ tl)) as Hbuf1 by (by rewrite Hbuf, Hfd, <-!app_assoc).
  assert (length buf = Z.to_nat len) as Hlen' by lia.
  change 0 with (u32 0) at 1.
  rewrite (scan_tag_spec ds pre (f' ++ tl) _ 0); [|done|apply take_while_all| |].
  2: { apply tag_stops; [apply drop_while_stops|done]. }
  2: { rewrite <-Hlen', Hbuf1, !length_app. lia. }
  rewrite bind_ret_l. cbv beta iota.
  assert (buf = (pre ++ ds) ++ f' ++ tl) as Hbuf2 by (by rewrite Hbuf1, <-app_assoc).
  rewrite (equals_test (pre ++ ds) f' tl Hbuf2 Htl), bind_ret_l.
  unfold field_value, field_tag. fold ds f'.
  destruct f' as [|c v] eqn:Hf'; [by exists (mkView None 0)|].
  destruct (Z.eqb_spec c 61) as [->|]; [|by exists (mkView None 0)].
  simpl negb. cbv iota zeta.
  assert (buf = (pre ++ ds ++ [61]) ++ v ++ tl) as Hbuf3 by by rewrite Hbuf1, <-!app_assoc.
  assert (u64 (Z.of_nat (length (pre ++ ds)) + 1) = Z.of_nat (length (pre ++ ds ++ [61]))) as ->.
  { rewrite wrap_small; [rewrite !length_app; simpl; lia|].
    assert (Z.of_nat (S (length (pre ++ ds))) ≤ len) by (rewrite Hlen, Hbuf2, !length_app; simpl; lia). lia. }
  assert (Forall (λ c, not_soh c = true) v) as Hv.
  { rewrite Hfd in Hf. apply Forall_app in Hf as [_ Hf]. by inversion Hf. }
  rewrite (scan_value_spec v _ tl); [|done..|rewrite <-Hlen', Hbuf3, !length_app; lia].
  rewrite bind_ret_l. destruct (view_text_spec v _ tl Hbuf3) as [Hvt Hvb].
  rewrite Hvt, bind_ret_l. assert ((pre ++ ds ++ [61]) ++ v = pre ++ f) as Hpf by by rewrite Hfd, <-!app_assoc.
  rewrite Hpf in Hvb |- *. eexists. split; [by intros ? [= <-]|done].
Qed.

Lemma parse_loop_refines fuel pre rest m :
  buf = pre ++ rest → (length rest ≤ fuel)%nat →
  read_views buf <$> parse_loop fuel buf len (Z.of_nat (length pre)) m =
    reference (split_soh rest) (read_views buf m).
Proof.
  revert pre rest m. induction fuel as [|fuel IH]; intros pre rest m Hbuf Hfuel.
  { destruct rest; [|simpl in Hfuel; lia]. by apply parse_loop_end. }
  destruct (decide (rest = [])) as [->|Hne]; [by apply parse_loop_end|].
  destruct (field_split rest) as (f & tl & -> & Hf & Htl & Hsplit).
  rewrite (Hsplit Hne). clear Hsplit. cbn [reference].
  destruct (parse_loop_field fuel pre f tl m Hbuf Hf Htl Hne) as (value & Hvb & ->).
  destruct (field_value f) as [v|]; [|done]. rewrite (dispatch_read _ _ _ _ _ (Hvb v eq_refl)).
  destruct (dispatch (field_tag f) value v m) as [m'|]; [|done]. simpl.
  assert (len = Z.of_nat (length (pre ++ f)) + Z.of_nat (length tl)) as Hend.
  { rewrite Hlen, Hbuf, !length_app. lia. }
  destruct tl as [|c tl].
  - case_Z; [done|simpl in *; lia].
  - simpl in Htl. apply negb_false_iff, Z.eqb_eq in Htl. subst c.
    case_Z; [simpl in *; lia|]. simpl tail.
    assert (u64 (Z.of_nat (length (pre ++ f)) + 1) = Z.of_nat (length ((pre ++ f) ++ [SOH]))) as ->.
    { rewrite (length_app _ [SOH]). simpl in *. rewrite wrap_small; lia. }
    apply IH; [by rewrite Hbuf, <-!app_assoc|].
    rewrite length_app in Hfuel. simpl in Hfuel. lia.
Qed.

Lemma parse_refines :
  read_views buf <$> parse (Some buf) len = reference_parse buf.
Proof.
  unfold parse. destruct (Z.eqb_spec len 0).
  - assert (buf = []) as -> by (apply nil_length_inv; lia). done.
  - replace (reference_parse buf) with (reference (split_soh buf) (FixMessage_new []))
      by (destruct buf; [simpl in *; lia|done]).
    apply (parse_loop_refines _ [] buf); [done|lia].
Qed.
End Scan.
End FixRef.
