(* ===== verification/FixValues.v ===== *)
(** * Values of FIX fields

    What the decoding of quantities and prices in [FixMessage] computes, and the
    properties of the parser and of the checksum test. *)
From S2P Require Import Prelude FixMessage FixReference.

Module FixValues.
Import Fix FixRef.

(** ** Decimal numbers *)
Abbreviation all_digits := (Forall (λ c, is_digit c = true)).

Lemma is_digit_range c : is_digit c = true ↔ 48 ≤ c ≤ 57.
Proof. unfold is_digit. rewrite andb_true_iff, !Z.leb_le. done. Qed.

Lemma decimal_from_app n xs ys : decimal_from n (xs ++ ys) = decimal_from (decimal_from n xs) ys.
Proof. apply foldl_app. Qed.

Lemma decimal_from_ge n ds : 0 ≤ n → all_digits ds → n ≤ decimal_from n ds.
Proof.
  intros Hn Hds. revert n Hn. induction Hds as [|c ds Hc%is_digit_range Hds IH]; intros n Hn; simpl.
  - unfold decimal_from. simpl. lia.
  - change (decimal_from n (c :: ds)) with (decimal_from (n * 10 + (c - 48)) ds).
    specialize (IH (n * 10 + (c - 48)) ltac:(lia)). lia.
Qed.

Lemma decimal_from_lt n ds :
  all_digits ds → decimal_from n ds < (n + 1) * 10 ^ Z.of_nat (length ds).
Proof.
  intros Hds. revert n. induction Hds as [|c ds Hc%is_digit_range Hds IH]; intros n.
  - unfold decimal_from. simpl. lia.
  - change (decimal_from n (c :: ds)) with (decimal_from (n * 10 + (c - 48)) ds).
    cbn [length]. rewrite Nat2Z.inj_succ, Z.pow_succ_r by lia.
    pose proof (Z.pow_pos_nonneg 10 (Z.of_nat (length ds))).
    specialize (IH (n * 10 + (c - 48))). nia.
Qed.

(** ** Quantities *)
Lemma parse_qty_digits ds : all_digits ds → parse_qty ds = u32 (decimal ds).
Proof.
  intros Hds. unfold parse_qty, decimal. rewrite <-decimal_wraps. change (u32 0) with 0.
  generalize 0. induction Hds as [|c ds Hc%is_digit_range Hds IH]; intros n; simpl; [done|].
  unfold char_of. case_Z; [apply IH|lia].
Qed.

(** ** Prices *)

(** The digits of a value, the point and everything else ignored, and how many of
    them come after the first point. *)
Definition digits (v : list Z) : list Z := List.filter is_digit v.
Definition decimals (v : list Z) : Z :=
  Z.of_nat (length (digits (drop_while (λ c, negb (c =? 46)) v))).

Lemma digits_all v : all_digits (digits v).
Proof. apply Forall_forall. intros c Hc. apply list_elem_of_In, filter_In in Hc. tauto. Qed.

Lemma digits_length v : (length (digits v) ≤ length v)%nat.
Proof. unfold digits. induction v as [|c v IH]; simpl; [done|]. destruct (is_digit c); simpl; lia. Qed.

Lemma digits_cons c v : digits (c :: v) = if is_digit c then c :: digits v else digits v.
Proof. done. Qed.

Definition places (in_decimal : bool) (v : list Z) : Z :=
  if in_decimal then Z.of_nat (length (digits v)) else decimals v.

Lemma price_loop_spec v p d b :
  0 ≤ p ≤ i64_max → 0 ≤ d → d + Z.of_nat (length v) < 2 ^ 31 →
  price_loop v p d b =
    if decimal_from p (digits v) <=? i64_max
    then Ok (decimal_from p (digits v), d + places b v) else Fault SignedOverflow.
Proof.
  revert p d b. induction v as [|c v IH]; intros p d b Hp Hd Hlen.
  - unfold decimal_from, places, decimals. simpl. case_Z; [|lia].
    by destruct b; rewrite Z.add_0_r.
  - cbn [length] in Hlen. cbn [price_loop]. rewrite digits_cons.
    destruct (Z.eqb_spec c 46) as [->|Hc].
    + rewrite IH by lia. unfold places, decimals. simpl. by destruct b.
    + assert (decimals (c :: v) = decimals v) as Hdec.
      { unfold decimals. simpl. by case_Z. }
      destruct (is_digit c) eqn:Hdig; cycle 1.
      { rewrite IH by lia. unfold places. rewrite Hdec, digits_cons, Hdig. done. }
      pose proof (proj1 (is_digit_range c) Hdig).
      change (decimal_from p (c :: digits v)) with (decimal_from (p * 10 + (c - 48)) (digits v)).
      pose proof (decimal_from_ge (p * 10 + (c - 48)) (digits v) ltac:(lia) (digits_all v)) as Hge.
      destruct (decide (p * 10 + (c - 48) ≤ i64_max)) as [Hfit|Hbig].
      * rewrite i64_checked_Ok by solve_bounds. simpl. rewrite i64_checked_Ok by solve_bounds. simpl.
        assert ((if b then i32_checked (d + 1) else Ok d) = Ok (if b then d + 1 else d)) as ->.
        { destruct b; [apply i32_checked_Ok; lia|done]. }
        simpl. rewrite IH by (destruct b; lia). case_Z; [|done]. do 2 f_equal.
        unfold places. rewrite Hdec, digits_cons, Hdig. destruct b; simpl; lia.
      * destruct (Z.leb_spec (decimal_from (p * 10 + (c - 48)) (digits v)) i64_max); [lia|].
        destruct (decide (p * 10 ≤ i64_max)).
        -- rewrite i64_checked_Ok by solve_bounds. simpl.
           by rewrite i64_checked_overflow by solve_bounds.
        -- by rewrite i64_checked_overflow by solve_bounds.
Qed.

Lemma price_scale_spec fuel p d :
  0 ≤ p ≤ i64_max → 0 ≤ d < 2 ^ 31 → 4 - d ≤ Z.of_nat fuel →
  price_scale fuel p d =
    if p * 10 ^ Z.max 0 (4 - d) <=? i64_max
    then Ok (p * 10 ^ Z.max 0 (4 - d)) else Fault SignedOverflow.
Proof.
  revert p d. induction fuel as [|fuel IH]; intros p d Hp Hd Hfuel; simpl price_scale.
  - destruct (Z.ltb_spec d 4); [lia|]. rewrite Z.max_l by lia. simpl.
    rewrite Z.mul_1_r. by case_Z; [|lia].
  - destruct (Z.ltb_spec d 4); simpl negb; cbv iota.
    + rewrite Z.max_r by lia.
      replace (4 - d) with (Z.succ (Z.max 0 (4 - (d + 1)))) by lia.
      rewrite Z.pow_succ_r, Z.mul_assoc by lia.
      pose proof (Z.pow_pos_nonneg 10 (Z.max 0 (4 - (d + 1))) ltac:(lia) ltac:(lia)).
      destruct (decide (p * 10 ≤ i64_max)).
      * rewrite i64_checked_Ok by solve_bounds. simpl. rewrite i32_checked_Ok by lia. simpl.
        by rewrite IH by lia.
      * rewrite i64_checked_overflow by solve_bounds. simpl. case_Z; [nia|done].
    + rewrite Z.max_l by lia. rewrite Z.mul_1_r. by case_Z; [|lia].
Qed.

Definition price_value (v : list Z) : Z := decimal (digits v) * 10 ^ Z.max 0 (4 - decimals v).

Lemma parse_price_exact v :
  Z.of_nat (length v) < 2 ^ 31 →
  parse_price v = if price_value v <=? i64_max then Ok (price_value v) else Fault SignedOverflow.
Proof.
  intros Hlen. unfold parse_price, price_value.
  rewrite price_loop_spec by (solve_bounds || lia). fold (decimal (digits v)).
  change (0 + places false v) with (decimals v).
  pose proof (decimal_from_ge 0 (digits v) ltac:(lia) (digits_all v)) as Hge.
  fold (decimal (digits v)) in Hge.
  pose proof (Z.pow_pos_nonneg 10 (Z.max 0 (4 - decimals v)) ltac:(lia) ltac:(lia)).
  destruct (Z.leb_spec (decimal (digits v)) i64_max).
  - rewrite bind_ret_l. cbv beta iota. apply (price_scale_spec 4 _ (decimals v)); [lia| |unfold decimals; lia].
    pose proof (digits_length (drop_while (λ c, negb (c =? 46)) v)).
    pose proof (f_equal length (take_drop_while (λ c, negb (c =? 46)) v)) as Hl.
    rewrite length_app in Hl. unfold decimals. lia.
  - simpl. case_Z; [nia|done].
Qed.
End FixValues.
