(* ===== verification/FixParser.v ===== *)
(** * What the FIX parser and the checksum test compute

    The properties of [parse] and [verify_checksum] of 2_network/src/fix_message.cpp. *)
From S2P Require Import Prelude FixMessage FixReference FixValues.

Module FixParser.
Import Fix FixRef FixValues.

(** ** Parsing *)

(** C5: on any buffer, [parse] computes the message one gets by splitting the buffer at
    the SOH bytes and decoding the fields one by one; in particular it never reads
    outside the buffer and always ends, its views cover the text of the fields, and
    the only undefined behaviour it can have is that of the decoding of a value. *)
Theorem parse_is_reference (buf : list Z) (Hlen : Z.of_nat (length buf) < 2 ^ 64) :
  read_views buf <$> parse (Some buf) (Z.of_nat (length buf)) = reference_parse buf.
Proof. by apply parse_refines. Qed.

(** A field of the price tag. *)
Definition price_field (f v : list Z) : Prop := field_tag f = 44 ∧ field_value f = Some v.

Lemma dispatch_cases {V} tag (value : V) text m :
  (∃ m', dispatch tag value text m = Ok m') ∨
  tag = 44 ∧ ∃ e, parse_price text = Fault e ∧ dispatch tag value text m = Fault e.
Proof.
  unfold dispatch. case_Z; try (left; by eexists).
  destruct (parse_price text) as [p|err]; [left; by eexists|]. right. split; [done|]. by exists err.
Qed.

Lemma reference_total fs m :
  (∀ f v, f ∈ fs → price_field f v → Z.of_nat (length v) < 2 ^ 31 ∧ price_value v ≤ i64_max) →
  ∃ m', reference fs m = Ok m'.
Proof.
  revert m. induction fs as [|f fs IH]; intros m Hfs; simpl; [by eexists|].
  destruct (field_value f) as [v|] eqn:Hv; [|by eexists].
  destruct (dispatch_cases (field_tag f) v v m) as [[m' ->]|(Ht & e & He & _)].
  - simpl. apply IH. intros g w Hg. apply Hfs. set_solver.
  - destruct (Hfs f v ltac:(set_solver) (conj Ht Hv)) as [Hl Hp].
    rewrite parse_price_exact in He by done.
    destruct (Z.leb_spec (price_value v) i64_max); [done|lia].
Qed.

(** [parse] returns a message for every buffer whose price fields have a value, in
    ten-thousandths or in the finer unit of their last decimal place, that fits an
    [int64_t]. *)
Lemma parse_total_unless_price_overflows (buf : list Z)
    (Hlen : Z.of_nat (length buf) < 2 ^ 64)
    (Hprices : ∀ f v, f ∈ split_soh buf → price_field f v →
       Z.of_nat (length v) < 2 ^ 31 ∧ price_value v ≤ i64_max) :
  ∃ m, parse (Some buf) (Z.of_nat (length buf)) = Ok m.
Proof.
  pose proof (parse_refines buf (Z.of_nat (length buf)) eq_refl Hlen) as Hr.
  assert (∃ m, reference_parse buf = Ok m) as [m Hm].
  { unfold reference_parse. destruct buf; [by eexists|]. by apply reference_total. }
  rewrite Hm in Hr. destruct (parse _ _) as [m'|]; [by exists m'|done].
Qed.

(** *** Validity *)

(** The message type a field sets, if it sets one. *)
Definition sets_msg_type (f : list Z) : option Z :=
  match field_value f with
  | Some [c] => if field_tag f =? 35 then Some c else None
  | _ => None
  end.

Lemma dispatch_msg_type {V} tag (value : V) text m m' :
  dispatch tag value text m = Ok m' →
  valid m' = valid m ∧
  msg_type m' = match text with [c] => if tag =? 35 then c else msg_type m | _ => msg_type m end.
Proof.
  unfold dispatch. case_Z; try (intros [= <-]; by destruct text as [|? []]).
  destruct (parse_price text); [|done]. intros [= <-]. by destruct text as [|? []].
Qed.

Lemma reference_valid fs m m' :
  reference fs m = Ok m' → valid m = false →
  (valid m' = true ↔
   Forall (λ f, is_Some (field_value f)) fs ∧
   default (msg_type m) (last (omap sets_msg_type fs)) ≠ Unknown).
Proof.
  revert m. induction fs as [|f fs IH]; intros m; cbn [reference].
  - intros [= <-] _. simpl. rewrite negb_true_iff, Z.eqb_neq. naive_solver.
  - destruct (field_value f) as [v|] eqn:Hv.
    + intros (m1 & Hd & Hr)%bind_Ok Hm.
      destruct (dispatch_msg_type _ _ _ _ _ Hd) as [Hval Hty].
      rewrite (IH m1 Hr) by congruence. rewrite Forall_cons, Hv.
      assert (default (msg_type m1) (last (omap sets_msg_type fs)) =
              default (msg_type m) (last (omap sets_msg_type (f :: fs)))) as ->; [|naive_solver].
      cbn [omap list_omap]. unfold sets_msg_type at 2. rewrite Hv, Hty.
      destruct v as [|c []]; try done. destruct (field_tag f =? 35); [|done].
      rewrite last_cons. by destruct (last _).
    + intros [= <-] Hm. rewrite Forall_cons, Hv, Hm. split; [done|]. intros [[[]%is_Some_None _] _].
Qed.

(** [parse] reports a message as valid exactly when every field has a tag followed
    by an equals sign and the last MsgType field with a one-byte value carries a
    byte other than zero: any such byte, not only the three message types known. *)
Lemma parse_valid_iff (buf : list Z) m (Hlen : Z.of_nat (length buf) < 2 ^ 64)
    (Hm : parse (Some buf) (Z.of_nat (length buf)) = Ok m) :
  valid m = true ↔
    Forall (λ f, is_Some (field_value f)) (split_soh buf) ∧
    ∃ c, last (omap sets_msg_type (split_soh buf)) = Some c ∧ c ≠ 0.
Proof.
  pose proof (parse_refines buf (Z.of_nat (length buf)) eq_refl Hlen) as Hr.
  rewrite Hm in Hr. simpl in Hr. symmetry in Hr. change (valid m) with (valid (read_views buf m)).
  assert (reference (split_soh buf) (FixMessage_new []) = Ok (read_views buf m) ∨ buf = []) as [Hr'| ->].
  { destruct buf; [by right|by left]. }
  - rewrite (reference_valid _ _ _ Hr') by done.
    destruct (last _) as [c|]; simpl; naive_solver.
  - injection Hm as <-. split; [done|]. by intros (_ & c & [=] & _).
Qed.

(** ** Prices *)
Lemma is_digit_not_point ds : all_digits ds → Forall (λ c, negb (c =? 46) = true) ds.
Proof.
  intros Hds. eapply Forall_impl; [exact Hds|]. intros c Hc%is_digit_range.
  apply negb_true_iff, Z.eqb_neq. lia.
Qed.

Lemma digits_id ds : all_digits ds → digits ds = ds.
Proof. induction 1 as [|c ds Hc Hds IH]; [done|]. by rewrite digits_cons, Hc, IH. Qed.

Lemma digits_app xs ys : digits (xs ++ ys) = digits xs ++ digits ys.
Proof. apply List.filter_app. Qed.

Lemma price_parts I F :
  all_digits I → all_digits F →
  digits (I ++ 46 :: F) = I ++ F ∧ decimals (I ++ 46 :: F) = Z.of_nat (length F).
Proof.
  intros HI HF. split.
  - rewrite digits_app, digits_cons. simpl. by rewrite !digits_id.
  - unfold decimals.
    rewrite (proj2 (while_app (λ c, negb (c =? 46)) I (46 :: F) (is_digit_not_point I HI) eq_refl)).
    by rewrite digits_cons, (digits_id F).
Qed.

Lemma parse_price_parts I F :
  all_digits I → all_digits F → Z.of_nat (length I + length F) < 2 ^ 30 →
  let ticks := decimal (I ++ F) * 10 ^ Z.max 0 (4 - Z.of_nat (length F)) in
  parse_price (I ++ 46 :: F) = if ticks <=? i64_max then Ok ticks else Fault SignedOverflow.
Proof.
  intros HI HF Hlen. destruct (price_parts I F HI HF) as [Hd Hc].
  rewrite parse_price_exact by (rewrite length_app; simpl; lia).
  unfold price_value. by rewrite Hd, Hc.
Qed.

(** C35: a price of digits, a point and digits is read as its number of ticks, a tick
    being a ten-thousandth with up to four decimals; with more decimals nothing is
    scaled back and the unit is that of the last decimal.  The arithmetic overflows
    exactly when that number does not fit an [int64_t]. *)
Theorem price_scaled_by_its_decimals (I F : list Z) (HI : all_digits I) (HF : all_digits F)
    (Hlen : Z.of_nat (length I + length F) < 2 ^ 30) :
  let ticks := decimal (I ++ F) * 10 ^ Z.max 0 (4 - Z.of_nat (length F)) in
  ticks * 10 ^ Z.of_nat (length F) = decimal (I ++ F) * 10 ^ Z.max 4 (Z.of_nat (length F)) ∧
  parse_price (I ++ 46 :: F) = if ticks <=? i64_max then Ok ticks else Fault SignedOverflow.
Proof.
  intros ticks. split; [|by apply parse_price_parts].
  unfold ticks. rewrite <-Z.mul_assoc, <-Z.pow_add_r by lia. do 2 f_equal. lia.
Qed.

(** ** The checksum *)
Definition total (bs : list Z) : Z := foldr Z.add 0 bs.

Lemma total_app xs ys : total (xs ++ ys) = total xs + total ys.
Proof. induction xs as [|x xs IH]; simpl; [done|]. lia. Qed.

Lemma sum_bytes_spec n pre mid post s :
  n = length mid →
  sum_bytes n (pre ++ mid ++ post) (Z.of_nat (length pre)) (u8 s) = Ok (u8 (s + total mid)).
Proof.
  intros ->. revert pre s. induction mid as [|c mid IH]; intros pre s; simpl.
  - by rewrite Z.add_0_r.
  - rewrite aread_middle by done. simpl.
    replace (u8 (u8 s + c)) with (u8 (s + c)) by (unfold wrap; by rewrite Zplus_mod_idemp_l).
    replace (Z.of_nat (length pre) + 1) with (Z.of_nat (length (pre ++ [c])))
      by (rewrite length_app; simpl; lia).
    replace (pre ++ c :: mid ++ post) with ((pre ++ [c]) ++ mid ++ post) by by rewrite <-app_assoc.
    rewrite IH. do 2 f_equal. lia.
Qed.

Lemma last_soh_finds pre post rest fuel :
  SOH ∉ post → (length post ≤ fuel)%nat →
  last_soh fuel ((pre ++ SOH :: post) ++ rest) (Z.of_nat (length pre + length post)) =
    Ok (Z.of_nat (length pre)).
Proof.
  revert fuel rest. induction post as [|c post IH] using rev_ind; intros fuel rest Hn Hf.
  - rewrite Nat.add_0_r, <-app_assoc. destruct fuel; simpl; (case_match; [done|]);
      by rewrite aread_middle.
  - rewrite length_app in Hf |- *. simpl in Hf |- *. destruct fuel as [|fuel]; [lia|].
    cbn [last_soh]. destruct (Z.ltb_spec 0 (Z.of_nat (length pre + (length post + 1)))); [|lia].
    simpl negb. cbv iota.
    replace ((pre ++ SOH :: post ++ [c]) ++ rest) with ((pre ++ SOH :: post) ++ c :: rest)
      by by rewrite <-!app_assoc; simpl; rewrite <-app_assoc.
    rewrite aread_middle by (rewrite length_app; simpl; lia). rewrite bind_ret_l.
    destruct (Z.eqb_spec c SOH); [set_solver|].
    replace (Z.of_nat _ - 1) with (Z.of_nat (length pre + length post)) by lia.
    apply IH; [set_solver|lia].
Qed.

Lemma last_soh_absent l rest fuel :
  SOH ∉ l → l ≠ [] → (length l ≤ fuel)%nat →
  last_soh fuel (l ++ rest) (Z.of_nat (length l) - 1) = Ok 0.
Proof.
  revert fuel rest. induction l as [|c l IH] using rev_ind; intros fuel rest Hn Hne Hf; [done|].
  rewrite length_app in Hf |- *. simpl in Hf |- *. destruct fuel as [|fuel]; [lia|].
  replace (Z.of_nat (length l + 1) - 1) with (Z.of_nat (length l)) by lia. cbn [last_soh].
  destruct (Z.ltb_spec 0 (Z.of_nat (length l))); simpl negb; cbv iota; [|f_equal; lia].
  rewrite <-app_assoc. simpl app. rewrite aread_middle by done. rewrite bind_ret_l.
  destruct (Z.eqb_spec c SOH); [set_solver|].
  apply IH; [set_solver|by destruct l|lia].
Qed.

(** The three bytes taken as the stored checksum. *)
Definition stored_checksum (c0 c1 c2 : Z) : Z :=
  u8 ((ascii_to_digit c0 * 100 + ascii_to_digit c1 * 10 + ascii_to_digit c2) `mod` 256).

Lemma verify_checksum_compares body c0 c1 c2 post :
  body ≠ [] → SOH ∉ post → (10 ≤ length (body ++ [c0; c1; c2]) + S (length post))%nat →
  let buf := body ++ [c0; c1; c2] ++ SOH :: post in
  verify_checksum (Some buf) (Z.of_nat (length buf)) =
    Ok (u8 (total (body ++ [c0; c1; c2])) =? stored_checksum c0 c1 c2).
Proof.
  intros Hb Hp Hl buf. set (pre := body ++ [c0; c1; c2]) in *.
  assert (buf = pre ++ SOH :: post) as Hbuf by by unfold buf, pre; rewrite <-app_assoc.
  assert (length buf = (length pre + S (length post))%nat) as Hlb
    by by rewrite Hbuf, length_app.
  assert (length pre = (length body + 3)%nat) as Hlp by (unfold pre; by rewrite length_app).
  assert (0 < length body)%nat by (destruct body; simpl; [done|lia]).
  unfold verify_checksum. destruct (Z.ltb_spec (Z.of_nat (length buf)) 10); [lia|].
  replace (Z.of_nat (length buf) - 1) with (Z.of_nat (length pre + length post)) by lia.
  replace buf with ((pre ++ SOH :: post) ++ []) at 2 by by rewrite app_nil_r.
  rewrite last_soh_finds by (done || lia). rewrite bind_ret_l, Nat2Z.id.
  assert (sum_bytes (length pre) buf 0 0 = Ok (u8 (total pre))) as ->.
  { rewrite Hbuf. exact (sum_bytes_spec (length pre) [] pre (SOH :: post) 0 eq_refl). }
  rewrite bind_ret_l.
  destruct (Z.ltb_spec (Z.of_nat (length pre)) 4); [lia|].
  assert (∀ xs c ys k, buf = xs ++ c :: ys → k = Z.of_nat (length xs) → aread buf k = Ok c) as Hread
    by by intros xs c ys k -> ->; apply aread_middle.
  cbv zeta. rewrite (Hread body c0 (c1 :: c2 :: SOH :: post) (Z.of_nat (length pre) - 3)), bind_ret_l; [|done|lia].
  rewrite (Hread (body ++ [c0]) c1 (c2 :: SOH :: post) (Z.of_nat (length pre) - 3 + 1)), bind_ret_l;
    [|by unfold buf; rewrite <-app_assoc|rewrite length_app; simpl; lia].
  rewrite (Hread (body ++ [c0; c1]) c2 (SOH :: post) (Z.of_nat (length pre) - 3 + 2)), bind_ret_l;
    [|by unfold buf; rewrite <-app_assoc|rewrite length_app; simpl; lia].
  done.
Qed.

Lemma last_soh_split (l : list Z) : SOH ∉ l ∨ (∃ pre post, l = pre ++ SOH :: post ∧ SOH ∉ post).
Proof.
  destruct (decide (SOH ∈ l)) as [Hin|]; [right|by left].
  apply list_elem_of_split_r in Hin as (pre & post & -> & Hn). by exists pre, post.
Qed.

(** With fewer than four bytes before the last SOH, or none, the answer is [false]. *)
Lemma verify_checksum_short buf :
  (SOH ∉ buf ∨ (∃ pre post, buf = pre ++ SOH :: post ∧ (SOH ∉ post) ∧ (length pre < 4)%nat)) →
  verify_checksum (Some buf) (Z.of_nat (length buf)) = Ok false.
Proof.
  intros Hb. unfold verify_checksum. destruct (Z.ltb_spec (Z.of_nat (length buf)) 10); [done|].
  destruct Hb as [Hn|(pre & post & -> & Hn & Hl)].
  - rewrite <-(app_nil_r buf) at 2. rewrite last_soh_absent; [done|done|by destruct buf|lia].
  - rewrite length_app in *. simpl in *.
    replace (Z.of_nat (length pre + S (length post)) - 1)
      with (Z.of_nat (length pre + length post)) by lia.
    rewrite <-(app_nil_r (pre ++ SOH :: post)) at 1.
    rewrite last_soh_finds, bind_ret_l, Nat2Z.id by (done || lia).
    pose proof (sum_bytes_spec (length pre) [] pre (SOH :: post) 0 eq_refl) as Hs.
    change (sum_bytes (length pre) (pre ++ SOH :: post) 0 0 = Ok (u8 (0 + total pre))) in Hs.
    rewrite Hs, bind_ret_l. by destruct (Z.ltb_spec (Z.of_nat (length pre)) 4); [|lia].
Qed.

(** C34: on any buffer [verify_checksum] ends and stays inside the buffer; it accepts
    only buffers in which the sum modulo 256 of every byte before the last SOH, the
    three bytes before it included, is the number these three bytes spell. *)
Theorem verify_checksum_safe (buf : list Z) :
  ∃ b, verify_checksum (Some buf) (Z.of_nat (length buf)) = Ok b ∧
    (b = true → ∃ body c0 c1 c2 post, buf = body ++ [c0; c1; c2] ++ SOH :: post ∧
       (SOH ∉ post) ∧ u8 (total (body ++ [c0; c1; c2])) = stored_checksum c0 c1 c2).
Proof.
  destruct (last_soh_split buf) as [Hn|(pre & post & -> & Hn)].
  { exists false. split; [|done]. apply verify_checksum_short. by left. }
  destruct (decide (length pre < 4)%nat) as [Hl|Hl].
  { exists false. split; [|done]. apply verify_checksum_short. right. by exists pre, post. }
  destruct (decide (length (pre ++ SOH :: post) < 10)%nat) as [Hs|Hs].
  { exists false. split; [|done]. unfold verify_checksum.
    destruct (Z.ltb_spec (Z.of_nat (length (pre ++ SOH :: post))) 10); [done|lia]. }
  assert (∃ body c0 c1 c2, body ≠ [] ∧ pre = body ++ [c0; c1; c2]) as (body & c0 & c1 & c2 & Hb & ->).
  { exists (take (length pre - 3) pre).
    pose proof (take_drop (length pre - 3) pre) as Htd.
    destruct (drop (length pre - 3) pre) as [|c0 [|c1 [|c2 []]]] eqn:Hd;
      apply (f_equal length) in Hd; rewrite length_drop in Hd; simpl in Hd; try lia.
    exists c0, c1, c2. split; [|done]. intros Hnil. apply (f_equal length) in Hnil.
    rewrite length_take in Hnil. simpl in Hnil. lia. }
  pose proof (verify_checksum_compares body c0 c1 c2 post Hb Hn) as Hv.
  rewrite <-app_assoc in Hs |- *. eexists. split.
  - apply Hv. rewrite length_app in Hs |- *. simpl in *. lia.
  - intros Heq%Z.eqb_eq. by exists body, c0, c1, c2, post.
Qed.

(** The checksum field of the FIX standard: the sum of all bytes before it, modulo 256,
    as three digits. *)
Definition checksum_field (body : list Z) : list Z :=
  let s := total body `mod` 256 in
  [49; 48; 61; 48 + s / 100; 48 + (s / 10) `mod` 10; 48 + s `mod` 10; SOH].

(** C33: [verify_checksum] rejects every message that carries the checksum the FIX
    standard asks for, since it also adds up the bytes of the checksum field. *)
Theorem verify_checksum_rejects_fix_messages (body : list Z) :
  let msg := body ++ checksum_field body in
  verify_checksum (Some msg) (Z.of_nat (length msg)) = Ok false.
Proof.
  intros msg. pose proof (Z.mod_pos_bound (total body) 256 ltac:(lia)) as Hs.
  unfold msg, checksum_field. set (s := total body `mod` 256) in *.
  set (a := s / 100). set (b := (s / 10) `mod` 10). set (c := s `mod` 10).
  assert (0 ≤ a < 10) by (unfold a; split; [apply Z.div_pos|apply Z.div_lt_upper_bound]; lia).
  assert (0 ≤ b < 10) by (apply Z.mod_pos_bound; lia).
  assert (0 ≤ c < 10) by (apply Z.mod_pos_bound; lia).
  assert (s = 100 * a + 10 * b + c) as Hd.
  { unfold a, b, c. clear -Hs. pose proof (Z.div_mod s 10 ltac:(lia)).
    pose proof (Z.div_mod (s / 10) 10 ltac:(lia)).
    change (s / 100) with (s / (10 * 10)). rewrite <-Z.div_div by lia. lia. }
  assert (body ++ [49; 48; 61; 48 + a; 48 + b; 48 + c; SOH] =
          (body ++ [49; 48; 61]) ++ [48 + a; 48 + b; 48 + c] ++ SOH :: []) as ->
    by by rewrite <-app_assoc.
  destruct (decide (length body < 3)%nat) as [Hshort|].
  { unfold verify_checksum. rewrite !length_app. simpl.
    by destruct (Z.ltb_spec (Z.of_nat (length body + 3 + 4)) 10); [|lia]. }
  rewrite verify_checksum_compares; [|by destruct body|set_solver|rewrite !length_app; simpl; lia].
  f_equal. apply Z.eqb_neq. unfold stored_checksum, ascii_to_digit.
  rewrite !(proj2 (is_digit_range _)) by lia. rewrite !total_app. simpl total.
  replace (48 + a - 48) with a by lia. replace (48 + b - 48) with b by lia.
  replace (48 + c - 48) with c by lia. unfold wrap.
  change (2 ^ 8) with 256. rewrite Zmod_mod.
  replace (a * 100 + b * 10 + c) with s by lia. rewrite (Z.mod_small s) by lia.
  rewrite <-!Z.add_assoc, <-Zplus_mod_idemp_l. fold s. intros Heq.
  match type of Heq with ?x `mod` _ = _ => pose proof (Z.div_mod x 256 ltac:(lia)) end.
  lia.
Qed.
(** ** Concrete buffers *)
Definition demo_message : list Z :=
  ascii "35=D" ++ [SOH] ++ ascii "11=ORDER123" ++ [SOH] ++ ascii "54=1" ++ [SOH] ++
  ascii "38=100" ++ [SOH] ++ ascii "44=150.5000" ++ [SOH] ++ ascii "10=123" ++ [SOH].

Lemma parse_is_reference_witness :
  read_views demo_message <$> parse (Some demo_message) (Z.of_nat (length demo_message)) =
    Ok (mkFix NewOrderSingle (ascii "ORDER123") [] 1 100 1505000 0 12 true).
Proof. exact (parse_is_reference demo_message eq_refl). Defined.

Lemma demo_prices f v :
  f ∈ split_soh demo_message → price_field f v →
  Z.of_nat (length v) < 2 ^ 31 ∧ price_value v ≤ i64_max.
Proof.
  intros Hf [Ht Hv]. repeat (apply elem_of_cons in Hf as [->|Hf]; [try discriminate Ht|]).
  - injection Hv as <-. split; [reflexivity|discriminate].
  - by apply not_elem_of_nil in Hf.
Qed.

(** The message type 'Z' is none of the three the program knows. *)
Lemma parse_valid_iff_example :
  ∃ m, parse (Some (ascii "35=Z" ++ [SOH])) 5 = Ok m ∧
    (valid m = true ↔
      Forall (λ f, is_Some (field_value f)) [ascii "35=Z"] ∧ ∃ c, Some 90 = Some c ∧ c ≠ 0).
Proof.
  eexists. split; [reflexivity|].
  exact (parse_valid_iff (ascii "35=Z" ++ [SOH]) _ eq_refl eq_refl).
Defined.

(** Four decimals and six. *)
Lemma price_scaled_by_its_decimals_witness :
  (1505000 * 10 ^ 4 = 1505000 * 10 ^ 4 ∧ parse_price (ascii "150.5000") = Ok 1505000) ∧
  (1234567 * 10 ^ 6 = 1234567 * 10 ^ 6 ∧ parse_price (ascii "1.234567") = Ok 1234567).
Proof.
  split.
  - exact (price_scaled_by_its_decimals (ascii "150") (ascii "5000") ltac:(repeat constructor)
             ltac:(repeat constructor) eq_refl).
  - exact (price_scaled_by_its_decimals (ascii "1") (ascii "234567") ltac:(repeat constructor)
             ltac:(repeat constructor) eq_refl).
Defined.
End FixParser.
