(* ===== verification/FixPipeline.v ===== *)
(** * From FIX bytes to the order book

    The message generator and the parse-and-match loop of
    2_network/bench/bench_fix_pipeline.cpp: what the generator writes the parser
    reads back, and a message then does to the book what its order does. *)
From S2P Require Import Prelude Fifo SpscQueue PriceLadder OrderBook.
From S2P Require Import FixMessage FixReference FixValues FixParser.

Module Pipeline.
Import Book Fix FixRef FixValues FixParser.

(** [std::to_string] of an [int]; ten digits are enough for 32 bits. *)
Fixpoint to_digits (fuel : nat) (n : Z) : list Z :=
  match fuel with
  | O => []
  | S fuel => if n <? 10 then [48 + n] else to_digits fuel (n / 10) ++ [48 + n `mod` 10]
  end.
Definition to_string (n : Z) : list Z :=
  if n <? 0 then 45 :: to_digits 10 (- n) else to_digits 10 n.

(** Integer division and remainder of C++ truncate. *)
Definition make_fix_message (order_id qty price side : Z) : list Z :=
  ascii "8=FIX.4.2" ++ [SOH] ++ ascii "9=65" ++ [SOH] ++ ascii "35=D" ++ [SOH] ++
  ascii "49=SENDER" ++ [SOH] ++ ascii "56=TARGET" ++ [SOH] ++ ascii "34=" ++
  to_string order_id ++
  [SOH] ++ ascii "11=ORDER" ++
  to_string order_id ++
  [SOH] ++ ascii "55=AAPL" ++ [SOH] ++ ascii "54=" ++
  [side] ++
  [SOH] ++ ascii "38=" ++
  to_string qty ++
  [SOH] ++ ascii "44=" ++
  to_string (Z.quot price 10000) ++
  ascii "." ++
  to_string (Z.quot (Z.rem price 10000) 1000) ++
  to_string (Z.quot (Z.rem price 1000) 100) ++
  to_string (Z.quot (Z.rem price 100) 10) ++
  to_string (Z.rem price 10) ++
  [SOH] ++ ascii "40=2" ++ [SOH] ++ ascii "10=123" ++ [SOH].

Section Step.
Context {Q : Type} `{FifoOps Z Q} (max_orders : Z) (rdtsc : nat → Z).

(** One message of the loop; the result is the difference of the two readings. *)
Definition pipeline_step (msg_str : list Z) (ob : OrderBook Q) (w : world)
    : outcome (Z * OrderBook Q * world) :=
  let '(tsc_start, w1) := TscClock_now rdtsc w in
  fix_msg ← parse (Some msg_str) (Z.of_nat (length msg_str));
  '(ob', w2) ←
    (if valid fix_msg && (msg_type fix_msg =? NewOrderSingle) then
       let s := if Fix.side fix_msg =? 1 then Buy else Sell in
       '(_, ob', w2) ← add_order max_orders rdtsc s (Fix.price_ticks fix_msg)
                         (order_qty fix_msg) Limit ob w1;
       Ok (ob', w2)
     else Ok (ob, w1));
  let '(tsc_end, w3) := TscClock_now rdtsc w2 in
  Ok (u64 (tsc_end - tsc_start), ob', w3).
End Step.

(** ** Printing *)
Lemma to_digits_spec fuel n :
  0 ≤ n < 10 ^ Z.of_nat fuel → (0 < fuel)%nat →
  all_digits (to_digits fuel n) ∧ decimal (to_digits fuel n) = n ∧
  (length (to_digits fuel n) ≤ fuel)%nat ∧ (n < 10 → to_digits fuel n = [48 + n]).
Proof.
  revert n. induction fuel as [|fuel IH]; intros n Hn Hf; [lia|]. cbn [to_digits].
  destruct (Z.ltb_spec n 10) as [Hlt|Hge].
  - split_and!; [repeat constructor; apply is_digit_range; lia| |simpl; lia|done].
    unfold decimal, decimal_from. simpl. lia.
  - rewrite Nat2Z.inj_succ, Z.pow_succ_r in Hn by lia.
    destruct fuel as [|fuel]; [simpl in Hn; lia|].
    pose proof (Z.div_mod n 10 ltac:(lia)). pose proof (Z.mod_pos_bound n 10 ltac:(lia)).
    destruct (IH (n / 10)) as (Hd & Hv & Hl & _); [|lia|].
    { split; [apply Z.div_pos; lia|apply Z.div_lt_upper_bound; lia]. }
    split_and!; [| |rewrite length_app; simpl length at 2; lia|lia].
    + apply Forall_app. split; [done|]. repeat constructor. apply is_digit_range. lia.
    + unfold decimal in *. rewrite decimal_from_app, Hv. unfold decimal_from. simpl. lia.
Qed.

Lemma to_string_spec n :
  0 ≤ n < 2 ^ 31 →
  all_digits (to_string n) ∧ decimal (to_string n) = n ∧ (length (to_string n) ≤ 10)%nat ∧
  (n < 10 → to_string n = [48 + n]).
Proof.
  intros Hn. unfold to_string. destruct (Z.ltb_spec n 0); [lia|]. apply to_digits_spec; lia.
Qed.

Lemma all_digits_not_soh ds : all_digits ds → Forall (λ c, c ≠ SOH) ds.
Proof.
  intros Hds. eapply Forall_impl; [exact Hds|]. intros c Hc%is_digit_range. unfold SOH. lia.
Qed.

(** ** The fields of a generated message *)
Definition price_text (price : Z) : list Z :=
  to_string (price / 10000) ++ 46 ::
  [48 + price `mod` 10000 / 1000; 48 + price `mod` 1000 / 100;
   48 + price `mod` 100 / 10; 48 + price `mod` 10].

Definition message_fields (order_id qty price side : Z) : list (list Z) :=
  [ascii "8=FIX.4.2"; ascii "9=65"; ascii "35=D"; ascii "49=SENDER"; ascii "56=TARGET";
   ascii "34=" ++ to_string order_id; ascii "11=ORDER" ++ to_string order_id;
   ascii "55=AAPL"; ascii "54=" ++ [side]; ascii "38=" ++ to_string qty;
   ascii "44=" ++ price_text price; ascii "40=2"; ascii "10=123"].

Lemma rem_digit price k :
  0 ≤ price → 0 < k → to_string (Z.quot (Z.rem price (10 * k)) k) = [48 + price `mod` (10 * k) / k].
Proof.
  intros Hp Hk. rewrite Z.rem_mod_nonneg by lia.
  pose proof (Z.mod_pos_bound price (10 * k) ltac:(lia)).
  rewrite Z.quot_div_nonneg by lia.
  assert (0 ≤ price `mod` (10 * k) / k < 10).
  { split; [apply Z.div_pos; lia|apply Z.div_lt_upper_bound; lia]. }
  by apply to_string_spec; lia.
Qed.

Lemma make_fix_message_fields order_id qty price side :
  0 ≤ price < 2 ^ 31 →
  make_fix_message order_id qty price side =
    concat ((λ f, f ++ [SOH]) <$> message_fields order_id qty price side).
Proof.
  intros Hp. unfold make_fix_message, message_fields, price_text.
  pose proof (rem_digit price 1000 ltac:(lia) ltac:(lia)) as H1000.
  pose proof (rem_digit price 100 ltac:(lia) ltac:(lia)) as H100.
  pose proof (rem_digit price 10 ltac:(lia) ltac:(lia)) as H10.
  change (10 * 1000) with 10000 in H1000. change (10 * 100) with 1000 in H100.
  change (10 * 10) with 100 in H10. rewrite H1000, H100, H10.
  replace (to_string (Z.rem price 10)) with [48 + price `mod` 10].
  - rewrite Z.quot_div_nonneg by lia. cbn [fmap list_fmap concat].
    rewrite <-!app_assoc. done.
  - pose proof (rem_digit price 1 ltac:(lia) ltac:(lia)) as Hr.
    rewrite Z.mul_1_r, Z.quot_1_r, Z.div_1_r in Hr. done.
Qed.

Lemma split_soh_concat fs :
  Forall (Forall (λ c, c ≠ SOH)) fs → split_soh (concat ((λ f, f ++ [SOH]) <$> fs)) = fs.
Proof.
  induction 1 as [|f fs Hf Hfs IH]; [done|]. cbn [fmap list_fmap concat].
  rewrite <-app_assoc. simpl app. by rewrite split_soh_field, IH.
Qed.

Lemma ascii_not_soh s : bool_decide (Forall (λ c, c ≠ SOH) (ascii s)) = true → Forall (λ c, c ≠ SOH) (ascii s).
Proof. apply bool_decide_eq_true. Qed.

Lemma message_fields_no_soh order_id qty price side :
  0 ≤ order_id < 2 ^ 31 → 0 ≤ qty < 2 ^ 31 → 0 ≤ price < 2 ^ 31 → side ≠ SOH →
  Forall (Forall (λ c, c ≠ SOH)) (message_fields order_id qty price side).
Proof.
  intros Hid Hqty Hp Hside. unfold message_fields, price_text.
  pose proof (to_string_spec order_id Hid) as (?%all_digits_not_soh & _).
  pose proof (to_string_spec qty Hqty) as (?%all_digits_not_soh & _).
  assert (0 ≤ price / 10000 < 2 ^ 31) as Hq.
  { split; [apply Z.div_pos; lia|apply Z.div_lt_upper_bound; lia]. }
  pose proof (to_string_spec _ Hq) as (?%all_digits_not_soh & _).
  assert (∀ x, 0 ≤ x → 48 + x ≠ SOH) as Hd by (unfold SOH; lia).
  repeat constructor; rewrite ?Forall_app; try (split; [by apply ascii_not_soh|]);
    try by apply ascii_not_soh.
  all: try done; try (by repeat constructor).
  split; [done|]. repeat constructor; try apply Hd; try done;
    repeat (apply Z.div_pos || apply Z.mod_pos_bound); lia.
Qed.

(** The four decimals of a price. *)
Lemma price_text_parses price :
  0 ≤ price < 2 ^ 31 → parse_price (price_text price) = Ok price.
Proof.
  intros Hp. unfold price_text.
  assert (0 ≤ price / 10000 < 2 ^ 31) as Hq.
  { split; [apply Z.div_pos; lia|apply Z.div_lt_upper_bound; lia]. }
  destruct (to_string_spec _ Hq) as (HI & Hv & Hl & _).
  pose proof (Z.div_mod price 10000 ltac:(lia)). pose proof (Z.mod_pos_bound price 10000 ltac:(lia)).
  assert (∀ k, 0 < k → 0 ≤ price `mod` (10 * k) / k < 10 ∧
            price `mod` (10 * k) = k * (price `mod` (10 * k) / k) + price `mod` k) as Hk.
  { intros k Hk. pose proof (Z.mod_pos_bound price (10 * k) ltac:(lia)). split.
    - split; [apply Z.div_pos; lia|apply Z.div_lt_upper_bound; lia].
    - rewrite (Z.div_mod (price `mod` (10 * k)) k) at 1 by lia. f_equal.
      rewrite Z.mod_mod_divide; [done|]. by exists 10. }
  destruct (Hk 1000 ltac:(lia)) as [? Hk3]. destruct (Hk 100 ltac:(lia)) as [? Hk2].
  destruct (Hk 10 ltac:(lia)) as [? Hk1]. pose proof (Z.mod_pos_bound price 10 ltac:(lia)).
  change (10 * 1000) with 10000 in *. change (10 * 100) with 1000 in *.
  change (10 * 10) with 100 in *.
  rewrite parse_price_parts; [|done| |simpl; lia].
  2: { repeat constructor; apply is_digit_range; lia. }
  assert (decimal (to_string (price / 10000) ++
            [48 + price `mod` 10000 / 1000; 48 + price `mod` 1000 / 100;
             48 + price `mod` 100 / 10; 48 + price `mod` 10]) = price) as ->.
  { unfold decimal in *. rewrite decimal_from_app, Hv. unfold decimal_from. simpl. lia. }
  simpl length. change (10 ^ Z.max 0 (4 - Z.of_nat 4)) with 1. rewrite Z.mul_1_r.
  by destruct (Z.leb_spec price i64_max); [|unfold i64_max in *; lia].
Qed.

Lemma reference_field f fs t v m :
  field_tag f = t → field_value f = Some v →
  reference (f :: fs) m = m' ← dispatch t v v m; reference fs m'.
Proof. intros <- Hv. simpl. by rewrite Hv. Qed.

(** The message a generated buffer stands for. *)
Definition order_message (order_id qty price side : Z) : FixMessage (list Z) :=
  mkFix NewOrderSingle (ascii "ORDER" ++ to_string order_id) (ascii "AAPL")
    (u8 (char_of side - 48)) qty price 2 12 true.

Lemma reference_message order_id qty price side :
  0 ≤ qty < 2 ^ 31 → 0 ≤ price < 2 ^ 31 →
  reference (message_fields order_id qty price side) (FixMessage_new []) =
    Ok (order_message order_id qty price side).
Proof.
  intros Hqty Hp. unfold message_fields.
  destruct (to_string_spec qty Hqty) as (Hdq & Hvq & _).
  pose proof (parse_qty_digits _ Hdq) as Hpq. rewrite Hvq, wrap_small in Hpq by lia.
  do 9 (erewrite reference_field by reflexivity; cbv [dispatch]; simpl Z.eqb; cbv iota;
        rewrite bind_ret_l).
  erewrite reference_field by reflexivity. cbv [dispatch]. simpl Z.eqb. cbv iota.
  rewrite Hpq, bind_ret_l.
  erewrite reference_field by reflexivity. cbv [dispatch]. simpl Z.eqb. cbv iota.
  rewrite price_text_parses, !bind_ret_l by done. reflexivity.
Qed.

Lemma make_fix_message_length order_id qty price side :
  0 ≤ order_id < 2 ^ 31 → 0 ≤ qty < 2 ^ 31 → 0 ≤ price < 2 ^ 31 →
  0 < Z.of_nat (length (make_fix_message order_id qty price side)) < 2 ^ 64.
Proof.
  intros Hid Hqty Hp. rewrite make_fix_message_fields by done.
  destruct (to_string_spec order_id Hid) as (_ & _ & ? & _).
  destruct (to_string_spec qty Hqty) as (_ & _ & ? & _).
  assert (0 ≤ price / 10000 < 2 ^ 31) as Hq.
  { split; [apply Z.div_pos; lia|apply Z.div_lt_upper_bound; lia]. }
  destruct (to_string_spec _ Hq) as (_ & _ & ? & _).
  unfold message_fields, price_text. cbn [fmap list_fmap concat].
  repeat rewrite ?length_app, ?length_cons. simpl length. lia.
Qed.

Lemma parse_make_fix_message order_id qty price side :
  0 ≤ order_id < 2 ^ 31 → 0 ≤ qty < 2 ^ 31 → 0 ≤ price < 2 ^ 31 → side ≠ SOH →
  let msg := make_fix_message order_id qty price side in
  ∃ m, parse (Some msg) (Z.of_nat (length msg)) = Ok m ∧
    read_views msg m = order_message order_id qty price side.
Proof.
  intros Hid Hqty Hp Hside msg.
  pose proof (make_fix_message_length order_id qty price side Hid Hqty Hp) as Hl.
  pose proof (parse_refines msg (Z.of_nat (length msg)) eq_refl ltac:(apply Hl)) as Hr.
  assert (reference_parse msg = Ok (order_message order_id qty price side)) as Hm.
  { unfold reference_parse. destruct msg as [|c l] eqn:Heq; [unfold msg in Heq; rewrite Heq in Hl; simpl in Hl; lia|].
    rewrite <-Heq. unfold msg.
    rewrite make_fix_message_fields, split_soh_concat
      by (done || by apply message_fields_no_soh). by apply reference_message. }
  rewrite Hm in Hr. destruct (parse _ _) as [m|]; [|done].
  exists m. split; [done|]. apply (inj Ok). exact Hr.
Qed.

Lemma pipeline_step_eq {Q : Type} `{FifoOps Z Q} (max_orders : Z) (rdtsc : nat → Z)
    (order_id qty price side : Z) (ob : OrderBook Q) (w : world)
    (Hid : 0 ≤ order_id < 2 ^ 31) (Hqty : 0 ≤ qty < 2 ^ 31) (Hprice : 0 ≤ price < 2 ^ 31)
    (Hside : is_byte side) (Hsoh : side ≠ SOH) :
  pipeline_step max_orders rdtsc (make_fix_message order_id qty price side) ob w =
    '(_, ob', w') ← add_order max_orders rdtsc (if side =? 49 then Buy else Sell) price qty Limit
                      ob (mkWorld (S (tsc_reads w)) (reported w));
    Ok (u64 (rdtsc (tsc_reads w') - rdtsc (tsc_reads w)), ob',
        mkWorld (S (tsc_reads w')) (reported w')).
Proof.
  destruct (parse_make_fix_message order_id qty price side Hid Hqty Hprice Hsoh)
    as (m & Hm & Hr).
  unfold pipeline_step, TscClock_now. rewrite Hm, bind_ret_l.
  unfold read_views, order_message in Hr. injection Hr as Ht _ _ Hs Hq Hp _ _ Hv.
  rewrite Ht, Hs, Hq, Hp, Hv. cbn -[add_order wrap].
  assert ((u8 (char_of side - 48) =? 1) = (side =? 49)) as ->.
  { unfold is_byte in Hside. unfold char_of. destruct (Z.ltb_spec side 128).
    - destruct (decide (48 ≤ side)).
      + rewrite wrap_small by lia. case_Z; lia.
      + unfold wrap. rewrite <-(Z_mod_plus_full (side - 48) 1 (2 ^ 8)), Z.mod_small by lia. case_Z; lia.
    - unfold wrap. rewrite <-(Z_mod_plus_full (side - 256 - 48) 1 (2 ^ 8)), Z.mod_small by lia. case_Z; lia. }
  destruct (add_order max_orders rdtsc (if side =? 49 then Buy else Sell) price qty Limit ob
              (mkWorld (S (tsc_reads w)) (reported w))) as [[[id ob'] w']|]; done.
Qed.

(** ** Properties *)

(** C22: the parser reads back what the generator wrote: type, ids, symbol, side byte,
    quantity and price in ticks, for every order id, quantity and price of the
    generator's [int] arguments that is not negative and every side byte but SOH;
    the checksum is the two digits 12 of the "123" in the message. *)
Theorem parse_reads_back_generated (order_id qty price side : Z)
    (Hid : 0 ≤ order_id < 2 ^ 31) (Hqty : 0 ≤ qty < 2 ^ 31) (Hprice : 0 ≤ price < 2 ^ 31)
    (Hside : side ≠ SOH) :
  let msg := make_fix_message order_id qty price side in
  ∃ m, parse (Some msg) (Z.of_nat (length msg)) = Ok m ∧
    read_views msg m =
      mkFix NewOrderSingle (ascii "ORDER" ++ to_string order_id) (ascii "AAPL")
        (u8 (char_of side - 48)) qty price 2 12 true.
Proof. by apply parse_make_fix_message. Qed.

(** C7: a generated message does to the book what its order does: buy for the side
    byte '1' and sell for any other, at its price and quantity, as a limit order. *)
Theorem pipeline_step_adds_order {Q : Type} `{FifoOps Z Q} (max_orders : Z) (rdtsc : nat → Z)
    (order_id qty price side : Z) (ob : OrderBook Q) (w : world)
    (Hid : 0 ≤ order_id < 2 ^ 31) (Hqty : 0 ≤ qty < 2 ^ 31) (Hprice : 0 ≤ price < 2 ^ 31)
    (Hside : is_byte side) (Hsoh : side ≠ SOH) :
  pipeline_step max_orders rdtsc (make_fix_message order_id qty price side) ob w =
    '(_, ob', w') ← add_order max_orders rdtsc (if side =? 49 then Buy else Sell) price qty Limit
                      ob (mkWorld (S (tsc_reads w)) (reported w));
    Ok (u64 (rdtsc (tsc_reads w') - rdtsc (tsc_reads w)), ob',
        mkWorld (S (tsc_reads w')) (reported w')).
Proof. by apply pipeline_step_eq. Qed.

(** ** Concrete messages *)
Lemma parse_reads_back_generated_witness :
  let msg := make_fix_message 7 100 1505000 49 in
  ∃ m, parse (Some msg) (Z.of_nat (length msg)) = Ok m ∧
    read_views msg m =
      mkFix NewOrderSingle (ascii "ORDER7") (ascii "AAPL") 1 100 1505000 2 12 true.
Proof.
  exact (parse_reads_back_generated 7 100 1505000 49 ltac:(lia) ltac:(lia) ltac:(lia)
           ltac:(discriminate)).
Defined.

Lemma pipeline_step_adds_order_witness :
  pipeline_step (H:=Spsc.spsc_fifo_ops 4) 4 Z.of_nat (make_fix_message 7 100 150000 50)
    (mkBook 1 Ladder.FlatPriceLadder_new Ladder.FlatPriceLadder_new
       [Order_zero; Order_zero; Order_zero; Order_zero]
       (Spsc.mkSpsc 3 0 [0; 1; 2; 3]) [0xFFFFFFFF; 0xFFFFFFFF; 0xFFFFFFFF; 0xFFFFFFFF] 1)
    (mkWorld 0 []) =
  Ok (2, mkBook 1 Ladder.FlatPriceLadder_new
           (Ladder.mkLadder [Ladder.mkLevel 150000 100 1 0])
           [mkOrder 1 1 150000 100 0 1 Sell Limit; Order_zero; Order_zero; Order_zero]
           (Spsc.mkSpsc 3 1 [0; 1; 2; 3]) [0xFFFFFFFF; 0; 0xFFFFFFFF; 0xFFFFFFFF] 2,
      mkWorld 3 []).
Proof.
  exact (pipeline_step_adds_order (H:=Spsc.spsc_fifo_ops 4) 4 Z.of_nat 7 100 150000 50 _
           (mkWorld 0 []) ltac:(lia) ltac:(lia) ltac:(lia) ltac:(by vm_compute)
           ltac:(discriminate)).
Defined.
End Pipeline.
