(* ===== verification/FixWorkload.v ===== *)
(** * The benchmarks of 2_network/bench/bench_fix_pipeline.cpp as a whole

    Ten thousand generated messages are parsed over and over: on their own, and with every
    order handed to a book and the latency of each message kept while there is room. *)
From S2P Require Import Prelude Binary64 TscClock Latency Fifo SpscQueue PriceLadder OrderBook Matching BookInvariant Engine.
From S2P Require Import FixMessage FixReference FixValues FixParser FixPipeline.

Module Workload.
Import Book Matching BookInv Engine Fix Pipeline Latency.

(** [make_fix_message(i, 100, 150000, '1')], ten thousand of them *)
Definition throughput_message (i : Z) : list Z := make_fix_message i 100 150000 49.
Definition throughput_messages : list (list Z) := throughput_message <$> seqZ 0 10000.

(** One pass over the messages; the results are dropped. *)
Fixpoint parse_all (msgs : list (list Z)) : outcome unit :=
  match msgs with
  | [] => Ok tt
  | msg :: msgs => _ ← parse (Some msg) (Z.of_nat (length msg)); parse_all msgs
  end.

(** The number of items reported: [state.iterations() * messages.size()]. *)
Definition fix_parser_throughput (k : nat) : outcome Z :=
  _ ← for_loop k 0 (λ _ _, parse_all throughput_messages) tt;
  Ok (u64 (Z.of_nat k * Z.of_nat (length throughput_messages))).

(** [make_fix_message(i, 100, 150000 + i, (i % 2) ? '1' : '2')] *)
Definition bench_message (i : Z) : list Z :=
  make_fix_message i 100 (150000 + i) (if Z.rem i 2 =? 0 then 50 else 49).
Definition bench_messages : list (list Z) := bench_message <$> seqZ 0 10000.

Section Loop.
Context {Q : Type} `{FifoOps Z Q} (max_orders : Z).
Context (rdtsc : nat → Z) (clock_gettime : nat → Clock.timespec).

(** The inner loop over the messages. *)
Fixpoint feed (ticks : B64.double) (msgs : list (list Z)) (ob : OrderBook Q) (latencies : list Z)
    (w : world) : outcome (OrderBook Q * list Z * world) :=
  match msgs with
  | [] => Ok (ob, latencies, w)
  | msg :: msgs =>
      '(delta, ob', w') ← pipeline_step max_orders rdtsc msg ob w;
      latency_ns ← Clock.tsc_to_ns ticks delta;
      feed ticks msgs ob' (keep_latency 100000 latencies latency_ns) w'
  end.

(** The benchmark's own loop, for a number of iterations. *)
Fixpoint iterate (ticks : B64.double) (k : nat) (ob : OrderBook Q) (latencies : list Z) (w : world)
    : outcome (OrderBook Q * list Z * world) :=
  match k with
  | O => Ok (ob, latencies, w)
  | S k =>
      '(ob', latencies', w') ← feed ticks bench_messages ob latencies w;
      iterate ticks k ob' latencies' w'
  end.

Definition fix_parse_with_orderbook (k : nat) (free0 : Q)
    : outcome (OrderBook Q * list Z * world * Z) :=
  c ← Clock.calibrate rdtsc clock_gettime (Clock.mkClock Clock.initial_ticks 0 0);
  ob ← OrderBook_new max_orders 1 free0;
  '(ob, ls, w) ← iterate (Clock.ticks_per_ns_ c) k ob [] (mkWorld (Clock.tsc_reads c) []);
  Ok (ob, ls, w, u64 (Z.of_nat k * Z.of_nat (length bench_messages))).
End Loop.

(** ** The messages *)
Lemma message_range : Forall (λ i, 0 ≤ i < 10000) (seqZ 0 10000).
Proof. apply Forall_forall. intros i Hi%elem_of_seqZ. lia. Qed.

Lemma parse_all_ok is_ :
  Forall (λ i, 0 ≤ i < 10000) is_ → parse_all (throughput_message <$> is_) = Ok tt.
Proof.
  induction 1 as [|i is_ Hi _ IH]; [done|]. rewrite fmap_cons. cbn [parse_all].
  destruct (parse_make_fix_message i 100 150000 49 ltac:(lia) ltac:(lia) ltac:(lia) ltac:(done))
    as (msg & Hp & _).
  fold (throughput_message i) in Hp. rewrite Hp, bind_ret_l. exact IH.
Qed.

(** Every message of the throughput benchmark is parsed, and the count it reports is exact
    until it wraps. *)
Lemma fix_parser_throughput_completes k :
  Z.of_nat k * 10000 < 2 ^ 64 → fix_parser_throughput k = Ok (Z.of_nat k * 10000).
Proof.
  intros Hk. unfold fix_parser_throughput.
  destruct (for_loop_invariant (λ _ _, True) k 0 (λ _ _, parse_all throughput_messages) tt)
    as ([] & -> & _); [done| |].
  - intros j s _ _. exists tt. split; [|done]. apply parse_all_ok, message_range.
  - rewrite bind_ret_l. unfold throughput_messages. rewrite length_fmap, length_seqZ.
    f_equal. apply wrap_small. lia.
Qed.

Section Facts.
Context {Q : Type} `{FifoSpec Z Q} (max_orders : Z) `{!PowerOfTwo max_orders}.
Context (rdtsc : nat → Z) (clock_gettime : nat → Clock.timespec).
Context {Hhost : Clock.HostClocks rdtsc clock_gettime}.
Context (ticks : B64.double) (Hticks : Clock.converts_below (2 ^ 48) ticks).

Lemma keep_latency_length ls ns n :
  Z.of_nat (length ls) = Z.min n 100000 →
  Z.of_nat (length (keep_latency 100000 ls ns)) = Z.min (n + 1) 100000.
Proof.
  intros Hl. unfold keep_latency. case_Z; [rewrite length_app; simpl|]; lia.
Qed.

Lemma feed_small is_ ob free ls w n :
  book_ok max_orders ob free → Forall (λ i, 0 ≤ i < 10000) is_ →
  book_volume ob + 100 * Z.of_nat (length is_) < 2 ^ 32 → Z.of_nat (length ls) = Z.min n 100000 →
  ∃ ob' free' ls' w', feed max_orders rdtsc ticks (bench_message <$> is_) ob ls w =
      Ok (ob', ls', w') ∧
    book_ok max_orders ob' free' ∧ Z.of_nat (length ls') = Z.min (n + Z.of_nat (length is_)) 100000 ∧
    book_volume ob' ≤ book_volume ob + 100 * Z.of_nat (length is_).
Proof.
  intros Hok His. revert ob free ls w n Hok.
  induction His as [|i is_ Hi His IH]; intros ob free ls w n Hok Hv Hl.
  { exists ob, free, ls, w. simpl. rewrite Z.add_0_r. split_and!; [done|done|done|lia]. }
  cbn [length] in Hv. rewrite fmap_cons. cbn [feed].
  pose proof (pipeline_step_eq max_orders rdtsc i 100 (150000 + i)
                (if Z.rem i 2 =? 0 then 50 else 49) ob w ltac:(lia) ltac:(lia) ltac:(lia)
                ltac:(unfold is_byte; destruct (_ =? _); lia)
                ltac:(destruct (_ =? _); discriminate)) as Hstep.
  fold (bench_message i) in Hstep. rewrite Hstep. clear Hstep.
  set (side_ := if (if Z.rem i 2 =? 0 then 50 else 49) =? 49 then Buy else Sell).
  destruct (add_order_small max_orders rdtsc side_ (150000 + i) 100 Limit ob free
              (mkWorld (S (tsc_reads w)) (reported w)) Hok ltac:(lia) ltac:(lia))
    as (r & ob1 & free1 & w1 & -> & Hok1 & Hread & ms & _ & Hms & Hacc).
  apply positive_sum in Hms. rewrite !bind_ret_l. cbv beta iota.
  destruct (Hticks _ (Clock.host_elapsed (tsc_reads w) (tsc_reads w1) ltac:(simpl in Hread; lia)))
    as (ns & -> & _). rewrite bind_ret_l.
  destruct (IH ob1 free1 (keep_latency 100000 ls ns)
              (mkWorld (S (tsc_reads w1)) (reported w1)) (n + 1) Hok1 ltac:(lia)
              (keep_latency_length _ _ _ Hl))
    as (ob' & free' & ls' & w' & Hf & Hok' & Hl' & Hv').
  exists ob', free', ls', w'. split; [exact Hf|]. cbn [length].
  split_and!; [done|rewrite Hl'; f_equal; lia|lia].
Qed.

Lemma iterate_small k ob free ls w n :
  book_ok max_orders ob free → book_volume ob + 1000000 * Z.of_nat k < 2 ^ 32 →
  Z.of_nat (length ls) = Z.min n 100000 →
  ∃ ob' free' ls' w', iterate max_orders rdtsc ticks k ob ls w = Ok (ob', ls', w') ∧
    book_ok max_orders ob' free' ∧
    Z.of_nat (length ls') = Z.min (n + Z.of_nat k * 10000) 100000.
Proof.
  revert ob free ls w n. induction k as [|k IH]; intros ob free ls w n Hok Hv Hl.
  { exists ob, free, ls, w. rewrite Z.mul_0_l, Z.add_0_r. done. }
  assert (Z.of_nat (length (seqZ 0 10000)) = 10000) as Hlen
    by by rewrite length_seqZ.
  destruct (feed_small (seqZ 0 10000) ob free ls w n Hok message_range ltac:(lia) Hl)
    as (ob1 & free1 & ls1 & w1 & Hf & Hok1 & Hl1 & Hv1).
  destruct (IH ob1 free1 ls1 w1 _ Hok1 ltac:(lia) Hl1) as (ob' & free' & ls' & w' & Hi & Hok' & Hl').
  exists ob', free', ls', w'. cbn [iterate]. unfold bench_messages at 1. rewrite Hf, bind_ret_l.
  split; [exact Hi|]. split; [done|]. rewrite Hl', Hlen. f_equal. lia.
Qed.

End Facts.

Section Benchmark.
Context {Q : Type} `{FifoSpec Z Q} (max_orders : Z) `{!PowerOfTwo max_orders}.
Context (rdtsc : nat → Z) (clock_gettime : nat → Clock.timespec).
Context {Hhost : Clock.HostClocks rdtsc clock_gettime}.

(** C10: the parse-and-match benchmark runs to completion for as many iterations as keep
    the total quantity below 2^32 (4294 of them), for every counter and clock as
    documented ([Clock.HostClocks]: a counter below 2^63 that never goes back, in a run of
    less than 2^48 ticks; a clock of normalised times that is never set back; one tick in
    2^15 nanoseconds while [calibrate] measures).  Every message is parsed and matched without
    divergence or access outside an array, [calibrate] measures a rate with which every
    latency has a defined conversion and they never outgrow their reserved capacity, the
    ladders stay sorted and uncrossed, and the reported item count is ten thousand per
    iteration. *)
Theorem fix_benchmark_runs_safely (k : nat) (free0 : Q)
    (Hfree : fifo_rep free0 []) (Hk : Z.of_nat k ≤ 4294) :
  ∃ ob ls w, fix_parse_with_orderbook max_orders rdtsc clock_gettime k free0 =
      Ok (ob, ls, w, Z.of_nat k * 10000) ∧
    sides_ok (bids_ ob) (asks_ ob) ∧ Z.of_nat (length ls) = Z.min (Z.of_nat k * 10000) 100000.
Proof.
  destruct (new_book_ok max_orders 1 free0 Hfree) as (ob0 & Hnew & Hok & Hb & Ha & _).
  assert (book_volume ob0 = 0) as Hv0 by (unfold book_volume; by rewrite Hb, Ha).
  destruct Clock.host_calibrates as (ticks & Hticks & Hcal).
  destruct (iterate_small max_orders rdtsc clock_gettime ticks Hticks k ob0 _ [] (mkWorld 2 []) 0 Hok ltac:(lia) eq_refl)
    as (ob & free & ls & w & Hi & Hok' & Hl).
  exists ob, ls, w. unfold fix_parse_with_orderbook. rewrite Hcal, bind_ret_l, Hnew, bind_ret_l.
  cbn [Clock.ticks_per_ns_ Clock.tsc_reads]. rewrite Hi, bind_ret_l.
  split; [|split; [apply (ok_sides _ _ _ Hok')|done]].
  unfold bench_messages. rewrite length_fmap, length_seqZ. do 2 f_equal. apply wrap_small. lia.
Qed.
End Benchmark.

(** 609 iterations with a pool of four slots. *)
Import Spsc.
#[local] Existing Instance Clock.demo_host.

Lemma fix_benchmark_runs_safely_witness :
  ∃ ob ls w, fix_parse_with_orderbook (H:=spsc_fifo_ops 4) 4 Clock.demo_rdtsc Clock.demo_clock
      609 demo_queue = Ok (ob, ls, w, 6090000) ∧
    sides_ok (bids_ ob) (asks_ ob) ∧ Z.of_nat (length ls) = 100000.
Proof.
  exact (fix_benchmark_runs_safely (H0:=spsc_fifo_spec 4) 4 Clock.demo_rdtsc Clock.demo_clock
           609 demo_queue demo_queue_ok ltac:(lia)).
Defined.
End Workload.
