(* ===== verification/XdpFilter.v ===== *)
(** * The packet filters of 2_network/bpf and 2_network/ebpf

    Two XDP programs that run in the kernel on every packet: xdp_fix_redirect.c
    (UDP) and redirect.bpf.c (TCP).  A packet is the list of its bytes; reading past
    [data_end] is a fault, which the kernel's verifier must be able to exclude. *)
From S2P Require Import Prelude.

Module Xdp.

(** Sizes and protocol numbers of the wire formats, as named in the kernel's headers. *)
Definition sizeof_ethhdr : Z := 14.
Definition sizeof_iphdr : Z := 20.    (* without options *)
Definition sizeof_udphdr : Z := 8.
Definition sizeof_tcphdr : Z := 20.
Definition ETH_P_IP : Z := 2048.
Definition IPPROTO_TCP : Z := 6.
Definition IPPROTO_UDP : Z := 17.

Definition byte_list : list Z → Prop := Forall (λ b, 0 ≤ b < 256).

Section Programs.
(** The host's byte order; the verdicts; the helper [bpf_redirect_map], from a key
    and flags to a verdict, for the socket map of the program. *)
Context (big_endian : bool) (XDP_PASS XDP_DROP : Z) (bpf_redirect_map : Z → Z → Z).

(** A 16-bit load of two packet bytes in host byte order, and [bpf_ntohs]. *)
Definition load16 (pkt : list Z) (off : Z) : outcome Z :=
  b0 ← aread pkt off;
  b1 ← aread pkt (off + 1);
  Ok (if big_endian then b0 * 256 + b1 else b0 + b1 * 256).

Definition bpf_ntohs (x : Z) : Z :=
  if big_endian then x else Z.lor (Z.shiftl (Z.land x 255) 8) (Z.shiftr x 8).

(** [hdr + 1 > data_end] for a header of [size] bytes at [off]. *)
Definition beyond_end (pkt : list Z) (off size : Z) : bool := Z.of_nat (length pkt) <? off + size.

(** *** xdp_fix_redirect.c; the result is [None] for the return value -1. *)
Definition parse_ethernet (pkt : list Z) (nh_off : Z) : outcome (option Z) :=
  if beyond_end pkt nh_off sizeof_ethhdr then Ok None
  else h_proto ← load16 pkt (nh_off + 12); Ok (Some h_proto).

Definition parse_ipv4 (pkt : list Z) (nh_off : Z) : outcome (option Z) :=
  if beyond_end pkt nh_off sizeof_iphdr then Ok None
  else protocol ← aread pkt (nh_off + 9); Ok (Some protocol).

Definition parse_udp (pkt : list Z) (nh_off : Z) : outcome (option Z) :=
  if beyond_end pkt nh_off sizeof_udphdr then Ok None
  else dest ← load16 pkt (nh_off + 2); Ok (Some (bpf_ntohs dest)).

Definition FIX_PORT_udp : Z := 9876.

Definition xdp_fix_redirect (pkt : list Z) : outcome Z :=
  eth ← parse_ethernet pkt 0;
  match eth with
  | None => Ok XDP_PASS
  | Some eth_proto =>
      if negb (eth_proto =? ETH_P_IP) then Ok XDP_PASS
      else
        ip ← parse_ipv4 pkt sizeof_ethhdr;
        match ip with
        | None => Ok XDP_PASS
        | Some ip_proto =>
            if negb (ip_proto =? IPPROTO_UDP) then Ok XDP_PASS
            else
              udp ← parse_udp pkt (sizeof_ethhdr + sizeof_iphdr);
              match udp with
              | None => Ok XDP_PASS
              | Some udp_dport =>
                  if udp_dport =? FIX_PORT_udp then Ok (bpf_redirect_map 0 XDP_DROP)
                  else Ok XDP_PASS
              end
        end
  end.

(** *** redirect.bpf.c *)
Definition FIX_PORT_tcp : Z := 9878.

Definition xdp_redirect_fix (rx_queue_index : Z) (pkt : list Z) : outcome Z :=
  if beyond_end pkt 0 sizeof_ethhdr then Ok XDP_PASS
  else
    h_proto ← load16 pkt 12;
    if negb (bpf_ntohs h_proto =? ETH_P_IP) then Ok XDP_PASS
    else if beyond_end pkt sizeof_ethhdr sizeof_iphdr then Ok XDP_PASS
    else
      protocol ← aread pkt (sizeof_ethhdr + 9);
      if negb (protocol =? IPPROTO_TCP) then Ok XDP_PASS
      else
        version_ihl ← aread pkt sizeof_ethhdr;
        let tcp := sizeof_ethhdr + Z.land version_ihl 15 * 4 in
        if beyond_end pkt tcp sizeof_tcphdr then Ok XDP_PASS
        else
          dest ← load16 pkt (tcp + 2);
          source ← load16 pkt tcp;
          if negb (bpf_ntohs dest =? FIX_PORT_tcp) && negb (bpf_ntohs source =? FIX_PORT_tcp)
          then Ok XDP_PASS
          else Ok (bpf_redirect_map rx_queue_index XDP_PASS).

(** ** Reading packets *)

(** The byte at an offset, and the 16-bit number in network byte order. *)
Definition byte_at (pkt : list Z) (off : Z) : Z := nth (Z.to_nat off) pkt 0.
Definition wire16 (pkt : list Z) (off : Z) : Z := byte_at pkt off * 256 + byte_at pkt (off + 1).
(** The same with the two bytes exchanged. *)
Definition swapped16 (pkt : list Z) (off : Z) : Z := byte_at pkt (off + 1) * 256 + byte_at pkt off.

Lemma aread_byte pkt off :
  0 ≤ off < Z.of_nat (length pkt) → aread pkt off = Ok (byte_at pkt off).
Proof.
  intros Ho. apply aread_Ok. split; [lia|]. unfold byte_at.
  destruct (nth_lookup_or_length pkt (Z.to_nat off) 0); [done|lia].
Qed.

Lemma byte_at_range pkt off : byte_list pkt → 0 ≤ byte_at pkt off < 256.
Proof.
  intros Hb. unfold byte_at. destruct (nth_lookup_or_length pkt (Z.to_nat off) 0) as [Hl|Hl].
  - by apply (Forall_lookup_1 _ _ _ _ Hb) in Hl.
  - rewrite nth_overflow by done. lia.
Qed.

Lemma load16_in_bounds pkt off :
  0 ≤ off → off + 2 ≤ Z.of_nat (length pkt) →
  load16 pkt off = Ok (if big_endian then wire16 pkt off else swapped16 pkt off).
Proof.
  intros Ho Hl. unfold load16, wire16, swapped16. rewrite !aread_byte, !bind_ret_l by lia.
  f_equal. destruct big_endian; lia.
Qed.

(** After [bpf_ntohs] the host's byte order does not matter. *)
Lemma ntohs_host pkt off :
  byte_list pkt →
  bpf_ntohs (if big_endian then wire16 pkt off else swapped16 pkt off) = wire16 pkt off.
Proof.
  intros Hb. unfold bpf_ntohs, wire16, swapped16. destruct big_endian; [done|].
  pose proof (byte_at_range pkt off Hb). pose proof (byte_at_range pkt (off + 1) Hb).
  set (lo := byte_at pkt off) in *. set (hi := byte_at pkt (off + 1)) in *.
  change 255 with (Z.ones 8). rewrite Z.land_ones, Z.shiftr_div_pow2, Z.shiftl_mul_pow2 by lia.
  replace ((hi * 256 + lo) `mod` 2 ^ 8) with lo
    by (rewrite Z.add_comm, Z_mod_plus_full, Z.mod_small; lia).
  replace ((hi * 256 + lo) / 2 ^ 8) with hi
    by (rewrite Z.add_comm, Z_div_plus_full, Z.div_small; lia).
  change 256 with (2 ^ 8). rewrite <-Z.shiftl_mul_pow2, lor_shiftl_add by (done || lia).
  by rewrite Z.shiftl_mul_pow2.
Qed.

(** ** Properties *)

(** C30: on any packet the UDP filter stays inside the packet and decides as stated: it
    redirects exactly the packets of at least 42 bytes with protocol UDP and the FIX
    port at the place it has without IP options, and whose EtherType, taken in the
    host's byte order for lack of a conversion, is that of IPv4.  On a little-endian
    host an IPv4 packet is therefore never redirected. *)
Theorem udp_filter_verdict (pkt : list Z) (Hb : byte_list pkt) :
  let ethertype := if big_endian then wire16 pkt 12 else swapped16 pkt 12 in
  xdp_fix_redirect pkt =
    Ok (if (42 <=? Z.of_nat (length pkt)) && (ethertype =? ETH_P_IP) &&
           (byte_at pkt 23 =? IPPROTO_UDP) && (wire16 pkt 36 =? FIX_PORT_udp)
        then bpf_redirect_map 0 XDP_DROP else XDP_PASS) ∧
  (big_endian = false → wire16 pkt 12 = ETH_P_IP → xdp_fix_redirect pkt = Ok XDP_PASS).
Proof.
  intros ethertype.
  assert (xdp_fix_redirect pkt =
    Ok (if (42 <=? Z.of_nat (length pkt)) && (ethertype =? ETH_P_IP) &&
           (byte_at pkt 23 =? IPPROTO_UDP) && (wire16 pkt 36 =? FIX_PORT_udp)
        then bpf_redirect_map 0 XDP_DROP else XDP_PASS)) as Heq.
  { unfold xdp_fix_redirect, parse_ethernet, parse_ipv4, parse_udp, beyond_end,
      sizeof_ethhdr, sizeof_iphdr, sizeof_udphdr.
    destruct (Z.ltb_spec (Z.of_nat (length pkt)) (0 + 14)); simpl negb.
    { destruct (Z.leb_spec 42 (Z.of_nat (length pkt))); [lia|done]. }
    rewrite (load16_in_bounds pkt (0 + 12)), !bind_ret_l by lia. fold ethertype.
    change (0 + 12) with 12. fold ethertype.
    destruct (ethertype =? ETH_P_IP); simpl negb; [|by rewrite andb_false_r].
    destruct (Z.ltb_spec (Z.of_nat (length pkt)) (14 + 20)); simpl mbind.
    { destruct (Z.leb_spec 42 (Z.of_nat (length pkt))); [lia|done]. }
    rewrite aread_byte by lia. simpl. change (14 + 9) with 23.
    destruct (byte_at pkt 23 =? IPPROTO_UDP); simpl negb; [|by rewrite andb_false_r].
    destruct (Z.ltb_spec (Z.of_nat (length pkt)) (14 + 20 + 8)); simpl.
    { destruct (Z.leb_spec 42 (Z.of_nat (length pkt))); [lia|done]. }
    destruct (Z.leb_spec 42 (Z.of_nat (length pkt))); [|lia].
    rewrite load16_in_bounds, bind_ret_l, ntohs_host by (done || lia).
    change (14 + 20 + 2) with 36. rewrite !andb_true_r, !andb_true_l, bind_ret_l.
    by destruct (wire16 pkt 36 =? FIX_PORT_udp). }
  split; [done|]. intros He Hw. rewrite Heq. f_equal. unfold ethertype. rewrite He.
  pose proof (byte_at_range pkt 12 Hb). pose proof (byte_at_range pkt (12 + 1) Hb).
  unfold wire16, swapped16, ETH_P_IP in *.
  destruct (Z.eqb_spec (byte_at pkt (12 + 1) * 256 + byte_at pkt 12) 2048); [lia|].
  by rewrite andb_false_r.
Qed.

(** C29: on any packet the TCP filter stays inside the packet, on hosts of either byte
    order, and redirects, to the socket of its queue, exactly the IPv4 packets with
    protocol TCP whose headers, IP options included, are complete and whose source
    or destination port is the FIX port. *)
Theorem tcp_filter_verdict (rx_queue_index : Z) (pkt : list Z) (Hb : byte_list pkt) :
  let tcp := 14 + Z.land (byte_at pkt 14) 15 * 4 in
  xdp_redirect_fix rx_queue_index pkt =
    Ok (if (34 <=? Z.of_nat (length pkt)) && (wire16 pkt 12 =? ETH_P_IP) &&
           (byte_at pkt 23 =? IPPROTO_TCP) && (tcp + 20 <=? Z.of_nat (length pkt)) &&
           ((wire16 pkt (tcp + 2) =? FIX_PORT_tcp) || (wire16 pkt tcp =? FIX_PORT_tcp))
        then bpf_redirect_map rx_queue_index XDP_PASS else XDP_PASS).
Proof.
  intros tcp. unfold xdp_redirect_fix, beyond_end, sizeof_ethhdr, sizeof_iphdr, sizeof_tcphdr.
  destruct (Z.ltb_spec (Z.of_nat (length pkt)) (0 + 14)).
  { destruct (Z.leb_spec 34 (Z.of_nat (length pkt))); [lia|done]. }
  rewrite load16_in_bounds, bind_ret_l, ntohs_host by (done || lia).
  destruct (wire16 pkt 12 =? ETH_P_IP); simpl negb; [|by rewrite andb_false_r].
  destruct (Z.ltb_spec (Z.of_nat (length pkt)) (14 + 20)).
  { destruct (Z.leb_spec 34 (Z.of_nat (length pkt))); [lia|done]. }
  destruct (Z.leb_spec 34 (Z.of_nat (length pkt))); [|lia].
  rewrite (aread_byte pkt (14 + 9)), bind_ret_l by lia. change (14 + 9) with 23.
  destruct (byte_at pkt 23 =? IPPROTO_TCP); simpl negb; [|done].
  rewrite (aread_byte pkt 14), bind_ret_l by lia. fold tcp.
  assert (0 ≤ Z.land (byte_at pkt 14) 15) by (apply Z.land_nonneg; right; lia).
  cbv zeta. destruct (Z.ltb_spec (Z.of_nat (length pkt)) (tcp + 20)) as [Hs|Hs].
  { destruct (Z.leb_spec (tcp + 20) (Z.of_nat (length pkt))); [lia|done]. }
  destruct (Z.leb_spec (tcp + 20) (Z.of_nat (length pkt))); [|lia].
  rewrite (load16_in_bounds pkt (tcp + 2)), bind_ret_l by (unfold tcp; lia).
  rewrite (load16_in_bounds pkt tcp), bind_ret_l by (unfold tcp in *; lia).
  rewrite !ntohs_host by done.
  by destruct (wire16 pkt (tcp + 2) =? FIX_PORT_tcp), (wire16 pkt tcp =? FIX_PORT_tcp).
Qed.
End Programs.

(** ** Concrete packets: Ethernet, IPv4 and UDP or TCP headers, ports to and from FIX *)
Definition ethernet_header : list Z := replicate 12 0 ++ [8; 0].
Definition ip_header (protocol : Z) : list Z := 69 :: replicate 8 0 ++ [protocol] ++ replicate 10 0.
Definition udp_packet : list Z :=
  ethernet_header ++ ip_header IPPROTO_UDP ++ [0; 0; 38; 148; 0; 8; 0; 0].
Definition tcp_packet : list Z :=
  ethernet_header ++ ip_header IPPROTO_TCP ++ [0; 0; 38; 150] ++ replicate 16 0.

Lemma udp_packet_bytes : byte_list udp_packet.
Proof. unfold byte_list. repeat constructor; done. Qed.
Lemma tcp_packet_bytes : byte_list tcp_packet.
Proof. unfold byte_list. repeat constructor; done. Qed.

(** A redirection is verdict 4; the same packet on a big- and a little-endian host. *)
Lemma udp_filter_verdict_witness :
  (xdp_fix_redirect true 2 1 (λ _ _, 4) udp_packet = Ok 4 ∧
     (true = false → wire16 udp_packet 12 = ETH_P_IP →
      xdp_fix_redirect true 2 1 (λ _ _, 4) udp_packet = Ok 2)) ∧
  (xdp_fix_redirect false 2 1 (λ _ _, 4) udp_packet = Ok 2 ∧
     (false = false → wire16 udp_packet 12 = ETH_P_IP →
      xdp_fix_redirect false 2 1 (λ _ _, 4) udp_packet = Ok 2)).
Proof.
  split.
  - exact (udp_filter_verdict true 2 1 (λ _ _, 4) udp_packet udp_packet_bytes).
  - exact (udp_filter_verdict false 2 1 (λ _ _, 4) udp_packet udp_packet_bytes).
Defined.

Lemma tcp_filter_verdict_witness :
  xdp_redirect_fix false 2 (λ _ _, 4) 0 tcp_packet = Ok 4.
Proof. exact (tcp_filter_verdict false 2 (λ _ _, 4) 0 tcp_packet tcp_packet_bytes). Defined.
End Xdp.
