(* ===== verification/FixHardware.v ===== *)
(** * The FIX parser in hardware: 3_fpga/rtl/fix_parser.v and its test bench

    The registers of the Verilog module and what one edge of its clock does to them: all
    non-blocking assignments read the registers of before the edge.  The registers that
    reset does not touch keep what they held at power-up, [None] being the unknown value x;
    a [case] on x matches no item.  [i_valid] and [i_data] are known bits. *)
From S2P Require Import Prelude.

Module FixHardware.

(** [x[hi:lo]] and [{a, b}] with [b] of [w] bits. *)
Definition part (hi lo x : Z) : Z := Z.land (Z.shiftr x lo) (Z.ones (hi - lo + 1)).
Definition concat (w a b : Z) : Z := Z.lor (Z.shiftl a w) b.

Definition IDLE : Z := 0.
Definition PARSE_TAG : Z := 1.
Definition PARSE_VALUE : Z := 2.
Definition PROCESS_FIELD : Z := 3.
Definition MSG_COMPLETE : Z := 4.

(** The decoded fields; reset leaves them alone. *)
Record fields := mkFields {
  o_begin_string : option Z;       (* 32 bits *)
  o_msg_type : option Z;           (* 16 bits *)
  o_sender_comp_id : option Z;     (* 48 bits *)
  o_target_comp_id : option Z;     (* 48 bits *)
  o_sequence : option Z            (* 32 bits *)
}.

Record regs := mkRegs {
  state : option Z;                (* 3 bits *)
  next_state : option Z;           (* 3 bits *)
  current_tag : Z;                 (* 16 bits *)
  current_value : Z;               (* 32 bits *)
  byte_count : Z;                  (* 8 bits *)
  ports : fields;
  o_msg_valid : Z                  (* 1 bit *)
}.

Definition is_digit (d : Z) : bool := (48 <=? d) && (d <=? 57).

(** The inner [case (current_tag)]. *)
Definition decode (tag value : Z) (p : fields) : fields :=
  let 'mkFields b m s t q := p in
  if tag =? 8 then mkFields (Some value) m s t q
  else if tag =? 35 then mkFields b (Some (part 15 0 value)) s t q
  else if tag =? 49 then mkFields b m (Some value) t q
  else if tag =? 56 then mkFields b m s (Some value) q
  else if tag =? 34 then mkFields b m s t (Some value)
  else p.

(** An edge of the clock with [rst_n] high.  [state] takes the old [next_state]. *)
Definition posedge (i_valid : bool) (i_data : Z) (r : regs) : regs :=
  let 'mkRegs st ns tag value count p ok := r in
  if i_valid then
    match st with
    | None => mkRegs ns ns tag value count p ok
    | Some s =>
        if s =? IDLE then
          if is_digit i_data
          then mkRegs ns (Some PARSE_TAG) (concat 8 (part 7 0 tag) i_data) value 0 p ok
          else mkRegs ns ns tag value 0 p ok
        else if s =? PARSE_TAG then
          if i_data =? 61 then mkRegs ns (Some PARSE_VALUE) tag value 0 p ok
          else if is_digit i_data then mkRegs ns ns (concat 8 (part 15 8 tag) i_data) value count p ok
          else mkRegs ns ns tag value count p ok
        else if s =? PARSE_VALUE then
          if i_data =? 124 then mkRegs ns (Some PROCESS_FIELD) tag value count p ok
          else mkRegs ns ns tag (concat 8 (part 23 0 value) i_data) (u8 (count + 1)) p ok
        else if s =? PROCESS_FIELD then mkRegs ns (Some IDLE) tag value count (decode tag value p) ok
        else if s =? MSG_COMPLETE then mkRegs ns (Some IDLE) tag value count p 1
        else mkRegs ns ns tag value count p ok
    end
  else mkRegs ns ns tag value count p ok.

(** [rst_n] low: neither [next_state] nor the fields are reset. *)
Definition reset (r : regs) : regs :=
  mkRegs (Some IDLE) (next_state r) 0 0 0 (ports r) 0.

(** [assign o_ready = (state == IDLE) ? 1 : 0]. *)
Definition o_ready (r : regs) : option bool := (λ s, s =? IDLE) <$> state r.

Inductive event := Reset | Edge (i_valid : bool) (i_data : Z).

Definition react (r : regs) (e : event) : regs :=
  match e with Reset => reset r | Edge v d => posedge v d r end.

Definition react_all (es : list event) (r : regs) : regs := foldl react r es.

(** ** The test bench: a byte for one edge, then an edge without one *)
Definition send_byte (data : Z) : list event := [Edge true data; Edge false data].

Definition testbench : list event :=
  [Reset; Edge false 0; Edge false 0] ++
  flat_map send_byte (ascii "8=FIX|35=D|34=SEN|") ++ replicate 10 (Edge false 124).

(** ** The shape of the tag register

    Its low byte is a character, the number it is compared with is not: only the codes of
    the digits 1 and 8, which are 49 and 56, are among the tags it looks for. *)
Definition byte (e : event) : Prop := match e with Reset => True | Edge _ d => 0 ≤ d < 256 end.

#[export] Instance byte_dec e : Decision (byte e).
Proof. destruct e; simpl; apply _. Defined.

Definition tag_shape (tag : Z) : Prop := tag = 0 ∨ 0 ≤ tag ∧ 48 ≤ tag `mod` 256 ≤ 57.

Lemma digit_char_range d : is_digit d = true ↔ 48 ≤ d ≤ 57.
Proof. unfold is_digit. rewrite andb_true_iff, !Z.leb_le. done. Qed.

Lemma part_low tag : part 7 0 tag = tag `mod` 256.
Proof. unfold part. by rewrite Z.land_ones, Z.shiftr_0_r. Qed.

Lemma part_high tag : part 15 8 tag = (tag / 256) `mod` 256.
Proof. unfold part. by rewrite Z.land_ones, Z.shiftr_div_pow2. Qed.

Lemma part_value value : part 23 0 value = value `mod` 2 ^ 24.
Proof. unfold part. by rewrite Z.land_ones, Z.shiftr_0_r. Qed.

Lemma concat_byte a d : 0 ≤ d < 256 → concat 8 a d = a * 256 + d.
Proof. intros. unfold concat. by rewrite lor_shiftl_add. Qed.

Lemma new_tag_shape a d : 0 ≤ a → is_digit d = true → tag_shape (concat 8 a d).
Proof.
  intros Ha Hd%digit_char_range. right. rewrite concat_byte by lia. split; [lia|].
  rewrite Z.add_comm, Z_mod_plus_full, Z.mod_small by lia. done.
Qed.

Lemma shape_decode tag value p :
  tag_shape tag → decode tag value p =
    if tag =? 49 then mkFields (o_begin_string p) (o_msg_type p) (Some value) (o_target_comp_id p) (o_sequence p)
    else if tag =? 56 then mkFields (o_begin_string p) (o_msg_type p) (o_sender_comp_id p) (Some value) (o_sequence p)
    else p.
Proof.
  intros Hs. unfold decode. destruct p; simpl.
  repeat case_Z; subst; try done; by destruct Hs as [|[? [? ?]]].
Qed.

(** *** What no input can change *)
Record dormant (p0 : fields) (r : regs) : Prop := {
  do_tag : tag_shape (current_tag r);
  do_begin : o_begin_string (ports r) = o_begin_string p0;
  do_type : o_msg_type (ports r) = o_msg_type p0;
  do_sequence : o_sequence (ports r) = o_sequence p0
}.

Lemma react_dormant p0 r e : byte e → dormant p0 r → dormant p0 (react r e).
Proof.
  intros Hb [Ht H1 H2 H3]. destruct e as [|v d]; simpl in Hb |- *.
  { split; simpl; try done. by left. }
  destruct r as [st ns tag value count p ok]. simpl in *. destruct v; [|by split].
  destruct st as [s|]; [|by split].
  assert (∀ a, 0 ≤ a `mod` 256) by (intros; apply Z.mod_pos_bound; lia).
  destruct (s =? IDLE); [destruct (is_digit d) eqn:Hd; split; simpl; try done|].
  { rewrite part_low. by apply new_tag_shape. }
  destruct (s =? PARSE_TAG).
  { destruct (d =? 61); [by split|]. destruct (is_digit d) eqn:Hd; split; simpl; try done.
    rewrite part_high. by apply new_tag_shape. }
  destruct (s =? PARSE_VALUE); [destruct (d =? 124); by split|].
  destruct (s =? PROCESS_FIELD).
  { rewrite shape_decode by done. split; simpl; repeat case_Z; done. }
  by destruct (s =? MSG_COMPLETE).
Qed.

(** The last state is reached only when [next_state] held it at power-up. *)
Record incomplete (r : regs) : Prop := {
  in_valid : o_msg_valid r = 0;
  in_next : next_state r ≠ Some MSG_COMPLETE;
  in_state : state r ≠ Some MSG_COMPLETE
}.

Lemma react_incomplete r e : incomplete r → incomplete (react r e).
Proof.
  intros [Hv Hn Hs]. destruct e as [|v d]; [by split|].
  destruct r as [st ns tag value count p ok]. simpl in *. destruct v; [|by split].
  destruct st as [s|]; [|by split].
  destruct (s =? IDLE); [by destruct (is_digit d); split|].
  destruct (s =? PARSE_TAG); [by destruct (d =? 61); [|destruct (is_digit d)]; split|].
  destruct (s =? PARSE_VALUE); [by destruct (d =? 124); split|].
  destruct (s =? PROCESS_FIELD); [by split|].
  destruct (Z.eqb_spec s MSG_COMPLETE) as [->|]; [done|by split].
Qed.

Lemma run_incomplete r0 es :
  next_state r0 ≠ Some MSG_COMPLETE → incomplete (react_all (Reset :: es) r0).
Proof.
  intros Hpower. assert (incomplete (reset r0)) as Hr by by split.
  simpl. revert Hr. generalize (reset r0). induction es as [|e es IH]; intros r Hr; simpl; [done|].
  by apply IH, react_incomplete.
Qed.

(** C32: whatever the registers hold at power-up, after a reset no sequence of clock edges and
    further resets, with any bytes, ever changes [o_begin_string], [o_msg_type] or
    [o_sequence]: a tag is compared as a number with a register of characters.  And unless
    [next_state], which reset leaves alone, held [MSG_COMPLETE] at power-up, [o_msg_valid] is
    never raised: no state leads to [MSG_COMPLETE]. *)
Theorem hardware_never_completes (r0 : regs) (es : list event) (Hbytes : Forall byte es) :
  let r := react_all (Reset :: es) r0 in
  o_begin_string (ports r) = o_begin_string (ports r0) ∧
  o_msg_type (ports r) = o_msg_type (ports r0) ∧ o_sequence (ports r) = o_sequence (ports r0) ∧
  (next_state r0 ≠ Some MSG_COMPLETE → o_msg_valid r = 0).
Proof.
  assert (dormant (ports r0) (react_all (Reset :: es) r0)) as [_ H1 H2 H3].
  { assert (dormant (ports r0) (reset r0)) as Hd by (split; simpl; try done; by left).
    simpl. revert Hd. generalize (reset r0).
    induction Hbytes as [|e es He _ IH]; intros r Hd; simpl; [done|by apply IH, react_dormant]. }
  split_and!; [done..|]. intros Hpower. apply in_valid, (run_incomplete r0 es Hpower).
Qed.

(** The exception: [next_state] survives the reset, and [o_msg_valid] is raised without any
    message. *)
Lemma completes_from_power_up r0 d d' :
  next_state r0 = Some MSG_COMPLETE →
  o_msg_valid (react_all [Reset; Edge false d; Edge true d'] r0) = 1.
Proof. intros Hx. unfold react_all. simpl. unfold reset. by rewrite Hx. Qed.

(** ** The first field after a reset *)

(** The number a value stands for, its bytes in network order. *)
Definition number (value : list Z) : Z := foldl (λ a b, a * 256 + b) 0 value.

Lemma shift_in v b : 0 ≤ b < 256 → concat 8 (part 23 0 v) b = u32 (v * 256 + b).
Proof.
  intros Hb. rewrite part_value, concat_byte by done. unfold wrap.
  pose proof (Z.mod_pos_bound v (2 ^ 24) eq_refl). pose proof (Z.div_mod v (2 ^ 24)).
  apply Z.mod_unique with (v / 2 ^ 24); lia.
Qed.

(** The registers when [state] has caught up with [next_state]. *)
Definition settled (s tag value count : Z) (p : fields) : regs :=
  mkRegs (Some s) (Some s) tag value count p 0.

Definition feed (bytes : list Z) : list event := flat_map send_byte bytes.

Lemma feed_app xs ys r : react_all (feed (xs ++ ys)) r = react_all (feed ys) (react_all (feed xs) r).
Proof. unfold feed, react_all. by rewrite flat_map_app, foldl_app. Qed.

Lemma feed_tag ds tag value count p :
  Forall (λ d, is_digit d = true) ds → 0 ≤ tag < 256 →
  react_all (feed ds) (settled PARSE_TAG tag value count p) =
    settled PARSE_TAG (default tag (last ds)) value count p.
Proof.
  intros Hds. revert tag. induction Hds as [|d ds Hd _ IH]; intros tag Ht; [done|].
  pose proof (proj1 (digit_char_range d) Hd).
  change (react_all (feed ds) (react_all (send_byte d) (settled PARSE_TAG tag value count p)) =
    settled PARSE_TAG (default tag (last (d :: ds))) value count p).
  assert (react_all (send_byte d) (settled PARSE_TAG tag value count p) =
    settled PARSE_TAG d value count p) as ->.
  { simpl. destruct (Z.eqb_spec d 61); [lia|]. rewrite Hd, part_high, Z.div_small by lia.
    by rewrite concat_byte by lia. }
  rewrite IH, last_cons by lia. by destruct (last ds).
Qed.

Lemma feed_value vs tag v count p :
  Forall (λ b, 0 ≤ b < 256 ∧ b ≠ 124) vs →
  ∃ count', react_all (feed vs) (settled PARSE_VALUE tag (u32 v) count p) =
    settled PARSE_VALUE tag (u32 (foldl (λ a b, a * 256 + b) v vs)) count' p.
Proof.
  intros Hvs. revert v count. induction Hvs as [|b vs [Hb Hn] _ IH]; intros v count; [by exists count|].
  destruct (IH (v * 256 + b) (u8 (count + 1))) as [count' Hc]. exists count'. cbn [foldl]. rewrite <-Hc. simpl.
  destruct (Z.eqb_spec b 124); [done|]. by rewrite shift_in, wrap_horner.
Qed.

(** The first byte comes right after the reset, or after idle edges that leave the state
    alone. *)
Lemma idle_edges r0 idle :
  idle = [] ∨ next_state r0 = Some IDLE → react_all (Edge false <$> idle) (reset r0) = reset r0.
Proof.
  intros [->|Hn]; [done|]. induction idle as [|d idle IH]; [done|]. rewrite fmap_cons.
  change (react_all (Edge false d :: ?l) ?r) with (react_all l (posedge false d r)).
  assert (posedge false d (reset r0) = reset r0) as ->; [|done]. unfold reset. simpl. by rewrite Hn.
Qed.

(** The first digit sets [next_state], and the edge after it [state]. *)
Lemma feed_first_tag r0 tag d :
  Forall (λ c, is_digit c = true) (tag ++ [d]) →
  react_all (feed (tag ++ [d])) (reset r0) = settled PARSE_TAG d 0 0 (ports r0).
Proof.
  intros Htag.
  assert (∀ c, is_digit c = true → react_all (send_byte c) (reset r0) =
    settled PARSE_TAG c 0 0 (ports r0)) as Hfirst.
  { intros c Hc. simpl. rewrite Hc. rewrite part_low, concat_byte; [done|].
    apply digit_char_range in Hc. lia. }
  destruct tag as [|c tag]; apply Forall_cons in Htag as [Hc Htag]; [by apply Hfirst|].
  change (feed ((c :: tag) ++ [d])) with (send_byte c ++ feed (tag ++ [d])).
  unfold react_all. rewrite foldl_app. unfold react_all in Hfirst. rewrite Hfirst by done.
  pose proof (proj1 (digit_char_range c) Hc). fold (react_all (feed (tag ++ [d])) (settled PARSE_TAG c 0 0 (ports r0))).
  rewrite feed_tag by (done || lia). by rewrite last_snoc.
Qed.

(** Once a second tag has begun, or may begin, the fields are final. *)
Record final (p : fields) (r : regs) : Prop := {
  fi_ports : ports r = p;
  fi_low : 48 ≤ current_tag r `mod` 256;
  fi_tag : 256 ≤ current_tag r < 65536 ∨
    0 ≤ current_tag r < 256 ∧ state r = Some IDLE ∧ next_state r = Some IDLE
}.

Lemma second_tag a d :
  1 ≤ a < 256 → is_digit d = true →
  48 ≤ concat 8 a d `mod` 256 ∧ 256 ≤ concat 8 a d < 65536.
Proof.
  intros Ha Hd%digit_char_range. rewrite concat_byte by lia. split; [|lia].
  rewrite Z.add_comm, Z_mod_plus_full, Z.mod_small; lia.
Qed.

Lemma edge_final p r v d : final p r → final p (posedge v d r).
Proof.
  destruct r as [st ns tag value count p1 ok]. intros [Hp Hlow Htag]. simpl in *. subst p1.
  pose proof (Z.mod_pos_bound tag 256 eq_refl). pose proof (Z.div_mod tag 256).
  destruct v; [|split; simpl; [done|done|destruct Htag as [|(? & _ & ?)]; auto]].
  assert (is_digit d = true → 48 ≤ concat 8 (part 7 0 tag) d `mod` 256 ∧
    256 ≤ concat 8 (part 7 0 tag) d < 65536) as Hnew.
  { intros. apply second_tag; [rewrite part_low; lia|done]. }
  destruct Htag as [Ht|(Ht & -> & ->)]; simpl.
  - destruct st as [s|]; [|split; simpl; auto].
    assert (decode tag value p = p) as -> by (destruct p; unfold decode; repeat case_Z; (done || lia)).
    assert (is_digit d = true → 48 ≤ concat 8 (part 15 8 tag) d `mod` 256 ∧
      256 ≤ concat 8 (part 15 8 tag) d < 65536) as Hmore.
    { intros. apply second_tag; [|done]. rewrite part_high, Z.mod_small; lia. }
    destruct (is_digit d) eqn:Hd; [destruct (Hnew eq_refl), (Hmore eq_refl)|];
      (destruct (s =? IDLE); [split; simpl; auto|]);
      (destruct (s =? PARSE_TAG); [destruct (d =? 61); split; simpl; auto|]);
      (destruct (s =? PARSE_VALUE); [destruct (d =? 124); split; simpl; auto|]);
      (destruct (s =? PROCESS_FIELD); [split; simpl; auto|]);
      destruct (s =? MSG_COMPLETE); split; simpl; auto.
  - destruct (is_digit d) eqn:Hd; [destruct (Hnew eq_refl)|]; split; simpl; auto.
Qed.

Lemma edges_final p r es : final p r → final p (react_all (uncurry Edge <$> es) r).
Proof.
  revert r. induction es as [|[v d] es IH]; intros r Hr; [done|]. by apply IH, edge_final.
Qed.

(** C31: the first field after a reset, every byte of it presented for one edge with an idle
    edge after it, and the first byte at the first edge after the reset (or, when
    [next_state] was [IDLE] at power-up, after any number of idle edges; reset leaves
    [next_state] alone): when its tag ends in the digit 8 it sets the target component to the
    last four bytes of its value, when it ends in 1 the sender, and any other field sets
    nothing; in particular the field 8 does not set [o_begin_string].  The byte after the
    field is swallowed, and whatever is clocked in next until another reset, fast or slow,
    no later field ever changes an output. *)
Theorem hardware_decodes_first_field_only (r0 : regs) (idle tag value : list Z) (d x : Z)
    (after : list (bool * Z)) (Hidle : idle = [] ∨ next_state r0 = Some IDLE)
    (Htag : Forall (λ c, is_digit c = true) (tag ++ [d]))
    (Hvalue : Forall (λ b, 0 ≤ b < 256 ∧ b ≠ 124) value) :
  ports (react_all (Reset :: (Edge false <$> idle) ++
      feed (tag ++ [d; 61] ++ value ++ [124; x]) ++ (uncurry Edge <$> after)) r0) =
    let 'mkFields b m s t q := ports r0 in
    if d =? 56 then mkFields b m s (Some (u32 (number value))) q
    else if d =? 49 then mkFields b m (Some (u32 (number value))) t q
    else ports r0.
Proof.
  set (fields := let 'mkFields b m s t q := ports r0 in _).
  assert (48 ≤ d ≤ 57) as Hd by (apply Forall_app in Htag as [_ [Hd _]%Forall_cons]; by apply digit_char_range).
  assert (∃ count, react_all (feed (tag ++ [d; 61] ++ value ++ [124; x])) (reset r0) =
    settled IDLE d (u32 (number value)) count (decode d (u32 (number value)) (ports r0))) as (count & Hfeed).
  { replace (tag ++ [d; 61] ++ value ++ [124; x]) with ((tag ++ [d]) ++ [61] ++ value ++ [124; x])
      by by rewrite <-app_assoc.
    rewrite feed_app, feed_first_tag, feed_app by done.
    change (react_all (feed [61]) _) with (settled PARSE_VALUE d (u32 0) 0 (ports r0)).
    rewrite feed_app. destruct (feed_value value d 0 0 (ports r0) Hvalue) as [count ->]. by exists count. }
  assert (decode d (u32 (number value)) (ports r0) = fields) as Hdecode.
  { unfold fields, decode. destruct (ports r0). repeat case_Z; (done || lia). }
  change (react_all (Reset :: ?l) r0) with (react_all l (reset r0)).
  unfold react_all at 1. rewrite foldl_app. fold (react_all (Edge false <$> idle) (reset r0)).
  rewrite idle_edges, foldl_app by done. fold (react_all (feed (tag ++ [d; 61] ++ value ++ [124; x])) (reset r0)).
  rewrite Hfeed, Hdecode. apply fi_ports, edges_final.
  split; simpl; [done|rewrite Z.mod_small; lia|right; split; [lia|done]].
Qed.

(** ** Other inputs *)

(** With [next_state] unknown at power-up, as in a simulation, an edge without a byte makes
    the state unknown too, and it stays so. *)
Lemma unknown_state_sticks r0 d es :
  next_state r0 = None →
  let r := react_all (Reset :: Edge false d :: (uncurry Edge <$> es)) r0 in
  state r = None ∧ next_state r = None ∧ ports r = ports r0.
Proof.
  intros Hx. simpl. unfold reset. rewrite Hx. simpl.
  generalize 0 at 1 as tag. generalize 0 at 1 as value. generalize 0 at 1 as count. generalize 0 as ok.
  induction es as [|[v d'] es IH]; intros ok count value tag; [done|]. destruct v; apply IH.
Qed.

(** The test bench reports a failure, unless [next_state] held [MSG_COMPLETE] at power-up. *)
Lemma testbench_fails r0 :
  next_state r0 ≠ Some MSG_COMPLETE → o_msg_valid (react_all testbench r0) = 0.
Proof.
  intros Hpower. apply in_valid. exact (run_incomplete r0 (tail testbench) Hpower).
Qed.

(** A source that presents a byte only when the parser is ready. *)
Fixpoint polite (es : list event) (r : regs) : Prop :=
  match es with
  | [] => True
  | e :: es => match e with Edge true _ => o_ready r = Some true | _ => True end ∧ polite es (react r e)
  end.

(** For it nothing is ever decoded: the parser is ready only before the first digit of a tag. *)
Lemma polite_source_stalls es r : polite es r → ports (react_all es r) = ports r.
Proof.
  revert r. induction es as [|e es IH]; intros r; [done|]. intros [He Hes]. simpl. rewrite IH by done.
  destruct e as [|[] d]; [done| |by destruct r].
  destruct r as [[s|] ns tag value count p ok]; [|done]. unfold o_ready in He. simpl in *.
  destruct (s =? IDLE); [by destruct (is_digit d)|done].
Qed.

(** ** Concrete runs, from registers that are zero at power-up *)
Definition zero_regs : regs :=
  mkRegs (Some 0) (Some 0) 0 0 0 (mkFields (Some 0) (Some 0) (Some 0) (Some 0) (Some 0)) 0.

(** One byte per edge: the equals sign after a one-digit tag is lost, since [state] follows
    [next_state] one edge later, and the parser waits for another one. *)
Lemma consecutive_bytes_are_lost :
  let r := react_all (Reset :: (Edge true <$> ascii "8=FIX|")) zero_regs in
  ports r = ports zero_regs ∧ state r = Some PARSE_TAG.
Proof. by vm_compute. Qed.

Lemma hardware_never_completes_witness :
  let r := react_all (Reset :: feed (ascii "8=FIX.4.4|35=D|34=7|10=001|")) zero_regs in
  o_begin_string (ports r) = Some 0 ∧ o_msg_type (ports r) = Some 0 ∧
  o_sequence (ports r) = Some 0 ∧ (Some 0 ≠ Some MSG_COMPLETE → o_msg_valid r = 0).
Proof.
  exact (hardware_never_completes zero_regs (feed (ascii "8=FIX.4.4|35=D|34=7|10=001|"))
    ltac:(apply (bool_decide_unpack _); by vm_compute)).
Defined.

(** The field 8=FIX, then 35=D: the target component is the text FIX.  At power-up
    [next_state] is unknown, and the first byte follows the reset. *)
Definition unknown_next : regs :=
  mkRegs (Some 0) None 0 0 0 (mkFields (Some 0) (Some 0) (Some 0) (Some 0) (Some 0)) 0.

Lemma hardware_decodes_first_field_only_witness :
  ports (react_all (Reset :: (Edge false <$> []) ++ feed ([] ++ [56; 61] ++ ascii "FIX" ++ [124; 51]) ++
    (uncurry Edge <$> [(true, 53); (false, 53); (true, 61); (true, 68); (true, 124)])) unknown_next) =
  mkFields (Some 0) (Some 0) (Some 0) (Some (u32 (number (ascii "FIX")))) (Some 0).
Proof.
  exact (hardware_decodes_first_field_only unknown_next [] [] (ascii "FIX") 56 51
    [(true, 53); (false, 53); (true, 61); (true, 68); (true, 124)] (or_introl eq_refl)
    ltac:(by repeat constructor) ltac:(apply (bool_decide_unpack _); by vm_compute)).
Defined.
End FixHardware.
