(* ===== verification/Umem.v ===== *)
(** * [Umem]: 2_network/include/umem.hpp and 2_network/src/umem.cpp

    The packet buffer memory: one mapping cut into frames of equal size.  [mmap] is a
    parameter: from a size to the address of a mapping of that size, or a failure. *)
From S2P Require Import Prelude.

Module UmemRegion.

Record Umem : Type := mkUmem {
  base_ : option Z;        (* [None] is the null pointer *)
  num_frames_ : Z;         (* uint32_t *)
  frame_size_ : Z;         (* uint32_t *)
  memory : list Z          (* the bytes of the mapping *)
}.

Section Methods.
Context (mmap : Z → option Z).

(** The constructor zeroes the mapping, if it got one. *)
Definition Umem_new (num_frames frame_size : Z) : Umem :=
  let total := u64 (num_frames * frame_size) in
  match mmap total with
  | None => mkUmem None num_frames frame_size []
  | Some base => mkUmem (Some base) num_frames frame_size (replicate (Z.to_nat total) 0)
  end.

(** The size the destructor unmaps, if it unmaps. *)
Definition Umem_delete (u : Umem) : option (Z * Z) :=
  match base_ u with
  | None => None
  | Some base => Some (base, u64 (num_frames_ u * frame_size_ u))
  end.

Definition base_addr (u : Umem) : option Z := base_ u.
Definition num_frames (u : Umem) : Z := num_frames_ u.
Definition frame_size (u : Umem) : Z := frame_size_ u.
Definition total_size (u : Umem) : Z := u64 (num_frames_ u * frame_size_ u).

(** Pointer arithmetic is defined up to one past the end of the mapping. *)
Definition frame_at_offset (u : Umem) (offset : Z) : outcome Z :=
  match base_ u with
  | None => Fault OutOfBounds
  | Some base =>
      if offset <=? Z.of_nat (length (memory u)) then Ok (base + offset) else Fault OutOfBounds
  end.
End Methods.

Lemma product_fits n f : 0 ≤ n < 2 ^ 32 → 0 ≤ f < 2 ^ 32 → 0 ≤ n * f < 2 ^ 64.
Proof. intros. change (2 ^ 64) with (2 ^ 32 * 2 ^ 32). nia. Qed.

(** For all 32-bit arguments the size of the mapping is the exact product, the
    destructor unmaps what was mapped, and frame [i], at offset [i * frame_size], is
    reached by [frame_at_offset], lies inside the mapping and meets no other frame. *)
Lemma umem_frames_partition (mmap : Z → option Z) (n f base : Z)
    (Hn : 0 ≤ n < 2 ^ 32) (Hf : 0 ≤ f < 2 ^ 32) (Hmap : mmap (n * f) = Some base) :
  let u := Umem_new mmap n f in
  total_size u = n * f ∧ Z.of_nat (length (memory u)) = n * f ∧
  Umem_delete u = Some (base, n * f) ∧
  ∀ i, 0 ≤ i < n →
    frame_at_offset u (i * f) = Ok (base + i * f) ∧ i * f + f ≤ n * f ∧
    ∀ j, 0 ≤ j < n → i ≠ j → i * f + f ≤ j * f ∨ j * f + f ≤ i * f.
Proof.
  intros u. pose proof (product_fits n f Hn Hf) as Hp.
  assert (u = mkUmem (Some base) n f (replicate (Z.to_nat (n * f)) 0)) as ->.
  { unfold u, Umem_new. by rewrite wrap_small, Hmap by done. }
  unfold total_size, Umem_delete, frame_at_offset. simpl.
  rewrite length_replicate, !wrap_small, Z2Nat.id by lia.
  split_and!; [done..|]. intros i Hi.
  destruct (Z.leb_spec (i * f) (n * f)); [|nia]. split_and!; [done|nia|].
  intros j Hj Hij. assert (i + 1 ≤ j ∨ j + 1 ≤ i) as [|] by lia; [left|right]; nia.
Qed.

Lemma umem_frames_partition_example :
  let u := Umem_new (λ _, Some 4096) 4 16 in
  total_size u = 64 ∧ Z.of_nat (length (memory u)) = 64 ∧ Umem_delete u = Some (4096, 64) ∧
  ∀ i, 0 ≤ i < 4 →
    frame_at_offset u (i * 16) = Ok (4096 + i * 16) ∧ i * 16 + 16 ≤ 64 ∧
    ∀ j, 0 ≤ j < 4 → i ≠ j → i * 16 + 16 ≤ j * 16 ∨ j * 16 + 16 ≤ i * 16.
Proof.
  exact (umem_frames_partition (λ _, Some 4096) 4 16 4096 ltac:(lia) ltac:(lia) eq_refl).
Defined.
End UmemRegion.
