(* ===== verification/XskSocket.v ===== *)
(** * [XskSocket]: the packet handling of 2_network/src/xsk_socket.cpp

    The batch loop and the refill of the socket, which are compiled only with libbpf; the
    rest of the class is in XskLifecycle.
    The rings of libxdp, the frame allocator and the parser entry point they call
    are not defined in the repository: they are parameters. *)
From S2P Require Import Prelude.

Module Xsk.

Section Rx.
Context {message : Type}.
(** [xsk_ring_cons__rx_desc]: address and length of a received packet. *)
Context (rx_desc : Z → Z * Z).
(** [Umem::get_frame], null for an address without a frame, and [fix::parse]. *)
Context (get_frame : Z → option (list Z)) (parse : list Z → Z → option message).
Context (rdtsc : nat → Z).

Record rx_state := mkRx {
  rx_idx_ : Z;                            (* uint32_t *)
  pkt_count_ : Z;                         (* uint64_t *)
  parse_errors_ : Z;                      (* uint64_t *)
  delivered : list (message * Z);         (* the calls of [on_fix_message_] *)
  freed : list Z;                         (* the calls of [free_frame] *)
  tsc_reads : nat
}.

(** One packet of the batch. *)
Definition process_packet (i : Z) (s : rx_state) : rx_state :=
  let '(addr, len) := rx_desc (u32 (rx_idx_ s + i)) in
  match get_frame addr with
  | None => s
  | Some pkt_data =>
      let recv_tsc := rdtsc (tsc_reads s) in
      match parse pkt_data len with
      | Some msg =>
          mkRx (rx_idx_ s) (u64 (pkt_count_ s + 1)) (parse_errors_ s)
               (delivered s ++ [(msg, recv_tsc)]) (freed s ++ [addr]) (S (tsc_reads s))
      | None =>
          mkRx (rx_idx_ s) (pkt_count_ s) (u64 (parse_errors_ s + 1))
               (delivered s) (freed s ++ [addr]) (S (tsc_reads s))
      end
  end.

Fixpoint process_rx_batch_from (n : nat) (i : Z) (s : rx_state) : rx_state :=
  match n with
  | O => s
  | S n => process_rx_batch_from n (i + 1) (process_packet i s)
  end.

Definition process_rx_batch (n_pkts : Z) (s : rx_state) : rx_state :=
  process_rx_batch_from (Z.to_nat n_pkts) 0 s.

(** ** What a batch does *)

(** The packets of the batch that have a frame, and the messages among them. *)
Definition frames (idx i : Z) (n : nat) : list (Z * (list Z * Z)) :=
  omap (λ k, let '(addr, len) := rx_desc (u32 (idx + k)) in
             (λ data, (addr, (data, len))) <$> get_frame addr) (seqZ i (Z.of_nat n)).
Definition messages (fs : list (Z * (list Z * Z))) : list message :=
  omap (λ f, parse f.2.1 f.2.2) fs.

Lemma frames_S idx i n :
  frames idx i (S n) = frames idx i 1 ++ frames idx (i + 1) n.
Proof.
  unfold frames. rewrite <-omap_app. f_equal.
  replace (Z.of_nat (S n)) with (1 + Z.of_nat n) by lia. by rewrite seqZ_app by lia.
Qed.

Lemma process_rx_batch_from_spec n i s :
  pkt_count_ s + parse_errors_ s + Z.of_nat n < 2 ^ 64 → 0 ≤ pkt_count_ s → 0 ≤ parse_errors_ s →
  let s' := process_rx_batch_from n i s in
  let fs := frames (rx_idx_ s) i n in
  rx_idx_ s' = rx_idx_ s ∧
  freed s' = freed s ++ fs.*1 ∧
  (delivered s').*1 = (delivered s).*1 ++ messages fs ∧
  pkt_count_ s' = pkt_count_ s + Z.of_nat (length (messages fs)) ∧
  parse_errors_ s' = parse_errors_ s + Z.of_nat (length fs - length (messages fs)) ∧
  (length (messages fs) ≤ length fs)%nat.
Proof.
  revert i s. induction n as [|n IH]; intros i s Hb Hc He.
  { simpl. rewrite !app_nil_r, !Z.add_0_r. done. }
  cbn [process_rx_batch_from]. rewrite frames_S.
  set (s1 := process_packet i s). set (rest := frames (rx_idx_ s) (i + 1) n).
  assert (∃ fs, frames (rx_idx_ s) i 1 = fs ∧ rx_idx_ s1 = rx_idx_ s ∧
    freed s1 = freed s ++ fs.*1 ∧ (delivered s1).*1 = (delivered s).*1 ++ messages fs ∧
    pkt_count_ s1 = pkt_count_ s + Z.of_nat (length (messages fs)) ∧
    parse_errors_ s1 = parse_errors_ s + Z.of_nat (length fs - length (messages fs)) ∧
    (length (messages fs) ≤ length fs ≤ 1)%nat) as (fs & Hfs & H1 & H2 & H3 & H4 & H5 & H6).
  { eexists. split; [done|]. unfold s1, process_packet, frames, messages.
    replace (seqZ i (Z.of_nat 1)) with [i] by by rewrite seqZ_cons by lia. simpl.
    destruct (rx_desc _) as [addr len]. destruct (get_frame addr) as [pkt|]; simpl.
    - destruct (parse pkt len); simpl; rewrite ?fmap_app, ?app_nil_r, ?Z.add_0_r, ?wrap_small
        by lia; split_and!; done || lia.
    - rewrite ?app_nil_r, ?Z.add_0_r. split_and!; done || lia. }
  rewrite Hfs. destruct (IH (i + 1) s1) as (G1 & G2 & G3 & G4 & G5 & G6); [lia..|].
  rewrite H1 in *. fold rest in G2, G3, G4, G5, G6.
  unfold messages in *. rewrite omap_app, fmap_app, !length_app.
  split_and!; [done|by rewrite G2, H2, app_assoc|by rewrite G3, H3, app_assoc|lia..].
Qed.

(** A batch counts every packet that has a frame once, as a message or as a parse
    error, hands the messages over in the order of the ring, and returns exactly the
    frames of these packets. *)
Lemma rx_batch_accounts (n_pkts : Z) (s : rx_state)
    (Hn : 0 ≤ n_pkts) (Hc : 0 ≤ pkt_count_ s) (He : 0 ≤ parse_errors_ s)
    (Hb : pkt_count_ s + parse_errors_ s + n_pkts < 2 ^ 64) :
  let s' := process_rx_batch n_pkts s in
  let fs := frames (rx_idx_ s) 0 (Z.to_nat n_pkts) in
  (delivered s').*1 = (delivered s).*1 ++ messages fs ∧
  freed s' = freed s ++ fs.*1 ∧
  pkt_count_ s' = pkt_count_ s + Z.of_nat (length (messages fs)) ∧
  pkt_count_ s' + parse_errors_ s' = pkt_count_ s + parse_errors_ s + Z.of_nat (length fs).
Proof.
  destruct (process_rx_batch_from_spec (Z.to_nat n_pkts) 0 s) as (_ & H2 & H3 & H4 & H5 & H6);
    [lia..|].
  unfold process_rx_batch. cbv zeta. split_and!; [done|done|done|lia].
Qed.
End Rx.

(** ** The refill *)
Section Fill.
(** [xsk_prod_ring_need_wakeup], the slots [xsk_ring_prod__reserve] grants, and the
    frames the allocator has left; it answers [UMEM_INVALID] when there is none. *)
Context (num_frames : Z) (need_wakeup : bool) (reserved : Z).

(** The slots of the ring written so far, newest first, and the frames left. *)
Fixpoint fill_loop (n : nat) (idx : Z) (free : list Z) (written : list (Z * Z))
    : list Z * list (Z * Z) :=
  match n with
  | O => (free, written)
  | S n =>
      match free with
      | [] => (free, written)
      | frame_addr :: free => fill_loop n (idx + 1) free ((idx, frame_addr) :: written)
      end
  end.

(** The number of slots submitted, the slots written and the frames left. *)
Definition fill_rx_ring (fill_idx : Z) (free : list Z) : Z * list (Z * Z) * list Z :=
  let n_free := if need_wakeup then num_frames else reserved in
  if n_free =? 0 then (0, [], free)
  else let '(free', written) := fill_loop (Z.to_nat n_free) fill_idx free [] in
       (n_free, written, free').

Lemma fill_loop_length n idx free written :
  length (fill_loop n idx free written).2 = (length written + Nat.min n (length free))%nat.
Proof.
  revert idx free written. induction n as [|n IH]; intros idx free written; simpl; [lia|].
  destruct free as [|a free]; simpl; [lia|]. rewrite IH. simpl. lia.
Qed.

(** When the allocator runs dry the loop stops early, but every slot asked for is
    submitted: the kernel is handed slots that were not written. *)
Lemma fill_submits_unwritten_slots (fill_idx : Z) (free : list Z) :
  let '(submitted, written, _) := fill_rx_ring fill_idx free in
  0 ≤ submitted →
  submitted = (if need_wakeup then num_frames else reserved) ∧
  Z.of_nat (length written) = Z.min submitted (Z.of_nat (length free)).
Proof.
  unfold fill_rx_ring. set (n_free := if need_wakeup then num_frames else reserved).
  destruct (Z.eqb_spec n_free 0) as [->|]; [simpl; lia|].
  pose proof (fill_loop_length (Z.to_nat n_free) fill_idx free []) as Hl.
  destruct (fill_loop _ _ _ _) as [free' written]. simpl in Hl. intros Hpos. split; [done|]. lia.
Qed.
End Fill.

(** Two packets, the second without a frame. *)
Lemma rx_batch_accounts_example :
  let s := mkRx 7 0 0 [] [] 0 in
  let desc i := if i =? 7 then (0, 1) else (64, 1) in
  let frame a := if a =? 0 then Some [35] else None in
  let s' := process_rx_batch desc frame (λ d _, Some d) Z.of_nat 2 s in
  (delivered s').*1 = [[35]] ∧ freed s' = [0] ∧ pkt_count_ s' = 1 ∧
  pkt_count_ s' + parse_errors_ s' = 1.
Proof.
  exact (rx_batch_accounts (λ i, if i =? 7 then (0, 1) else (64, 1))
           (λ a, if a =? 0 then Some [35] else None) (λ d _, Some d) Z.of_nat 2
           (mkRx 7 0 0 [] [] 0) ltac:(lia) ltac:(simpl; lia) ltac:(simpl; lia) eq_refl).
Defined.
End Xsk.
