(* ===== verification/XskLifecycle.v ===== *)
(** * [XskSocket]: set-up, receive loop and tear-down of 2_network/src/xsk_socket.cpp

    The constructor, [load_bpf_program], [run_rx_loop] and the destructor as actions on the
    socket and the kernel: an exception ends a method but keeps what it did.  The calls of
    libxdp, libbpf and the system are environment functions of the number of the call.
    The batch loop and the refill are those of XskSocket. *)
From stdpp Require Import pretty.
From S2P Require Import Prelude Binary64 TscClock Umem XskSocket.

Module XskLife.
Import UmemRegion.

(** ** Actions that keep their state when they throw *)
Definition action (S A : Type) : Type := S → S * (A + string).

#[export] Instance action_ret {S} : MRet (action S) := λ A a s, (s, inl a).
#[export] Instance action_bind {S} : MBind (action S) := λ A B f m s,
  let '(s', r) := m s in
  match r with inl a => f a s' | inr what => (s', inr what) end.
Definition throw {S A} (what : string) : action S A := λ s, (s, inr what).
Definition modify {S} (f : S → S) : action S unit := λ s, (f s, inl tt).
Definition get {S A} (f : S → A) : action S A := λ s, (s, inl (f s)).

Record XskConfig := mkConfig {
  interface : string;
  fix_port : Z;            (* uint16_t *)
  queue_id : Z;            (* uint32_t *)
  num_frames : Z;          (* uint32_t *)
  frame_size : Z;          (* uint32_t *)
  force_zero_copy : bool
}.

(** What a socket acquires and has to give back. *)
Inductive resource : Type :=
  | Mapping (base size : Z)
  | Program (prog : Z)
  | UmemArea (xsk_umem : Z) (size : Z)
  | Socket (xsk : Z).

(** The members with which the set-up is concerned, and the kernel: what it handed out and
    took back, in order, the lines printed, and the calls answered. *)
Record socket := mkSocket {
  umem_ : Umem;
  zero_copy_ : bool;
  if_index_ : Z;
  xsk_ : option Z;         (* [None] is the null pointer *)
  xsk_umem_ : option (Z * Z);
  prog_ : option Z;
  acquired : list resource;
  released : list resource;
  printed : list string;
  calls : nat
}.

Definition set_members (zc : bool) (ifi : Z) (x : option Z) (u : option (Z * Z)) (p : option Z)
    (s : socket) : socket :=
  mkSocket (umem_ s) zc ifi x u p (acquired s) (released s) (printed s) (calls s).

Definition set_if_index (i : Z) (s : socket) := set_members (zero_copy_ s) i (xsk_ s) (xsk_umem_ s) (prog_ s) s.
Definition set_zero_copy (b : bool) (s : socket) := set_members b (if_index_ s) (xsk_ s) (xsk_umem_ s) (prog_ s) s.
Definition set_xsk (x : option Z) (s : socket) := set_members (zero_copy_ s) (if_index_ s) x (xsk_umem_ s) (prog_ s) s.
Definition set_xsk_umem (u : option (Z * Z)) (s : socket) :=
  set_members (zero_copy_ s) (if_index_ s) (xsk_ s) u (prog_ s) s.
Definition set_prog (p : option Z) (s : socket) :=
  set_members (zero_copy_ s) (if_index_ s) (xsk_ s) (xsk_umem_ s) p s.

Definition set_kernel (acq rel : list resource) (out : list string) (n : nat) (s : socket) : socket :=
  mkSocket (umem_ s) (zero_copy_ s) (if_index_ s) (xsk_ s) (xsk_umem_ s) (prog_ s) acq rel out n.

Definition print (line : string) : action socket unit :=
  modify (λ s, set_kernel (acquired s) (released s) (printed s ++ [line]) (calls s) s).
Definition acquire (r : resource) : action socket unit :=
  modify (λ s, set_kernel (acquired s ++ [r]) (released s) (printed s) (calls s) s).
Definition release (r : resource) : action socket unit :=
  modify (λ s, set_kernel (acquired s) (released s ++ [r]) (printed s) (calls s) s).

(** A call of the environment. *)
Definition ask {A} (f : nat → A) : action socket A := λ s,
  (set_kernel (acquired s) (released s) (printed s) (S (calls s)) s, inl (f (calls s))).

Section Methods.
Context (have_libbpf : bool) (config : XskConfig).
Context (XDP_COPY XDP_ZEROCOPY : Z).

(** The calls: a status, an index, a handle or null; those that return a status and a handle
    return the handle on success only. *)
Context (mmap : Z → option Z).
Context (getrlimit setrlimit : nat → Z) (if_nametoindex : string → nat → Z).
Context (bpf_object__open : string → nat → option Z) (bpf_object__load : Z → nat → Z).
Context (xsk_umem_config_init xsk_socket_config_init : nat → Z).
Context (xsk_umem__create : Z → nat → option Z) (xsk_socket__create : string → Z → nat → option Z).

(** The members before the body of the constructor. *)
Definition initial_socket : socket :=
  let u := Umem_new mmap (num_frames config) (frame_size config) in
  mkSocket u false 0 None None None
    (match base_ u with Some base => [Mapping base (total_size u)] | None => [] end) [] [] 0.

Definition constructor_body : action socket unit :=
  if have_libbpf then
    _ ← print ("[XskSocket] Initializing with AF_XDP on " +:+ interface config);
    ok ← ask getrlimit;
    _ ← (if ok =? 0 then _ ← ask setrlimit; mret tt else mret tt);
    i ← ask (if_nametoindex (interface config));
    _ ← modify (set_if_index i);
    if i =? 0 then throw ("Interface not found: " +:+ interface config)
    else print ("[XskSocket] Interface " +:+ interface config +:+ " -> ifindex " +:+ pretty i)
  else
    _ ← print "[XskSocket] WARNING: Built without libbpf. AF_XDP disabled.";
    print "[XskSocket] Install: sudo apt-get install libbpf-dev".

(** [~Umem], run when the members are destroyed. *)
Definition delete_umem : action socket unit :=
  u ← get umem_;
  match Umem_delete u with
  | Some (base, size) => release (Mapping base size)
  | None => mret tt
  end.

(** A constructor that throws destroys the members made so far, and there is no object. *)
Definition XskSocket_new : socket * (unit + string) :=
  match constructor_body initial_socket with
  | (s, inl _) => (s, inl tt)
  | (s, inr what) => ((delete_umem s).1, inr what)
  end.

Definition XskSocket_delete : action socket unit :=
  _ ← (if have_libbpf then
    x ← get xsk_;
    _ ← match x with Some h => release (Socket h) | None => mret tt end;
    u ← get xsk_umem_;
    _ ← match u with Some (h, size) => release (UmemArea h size) | None => mret tt end;
    p ← get prog_;
    match p with Some h => release (Program h) | None => mret tt end
  else mret tt);
  delete_umem.

Definition load_bpf_program (bpf_obj_path : string) : action socket unit :=
  if have_libbpf then
    _ ← print ("[XskSocket] Loading BPF program: " +:+ bpf_obj_path);
    prog ← ask (bpf_object__open bpf_obj_path);
    _ ← modify (set_prog prog);
    match prog with
    | None => throw ("Failed to open BPF object: " +:+ bpf_obj_path)
    | Some p =>
        _ ← acquire (Program p);
        failed ← ask (bpf_object__load p);
        if negb (failed =? 0) then throw "Failed to load BPF object" else
        failed ← ask xsk_umem_config_init;
        if negb (failed =? 0) then throw "Failed to init UMEM config" else
        let size := u32 (num_frames config * frame_size config) in
        area ← ask (xsk_umem__create size);
        match area with
        | None => throw "Failed to create UMEM"
        | Some a =>
            _ ← acquire (UmemArea a size);
            _ ← modify (set_xsk_umem (Some (a, size)));
            failed ← ask xsk_socket_config_init;
            if negb (failed =? 0) then throw "Failed to init XSK config" else
            let bind_flags := XDP_COPY in
            xsk ← ask (xsk_socket__create (interface config) (queue_id config));
            match xsk with
            | None => throw "Failed to create XSK socket"
            | Some x =>
                _ ← acquire (Socket x);
                _ ← modify (set_xsk (Some x));
                let zc := negb (Z.land bind_flags XDP_ZEROCOPY =? 0) in
                _ ← modify (set_zero_copy zc);
                print ("[XskSocket] AF_XDP socket created. Zero-copy: " +:+ (if zc then "yes" else "no"))
            end
        end
    end
  else print "[XskSocket] Cannot load BPF program without libbpf".

Definition run_socket_fallback : action socket unit :=
  _ ← print "[XskSocket] Running socket-based fallback (no AF_XDP)";
  _ ← print "[WARNING] Using socket instead of AF_XDP. Latency will be higher.";
  print "[INFO] Install libbpf-dev for AF_XDP support: sudo apt-get install libbpf-dev".

(** The life of a socket: constructed, programs loaded (the caller catches what is thrown),
    destroyed. *)
Definition load_all (paths : list string) (s : socket) : socket :=
  foldl (λ s path, (load_bpf_program path s).1) s paths.

Definition session (paths : list string) : socket :=
  match XskSocket_new with
  | (s, inl _) => (XskSocket_delete (load_all paths s)).1
  | (s, inr _) => s
  end.

Ltac run := unfold mbind, action_bind, mret, action_ret; cbn.

(** ** What a socket holds *)
Definition mapping_of (s : socket) : list resource :=
  match base_ (umem_ s) with Some base => [Mapping base (total_size (umem_ s))] | None => [] end.

Definition handles (s : socket) : list resource :=
  option_list (Program <$> prog_ s) ++ option_list (uncurry UmemArea <$> xsk_umem_ s) ++
  option_list (Socket <$> xsk_ s).

Definition holdings (s : socket) : list resource := mapping_of s ++ handles s.

(** Everything acquired is still held, in that order, and nothing was released. *)
Record holds_all (s : socket) : Prop := {
  ha_acquired : acquired s = holdings s;
  ha_released : released s = [];
  ha_handles : have_libbpf = false → handles s = []
}.

Lemma delete_umem_releases s :
  delete_umem s = (set_kernel (acquired s) (released s ++ mapping_of s) (printed s) (calls s) s, inl tt).
Proof.
  unfold delete_umem, mapping_of, Umem_delete, total_size. run. destruct s as [u]; cbn.
  destruct (base_ u); cbn; [done|by rewrite app_nil_r].
Qed.

Lemma delete_releases s :
  holds_all s → released (XskSocket_delete s).1 = reverse (holdings s) ∧
    acquired (XskSocket_delete s).1 = acquired s.
Proof.
  intros [Ha Hr Hh]. unfold holdings, handles in *. destruct s as [u zc ifi x um p acq rel out n].
  cbn in *. subst rel. unfold XskSocket_delete. run. rewrite reverse_app. destruct have_libbpf.
  - destruct x, um as [[]|], p; cbn; rewrite delete_umem_releases; cbn; unfold mapping_of; cbn;
      destruct (base_ u); done.
  - destruct x, um as [[]|], p; specialize (Hh eq_refl); try done. cbn. rewrite delete_umem_releases. cbn.
    unfold mapping_of. cbn. by destruct (base_ u).
Qed.

Lemma constructor_holds :
  let '(s, r) := constructor_body initial_socket in
  holds_all s ∧ handles s = [] ∧ umem_ s = Umem_new mmap (num_frames config) (frame_size config).
Proof.
  unfold constructor_body. run. destruct have_libbpf eqn:Hl; cbn.
  - destruct (getrlimit 0 =? 0); cbn; destruct (if_nametoindex _ _ =? 0); cbn;
      (split; [split; try done|done]); unfold holdings, mapping_of; cbn; by rewrite app_nil_r.
  - split; [split|done]; try done. unfold holdings, mapping_of; cbn; by rewrite app_nil_r.
Qed.

Ltac held :=
  cbn; split; unfold holdings, mapping_of, handles; cbn; rewrite ?app_nil_r, <-?app_assoc; first [done|congruence].

Lemma load_holds path s :
  holds_all s → handles s = [] → holds_all (load_bpf_program path s).1.
Proof.
  intros [Ha Hr Hh] Hnone. destruct s as [u zc ifi x um p acq rel out n].
  unfold holdings, mapping_of, handles in *. cbn in *. destruct x, um, p; try done. cbn in *.
  rewrite app_nil_r in Ha. subst acq rel. unfold load_bpf_program. run. destruct have_libbpf eqn:Hl.
  - cbn. destruct (bpf_object__open path n) as [h|]; [|held]. cbn.
    destruct (bpf_object__load h _ =? 0); [|held]. cbn.
    destruct (xsk_umem_config_init _ =? 0); [|held]. cbn.
    destruct (xsk_umem__create _ _) as [a|]; [|held]. cbn.
    destruct (xsk_socket_config_init _ =? 0); [|held]. cbn.
    destruct (xsk_socket__create _ _ _) as [xs|]; held.
  - held.
Qed.

(** C38: whatever the calls of the system and of the libraries answer, a socket that loads at
    most one program gives back everything it acquired, in the reverse order, exactly once:
    the mapping, the program, the UMEM and the socket, also when its constructor or the
    loading throws half-way. *)
Theorem socket_releases_what_it_acquired (paths : list string) (Hone : (length paths ≤ 1)%nat) :
  released (session paths) = reverse (acquired (session paths)).
Proof.
  unfold session, XskSocket_new. pose proof constructor_holds as Hc.
  destruct (constructor_body initial_socket) as [s [[]|what]]; destruct Hc as (Hall & Hnone & Hu).
  - assert (holds_all (load_all paths s)) as Hl.
    { destruct paths as [|path [|]]; simpl in *; [done|by apply load_holds|lia]. }
    destruct (delete_releases _ Hl) as [-> ->]. by rewrite (ha_acquired _ Hl).
  - rewrite delete_umem_releases. cbn. destruct Hall as [-> -> _]. unfold holdings. rewrite Hnone.
    rewrite app_nil_r. unfold mapping_of. by destruct (base_ (umem_ s)).
Qed.

(** [bind_flags] is the constant [XDP_COPY], so no socket is ever zero-copy, whatever the
    configuration asks for. *)
Lemma load_never_zero_copy path s :
  Z.land XDP_COPY XDP_ZEROCOPY = 0 → zero_copy_ s = false →
  zero_copy_ (load_bpf_program path s).1 = false.
Proof.
  intros Hflags Hz. unfold load_bpf_program. run. destruct have_libbpf; [|done]. cbn.
  destruct (bpf_object__open _ _) as [h|]; [|done]. cbn.
  destruct (bpf_object__load h _ =? 0); [|done]. cbn.
  destruct (xsk_umem_config_init _ =? 0); [|done]. cbn.
  destruct (xsk_umem__create _ _) as [a|]; [|done]. cbn.
  destruct (xsk_socket_config_init _ =? 0); [|done]. cbn.
  destruct (xsk_socket__create _ _ _) as [xs|]; [|done]. cbn. by rewrite Hflags.
Qed.
End Methods.

(** ** Concrete lives *)
Section Demo.
Context (num_frames_ : Z).
Definition demo_config : XskConfig := mkConfig "eth0" 9876 0 num_frames_ 2048 true.

(** Every call succeeds; handles are numbered by the calls. *)
Definition demo_session (paths : list string) : socket :=
  session true demo_config 2 4 (λ _, Some 4096) (λ _, 0) (λ _, 0) (λ _ _, 3)
    (λ _ n, Some (Z.of_nat n)) (λ _ _, 0) (λ _, 0) (λ _, 0) (λ _ n, Some (Z.of_nat n))
    (λ _ _ n, Some (Z.of_nat n)) paths.
End Demo.

Lemma socket_releases_what_it_acquired_witness :
  released (demo_session 4 ["fix.bpf.o"]) = reverse (acquired (demo_session 4 ["fix.bpf.o"])).
Proof.
  exact (socket_releases_what_it_acquired true (demo_config 4) 2 4 (λ _, Some 4096) (λ _, 0)
    (λ _, 0) (λ _ _, 3) (λ _ n, Some (Z.of_nat n)) (λ _ _, 0) (λ _, 0) (λ _, 0)
    (λ _ n, Some (Z.of_nat n)) (λ _ _ n, Some (Z.of_nat n)) ["fix.bpf.o"] (le_n 1)).
Defined.

(** Loading twice overwrites the handles of the first program: they are never given back. *)
Lemma second_load_leaks :
  acquired (demo_session 4 ["a.o"; "b.o"]) =
    [Mapping 4096 8192; Program 3; UmemArea 6 8192; Socket 8;
     Program 9; UmemArea 12 8192; Socket 14] ∧
  released (demo_session 4 ["a.o"; "b.o"]) =
    [Socket 14; UmemArea 12 8192; Program 9; Mapping 4096 8192].
Proof. by vm_compute. Qed.

(** ** The receive loop *)
Section Loop.
Context {message : Type} (config : XskConfig) (ticks : B64.double).
(** [ticks] is the static member [TscClock::ticks_per_ns_].  As in XskSocket: a descriptor, the
    frame at an address, the parser, the counter. *)
Context (rx_desc : Z → Z * Z) (get_frame : Z → option (list Z)) (parse : list Z → Z → option message).
Context (rdtsc : nat → Z).
(** In the [i]-th iteration: whether the kernel asks for a wake-up, what the fill ring grants
    (with the index it writes), the frames the allocator can give, and the packets the
    receive ring has (with the index it writes). *)
Context (need_wakeup : nat → bool) (reserved peeked : nat → Z * Z) (free_frames : nat → list Z).

Record rx_loop := mkLoop {
  rx : Xsk.rx_state (message := message);
  fill_idx_ : Z;
  submitted : list Z;                    (* the calls of [xsk_ring_prod__submit] *)
  ring_released : list Z;                (* the calls of [xsk_ring_cons__release] *)
  total_packets : Z;                     (* uint64_t *)
  stats : list (Z * B64.double)          (* the lines printed *)
}.

(** Refill, poll and handle the batch. *)
Definition poll (k : nat) (s : rx_loop) : rx_loop :=
  let fill_idx := if need_wakeup k then fill_idx_ s else (reserved k).2 in
  let '(n_free, _, _) := Xsk.fill_rx_ring (num_frames config) (need_wakeup k) (reserved k).1 fill_idx
                           (free_frames k) in
  let submitted' := if n_free =? 0 then submitted s else submitted s ++ [n_free] in
  let '(n_pkts, rx_idx) := peeked k in
  let r := Xsk.mkRx rx_idx (Xsk.pkt_count_ (rx s)) (Xsk.parse_errors_ (rx s)) (Xsk.delivered (rx s))
             (Xsk.freed (rx s)) (Xsk.tsc_reads (rx s)) in
  if 0 <? n_pkts then
    mkLoop (Xsk.process_rx_batch rx_desc get_frame parse rdtsc n_pkts r) fill_idx submitted'
      (ring_released s ++ [n_pkts]) (u64 (total_packets s + n_pkts)) (stats s)
  else mkLoop r fill_idx submitted' (ring_released s) (total_packets s) (stats s).

(** One reading of the counter. *)
Definition tick (r : Xsk.rx_state (message := message)) : Xsk.rx_state :=
  Xsk.mkRx (Xsk.rx_idx_ r) (Xsk.pkt_count_ r) (Xsk.parse_errors_ r) (Xsk.delivered r) (Xsk.freed r)
    (S (Xsk.tsc_reads r)).

Definition print_stats (start_tsc : Z) (s : rx_loop) : outcome rx_loop :=
  if (Z.rem (total_packets s) 10000 =? 0) && (0 <? total_packets s) then
    let now := rdtsc (Xsk.tsc_reads (rx s)) in
    elapsed_ns ← Clock.tsc_to_ns ticks (u64 (now - start_tsc));
    let throughput := B64.div (B64.mul (B64.of_u64 (total_packets s)) (B64.of_u64 1000000000))
                        (B64.of_u64 elapsed_ns) in
    Ok (mkLoop (tick (rx s)) (fill_idx_ s) (submitted s) (ring_released s) (total_packets s)
          (stats s ++ [(total_packets s, throughput)]))
  else Ok s.

Definition rx_iteration (start_tsc : Z) (i : Z) (s : rx_loop) : outcome rx_loop :=
  print_stats start_tsc (poll (Z.to_nat i) s).

(** The loop has no end: these are its states after [k] iterations. *)
Definition rx_iterations (k : nat) (r0 : Xsk.rx_state) (fill_idx0 : Z) : outcome rx_loop :=
  let start_tsc := rdtsc (Xsk.tsc_reads r0) in
  for_loop k 0 (rx_iteration start_tsc) (mkLoop (tick r0) fill_idx0 [] [] 0 []).

(** [run_rx_loop] observed for [k] iterations: it returns at once without a socket, and never
    with one. *)
Inductive observed :=
  | Returned (line : string)
  | Running (s : rx_loop).

Definition run_rx_loop (k : nat) (s : socket) (r0 : Xsk.rx_state) (fill_idx0 : Z) : outcome observed :=
  match xsk_ s with
  | None => Ok (Returned "[XskSocket] Not initialized. Call load_bpf_program() first.")
  | Some _ => s' ← rx_iterations k r0 fill_idx0; Ok (Running s')
  end.

(** ** What the loop accounts for *)

Definition total (xs : list Z) : Z := foldr Z.add 0 xs.

Lemma total_snoc xs x : total (xs ++ [x]) = total xs + x.
Proof. unfold total. induction xs as [|y xs IH]; simpl; lia. Qed.

(** The packets of the first [k] polls. *)
Definition arrived (k : nat) : Z := total ((λ i, (peeked i).1) <$> seq 0 k).

Lemma arrived_S k : arrived (S k) = arrived k + (peeked k).1.
Proof. unfold arrived. rewrite seq_S, fmap_app. apply total_snoc. Qed.

(** The counters of the socket and of the loop when [n] packets have been polled. *)
Record accounts (c0 n : Z) (s : rx_loop) : Prop := {
  ac_total : total_packets s = n;
  ac_released : total (ring_released s) = n;
  ac_counts : 0 ≤ Xsk.pkt_count_ (rx s) ∧ 0 ≤ Xsk.parse_errors_ (rx s);
  ac_sum : Xsk.pkt_count_ (rx s) + Xsk.parse_errors_ (rx s) ≤ c0 + n;
  ac_delivered : Z.of_nat (length (Xsk.delivered (rx s))) = Xsk.pkt_count_ (rx s);
  ac_stats : Forall (λ l, 0 < l.1 ∧ l.1 `mod` 10000 = 0) (stats s)
}.

Lemma length_omap_le {A B} (f : A → option B) l : (length (omap f l) ≤ length l)%nat.
Proof. unfold omap. induction l as [|x l IH]; simpl; [lia|]. destruct (f x); simpl; lia. Qed.

Lemma frames_length idx i n : (length (Xsk.frames rx_desc get_frame idx i n) ≤ n)%nat.
Proof. unfold Xsk.frames. etrans; [apply length_omap_le|]. rewrite length_seqZ. lia. Qed.

(** One batch, as far as the counters go. *)
Lemma batch_counts n r :
  0 ≤ n → 0 ≤ Xsk.pkt_count_ r → 0 ≤ Xsk.parse_errors_ r →
  Xsk.pkt_count_ r + Xsk.parse_errors_ r + n < 2 ^ 64 →
  Z.of_nat (length (Xsk.delivered r)) = Xsk.pkt_count_ r →
  let r' := Xsk.process_rx_batch rx_desc get_frame parse rdtsc n r in
  0 ≤ Xsk.pkt_count_ r' ∧ 0 ≤ Xsk.parse_errors_ r' ∧
  Xsk.pkt_count_ r' + Xsk.parse_errors_ r' ≤ Xsk.pkt_count_ r + Xsk.parse_errors_ r + n ∧
  Z.of_nat (length (Xsk.delivered r')) = Xsk.pkt_count_ r'.
Proof.
  intros Hn Hc He Hb Hd. unfold Xsk.process_rx_batch.
  destruct (Xsk.process_rx_batch_from_spec rx_desc get_frame parse rdtsc (Z.to_nat n) 0 r)
    as (_ & _ & H3 & H4 & H5 & H6); [lia..|].
  pose proof (frames_length (Xsk.rx_idx_ r) 0 (Z.to_nat n)) as Hf. cbv zeta.
  assert (length (Xsk.delivered (Xsk.process_rx_batch_from rx_desc get_frame parse rdtsc (Z.to_nat n) 0 r)) =
    length (Xsk.delivered r) + length (Xsk.messages parse (Xsk.frames rx_desc get_frame (Xsk.rx_idx_ r) 0 (Z.to_nat n))))%nat as Hl.
  { rewrite <-(length_fmap fst), H3, length_app, length_fmap. done. }
  lia.
Qed.

(** The counter is read forwards. *)
Lemma batch_reads n i r :
  (Xsk.tsc_reads r ≤ Xsk.tsc_reads (Xsk.process_rx_batch_from rx_desc get_frame parse rdtsc n i r))%nat.
Proof using.
  revert i r. induction n as [|n IH]; intros i r; [done|]. cbn [Xsk.process_rx_batch_from].
  etrans; [|apply IH]. unfold Xsk.process_packet. destruct (rx_desc _) as [addr len].
  destruct (get_frame addr); [|done]. destruct (parse _ _); simpl; lia.
Qed.

Lemma poll_reads k s : (Xsk.tsc_reads (rx s) ≤ Xsk.tsc_reads (rx (poll k s)))%nat.
Proof using.
  unfold poll. destruct (Xsk.fill_rx_ring _ _ _ _ _) as [[n_free written] left].
  destruct (peeked k) as [n_pkts rx_idx]. destruct (0 <? n_pkts); [|done]. cbn [rx].
  unfold Xsk.process_rx_batch. etrans; [|apply batch_reads]. done.
Qed.

Context {Hcounter : Clock.Counter rdtsc} (Hticks : ticks = Clock.initial_ticks).
Context (Hpeek : ∀ i, 0 ≤ (peeked i).1 ≤ 32).

Lemma poll_accounts c0 k s :
  accounts c0 (arrived k) s → 0 ≤ arrived k → 0 ≤ c0 → c0 + arrived k + 32 < 2 ^ 64 →
  accounts c0 (arrived (S k)) (poll k s).
Proof using Hpeek.
  intros [Ht Hr [Hc He] Hs Hd Hst] Ha Hc0 Hb. unfold poll.
  destruct (Xsk.fill_rx_ring _ _ _ _ _) as [[n_free written] left].
  rewrite arrived_S. specialize (Hpeek k). destruct (peeked k) as [n_pkts rx_idx]. cbn [fst snd] in *.
  set (r := Xsk.mkRx rx_idx _ _ _ _ _). destruct (Z.ltb_spec 0 n_pkts).
  - destruct (batch_counts n_pkts r) as (B1 & B2 & B3 & B4); [subst r; simpl; lia..|].
    subst r. simpl in B3.
    split; simpl; [rewrite Ht, wrap_small; lia|rewrite total_snoc; lia|done|lia|done|done].
  - replace n_pkts with 0 by lia. split; simpl; rewrite ?Z.add_0_r; done.
Qed.

Lemma stats_account j c0 n s :
  accounts c0 n s → (j ≤ Xsk.tsc_reads (rx s))%nat →
  ∃ s', print_stats (rdtsc j) s = Ok s' ∧ accounts c0 n s' ∧ (j ≤ Xsk.tsc_reads (rx s'))%nat.
Proof using Hcounter Hticks.
  intros H1 Hj. unfold print_stats.
  destruct ((Z.rem (total_packets s) 10000 =? 0) && (0 <? total_packets s)) eqn:Hstats; [|by exists s].
  apply andb_true_iff in Hstats as [Hrem%Z.eqb_eq Hpos%Z.ltb_lt]. rewrite Hticks.
  destruct (Clock.counter_elapsed j (Xsk.tsc_reads (rx s)) Hj) as [-> Hd].
  destruct (Clock.initial_ticks_convert _ Hd) as (ns & -> & _).
  rewrite bind_ret_l. eexists. split; [done|]. split; [|simpl; lia]. destruct H1. split; simpl; try done.
  apply Forall_app. split; [done|]. constructor; [|done]. simpl. split; [done|].
  by rewrite <-Z.rem_mod_nonneg by lia.
Qed.

Lemma arrived_nonneg k : 0 ≤ arrived k ≤ 32 * Z.of_nat k.
Proof using Hpeek.
  induction k as [|k IH]; [done|]. rewrite arrived_S. specialize (Hpeek k). lia.
Qed.

(** C39: the receive loop, observed for any number of iterations of a socket whose program is
    loaded, has counted and released to the ring exactly the packets that arrived, has
    handed over as many messages as it counts, and messages and parse errors are never more
    than the packets; the statistics are printed only at positive multiples of 10000
    packets.  Nothing in it calibrates the clock: [ticks_per_ns_] is its initial 1.0.  With
    a counter below 2^63 that does not go back ([Clock.Counter]) the conversion of the elapsed
    ticks is then defined.  At most 32 packets are granted by each poll, as asked for, and
    the packets fit 64 bits. *)
Theorem rx_loop_accounts (k : nat) (s : socket) (x : Z) (r0 : Xsk.rx_state) (fill_idx0 : Z)
    (Hopen : xsk_ s = Some x) (Hc : 0 ≤ Xsk.pkt_count_ r0) (He : 0 ≤ Xsk.parse_errors_ r0)
    (Hd : Z.of_nat (length (Xsk.delivered r0)) = Xsk.pkt_count_ r0)
    (Hsmall : Xsk.pkt_count_ r0 + Xsk.parse_errors_ r0 + 32 * Z.of_nat k < 2 ^ 64) :
  ∃ s', run_rx_loop k s r0 fill_idx0 = Ok (Running s') ∧
    accounts (Xsk.pkt_count_ r0 + Xsk.parse_errors_ r0) (arrived k) s'.
Proof using Hcounter Hticks Hpeek.
  unfold run_rx_loop, rx_iterations. rewrite Hopen.
  destruct (for_loop_invariant (λ j s, accounts (Xsk.pkt_count_ r0 + Xsk.parse_errors_ r0)
    (arrived (Z.to_nat j)) s ∧ (Xsk.tsc_reads r0 ≤ Xsk.tsc_reads (rx s))%nat) k 0
    (rx_iteration (rdtsc (Xsk.tsc_reads r0))) (mkLoop (tick r0) fill_idx0 [] [] 0 []))
    as (s' & -> & Ha & _).
  - split; [|simpl; lia]. split; simpl; try done. change (arrived (Z.to_nat 0)) with 0. lia.
  - intros j t Hj [Ht Hread]. pose proof (arrived_nonneg (Z.to_nat j)).
    replace (Z.to_nat (j + 1)) with (S (Z.to_nat j)) by lia.
    apply stats_account; [apply poll_accounts; [done|lia..]|].
    pose proof (poll_reads (Z.to_nat j) t). lia.
  - exists s'. rewrite Z.add_0_l, Nat2Z.id in Ha. done.
Qed.

(** Before a program is loaded the loop is not entered. *)
Lemma rx_loop_needs_socket k s r0 fill_idx0 :
  xsk_ s = None → ∃ line, run_rx_loop k s r0 fill_idx0 = Ok (Returned line).
Proof using. intros Hx. unfold run_rx_loop. rewrite Hx. by eexists. Qed.
End Loop.

(** A packet in each of 64 polls, on a socket whose program is loaded. *)
Lemma rx_loop_accounts_witness :
  ∃ s', run_rx_loop (demo_config 4) Clock.initial_ticks (λ i, (0, 1)) (λ _, Some [35]) (λ d _, Some d)
      Clock.demo_rdtsc (λ _, false) (λ _, (1, 0)) (λ _, (1, 7)) (λ _, [0]) 64
      (set_xsk (Some 8) (demo_session 4 [])) (Xsk.mkRx 0 0 0 [] [] 0) 0 = Ok (Running s') ∧
    accounts 0 64 s'.
Proof.
  exact (rx_loop_accounts (Hcounter := Clock.demo_counter) (demo_config 4) Clock.initial_ticks
    (λ i, (0, 1)) (λ _, Some [35]) (λ d _, Some d)
    Clock.demo_rdtsc (λ _, false) (λ _, (1, 0)) (λ _, (1, 7)) (λ _, [0]) eq_refl
    ltac:(intros i; simpl; lia) 64 (set_xsk (Some 8) (demo_session 4 [])) 8 (Xsk.mkRx 0 0 0 [] [] 0) 0
    eq_refl ltac:(simpl; lia) ltac:(simpl; lia) eq_refl eq_refl).
Defined.
End XskLife.
